(* ===== verification/_CoqProject ===== *)
-Q . S2P
Prelude.v
Blocks.v
Base32.v
Sha1.v
Hmac.v
Sha2.v
HmacSha2.v
Hotp.v
Heap.v
Kmp.v
CString.v
Dechunk.v
PamWorld.v
CfgFile.v
PamCodes.v
PamMain.v
DList.v
HList.v
HeapProp.v
WordMem.v
Rbtree.v
RbTrees.v
RbMem.v
RbInsert.v
RbErase.v
RbOps.v
RbSpec.v
RbClient.v
Sfprime.v
Sfhash.v
SfhashKeys.v
SfhashTable.v
SfhashOps.v
SfhashSpec.v
WordExit.v
FdIo.v
EventQueue.v
Inotify.v
HashTable.v
AddrHash.v
AcBm.v
AcTrie.v
AcShift.v
AcSearch.v
