(* ===== verification/Prelude.v ===== *)
(** * Code-Library: a verification development

    The repository (src/) is a collection of C programs and libraries that share
    no code but for a few: a login module with one-time codes
    (google-authenticator/libpam) and the hash functions it is built on, and
    libraries of data structures, string search, decoders and small system
    programs.  This development models each in Rocq as its source is written and
    proves what it is for.  This file is the root; it also holds what all the
    others share: fixed-width integers and bit operations ([wrap], [swrap], the
    hint database [zbits]), memory as a list of bytes ([load], [store],
    [store_range]), arrays with an [int] index ([get], [set]), strings.

    ** How the code is modelled

    - An integer is a [Z]; arithmetic that can leave its width is wrapped where
      the source does it.  Where an [int] cannot overflow in the bounds of a
      theorem, it is not wrapped, and the bounds are hypotheses.
    - A read or write outside an object, through a null or freed pointer, and a
      step that the model does not give a meaning have no result: [None] of an
      [option], or [undefined].  The theorems on a function say that it has a
      result, so that they include its memory safety.
    - A loop without a structural bound has fuel; the theorems ask for enough
      fuel and give the result, never "if there is a result".
    - [malloc], the clock, files, [read] and the like are parameters, oracles or
      scripts, with the laws that the code relies on.  Theorems hold for every
      choice that satisfies the laws; each has a witness with a concrete one.
    - Code that occurs twice in the source with a difference in one place (left
      and right, [>] and [<], SHA-256 and SHA-512, reading and writing) is here
      once with that place as an argument.

    ** The files

    The login module, google-authenticator/libpam:
    - [Base32]: base32.c, both functions, on buffers that may overlap.  The
      specification reads and writes bits; decoding inverts encoding.
    - [Blocks], [Sha1]: sha1.c (and its copy hotp/sha1.c).  Any division of the
      input into updates gives the digest of FIPS 180; the three builds of the
      round loop agree.
    - [Hmac]: hmac.c, [compute_code] of pam_google_authenticator.c, [generateCode]
      of google-authenticator.c: RFC 2104 and RFC 4226.
    - [CString]: the string functions of the C library that the module calls.
    - [PamWorld]: what the module reads and changes outside its variables: files,
      ids, log, clock, allocations, answers of the user.
    - [CfgFile]: [get_cfg_value] and [set_cfg_value]: the state file as lines.
    - [PamCodes]: rate limit, scratch codes, counter and time-based codes, reuse
      prevention, skew adjustment, over the class [CodeGen] of code generators.
    - [PamMain]: arguments, place of the state file, privileges, reading and
      atomic replacement of the file, the conversation, and
      [google_authenticator], which instantiates [CodeGen] with [Hmac] and
      composes the rest.  The theorems: each check gives exactly the answer and
      the new state file that the options ask for, with the window that
      WINDOW_SIZE says, and fails otherwise only for a bad option or a failed
      allocation; a login is granted only for a right code, and the code is used
      up in the file before the module returns (safety), but for a code that is
      accepted by the rule of three codes in a row, which can be used once more
      ([skew_replay]); privileges are restored, the file is replaced as a whole
      or not at all.

    Other hash and code libraries:
    - [Sha2], [HmacSha2]: hmac/hmac/sha2.c and hmac_sha2.c; four digests, two
      builds, streaming against FIPS 180 (constants computed from the primes) and
      RFC 2104, for messages below 2^29 bytes, which is what the code's 32-bit
      counter of bits admits.
    - [Hotp]: hotp/generate_hotp.c: checksum, number printing, code generation
      into the caller's buffer, with the offset that it asks for.

    Data structures:
    - [Heap]: heap/bigheap.c and smallheap.c over the class [Above] of
      comparisons: a stream of cells leaves the best of them.
    - [DList], [HList]: list/mylist.h, rings and hash lists in a memory with a map
      for each field; refinement of sequences of operations on lists, and of
      what the nodes outside every list hold (poison, or NULL).
    - [HeapProp]: predicates on memories as a linear logic of Iris's kind, in
      which nothing can be dropped.  [WordMem]: a state monad over a memory of
      words, [malloc] and [free] with the laws of the class [Malloc], weakest
      preconditions, and [wp_triple], which takes a proof in the logic to a
      statement without it: [triple P c Q] says that in every memory that
      consists of the cells of [P] and others the program [c] has a result, and
      the new memory consists of the cells of [Q] and the same others.  So what
      is allocated is in [Q] or has been freed, and as a second [free] has no
      result, it has been freed exactly once.  [WordExit]: the same for programs
      that may end the process ([xmalloc], [xcalloc] of hash/util.c), which
      they do only after a failed allocation.
    - [Rbtree] (code of rbtree/rbtree.c, rbtree.h, myrbtree.c), [RbTrees]
      (functional trees and the invariant), [RbMem], [RbInsert], [RbErase],
      [RbOps] (proofs in the logic), [RbSpec] (triples of the operations),
      [RbClient] (any run of the integer set against a sorted list).
    - [Sfprime], [Sfhash] (code of sfghash/), [SfhashKeys], [SfhashTable],
      [SfhashOps] (proofs), [SfhashSpec] (a table from [sfghash_new] to
      [sfghash_delete] is a finite map with an enumeration; all memory is freed
      exactly once).
    - [HashTable]: hash/hash.c against the interface [Keys], which states what
      the four function pointers of a table promise; [AddrHash]: hash/addr_hash.c
      gives an instance of [Keys] and the refinement of whole runs.

    Strings and system programs:
    - [Kmp]: kmp/kmp.c finds exactly the occurrences.
    - [AcBm] (code of acbm/ac_bm_success/ac_bm.c), [AcTrie] (the trie on the
      heap against a map from words to nodes), [AcShift] (what the tables of
      shifts promise), [AcSearch] (a search reports exactly the places with a
      pattern, and returns; all memory is given back, the block of the tree
      included; what happens when [malloc] fails).
    - [Dechunk]: http_chunk/dechunk.c against a relation on phases, for every
      behaviour of [malloc] and [realloc]: a buffer that [realloc] moves leaves
      a stale pointer, and the run has no result.
    - [FdIo]: the four transfer functions of utils/utils.c: what is read and
      written for every script of short transfers and failures, and exactly when
      [readn_nonblock] returns.
    - [EventQueue], [Inotify]: inotify/event_queue.c, inotify_utils.c and
      inotify_test.c: the whole watcher against the transcript of its events.

    ** Fuel and bounds

    Red-black tree: twice the binary logarithm of the number of nodes and one
    more.  [Sfhash]: more than the nodes, the rows and the lengths of the keys.
    [HashTable], [AddrHash]: more than the calls and the 256 rows.  [FdIo]: the
    length of the script and two.  [Inotify]: more than the buffer, which holds
    all events of a round.  [AcBm]: more than the longest pattern, 1024, and
    twice the text, as each step of a search moves on by at least one place.
    Other loops: the length of the text or the array, stated in the lemma.

    ** Not modelled

    - cjson/: a third-party library, whose numbers are doubles that the C library
      prints and reads.  acbm/ac_bm_for_c++: a C++ class over the containers of
      its library.
    - proxy/, log/, c-log-master/, timer/: sockets, [select], threads, signals and
      formatted output with no data of their own.
    - google-authenticator.c but for [generateCode]: a terminal dialogue and a QR
      code library loaded at run time; its demo and unit tests; the mobile
      applications (Java, Objective-C).
    - The [main] functions but for the watcher's, which are examples; copies of
      modelled files under hmac/test; samples of build systems.
    - [sfghash]: splay mode and user keys are modelled but not in the
      refinement; splay mode loses nodes ([splay_loses_node]).  [acbmback_init]
      is modelled; there is no search of the tree that it makes.  Patterns of
      mixed case, and case-sensitive patterns with a capital at the start, are
      outside [acbm_correct]: for the latter a search may not return
      ([capital_never_returns]). *)

From Stdlib Require Export Ascii ZArith Lia.
From stdpp Require Export base gmap strings numbers list.

#[global] Open Scope Z_scope.
#[global] Set Default Proof Using "Type".

(** ** Fixed-width integers *)

(** An unsigned C integer of [w] bits keeps its value modulo [2^w]; a signed
    one is its two's complement reading. *)
Definition wrap (w z : Z) : Z := z mod 2 ^ w.
Definition swrap (w z : Z) : Z := (z + 2 ^ (w - 1)) mod 2 ^ w - 2 ^ (w - 1).

Definition u8 (z : Z) : Z := wrap 8 z.
Definition u32 (z : Z) : Z := wrap 32 z.
Definition u64 (z : Z) : Z := wrap 64 z.
Definition s32 (z : Z) : Z := swrap 32 z.
Definition s64 (z : Z) : Z := swrap 64 z.

Declare Scope cint_scope.
Delimit Scope cint_scope with C.
Notation "x &&& y" := (Z.land x y) (at level 40, left associativity) : cint_scope.
Notation "x ||| y" := (Z.lor x y) (at level 50, left associativity) : cint_scope.
Notation "x ^^^ y" := (Z.lxor x y) (at level 45, left associativity) : cint_scope.
Notation "x <<< n" := (Z.shiftl x n) (at level 32, left associativity) : cint_scope.
Notation "x >>> n" := (Z.shiftr x n) (at level 32, left associativity) : cint_scope.

Definition is_byte (b : Z) : Prop := 0 ≤ b < 256.

Create HintDb cint.

Lemma pow2_pos (w : Z) : 0 ≤ w → 0 < 2 ^ w.
Proof. intros; apply Z.pow_pos_nonneg; lia. Qed.

Lemma wrap_range (w z : Z) : 0 ≤ w → 0 ≤ wrap w z < 2 ^ w.
Proof. intros H. apply Z.mod_pos_bound, pow2_pos, H. Qed.

Lemma wrap_small (w z : Z) : 0 ≤ z < 2 ^ w → wrap w z = z.
Proof. apply Z.mod_small. Qed.

Lemma wrap_testbit (w z i : Z) :
  0 ≤ w → Z.testbit (wrap w z) i = bool_decide (i < w) && Z.testbit z i.
Proof.
  intros Hw. unfold wrap. case_bool_decide as H; simpl.
  - destruct (decide (i < 0)).
    + by rewrite !Z.testbit_neg_r by done.
    + apply Z.mod_pow2_bits_low; lia.
  - apply Z.mod_pow2_bits_high; lia.
Qed.

Lemma swrap_mod (w z : Z) : 0 < w → wrap w (swrap w z) = wrap w z.
Proof.
  intros Hw. unfold wrap, swrap.
  rewrite Zminus_mod_idemp_l. f_equal; lia.
Qed.

Lemma swrap_small (w z : Z) :
  0 < w → - 2 ^ (w - 1) ≤ z < 2 ^ (w - 1) → swrap w z = z.
Proof.
  intros Hw Hz. unfold swrap.
  replace (2 ^ w) with (2 * 2 ^ (w - 1)) by (rewrite <-Z.pow_succ_r by lia; f_equal; lia).
  rewrite Z.mod_small; lia.
Qed.

Lemma swrap_range (w z : Z) : 0 < w → - 2 ^ (w - 1) ≤ swrap w z < 2 ^ (w - 1).
Proof.
  intros Hw. unfold swrap.
  assert (2 ^ w = 2 * 2 ^ (w - 1)) as E
    by (rewrite <-Z.pow_succ_r by lia; f_equal; lia).
  pose proof (Z.mod_pos_bound (z + 2 ^ (w - 1)) (2 ^ w)) as B.
  pose proof (pow2_pos (w - 1)). lia.
Qed.

(** Truncation to a signed word keeps the low bits. *)
Lemma swrap_testbit_low (w z i : Z) :
  0 < w → i < w → Z.testbit (swrap w z) i = Z.testbit z i.
Proof.
  intros Hw Hi.
  pose proof (wrap_testbit w (swrap w z) i) as H1.
  pose proof (wrap_testbit w z i) as H2.
  rewrite swrap_mod in H1 by done.
  rewrite bool_decide_true in H1, H2 by lia.
  simpl in *. rewrite <-H1, <-H2 by lia. done.
Qed.

Lemma wrap_wrap (w z : Z) : 0 ≤ w → wrap w (wrap w z) = wrap w z.
Proof. intros. apply Z.mod_mod. pose proof (pow2_pos w). lia. Qed.

Lemma wrap_land_ones (w z : Z) : 0 ≤ w → Z.land z (Z.ones w) = wrap w z.
Proof. intros. by apply Z.land_ones. Qed.

(** A byte has no bit at or above position 8; generalised to any width. *)
Lemma testbit_high (w z i : Z) : 0 ≤ z < 2 ^ w → w ≤ i → Z.testbit z i = false.
Proof.
  intros [H0 H1] Hi. destruct (decide (z = 0)) as [->|Hz]; [apply Z.bits_0|].
  apply Z.bits_above_log2; [lia|].
  apply Z.log2_lt_pow2; [lia|].
  eapply Z.lt_le_trans; [exact H1|]. apply Z.pow_le_mono_r; lia.
Qed.

(** Proving equations between bit expressions one bit at a time. *)
Create Rewrite HintDb zbits.
#[export] Hint Rewrite Z.land_spec Z.lor_spec Z.lxor_spec Z.bits_0 : zbits.
#[export] Hint Rewrite Z.shiftl_spec Z.shiftr_spec Z.lnot_spec using lia : zbits.
#[export] Hint Rewrite Z.testbit_ones_nonneg using lia : zbits.
#[export] Hint Rewrite wrap_testbit using lia : zbits.

Ltac zbits := autorewrite with zbits.

(** Bytes under masks: the single bits of shifted, masked and joined bytes. *)
Lemma testbit_mask8 (k i : Z) :
  0 ≤ k → 0 ≤ i → Z.testbit (Z.shiftl (Z.ones 8) k) i = bool_decide (k ≤ i < k + 8).
Proof.
  intros Hk Hi. rewrite Z.shiftl_spec by lia. case_bool_decide.
  - rewrite Z.ones_spec_low; [done|lia].
  - destruct (decide (i < k)); [by rewrite Z.testbit_neg_r by lia|].
    apply Z.ones_spec_high. lia.
Qed.

Lemma testbit_byte_out (b i : Z) : is_byte b → ¬ (0 ≤ i < 8) → Z.testbit b i = false.
Proof.
  intros Hb Hi. destruct (decide (i < 0)); [by apply Z.testbit_neg_r|].
  apply (testbit_high 8); [done|lia].
Qed.

Ltac zmask :=
  repeat match goal with
  | |- context [Z.testbit (Z.lor ?x ?y) ?i] => rewrite (Z.lor_spec x y i)
  | |- context [Z.testbit (Z.land ?x ?y) ?i] => rewrite (Z.land_spec x y i)
  | |- context [Z.testbit (Z.shiftl (Z.ones 8) ?k) ?i] => rewrite (testbit_mask8 k i) by lia
  | |- context [Z.testbit (wrap ?w ?x) ?i] => rewrite (wrap_testbit w x i) by lia
  | |- context [Z.testbit (Z.shiftl ?x ?n) ?i] =>
      first [rewrite (Z.shiftl_spec x n i) by lia | rewrite (Z.testbit_neg_r (Z.shiftl x n) i) by lia]
  | |- context [Z.testbit (Z.shiftr ?x ?n) ?i] => rewrite (Z.shiftr_spec x n i) by lia
  | |- context [bool_decide ?P] =>
      first [rewrite (bool_decide_true P) by lia | rewrite (bool_decide_false P) by lia]
  | |- context [Z.testbit ?b ?e] =>
      is_var b; rewrite (testbit_byte_out b e) by (first [assumption|lia])
  end;
  rewrite ?andb_false_r, ?andb_true_r, ?orb_false_r; cbn [andb orb].

(** ** Bits of a number, most significant first *)

Fixpoint bits_of (n : nat) (z : Z) : list bool :=
  match n with
  | O => []
  | S n' => Z.testbit z (Z.of_nat n') :: bits_of n' z
  end.

Fixpoint Z_of_bits (bs : list bool) : Z :=
  match bs with
  | [] => 0
  | b :: bs' => Z.b2z b * 2 ^ Z.of_nat (length bs') + Z_of_bits bs'
  end.

Lemma length_bits_of (n : nat) (z : Z) : length (bits_of n z) = n.
Proof. induction n; simpl; auto. Qed.

Lemma bits_of_ext (n : nat) (x y : Z) :
  (∀ i, 0 ≤ i < Z.of_nat n → Z.testbit x i = Z.testbit y i) →
  bits_of n x = bits_of n y.
Proof.
  induction n as [|n IH]; intros H; simpl; [done|].
  rewrite H by lia. f_equal. apply IH. intros i Hi. apply H. lia.
Qed.

(** Splitting off the low [m] bits. *)
Lemma bits_of_app (n m : nat) (z : Z) :
  bits_of (n + m) z = bits_of n (Z.shiftr z (Z.of_nat m)) ++ bits_of m z.
Proof.
  induction n as [|n IH]; simpl; [done|].
  rewrite IH. f_equal. rewrite Z.shiftr_spec by lia. f_equal. lia.
Qed.

Lemma Z_of_bits_range (bs : list bool) : 0 ≤ Z_of_bits bs < 2 ^ Z.of_nat (length bs).
Proof.
  induction bs as [|b bs IH]; simpl length; cbn [Z_of_bits]; [simpl; lia|].
  rewrite Nat2Z.inj_succ, Z.pow_succ_r by lia. destruct b; simpl Z.b2z; lia.
Qed.

Lemma Z_of_bits_of (n : nat) (z : Z) : Z_of_bits (bits_of n z) = wrap (Z.of_nat n) z.
Proof.
  induction n as [|n IH]; simpl bits_of; cbn [Z_of_bits].
  - unfold wrap. by rewrite Z.mod_1_r.
  - rewrite IH, length_bits_of. unfold wrap.
    rewrite Nat2Z.inj_succ, Z.pow_succ_r by lia.
    rewrite (Z.mul_comm 2), Z.rem_mul_r by (pose proof (pow2_pos (Z.of_nat n)); lia).
    rewrite Z.testbit_spec' by lia. lia.
Qed.

Lemma bits_of_Z_of_bits (bs : list bool) : bits_of (length bs) (Z_of_bits bs) = bs.
Proof.
  induction bs as [|b bs IH]; cbn [Z_of_bits bits_of length]; [done|].
  pose proof (Z_of_bits_range bs) as R.
  pose proof (pow2_pos (Z.of_nat (length bs))).
  f_equal.
  - apply Z.b2z_inj. rewrite Z.testbit_spec' by lia.
    rewrite Z.add_comm, Z.div_add, Z.div_small by lia. destruct b; done.
  - transitivity (bits_of (length bs) (Z_of_bits bs)); [|exact IH].
    apply bits_of_ext. intros i Hi.
    rewrite <-(Z.mod_pow2_bits_low (_ + _) (Z.of_nat (length bs)) i) by lia.
    rewrite Z.add_comm, Z.mod_add, Z.mod_small by lia. done.
Qed.

(** ** Byte memory *)

(** A block of memory is the list of its bytes; reading or writing outside the
    block has no result. *)
Definition load (m : list Z) (i : nat) : option Z := m !! i.

Definition store (m : list Z) (i : nat) (v : Z) : option (list Z) :=
  if decide (i < length m)%nat then Some (<[i := v]> m) else None.

Definition load_range (m : list Z) (i n : nat) : option (list Z) :=
  if decide (i + n ≤ length m)%nat then Some (take n (drop i m)) else None.

Definition store_range (m : list Z) (i : nat) (vs : list Z) : option (list Z) :=
  if decide (i + length vs ≤ length m)%nat
  then Some (take i m ++ vs ++ drop (i + length vs) m) else None.

(** Arrays indexed by an [int]. *)
Definition get (array : list Z) (i : Z) : option Z :=
  if i <? 0 then None else array !! Z.to_nat i.

Definition set (array : list Z) (i v : Z) : option (list Z) :=
  if i <? 0 then None else store array (Z.to_nat i) v.

Lemma get_nat (a : list Z) (i : nat) : (i < length a)%nat → get a (Z.of_nat i) = Some (a !!! i).
Proof.
  intros Hi. unfold get. rewrite (proj2 (Z.ltb_ge _ _)) by lia. rewrite Nat2Z.id.
  by apply list_lookup_lookup_total_lt.
Qed.

Lemma set_nat (a : list Z) (i : nat) (v : Z) :
  (i < length a)%nat → set a (Z.of_nat i) v = Some (<[i := v]> a).
Proof.
  intros Hi. unfold set, store. rewrite (proj2 (Z.ltb_ge _ _)), Nat2Z.id by lia.
  by rewrite decide_True.
Qed.

(** [store_range] writes a list of bytes one [store] after the other. *)
Lemma store_range_nil (m : list Z) (i : nat) :
  (i ≤ length m)%nat → store_range m i [] = Some m.
Proof.
  intros H. unfold store_range. simpl. rewrite decide_True by lia.
  by rewrite Nat.add_0_r, take_drop.
Qed.

Lemma store_lookup (m m' : list Z) (i : nat) (v : Z) :
  store m i v = Some m' → m' = <[i := v]> m ∧ (i < length m)%nat.
Proof. unfold store. case_decide; naive_solver. Qed.

Lemma store_range_length (m m' : list Z) (i : nat) (vs : list Z) :
  store_range m i vs = Some m' → length m' = length m.
Proof.
  unfold store_range. case_decide; [|done]. intros [= <-].
  rewrite !length_app, length_take, length_drop. lia.
Qed.

Lemma store_range_cons (m : list Z) (i : nat) (v : Z) (vs : list Z) :
  store_range m i (v :: vs) = m' ← store m i v; store_range m' (S i) vs.
Proof.
  unfold store, store_range. simpl. case_decide as H1.
  - rewrite decide_True by lia. simpl.
    rewrite decide_True by (rewrite length_insert; lia).
    f_equal. rewrite insert_take_drop by lia.
    rewrite take_app_ge by (rewrite length_take; lia).
    rewrite length_take, Nat.min_l by lia.
    replace (S i - i)%nat with 1%nat by lia. cbn [take].
    rewrite <-app_assoc. simpl. f_equal. f_equal. f_equal.
    rewrite drop_app_ge by (rewrite length_take; lia).
    rewrite length_take, Nat.min_l by lia.
    replace (S (i + length vs) - i)%nat with (S (length vs)) by lia.
    simpl. rewrite drop_drop. f_equal. lia.
  - case_decide; simpl; [|done].
    rewrite decide_False; [done|]. rewrite length_insert. lia.
Qed.

Lemma store_range_lookup_out (m m' : list Z) (i j : nat) (vs : list Z) :
  store_range m i vs = Some m' → (j < i ∨ i + length vs ≤ j)%nat → m' !! j = m !! j.
Proof.
  unfold store_range. case_decide; [|done]. intros [= <-] [Hj|Hj].
  - rewrite lookup_app_l by (rewrite length_take; lia). by apply lookup_take_lt.
  - rewrite lookup_app_r by (rewrite length_take; lia).
    rewrite lookup_app_r by (rewrite length_take; lia).
    rewrite lookup_drop, length_take. f_equal. lia.
Qed.

Lemma store_range_read (m m' : list Z) (i : nat) (vs : list Z) :
  store_range m i vs = Some m' → load_range m' i (length vs) = Some vs.
Proof.
  intros H. pose proof (store_range_length _ _ _ _ H) as L.
  unfold store_range in H. case_decide as Hd; [|done]. simplify_eq.
  unfold load_range. rewrite L, decide_True by lia.
  rewrite drop_app_ge by (rewrite length_take; lia).
  rewrite length_take, Nat.min_l by lia. rewrite Nat.sub_diag, drop_0.
  by rewrite take_app_length.
Qed.

Lemma load_range_app_1 (m : list Z) (i : nat) (xs ys : list Z) :
  load_range m i (length xs + length ys) = Some (xs ++ ys) →
  load_range m i (length xs) = Some xs.
Proof.
  unfold load_range. case_decide; [|done]. intros [= E].
  rewrite decide_True by lia. f_equal.
  apply (f_equal (take (length xs))) in E.
  rewrite take_take, take_app_length, Nat.min_l in E by lia. done.
Qed.

(** ** Characters and C strings *)

Definition NUL : Z := 0.
Definition TAB : Z := 9.
Definition LF : Z := 10.
Definition CR : Z := 13.
Definition SP : Z := 32.

Definition chr (a : Ascii.ascii) : Z := Z.of_N (Ascii.N_of_ascii a).
Arguments chr a%_char.

(** Character constants as numbers, for [lia]. *)
Ltac chr_simpl :=
  unfold NUL, TAB, LF, CR, SP in *;
  repeat match goal with
  | |- context [chr ?a] => let v := eval vm_compute in (chr a) in change (chr a) with v
  | H : context [chr ?a] |- _ => let v := eval vm_compute in (chr a) in change (chr a) with v in H
  end.

Fixpoint bytes (s : string) : list Z :=
  match s with
  | EmptyString => []
  | String a s' => chr a :: bytes s'
  end.


(** [cstr_at m p s]: the NUL-terminated string starting at offset [p] of the
    block [m] has the bytes [s]. *)
Definition cstr_at (m : list Z) (p : nat) (s : list Z) : Prop :=
  Forall (λ c, c ≠ 0) s ∧ load_range m p (S (length s)) = Some (s ++ [0]).

Lemma load_range_cons (m : list Z) (p n : nat) (c : Z) (vs : list Z) :
  load_range m p (S n) = Some (c :: vs) ↔
  load m p = Some c ∧ load_range m (S p) n = Some vs.
Proof.
  unfold load, load_range. split.
  - case_decide as H; [|done]. intros [= E].
    destruct (lookup_lt_is_Some_2 m p) as [x Hx]; [lia|].
    rewrite (drop_S _ _ _ Hx) in E. simpl in E. simplify_eq.
    rewrite decide_True by lia. done.
  - intros [Hc E]. case_decide as H; [|done].
    rewrite decide_True by lia. simplify_eq.
    by rewrite (drop_S _ _ _ Hc).
Qed.

Lemma cstr_at_cons (m : list Z) (p : nat) (c : Z) (s : list Z) :
  cstr_at m p (c :: s) ↔ c ≠ 0 ∧ load m p = Some c ∧ cstr_at m (S p) s.
Proof.
  unfold cstr_at. simpl. rewrite Forall_cons, load_range_cons. naive_solver.
Qed.

Lemma cstr_at_nil (m : list Z) (p : nat) : cstr_at m p [] ↔ load m p = Some 0.
Proof.
  unfold cstr_at. simpl. rewrite load_range_cons.
  split; [naive_solver|]. intros H. split; [done|]. split; [done|].
  unfold load_range. apply lookup_lt_Some in H.
  rewrite decide_True by lia. done.
Qed.

Lemma cstr_at_length (m : list Z) (p : nat) (s : list Z) :
  cstr_at m p s → (p + length s < length m)%nat.
Proof.
  intros [_ H]. unfold load_range in H. case_decide; [|done]. lia.
Qed.

(** A write that misses the string leaves it in place. *)
Lemma cstr_at_store (m m' : list Z) (p i : nat) (v : Z) (s : list Z) :
  cstr_at m p s → store m i v = Some m' →
  (i < p ∨ p + length s < i)%nat → cstr_at m' p s.
Proof.
  intros [Hz Hr] [-> Hi]%store_lookup Ho. split; [done|].
  unfold load_range in *. rewrite length_insert. case_decide as Hd; [|done].
  rewrite <-Hr. f_equal. apply list_eq. intros j.
  destruct (decide (j < S (length s))%nat).
  - rewrite !lookup_take_lt by done. rewrite !lookup_drop.
    apply list_lookup_insert_ne. lia.
  - by rewrite !lookup_take_ge by lia.
Qed.
