(* ===== verification/Blocks.v ===== *)
(** * Messages cut into blocks

    What the streaming hash functions share: the complete blocks of a message
    and the bytes left over, for any block size [B], and big-endian byte
    strings.  [Sha1] uses them at 64, [Sha2] at 64 and 128. *)

From S2P Require Import Prelude.

Lemma is_byte_wrap (x : Z) : is_byte (wrap 8 x).
Proof. unfold is_byte. change 256 with (2 ^ 8). by apply wrap_range. Qed.

Lemma lxor_byte (a b : Z) : is_byte a → is_byte b → is_byte (Z.lxor a b).
Proof.
  unfold is_byte. intros Ha Hb.
  assert (Z.lxor a b = wrap 8 (Z.lxor a b)) as ->; [|apply (is_byte_wrap (Z.lxor a b))].
  apply Z.bits_inj'. intros i Hi. rewrite wrap_testbit by lia.
  case_bool_decide; [done|]. simpl. rewrite Z.lxor_spec.
  rewrite !(testbit_high 8) by (done || lia). done.
Qed.

(** The bytes of [x], most significant first, [n] of them. *)
Fixpoint be_bytes (n : nat) (x : Z) : list Z :=
  match n with
  | O => []
  | S n' => wrap 8 (x / 2 ^ (8 * Z.of_nat n')) :: be_bytes n' x
  end.

Lemma be_bytes_ok (n : nat) (x : Z) : Forall is_byte (be_bytes n x).
Proof. induction n; constructor; auto using is_byte_wrap. Qed.

Lemma be_bytes_length (n : nat) (x : Z) : length (be_bytes n x) = n.
Proof. induction n; simpl; auto. Qed.

(** High bytes of a small number are zero. *)
Lemma be_bytes_zeros (n k : nat) (x : Z) :
  0 ≤ x < 2 ^ (8 * Z.of_nat k) → be_bytes (n + k) x = replicate n 0 ++ be_bytes k x.
Proof.
  intros Hx. induction n as [|n IH]; [done|]. cbn [Nat.add be_bytes replicate app].
  rewrite IH, Z.div_small; [done|].
  split; [lia|]. eapply Z.lt_le_trans; [apply Hx|]. apply Z.pow_le_mono_r; lia.
Qed.

(** [n] blocks from the front of a message. *)
Fixpoint blocks (B n : nat) (m : list Z) : list (list Z) :=
  match n with
  | O => []
  | S n' => take B m :: blocks B n' (drop B m)
  end.

(** The complete blocks of a message, and what follows them. *)
Definition all_blocks (B : nat) (m : list Z) : list (list Z) := blocks B (length m / B) m.
Definition tail (B : nat) (m : list Z) : list Z := drop (B * (length m / B)) m.

Section blocks.
Context (B : nat) (HB : (0 < B)%nat).

Lemma blocks_short (m : list Z) : (length m < B)%nat → all_blocks B m = [] ∧ tail B m = m.
Proof using. intros H. unfold all_blocks, tail. by rewrite Nat.div_small, Nat.mul_0_r. Qed.

Lemma blocks_step (b m : list Z) :
  length b = B → all_blocks B (b ++ m) = b :: all_blocks B m ∧ tail B (b ++ m) = tail B m.
Proof using HB.
  intros H. unfold all_blocks, tail.
  assert (length (b ++ m) / B = S (length m / B))%nat as ->.
  { rewrite length_app, H. replace (B + length m)%nat with (length m + 1 * B)%nat by lia.
    rewrite Nat.div_add by lia. lia. }
  split.
  - cbn [blocks]. rewrite take_app_le, take_ge, drop_app_ge, H by lia.
    by rewrite Nat.sub_diag.
  - replace (B * S (length m / B))%nat with (length b + B * (length m / B))%nat by lia.
    by rewrite drop_app_add.
Qed.

(** Cutting a message into its first block and the rest. *)
Lemma block_cases (P : list Z → Prop) :
  (∀ m, (length m < B)%nat → P m) → (∀ b m, length b = B → P m → P (b ++ m)) → ∀ m, P m.
Proof using HB.
  intros Hs Hb m. remember (length m) as n eqn:E. revert m E.
  induction n as [n IH] using lt_wf_ind. intros m ->.
  destruct (decide (length m < B)%nat); [by apply Hs|].
  rewrite <-(take_drop B m). apply Hb; [rewrite length_take; lia|].
  eapply IH; [|done]. rewrite length_drop. lia.
Qed.

Lemma blocks_app (m b : list Z) :
  all_blocks B (m ++ b) = all_blocks B m ++ all_blocks B (tail B m ++ b) ∧
  tail B (m ++ b) = tail B (tail B m ++ b).
Proof using HB.
  induction m as [m Hm|b0 m Hb IH] using block_cases.
  - by destruct (blocks_short m Hm) as [-> ->].
  - rewrite <-app_assoc. destruct (blocks_step b0 (m ++ b) Hb) as [-> ->].
    destruct (blocks_step b0 m Hb) as [-> ->]. destruct IH as [-> ->]. done.
Qed.

Lemma tail_length (m : list Z) : (length (tail B m) < B)%nat ∧
  Z.of_nat (length (tail B m)) = Z.of_nat (length m) mod Z.of_nat B.
Proof using HB.
  unfold tail. rewrite length_drop.
  pose proof (Nat.div_mod_eq (length m) B). pose proof (Nat.mod_upper_bound (length m) B).
  split; [lia|]. rewrite Nat2Z.inj_sub by lia. rewrite <-Nat2Z.inj_mod. lia.
Qed.

(** A property of the bytes holds of the bytes of each block. *)
Lemma all_blocks_Forall (Q : Z → Prop) (m : list Z) :
  Forall Q m → Forall (λ b, Forall Q b ∧ length b = B) (all_blocks B m).
Proof using HB.
  induction m as [m Hm|b m Hb IH] using block_cases; intros H.
  - by destruct (blocks_short m Hm) as [-> _].
  - destruct (blocks_step b m Hb) as [-> _]. apply Forall_app in H as [H1 H2].
    constructor; auto.
Qed.

End blocks.
