(* ===== verification/Base32.v ===== *)
(** * Base32 (google-authenticator/libpam/base32.c)

    [base32_decode] and [base32_encode] on byte memory, as the C loops run
    them: the [int] bit buffer keeps 32 bits, the source is read byte by byte
    up to its NUL, and the destination may overlap the source (the module
    decodes the shared secret in place).  The specification reads and writes
    lists of bits; the last theorems say that the loops compute it and that
    decoding inverts encoding. *)

From S2P Require Import Prelude.

(** ** The code *)

Definition alphabet : list Z := bytes "ABCDEFGHIJKLMNOPQRSTUVWXYZ234567".

(** White space and hyphens are skipped. *)
Definition is_separator (ch : Z) : bool :=
  (ch =? SP) || (ch =? TAB) || (ch =? CR) || (ch =? LF) || (ch =? chr "-").

(** Commonly mistyped characters. *)
Definition fix_mistyped (ch : Z) : Z :=
  if ch =? chr "0" then chr "O"
  else if ch =? chr "1" then chr "L"
  else if ch =? chr "8" then chr "B"
  else ch.

(** One base32 digit, or [None] where the code returns -1. *)
Definition lookup_digit (ch : Z) : option Z :=
  if ((chr "A" <=? ch) && (ch <=? chr "Z")) || ((chr "a" <=? ch) && (ch <=? chr "z"))
  then Some (u8 (Z.land ch 31 - 1))
  else if (chr "2" <=? ch) && (ch <=? chr "7")
  then Some (u8 (ch - (chr "2" - 26)))
  else None.

(** The common exit of both loops: terminate the output if there is room. *)
Definition terminate (m : list Z) (result : nat) (bufSize count : Z)
    : option (list Z * Z) :=
  if count <? bufSize
  then m' ← store m (result + Z.to_nat count) 0; Some (m', count)
  else Some (m, count).

Fixpoint decode_loop (fuel : nat) (m : list Z) (ptr result : nat)
    (bufSize buffer bitsLeft count : Z) : option (list Z * Z) :=
  match fuel with
  | O => None
  | S fuel =>
    if count <? bufSize then
      ch ← load m ptr;
      if ch =? 0 then terminate m result bufSize count
      else if is_separator ch then
        decode_loop fuel m (S ptr) result bufSize buffer bitsLeft count
      else
        let buffer := s32 (Z.shiftl buffer 5) in
        match lookup_digit (fix_mistyped ch) with
        | None => Some (m, -1)
        | Some d =>
          let buffer := Z.lor buffer d in
          let bitsLeft := bitsLeft + 5 in
          if 8 <=? bitsLeft then
            m' ← store m (result + Z.to_nat count) (u8 (Z.shiftr buffer (bitsLeft - 8)));
            decode_loop fuel m' (S ptr) result bufSize buffer (bitsLeft - 8) (count + 1)
          else decode_loop fuel m (S ptr) result bufSize buffer bitsLeft count
        end
    else terminate m result bufSize count
  end.

(** Every turn but the last moves [ptr], and reading past the block has no
    result, so the length of the block bounds the turns. *)
Definition base32_decode (m : list Z) (encoded result : nat) (bufSize : Z)
    : option (list Z * Z) :=
  decode_loop (S (length m)) m encoded result bufSize 0 0 0.

(** The bits the encoder gains before it emits a digit: the next byte, or the
    padding of the last digit. *)
Definition encode_refill (m : list Z) (data : nat) (length_ buffer bitsLeft next : Z)
    : option (Z * Z * Z) :=
  if bitsLeft <? 5 then
    if next <? length_ then
      b ← load m (data + Z.to_nat next);
      Some (Z.lor (s32 (Z.shiftl buffer 8)) (Z.land b 255), bitsLeft + 8, next + 1)
    else
      let pad := 5 - bitsLeft in
      Some (s32 (Z.shiftl buffer pad), bitsLeft + pad, next)
  else Some (buffer, bitsLeft, next).

Fixpoint encode_loop (fuel : nat) (m : list Z) (data : nat) (length_ : Z)
    (result : nat) (bufSize buffer bitsLeft next count : Z) : option (list Z * Z) :=
  match fuel with
  | O => None
  | S fuel =>
    if (count <? bufSize) && ((0 <? bitsLeft) || (next <? length_)) then
      '(buffer, bitsLeft, next) ← encode_refill m data length_ buffer bitsLeft next;
      let index := Z.land 31 (Z.shiftr buffer (bitsLeft - 5)) in
      ch ← alphabet !! Z.to_nat index;
      m' ← store m (result + Z.to_nat count) ch;
      encode_loop fuel m' data length_ result bufSize buffer (bitsLeft - 5) next (count + 1)
    else terminate m result bufSize count
  end.

(** [count] grows by one on every turn and stays below [bufSize]. *)
Definition base32_encode (m : list Z) (data : nat) (length_ : Z) (result : nat)
    (bufSize : Z) : option (list Z * Z) :=
  if (length_ <? 0) || (Z.shiftl 1 28 <? length_) then Some (m, -1)
  else if 0 <? length_ then
    b ← load m data;
    encode_loop (S (Z.to_nat bufSize)) m data length_ result bufSize b 8 1 0
  else terminate m result bufSize 0.

(** ** Specification on bits *)

Module Spec.

(** The groups of eight consecutive bits; an incomplete last group is lost. *)
Fixpoint groups8 (bs : list bool) : list (list bool) :=
  match bs with
  | b0 :: b1 :: b2 :: b3 :: b4 :: b5 :: b6 :: b7 :: r =>
      [b0; b1; b2; b3; b4; b5; b6; b7] :: groups8 r
  | _ => []
  end.

(** The groups of five consecutive bits; the last one is padded with zeros. *)
Fixpoint groups5 (bs : list bool) : list (list bool) :=
  match bs with
  | b0 :: b1 :: b2 :: b3 :: b4 :: r => [b0; b1; b2; b3; b4] :: groups5 r
  | [] => []
  | p => [p ++ replicate (5 - length p) false]
  end.

Definition digit_char (g : list bool) : Z := default 0 (alphabet !! Z.to_nat (Z_of_bits g)).

Definition encode (data : list Z) : list Z :=
  digit_char <$> groups5 (data ≫= bits_of 8).

Definition decode (s : list Z) : option (list Z) :=
  ds ← mapM (λ c, lookup_digit (fix_mistyped c)) (filter (λ c, is_separator c = false) s);
  Some (Z_of_bits <$> groups8 (ds ≫= bits_of 5)).

(** Decoding with at most [n] bytes of output and the bits [p] pending; an
    invalid character after the last byte of room is not seen. *)
Fixpoint decode_upto (n : nat) (p : list bool) (s : list Z) : option (list Z) :=
  match n, s with
  | O, _ | _, [] => Some []
  | S n', c :: s' =>
    if is_separator c then decode_upto n p s'
    else
      d ← lookup_digit (fix_mistyped c);
      let q := p ++ bits_of 5 d in
      if decide (8 ≤ length q)%nat
      then (λ o, Z_of_bits (take 8 q) :: o) <$> decode_upto n' (drop 8 q) s'
      else decode_upto n q s'
  end.

End Spec.

(** ** The loops compute the specification *)

Lemma lookup_digit_range (ch d : Z) : lookup_digit ch = Some d → 0 ≤ d < 32.
Proof.
  unfold lookup_digit, u8, wrap. chr_simpl. change 31 with (Z.ones 5).
  rewrite Z.land_ones by lia. change (2 ^ 5) with 32. change (2 ^ 8) with 256.
  intros H. repeat case_match; simplify_eq; Z.to_euclidean_division_equations; lia.
Qed.

(** Five more bits in the C buffer are five more bits in the list. *)
Lemma bits_of_push5 (k : nat) (b d : Z) :
  (k + 5 ≤ 32)%nat → 0 ≤ d < 32 →
  bits_of (k + 5) (Z.lor (s32 (Z.shiftl b 5)) d) = bits_of k b ++ bits_of 5 d.
Proof.
  intros Hk Hd. rewrite bits_of_app. f_equal; apply bits_of_ext; intros i Hi.
  - rewrite Z.shiftr_spec, Z.lor_spec by lia.
    rewrite (testbit_high 5 d) by (change (2 ^ 5) with 32; lia).
    unfold s32. rewrite swrap_testbit_low by lia.
    rewrite Z.shiftl_spec, orb_false_r by lia. f_equal. lia.
  - rewrite Z.lor_spec. unfold s32. rewrite swrap_testbit_low by lia.
    by rewrite Z.shiftl_spec_low by lia.
Qed.

Lemma take_bits_of (k n : nat) (b : Z) :
  (k ≤ n)%nat → take k (bits_of n b) = bits_of k (Z.shiftr b (Z.of_nat (n - k))).
Proof.
  intros H. replace n with (k + (n - k))%nat at 1 by lia.
  rewrite bits_of_app, take_app_le by (by rewrite length_bits_of).
  by rewrite take_ge by (by rewrite length_bits_of).
Qed.

Lemma drop_bits_of (k n : nat) (b : Z) :
  (k ≤ n)%nat → drop k (bits_of n b) = bits_of (n - k) b.
Proof.
  intros H. replace n with (k + (n - k))%nat at 1 by lia.
  rewrite bits_of_app, drop_app_ge by (by rewrite length_bits_of).
  by rewrite length_bits_of, Nat.sub_diag.
Qed.

(** The tail of the output: the terminating NUL, when there is room. *)
Definition terminator (bufSize : Z) (n : nat) : list Z :=
  if Z.of_nat n <? bufSize then [0] else [].

Lemma terminate_spec (m : list Z) (res : nat) (bufSize count : Z) :
  0 ≤ count → (res + Z.to_nat bufSize ≤ length m)%nat → count ≤ bufSize →
  ∃ m', store_range m (res + Z.to_nat count) (terminator bufSize (Z.to_nat count)) = Some m' ∧
        terminate m res bufSize count = Some (m', count).
Proof.
  intros H0 Hl Hb. unfold terminate, terminator. rewrite Z2Nat.id by done.
  destruct (Z.ltb_spec count bufSize).
  - unfold store. rewrite decide_True by lia. eexists. split; [|done].
    rewrite store_range_cons. unfold store. rewrite decide_True by lia. simpl.
    apply store_range_nil. rewrite length_insert. lia.
  - exists m. split; [|done]. apply store_range_nil. lia.
Qed.

(** What a run of the decoding loop leaves: the decoded bytes and their
    terminator after the bytes already there, or -1 and some of the bytes. *)
Definition decode_result (m : list Z) (res : nat) (bufSize count : Z)
    (o : option (list Z)) (r : option (list Z * Z)) : Prop :=
  match o with
  | Some out => ∃ m',
      store_range m (res + Z.to_nat count)
        (out ++ terminator bufSize (Z.to_nat count + length out)) = Some m' ∧
      r = Some (m', count + Z.of_nat (length out))
  | None => ∃ m' out,
      store_range m (res + Z.to_nat count) out = Some m' ∧
      (length out ≤ Z.to_nat (bufSize - count))%nat ∧ r = Some (m', -1)
  end.

(** One byte stored, then the rest of the run. *)
Lemma decode_result_cons (m m1 : list Z) (res : nat) (bufSize count v : Z) o r :
  0 ≤ count < bufSize →
  store m (res + Z.to_nat count) v = Some m1 →
  decode_result m1 res bufSize (count + 1) o r →
  decode_result m res bufSize count ((λ out, v :: out) <$> o) r.
Proof.
  intros Hc Hs H.
  unfold decode_result in *. destruct o as [out|]; simpl.
  - destruct H as (m' & Hm & ->).
    replace (res + Z.to_nat (count + 1))%nat with (S (res + Z.to_nat count)) in Hm by lia.
    exists m'. rewrite store_range_cons, Hs. simpl. split.
    + by replace (Z.to_nat count + S (length out))%nat
        with (Z.to_nat (count + 1) + length out)%nat by lia.
    + do 2 f_equal. lia.
  - destruct H as (m' & out & Hm & Hl & ->).
    replace (res + Z.to_nat (count + 1))%nat with (S (res + Z.to_nat count)) in Hm by lia.
    exists m', (v :: out). rewrite store_range_cons, Hs. simpl. split_and!; [done|lia|done].
Qed.

Lemma decode_loop_spec (s : list Z) :
  ∀ (fuel : nat) (m : list Z) (ptr res : nat) (bufSize buffer bitsLeft count : Z),
  cstr_at m ptr s → (length s < fuel)%nat →
  0 ≤ count ≤ bufSize → 0 ≤ bitsLeft < 8 →
  (res + Z.to_nat bufSize ≤ length m)%nat →
  (res + Z.to_nat count ≤ ptr ∨ ptr + length s < res + Z.to_nat count)%nat →
  decode_result m res bufSize count
    (Spec.decode_upto (Z.to_nat (bufSize - count)) (bits_of (Z.to_nat bitsLeft) buffer) s)
    (decode_loop fuel m ptr res bufSize buffer bitsLeft count).
Proof.
  induction s as [|c s IH]; intros fuel m ptr res bufSize buffer bitsLeft count
    Hs Hf Hc Hb Hl Ho; (destruct fuel as [|fuel]; [simpl in Hf; lia|]); cbn [decode_loop].
  all: destruct (Z.ltb_spec count bufSize) as [Hlt|Hge];
    [|replace (Z.to_nat (bufSize - count)) with 0%nat by lia; cbn [Spec.decode_upto];
      destruct (terminate_spec m res bufSize count) as (m' & H1 & H2); [lia..|];
      exists m'; rewrite Nat.add_0_r, Z.add_0_r; done].
  - apply cstr_at_nil in Hs. rewrite Hs. simpl.
    destruct (terminate_spec m res bufSize count) as (m' & H1 & H2); [lia..|].
    destruct (Z.to_nat (bufSize - count)); simpl;
      exists m'; rewrite Nat.add_0_r, Z.add_0_r; done.
  - apply cstr_at_cons in Hs as (Hn & Hld & Hs). simpl in Hf, Ho.
    rewrite Hld. cbn [mbind option_bind].
    destruct (Z.eqb_spec c 0) as [?|_]; [done|].
    destruct (Z.to_nat (bufSize - count)) as [|n] eqn:En; [lia|]. cbn [Spec.decode_upto].
    destruct (is_separator c).
    { rewrite <-En. apply IH; auto; lia. }
    destruct (lookup_digit (fix_mistyped c)) as [d|] eqn:Ed; cbn [mbind option_bind].
    2:{ exists m, []. split_and!; [apply store_range_nil; lia|simpl; lia|done]. }
    apply lookup_digit_range in Ed.
    rewrite <-bits_of_push5 by lia. rewrite length_bits_of.
    replace (Z.to_nat bitsLeft + 5)%nat with (Z.to_nat (bitsLeft + 5)) by lia.
    destruct (Z.leb_spec 8 (bitsLeft + 5)).
    + rewrite decide_True by lia.
      rewrite take_bits_of, drop_bits_of, Z_of_bits_of by lia.
      replace (Z.of_nat (Z.to_nat (bitsLeft + 5) - 8)) with (bitsLeft + 5 - 8) by lia.
      destruct (store m (res + Z.to_nat count)
        (u8 (Z.shiftr (Z.lor (s32 (Z.shiftl buffer 5)) d) (bitsLeft + 5 - 8)))) as [m1|] eqn:Es.
      2:{ unfold store in Es. rewrite decide_True in Es by lia. done. }
      simpl. eapply decode_result_cons; [lia|exact Es|].
      replace n with (Z.to_nat (bufSize - (count + 1))) by lia.
      replace (Z.to_nat (bitsLeft + 5) - 8)%nat with (Z.to_nat (bitsLeft + 5 - 8)) by lia.
      pose proof Es as [-> _]%store_lookup.
      apply IH; try lia.
      * eapply cstr_at_store; [exact Hs|exact Es|lia].
      * rewrite length_insert. lia.
    + rewrite decide_False by lia. rewrite <-En. apply IH; auto; lia.
Qed.

Lemma groups5_step (bs : list bool) :
  (5 ≤ length bs)%nat → Spec.groups5 bs = take 5 bs :: Spec.groups5 (drop 5 bs).
Proof. intros H. do 5 (destruct bs as [|? bs]; [simpl in H; lia|]). done. Qed.

Lemma groups5_last (bs : list bool) :
  (0 < length bs < 5)%nat → Spec.groups5 bs = [bs ++ replicate (5 - length bs) false].
Proof. intros H. do 5 (destruct bs as [|? bs]; [first [reflexivity|simpl in H; lia]|]). simpl in H. lia. Qed.

(** Eight more bits in the C buffer. *)
Lemma bits_of_push8 (k : nat) (b d : Z) :
  (k + 8 ≤ 32)%nat →
  bits_of (k + 8) (Z.lor (s32 (Z.shiftl b 8)) (Z.land d 255)) = bits_of k b ++ bits_of 8 d.
Proof.
  intros Hk. change 255 with (Z.ones 8). rewrite Z.land_ones by lia.
  rewrite bits_of_app. f_equal; apply bits_of_ext; intros i Hi.
  - rewrite Z.shiftr_spec, Z.lor_spec by lia.
    rewrite (Z.mod_pow2_bits_high d 8) by lia.
    unfold s32. rewrite swrap_testbit_low by lia.
    rewrite Z.shiftl_spec, orb_false_r by lia. f_equal. lia.
  - rewrite Z.lor_spec. unfold s32. rewrite swrap_testbit_low by lia.
    rewrite Z.shiftl_spec_low, Z.mod_pow2_bits_low by lia. done.
Qed.

Lemma bits_of_zeros (n : nat) (z : Z) :
  (∀ i, 0 ≤ i < Z.of_nat n → Z.testbit z i = false) → bits_of n z = replicate n false.
Proof.
  induction n as [|n IH]; intros H; cbn [bits_of replicate]; [done|].
  rewrite H by lia. f_equal. apply IH. intros i Hi. apply H. lia.
Qed.

Lemma bits_of_pad (k pad : nat) (b : Z) :
  (k + pad ≤ 32)%nat →
  bits_of (k + pad) (s32 (Z.shiftl b (Z.of_nat pad))) = bits_of k b ++ replicate pad false.
Proof.
  intros Hk. rewrite bits_of_app. f_equal.
  - apply bits_of_ext; intros i Hi. rewrite Z.shiftr_spec by lia.
    unfold s32. rewrite swrap_testbit_low, Z.shiftl_spec by lia. f_equal. lia.
  - apply bits_of_zeros. intros i Hi. unfold s32.
    rewrite swrap_testbit_low by lia. apply Z.shiftl_spec_low. lia.
Qed.

(** The digit the loop emits is the character of the first five bits. *)
Lemma alphabet_index (z : Z) :
  alphabet !! Z.to_nat (Z.land 31 z) = Some (Spec.digit_char (bits_of 5 z)).
Proof.
  unfold Spec.digit_char. rewrite Z_of_bits_of, Z.land_comm.
  change 31 with (Z.ones 5). rewrite wrap_land_ones by lia.
  pose proof (wrap_range 5 z) as R. change (2 ^ 5) with 32 in R. change (Z.of_nat 5) with 5.
  destruct (lookup_lt_is_Some_2 alphabet (Z.to_nat (wrap 5 z))) as [x ->];
    [change (length alphabet) with 32%nat; lia|done].
Qed.

Definition encode_result (m : list Z) (res : nat) (bufSize count : Z)
    (out : list Z) (r : option (list Z * Z)) : Prop :=
  ∃ m', store_range m (res + Z.to_nat count)
          (out ++ terminator bufSize (Z.to_nat count + length out)) = Some m' ∧
        r = Some (m', count + Z.of_nat (length out)).

Lemma encode_result_decode (m : list Z) (res : nat) (bufSize count : Z) out r :
  encode_result m res bufSize count out r ↔ decode_result m res bufSize count (Some out) r.
Proof. done. Qed.

Lemma encode_refill_spec (m : list Z) (data : nat) (length_ buffer bitsLeft next : Z) ds :
  0 ≤ bitsLeft ≤ 8 → 0 ≤ next → (0 < bitsLeft ∨ ds ≠ []) →
  length_ = next + Z.of_nat (length ds) →
  load_range m (data + Z.to_nat next) (length ds) = Some ds →
  ∃ buffer' bitsLeft' next' ds',
    encode_refill m data length_ buffer bitsLeft next = Some (buffer', bitsLeft', next') ∧
    5 ≤ bitsLeft' ≤ 12 ∧ 0 ≤ next' ∧ length_ = next' + Z.of_nat (length ds') ∧
    load_range m (data + Z.to_nat next') (length ds') = Some ds' ∧
    Spec.groups5 (bits_of (Z.to_nat bitsLeft) buffer ++ (ds ≫= bits_of 8)) =
    Spec.groups5 (bits_of (Z.to_nat bitsLeft') buffer' ++ (ds' ≫= bits_of 8)).
Proof.
  intros Hb Hn Hne Hlen Hld. unfold encode_refill.
  destruct (Z.ltb_spec bitsLeft 5) as [H5|H5].
  2:{ exists buffer, bitsLeft, next, ds. split_and!; (done || lia). }
  destruct ds as [|d ds]; simpl in Hlen.
  - destruct Hne as [Hne|]; [|done]. destruct (Z.ltb_spec next length_); [lia|].
    eexists _, _, _, []. split; [done|]. cbn [length]. split_and!; [lia..|done|].
    rewrite !app_nil_r, groups5_last by (rewrite length_bits_of; lia).
    replace (Z.to_nat (bitsLeft + (5 - bitsLeft))) with (Z.to_nat bitsLeft + Z.to_nat (5 - bitsLeft))%nat by lia.
    replace (5 - bitsLeft) with (Z.of_nat (Z.to_nat (5 - bitsLeft))) at 2 by lia.
    rewrite bits_of_pad by lia. rewrite length_bits_of.
    replace (5 - Z.to_nat bitsLeft)%nat with (Z.to_nat (5 - bitsLeft)) by lia.
    rewrite groups5_step by (rewrite length_app, length_bits_of, length_replicate; lia).
    rewrite take_ge, drop_ge by (rewrite length_app, length_bits_of, length_replicate; lia).
    done.
  - destruct (Z.ltb_spec next length_); [|lia].
    cbn [length] in Hld. apply load_range_cons in Hld as [Hd Hld]. rewrite Hd.
    cbn [mbind option_bind]. eexists _, _, _, ds. split; [done|]. split_and!; [lia..| |].
    + by replace (data + Z.to_nat (next + 1))%nat with (S (data + Z.to_nat next)) by lia.
    + replace (Z.to_nat (bitsLeft + 8)) with (Z.to_nat bitsLeft + 8)%nat by lia.
      rewrite bits_of_push8 by lia. by rewrite <-app_assoc.
Qed.

Lemma encode_loop_spec (n : nat) :
  ∀ (fuel : nat) (m : list Z) (data res : nat) (length_ bufSize buffer bitsLeft next count : Z) ds,
  n = Z.to_nat (bufSize - count) → (n < fuel)%nat →
  0 ≤ count ≤ bufSize → 0 ≤ bitsLeft ≤ 8 → 0 ≤ next →
  length_ = next + Z.of_nat (length ds) →
  load_range m (data + Z.to_nat next) (length ds) = Some ds →
  (res + Z.to_nat bufSize ≤ length m)%nat →
  (res + Z.to_nat bufSize ≤ data ∨ data + Z.to_nat length_ ≤ res)%nat →
  encode_result m res bufSize count
    (take n (Spec.digit_char <$>
       Spec.groups5 (bits_of (Z.to_nat bitsLeft) buffer ++ (ds ≫= bits_of 8))))
    (encode_loop fuel m data length_ res bufSize buffer bitsLeft next count).
Proof.
  induction n as [|n IH]; intros fuel m data res length_ bufSize buffer bitsLeft next count ds
    Hn Hf Hc Hb Hx Hlen Hld Hl Ho; (destruct fuel as [|fuel]; [lia|]); cbn [encode_loop].
  { destruct (Z.ltb_spec count bufSize); [lia|]. simpl.
    destruct (terminate_spec m res bufSize count) as (m' & H1 & H2); [lia..|].
    exists m'. by rewrite Nat.add_0_r, Z.add_0_r. }
  destruct (Z.ltb_spec count bufSize); [|lia]. cbn [andb].
  destruct ((0 <? bitsLeft) || (next <? length_)) eqn:Hcond.
  2:{ assert (bitsLeft = 0 ∧ ds = []) as [-> ->].
      { apply orb_false_iff in Hcond as [?%Z.ltb_ge ?%Z.ltb_ge].
        split; [lia|]. destruct ds; [done|simpl in *; lia]. }
      destruct (terminate_spec m res bufSize count) as (m' & H1 & H2); [lia..|].
      simpl. exists m'. rewrite Nat.add_0_r, Z.add_0_r. done. }
  destruct (encode_refill_spec m data length_ buffer bitsLeft next ds)
    as (buf' & bl' & nx' & ds' & -> & Hbl & Hnx & Hlen' & Hld' & ->); [done..| |done|done|].
  { apply orb_true_iff in Hcond as [?%Z.ltb_lt|?%Z.ltb_lt]; [by left|right].
    intros ->. simpl in *. lia. }
  cbn [mbind option_bind]. rewrite alphabet_index. cbn [mbind option_bind].
  rewrite groups5_step by (rewrite length_app, length_bits_of; lia).
  rewrite fmap_cons. cbn [take].
  rewrite take_app_le, take_bits_of, drop_app_le, drop_bits_of
    by (rewrite ?length_bits_of; lia).
  replace (Z.of_nat (Z.to_nat bl' - 5)) with (bl' - 5) by lia.
  set (ch := Spec.digit_char _).
  destruct (store m (res + Z.to_nat count) ch) as [m1|] eqn:Es.
  2:{ unfold store in Es. rewrite decide_True in Es by lia. done. }
  cbn [mbind option_bind]. rewrite encode_result_decode.
  eapply (decode_result_cons _ _ _ _ _ _ (Some _)); [lia|exact Es|].
  pose proof Es as [Em _]%store_lookup.
  replace (Z.to_nat bl' - 5)%nat with (Z.to_nat (bl' - 5)) by lia.
  rewrite <-encode_result_decode. apply IH; try lia.
  - rewrite <-Hld', Em. unfold load_range. rewrite length_insert.
    case_decide; [|done]. f_equal. apply list_eq. intros j.
    destruct (decide (j < length ds')%nat); [|by rewrite !lookup_take_ge by lia].
    rewrite !lookup_take_lt, !lookup_drop by done. apply list_lookup_insert_ne. lia.
  - rewrite Em, length_insert. lia.
Qed.

(** ** The streaming decoder and the whole-string decoder *)

Lemma groups8_step (bs : list bool) :
  (8 ≤ length bs)%nat → Spec.groups8 bs = take 8 bs :: Spec.groups8 (drop 8 bs).
Proof. intros H. do 8 (destruct bs as [|? bs]; [simpl in H; lia|]). done. Qed.

Lemma groups8_short (bs : list bool) : (length bs < 8)%nat → Spec.groups8 bs = [].
Proof. intros H. do 8 (destruct bs as [|? bs]; [done|]). simpl in H. lia. Qed.

Lemma decode_upto_spec (s : list Z) : ∀ (n : nat) (p : list bool),
  (length p < 8)%nat →
  match mapM (λ c, lookup_digit (fix_mistyped c)) (filter (λ c, is_separator c = false) s) with
  | Some ds => Spec.decode_upto n p s =
      Some (take n (Z_of_bits <$> Spec.groups8 (p ++ (ds ≫= bits_of 5))))
  | None => (length p + 5 * length s ≤ 8 * n)%nat → Spec.decode_upto n p s = None
  end.
Proof.
  induction s as [|c s IH]; intros n p Hp.
  { cbn. rewrite app_nil_r, groups8_short by done. by destruct n. }
  destruct n as [|n].
  { clear IH. destruct (mapM _ _); [done|simpl; lia]. }
  rewrite filter_cons. cbn [Spec.decode_upto]. destruct (is_separator c).
  { rewrite decide_False by done. specialize (IH (S n) p Hp).
    destruct (mapM _ _); [done|]. intros H. apply IH. simpl in H. lia. }
  rewrite decide_True by done. cbn [mapM].
  destruct (lookup_digit _) as [d|]; cbn [mbind option_bind]; [|done].
  destruct (decide _) as [H8|H8].
  - rewrite length_app, length_bits_of in H8.
    assert (length (drop 8 (p ++ bits_of 5 d)) < 8)%nat as Hq
      by (rewrite length_drop, length_app, length_bits_of; lia).
    specialize (IH n _ Hq). destruct (mapM _ _) as [ds|]; cbn [mbind option_bind].
    + rewrite IH. cbn [mret option_ret]. rewrite bind_cons.
      rewrite (groups8_step (p ++ (bits_of 5 d ++ (ds ≫= bits_of 5)))) by (rewrite !length_app, length_bits_of; lia).
      rewrite app_assoc, (take_app_le (p ++ bits_of 5 d)), (drop_app_le (p ++ bits_of 5 d))
        by (rewrite length_app, length_bits_of; lia).
      done.
    + intros Hl. rewrite IH; [done|]. rewrite length_drop, length_app, length_bits_of.
      simpl in Hl. lia.
  - rewrite length_app, length_bits_of in H8.
    assert (length (p ++ bits_of 5 d) < 8)%nat as Hq by (rewrite length_app, length_bits_of; lia).
    specialize (IH (S n) _ Hq). destruct (mapM _ _) as [ds|]; cbn [mbind option_bind].
    + rewrite IH. cbn [mret option_ret]. rewrite bind_cons, app_assoc. done.
    + intros Hl. apply IH. rewrite length_app, length_bits_of. simpl in Hl. lia.
Qed.

(** Eight output bits take eight input bits, of which a character has five. *)
Lemma decode_length (s out : list Z) :
  Spec.decode s = Some out → (8 * length out ≤ 5 * length s)%nat.
Proof.
  unfold Spec.decode. set (f := filter _ s).
  assert (length f ≤ length s)%nat as Hf by apply length_filter.
  destruct (mapM _ f) as [ds|] eqn:E; [|done]. intros H. apply (inj Some) in H. subst out.
  apply mapM_Some, Forall2_length in E. rewrite length_fmap.
  assert (∀ bs, 8 * length (Spec.groups8 bs) ≤ length bs)%nat as Hg.
  { intros bs. remember (length bs) as k eqn:Ek. revert bs Ek.
    induction k as [k IH] using lt_wf_ind. intros bs ->.
    destruct (decide (length bs < 8)%nat); [rewrite groups8_short by done; simpl; lia|].
    rewrite groups8_step by lia. cbn [length].
    pose proof (IH (length (drop 8 bs)) ltac:(rewrite length_drop; lia) _ eq_refl) as H.
    rewrite length_drop in H. lia. }
  assert (length (ds ≫= bits_of 5) = 5 * length ds)%nat as Hd.
  { clear. induction ds as [|d ds IH]; [done|].
    rewrite bind_cons, length_app, IH, length_bits_of. simpl. lia. }
  specialize (Hg (ds ≫= bits_of 5)). lia.
Qed.

(** [base32_decode] on any layout: from and to disjoint blocks, or in place. *)
Lemma base32_decode_run (m : list Z) (enc res : nat) (bufSize : Z) (s : list Z) :
  cstr_at m enc s → 0 ≤ bufSize →
  (res + Z.to_nat bufSize ≤ length m)%nat →
  (res ≤ enc ∨ enc + length s < res)%nat →
  decode_result m res bufSize 0 (Spec.decode_upto (Z.to_nat bufSize) [] s)
    (base32_decode m enc res bufSize).
Proof.
  intros Hs Hb Hl Ho. unfold base32_decode.
  replace (Z.to_nat bufSize) with (Z.to_nat (bufSize - 0)) by lia.
  apply (decode_loop_spec s _ m enc res bufSize 0 0 0); auto; try lia.
  apply cstr_at_length in Hs. lia.
Qed.

Lemma decode_upto_total (s : list Z) (n : nat) :
  match Spec.decode s with
  | Some out => Spec.decode_upto n [] s = Some (take n out)
  | None => (5 * length s ≤ 8 * n)%nat → Spec.decode_upto n [] s = None
  end.
Proof.
  pose proof (decode_upto_spec s n [] ltac:(simpl; lia)) as H.
  unfold Spec.decode. destruct (mapM _ _); exact H.
Qed.

(** ** The encoded text *)

Lemma digit_char_ok (g : list bool) :
  length g = 5%nat →
  let c := Spec.digit_char g in
  c ≠ 0 ∧ is_separator c = false ∧ lookup_digit (fix_mistyped c) = Some (Z_of_bits g).
Proof.
  intros H. do 5 (destruct g as [|[] g]; try done).
  all: destruct g; [by vm_compute|done].
Qed.

Lemma groups5_length (bs : list bool) : Forall (λ g, length g = 5%nat) (Spec.groups5 bs).
Proof.
  remember (length bs) as n eqn:E. revert bs E.
  induction n as [n IH] using lt_wf_ind. intros bs ->.
  destruct (decide (length bs < 5)%nat).
  - destruct bs as [|b bs]; [constructor|].
    rewrite groups5_last by (simpl in *; lia). constructor; [|constructor].
    rewrite length_app, length_replicate. lia.
  - rewrite groups5_step by lia. constructor; [rewrite length_take; lia|].
    eapply IH; [|done]. rewrite length_drop. lia.
Qed.

Lemma groups5_concat (bs : list bool) :
  ∃ k, (k < 5)%nat ∧ mjoin (Spec.groups5 bs) = bs ++ replicate k false ∧
       (5 * length (Spec.groups5 bs) = length bs + k)%nat.
Proof.
  remember (length bs) as n eqn:E. revert bs E.
  induction n as [n IH] using lt_wf_ind. intros bs ->.
  destruct (decide (length bs < 5)%nat).
  - destruct bs as [|b bs]; [exists 0%nat; split_and!; auto; lia|].
    rewrite groups5_last by (simpl in *; lia).
    exists (5 - length (b :: bs))%nat. simpl mjoin. rewrite app_nil_r.
    split_and!; [simpl; lia|done|simpl length in *; lia].
  - rewrite groups5_step by lia.
    edestruct (IH (length (drop 5 bs))) as (k & Hk & Hj & Hl); [rewrite length_drop; lia|done|].
    exists k. split; [done|]. split.
    + simpl mjoin. rewrite Hj, app_assoc, take_drop. done.
    + simpl length. rewrite length_drop in Hl. lia.
Qed.

Lemma groups8_bytes (ds : list Z) (k : nat) :
  Forall is_byte ds → (k < 8)%nat →
  Z_of_bits <$> Spec.groups8 ((ds ≫= bits_of 8) ++ replicate k false) = ds.
Proof.
  intros Hds Hk. induction Hds as [|d ds Hd _ IH].
  - simpl app. by rewrite groups8_short by (by rewrite length_replicate).
  - rewrite bind_cons, <-app_assoc.
    rewrite groups8_step by (rewrite length_app, length_bits_of; lia).
    rewrite take_app_le, drop_app_ge, take_ge by (by rewrite length_bits_of).
    rewrite length_bits_of, drop_0, fmap_cons, IH, Z_of_bits_of.
    f_equal. apply wrap_small. done.
Qed.

Lemma length_bits_bytes (ds : list Z) : length (ds ≫= bits_of 8) = (8 * length ds)%nat.
Proof. induction ds as [|d ds IH]; [done|]. rewrite bind_cons, length_app, IH, length_bits_of. simpl. lia. Qed.

Lemma encode_text_length (ds : list Z) :
  length (Spec.encode ds) = ((8 * length ds + 4) `div` 5)%nat.
Proof.
  unfold Spec.encode. rewrite length_fmap.
  destruct (groups5_concat (ds ≫= bits_of 8)) as (k & Hk & _ & Hl).
  rewrite length_bits_bytes in Hl.
  apply Nat.div_unique with (4 - k)%nat; lia.
Qed.

Lemma encode_text_ok (ds : list Z) :
  Forall (λ c, c ≠ 0 ∧ is_separator c = false) (Spec.encode ds).
Proof.
  unfold Spec.encode. apply Forall_fmap. eapply Forall_impl; [apply groups5_length|].
  intros g Hg. simpl. pose proof (digit_char_ok g Hg). naive_solver.
Qed.

Lemma decode_digits (gs : list (list bool)) :
  Forall (λ g, length g = 5%nat) gs →
  Spec.decode (Spec.digit_char <$> gs) =
    Some (Z_of_bits <$> Spec.groups8 (mjoin gs)).
Proof.
  intros Hg. unfold Spec.decode.
  assert (mapM (λ c, lookup_digit (fix_mistyped c))
    (filter (λ c, is_separator c = false) (Spec.digit_char <$> gs)) =
    Some (Z_of_bits <$> gs)) as ->.
  { induction Hg as [|g gs Hg _ IH]; [done|].
    destruct (digit_char_ok g Hg) as (_ & H2 & H3).
    rewrite fmap_cons, filter_cons, decide_True by done. cbn [mapM].
    rewrite H3. cbn [mbind option_bind]. rewrite IH. done. }
  cbn [mbind option_bind]. do 3 f_equal.
  induction Hg as [|g gs Hg _ IH]; [done|].
  rewrite fmap_cons, bind_cons, IH. cbn [mjoin list_join]. f_equal.
  rewrite <-Hg. apply bits_of_Z_of_bits.
Qed.

Lemma decode_encode_text (ds : list Z) :
  Forall is_byte ds → Spec.decode (Spec.encode ds) = Some ds.
Proof.
  intros Hds. unfold Spec.encode.
  rewrite decode_digits by apply groups5_length.
  destruct (groups5_concat (ds ≫= bits_of 8)) as (k & Hk & -> & _).
  by rewrite groups8_bytes by (done || lia).
Qed.

(** A whole text, decoded with room for all of it. *)
Lemma base32_decode_key (m : list Z) (enc res : nat) (n : Z) (key : list Z) :
  cstr_at m enc key → 5 * Z.of_nat (length key) ≤ 8 * n →
  (res + Z.to_nat n ≤ length m)%nat → (res ≤ enc ∨ enc + length key < res)%nat →
  match Spec.decode key with
  | Some out => ∃ m', base32_decode m enc res n = Some (m', Z.of_nat (length out)) ∧
                      load_range m' res (length out) = Some out
  | None => ∃ m', base32_decode m enc res n = Some (m', -1)
  end.
Proof.
  intros Hs Hn Hl Ho. pose proof (base32_decode_run m enc res n key Hs ltac:(lia) Hl Ho) as H.
  pose proof (decode_upto_total key (Z.to_nat n)) as Hd.
  destruct (Spec.decode key) as [out|] eqn:E.
  - apply decode_length in E. rewrite Hd, take_ge in H by lia.
    destruct H as (m' & Hst & Hrun). exists m'. split; [done|].
    apply store_range_read in Hst. rewrite length_app, Nat.add_0_r in Hst.
    by eapply load_range_app_1.
  - rewrite Hd in H by lia. destruct H as (m' & w & _ & _ & Hrun). by exists m'.
Qed.

(** ** Properties *)

(** C6: [base32_decode] reads the NUL-terminated string [s] and writes the
    decoded bytes: all of them when they fit in [bufSize], a prefix otherwise,
    followed by a NUL when there is room, and returns their number; it returns
    -1 when [s] holds a character that is not a base32 digit and [bufSize] has
    room for five bits per character of [s].  This holds in place and between disjoint
    blocks, no access leaves the block, and bytes outside
    [result .. result + bufSize) are unchanged. *)
Theorem base32_decode_correct (m : list Z) (enc res : nat) (bufSize : Z) (s : list Z) :
  cstr_at m enc s → 0 ≤ bufSize →
  (res + Z.to_nat bufSize ≤ length m)%nat →
  (res ≤ enc ∨ enc + length s < res)%nat →
  match Spec.decode s with
  | Some out => let w := take (Z.to_nat bufSize) out in ∃ m',
      store_range m res (w ++ terminator bufSize (length w)) = Some m' ∧
      base32_decode m enc res bufSize = Some (m', Z.of_nat (length w))
  | None => 5 * Z.of_nat (length s) ≤ 8 * bufSize → ∃ m' w,
      store_range m res w = Some m' ∧ (length w ≤ Z.to_nat bufSize)%nat ∧
      base32_decode m enc res bufSize = Some (m', -1)
  end.
Proof.
  intros Hs Hb Hl Ho. pose proof (base32_decode_run m enc res bufSize s Hs Hb Hl Ho) as H.
  pose proof (decode_upto_total s (Z.to_nat bufSize)) as Hd.
  destruct (Spec.decode s) as [out|].
  - rewrite Hd in H. destruct H as (m' & H1 & H2). rewrite Nat.add_0_r in H1. eauto.
  - intros Hn. rewrite Hd in H by lia. destruct H as (m' & w & H1 & H2 & H3).
    rewrite Nat.add_0_r in H1. rewrite Z.sub_0_r in H2. eauto.
Qed.

(** [base32_encode] of a length in range. *)
Lemma base32_encode_run (m : list Z) (data res : nat) (length_ bufSize : Z) (ds : list Z) :
  0 ≤ bufSize → (res + Z.to_nat bufSize ≤ length m)%nat →
  (res + Z.to_nat bufSize ≤ data ∨ data + Z.to_nat length_ ≤ res)%nat →
  length ds = Z.to_nat length_ → load_range m data (length ds) = Some ds →
  0 ≤ length_ ≤ 2 ^ 28 →
  encode_result m res bufSize 0 (take (Z.to_nat bufSize) (Spec.encode ds))
    (base32_encode m data length_ res bufSize).
Proof.
  intros Hb Hl Ho Hlen Hld Hr. unfold base32_encode.
  change (Z.shiftl 1 28) with (2 ^ 28).
  assert ((length_ <? 0) || (2 ^ 28 <? length_) = false) as -> by lia.
  destruct (Z.ltb_spec 0 length_).
  - destruct ds as [|d ds]; [simpl in Hlen; lia|].
    cbn [length] in *. apply load_range_cons in Hld as [Hd Hld]. rewrite Hd.
    cbn [mbind option_bind].
    replace (Spec.encode (d :: ds)) with (Spec.digit_char <$>
      Spec.groups5 (bits_of (Z.to_nat 8) d ++ (ds ≫= bits_of 8))) by done.
    apply encode_loop_spec; try lia.
    rewrite <-Hld. f_equal. lia.
  - destruct ds; [|simpl in Hlen; lia].
    destruct (terminate_spec m res bufSize 0) as (m' & H1 & H2); [lia..|].
    exists m'. change (Spec.encode []) with (@nil Z). rewrite take_nil. done.
Qed.

(** C36: [base32_encode] writes the base32 text of the [length_] bytes at
    [data], cut to [bufSize] characters and followed by a NUL when there is
    room, and returns the number of characters, which without the cut is
    [(8 * length_ + 4) / 5]; lengths below 0 and above [2^28] give -1. *)
Theorem base32_encode_correct (m : list Z) (data res : nat) (length_ bufSize : Z) (ds : list Z) :
  0 ≤ bufSize → (res + Z.to_nat bufSize ≤ length m)%nat →
  (res + Z.to_nat bufSize ≤ data ∨ data + Z.to_nat length_ ≤ res)%nat →
  length ds = Z.to_nat length_ → load_range m data (length ds) = Some ds →
  if decide (0 ≤ length_ ≤ 2 ^ 28) then
    let w := take (Z.to_nat bufSize) (Spec.encode ds) in ∃ m',
    store_range m res (w ++ terminator bufSize (length w)) = Some m' ∧
    base32_encode m data length_ res bufSize = Some (m', Z.of_nat (length w)) ∧
    Z.of_nat (length w) = Z.min bufSize ((8 * length_ + 4) / 5)
  else base32_encode m data length_ res bufSize = Some (m, -1).
Proof.
  intros Hb Hl Ho Hlen Hld. case_decide as Hr.
  - destruct (base32_encode_run m data res length_ bufSize ds Hb Hl Ho Hlen Hld Hr) as (m' & H1 & H2).
    exists m'. rewrite Nat.add_0_r in H1. simpl in H1. split; [done|]. split; [done|].
    rewrite length_take, encode_text_length, Hlen.
    rewrite Nat2Z.inj_min, Nat2Z.inj_div, Nat2Z.inj_add, Nat2Z.inj_mul, !Z2Nat.id by lia.
    done.
  - unfold base32_encode. change (Z.shiftl 1 28) with (2 ^ 28).
    assert ((length_ <? 0) || (2 ^ 28 <? length_) = true) as -> by lia. done.
Qed.

(** C37: round trip through memory: after [base32_encode] of the bytes [ds] into
    a buffer that holds the text and its NUL, [base32_decode] of that buffer,
    in place or into a disjoint buffer with room, gives [ds] back. *)
Theorem base32_roundtrip (m : list Z) (data res out : nat) (esize dsize : Z) (ds : list Z) :
  Forall is_byte ds → Z.of_nat (length ds) ≤ 2 ^ 28 →
  load_range m data (length ds) = Some ds →
  (8 * Z.of_nat (length ds) + 4) / 5 < esize → Z.of_nat (length ds) ≤ dsize →
  (res + Z.to_nat esize ≤ length m)%nat → (out + Z.to_nat dsize ≤ length m)%nat →
  (res + Z.to_nat esize ≤ data ∨ data + length ds ≤ res)%nat →
  (out ≤ res ∨ res + Z.to_nat esize ≤ out)%nat →
  ∃ m1 n m2,
    base32_encode m data (Z.of_nat (length ds)) res esize = Some (m1, n) ∧
    base32_decode m1 res out dsize = Some (m2, Z.of_nat (length ds)) ∧
    load_range m2 out (length ds) = Some ds.
Proof.
  intros Hby Hmax Hld He Hds Hl1 Hl2 Ho1 Ho2.
  assert (Z.of_nat (length (Spec.encode ds)) = (8 * Z.of_nat (length ds) + 4) / 5) as Hel.
  { rewrite encode_text_length, Nat2Z.inj_div. f_equal; lia. }
  pose proof (base32_encode_run m data res (Z.of_nat (length ds)) esize ds
    ltac:(lia) Hl1 ltac:(lia) ltac:(lia) Hld ltac:(lia)) as H.
  rewrite take_ge in H by lia.
  destruct H as (m1 & Hs & Hrun). rewrite Nat.add_0_r in Hs. simpl in Hs. exists m1, (Z.of_nat (length (Spec.encode ds))).
  pose proof (store_range_length _ _ _ _ Hs) as Hlen.
  unfold terminator in Hs. destruct (Z.ltb_spec (Z.of_nat (length (Spec.encode ds))) esize); [|lia].
  assert (cstr_at m1 res (Spec.encode ds)) as Hstr.
  { split; [eapply Forall_impl; [apply encode_text_ok|naive_solver]|].
    apply store_range_read in Hs. rewrite length_app in Hs. simpl in Hs.
    by rewrite Nat.add_1_r in Hs. }
  pose proof (base32_decode_run m1 res out dsize (Spec.encode ds) Hstr
    ltac:(lia) ltac:(lia) ltac:(lia)) as Hdec.
  pose proof (decode_upto_total (Spec.encode ds) (Z.to_nat dsize)) as Hd.
  rewrite decode_encode_text in Hd by done. rewrite Hd, take_ge in Hdec by lia.
  destruct Hdec as (m2 & Hs2 & Hrun2). exists m2. split_and!; [done..|].
  apply store_range_read in Hs2. rewrite Nat.add_0_r in Hs2.
  eapply load_range_app_1. by rewrite <-length_app.
Qed.

(** *** The properties at work *)

Definition foo_text : list Z := bytes "MZXW-6zZ" ++ [0; 7].

Lemma base32_decode_correct_witness :
  ∃ m', base32_decode foo_text 0 0 8 = Some (m', 4).
Proof.
  destruct (base32_decode_correct foo_text 0 0 8 (bytes "MZXW-6zZ")) as (m' & _ & H).
  - split; [vm_compute; repeat constructor; done|by vm_compute].
  - lia.
  - vm_compute. lia.
  - left. lia.
  - exists m'. exact H.
Defined.

Lemma base32_encode_correct_witness :
  ∃ m', base32_encode (bytes "foo" ++ replicate 8 7) 0 3 3 8 = Some (m', 5).
Proof.
  destruct (base32_encode_correct (bytes "foo" ++ replicate 8 7) 0 3 3 8 (bytes "foo"))
    as (m' & _ & H & _).
  - lia.
  - vm_compute. lia.
  - right. vm_compute. lia.
  - done.
  - done.
  - exists m'. exact H.
Defined.

Lemma base32_roundtrip_witness :
  ∃ m1 n m2,
    base32_encode (bytes "foo" ++ replicate 8 7) 0 3 3 8 = Some (m1, n) ∧
    base32_decode m1 3 3 4 = Some (m2, 3) ∧ load_range m2 3 3 = Some (bytes "foo").
Proof.
  apply (base32_roundtrip (bytes "foo" ++ replicate 8 7) 0 3 3 8 4 (bytes "foo")).
  - vm_compute. repeat constructor; discriminate.
  - vm_compute. discriminate.
  - done.
  - vm_compute. done.
  - vm_compute. discriminate.
  - vm_compute. lia.
  - vm_compute. lia.
  - right. vm_compute. lia.
  - left. lia.
Defined.
