(* ===== verification/Sha1.v ===== *)
(** * SHA-1 (google-authenticator/libpam/sha1.c, sha1.h; hotp/sha1.c is the same text)

    The streaming context and its four operations as the C code runs them on
    32-bit words, the three builds of the round loop ([FG] in a loop, the same
    unrolled, and the UNRAVEL build that rotates the register names), and a
    specification after FIPS 180: padding, message schedule, rounds.  The
    theorems say that any sequence of updates and a final produce the digest of
    the concatenated input, whatever the chunking, and that the builds agree.

    A [buffer, count] argument pair of the code is the list of its bytes. *)

From S2P Require Import Prelude.
From S2P Require Export Blocks.

(** ** The context *)

Definition SHA1_BLOCKSIZE : Z := 64.
Definition SHA1_DIGEST_LENGTH : Z := 20.

(** The five words of [digest] the code uses (the array has room for eight). *)
Record digest5 := Digest { dg0 : Z; dg1 : Z; dg2 : Z; dg3 : Z; dg4 : Z }.

Record SHA1_INFO := Info {
  digest : digest5;
  count_lo : Z;
  count_hi : Z;
  data : list Z;
  local_ : Z;
}.

(** ** Words *)

Definition T32 (x : Z) : Z := Z.land x 0xffffffff.
Definition R32 (x n : Z) : Z := T32 (Z.lor (u32 (Z.shiftl x n)) (Z.shiftr x (32 - n))).

Definition f1 (x y z : Z) : Z := Z.lor (Z.land x y) (Z.land (u32 (Z.lnot x)) z).
Definition f2 (x y z : Z) : Z := Z.lxor (Z.lxor x y) z.
Definition f3 (x y z : Z) : Z := Z.lor (Z.lor (Z.land x y) (Z.land x z)) (Z.land y z).
Definition f4 (x y z : Z) : Z := Z.lxor (Z.lxor x y) z.

Definition CONST1 : Z := 0x5a827999.
Definition CONST2 : Z := 0x6ed9eba1.
Definition CONST3 : Z := 0x8f1bbcdc.
Definition CONST4 : Z := 0xca62c1d6.

(** The macro argument [n] of [FG] and [FA] to [FT] picks [f##n] and [CONST##n]. *)
Inductive round := Rd1 | Rd2 | Rd3 | Rd4.

Definition f_ (n : round) : Z → Z → Z → Z :=
  match n with Rd1 => f1 | Rd2 => f2 | Rd3 => f3 | Rd4 => f4 end.
Definition CONST_ (n : round) : Z :=
  match n with Rd1 => CONST1 | Rd2 => CONST2 | Rd3 => CONST3 | Rd4 => CONST4 end.

(** ** The message schedule *)

(** [*((uint32_t * ) dp)] on a little-endian machine. *)
Definition load_u32_le (dp : list Z) : Z :=
  match dp with
  | b0 :: b1 :: b2 :: b3 :: _ =>
      Z.lor (Z.lor (Z.lor b0 (Z.shiftl b1 8)) (Z.shiftl b2 16)) (Z.shiftl b3 24)
  | _ => 0
  end.

Definition swap_bytes (T : Z) : Z :=
  Z.lor (Z.lor (Z.lor (Z.land (u32 (Z.shiftl T 24)) 0xff000000)
                      (Z.land (u32 (Z.shiftl T 8)) 0x00ff0000))
               (Z.land (Z.shiftr T 8) 0x0000ff00))
        (Z.land (Z.shiftr T 24) 0x000000ff).

(** [for (i = 0; i < 16; ++i)]: the sixteen words of the block. *)
Fixpoint load_block (n : nat) (dp : list Z) : list Z :=
  match n with
  | O => []
  | S n' => swap_bytes (load_u32_le dp) :: load_block n' (drop 4 dp)
  end.

(** [for (i = 16; i < 80; ++i)]; [W] holds the words computed so far. *)
Definition expand_word (W : list Z) (i : nat) : list Z :=
  let w := Z.lxor (Z.lxor (Z.lxor (W !!! (i - 3)%nat) (W !!! (i - 8)%nat))
                          (W !!! (i - 14)%nat)) (W !!! (i - 16)%nat) in
  W ++ [R32 w 1].

Definition schedule (block : list Z) : list Z :=
  fold_left expand_word (seq 16 64) (load_block 16 block).

(** ** The rounds *)

(** The local variables [T, A, B, C, D, E] of [sha1_transform]. *)
Record regs := Regs { rT : Z; rA : Z; rB : Z; rC : Z; rD : Z; rE : Z }.

(** [T32(R32(a,5) + f##n(b,c,d) + e + *WP++ + CONST##n)]; the sum is a 64-bit
    [long] and does not wrap. *)
Definition mix (n : round) (a b c d e w : Z) : Z :=
  T32 (R32 a 5 + f_ n b c d + e + w + CONST_ n).

(** The generic step. *)
Definition FG (n : round) (r : regs) (w : Z) : regs :=
  let T := mix n (rA r) (rB r) (rC r) (rD r) (rE r) w in
  Regs T T (rA r) (R32 (rB r) 30) (rC r) (rD r).

(** [for (i = 0; i < 20; ++i) { FG(1); } ...]: the word [WP] points to and the
    round number of each of the 80 steps. *)
Definition rounds : list round :=
  replicate 20 Rd1 ++ replicate 20 Rd2 ++ replicate 20 Rd3 ++ replicate 20 Rd4.

Definition run_FG (steps : list (round * Z)) (r : regs) : regs :=
  fold_left (λ r '(n, w), FG n r w) steps r.

(** The six steps of the UNRAVEL build. *)
Inductive ustep := FA | FB | FC | FD | FE | FT.

Definition do_ustep (u : ustep) (n : round) (r : regs) (w : Z) : regs :=
  let 'Regs T A B C D E := r in
  match u with
  | FA => Regs (mix n A B C D E w) A (R32 B 30) C D E
  | FB => Regs T (R32 A 30) B C D (mix n T A B C D w)
  | FC => Regs (R32 T 30) A B C (mix n E T A B C w) E
  | FD => Regs T A B (mix n D E T A B w) D (R32 E 30)
  | FE => Regs T A (mix n C D E T A w) C (R32 D 30) E
  | FT => Regs T (mix n B C D E T w) B (R32 C 30) D E
  end.

(** The 80 macro calls of the UNRAVEL build, line by line. *)
Definition unravel_program : list (ustep * round) :=
  [(FA,Rd1);(FB,Rd1);(FC,Rd1);(FD,Rd1);(FE,Rd1);(FT,Rd1);(FA,Rd1);(FB,Rd1);(FC,Rd1);(FD,Rd1);
   (FE,Rd1);(FT,Rd1);(FA,Rd1);(FB,Rd1);(FC,Rd1);(FD,Rd1);(FE,Rd1);(FT,Rd1);(FA,Rd1);(FB,Rd1);
   (FC,Rd2);(FD,Rd2);(FE,Rd2);(FT,Rd2);(FA,Rd2);(FB,Rd2);(FC,Rd2);(FD,Rd2);(FE,Rd2);(FT,Rd2);
   (FA,Rd2);(FB,Rd2);(FC,Rd2);(FD,Rd2);(FE,Rd2);(FT,Rd2);(FA,Rd2);(FB,Rd2);(FC,Rd2);(FD,Rd2);
   (FE,Rd3);(FT,Rd3);(FA,Rd3);(FB,Rd3);(FC,Rd3);(FD,Rd3);(FE,Rd3);(FT,Rd3);(FA,Rd3);(FB,Rd3);
   (FC,Rd3);(FD,Rd3);(FE,Rd3);(FT,Rd3);(FA,Rd3);(FB,Rd3);(FC,Rd3);(FD,Rd3);(FE,Rd3);(FT,Rd3);
   (FA,Rd4);(FB,Rd4);(FC,Rd4);(FD,Rd4);(FE,Rd4);(FT,Rd4);(FA,Rd4);(FB,Rd4);(FC,Rd4);(FD,Rd4);
   (FE,Rd4);(FT,Rd4);(FA,Rd4);(FB,Rd4);(FC,Rd4);(FD,Rd4);(FE,Rd4);(FT,Rd4);(FA,Rd4);(FB,Rd4)].

Definition run_unravel (steps : list (ustep * round * Z)) (r : regs) : regs :=
  fold_left (λ r '(u, n, w), do_ustep u n r w) steps r.

(** ** The operations *)

Definition load_regs (d : digest5) : regs :=
  Regs 0 (dg0 d) (dg1 d) (dg2 d) (dg3 d) (dg4 d).

Definition add_digest (d : digest5) (a b c e f : Z) : digest5 :=
  Digest (T32 (u32 (dg0 d + a))) (T32 (u32 (dg1 d + b))) (T32 (u32 (dg2 d + c)))
         (T32 (u32 (dg3 d + e))) (T32 (u32 (dg4 d + f))).

Definition compress (d : digest5) (block : list Z) : digest5 :=
  let r := run_FG (zip rounds (schedule block)) (load_regs d) in
  add_digest d (rA r) (rB r) (rC r) (rD r) (rE r).

Definition compress_unravel (d : digest5) (block : list Z) : digest5 :=
  let r := run_unravel (zip unravel_program (schedule block)) (load_regs d) in
  add_digest d (rE r) (rT r) (rA r) (rB r) (rC r).

Definition sha1_transform (s : SHA1_INFO) : SHA1_INFO :=
  Info (compress (digest s) (data s)) (count_lo s) (count_hi s) (data s) (local_ s).

(** [data] is left as it was. *)
Definition sha1_init (s : SHA1_INFO) : SHA1_INFO :=
  Info (Digest 0x67452301 0xefcdab89 0x98badcfe 0x10325476 0xc3d2e1f0) 0 0 (data s) 0.

(** [memcpy(data + off, src, length src)] within the block. *)
Definition copy_into (dst : list Z) (off : nat) (src : list Z) : list Z :=
  take off dst ++ src ++ drop (off + length src) dst.

Definition set_data (s : SHA1_INFO) (d : list Z) : SHA1_INFO :=
  Info (digest s) (count_lo s) (count_hi s) d (local_ s).
Definition set_local (s : SHA1_INFO) (l : Z) : SHA1_INFO :=
  Info (digest s) (count_lo s) (count_hi s) (data s) l.

(** The 64-bit bit count in two words. *)
Definition add_count (s : SHA1_INFO) (count : Z) : SHA1_INFO :=
  let clo := T32 (u32 (count_lo s + u32 (Z.shiftl (u32 count) 3))) in
  let hi := if clo <? count_lo s then u32 (count_hi s + 1) else count_hi s in
  Info (digest s) clo (u32 (hi + Z.shiftr (u32 count) 29)) (data s) (local_ s).

(** [while (count >= SHA1_BLOCKSIZE)]; each turn takes 64 bytes off [buffer]. *)
Fixpoint update_blocks (fuel : nat) (s : SHA1_INFO) (buffer : list Z)
    : SHA1_INFO * list Z :=
  match fuel with
  | O => (s, buffer)
  | S fuel =>
    if SHA1_BLOCKSIZE <=? Z.of_nat (length buffer) then
      update_blocks fuel
        (sha1_transform (set_data s (copy_into (data s) 0 (take 64 buffer))))
        (drop 64 buffer)
    else (s, buffer)
  end.

Definition sha1_update (s : SHA1_INFO) (buffer : list Z) : SHA1_INFO :=
  let count := Z.of_nat (length buffer) in
  let s := add_count s count in
  let finish s buffer :=
    let '(s, buffer) := update_blocks (length buffer) s buffer in
    set_local (set_data s (copy_into (data s) 0 buffer)) (Z.of_nat (length buffer)) in
  if local_ s =? 0 then finish s buffer
  else
    let i := Z.min (SHA1_BLOCKSIZE - local_ s) count in
    let s := set_data s (copy_into (data s) (Z.to_nat (local_ s)) (take (Z.to_nat i) buffer)) in
    let buffer := drop (Z.to_nat i) buffer in
    let s := set_local s (local_ s + i) in
    if local_ s =? SHA1_BLOCKSIZE then finish (sha1_transform s) buffer else s.

(** The bytes of a word, most significant first. *)
Definition word_bytes (x : Z) : list Z :=
  [Z.land (Z.shiftr x 24) 255; Z.land (Z.shiftr x 16) 255;
   Z.land (Z.shiftr x 8) 255; Z.land x 255].

Definition digest_bytes (d : digest5) : list Z :=
  word_bytes (dg0 d) ++ word_bytes (dg1 d) ++ word_bytes (dg2 d) ++
  word_bytes (dg3 d) ++ word_bytes (dg4 d).

Definition sha1_transform_and_copy (s : SHA1_INFO) : list Z * SHA1_INFO :=
  let s := sha1_transform s in (digest_bytes (digest s), s).

Definition sha1_final (s : SHA1_INFO) : list Z * SHA1_INFO :=
  let lo_bit_count := count_lo s in
  let hi_bit_count := count_hi s in
  let count := Z.to_nat (Z.land (Z.shiftr lo_bit_count 3) 0x3f) in
  let s := set_data s (copy_into (data s) count [0x80]) in
  let count := S count in
  let s :=
    if SHA1_BLOCKSIZE - 8 <? Z.of_nat count then
      let s := set_data s (copy_into (data s) count (replicate (64 - count) 0)) in
      let s := sha1_transform s in
      set_data s (copy_into (data s) 0 (replicate (64 - 8) 0))
    else set_data s (copy_into (data s) count (replicate (64 - 8 - count) 0)) in
  let s := set_data s (copy_into (data s) 56 (word_bytes hi_bit_count ++ word_bytes lo_bit_count)) in
  sha1_transform_and_copy s.

(** ** Specification (FIPS 180) *)

Module FIPS.

Definition ROTL (n x : Z) : Z := Z.lor (wrap 32 (Z.shiftl x n)) (Z.shiftr x (32 - n)).
Definition Not (x : Z) : Z := wrap 32 (Z.lnot x).
Definition Ch (x y z : Z) : Z := Z.lxor (Z.land x y) (Z.land (Not x) z).
Definition Parity (x y z : Z) : Z := Z.lxor x (Z.lxor y z).
Definition Maj (x y z : Z) : Z := Z.lxor (Z.lxor (Z.land x y) (Z.land x z)) (Z.land y z).

Definition ft (t : nat) : Z → Z → Z → Z :=
  if decide (t < 20)%nat then Ch else if decide (t < 40)%nat then Parity
  else if decide (t < 60)%nat then Maj else Parity.
Definition Kt (t : nat) : Z :=
  if decide (t < 20)%nat then 0x5a827999 else if decide (t < 40)%nat then 0x6ed9eba1
  else if decide (t < 60)%nat then 0x8f1bbcdc else 0xca62c1d6.

(** The [t]-th big-endian word of a block. *)
Definition M (block : list Z) (t : nat) : Z :=
  Z_of_bits (take 4 (drop (4 * t) block) ≫= bits_of 8).

(** The words [W_0 .. W_(t-1)]. *)
Fixpoint W (block : list Z) (t : nat) : list Z :=
  match t with
  | O => []
  | S t' =>
    let ws := W block t' in
    ws ++ [if decide (t' < 16)%nat then M block t'
           else ROTL 1 (Z.lxor (ws !!! (t' - 3)%nat) (Z.lxor (ws !!! (t' - 8)%nat)
                  (Z.lxor (ws !!! (t' - 14)%nat) (ws !!! (t' - 16)%nat))))]
  end.

Definition step (block : list Z) (h : digest5) (t : nat) : digest5 :=
  let 'Digest a b c d e := h in
  Digest (wrap 32 (ROTL 5 a + ft t b c d + e + Kt t + W block 80 !!! t))
         a (ROTL 30 b) c d.

Definition process (h : digest5) (block : list Z) : digest5 :=
  let 'Digest a b c d e := fold_left (step block) (seq 0 80) h in
  Digest (wrap 32 (dg0 h + a)) (wrap 32 (dg1 h + b)) (wrap 32 (dg2 h + c))
         (wrap 32 (dg3 h + d)) (wrap 32 (dg4 h + e)).

Definition H0 : digest5 := Digest 0x67452301 0xefcdab89 0x98badcfe 0x10325476 0xc3d2e1f0.

(** The length field and the digest words. *)
Abbreviation be_bytes := Blocks.be_bytes.

(** One bit, zeros up to 56 bytes modulo 64, the bit length in 64 bits. *)
Definition pad (m : list Z) : list Z :=
  m ++ [0x80] ++ replicate (Z.to_nat ((55 - Z.of_nat (length m)) mod 64)) 0 ++
  be_bytes 8 (8 * Z.of_nat (length m)).

(** The complete blocks of a message. *)
Abbreviation all_blocks := (Blocks.all_blocks 64).

Definition sha1 (m : list Z) : list Z :=
  let 'Digest a b c d e := fold_left process (all_blocks (pad m)) H0 in
  [a; b; c; d; e] ≫= be_bytes 4.

End FIPS.

Arguments FIPS.W : simpl never.

Lemma W_S (block : list Z) (n : nat) :
  FIPS.W block (S n) = FIPS.W block n ++ [if decide (n < 16)%nat then FIPS.M block n
           else FIPS.ROTL 1 (Z.lxor (FIPS.W block n !!! (n - 3)%nat) (Z.lxor (FIPS.W block n !!! (n - 8)%nat)
                  (Z.lxor (FIPS.W block n !!! (n - 14)%nat) (FIPS.W block n !!! (n - 16)%nat))))].
Proof. reflexivity. Qed.

(** ** The schedule *)

Lemma swap_load_testbit b0 b1 b2 b3 i : is_byte b0 → is_byte b1 → is_byte b2 → is_byte b3 → 0 ≤ i →
  Z.testbit (swap_bytes (load_u32_le [b0;b1;b2;b3])) i =
    if decide (i < 8) then Z.testbit b3 i else if decide (i < 16) then Z.testbit b2 (i - 8)
    else if decide (i < 24) then Z.testbit b1 (i - 16) else if decide (i < 32) then Z.testbit b0 (i - 24) else false.
Proof.
  intros H0 H1 H2 H3 Hi. unfold swap_bytes, load_u32_le, u32.
  change 0xff000000 with (Z.shiftl (Z.ones 8) 24). change 0x00ff0000 with (Z.shiftl (Z.ones 8) 16).
  change 0x0000ff00 with (Z.shiftl (Z.ones 8) 8). change 0x000000ff with (Z.shiftl (Z.ones 8) 0).
  repeat case_decide; zmask; try done; try (f_equal; lia).  
Qed.

Lemma swap_load_word (b0 b1 b2 b3 : Z) (dp : list Z) :
  Forall is_byte [b0; b1; b2; b3] →
  swap_bytes (load_u32_le (b0 :: b1 :: b2 :: b3 :: dp)) =
    Z_of_bits ([b0; b1; b2; b3] ≫= bits_of 8).
Proof.
  intros Hb. repeat (apply Forall_cons in Hb as [? Hb]).
  pose proof (swap_load_testbit b0 b1 b2 b3) as T. change (load_u32_le (_ :: _)) with (load_u32_le [b0;b1;b2;b3]).
  set (z := swap_bytes _) in *.
  transitivity (wrap 32 z).
  - apply Z.bits_inj'. intros i Hi. rewrite wrap_testbit, T by (done || lia).
    repeat case_decide; case_bool_decide; (done || lia).
  - change 32 with (Z.of_nat 32). rewrite <-Z_of_bits_of. f_equal.
    change 32%nat with (8 + (8 + (8 + 8)))%nat. rewrite !bits_of_app.
    cbn [mbind list_bind]. rewrite app_nil_r.
    f_equal; [|f_equal; [|f_equal]]; apply bits_of_ext; intros i Hi; rewrite ?Z.shiftr_spec, T by (done || lia);
      repeat case_decide; try lia; f_equal; lia.
Qed.

Abbreviation word x := (0 ≤ x < 2 ^ 32).

Lemma T32_wrap (x : Z) : T32 x = wrap 32 x.
Proof. unfold T32. change 0xffffffff with (Z.ones 32). by apply wrap_land_ones. Qed.

Lemma word_wrap (x : Z) : word (wrap 32 x).
Proof. by apply wrap_range. Qed.

Lemma word_T32 (x : Z) : word (T32 x).
Proof. rewrite T32_wrap. apply word_wrap. Qed.

Lemma word_bits (x : Z) : 0 ≤ x → (∀ i, 32 ≤ i → Z.testbit x i = false) → word x.
Proof.
  intros H0 H. assert (x = wrap 32 x) as ->; [|apply word_wrap].
  apply Z.bits_inj'. intros i Hi. rewrite wrap_testbit by lia.
  case_bool_decide; [done|]. apply H. lia.
Qed.

Lemma word_lxor (x y : Z) : word x → word y → word (Z.lxor x y).
Proof.
  intros Hx Hy. apply word_bits; [apply Z.lxor_nonneg; lia|].
  intros i Hi. by rewrite Z.lxor_spec, !(testbit_high 32) by done.
Qed.

Lemma R32_ROTL (x n : Z) : word x → 0 ≤ n ≤ 32 → R32 x n = FIPS.ROTL n x.
Proof.
  intros Hx Hn. unfold R32, FIPS.ROTL. rewrite T32_wrap. unfold u32.
  apply wrap_small, word_bits.
  - apply Z.lor_nonneg. split; [apply wrap_range; lia|apply Z.shiftr_nonneg; lia].
  - intros i Hi. rewrite Z.lor_spec, wrap_testbit, Z.shiftr_spec by lia.
    rewrite bool_decide_false by lia. rewrite (testbit_high 32 x) by (done || lia). done.
Qed.

Lemma word_R32 (x n : Z) : word (R32 x n).
Proof. apply word_T32. Qed.

Lemma load_block_M (n : nat) : ∀ dp, Forall is_byte dp → (4 * n ≤ length dp)%nat →
  load_block n dp = FIPS.M dp <$> seq 0 n.
Proof.
  induction n as [|n IH]; intros dp Hb Hl; [done|].
  destruct dp as [|b0 [|b1 [|b2 [|b3 dp]]]]; simpl in Hl; try lia.
  cbn [load_block]. rewrite <-cons_seq, fmap_cons. f_equal.
  - rewrite swap_load_word by (repeat (apply Forall_cons in Hb as [? Hb]); auto).
    done.
  - change (drop 4 (b0 :: b1 :: b2 :: b3 :: dp)) with dp.
    rewrite IH by (repeat (apply Forall_cons in Hb as [? Hb]); done || lia).
    rewrite <-fmap_S_seq, <-list_fmap_compose. apply list_fmap_ext. intros ? t _. simpl.
    unfold FIPS.M. replace (4 * S t)%nat with (4 + 4 * t)%nat by lia. done.
Qed.

Lemma W_short (block : list Z) (n : nat) :
  (n ≤ 16)%nat → FIPS.W block n = FIPS.M block <$> seq 0 n.
Proof.
  induction n as [|n IH]; intros Hn; [done|].
  rewrite seq_S, fmap_app, <-IH, W_S by lia. by rewrite decide_True by lia.
Qed.

Lemma W_length (block : list Z) (n : nat) : length (FIPS.W block n) = n.
Proof. induction n as [|n IH]; [done|]. rewrite W_S, length_app, IH. simpl. lia. Qed.

Lemma M_word (block : list Z) (t : nat) : word (FIPS.M block t).
Proof.
  unfold FIPS.M. set (l := take 4 _).
  pose proof (Z_of_bits_range (l ≫= bits_of 8)) as R.
  assert (length (l ≫= bits_of 8) ≤ 32)%nat as Hl.
  { assert (length l ≤ 4)%nat by (unfold l; rewrite length_take; lia).
    assert (∀ l : list Z, length (l ≫= bits_of 8) = (8 * length l)%nat) as ->; [|lia].
    intros l'. induction l' as [|x l' IH]; [done|].
    rewrite bind_cons, length_app, IH, length_bits_of. simpl. lia. }
  split; [lia|]. eapply Z.lt_le_trans; [apply R|]. apply Z.pow_le_mono_r; lia.
Qed.

Lemma W_words (block : list Z) (n : nat) : Forall (λ w, word w) (FIPS.W block n).
Proof.
  induction n as [|n IH]; [constructor|]. rewrite W_S.
  apply Forall_app. split; [done|]. constructor; [|constructor].
  case_decide; [apply M_word|].
  rewrite <-R32_ROTL; [apply word_R32| |lia].
  assert (∀ k, word (FIPS.W block n !!! k)) as Hk.
  { intros k. rewrite list_lookup_total_alt.
    destruct (FIPS.W block n !! k) eqn:E; simpl; [|done].
    rewrite Forall_lookup in IH. eauto. }
  auto using word_lxor.
Qed.

Lemma W_total_word (block : list Z) (n k : nat) : word (FIPS.W block n !!! k).
Proof.
  rewrite list_lookup_total_alt.
  destruct (FIPS.W block n !! k) eqn:E; simpl; [|done].
  pose proof (W_words block n) as IH. rewrite Forall_lookup in IH. eauto.
Qed.

Lemma R32_lxor4 (a b c d : Z) : word a → word b → word c → word d →
  R32 (Z.lxor (Z.lxor (Z.lxor a b) c) d) 1 = FIPS.ROTL 1 (Z.lxor a (Z.lxor b (Z.lxor c d))).
Proof.
  intros. rewrite R32_ROTL; [by rewrite !Z.lxor_assoc| |lia].
  by repeat apply word_lxor.
Qed.

Lemma expand_W (block : list Z) (n : nat) : (16 ≤ n)%nat →
  expand_word (FIPS.W block n) n = FIPS.W block (S n).
Proof.
  intros Hn. rewrite W_S, decide_False by lia. unfold expand_word.
  rewrite R32_lxor4 by apply W_total_word. reflexivity. 
Qed.

Lemma schedule_W (block : list Z) :
  Forall is_byte block → length block = 64%nat → schedule block = FIPS.W block 80.
Proof.
  intros Hb Hl. unfold schedule.
  rewrite load_block_M, <-W_short by (done || lia).
  change 80%nat with (16 + 64)%nat. generalize 64%nat as k.
  induction k as [|k IH]; [done|].
  rewrite seq_S, fold_left_app, IH. cbn [fold_left].
  rewrite expand_W by lia. f_equal; lia.
Qed.

(** ** The rounds *)

Lemma f1_Ch (x y z : Z) : f1 x y z = FIPS.Ch x y z.
Proof.
  unfold f1, FIPS.Ch, FIPS.Not, u32. apply Z.bits_inj'. intros i Hi.
  rewrite Z.lor_spec, Z.lxor_spec, !Z.land_spec, wrap_testbit, Z.lnot_spec by lia.
  destruct (bool_decide _), (Z.testbit x i), (Z.testbit y i), (Z.testbit z i); done.
Qed.

Lemma f3_Maj (x y z : Z) : f3 x y z = FIPS.Maj x y z.
Proof.
  unfold f3, FIPS.Maj. apply Z.bits_inj'. intros i Hi.
  rewrite !Z.lor_spec, !Z.lxor_spec, !Z.land_spec.
  destruct (Z.testbit x i), (Z.testbit y i), (Z.testbit z i); done.
Qed.

Lemma f2_Parity (x y z : Z) : f2 x y z = FIPS.Parity x y z.
Proof. apply Z.lxor_assoc. Qed.

(** The round function and constant of step [t]. *)
Definition round_of (t : nat) : round :=
  if decide (t < 20)%nat then Rd1 else if decide (t < 40)%nat then Rd2
  else if decide (t < 60)%nat then Rd3 else Rd4.

Lemma rounds_seq : rounds = round_of <$> seq 0 80.
Proof. reflexivity. Qed.

Lemma round_of_spec (t : nat) (x y z : Z) :
  f_ (round_of t) x y z = FIPS.ft t x y z ∧ CONST_ (round_of t) = FIPS.Kt t.
Proof.
  unfold round_of, FIPS.ft, FIPS.Kt.
  repeat case_decide; split; auto using f1_Ch, f2_Parity, f3_Maj.
Qed.

(** The five working variables. *)
Definition vars (r : regs) : digest5 := Digest (rA r) (rB r) (rC r) (rD r) (rE r).
Definition words5 (d : digest5) : Prop :=
  word (dg0 d) ∧ word (dg1 d) ∧ word (dg2 d) ∧ word (dg3 d) ∧ word (dg4 d).

Lemma FG_step (block : list Z) (t : nat) (r : regs) :
  words5 (vars r) →
  vars (FG (round_of t) r (FIPS.W block 80 !!! t)) = FIPS.step block (vars r) t ∧
  words5 (vars (FG (round_of t) r (FIPS.W block 80 !!! t))).
Proof.
  intros (HA & HB & HC & HD & HE). unfold FIPS.step, vars, FG, mix.
  generalize (FIPS.W block 80 !!! t) as w. intros w. cbn [rA rB rC rD rE].
  destruct (round_of_spec t (rB r) (rC r) (rD r)) as [-> ->].
  rewrite T32_wrap, (R32_ROTL (rA r)) by (done || lia). split.
  - rewrite R32_ROTL by (done || lia). do 2 f_equal. lia.
  - unfold words5. cbn [dg0 dg1 dg2 dg3 dg4].
    split_and; [apply word_wrap|split_and; [exact HA|split_and; [apply word_R32|by split_and]]].
Qed.

Lemma run_FG_steps (block : list Z) (k : nat) : ∀ (t : nat) (r : regs),
  words5 (vars r) →
  vars (run_FG ((λ i, (round_of i, FIPS.W block 80 !!! i)) <$> seq t k) r) =
    fold_left (FIPS.step block) (seq t k) (vars r) ∧
  words5 (vars (run_FG ((λ i, (round_of i, FIPS.W block 80 !!! i)) <$> seq t k) r)).
Proof.
  induction k as [|k IH]; intros t r Hr; [done|].
  destruct (FG_step block t r Hr) as [H1 H2].
  rewrite <-cons_seq, fmap_cons. cbn [fold_left run_FG]. rewrite <-H1.
  apply (IH (S t) _ H2).
Qed.

Lemma zip_rounds (ws : list Z) :
  length ws = 80%nat →
  zip rounds ws = (λ i, (round_of i, ws !!! i)) <$> seq 0 80.
Proof.
  intros H. rewrite rounds_seq.
  assert (ws = (λ i, ws !!! i) <$> seq 0 80) as Hws.
  { apply list_eq. intros i. rewrite list_lookup_fmap.
    destruct (decide (i < 80)%nat).
    - rewrite lookup_seq_lt by done. simpl.
      apply list_lookup_lookup_total_lt. lia.
    - rewrite lookup_seq_ge by lia. apply lookup_ge_None. lia. }
  rewrite Hws at 1. by rewrite zip_with_fmap_l, zip_with_fmap_r, zip_with_diag.
Qed.

Lemma compress_process (d : digest5) (block : list Z) :
  words5 d → Forall is_byte block → length block = 64%nat →
  compress d block = FIPS.process d block.
Proof.
  intros Hd Hb Hl. unfold compress, FIPS.process.
  rewrite schedule_W, zip_rounds by (auto using W_length).
  destruct (run_FG_steps block 80 0 (load_regs d)) as [H _]; [exact Hd|].
  replace (vars (load_regs d)) with d in H by (by destruct d).
  rewrite <-H. unfold add_digest, vars. rewrite !T32_wrap. unfold u32.
  by rewrite !wrap_wrap.
Qed.

Lemma process_words5 (d : digest5) (block : list Z) : words5 (FIPS.process d block).
Proof.
  unfold FIPS.process. destruct (fold_left _ _ _).
  unfold words5; split_and; apply word_wrap || (split_and; [apply word_wrap|]).
  split_and; [apply word_wrap|split_and; apply word_wrap].
Qed.

(** ** The UNRAVEL build *)

(** Where the variables of the generic step are after [k] steps (mod 6). *)
Definition rotated (k : nat) (r : regs) : digest5 :=
  let 'Regs T A B C D E := r in
  match (k mod 6)%nat with
  | 0%nat => Digest A B C D E
  | 1%nat => Digest T A B C D
  | 2%nat => Digest E T A B C
  | 3%nat => Digest D E T A B
  | 4%nat => Digest C D E T A
  | _ => Digest B C D E T
  end.

Definition ustep_at (k : nat) : ustep :=
  match (k mod 6)%nat with
  | 0%nat => FA | 1%nat => FB | 2%nat => FC | 3%nat => FD | 4%nat => FE | _ => FT
  end.

Definition FG_vars (n : round) (h : digest5) (w : Z) : digest5 :=
  Digest (mix n (dg0 h) (dg1 h) (dg2 h) (dg3 h) (dg4 h) w)
         (dg0 h) (R32 (dg1 h) 30) (dg2 h) (dg3 h).

Lemma FG_vars_spec (n : round) (r : regs) (w : Z) : vars (FG n r w) = FG_vars n (vars r) w.
Proof. done. Qed.

Lemma ustep_rotates (k : nat) (n : round) (r : regs) (w : Z) :
  rotated (S k) (do_ustep (ustep_at k) n r w) = FG_vars n (rotated k r) w.
Proof.
  unfold rotated, ustep_at. destruct r as [T A B C D E].
  pose proof (Nat.mod_upper_bound k 6 ltac:(lia)) as Hk.
  assert ((S k) mod 6 = (S (k mod 6)) mod 6)%nat as ->
    by (rewrite <-Nat.add_1_r, <-(Nat.add_1_r (k mod 6)), Nat.Div0.add_mod_idemp_l; done).
  remember (k mod 6)%nat as j. do 6 (destruct j as [|j]; [done|]). lia.
Qed.

Lemma run_unravel_FG (ns : list round) : ∀ (k : nat) (ws : list Z) (r s : regs),
  rotated k r = vars s →
  rotated (k + length (zip ns ws))
    (run_unravel (zip (imap (λ i n, (ustep_at (k + i), n)) ns) ws) r) =
  vars (run_FG (zip ns ws) s).
Proof.
  induction ns as [|n ns IH]; intros k ws r s H; [by rewrite Nat.add_0_r|].
  destruct ws as [|w ws]; [by rewrite Nat.add_0_r|].
  cbn [zip zip_with imap length run_unravel run_FG fold_left].
  rewrite Nat.add_0_r, <-Nat.add_succ_comm. specialize (IH (S k) ws).
  rewrite (imap_ext _ (λ i n, (ustep_at (S k + i), n)))
    by (intros i x _; unfold compose; by rewrite Nat.add_succ_comm).
  apply IH. by rewrite ustep_rotates, H, FG_vars_spec.
Qed.

Lemma unravel_program_eq :
  unravel_program = imap (λ i n, (ustep_at (0 + i), n)) rounds.
Proof. reflexivity. Qed.

(** ** Streaming *)

Abbreviation tail := (Blocks.tail 64).

Lemma pos64 : (0 < 64)%nat.
Proof. lia. Qed.

Abbreviation blocks_short := (Blocks.blocks_short 64).
Abbreviation blocks_step := (Blocks.blocks_step 64 pos64).
Abbreviation blocks_app := (Blocks.blocks_app 64 pos64).
Abbreviation tail_length := (Blocks.tail_length 64 pos64).

Lemma copy_into_length (dst : list Z) (off : nat) (src : list Z) :
  (off + length src ≤ length dst)%nat → length (copy_into dst off src) = length dst.
Proof. intros. unfold copy_into. rewrite !length_app, length_take, length_drop. lia. Qed.

Lemma copy_into_take (dst : list Z) (off : nat) (src : list Z) :
  (off + length src ≤ length dst)%nat →
  take (off + length src) (copy_into dst off src) = take off dst ++ src.
Proof.
  intros. unfold copy_into. rewrite app_assoc, take_app_le, take_ge; [done|..];
    rewrite length_app, length_take; lia.
Qed.

Lemma copy_into_full (dst : list Z) (off : nat) (src : list Z) :
  (off + length src = length dst)%nat → copy_into dst off src = take off dst ++ src.
Proof.
  intros H. rewrite <-copy_into_take by lia.
  rewrite take_ge; [done|]. rewrite copy_into_length; lia.
Qed.

Lemma update_blocks_spec (fuel : nat) : ∀ s buffer,
  length (data s) = 64%nat → (length buffer < 64 * S fuel)%nat →
  ∃ d, length d = 64%nat ∧ update_blocks fuel s buffer =
    (Info (fold_left compress (FIPS.all_blocks buffer) (digest s))
          (count_lo s) (count_hi s) d (local_ s), tail buffer).
Proof.
  induction fuel as [|fuel IH]; intros s buffer Hd Hf.
  { destruct (blocks_short buffer) as [-> ->]; [lia|].
    exists (data s). split; [done|]. by destruct s. }
  cbn [update_blocks]. unfold SHA1_BLOCKSIZE.
  destruct (Z.leb_spec 64 (Z.of_nat (length buffer))) as [H|H].
  2:{ destruct (blocks_short buffer) as [-> ->]; [lia|].
      exists (data s). split; [done|]. by destruct s. }
  set (s1 := sha1_transform _).
  assert (length (take 64 buffer) = 64%nat) as Hl by (rewrite length_take; lia).
  assert (copy_into (data s) 0 (take 64 buffer) = take 64 buffer) as Hc.
  { rewrite copy_into_full by lia. done. }
  destruct (IH s1 (drop 64 buffer)) as (d & Hd1 & ->).
  - unfold s1. simpl. by rewrite Hc.
  - rewrite length_drop. lia.
  - exists d. split; [done|].
    rewrite <-(take_drop 64 buffer) at 3 4.
    destruct (blocks_step (take 64 buffer) (drop 64 buffer) Hl) as [-> ->].
    unfold s1. simpl. by rewrite Hc.
Qed.

(** The bit count kept in the two words. *)
Definition count64 (s : SHA1_INFO) (n : Z) : Prop :=
  word (count_lo s) ∧ word (count_hi s) ∧
  count_lo s + 2 ^ 32 * count_hi s = n mod 2 ^ 64.

Lemma add_count_spec (s : SHA1_INFO) (n c : Z) :
  count64 s n → 0 ≤ c < 2 ^ 32 → count64 (add_count s c) (n + 8 * c).
Proof.
  unfold count64, add_count, u32. intros (Hlo & Hhi & Hn) Hc.
  rewrite T32_wrap, wrap_wrap by lia. rewrite (wrap_small 32 c) by done.
  rewrite Z.shiftl_mul_pow2, Z.shiftr_div_pow2 by lia.
  cbn [count_lo count_hi]. unfold wrap.
  change (2 ^ 32) with 4294967296 in *. change (2 ^ 3) with 8.
  change (2 ^ 29) with 536870912. change (2 ^ 64) with 18446744073709551616 in *.
  destruct (Z.ltb_spec ((count_lo s + (c * 8) mod 4294967296) mod 4294967296) (count_lo s));
    Z.to_euclidean_division_equations; lia.
Qed.

(** The context after the bytes [m]. *)
Definition ctx_inv (s : SHA1_INFO) (m : list Z) : Prop :=
  digest s = fold_left compress (FIPS.all_blocks m) FIPS.H0 ∧
  local_ s = Z.of_nat (length (tail m)) ∧ length (data s) = 64%nat ∧
  take (length (tail m)) (data s) = tail m ∧
  count64 s (8 * Z.of_nat (length m)).

Lemma init_inv (s : SHA1_INFO) : length (data s) = 64%nat → ctx_inv (sha1_init s) [].
Proof. intros H. repeat split; try done. Qed.

Lemma update_inv (s : SHA1_INFO) (m b : list Z) :
  ctx_inv s m → Z.of_nat (length b) < 2 ^ 32 → ctx_inv (sha1_update s b) (m ++ b).
Proof.
  intros (Hdg & Hlo & Hlen & Htl & Hct) Hb.
  pose proof (add_count_spec s _ (Z.of_nat (length b)) Hct ltac:(lia)) as Hct'.
  replace (8 * Z.of_nat (length m) + 8 * Z.of_nat (length b))
    with (8 * Z.of_nat (length (m ++ b))) in Hct' by (rewrite length_app; lia).
  destruct (blocks_app m b) as [Hbl Htail].
  destruct (tail_length m) as [Hm64 _].
  set (t := tail m) in *.
  (* the common end: whole blocks, then the rest into [data] *)
  assert (∀ s' buf, length (data s') = 64%nat →
    count_lo s' = count_lo (add_count s (Z.of_nat (length b))) →
    count_hi s' = count_hi (add_count s (Z.of_nat (length b))) →
    fold_left compress (FIPS.all_blocks (m ++ b)) FIPS.H0 =
      fold_left compress (FIPS.all_blocks buf) (digest s') →
    tail (m ++ b) = tail buf →
    ctx_inv (let '(s', buf) := update_blocks (length buf) s' buf in
      set_local (set_data s' (copy_into (data s') 0 buf)) (Z.of_nat (length buf))) (m ++ b)) as Hend.
  { intros s' buf Hd Hcl Hch Hf Ht.
    destruct (update_blocks_spec (length buf) s' buf Hd) as (d & Hld & ->); [lia|].
    destruct (tail_length buf) as [Hb64 _].
    unfold ctx_inv, set_local, set_data. cbn [digest local_ data].
    rewrite Ht. split; [done|split; [done|split; [|split]]].
    3:{ unfold count64 in *. cbn [count_lo count_hi]. by rewrite Hcl, Hch. }
    - by rewrite copy_into_length by lia.
    - rewrite <-(Nat.add_0_l (length (tail buf))), copy_into_take by lia. done. }
  unfold sha1_update. change (local_ (add_count s (Z.of_nat (length b)))) with (local_ s).
  rewrite Hlo. destruct (Z.eqb_spec (Z.of_nat (length t)) 0) as [H0|H0].
  { apply Hend; [done..| |].
    - rewrite Hbl, fold_left_app, <-Hdg. destruct t; [done|simpl in H0; lia].
    - rewrite Htail. destruct t; [done|simpl in H0; lia]. }
  unfold SHA1_BLOCKSIZE. rewrite Nat2Z.id.
  set (i := Z.min (64 - Z.of_nat (length t)) (Z.of_nat (length b))).
  assert (length (take (Z.to_nat i) b) = Z.to_nat i) as Hti by (rewrite length_take; lia).
  cbn [local_ set_local set_data]. rewrite ?Hlo.
  change (local_ (add_count s (Z.of_nat (length b)))) with (local_ s). rewrite ?Hlo.
  destruct (Z.eqb_spec (Z.of_nat (length t) + i) 64) as [H64|H64].
  - assert (copy_into (data s) (length t) (take (Z.to_nat i) b) = t ++ take (Z.to_nat i) b) as Hcp.
    { rewrite copy_into_full by lia. by rewrite Htl. }
    assert (length (t ++ take (Z.to_nat i) b) = 64%nat) as Hl64 by (rewrite length_app; lia).
    destruct (blocks_step (t ++ take (Z.to_nat i) b) (drop (Z.to_nat i) b) Hl64) as [Hb1 Hb2].
    rewrite <-app_assoc, take_drop in Hb1, Hb2.
    apply Hend; simpl; [by rewrite Hcp|done|done| |].
    + by rewrite Hbl, Hb1, fold_left_app, <-Hdg, Hcp.
    + by rewrite Htail, Hb2.
  - assert (i = Z.of_nat (length b)) as Ei by lia.
    rewrite Ei, Nat2Z.id, take_ge by done.
    destruct (blocks_short (t ++ b)) as [Hb1 Hb2]; [rewrite length_app; lia|].
    unfold ctx_inv, set_local, set_data. cbn [digest local_ data].
    rewrite Htail, Hb2, Hbl, Hb1, app_nil_r, length_app.
    split; [done|split; [lia|split; [|split; [|exact Hct']]]].
    + cbn [add_count data]. rewrite copy_into_length; lia.
    + cbn [add_count data]. rewrite copy_into_take by lia. by rewrite Htl.
Qed.

(** ** Padding *)

Lemma word_bytes_be (x : Z) : word_bytes x = FIPS.be_bytes 4 x.
Proof.
  unfold word_bytes. cbn [FIPS.be_bytes].
  change 255 with (Z.ones 8). rewrite !wrap_land_ones, !Z.shiftr_div_pow2 by lia.
  change (2 ^ (8 * Z.of_nat 0)) with 1. rewrite Z.div_1_r. done.
Qed.

Lemma be_bytes_split (x lo hi : Z) :
  0 ≤ lo < 2 ^ 32 → 0 ≤ hi < 2 ^ 32 → lo + 2 ^ 32 * hi = x →
  FIPS.be_bytes 8 x = word_bytes hi ++ word_bytes lo.
Proof.
  intros Hlo Hhi <-. rewrite !word_bytes_be. cbn [FIPS.be_bytes app].
  unfold wrap. cbn [Z.of_nat Pos.of_succ_nat Pos.succ Z.mul Pos.mul].
  change (2 ^ 32) with 4294967296 in *.
  change (2 ^ 8) with 256. change (2 ^ 16) with 65536. change (2 ^ 24) with 16777216.
  change (2 ^ 40) with 1099511627776. change (2 ^ 48) with 281474976710656.
  change (2 ^ 56) with 72057594037927936. change (2 ^ 0) with 1. change (2 ^ 32) with 4294967296.
  repeat (apply f_equal2; [Z.to_euclidean_division_equations; lia|]). done.
Qed.

Lemma final_count (s : SHA1_INFO) (m : list Z) :
  ctx_inv s m → Z.to_nat (Z.land (Z.shiftr (count_lo s) 3) 0x3f) = length (tail m).
Proof.
  intros (_ & _ & _ & _ & (Hlo & Hhi & Hn)).
  change 0x3f with (Z.ones 6). rewrite wrap_land_ones, Z.shiftr_div_pow2 by lia.
  destruct (tail_length m) as [_ Ht]. apply Nat2Z.inj. rewrite Ht, Z2Nat.id by (apply wrap_range; lia).
  unfold wrap. change (2 ^ 3) with 8. change (2 ^ 6) with 64.
  change (2 ^ 32) with 4294967296 in *. change (2 ^ 64) with 18446744073709551616 in *.
  Z.to_euclidean_division_equations; lia.
Qed.

(** The one or two blocks that close the message. *)
Lemma pad_blocks (m : list Z) (lo hi : Z) :
  let t := tail m in let r := length t in
  word lo → word hi → lo + 2 ^ 32 * hi = 8 * Z.of_nat (length m) →
  let len := word_bytes hi ++ word_bytes lo in
  FIPS.all_blocks (FIPS.pad m) = FIPS.all_blocks m ++
    if decide (r < 56)%nat then [t ++ [0x80] ++ replicate (55 - r) 0 ++ len]
    else [t ++ [0x80] ++ replicate (63 - r) 0; replicate 56 0 ++ len].
Proof.
  intros t r Hlo Hhi Hn len. unfold FIPS.pad.
  destruct (blocks_app m ([0x80] ++ replicate (Z.to_nat ((55 - Z.of_nat (length m)) mod 64)) 0
    ++ FIPS.be_bytes 8 (8 * Z.of_nat (length m)))) as [-> _]. f_equal.
  rewrite (be_bytes_split _ lo hi) by done. fold len t.
  destruct (tail_length m) as [H64 Hr]. fold t in H64, Hr. fold r in H64, Hr.
  case_decide as H.
  - replace (Z.to_nat ((55 - Z.of_nat (length m)) mod 64)) with (55 - r)%nat
      by (Z.to_euclidean_division_equations; lia).
    destruct (blocks_step (t ++ [0x80] ++ replicate (55 - r) 0 ++ len) []) as [E _].
    { rewrite !length_app, length_replicate. simpl. fold r. lia. }
    rewrite app_nil_r in E. by rewrite E.
  - replace (Z.to_nat ((55 - Z.of_nat (length m)) mod 64)) with ((63 - r) + 56)%nat
      by (Z.to_euclidean_division_equations; lia).
    rewrite replicate_add, <-app_assoc.
    destruct (blocks_step (t ++ [0x80] ++ replicate (63 - r) 0) (replicate 56 0 ++ len)) as [E _].
    { rewrite !length_app, length_replicate. simpl. fold r. lia. }
    rewrite <-!app_assoc in E. rewrite E.
    destruct (blocks_step (replicate 56 0 ++ len) []) as [E2 _]; [done|].
    rewrite app_nil_r in E2. by rewrite E2.
Qed.

Lemma copy_into_app (a b c : list Z) (off : nat) (src : list Z) :
  length a = off → length b = length src → copy_into (a ++ b ++ c) off src = a ++ src ++ c.
Proof.
  intros <- Hb. unfold copy_into. rewrite take_app_length, <-Hb, <-length_app.
  by rewrite (app_assoc a b c), drop_app_length.
Qed.

Lemma final_digest (s : SHA1_INFO) (m : list Z) :
  ctx_inv s m → 8 * Z.of_nat (length m) < 2 ^ 64 →
  fst (sha1_final s) =
    digest_bytes (fold_left compress (FIPS.all_blocks (FIPS.pad m)) FIPS.H0).
Proof.
  intros Hi Hmax. pose proof (final_count s m Hi) as Hc.
  destruct Hi as (Hdg & _ & Hlen & Htl & (Hlo & Hhi & Hn)).
  rewrite Z.mod_small in Hn by lia.
  pose proof (pad_blocks m _ _ Hlo Hhi Hn) as Hp. cbv zeta in Hp.
  destruct (tail_length m) as [H64 _].
  unfold sha1_final. rewrite Hc. set (t := tail m) in *. set (r := length t) in *.
  assert (copy_into (data s) r [0x80] = (t ++ [0x80]) ++ drop (S r) (data s)) as Hd1.
  { unfold copy_into. rewrite Htl. simpl length. rewrite <-app_assoc. repeat f_equal. lia. }
  rewrite Hp, fold_left_app, <-Hdg.
  assert (length (t ++ [0x80]) = S r) as Hl1 by (rewrite length_app; simpl; lia).
  unfold SHA1_BLOCKSIZE. change (64 - 8)%nat with 56%nat. change (64 - 8) with 56.
  case_decide as H; destruct (Z.ltb_spec 56 (Z.of_nat (S r))); try lia.
  - cbn [set_data sha1_transform_and_copy sha1_transform fst digest data count_lo count_hi].
    rewrite Hd1. apply (f_equal digest_bytes), (f_equal2 compress); [done|].
    assert (length (drop (S r) (data s)) = (55 - r) + 8)%nat as Hl2 by (rewrite length_drop; lia).
    rewrite <-(take_drop (55 - r) (drop (S r) (data s))).
    replace (56 - S r)%nat with (55 - r)%nat by lia.
    rewrite copy_into_app by (rewrite ?length_take, ?length_replicate; lia).
    rewrite app_assoc, <-(app_nil_r (drop (55 - r) _)).
    rewrite copy_into_app;
      [by rewrite app_nil_r, <-!app_assoc| |rewrite length_drop, Hl2; simpl; lia].
    rewrite length_app, length_replicate. lia.
  - cbn [set_data sha1_transform_and_copy sha1_transform fst digest data count_lo count_hi fold_left].
    rewrite Hd1.
    rewrite (copy_into_full _ (S r) (replicate (64 - S r) 0))
      by (rewrite !length_app, length_drop, length_replicate; simpl; fold r; lia).
    rewrite take_app_le, take_ge by lia.
    replace (64 - S r)%nat with (63 - r)%nat by lia.
    apply (f_equal digest_bytes), (f_equal2 compress).
    + by rewrite <-app_assoc.
    + set (blk := (t ++ [128]) ++ replicate (63 - r) 0).
      assert (length blk = 64%nat) as Hlb
        by (unfold blk; rewrite !length_app, length_replicate; simpl; fold r; lia).
      rewrite <-(take_drop 56 blk) at 1.
      rewrite <-(app_nil_l (take 56 blk ++ _)), (copy_into_app []);
        [|done|rewrite length_take, length_replicate; lia].
      rewrite app_nil_l, <-(app_nil_r (drop 56 blk)), copy_into_app;
        [by rewrite app_nil_r|by rewrite length_replicate|rewrite length_drop; simpl; lia].
Qed.

(** ** From the rounds of the code to the rounds of the standard *)

Lemma fold_compress (bs : list (list Z)) : ∀ d,
  words5 d → Forall (λ b, Forall is_byte b ∧ length b = 64%nat) bs →
  fold_left compress bs d = fold_left FIPS.process bs d.
Proof.
  induction bs as [|b bs IH]; intros d Hd Hb; [done|].
  apply Forall_cons in Hb as [[Hb1 Hb2] Hb]. cbn [fold_left].
  rewrite compress_process by done. apply IH; [apply process_words5|done].
Qed.

Lemma pad_bytes (m : list Z) : Forall is_byte m → Forall is_byte (FIPS.pad m).
Proof.
  intros H. unfold FIPS.pad. rewrite !Forall_app. split; [done|].
  split; [by repeat constructor|]. split; [|apply be_bytes_ok].
  apply Forall_replicate. done.
Qed.

Lemma H0_words5 : words5 FIPS.H0.
Proof. done. Qed.

Lemma final_sha1 (s : SHA1_INFO) (m : list Z) :
  ctx_inv s m → Forall is_byte m → 8 * Z.of_nat (length m) < 2 ^ 64 →
  fst (sha1_final s) = FIPS.sha1 m.
Proof.
  intros Hi Hb Hl. rewrite final_digest with (m := m) by done.
  rewrite fold_compress by first [exact H0_words5 | by apply (all_blocks_Forall 64 pos64), pad_bytes].
  unfold FIPS.sha1, digest_bytes. destruct (fold_left _ _ _) as [a b c d e].
  cbn [dg0 dg1 dg2 dg3 dg4]. rewrite !word_bytes_be. reflexivity.
Qed.

Lemma updates_inv (s : SHA1_INFO) (chunks : list (list Z)) : ∀ m,
  ctx_inv s m → Forall (λ b, Z.of_nat (length b) < 2 ^ 32) chunks →
  ctx_inv (fold_left sha1_update chunks s) (m ++ mjoin chunks).
Proof.
  revert s. induction chunks as [|b chunks IH]; intros s m Hi Hf; simpl.
  - by rewrite app_nil_r.
  - apply Forall_cons in Hf as [Hb Hf]. rewrite app_assoc. apply IH; [|done].
    by apply update_inv.
Qed.

(** ** Properties *)

(** C14: streaming SHA-1: from any context, [sha1_init], any sequence of
    [sha1_update] calls and [sha1_final] produce the FIPS 180 digest of the
    concatenated input, however it is cut into chunks; the only bounds are
    those of the code's types ([count] in 32 bits, the bit count in 64). *)
Theorem sha1_streaming (s : SHA1_INFO) (chunks : list (list Z)) :
  length (data s) = 64%nat →
  Forall (λ b, Forall is_byte b ∧ Z.of_nat (length b) < 2 ^ 31) chunks →
  8 * Z.of_nat (length (mjoin chunks)) < 2 ^ 64 →
  fst (sha1_final (fold_left sha1_update chunks (sha1_init s))) = FIPS.sha1 (mjoin chunks).
Proof.
  intros Hs Hc Hl. apply final_sha1; [|clear Hl|done].
  - rewrite <-(app_nil_l (mjoin chunks)). apply updates_inv; [by apply init_inv|].
    eapply Forall_impl; [exact Hc|]. simpl. intros b [_ Hb].
    etransitivity; [exact Hb|done].
  - induction Hc as [|b chunks [Hb _] _ IH]; simpl; [constructor|].
    apply Forall_app; auto.
Qed.

(** the UNRAVEL build, which renames the variables instead of moving them,
    compresses every block to the same digest as the loop of [FG] steps. *)
Theorem unravel_equivalent (d : digest5) (block : list Z) :
  compress_unravel d block = compress d block.
Proof.
  unfold compress_unravel, compress. rewrite unravel_program_eq.
  pose proof (run_unravel_FG rounds 0 (schedule block) (load_regs d) (load_regs d) eq_refl) as H.
  assert (length (zip rounds (schedule block)) = 80%nat) as Hz.
  { assert (length (schedule block) = 80%nat) as Hs.
    { unfold schedule. assert (∀ k l, length (fold_left expand_word (seq 16 k) l) = (length l + k)%nat) as ->; [|done].
      intros k. induction k as [|k IH]; intros l; [simpl; lia|].
      rewrite seq_S, fold_left_app. cbn [fold_left]. unfold expand_word at 1.
      rewrite length_app, IH. simpl. lia. }
    rewrite length_zip_with, Hs. done. }
  rewrite Hz in H. revert H.
  destruct (run_unravel _ _) as [T A B C D E]. destruct (run_FG _ _) as [T' A' B' C' D' E'].
  unfold rotated, vars. simpl. intros [= -> -> -> -> ->]. done.
Qed.

Lemma sha1_streaming_witness :
  fst (sha1_final (fold_left sha1_update [bytes "a"; []; bytes "bc"]
    (sha1_init (Info (Digest 1 2 3 4 5) 6 7 (replicate 64 9) 8)))) =
  [169; 153; 62; 54; 71; 6; 129; 106; 186; 62; 37; 113; 120; 80; 194; 108; 156; 208; 216; 157].
Proof.
  rewrite sha1_streaming.
  - vm_compute. reflexivity.
  - reflexivity.
  - repeat constructor; vm_compute; congruence.
  - vm_compute. reflexivity.
Defined.
