(* ===== verification/Hmac.v ===== *)
(** * HMAC-SHA1 and one-time codes

    [hmac_sha1] (google-authenticator/libpam/hmac.c; hotp/hmac.c is the same
    text) with its two passes over one [SHA1_INFO], and the truncations built on
    it: [compute_code] of pam_google_authenticator.c, [generateCode] of
    google-authenticator.c.  The specifications are RFC 2104 and RFC 4226. *)

From S2P Require Import Prelude Base32 Sha1.

(** ** The code *)

(** [tmp_key[i] = key[i] ^ c] for the key, [memset] with [c] for the rest. *)
Definition pad_key (key : list Z) (c : Z) : list Z :=
  ((λ b, u8 (Z.lxor b c)) <$> key) ++ replicate (64 - length key) c.

(** A key longer than a block is replaced by its digest. *)
Definition effective_key (ctx : SHA1_INFO) (key : list Z) : list Z * SHA1_INFO :=
  if 64 <? Z.of_nat (length key) then sha1_final (sha1_update (sha1_init ctx) key)
  else (key, ctx).

(** [ctx] is the uninitialised local; [resultLength] bytes are written. *)
Definition hmac_sha1 (ctx : SHA1_INFO) (key data : list Z) (resultLength : nat) : list Z :=
  let '(key, ctx) := effective_key ctx key in
  let ctx := sha1_init ctx in
  let ctx := sha1_update ctx (pad_key key 0x36) in
  let ctx := sha1_update ctx data in
  let '(sha, ctx) := sha1_final ctx in
  let ctx := sha1_init ctx in
  let ctx := sha1_update ctx (pad_key key 0x5C) in
  let ctx := sha1_update ctx sha in
  let '(sha, _) := sha1_final ctx in
  let n := Nat.min resultLength (Z.to_nat SHA1_DIGEST_LENGTH) in
  copy_into (replicate resultLength 0) 0 (take n sha).

(** [for (int i = 8; i--; value >>= 8) val[i] = value;] *)
Fixpoint challenge_bytes (n : nat) (value : Z) (val : list Z) : list Z :=
  match n with
  | O => val
  | S i => challenge_bytes i (Z.shiftr value 8) (u8 value :: val)
  end.

(** The four bytes at [offset], most significant first, in an [unsigned int]. *)
Definition truncated_hash (hash : list Z) (offset : nat) : Z :=
  fold_left (λ t i, Z.lor (u32 (Z.shiftl t 8)) (hash !!! (offset + i)%nat)) (seq 0 4) 0.

Definition compute_code (ctx : SHA1_INFO) (secret : list Z) (value : Z) : Z :=
  let hash := hmac_sha1 ctx secret (challenge_bytes 8 (u64 value) []) 20 in
  let offset := Z.to_nat (Z.land (hash !!! 19%nat) 0xF) in
  Z.land (truncated_hash hash offset) 0x7FFFFFFF mod 1000000.

(** [generateCode]: the secret is decoded from the text [key] into an array of
    100 bytes (with whatever it held, [secret0]); the result is -1 or a code. *)
Definition generateCode (ctx : SHA1_INFO) (secret0 key : list Z) (tm : Z) : option Z :=
  let secretLen := (Z.of_nat (length key) + 7) / 8 * 5 in
  if (secretLen <=? 0) || (100 <? secretLen) then Some (-1)
  else
    (* one block of memory: the array [secret], then the string [key] *)
    '(m, secretLen) ← base32_decode (secret0 ++ key ++ [0]) 100 0 secretLen;
    if secretLen <? 1 then Some (-1)
    else
      secret ← load_range m 0 (Z.to_nat secretLen);
      let hash := hmac_sha1 ctx secret (challenge_bytes 8 (u64 tm) []) 20 in
      let offset := Z.to_nat (Z.land (hash !!! 19%nat) 0xF) in
      Some (Z.land (truncated_hash hash offset) 0x7FFFFFFF mod 1000000).

(** ** Specification *)

Module RFC.

(** RFC 2104 with SHA-1: B = 64, keys longer than B are hashed first. *)
Definition K0 (key : list Z) : list Z :=
  let k := if decide (64 < length key)%nat then FIPS.sha1 key else key in
  k ++ replicate (64 - length k) 0.

Definition HMAC (key text : list Z) : list Z :=
  let ipad := (λ b, Z.lxor b 0x36) <$> K0 key in
  let opad := (λ b, Z.lxor b 0x5c) <$> K0 key in
  FIPS.sha1 (opad ++ FIPS.sha1 (ipad ++ text)).

(** RFC 4226: dynamic truncation to 31 bits, then six digits. *)
Definition DT (mac : list Z) : Z :=
  let o := Z.to_nat (mac !!! 19%nat mod 16) in
  (mac !!! o mod 128) * 2 ^ 24 + mac !!! (o + 1)%nat * 2 ^ 16 +
  mac !!! (o + 2)%nat * 2 ^ 8 + mac !!! (o + 3)%nat.

Definition HOTP (key : list Z) (counter : Z) : Z :=
  DT (HMAC key (FIPS.be_bytes 8 counter)) mod 10 ^ 6.

End RFC.

(** ** HMAC *)

Lemma final_data (s : SHA1_INFO) : length (data s) = 64%nat →
  length (data (snd (sha1_final s))) = 64%nat.
Proof.
  intros H. unfold sha1_final, sha1_transform_and_copy, SHA1_BLOCKSIZE.
  cbn [snd set_data sha1_transform data count_lo count_hi].
  set (c := Z.to_nat _).
  assert (c < 64)%nat as Hc.
  { unfold c. change 0x3f with (Z.ones 6). rewrite wrap_land_ones by lia.
    pose proof (wrap_range 6 (Z.shiftr (count_lo s) 3) ltac:(lia)). change (2 ^ 6) with 64 in *. lia. }
  destruct (Z.ltb_spec (64 - 8) (Z.of_nat (S c))); cbn [set_data sha1_transform data];
    repeat rewrite copy_into_length; rewrite ?length_replicate; simpl length; lia.
Qed.

Lemma sha1_length (m : list Z) : length (FIPS.sha1 m) = 20%nat.
Proof. unfold FIPS.sha1. by destruct (fold_left _ _ _). Qed.

Lemma sha1_bytes (m : list Z) : Forall is_byte (FIPS.sha1 m).
Proof.
  unfold FIPS.sha1. destruct (fold_left _ _ _) as [a b c d e].
  generalize [a; b; c; d; e]. intros l. induction l as [|x l IH]; [constructor|].
  rewrite bind_cons. apply Forall_app. split; [apply be_bytes_ok|done].
Qed.

(** One digest of two pieces through the context. *)
Lemma hash_two (s : SHA1_INFO) (a b : list Z) :
  length (data s) = 64%nat → Forall is_byte a → Forall is_byte b →
  Z.of_nat (length a) < 2 ^ 31 → Z.of_nat (length b) < 2 ^ 31 →
  let r := sha1_final (sha1_update (sha1_update (sha1_init s) a) b) in
  fst r = FIPS.sha1 (a ++ b) ∧ length (data (snd r)) = 64%nat.
Proof.
  intros Hs Ha Hb Hla Hlb r.
  assert (ctx_inv (sha1_update (sha1_update (sha1_init s) a) b) (a ++ b)) as Hi.
  { rewrite <-(app_nil_l a). apply update_inv; [|lia]. apply update_inv; [|lia].
    by apply init_inv. }
  split; [|apply final_data, Hi]. apply final_sha1; [done|by apply Forall_app|].
  rewrite length_app. lia.
Qed.

Lemma hash_one (s : SHA1_INFO) (a : list Z) :
  length (data s) = 64%nat → Forall is_byte a → Z.of_nat (length a) < 2 ^ 31 →
  let r := sha1_final (sha1_update (sha1_init s) a) in
  fst r = FIPS.sha1 a ∧ length (data (snd r)) = 64%nat.
Proof.
  intros Hs Ha Hla r.
  assert (ctx_inv (sha1_update (sha1_init s) a) a) as Hi.
  { rewrite <-(app_nil_l a) at 2. apply update_inv; [|lia]. by apply init_inv. }
  split; [|apply final_data, Hi]. apply final_sha1; [done..|lia].
Qed.

Lemma pad_key_spec (key : list Z) (c : Z) :
  Forall is_byte key → is_byte c →
  pad_key key c = (λ b, Z.lxor b c) <$> (key ++ replicate (64 - length key) 0).
Proof.
  intros Hk Hc. unfold pad_key. rewrite fmap_app, fmap_replicate, Z.lxor_0_l. f_equal.
  apply list_fmap_ext. intros i b Hb. unfold u8. apply wrap_small.
  apply (lxor_byte b c); [|done]. eapply Forall_lookup_1; done.
Qed.

Lemma pad_key_ok (key : list Z) (c : Z) :
  (length key ≤ 64)%nat → is_byte c →
  Forall is_byte (pad_key key c) ∧ length (pad_key key c) = 64%nat.
Proof.
  intros Hk Hc. unfold pad_key. split.
  - apply Forall_app. split; [|by apply Forall_replicate].
    apply Forall_fmap, Forall_true. intros b. apply is_byte_wrap.
  - rewrite length_app, length_fmap, length_replicate. lia.
Qed.

(** The inner and the outer pass, for a key of at most one block. *)
Lemma hmac_passes (ctx : SHA1_INFO) (key text : list Z) :
  length (data ctx) = 64%nat → (length key ≤ 64)%nat → Forall is_byte key →
  Forall is_byte text → Z.of_nat (length text) < 2 ^ 31 →
  (let ctx := sha1_update (sha1_update (sha1_init ctx) (pad_key key 0x36)) text in
   let '(sha, ctx) := sha1_final ctx in
   let ctx := sha1_update (sha1_update (sha1_init ctx) (pad_key key 0x5C)) sha in
   fst (sha1_final ctx)) =
  FIPS.sha1 (pad_key key 0x5C ++ FIPS.sha1 (pad_key key 0x36 ++ text)).
Proof.
  intros Hctx Hk Hkb Htb Ht.
  destruct (pad_key_ok key 0x36 Hk ltac:(done)) as [Hi1 Hi2].
  destruct (pad_key_ok key 0x5C Hk ltac:(done)) as [Ho1 Ho2].
  destruct (hash_two ctx (pad_key key 0x36) text) as [H1 H2]; try done; [lia|].
  cbv zeta. destruct (sha1_final _) as [sha ctx2]. simpl in H1, H2. subst sha.
  apply hash_two; try done; [apply sha1_bytes|lia|rewrite sha1_length; lia].
Qed.

Lemma pad_key_K0 (key : list Z) (c : Z) :
  (length key ≤ 64)%nat → Forall is_byte key → is_byte c →
  pad_key key c = (λ b, Z.lxor b c) <$> RFC.K0 key.
Proof.
  intros Hl Hk Hc. unfold RFC.K0. rewrite decide_False by lia. by apply pad_key_spec.
Qed.

Lemma effective_key_spec (ctx : SHA1_INFO) (key : list Z) :
  length (data ctx) = 64%nat → Forall is_byte key → Z.of_nat (length key) < 2 ^ 31 →
  ∃ key' ctx', effective_key ctx key = (key', ctx') ∧ length (data ctx') = 64%nat ∧
    (length key' ≤ 64)%nat ∧ Forall is_byte key' ∧ RFC.K0 key' = RFC.K0 key.
Proof.
  intros Hctx Hk Hl. unfold effective_key.
  destruct (Z.ltb_spec 64 (Z.of_nat (length key))) as [H|H].
  - destruct (hash_one ctx key Hctx Hk Hl) as [H1 H2].
    destruct (sha1_final _) as [sha ctx2]. simpl in *. subst sha.
    exists (FIPS.sha1 key), ctx2. rewrite sha1_length.
    split_and!; [done|done|rewrite ?sha1_length; lia|apply sha1_bytes|].
    unfold RFC.K0. rewrite (decide_True _ _ (P := (64 < length key)%nat)) by lia.
    by rewrite decide_False by (rewrite sha1_length; lia).
  - exists key, ctx. split_and!; (done || lia).
Qed.

(** [hmac_sha1] without the cut of the result. *)
Lemma hmac_sha1_spec (ctx : SHA1_INFO) (key text : list Z) (n : nat) :
  length (data ctx) = 64%nat → Forall is_byte key → Forall is_byte text →
  Z.of_nat (length key) < 2 ^ 31 → Z.of_nat (length text) < 2 ^ 31 →
  hmac_sha1 ctx key text n = take n (RFC.HMAC key text) ++ replicate (n - 20) 0.
Proof.
  intros Hctx Hk Ht Hkl Htl. unfold hmac_sha1.
  destruct (effective_key_spec ctx key Hctx Hk Hkl) as (key' & ctx' & -> & Hctx' & Hl' & Hk' & HK).
  pose proof (hmac_passes ctx' key' text Hctx' Hl' Hk' Ht Htl) as H. cbv zeta in H.
  destruct (sha1_final (sha1_update (sha1_update (sha1_init ctx') _) _)) as [sha ctx2].
  destruct (sha1_final (sha1_update (sha1_update (sha1_init ctx2) _) _)) as [sha2 ctx3].
  simpl in H. subst sha2.
  rewrite !pad_key_K0, HK by done. fold (RFC.HMAC key text).
  assert (length (RFC.HMAC key text) = 20%nat) as HL by apply sha1_length.
  change (Z.to_nat SHA1_DIGEST_LENGTH) with 20%nat. unfold copy_into.
  rewrite take_0, app_nil_l, Nat.add_0_l, length_take, HL, drop_replicate. f_equal.
  - destruct (decide (n ≤ 20)%nat); [by rewrite Nat.min_l by lia|].
    by rewrite Nat.min_r, !take_ge by lia.
  - f_equal. lia.
Qed.

(** ** Truncation *)

Lemma be_bytes_snoc (n : nat) : ∀ x, FIPS.be_bytes (S n) x = FIPS.be_bytes n (x / 2 ^ 8) ++ [wrap 8 x].
Proof.
  induction n as [|n IH]; intros x.
  - cbn [FIPS.be_bytes]. change (2 ^ (8 * Z.of_nat 0)) with 1. by rewrite Z.div_1_r.
  - cbn [FIPS.be_bytes] in *. rewrite <-app_comm_cons, <-IH. f_equal.
    rewrite Z.div_div, <-Z.pow_add_r by (try apply pow2_pos; lia). do 3 f_equal. lia.
Qed.

Lemma challenge_bytes_be (n : nat) : ∀ value val,
  challenge_bytes n value val = FIPS.be_bytes n value ++ val.
Proof.
  induction n as [|n IH]; intros value val; [done|].
  cbn [challenge_bytes]. rewrite IH, be_bytes_snoc, Z.shiftr_div_pow2 by lia.
  by rewrite <-app_assoc.
Qed.

Lemma lor_shift8 (t b : Z) : is_byte b → Z.lor (Z.shiftl t 8) b = t * 256 + b.
Proof.
  intros Hb. rewrite Z.lor_comm. change 256 with (2 ^ 8). rewrite <-Z.shiftl_mul_pow2 by lia.
  pose proof (Z.add_lor_land b (Z.shiftl t 8)) as H.
  assert (Z.land b (Z.shiftl t 8) = 0) as E; [|lia].
  apply Z.bits_inj'. intros i Hi. rewrite Z.land_spec, Z.bits_0.
  destruct (decide (i < 8)); [by rewrite Z.shiftl_spec_low, andb_false_r by lia|].
  by rewrite (testbit_high 8 b) by (done || lia).
Qed.

Lemma push8 (t b : Z) :
  0 ≤ t < 16777216 → is_byte b → Z.lor (u32 (Z.shiftl t 8)) b = t * 256 + b.
Proof.
  intros Ht Hb. unfold u32. rewrite wrap_small, lor_shift8; [done|done|].
  rewrite Z.shiftl_mul_pow2 by lia. lia.
Qed.

Lemma truncated_hash_value (hash : list Z) (o : nat) :
  Forall is_byte hash → (o + 4 ≤ length hash)%nat →
  truncated_hash hash o = hash !!! o * 2 ^ 24 + hash !!! (o + 1)%nat * 2 ^ 16 +
    hash !!! (o + 2)%nat * 2 ^ 8 + hash !!! (o + 3)%nat.
Proof.
  intros Hb Hl.
  assert (∀ k, (k < 4)%nat → is_byte (hash !!! (o + k)%nat)) as Hk.
  { intros k ?. destruct (lookup_lt_is_Some_2 hash (o + k)) as [x Hx]; [lia|].
    rewrite (list_lookup_total_correct _ _ _ Hx). by eapply Forall_lookup_1. }
  pose proof (Hk 0%nat ltac:(lia)) as H0. pose proof (Hk 1%nat ltac:(lia)) as H1.
  pose proof (Hk 2%nat ltac:(lia)) as H2. pose proof (Hk 3%nat ltac:(lia)) as H3.
  unfold truncated_hash. cbn [seq fold_left]. rewrite !Nat.add_0_r in *.
  change (2 ^ 24) with 16777216. change (2 ^ 16) with 65536. change (2 ^ 8) with 256.
  rewrite (push8 0), (push8 (0 * 256 + _)) by (unfold is_byte in *; done || lia).
  rewrite (push8 ((0 * 256 + _) * 256 + _)), push8 by (unfold is_byte in *; done || lia).
  lia.
Qed.

Lemma truncate_DT (hash : list Z) :
  Forall is_byte hash → length hash = 20%nat →
  Z.land (truncated_hash hash (Z.to_nat (Z.land (hash !!! 19%nat) 0xF))) 0x7FFFFFFF = RFC.DT hash.
Proof.
  intros Hb Hl. change 0xF with (Z.ones 4). change 0x7FFFFFFF with (Z.ones 31).
  rewrite !Z.land_ones by lia. change (2 ^ 4) with 16. unfold RFC.DT.
  pose proof (Z.mod_pos_bound (hash !!! 19%nat) 16 ltac:(lia)) as Ho.
  set (o := Z.to_nat _). assert (o + 4 ≤ length hash)%nat by lia.
  rewrite truncated_hash_value by done.
  assert (∀ k, (k < 4)%nat → is_byte (hash !!! (o + k)%nat)) as Hk.
  { intros k ?. destruct (lookup_lt_is_Some_2 hash (o + k)) as [x Hx]; [lia|].
    rewrite (list_lookup_total_correct _ _ _ Hx). by eapply Forall_lookup_1. }
  pose proof (Hk 0%nat ltac:(lia)) as H0. pose proof (Hk 1%nat ltac:(lia)) as H1.
  pose proof (Hk 2%nat ltac:(lia)) as H2. pose proof (Hk 3%nat ltac:(lia)) as H3.
  rewrite !Nat.add_0_r in *. unfold is_byte in *.
  change (2 ^ 31) with 2147483648. change (2 ^ 24) with 16777216.
  change (2 ^ 16) with 65536. change (2 ^ 8) with 256.
  Z.to_euclidean_division_equations; lia.
Qed.

Lemma code_of_hash (ctx : SHA1_INFO) (secret : list Z) (value : Z) :
  length (data ctx) = 64%nat → Forall is_byte secret → Z.of_nat (length secret) < 2 ^ 31 →
  let hash := hmac_sha1 ctx secret (challenge_bytes 8 value []) 20 in
  Z.land (truncated_hash hash (Z.to_nat (Z.land (hash !!! 19%nat) 0xF))) 0x7FFFFFFF mod 1000000 =
  RFC.HOTP secret value.
Proof.
  intros Hctx Hs Hl hash. unfold RFC.HOTP, hash.
  rewrite challenge_bytes_be, app_nil_r.
  rewrite hmac_sha1_spec by (done || apply be_bytes_ok).
  rewrite app_nil_r, take_ge by (unfold RFC.HMAC; rewrite sha1_length; lia).
  rewrite truncate_DT; [done|apply sha1_bytes|apply sha1_length].
Qed.

(** ** Properties *)

(** C18: [hmac_sha1] computes RFC 2104 HMAC with SHA-1 for keys of any length,
    cut to [resultLength] bytes or filled with zeros after the 20 bytes of the
    digest. *)
Theorem hmac_sha1_rfc2104 (ctx : SHA1_INFO) (key text : list Z) (resultLength : nat) :
  length (data ctx) = 64%nat → Forall is_byte key → Forall is_byte text →
  Z.of_nat (length key) < 2 ^ 31 → Z.of_nat (length text) < 2 ^ 31 →
  hmac_sha1 ctx key text resultLength =
    take resultLength (RFC.HMAC key text) ++ replicate (resultLength - 20) 0.
Proof. apply hmac_sha1_spec. Qed.

(** C7: [compute_code] is RFC 4226 HOTP with six digits of the 64-bit value, a
    number from 0 to 999999; a negative [tm + skew + i] is taken modulo 2^64. *)
Theorem compute_code_rfc4226 (ctx : SHA1_INFO) (secret : list Z) (value : Z) :
  length (data ctx) = 64%nat → Forall is_byte secret → Z.of_nat (length secret) < 2 ^ 31 →
  compute_code ctx secret value = RFC.HOTP secret (u64 value) ∧
  0 ≤ compute_code ctx secret value < 1000000.
Proof.
  intros Hctx Hs Hl. unfold compute_code. split.
  - by apply code_of_hash.
  - apply Z.mod_pos_bound. lia.
Qed.

(** the enrolment tool and the login module agree: for a key text of at
    least one byte of secret and at most 160 characters, [generateCode]
    returns what [compute_code] computes from the decoded secret; texts that
    are longer, empty or not base32 give -1. *)
Theorem generateCode_agrees (ctx : SHA1_INFO) (secret0 key : list Z) (tm : Z) :
  length secret0 = 100%nat → Forall (λ c, c ≠ 0) key →
  generateCode ctx secret0 key tm =
    Some (match Spec.decode key with
          | Some secret =>
              if decide (secret ≠ [] ∧ (length key ≤ 160)%nat)
              then compute_code ctx secret tm else -1
          | None => -1
          end).
Proof.
  intros Hs Hk. unfold generateCode.
  set (n := (Z.of_nat (length key) + 7) / 8 * 5).
  assert (5 * Z.of_nat (length key) ≤ 8 * n) as Hn
    by (unfold n; Z.to_euclidean_division_equations; lia).
  destruct ((n <=? 0) || (100 <? n)) eqn:Hb.
  { assert (length key = 0 ∨ 160 < length key)%nat as [H|H]
      by (unfold n in Hb; Z.to_euclidean_division_equations; lia).
    - by destruct key.
    - destruct (Spec.decode key); [|done]. rewrite decide_False; [done|lia]. }
  assert (1 ≤ length key ≤ 160)%nat as Hlen
    by (unfold n in Hb; Z.to_euclidean_division_equations; lia).
  assert (cstr_at (secret0 ++ key ++ [0]) 100 key) as Hstr.
  { split; [done|]. unfold load_range. rewrite decide_True
      by (rewrite !length_app; simpl; lia).
    rewrite <-Hs, drop_app_length, take_ge; [done|rewrite length_app; simpl; lia]. }
  pose proof (base32_decode_key (secret0 ++ key ++ [0]) 100 0 n key Hstr Hn
    ltac:(rewrite !length_app; lia) ltac:(lia)) as H.
  destruct (Spec.decode key) as [secret|] eqn:E.
  - destruct H as (m' & Hrun & Hst). rewrite Hrun. cbn [mbind option_bind].
    destruct secret as [|b secret']; [done|]. set (secret := b :: secret') in *.
    rewrite (proj2 (Z.ltb_ge _ _)) by (unfold secret; simpl; lia).
    rewrite Nat2Z.id, Hst. cbn [mbind option_bind].
    rewrite decide_True by (split; [done|lia]). reflexivity.
  - destruct H as (m' & Hrun). by rewrite Hrun.
Qed.

(** *** The properties at work *)

Definition ctx0 : SHA1_INFO := Info (Digest 1 2 3 4 5) 6 7 (replicate 64 9) 12.

Lemma hmac_sha1_rfc2104_witness :
  RFC.HMAC (bytes "Jefe") (bytes "what do ya want for nothing?") =
  [0xef; 0xfc; 0xdf; 0x6a; 0xe5; 0xeb; 0x2f; 0xa2; 0xd2; 0x74;
   0x16; 0xd5; 0xf1; 0x84; 0xdf; 0x9c; 0x25; 0x9a; 0x7c; 0x79] ∧
  hmac_sha1 ctx0 (bytes "Jefe") (bytes "what do ya want for nothing?") 4 =
  [0xef; 0xfc; 0xdf; 0x6a].
Proof.
  split; [by vm_compute|]. rewrite hmac_sha1_rfc2104.
  - vm_compute. reflexivity.
  - reflexivity.
  - vm_compute. repeat constructor; discriminate.
  - vm_compute. repeat constructor; discriminate.
  - vm_compute. reflexivity.
  - vm_compute. reflexivity.
Defined.

Lemma compute_code_rfc4226_witness :
  compute_code ctx0 (bytes "12345678901234567890") 1 = 287082.
Proof.
  destruct (compute_code_rfc4226 ctx0 (bytes "12345678901234567890") 1) as [-> _].
  - reflexivity.
  - vm_compute. repeat constructor; discriminate.
  - vm_compute. reflexivity.
  - vm_compute. reflexivity.
Defined.

Lemma generateCode_agrees_witness :
  generateCode ctx0 (replicate 100 3) (bytes "GEZD GNBV GY3T QOJQ GEZD GNBV GY3T QOJQ") 1 =
  Some 287082.
Proof.
  rewrite generateCode_agrees.
  - vm_compute. reflexivity.
  - reflexivity.
  - vm_compute. repeat constructor; discriminate.
Defined.
