(* ===== verification/Sha2.v ===== *)
(** * SHA-2 (hmac/hmac/sha2.c, sha2.h)

    SHA-224, SHA-256, SHA-384 and SHA-512 as the C code runs them: the streaming
    context with its block of memory, the compression loop in its two builds (the
    plain loop and UNROLL_LOOPS), [init], [update] and [final].  The code has
    one text per word size and per digest; here the text is written once over a
    record of what differs, and each C function is an instance.  Reading or
    writing outside a buffer has no result ([None]).

    The specification is FIPS 180 with its constants computed from the primes.
    The theorems say that any sequence of updates and a final produce the digest
    of the concatenated input, for the four digests, and that the two builds
    agree; the message has to be shorter than 2^29 bytes, the bound that the
    32-bit [len_b] of the code puts on it. *)

From S2P Require Import Prelude Blocks.

(** ** Words *)

(** [ROTR(x, n)] and [SHFR] on words of [w] bits. *)
Definition ROTR (w x n : Z) : Z := Z.lor (Z.shiftr x n) (wrap w (Z.shiftl x (w - n))).
Definition SHFR (x n : Z) : Z := Z.shiftr x n.
Definition CH (w x y z : Z) : Z := Z.lxor (Z.land x y) (Z.land (wrap w (Z.lnot x)) z).
Definition MAJ (x y z : Z) : Z := Z.lxor (Z.lxor (Z.land x y) (Z.land x z)) (Z.land y z).

Definition SHA256_F1 (x : Z) : Z := Z.lxor (Z.lxor (ROTR 32 x 2) (ROTR 32 x 13)) (ROTR 32 x 22).
Definition SHA256_F2 (x : Z) : Z := Z.lxor (Z.lxor (ROTR 32 x 6) (ROTR 32 x 11)) (ROTR 32 x 25).
Definition SHA256_F3 (x : Z) : Z := Z.lxor (Z.lxor (ROTR 32 x 7) (ROTR 32 x 18)) (SHFR x 3).
Definition SHA256_F4 (x : Z) : Z := Z.lxor (Z.lxor (ROTR 32 x 17) (ROTR 32 x 19)) (SHFR x 10).

Definition SHA512_F1 (x : Z) : Z := Z.lxor (Z.lxor (ROTR 64 x 28) (ROTR 64 x 34)) (ROTR 64 x 39).
Definition SHA512_F2 (x : Z) : Z := Z.lxor (Z.lxor (ROTR 64 x 14) (ROTR 64 x 18)) (ROTR 64 x 41).
Definition SHA512_F3 (x : Z) : Z := Z.lxor (Z.lxor (ROTR 64 x 1) (ROTR 64 x 8)) (SHFR x 7).
Definition SHA512_F4 (x : Z) : Z := Z.lxor (Z.lxor (ROTR 64 x 19) (ROTR 64 x 61)) (SHFR x 6).

(** [UNPACK32(x, str)]: the bytes stored at [str].  [PACK32(str, x)]: the word
    read from the bytes at [str]. *)
Definition UNPACK32 (x : Z) : list Z :=
  [u8 (Z.shiftr x 24); u8 (Z.shiftr x 16); u8 (Z.shiftr x 8); u8 x].

Definition PACK32 (str : list Z) : Z :=
  Z.lor (Z.lor (Z.lor (str !!! 3%nat) (u32 (Z.shiftl (str !!! 2%nat) 8)))
    (u32 (Z.shiftl (str !!! 1%nat) 16))) (u32 (Z.shiftl (str !!! 0%nat) 24)).

Definition UNPACK64 (x : Z) : list Z :=
  [u8 (Z.shiftr x 56); u8 (Z.shiftr x 48); u8 (Z.shiftr x 40); u8 (Z.shiftr x 32);
   u8 (Z.shiftr x 24); u8 (Z.shiftr x 16); u8 (Z.shiftr x 8); u8 x].

Definition PACK64 (str : list Z) : Z :=
  Z.lor (Z.lor (Z.lor (Z.lor (Z.lor (Z.lor (Z.lor (str !!! 7%nat)
    (u64 (Z.shiftl (str !!! 6%nat) 8))) (u64 (Z.shiftl (str !!! 5%nat) 16)))
    (u64 (Z.shiftl (str !!! 4%nat) 24))) (u64 (Z.shiftl (str !!! 3%nat) 32)))
    (u64 (Z.shiftl (str !!! 2%nat) 40))) (u64 (Z.shiftl (str !!! 1%nat) 48)))
    (u64 (Z.shiftl (str !!! 0%nat) 56)).

(** ** Constants *)

Definition sha224_h0 : list Z :=
  ([0xc1059ed8; 0x367cd507; 0x3070dd17; 0xf70e5939] ++
   [0xffc00b31; 0x68581511; 0x64f98fa7; 0xbefa4fa4]).

Definition sha256_h0 : list Z :=
  ([0x6a09e667; 0xbb67ae85; 0x3c6ef372; 0xa54ff53a] ++
   [0x510e527f; 0x9b05688c; 0x1f83d9ab; 0x5be0cd19]).

Definition sha384_h0 : list Z :=
  ([0xcbbb9d5dc1059ed8; 0x629a292a367cd507] ++
   [0x9159015a3070dd17; 0x152fecd8f70e5939] ++
   [0x67332667ffc00b31; 0x8eb44a8768581511] ++
   [0xdb0c2e0d64f98fa7; 0x47b5481dbefa4fa4]).

Definition sha512_h0 : list Z :=
  ([0x6a09e667f3bcc908; 0xbb67ae8584caa73b] ++
   [0x3c6ef372fe94f82b; 0xa54ff53a5f1d36f1] ++
   [0x510e527fade682d1; 0x9b05688c2b3e6c1f] ++
   [0x1f83d9abfb41bd6b; 0x5be0cd19137e2179]).

Definition sha256_k : list Z :=
  ([0x428a2f98; 0x71374491; 0xb5c0fbcf; 0xe9b5dba5] ++
   [0x3956c25b; 0x59f111f1; 0x923f82a4; 0xab1c5ed5] ++
   [0xd807aa98; 0x12835b01; 0x243185be; 0x550c7dc3] ++
   [0x72be5d74; 0x80deb1fe; 0x9bdc06a7; 0xc19bf174] ++
   [0xe49b69c1; 0xefbe4786; 0x0fc19dc6; 0x240ca1cc] ++
   [0x2de92c6f; 0x4a7484aa; 0x5cb0a9dc; 0x76f988da] ++
   [0x983e5152; 0xa831c66d; 0xb00327c8; 0xbf597fc7] ++
   [0xc6e00bf3; 0xd5a79147; 0x06ca6351; 0x14292967] ++
   [0x27b70a85; 0x2e1b2138; 0x4d2c6dfc; 0x53380d13] ++
   [0x650a7354; 0x766a0abb; 0x81c2c92e; 0x92722c85] ++
   [0xa2bfe8a1; 0xa81a664b; 0xc24b8b70; 0xc76c51a3] ++
   [0xd192e819; 0xd6990624; 0xf40e3585; 0x106aa070] ++
   [0x19a4c116; 0x1e376c08; 0x2748774c; 0x34b0bcb5] ++
   [0x391c0cb3; 0x4ed8aa4a; 0x5b9cca4f; 0x682e6ff3] ++
   [0x748f82ee; 0x78a5636f; 0x84c87814; 0x8cc70208] ++
   [0x90befffa; 0xa4506ceb; 0xbef9a3f7; 0xc67178f2]).

Definition sha512_k : list Z :=
  ([0x428a2f98d728ae22; 0x7137449123ef65cd] ++
   [0xb5c0fbcfec4d3b2f; 0xe9b5dba58189dbbc] ++
   [0x3956c25bf348b538; 0x59f111f1b605d019] ++
   [0x923f82a4af194f9b; 0xab1c5ed5da6d8118] ++
   [0xd807aa98a3030242; 0x12835b0145706fbe] ++
   [0x243185be4ee4b28c; 0x550c7dc3d5ffb4e2] ++
   [0x72be5d74f27b896f; 0x80deb1fe3b1696b1] ++
   [0x9bdc06a725c71235; 0xc19bf174cf692694] ++
   [0xe49b69c19ef14ad2; 0xefbe4786384f25e3] ++
   [0x0fc19dc68b8cd5b5; 0x240ca1cc77ac9c65] ++
   [0x2de92c6f592b0275; 0x4a7484aa6ea6e483] ++
   [0x5cb0a9dcbd41fbd4; 0x76f988da831153b5] ++
   [0x983e5152ee66dfab; 0xa831c66d2db43210] ++
   [0xb00327c898fb213f; 0xbf597fc7beef0ee4] ++
   [0xc6e00bf33da88fc2; 0xd5a79147930aa725] ++
   [0x06ca6351e003826f; 0x142929670a0e6e70] ++
   [0x27b70a8546d22ffc; 0x2e1b21385c26c926] ++
   [0x4d2c6dfc5ac42aed; 0x53380d139d95b3df] ++
   [0x650a73548baf63de; 0x766a0abb3c77b2a8] ++
   [0x81c2c92e47edaee6; 0x92722c851482353b] ++
   [0xa2bfe8a14cf10364; 0xa81a664bbc423001] ++
   [0xc24b8b70d0f89791; 0xc76c51a30654be30] ++
   [0xd192e819d6ef5218; 0xd69906245565a910] ++
   [0xf40e35855771202a; 0x106aa07032bbd1b8] ++
   [0x19a4c116b8d2d0c8; 0x1e376c085141ab53] ++
   [0x2748774cdf8eeb99; 0x34b0bcb5e19b48a8] ++
   [0x391c0cb3c5c95a63; 0x4ed8aa4ae3418acb] ++
   [0x5b9cca4f7763e373; 0x682e6ff3d6b2b8a3] ++
   [0x748f82ee5defb2fc; 0x78a5636f43172f60] ++
   [0x84c87814a1f0ab72; 0x8cc702081a6439ec] ++
   [0x90befffa23631e28; 0xa4506cebde82bde9] ++
   [0xbef9a3f7b2c67915; 0xc67178f2e372532b] ++
   [0xca273eceea26619c; 0xd186b8c721c0c207] ++
   [0xeada7dd6cde0eb1e; 0xf57d4f7fee6ed178] ++
   [0x06f067aa72176fba; 0x0a637dc5a2c898a6] ++
   [0x113f9804bef90dae; 0x1b710b35131c471b] ++
   [0x28db77f523047d84; 0x32caab7b40c72493] ++
   [0x3c9ebe0a15c9bebc; 0x431d67c49c100d4c] ++
   [0x4cc5d4becb3e42b6; 0x597f299cfc657e2a] ++
   [0x5fcb6fab3ad6faec; 0x6c44198c4a475817]).

(** ** The compression function *)

(** What the SHA-256 and the SHA-512 text differ in: the word size, [PACK] and
    [UNPACK], the shift from a block number to its offset, the block size, the
    bytes that must be free in the last block, the number of rounds, the
    functions and the constants. *)
Record core := Core {
  w_bits : Z;
  w_bytes : nat;
  PACK : list Z → Z;
  UNPACK : Z → list Z;
  blk_shift : Z;
  BLOCK_SIZE : Z;
  tail_min : Z;
  n_rounds : nat;
  F1 : Z → Z; F2 : Z → Z; F3 : Z → Z; F4 : Z → Z;
  k_table : list Z;
}.

Definition SHA256_BLOCK_SIZE : Z := 512 / 8.
Definition SHA512_BLOCK_SIZE : Z := 1024 / 8.

Definition core256 : core :=
  Core 32 4 PACK32 UNPACK32 6 SHA256_BLOCK_SIZE 9 64
       SHA256_F1 SHA256_F2 SHA256_F3 SHA256_F4 sha256_k.
Definition core512 : core :=
  Core 64 8 PACK64 UNPACK64 7 SHA512_BLOCK_SIZE 17 80
       SHA512_F1 SHA512_F2 SHA512_F3 SHA512_F4 sha512_k.

(** [sha256_ctx] and [sha512_ctx]. *)
Record sha_ctx := Ctx { tot_len : Z; len : Z; block : list Z; h : list Z }.

Section transf.
Context (c : core).

Definition word (x : Z) : Z := wrap (w_bits c) x.

(** The loop over [j < 16]: the words of the block. *)
Definition pack_words (sub_block : list Z) : list Z :=
  (λ j, PACK c (take (w_bytes c) (drop (w_bytes c * j) sub_block))) <$> seq 0 16.

(** [SHA256_SCR(j)], [SHA512_SCR(j)]; [w] holds the words computed so far. *)
Definition SCR (w : list Z) (j : nat) : list Z :=
  w ++ [word (F4 c (w !!! (j - 2)%nat) + w !!! (j - 7)%nat
              + F3 c (w !!! (j - 15)%nat) + w !!! (j - 16)%nat)].

Definition schedule (sub_block : list Z) : list Z :=
  fold_left SCR (seq 16 (n_rounds c - 16)) (pack_words sub_block).

Definition temp1 (e f g hh kj wj : Z) : Z := word (hh + F2 c e + CH (w_bits c) e f g + kj + wj).
Definition temp2 (a b cc : Z) : Z := word (F1 c a + MAJ a b cc).

(** The body of the loop over the rounds, on the array [wv]. *)
Definition round_step (wv : list Z) (kj wj : Z) : list Z :=
  let t1 := temp1 (wv !!! 4%nat) (wv !!! 5%nat) (wv !!! 6%nat) (wv !!! 7%nat) kj wj in
  let t2 := temp2 (wv !!! 0%nat) (wv !!! 1%nat) (wv !!! 2%nat) in
  let wv := <[7%nat := wv !!! 6%nat]> wv in
  let wv := <[6%nat := wv !!! 5%nat]> wv in
  let wv := <[5%nat := wv !!! 4%nat]> wv in
  let wv := <[4%nat := word (wv !!! 3%nat + t1)]> wv in
  let wv := <[3%nat := wv !!! 2%nat]> wv in
  let wv := <[2%nat := wv !!! 1%nat]> wv in
  let wv := <[1%nat := wv !!! 0%nat]> wv in
  <[0%nat := word (t1 + t2)]> wv.

Definition rounds (w wv : list Z) : list Z :=
  fold_left (λ wv j, round_step wv (k_table c !!! j) (w !!! j)) (seq 0 (n_rounds c)) wv.

(** [ctx->h[j] += wv[j]]. *)
Definition add_words (hs wv : list Z) : list Z := zip_with (λ x y, word (x + y)) hs wv.

Definition compress (hs sub_block : list Z) : list Z :=
  add_words hs (rounds (schedule sub_block) hs).

(** [SHA256_EXP(a, ..., h, j)]: the same round on the array without moving it;
    the indices rotate instead. *)
Definition EXP (wv : list Z) (a b cc d e f g hh : nat) (kj wj : Z) : list Z :=
  let t1 := temp1 (wv !!! e) (wv !!! f) (wv !!! g) (wv !!! hh) kj wj in
  let t2 := temp2 (wv !!! a) (wv !!! b) (wv !!! cc) in
  let wv := <[d := word (wv !!! d + t1)]> wv in
  <[hh := word (t1 + t2)]> wv.

(** The eight calls that are repeated over the rounds. *)
Definition EXP8 (w : list Z) (wv : list Z) (j : nat) : list Z :=
  let call wv '(a, b, cc, d, e, f, g, hh) i :=
    EXP wv a b cc d e f g hh (k_table c !!! (j + i)%nat) (w !!! (j + i)%nat) in
  let wv := call wv (0, 1, 2, 3, 4, 5, 6, 7)%nat 0%nat in
  let wv := call wv (7, 0, 1, 2, 3, 4, 5, 6)%nat 1%nat in
  let wv := call wv (6, 7, 0, 1, 2, 3, 4, 5)%nat 2%nat in
  let wv := call wv (5, 6, 7, 0, 1, 2, 3, 4)%nat 3%nat in
  let wv := call wv (4, 5, 6, 7, 0, 1, 2, 3)%nat 4%nat in
  let wv := call wv (3, 4, 5, 6, 7, 0, 1, 2)%nat 5%nat in
  let wv := call wv (2, 3, 4, 5, 6, 7, 0, 1)%nat 6%nat in
  call wv (1, 2, 3, 4, 5, 6, 7, 0)%nat 7%nat.

Definition rounds_unrolled (w wv : list Z) : list Z :=
  fold_left (EXP8 w) ((λ n, 8 * n)%nat <$> seq 0 (n_rounds c / 8)) wv.

Definition compress_unrolled (hs sub_block : list Z) : list Z :=
  add_words hs (rounds_unrolled (schedule sub_block) hs).

(** [sub_block = message + (i << 6)] with its 64 bytes; [i << 6] is an [int]. *)
Definition sub_block (message : list Z) (i : Z) : option (list Z) :=
  let off := s32 (Z.shiftl i (blk_shift c)) in
  if off <? 0 then None else load_range message (Z.to_nat off) (Z.to_nat (BLOCK_SIZE c)).

(** [for (i = 0; i < (int) block_nb; i++)], with [n] turns left; [f] is the
    compression function of the build. *)
Fixpoint transf_loop (f : list Z → list Z → list Z) (n : nat) (i : Z)
    (message hs : list Z) : option (list Z) :=
  match n with
  | O => Some hs
  | S n => b ← sub_block message i; transf_loop f n (i + 1) message (f hs b)
  end.

Definition transf (f : list Z → list Z → list Z) (hs message : list Z) (block_nb : Z)
    : option (list Z) :=
  transf_loop f (Z.to_nat (s32 block_nb)) 0 message hs.

End transf.

Definition sha256_transf (hs message : list Z) (block_nb : Z) : option (list Z) :=
  transf core256 (compress core256) hs message block_nb.
Definition sha512_transf (hs message : list Z) (block_nb : Z) : option (list Z) :=
  transf core512 (compress core512) hs message block_nb.
Definition sha256_transf_unrolled (hs message : list Z) (block_nb : Z) : option (list Z) :=
  transf core256 (compress_unrolled core256) hs message block_nb.
Definition sha512_transf_unrolled (hs message : list Z) (block_nb : Z) : option (list Z) :=
  transf core512 (compress_unrolled core512) hs message block_nb.

(** ** The streaming operations *)

(** A digest: its core, its initial words, the number of words it returns. *)
Record variant := Variant { v_core : core; v_h0 : list Z; v_words : nat }.

Section stream.
Context (v : variant).
Let c : core := v_core v.

(** [block] is left as it was. *)
Definition init (x : sha_ctx) : sha_ctx := Ctx 0 0 (block x) (v_h0 v).

(** A [message, len] argument pair of the code is the list of its bytes. *)
Definition update (x : sha_ctx) (message : list Z) : option sha_ctx :=
  let n := u32 (Z.of_nat (length message)) in
  let tmp_len := u32 (BLOCK_SIZE c - len x) in
  let rem_len := if n <? tmp_len then n else tmp_len in
  src ← load_range message 0 (Z.to_nat rem_len);
  blk ← store_range (block x) (Z.to_nat (len x)) src;
  if u32 (len x + n) <? BLOCK_SIZE c then
    Some (Ctx (tot_len x) (u32 (len x + n)) blk (h x))
  else
    let new_len := u32 (n - rem_len) in
    let block_nb := new_len / BLOCK_SIZE c in
    let shifted_message := drop (Z.to_nat rem_len) message in
    h1 ← transf c (compress c) (h x) blk 1;
    h2 ← transf c (compress c) h1 shifted_message block_nb;
    let rem_len := new_len mod BLOCK_SIZE c in
    src ← load_range shifted_message (Z.to_nat (u32 (Z.shiftl block_nb (blk_shift c))))
            (Z.to_nat rem_len);
    blk ← store_range blk 0 src;
    Some (Ctx (u32 (tot_len x + u32 (Z.shiftl (u32 (block_nb + 1)) (blk_shift c)))) rem_len blk h2).

(** The digest, and the context as it is left. *)
Definition final (x : sha_ctx) : option (list Z * sha_ctx) :=
  let block_nb := 1 + Z.b2z (BLOCK_SIZE c - tail_min c <? len x mod BLOCK_SIZE c) in
  let len_b := u32 (Z.shiftl (u32 (tot_len x + len x)) 3) in
  let pm_len := u32 (Z.shiftl block_nb (blk_shift c)) in
  blk ← store_range (block x) (Z.to_nat (len x)) (replicate (Z.to_nat (u32 (pm_len - len x))) 0);
  blk ← store blk (Z.to_nat (len x)) 0x80;
  blk ← store_range blk (Z.to_nat (pm_len - 4)) (UNPACK32 len_b);
  hs ← transf c (compress c) (h x) blk block_nb;
  Some (take (v_words v) hs ≫= UNPACK c, Ctx (tot_len x) (len x) blk hs).

(** [sha256(message, len, digest)]; [ctx] is the uninitialised local. *)
Definition digest_of (ctx : sha_ctx) (message : list Z) : option (list Z) :=
  x ← update (init ctx) message;
  fst <$> final x.

End stream.

Definition V224 : variant := Variant core256 sha224_h0 7.
Definition V256 : variant := Variant core256 sha256_h0 8.
Definition V384 : variant := Variant core512 sha384_h0 6.
Definition V512 : variant := Variant core512 sha512_h0 8.

Definition sha256_init : sha_ctx → sha_ctx := init V256.
Definition sha256_update : sha_ctx → list Z → option sha_ctx := update V256.
Definition sha256_final : sha_ctx → option (list Z * sha_ctx) := final V256.
Definition sha256 : sha_ctx → list Z → option (list Z) := digest_of V256.

Definition sha512_init : sha_ctx → sha_ctx := init V512.
Definition sha512_update : sha_ctx → list Z → option sha_ctx := update V512.
Definition sha512_final : sha_ctx → option (list Z * sha_ctx) := final V512.
Definition sha512 : sha_ctx → list Z → option (list Z) := digest_of V512.

Definition sha384_init : sha_ctx → sha_ctx := init V384.
Definition sha384_update : sha_ctx → list Z → option sha_ctx := update V384.
Definition sha384_final : sha_ctx → option (list Z * sha_ctx) := final V384.
Definition sha384 : sha_ctx → list Z → option (list Z) := digest_of V384.

Definition sha224_init : sha_ctx → sha_ctx := init V224.
Definition sha224_update : sha_ctx → list Z → option sha_ctx := update V224.
Definition sha224_final : sha_ctx → option (list Z * sha_ctx) := final V224.
Definition sha224 : sha_ctx → list Z → option (list Z) := digest_of V224.

(** ** Specification (FIPS 180) *)

Module FIPS.

(** Rotation of the [w] bits of a word, most significant first. *)
Definition ROTR (w n : nat) (x : Z) : Z :=
  let b := bits_of w x in Z_of_bits (drop (w - n) b ++ take (w - n) b).
Definition SHR (n x : Z) : Z := x / 2 ^ n.
Definition Not (w : nat) (x : Z) : Z := 2 ^ Z.of_nat w - 1 - x.
Definition Ch (w : nat) (x y z : Z) : Z := Z.lxor (Z.land x y) (Z.land (Not w x) z).
Definition Maj (x y z : Z) : Z := Z.lxor (Z.land x y) (Z.lxor (Z.land x z) (Z.land y z)).

(** The rotations of the upper-case and the lower-case sigma functions. *)
Definition Sigma (w : nat) (r : nat * nat * nat) (x : Z) : Z :=
  let '(r1, r2, r3) := r in Z.lxor (ROTR w r1 x) (Z.lxor (ROTR w r2 x) (ROTR w r3 x)).
Definition sigma (w : nat) (r : nat * nat * Z) (x : Z) : Z :=
  let '(r1, r2, s) := r in Z.lxor (ROTR w r1 x) (Z.lxor (ROTR w r2 x) (SHR s x)).

(** The constants are fractional parts of roots of the first primes. *)
Definition primes : list Z :=
  filter (λ p, forallb (λ d, negb (p mod d =? 0)) (seqZ 2 (p - 2)) = true) (seqZ 2 408).

(** The largest [r] below [2^n] with [r^3 <= x]. *)
Fixpoint cube_root (n : nat) (r x : Z) : Z :=
  match n with
  | O => r
  | S n => let r' := r + 2 ^ Z.of_nat n in
           cube_root n (if r' * r' * r' <=? x then r' else r) x
  end.

Definition frac_cbrt (w : nat) (p : Z) : Z :=
  cube_root (w + 4) 0 (p * 2 ^ (3 * Z.of_nat w)) mod 2 ^ Z.of_nat w.
Definition frac_sqrt (w : nat) (p : Z) : Z :=
  Z.sqrt (p * 2 ^ (2 * Z.of_nat w)) mod 2 ^ Z.of_nat w.

(** The word size, the number of rounds, the bytes of the length field, the
    rotations, the initial hash value and the number of words of the digest. *)
Record alg := Alg {
  w : nat; n_rounds : nat; len_bytes : nat;
  S0 : nat * nat * nat; S1 : nat * nat * nat;
  s0 : nat * nat * Z; s1 : nat * nat * Z;
  H0 : list Z; out_words : nat;
}.

Section alg.
Context (a : alg).

Definition add (x y : Z) : Z := (x + y) mod 2 ^ Z.of_nat (w a).
Definition K (t : nat) : Z := frac_cbrt (w a) (primes !!! t).

(** A block is sixteen words. *)
Definition B : nat := (16 * (w a / 8))%nat.

(** The [t]-th big-endian word of a block. *)
Definition M (block : list Z) (t : nat) : Z :=
  Z_of_bits (take (w a / 8) (drop (w a / 8 * t) block) ≫= bits_of 8).

(** The words [W_0 .. W_(t-1)]. *)
Fixpoint W (block : list Z) (t : nat) : list Z :=
  match t with
  | O => []
  | S t' =>
    let ws := W block t' in
    ws ++ [if decide (t' < 16)%nat then M block t'
           else add (add (sigma (w a) (s1 a) (ws !!! (t' - 2)%nat)) (ws !!! (t' - 7)%nat))
                    (add (sigma (w a) (s0 a) (ws !!! (t' - 15)%nat)) (ws !!! (t' - 16)%nat))]
  end.

(** One round on the working variables [a] to [h]. *)
Definition step (ws : list Z) (v : list Z) (t : nat) : list Z :=
  match v with
  | [a'; b; c; d; e; f; g; h'] =>
    let T1 := add (add (add (add h' (Sigma (w a) (S1 a) e)) (Ch (w a) e f g)) (K t)) (ws !!! t) in
    let T2 := add (Sigma (w a) (S0 a) a') (Maj a' b c) in
    [add T1 T2; a'; b; c; add d T1; e; f; g]
  | _ => v
  end.

Definition process (hs block : list Z) : list Z :=
  zip_with add hs (fold_left (step (W block (n_rounds a))) (seq 0 (n_rounds a)) hs).

(** One bit, zeros, the bit length in the last [len_bytes] bytes of a block. *)
Definition pad (m : list Z) : list Z :=
  m ++ [0x80] ++
  replicate (Z.to_nat ((Z.of_nat B - 1 - Z.of_nat (len_bytes a) - Z.of_nat (length m))
                       mod Z.of_nat B)) 0 ++
  be_bytes (len_bytes a) (8 * Z.of_nat (length m)).

Definition sha2 (m : list Z) : list Z :=
  take (out_words a) (fold_left process (all_blocks B (pad m)) (H0 a)) ≫= be_bytes (w a / 8).

End alg.

(** The initial values: square roots of the first eight primes; for SHA-384 of
    the next eight, of which SHA-224 takes the low halves. *)
Definition H0_384 : list Z := frac_sqrt 64 <$> take 8 (drop 8 primes).

Definition alg256 (H0 : list Z) (n : nat) : alg :=
  Alg 32 64 8 (2, 13, 22)%nat (6, 11, 25)%nat (7%nat, 18%nat, 3) (17%nat, 19%nat, 10) H0 n.
Definition alg512 (H0 : list Z) (n : nat) : alg :=
  Alg 64 80 16 (28, 34, 39)%nat (14, 18, 41)%nat (1%nat, 8%nat, 7) (19%nat, 61%nat, 6) H0 n.

Definition SHA224 : alg := alg256 ((λ x, x mod 2 ^ 32) <$> H0_384) 7.
Definition SHA256 : alg := alg256 (frac_sqrt 32 <$> take 8 primes) 8.
Definition SHA384 : alg := alg512 H0_384 6.
Definition SHA512 : alg := alg512 (frac_sqrt 64 <$> take 8 primes) 8.

End FIPS.

(** ** The interface between the code's core and the standard *)

Abbreviation wordw a x := (0 ≤ x < 2 ^ Z.of_nat (FIPS.w a)).

(** What the streaming text needs of a core. *)
Class Implements (c : core) (a : FIPS.alg) : Prop := {
  impl_w : w_bits c = Z.of_nat (FIPS.w a);
  impl_w8 : (FIPS.w a = 8 * w_bytes c)%nat;
  impl_pos : (0 < w_bytes c)%nat;
  impl_PACK : ∀ b, Forall is_byte b → length b = w_bytes c → PACK c b = Z_of_bits (b ≫= bits_of 8);
  impl_UNPACK : ∀ x, UNPACK c x = be_bytes (w_bytes c) x;
  impl_BLOCK : BLOCK_SIZE c = 2 ^ blk_shift c;
  impl_B : BLOCK_SIZE c = 16 * Z.of_nat (w_bytes c);
  impl_shift : 0 ≤ blk_shift c ≤ 7;
  impl_tail : tail_min c = Z.of_nat (FIPS.len_bytes a) + 1;
  impl_len : (4 ≤ FIPS.len_bytes a)%nat ∧ (FIPS.len_bytes a < 8 * w_bytes c)%nat;
  impl_rounds : n_rounds c = FIPS.n_rounds a;
  impl_rounds16 : (16 ≤ n_rounds c)%nat;
  impl_rounds8 : (n_rounds c = 8 * (n_rounds c / 8))%nat;
  impl_F1 : ∀ x, wordw a x → F1 c x = FIPS.Sigma (FIPS.w a) (FIPS.S0 a) x;
  impl_F2 : ∀ x, wordw a x → F2 c x = FIPS.Sigma (FIPS.w a) (FIPS.S1 a) x;
  impl_F3 : ∀ x, wordw a x → F3 c x = FIPS.sigma (FIPS.w a) (FIPS.s0 a) x;
  impl_F4 : ∀ x, wordw a x → F4 c x = FIPS.sigma (FIPS.w a) (FIPS.s1 a) x;
  impl_K : ∀ t, (t < n_rounds c)%nat → k_table c !!! t = FIPS.K a t;
}.

(** *** Words of the two cores *)

Lemma ROTR_spec (w n : nat) (x : Z) :
  (n ≤ w)%nat → 0 ≤ x < 2 ^ Z.of_nat w → ROTR (Z.of_nat w) x (Z.of_nat n) = FIPS.ROTR w n x.
Proof.
  intros Hn Hx. unfold FIPS.ROTR.
  set (R := ROTR (Z.of_nat w) x (Z.of_nat n)).
  assert (∀ i, 0 ≤ i < Z.of_nat w → Z.testbit R i = if decide (i < Z.of_nat w - Z.of_nat n)
    then Z.testbit x (i + Z.of_nat n) else Z.testbit x (i - (Z.of_nat w - Z.of_nat n))) as HR.
  { intros i Hi. unfold R, ROTR.
    rewrite Z.lor_spec, Z.shiftr_spec, wrap_testbit, Z.shiftl_spec by lia.
    rewrite bool_decide_true by lia. case_decide.
    - rewrite (Z.testbit_neg_r x (i - _)) by lia. apply orb_false_r.
    - by rewrite (testbit_high (Z.of_nat w) x (i + _)) by lia. }
  assert (0 ≤ R < 2 ^ Z.of_nat w) as HRw.
  { assert (R = wrap (Z.of_nat w) R) as ->; [|apply wrap_range; lia].
    apply Z.bits_inj'. intros i Hi. rewrite wrap_testbit by lia. case_bool_decide; [done|].
    unfold R, ROTR. rewrite Z.lor_spec, Z.shiftr_spec, wrap_testbit by lia.
    rewrite bool_decide_false by lia. by rewrite (testbit_high (Z.of_nat w) x (i + _)) by lia. }
  rewrite <-(wrap_small (Z.of_nat w) R), <-Z_of_bits_of by done. f_equal.
  replace w with (n + (w - n))%nat at 1 by lia.
  replace (bits_of w x) with (bits_of ((w - n) + n) x) by (f_equal; lia).
  rewrite !bits_of_app.
  rewrite take_app_length', drop_app_length' by (rewrite length_bits_of; lia).
  f_equal; apply bits_of_ext; intros i Hi; rewrite ?Z.shiftr_spec by lia; rewrite HR by lia.
  - rewrite decide_False by lia. f_equal. lia.
  - rewrite decide_True by lia. done.
Qed.

Lemma SHFR_spec (x n : Z) : 0 ≤ n → SHFR x n = FIPS.SHR n x.
Proof. intros. by apply Z.shiftr_div_pow2. Qed.

Lemma Not_spec (w : nat) (x : Z) :
  0 ≤ x < 2 ^ Z.of_nat w → wrap (Z.of_nat w) (Z.lnot x) = FIPS.Not w x.
Proof.
  intros Hx. unfold wrap, FIPS.Not, Z.lnot.
  rewrite <-(Z_mod_plus_full _ 1), Z.mod_small; lia.
Qed.

(** A number without bits at or above [n] is its [n] bits. *)
Lemma Z_of_bits_low (n : nat) (x : Z) :
  (∀ i, Z.of_nat n ≤ i → Z.testbit x i = false) → Z_of_bits (bits_of n x) = x.
Proof.
  intros H. rewrite Z_of_bits_of. apply Z.bits_inj'. intros i Hi.
  rewrite wrap_testbit by lia. case_bool_decide; [done|]. by rewrite H by lia.
Qed.

(** A word assembled from bytes; [n] is the number of its bits. *)
Ltac pack_word n :=
  match goal with |- ?x = _ =>
    rewrite <-(Z_of_bits_low n x) by (intros i Hi; zmask; done)
  end;
  rewrite !bits_of_app; f_equal; repeat match goal with |- _ ++ _ = _ ++ _ => f_equal end;
  apply bits_of_ext; intros i Hi; zmask; f_equal; lia.

Lemma PACK32_spec (b : list Z) :
  Forall is_byte b → length b = 4%nat → PACK32 b = Z_of_bits (b ≫= bits_of 8).
Proof.
  intros Hb Hl. do 4 (destruct b as [|? b]; [done|]). destruct b; [|done].
  repeat (apply Forall_cons in Hb as [? Hb]).
  unfold PACK32, u32. cbn [lookup_total list_lookup_total mbind list_bind]. rewrite app_nil_r.
  pack_word (8 + (8 + (8 + 8)))%nat.
Qed.

Lemma PACK64_spec (b : list Z) :
  Forall is_byte b → length b = 8%nat → PACK64 b = Z_of_bits (b ≫= bits_of 8).
Proof.
  intros Hb Hl. do 8 (destruct b as [|? b]; [done|]). destruct b; [|done].
  repeat (apply Forall_cons in Hb as [? Hb]).
  unfold PACK64, u64. cbn [lookup_total list_lookup_total mbind list_bind]. rewrite app_nil_r.
  pack_word (8 + (8 + (8 + (8 + (8 + (8 + (8 + 8)))))))%nat.
Qed.

Lemma UNPACK32_spec (x : Z) : UNPACK32 x = be_bytes 4 x.
Proof.
  unfold UNPACK32, u8. cbn [be_bytes]. rewrite !Z.shiftr_div_pow2 by lia.
  change (2 ^ (8 * Z.of_nat 0)) with 1. by rewrite Z.div_1_r.
Qed.

Lemma UNPACK64_spec (x : Z) : UNPACK64 x = be_bytes 8 x.
Proof.
  unfold UNPACK64, u8. cbn [be_bytes]. rewrite !Z.shiftr_div_pow2 by lia.
  change (2 ^ (8 * Z.of_nat 0)) with 1. by rewrite Z.div_1_r.
Qed.

Lemma primes_length : length FIPS.primes = 80%nat.
Proof. vm_compute. reflexivity. Qed.

(** The constants of the code are the roots the standard says they are. *)
Lemma sha256_k_roots : sha256_k = FIPS.frac_cbrt 32 <$> take 64 FIPS.primes.
Proof. vm_compute. reflexivity. Qed.

Lemma sha512_k_roots : sha512_k = FIPS.frac_cbrt 64 <$> take 80 FIPS.primes.
Proof. vm_compute. reflexivity. Qed.

Lemma h0_roots : sha224_h0 = FIPS.H0 FIPS.SHA224 ∧ sha256_h0 = FIPS.H0 FIPS.SHA256 ∧
  sha384_h0 = FIPS.H0 FIPS.SHA384 ∧ sha512_h0 = FIPS.H0 FIPS.SHA512.
Proof. vm_compute. repeat split. Qed.

Lemma k_lookup (w n t : nat) (k : list Z) :
  k = FIPS.frac_cbrt w <$> take n FIPS.primes → (n ≤ length FIPS.primes)%nat → (t < n)%nat →
  k !!! t = FIPS.frac_cbrt w (FIPS.primes !!! t).
Proof.
  intros -> Hn Ht. rewrite !list_lookup_total_alt, list_lookup_fmap, lookup_take_lt by done.
  destruct (lookup_lt_is_Some_2 FIPS.primes t) as [p ->]; [lia|done].
Qed.

Ltac sigma_spec :=
  intros x Hx; unfold FIPS.Sigma, FIPS.sigma;
  cbn [FIPS.S0 FIPS.S1 FIPS.s0 FIPS.s1 FIPS.w FIPS.alg256 FIPS.alg512] in *;
  rewrite <-!Z.lxor_assoc, <-!ROTR_spec, <-?SHFR_spec by lia; reflexivity.

(** The numeric laws of a core; its functions are left. *)
Ltac core_fact :=
  lazymatch goal with |- ∀ _, _ => fail | _ => first [reflexivity | cbn; lia] end.

#[export] Instance core256_implements (H0 : list Z) (n : nat) : Implements core256 (FIPS.alg256 H0 n).
Proof.
  split; try core_fact;
    [apply PACK32_spec|apply UNPACK32_spec|sigma_spec|sigma_spec|sigma_spec|sigma_spec|].
  intros t Ht. unfold FIPS.K. cbn [FIPS.w FIPS.alg256].
  apply (k_lookup _ 64 _ sha256_k sha256_k_roots); [rewrite primes_length; lia|exact Ht].
Qed.

#[export] Instance core512_implements (H0 : list Z) (n : nat) : Implements core512 (FIPS.alg512 H0 n).
Proof.
  split; try core_fact;
    [apply PACK64_spec|apply UNPACK64_spec|sigma_spec|sigma_spec|sigma_spec|sigma_spec|].
  intros t Ht. unfold FIPS.K. cbn [FIPS.w FIPS.alg512].
  apply (k_lookup _ 80 _ sha512_k sha512_k_roots); [rewrite primes_length; lia|exact Ht].
Qed.

(** ** The compression function computes the standard's *)

Section core.
Context (c : core) (a : FIPS.alg) `{!Implements c a}.

Abbreviation words := (Forall (λ x, wordw a x)).

Lemma word_add (x y : Z) : word c (x + y) = FIPS.add a x y.
Proof using Implements0. unfold word, FIPS.add, wrap. by rewrite impl_w. Qed.

Lemma add_range (x y : Z) : wordw a (FIPS.add a x y).
Proof. apply Z.mod_pos_bound, pow2_pos. lia. Qed.

Lemma word_idemp_l (x y : Z) : word c (word c x + y) = word c (x + y).
Proof. unfold word, wrap. by rewrite Zplus_mod_idemp_l. Qed.

Lemma word_idemp_r (x y : Z) : word c (x + word c y) = word c (x + y).
Proof. unfold word, wrap. by rewrite Zplus_mod_idemp_r. Qed.

Lemma word_sum5 (v x y z t : Z) :
  word c (v + x + y + z + t) =
    FIPS.add a (FIPS.add a (FIPS.add a (FIPS.add a v x) y) z) t.
Proof using Implements0.
  rewrite <-!word_add.
  by rewrite <-(word_idemp_l (v + x + y + z)), <-(word_idemp_l (v + x + y)), <-(word_idemp_l (v + x)).
Qed.

Lemma bits8_length (l : list Z) : length (l ≫= bits_of 8) = (8 * length l)%nat.
Proof.
  induction l as [|x l IH]; [done|]. rewrite bind_cons, length_app, IH, length_bits_of. simpl. lia.
Qed.

Lemma M_range (blk : list Z) (t : nat) : wordw a (FIPS.M a blk t).
Proof using Implements0.
  unfold FIPS.M. set (l := take _ _).
  pose proof (Z_of_bits_range (l ≫= bits_of 8)) as R. rewrite bits8_length in R.
  assert (8 * length l ≤ FIPS.w a)%nat as Hl.
  { unfold l. rewrite length_take. rewrite (impl_w8 (c := c)). rewrite (Nat.mul_comm 8 (w_bytes c)), Nat.div_mul by lia. lia. }
  split; [lia|]. eapply Z.lt_le_trans; [apply R|]. apply Z.pow_le_mono_r; lia.
Qed.

Lemma sha2_W_S (blk : list Z) (n : nat) :
  FIPS.W a blk (S n) = FIPS.W a blk n ++
    [if decide (n < 16)%nat then FIPS.M a blk n
     else FIPS.add a (FIPS.add a (FIPS.sigma (FIPS.w a) (FIPS.s1 a) (FIPS.W a blk n !!! (n - 2)%nat))
                      (FIPS.W a blk n !!! (n - 7)%nat))
            (FIPS.add a (FIPS.sigma (FIPS.w a) (FIPS.s0 a) (FIPS.W a blk n !!! (n - 15)%nat))
                      (FIPS.W a blk n !!! (n - 16)%nat))].
Proof. reflexivity. Qed.

Lemma words_total (ws : list Z) (k : nat) : words ws → wordw a (ws !!! k).
Proof using Implements0.
  intros Hw. rewrite list_lookup_total_alt. destruct (ws !! k) eqn:E; simpl.
  - rewrite Forall_lookup in Hw. eauto.
  - pose proof (impl_w8 (c := c) (a := a)). pose proof (impl_pos (c := c) (a := a)).
    split; [done|]. apply (Z.pow_gt_1 2); lia.
Qed.

Lemma sha2_W_words (blk : list Z) (n : nat) : words (FIPS.W a blk n).
Proof using Implements0.
  induction n as [|n IH]; [constructor|]. rewrite sha2_W_S.
  apply Forall_app. split; [done|]. constructor; [|constructor].
  case_decide; [apply M_range|apply add_range].
Qed.

Lemma pack_words_W (blk : list Z) :
  Forall is_byte blk → length blk = (16 * w_bytes c)%nat → pack_words c blk = FIPS.W a blk 16.
Proof using Implements0.
  intros Hb Hl.
  assert (∀ n, (n ≤ 16)%nat → FIPS.W a blk n = FIPS.M a blk <$> seq 0 n) as HM.
  { induction n as [|n IH]; intros Hn; [done|].
    rewrite seq_S, fmap_app, <-IH, sha2_W_S by lia. by rewrite decide_True by lia. }
  rewrite HM by lia. apply list_fmap_ext. intros j t Ht. apply lookup_seq in Ht as [-> Ht].
  unfold FIPS.M. rewrite (impl_w8 (c := c)), (Nat.mul_comm 8 (w_bytes c)), Nat.div_mul by lia.
  apply impl_PACK.
  - by apply Forall_take, Forall_drop.
  - rewrite length_take, length_drop. pose proof (impl_pos (c := c) (a := a)). nia.
Qed.

Lemma SCR_W (blk : list Z) (n : nat) : (16 ≤ n)%nat → SCR c (FIPS.W a blk n) n = FIPS.W a blk (S n).
Proof using Implements0.
  intros Hn. rewrite sha2_W_S, decide_False by lia. unfold SCR.
  rewrite impl_F4, impl_F3 by apply words_total, sha2_W_words.
  rewrite <-!word_add, word_idemp_l, word_idemp_r. do 3 f_equal. lia.
Qed.

Lemma sha2_schedule_W (blk : list Z) :
  Forall is_byte blk → length blk = (16 * w_bytes c)%nat →
  schedule c blk = FIPS.W a blk (n_rounds c).
Proof using Implements0.
  intros Hb Hl. unfold schedule. rewrite pack_words_W by done.
  pose proof (impl_rounds16 (c := c) (a := a)) as H16.
  replace (FIPS.W a blk (n_rounds c)) with (FIPS.W a blk (16 + (n_rounds c - 16)))
    by (f_equal; lia).
  generalize (n_rounds c - 16)%nat as k. induction k as [|k IH]; [done|].
  rewrite seq_S, fold_left_app, IH. cbn [fold_left].
  rewrite SCR_W by lia. f_equal; lia.
Qed.

(** *** Rounds *)

Definition state8 (wv : list Z) : Prop := length wv = 8%nat ∧ words wv.

Lemma round_step_spec (ws wv : list Z) (t : nat) :
  (t < n_rounds c)%nat → state8 wv →
  round_step c wv (k_table c !!! t) (ws !!! t) = FIPS.step a ws wv t ∧
  state8 (FIPS.step a ws wv t).
Proof using Implements0.
  intros Ht [Hl Hw]. do 8 (destruct wv as [|? wv]; [done|]). destruct wv; [|done].
  repeat (apply Forall_cons in Hw as [? Hw]).
  unfold round_step, temp1, temp2. cbn [lookup_total list_lookup_total insert list_insert list_alter].
  cbn [FIPS.step]. split.
  - rewrite impl_K, impl_F1, impl_F2 by done. unfold CH, MAJ, FIPS.Maj.
    rewrite impl_w, Not_spec by done. fold (FIPS.Ch (FIPS.w a) z3 z4 z5).
    by rewrite !word_sum5, !word_add, !Z.lxor_assoc.
  - split; [done|]. repeat (apply Forall_cons; split); first [done | apply add_range | by apply Forall_nil].
Qed.

Lemma rounds_spec (ws wv : list Z) (t k : nat) :
  (t + k ≤ n_rounds c)%nat → state8 wv →
  fold_left (λ wv j, round_step c wv (k_table c !!! j) (ws !!! j)) (seq t k) wv =
    fold_left (FIPS.step a ws) (seq t k) wv ∧
  state8 (fold_left (FIPS.step a ws) (seq t k) wv).
Proof using Implements0.
  revert t wv. induction k as [|k IH]; intros t wv Hk Hwv; [done|].
  rewrite <-cons_seq. cbn [fold_left].
  destruct (round_step_spec ws wv t ltac:(lia) Hwv) as [-> Hs]. apply IH; [lia|done].
Qed.

Lemma sha2_compress_process (hs blk : list Z) :
  state8 hs → Forall is_byte blk → length blk = (16 * w_bytes c)%nat →
  compress c hs blk = FIPS.process a hs blk ∧ state8 (FIPS.process a hs blk).
Proof using Implements0.
  intros Hhs Hb Hl. unfold compress, rounds, FIPS.process.
  rewrite sha2_schedule_W, <-impl_rounds by done.
  destruct (rounds_spec (FIPS.W a blk (n_rounds c)) hs 0 (n_rounds c)) as [-> [Hr _]]; [lia|done|].
  destruct Hhs as [Hh _]. split.
  - apply zip_with_ext; [intros; apply word_add|done..].
  - split; [rewrite length_zip_with; lia|].
    apply Forall_lookup. intros i x Hx.
    apply lookup_zip_with_Some in Hx as (? & ? & -> & _). apply add_range.
Qed.

(** *** The unrolled build *)

(** The array as the moving rounds see it after [k] rotating rounds. *)
Definition view (k : nat) (wv : list Z) : list Z := drop (8 - k) wv ++ take (8 - k) wv.

Lemma view_8 (wv : list Z) : view 8 wv = wv.
Proof. unfold view. change (8 - 8)%nat with 0%nat. by rewrite drop_0, app_nil_r. Qed.

(** The [k]-th of the eight calls. *)
Definition EXP_at (j : nat) (ws wv : list Z) (k : nat) : list Z :=
  let idx i := ((8 - k + i) mod 8)%nat in
  EXP c wv (idx 0%nat) (idx 1%nat) (idx 2%nat) (idx 3%nat) (idx 4%nat) (idx 5%nat) (idx 6%nat)
    (idx 7%nat) (k_table c !!! (j + k)%nat) (ws !!! (j + k)%nat).

Lemma EXP_at_view (j : nat) (ws wv : list Z) (k : nat) :
  (k < 8)%nat → length wv = 8%nat →
  view (S k) (EXP_at j ws wv k) =
    round_step c (view k wv) (k_table c !!! (j + k)%nat) (ws !!! (j + k)%nat) ∧
  length (EXP_at j ws wv k) = 8%nat.
Proof.
  intros Hk Hl. unfold EXP_at. generalize (k_table c !!! (j + k)%nat) (ws !!! (j + k)%nat).
  intros kj wj. split; [|by unfold EXP; rewrite !length_insert].
  do 8 (destruct wv as [|? wv]; [done|]). destruct wv; [|done].
  do 8 (destruct k as [|k]; [reflexivity|]). lia.
Qed.

(** Eight rounds that rotate the indices are eight rounds that move the array. *)
Lemma EXP8_rounds (ws wv : list Z) (j : nat) :
  length wv = 8%nat →
  EXP8 c ws wv j =
    fold_left (λ wv i, round_step c wv (k_table c !!! i) (ws !!! i)) (seq j 8) wv ∧
  length (EXP8 c ws wv j) = 8%nat.
Proof.
  intros Hl.
  assert (EXP8 c ws wv j = fold_left (EXP_at j ws) (seq 0 8) wv) as ->.
  { unfold EXP8, EXP_at. cbn -[EXP lookup_total Nat.add]. reflexivity. }
  assert (∀ n, (n ≤ 8)%nat →
    view n (fold_left (EXP_at j ws) (seq 0 n) wv) =
      fold_left (λ wv i, round_step c wv (k_table c !!! i) (ws !!! i)) (seq j n) wv ∧
    length (fold_left (EXP_at j ws) (seq 0 n) wv) = 8%nat) as H.
  { induction n as [|n IH]; intros Hn.
    - split; [|done]. unfold view. by rewrite drop_ge, take_ge by (simpl; lia).
    - rewrite !seq_S, !fold_left_app. cbn [fold_left].
      destruct (IH ltac:(lia)) as [<- L].
      destruct (EXP_at_view j ws _ n ltac:(lia) L) as [V L']. by rewrite <-V. }
  destruct (H 8%nat) as [<- L]; [lia|]. split; [|done].
  by rewrite view_8.
Qed.

Lemma rounds_unrolled_rounds (ws wv : list Z) :
  length wv = 8%nat → rounds_unrolled c ws wv = rounds c ws wv.
Proof using Implements0.
  intros Hl. unfold rounds_unrolled, rounds.
  rewrite (impl_rounds8 (c := c) (a := a)) at 2.
  assert (∀ n, let r := fold_left (EXP8 c ws) ((λ n, 8 * n)%nat <$> seq 0 n) wv in
    r = fold_left (λ wv j, round_step c wv (k_table c !!! j) (ws !!! j)) (seq 0 (8 * n)) wv ∧
    length r = 8%nat) as H; [|apply H].
  induction n as [|n [IH1 IH2]]; [done|].
  rewrite seq_S, fmap_app, fold_left_app. cbn [fmap list_fmap fold_left]. cbv zeta in *.
  destruct (EXP8_rounds ws _ (8 * (0 + n)) IH2) as [E1 E2]. split; [|done].
  rewrite E1, IH1. replace (8 * S n)%nat with (8 * n + 8)%nat by lia.
  by rewrite seq_app, fold_left_app.
Qed.

Lemma compress_unrolled_compress (hs blk : list Z) :
  length hs = 8%nat → compress_unrolled c hs blk = compress c hs blk.
Proof using Implements0.
  intros Hl. unfold compress_unrolled, compress. by rewrite rounds_unrolled_rounds.
Qed.

End core.

(** ** Streaming *)

Lemma store_range_app (x y z vs : list Z) (i : nat) :
  length x = i → length y = length vs → store_range (x ++ y ++ z) i vs = Some (x ++ vs ++ z).
Proof.
  intros <- Hy. unfold store_range. rewrite decide_True by (rewrite !length_app; lia).
  rewrite take_app_length, <-Hy. repeat f_equal. rewrite <-length_app.
  by rewrite (app_assoc x y z), drop_app_length.
Qed.

Lemma store_app (x z : list Z) (y v : Z) (i : nat) :
  length x = i → store (x ++ y :: z) i v = Some (x ++ v :: z).
Proof.
  intros <-. unfold store. rewrite decide_True by (rewrite length_app; simpl; lia).
  by rewrite insert_app_r_alt, Nat.sub_diag by lia.
Qed.

Lemma load_range_ok (m : list Z) (i n : nat) :
  (i + n ≤ length m)%nat → load_range m i n = Some (take n (drop i m)).
Proof. intros H. unfold load_range. by rewrite decide_True. Qed.

Lemma blocks_take (B n : nat) (m : list Z) : blocks B n (take (n * B) m) = blocks B n m.
Proof.
  revert m. induction n as [|n IH]; intros m; [done|]. cbn [blocks].
  change (S n * B)%nat with (B + n * B)%nat.
  by rewrite take_take, Nat.min_l, <-take_drop_commute, IH by lia.
Qed.

(** Pieces of a message given one after the other. *)
Definition updates (upd : sha_ctx → list Z → option sha_ctx) (x : sha_ctx) (ms : list (list Z))
    : option sha_ctx :=
  foldl (λ r m, r ≫= λ x, upd x m) (Some x) ms.

(** What a digest of the code promises: its core and its parameters are the
    standard's. *)
Class ImplementsV (v : variant) (a : FIPS.alg) : Prop := {
  v_implements :: Implements (v_core v) a;
  v_H0 : v_h0 v = FIPS.H0 a;
  v_out : v_words v = FIPS.out_words a;
  v_state8 : state8 a (FIPS.H0 a);
}.

Section stream.
Context (v : variant) (a : FIPS.alg) `{!ImplementsV v a}.
Let c : core := v_core v.
Let B : nat := FIPS.B a.

Lemma B_facts : B = (16 * w_bytes c)%nat ∧ (0 < B ≤ 128)%nat ∧
  BLOCK_SIZE c = Z.of_nat B ∧ (∀ x, Z.shiftl x (blk_shift c) = x * Z.of_nat B) ∧
  tail_min c = Z.of_nat (FIPS.len_bytes a) + 1 ∧ (4 ≤ FIPS.len_bytes a < B / 2)%nat.
Proof using ImplementsV0.
  pose proof (impl_w8 (c := c) (a := a)) as H8. pose proof (impl_pos (c := c) (a := a)).
  pose proof (impl_len (c := c) (a := a)) as [? ?].
  assert (B = (16 * w_bytes c)%nat) as HB.
  { unfold B, FIPS.B. by rewrite H8, (Nat.mul_comm 8 (w_bytes c)), Nat.div_mul by lia. }
  assert (BLOCK_SIZE c = Z.of_nat B) as HZ by (rewrite (impl_B (a := a)); lia).
  pose proof (impl_shift (c := c) (a := a)). pose proof (impl_BLOCK (c := c) (a := a)) as HP.
  assert (2 ^ blk_shift c ≤ 2 ^ 7) by (apply Z.pow_le_mono_r; lia).
  split_and!; try done; try lia.
  - intros x. by rewrite Z.shiftl_mul_pow2, <-HP, HZ by lia.
  - apply impl_tail.
  - rewrite HB. replace (16 * w_bytes c)%nat with (8 * w_bytes c * 2)%nat by lia.
    rewrite Nat.div_mul; lia.
Qed.

Lemma transf_loop_blocks (f : list Z → list Z → list Z) (n i : nat) (message hs : list Z) :
  ((i + n) * B ≤ length message)%nat → Z.of_nat (length message) < 2 ^ 31 →
  transf_loop c f n (Z.of_nat i) message hs =
    Some (fold_left f (blocks B n (drop (i * B) message)) hs).
Proof using ImplementsV0.
  intros Hn Hm. revert i hs Hn.
  destruct B_facts as (_ & HB & HBZ & Hsh & _).
  induction n as [|n IH]; intros i hs Hn; [done|].
  cbn [transf_loop]. unfold sub_block. rewrite Hsh, HBZ.
  unfold s32. rewrite swrap_small by nia.
  rewrite (proj2 (Z.ltb_ge _ _)) by lia.
  replace (Z.to_nat (Z.of_nat i * Z.of_nat B)) with (i * B)%nat by lia. rewrite Nat2Z.id.
  rewrite load_range_ok by lia. cbn [mbind option_bind].
  replace (Z.of_nat i + 1) with (Z.of_nat (S i)) by lia.
  rewrite IH by lia. cbn [blocks fold_left]. rewrite drop_drop.
  do 3 f_equal. f_equal. lia.
Qed.

Lemma transf_blocks (f : list Z → list Z → list Z) (n : nat) (message hs : list Z) :
  (n * B ≤ length message)%nat → Z.of_nat (length message) < 2 ^ 31 →
  transf c f hs message (Z.of_nat n) = Some (fold_left f (blocks B n message) hs).
Proof using ImplementsV0.
  intros Hn Hm. destruct B_facts as (_ & HB & _). unfold transf, s32.
  rewrite swrap_small, Nat2Z.id by nia.
  change 0 with (Z.of_nat 0). by rewrite transf_loop_blocks by lia.
Qed.

Lemma sha2_fold_compress (bs : list (list Z)) (hs : list Z) :
  state8 a hs → Forall (λ b, Forall is_byte b ∧ length b = B) bs →
  fold_left (compress c) bs hs = fold_left (FIPS.process a) bs hs ∧
  state8 a (fold_left (FIPS.process a) bs hs).
Proof using ImplementsV0.
  revert hs. induction bs as [|b bs IH]; intros hs Hs Hb; [done|].
  apply Forall_cons in Hb as [[Hb1 Hb2] Hb]. destruct B_facts as (HB & _).
  destruct (sha2_compress_process c a hs b Hs Hb1) as [E Hs']; [congruence|].
  cbn [fold_left]. rewrite E. by apply IH.
Qed.

(** The context after the bytes [m]. *)
Record ctx_inv (x : sha_ctx) (m : list Z) : Prop := {
  inv_bytes : Forall is_byte m;
  inv_h : h x = fold_left (compress c) (all_blocks B m) (FIPS.H0 a);
  inv_len : len x = Z.of_nat (length (tail B m));
  inv_tot : tot_len x = Z.of_nat (length m - length (tail B m));
  inv_block : length (block x) = (2 * B)%nat;
  inv_data : take (length (tail B m)) (block x) = tail B m;
}.

Lemma sha2_init_inv (x : sha_ctx) : length (block x) = (2 * B)%nat → ctx_inv (init v x) [].
Proof using ImplementsV0.
  intros H. destruct B_facts as (_ & HB & _).
  destruct (blocks_short B [] ltac:(simpl; lia)) as [E1 E2].
  split; rewrite ?E1, ?E2; try done. apply v_H0.
Qed.

Lemma tail_le (m : list Z) : (length (tail B m) ≤ length m)%nat.
Proof. unfold tail. rewrite length_drop. lia. Qed.

(** The number of blocks of a message as the code computes it. *)
Lemma blocks_count (m : list Z) :
  Z.of_nat (length m) / Z.of_nat B = Z.of_nat (length m / B) ∧
  (length m = B * (length m / B) + length (tail B m))%nat ∧
  Z.of_nat (length m) mod Z.of_nat B = Z.of_nat (length (tail B m)).
Proof using ImplementsV0.
  destruct B_facts as (_ & HB & _).
  split; [by rewrite Nat2Z.inj_div|split].
  - unfold tail. rewrite length_drop. pose proof (Nat.Div0.mul_div_le (length m) B). lia.
  - symmetry. apply (tail_length B); lia.
Qed.

(** A piece that does not complete the block. *)
Lemma update_short (x : sha_ctx) (m b : list Z) :
  ctx_inv x m → Forall is_byte b → (length (tail B m) + length b < B)%nat →
  Z.of_nat (length m + length b) < 2 ^ 29 →
  ∃ x', update v x b = Some x' ∧ ctx_inv x' (m ++ b).
Proof using ImplementsV0.
  intros [Hm Hh Hlen Htot Hbl Hd] Hb Hs Hmax. destruct B_facts as (_ & HB & HBZ & _).
  destruct (blocks_app B ltac:(lia) m b) as [E1 E2].
  destruct (blocks_short B (tail B m ++ b)) as [S1 S2]; [rewrite length_app; lia|].
  unfold update, u32. fold c. rewrite Hlen, HBZ.
  rewrite (wrap_small 32 (Z.of_nat (length b))), (wrap_small 32 (_ - Z.of_nat (length (tail B m)))),
    (wrap_small 32 (_ + Z.of_nat (length b))) by lia.
  rewrite (proj2 (Z.ltb_lt (Z.of_nat (length b)) _)), (proj2 (Z.ltb_lt _ (Z.of_nat B))) by lia.
  rewrite (load_range_ok b), !Nat2Z.id by lia. cbn [mbind option_bind].
  rewrite drop_0, take_ge by lia.
  rewrite <-(take_drop (length (tail B m)) (block x)), Hd.
  rewrite <-(take_drop (length b) (drop _ (block x))).
  rewrite store_range_app; [|done|rewrite length_take, length_drop; lia].
  cbn [mbind option_bind]. eexists. split; [done|].
  split; cbn [tot_len len block h]; rewrite ?E2, ?S2, ?length_app.
  - by apply Forall_app.
  - by rewrite E1, S1, app_nil_r.
  - lia.
  - pose proof (tail_le m). lia.
  - rewrite !length_drop. lia.
  - rewrite app_assoc, <-length_app. by rewrite take_app_length.
Qed.

(** A piece that completes the block: the block, the blocks of the piece, the rest. *)
Lemma update_long (x : sha_ctx) (m b : list Z) :
  ctx_inv x m → Forall is_byte b → (B ≤ length (tail B m) + length b)%nat →
  Z.of_nat (length m + length b) < 2 ^ 29 →
  ∃ x', update v x b = Some x' ∧ ctx_inv x' (m ++ b).
Proof using ImplementsV0.
  intros [Hm Hh Hlen Htot Hbl Hd] Hb Hs Hmax. destruct B_facts as (_ & HB & HBZ & Hsh & _).
  set (t := tail B m) in *.
  destruct (blocks_app B ltac:(lia) m b) as [E1 E2]. fold t in E1, E2.
  pose proof (tail_length B ltac:(lia) m) as [Ht _]. fold t in Ht.
  remember (B - length t)%nat as rem eqn:Hrem. set (rest := drop rem b).
  destruct (blocks_step B ltac:(lia) (t ++ take rem b) rest) as [S1 S2];
    [rewrite length_app, length_take; lia|].
  replace ((t ++ take rem b) ++ rest) with (t ++ b) in S1, S2
    by (by rewrite <-app_assoc; unfold rest; rewrite take_drop).
  pose proof (length_drop b rem) as Hrest. fold rest in Hrest.
  destruct (blocks_count rest) as (C1 & C2 & C3).
  remember (length rest / B)%nat as nb eqn:Hnb. pose proof (tail_le m) as Htl. fold t in Htl.
  unfold update, u32. fold c. rewrite Hlen, HBZ.
  rewrite (wrap_small 32 (Z.of_nat (length b))), (wrap_small 32 (_ - Z.of_nat (length t))),
    (wrap_small 32 (_ + Z.of_nat (length b))) by lia.
  replace (if _ <? _ then _ else _) with (Z.of_nat rem)
    by (destruct (Z.ltb_spec (Z.of_nat (length b)) (Z.of_nat B - Z.of_nat (length t))); lia).
  rewrite (proj2 (Z.ltb_ge _ (Z.of_nat B))), (wrap_small 32 (_ - Z.of_nat rem)) by lia.
  replace (Z.of_nat (length b) - Z.of_nat rem) with (Z.of_nat (length rest)) by lia.
  rewrite C1, C3, !Hsh, !Nat2Z.id. fold rest.
  rewrite (load_range_ok b) by lia. cbn [mbind option_bind]. rewrite drop_0.
  rewrite <-(take_drop (length t) (block x)), Hd.
  rewrite <-(take_drop rem (drop _ (block x))).
  rewrite store_range_app; [|done|rewrite !length_take, length_drop; lia].
  cbn [mbind option_bind]. set (z := drop rem _).
  assert (length z = B) as Hz by (unfold z; rewrite !length_drop; lia).
  assert (length (t ++ take rem b) = B) as Hfst by (rewrite length_app, length_take; lia).
  rewrite (transf_blocks _ 1) by (rewrite ?app_assoc, length_app; lia).
  cbn [mbind option_bind blocks fold_left].
  rewrite transf_blocks by nia. cbn [mbind option_bind].
  rewrite (wrap_small 32 (Z.of_nat nb * _)) by nia.
  rewrite load_range_ok by nia. cbn [mbind option_bind].
  replace (Z.to_nat (Z.of_nat nb * Z.of_nat B)) with (B * nb)%nat by lia.
  assert (drop (B * nb) rest = tail B rest) as -> by (by rewrite Hnb). rewrite (take_ge (tail B rest)) by lia.
  pose proof (tail_length B ltac:(lia) rest) as [Hrt _].
  rewrite <-(take_drop (length (tail B rest)) (t ++ take rem b ++ z)).
  change (take (length (tail B rest)) (t ++ take rem b ++ z) ++ drop (length (tail B rest)) (t ++ take rem b ++ z))
    with ([] ++ take (length (tail B rest)) (t ++ take rem b ++ z) ++ drop (length (tail B rest)) (t ++ take rem b ++ z)).
  rewrite store_range_app;
    [|done|rewrite length_take, app_assoc, length_app; lia].
  cbn [mbind option_bind]. eexists. split; [done|].
  split; cbn [tot_len len block h]; rewrite ?E2, ?S2, ?length_app.
  - by apply Forall_app.
  - rewrite E1, S1, fold_left_app, <-Hh, Hnb. cbn [fold_left]. repeat f_equal.
    by rewrite app_nil_l, take_drop, app_assoc, take_app_length'.
  - done.
  - assert (nb ≤ length rest)%nat by nia.
    rewrite Htot, (wrap_small 32 (_ + 1)), (wrap_small 32 (_ * _)) by nia.
    rewrite wrap_small by nia. lia.
  - cbn [app]. rewrite ?length_app, length_drop, !length_app, length_take. cbn [length]. lia.
  - cbn [app]. by rewrite take_app_length.
Qed.

Lemma sha2_update_inv (x : sha_ctx) (m b : list Z) :
  ctx_inv x m → Forall is_byte b → Z.of_nat (length m + length b) < 2 ^ 29 →
  ∃ x', update v x b = Some x' ∧ ctx_inv x' (m ++ b).
Proof using ImplementsV0.
  intros. destruct (decide (length (tail B m) + length b < B)%nat).
  - by apply update_short.
  - apply update_long; [done..|lia|done].
Qed.

(** *** Padding *)

(** The number of blocks [final] closes the message with. *)
Definition last_blocks (r : nat) : nat :=
  if decide (B - FIPS.len_bytes a - 1 < r)%nat then 2 else 1.

(** The bytes of these blocks: the rest of the message, one bit, zeros, the
    bit length. *)
Definition last_bytes (m : list Z) : list Z :=
  let t := tail B m in
  t ++ 0x80 :: replicate (last_blocks (length t) * B - length t - 5) 0 ++
  be_bytes 4 (8 * Z.of_nat (length m)).

Lemma last_room (r : nat) : (r < B)%nat →
  (r + 1 + FIPS.len_bytes a ≤ last_blocks r * B ≤ 2 * B)%nat ∧
  (last_blocks r * B < r + 1 + FIPS.len_bytes a + B)%nat ∧ (5 ≤ FIPS.len_bytes a + 1)%nat.
Proof using ImplementsV0.
  intros Hr. destruct B_facts as (_ & HB & _ & _ & _ & HL).
  pose proof (Nat.Div0.mul_div_le B 2). unfold last_blocks. case_decide; lia.
Qed.

Lemma last_bytes_length (m : list Z) :
  length (last_bytes m) = (last_blocks (length (tail B m)) * B)%nat.
Proof using ImplementsV0.
  destruct B_facts as (_ & HB & _).
  destruct (tail_length B ltac:(lia) m) as [Ht _].
  pose proof (last_room _ Ht). unfold last_bytes.
  rewrite length_app. cbn [length]. rewrite length_app, length_replicate, be_bytes_length. lia.
Qed.

(** The padding of the standard, cut into blocks. *)
Lemma sha2_pad_blocks (m : list Z) :
  8 * Z.of_nat (length m) < 2 ^ 32 →
  all_blocks B (FIPS.pad a m) = all_blocks B m ++ blocks B (last_blocks (length (tail B m))) (last_bytes m).
Proof using ImplementsV0.
  intros Hm. destruct B_facts as (_ & HB & _ & _ & _ & HL).
  destruct (tail_length B ltac:(lia) m) as [Ht Htm].
  destruct (last_room _ Ht) as (H1 & H2 & H3).
  unfold FIPS.pad. fold B.
  match goal with |- all_blocks _ (m ++ ?p) = _ => set (P := p) end.
  destruct (blocks_app B ltac:(lia) m P) as [-> _]. f_equal.
  assert (tail B m ++ P = last_bytes m) as ->.
  { unfold P, last_bytes. set (r := length (tail B m)) in *. cbn [app]. do 2 f_equal.
    replace (FIPS.len_bytes a) with ((FIPS.len_bytes a - 4) + 4)%nat at 2 by lia.
    rewrite be_bytes_zeros by (change (2 ^ (8 * Z.of_nat 4)) with (2 ^ 32); lia).
    rewrite app_assoc, <-replicate_add. do 2 f_equal.
    replace (Z.of_nat B - 1 - Z.of_nat (FIPS.len_bytes a) - Z.of_nat (length m))
      with (Z.of_nat B - 1 - Z.of_nat (FIPS.len_bytes a) - Z.of_nat r +
            - (Z.of_nat (length m) / Z.of_nat B) * Z.of_nat B)
      by (pose proof (Z.div_mod (Z.of_nat (length m)) (Z.of_nat B) ltac:(lia)); lia).
    rewrite Z_mod_plus_full.
    assert (Z.of_nat B - 1 - Z.of_nat (FIPS.len_bytes a) - Z.of_nat r =
      Z.of_nat (last_blocks r * B - r - 1 - FIPS.len_bytes a) +
      (1 - Z.of_nat (last_blocks r)) * Z.of_nat B) as -> by nia.
    rewrite Z_mod_plus_full, Z.mod_small by lia. lia. }
  unfold all_blocks. by rewrite last_bytes_length, Nat.div_mul by lia.
Qed.

Lemma last_bytes_ok (m : list Z) : Forall is_byte m → Forall is_byte (last_bytes m).
Proof.
  intros Hm. unfold last_bytes. apply Forall_app. split; [by apply Forall_drop|].
  constructor; [done|]. apply Forall_app. split; [by apply Forall_replicate|apply be_bytes_ok].
Qed.

(** The three writes of [final] leave these bytes at the front of the block. *)
Lemma final_writes (x : sha_ctx) (m : list Z) :
  ctx_inv x m → 8 * Z.of_nat (length m) < 2 ^ 32 →
  let r := length (tail B m) in let pm := (last_blocks r * B)%nat in
  ∃ d,
   (blk ← store_range (block x) r (replicate (pm - r) 0);
    blk ← store blk r 0x80;
    store_range blk (pm - 4) (UNPACK32 (8 * Z.of_nat (length m)))) = Some (last_bytes m ++ d) ∧
   (pm + length d = 2 * B)%nat.
Proof using ImplementsV0.
  intros [Hm Hh Hlen Htot Hbl Hd] H32. cbv zeta. destruct B_facts as (_ & HB & _).
  destruct (tail_length B ltac:(lia) m) as [Ht _]. unfold last_bytes.
  set (t := tail B m) in *. remember (length t) as r eqn:Hr.
  destruct (last_room r Ht) as (H1 & H2 & H3).
  remember (last_blocks r * B)%nat as pm eqn:Hpm.
  exists (drop (pm - r) (drop r (block x))). split; [|rewrite !length_drop; lia].
  rewrite <-(take_drop r (block x)) at 1. rewrite Hd.
  rewrite <-(take_drop (pm - r) (drop r (block x))) at 1.
  rewrite store_range_app; [|done|rewrite length_take, length_drop, length_replicate; lia].
  cbn [mbind option_bind]. set (z := drop (pm - r) _).
  replace (replicate (pm - r) 0) with (replicate (1 + ((pm - r - 5) + 4)) 0) by (f_equal; lia).
  rewrite replicate_add. cbn [replicate app]. rewrite store_app by done.
  cbn [mbind option_bind]. rewrite UNPACK32_spec, replicate_add, <-app_assoc, app_comm_cons, app_assoc.
  rewrite store_range_app.
  - rewrite <-!app_assoc. cbn [app]. by rewrite <-app_assoc.
  - rewrite length_app. cbn [length]. rewrite length_replicate. lia.
  - by rewrite length_replicate, be_bytes_length.
Qed.

Lemma sha2_final_digest (x : sha_ctx) (m : list Z) :
  ctx_inv x m → Z.of_nat (length m) < 2 ^ 29 →
  ∃ x', final v x = Some (FIPS.sha2 a m, x') ∧ length (block x') = (2 * B)%nat.
Proof using ImplementsV0.
  intros Hi Hmax. destruct B_facts as (_ & HB & HBZ & Hsh & HT & HL).
  destruct (final_writes x m Hi ltac:(lia)) as (d & E & Hld).
  destruct Hi as [Hm Hh Hlen Htot Hbl Hd].
  destruct (tail_length B ltac:(lia) m) as [Ht _]. pose proof (tail_le m) as Htl.
  pose proof (last_bytes_length m) as Hll. pose proof (last_bytes_ok m Hm) as Hlb.
  destruct (last_room _ Ht) as (H1 & H2 & H3).
  unfold final, u32. fold c. rewrite Hlen, HBZ, HT, Htot.
  rewrite (Z.mod_small (Z.of_nat _)) by lia.
  set (r := length (tail B m)) in *.
  replace (1 + Z.b2z _) with (Z.of_nat (last_blocks r)).
  2:{ unfold last_blocks. pose proof (Nat.Div0.mul_div_le B 2).
      destruct (Z.ltb_spec (Z.of_nat B - (Z.of_nat (FIPS.len_bytes a) + 1)) (Z.of_nat r));
        case_decide; simpl; lia. }
  rewrite Hsh, (wrap_small 32 (Z.of_nat (length m - r) + _)) by lia.
  rewrite (wrap_small 32 (Z.of_nat (last_blocks r) * _)) by lia.
  rewrite (wrap_small 32 (_ * _ - _)) by lia.
  rewrite Z.shiftl_mul_pow2, wrap_small by lia.
  replace ((Z.of_nat (length m - r) + Z.of_nat r) * 2 ^ 3) with (8 * Z.of_nat (length m)) by lia.
  replace (Z.to_nat (_ * _ - Z.of_nat r)) with (last_blocks r * B - r)%nat by lia.
  replace (Z.to_nat (_ * _ - 4)) with (last_blocks r * B - 4)%nat by lia.
  rewrite Nat2Z.id. 
  destruct (store_range (block x) r _) as [b1|]; [|done]. cbn [mbind option_bind] in *.
  destruct (store b1 r 128) as [b2|]; [|done]. cbn [mbind option_bind] in *.
  rewrite E. cbn [mbind option_bind].
  rewrite (transf_blocks _ (last_blocks r) (last_bytes m ++ d)) by (rewrite ?length_app; lia). cbn [mbind option_bind].
  eexists. split; [apply (f_equal Some), (f_equal2 pair); [|reflexivity]|cbn [block]; rewrite length_app; lia].
  assert (blocks B (last_blocks r) (last_bytes m ++ d) = blocks B (last_blocks r) (last_bytes m)) as ->.
  { rewrite <-blocks_take, take_app_length'; [done|]. by rewrite Hll. }
  rewrite Hh, <-fold_left_app, <-sha2_pad_blocks by lia.
  destruct (sha2_fold_compress (all_blocks B (FIPS.pad a m)) (FIPS.H0 a)) as [-> _].
  { apply v_state8. }
  { rewrite sha2_pad_blocks by lia. apply Forall_app. split; [by apply all_blocks_Forall; [lia|]|].
    fold r. replace (last_blocks r) with (length (last_bytes m) / B)%nat by (rewrite Hll, Nat.div_mul; lia).
    apply (all_blocks_Forall B); [lia|done]. }
  unfold FIPS.sha2. rewrite (v_out (a := a)).
  apply list_bind_ext; [|done]. intros y. rewrite impl_UNPACK.
  f_equal. rewrite (impl_w8 (c := c)), (Nat.mul_comm 8 (w_bytes c)), Nat.div_mul; lia.
Qed.

(** *** Sequences of updates *)

Lemma sha2_updates_inv (ms : list (list Z)) (x : sha_ctx) (m : list Z) :
  ctx_inv x m → Forall (Forall is_byte) ms → Z.of_nat (length m + length (concat ms)) < 2 ^ 29 →
  ∃ x', updates (update v) x ms = Some x' ∧ ctx_inv x' (m ++ concat ms).
Proof using ImplementsV0.
  unfold updates. revert x m. induction ms as [|b ms IH]; intros x m Hi Hb Hl.
  - exists x. simpl. by rewrite app_nil_r.
  - apply Forall_cons in Hb as [Hb Hbs]. cbn [concat] in *. rewrite length_app in Hl.
    destruct (sha2_update_inv x m b Hi Hb) as (x1 & E & Hi1); [lia|].
    cbn [foldl mbind option_bind]. rewrite E.
    destruct (IH x1 (m ++ b) Hi1 Hbs) as (x2 & E2 & Hi2); [rewrite length_app; lia|].
    exists x2. by rewrite <-app_assoc in Hi2.
Qed.

Lemma stream_digest (x : sha_ctx) (ms : list (list Z)) :
  length (block x) = (2 * B)%nat → Forall (Forall is_byte) ms →
  Z.of_nat (length (concat ms)) < 2 ^ 29 →
  ∃ x', (x ← updates (update v) (init v x) ms; final v x) = Some (FIPS.sha2 a (concat ms), x') ∧
    length (block x') = (2 * B)%nat.
Proof using ImplementsV0.
  intros Hx Hb Hl. destruct (sha2_updates_inv ms (init v x) []) as (x1 & -> & Hi);
    [by apply sha2_init_inv|done..|].
  by apply sha2_final_digest.
Qed.

End stream.

(** ** The four digests *)

Inductive kind := D224 | D256 | D384 | D512.

Definition variant_of (k : kind) : variant :=
  match k with D224 => V224 | D256 => V256 | D384 => V384 | D512 => V512 end.
Definition alg_of (k : kind) : FIPS.alg :=
  match k with
  | D224 => FIPS.SHA224 | D256 => FIPS.SHA256 | D384 => FIPS.SHA384 | D512 => FIPS.SHA512
  end.

(** The functions of a digest, and the size of the block array of its context. *)
Record sha_ops := Ops {
  op_init : sha_ctx → sha_ctx;
  op_update : sha_ctx → list Z → option sha_ctx;
  op_final : sha_ctx → option (list Z * sha_ctx);
  op_digest : sha_ctx → list Z → option (list Z);
  op_array : nat;
}.

Definition ops (k : kind) : sha_ops :=
  match k with
  | D224 => Ops sha224_init sha224_update sha224_final sha224 128
  | D256 => Ops sha256_init sha256_update sha256_final sha256 128
  | D384 => Ops sha384_init sha384_update sha384_final sha384 256
  | D512 => Ops sha512_init sha512_update sha512_final sha512 256
  end.

Lemma ops_variant (k : kind) :
  ops k = Ops (init (variant_of k)) (update (variant_of k)) (final (variant_of k))
              (digest_of (variant_of k)) (2 * FIPS.B (alg_of k)).
Proof. by destruct k. Qed.

Ltac words8 :=
  split; [reflexivity|];
  cbn [sha224_h0 sha256_h0 sha384_h0 sha512_h0 app]; repeat (apply Forall_cons; split); try apply Forall_nil; simpl; lia.

#[export] Instance kind_implements (k : kind) : ImplementsV (variant_of k) (alg_of k).
Proof.
  destruct h0_roots as (E1 & E2 & E3 & E4). destruct k.
  - split; [apply core256_implements|exact E1|reflexivity|]. cbn [alg_of]. rewrite <-E1. words8.
  - split; [apply core256_implements|exact E2|reflexivity|]. cbn [alg_of]. rewrite <-E2. words8.
  - split; [apply core512_implements|exact E3|reflexivity|]. cbn [alg_of]. rewrite <-E3. words8.
  - split; [apply core512_implements|exact E4|reflexivity|]. cbn [alg_of]. rewrite <-E4. words8.
Qed.

Lemma digest_stream (k : kind) (x : sha_ctx) (ms : list (list Z)) :
  length (block x) = op_array (ops k) → Forall (Forall is_byte) ms →
  Z.of_nat (length (concat ms)) < 2 ^ 29 →
  ∃ x', (y ← updates (op_update (ops k)) (op_init (ops k) x) ms; op_final (ops k) y) =
    Some (FIPS.sha2 (alg_of k) (concat ms), x') ∧ length (block x') = op_array (ops k).
Proof. rewrite ops_variant. apply stream_digest, _. Qed.

Lemma digest_one (k : kind) (x : sha_ctx) (m : list Z) :
  length (block x) = op_array (ops k) → Forall is_byte m → Z.of_nat (length m) < 2 ^ 29 →
  op_digest (ops k) x m = Some (FIPS.sha2 (alg_of k) m).
Proof.
  intros Hx Hm Hl. destruct (digest_stream k x [m]) as (x' & E & _); [done|by repeat constructor|by cbn [concat]; rewrite app_nil_r|].
  cbn [concat] in E. rewrite app_nil_r in E. rewrite ops_variant in *. cbn [op_digest op_update op_init op_final] in *.
  unfold digest_of. cbn [updates foldl mbind option_bind] in E. unfold updates in E. cbn [foldl mbind option_bind] in E.
  destruct (update _ _ m) as [y|]; [|done]. cbn [mbind option_bind] in *. by rewrite E.
Qed.

(** ** The theorems *)

(** C9: for SHA-224, SHA-256, SHA-384 and SHA-512, [init], any sequence of
    [update]s and [final] on a context with any old content produce the FIPS 180
    digest of the concatenated pieces, and so does the one-call function,
    without a read or write outside a buffer; the message is shorter than 2^29
    bytes. *)
Theorem sha2_streaming (k : kind) (x : sha_ctx) (ms : list (list Z)) :
  length (block x) = op_array (ops k) → Forall (Forall is_byte) ms →
  Z.of_nat (length (concat ms)) < 2 ^ 29 →
  fst <$> (y ← updates (op_update (ops k)) (op_init (ops k) x) ms; op_final (ops k) y) =
    Some (FIPS.sha2 (alg_of k) (concat ms)) ∧
  op_digest (ops k) x (concat ms) = Some (FIPS.sha2 (alg_of k) (concat ms)).
Proof.
  intros Hx Hb Hl. split.
  - by destruct (digest_stream k x ms Hx Hb Hl) as (x' & -> & _).
  - apply digest_one; [done| |done]. apply Forall_concat. done.
Qed.

Definition stack_ctx (n : nat) : sha_ctx := Ctx 5 77 (replicate n 170) [1; 2].

Lemma sha2_streaming_witness :
  fst <$> (y ← updates sha512_update (sha512_init (stack_ctx 256)) [bytes "a"; []; bytes "bc"];
           sha512_final y) = Some (FIPS.sha2 FIPS.SHA512 (bytes "abc")) ∧
  sha512 (stack_ctx 256) (bytes "abc") = Some (FIPS.sha2 FIPS.SHA512 (bytes "abc")).
Proof.
  apply (sha2_streaming D512 (stack_ctx 256) [bytes "a"; []; bytes "bc"]).
  - reflexivity.
  - repeat constructor; (discriminate || reflexivity).
  - reflexivity.
Defined.

(** The digest of "abc" as the tests of the code give it. *)
Example sha224_abc :
  sha224 (stack_ctx 128) (bytes "abc") = Some
    [0x23;0x09;0x7d;0x22;0x34;0x05;0xd8;0x22;0x86;0x42;0xa4;0x77;0xbd;0xa2;
     0x55;0xb3;0x2a;0xad;0xbc;0xe4;0xbd;0xa0;0xb3;0xf7;0xe3;0x6c;0x9d;0xa7].
Proof. vm_compute. reflexivity. Qed.

Lemma rounds_length (c : core) (w wv : list Z) : length (rounds c w wv) = length wv.
Proof.
  unfold rounds. generalize (seq 0 (n_rounds c)). intros js. revert wv.
  induction js as [|j js IH]; intros wv; [done|]. cbn [fold_left].
  rewrite IH. unfold round_step. by rewrite !length_insert.
Qed.

Lemma transf_unrolled (c : core) (a : FIPS.alg) `{!Implements c a} (hs message : list Z) (nb : Z) :
  length hs = 8%nat →
  transf c (compress_unrolled c) hs message nb = transf c (compress c) hs message nb.
Proof.
  unfold transf. generalize (Z.to_nat (s32 nb)) as n, 0 as i. intros n. revert hs.
  induction n as [|n IH]; intros hs i Hl; [done|]. cbn [transf_loop].
  destruct (sub_block c message i) as [b|]; [|done]. cbn [mbind option_bind].
  rewrite (compress_unrolled_compress c a) by done. apply IH.
  unfold compress, add_words. rewrite length_zip_with, rounds_length. lia.
Qed.

(** The UNROLL_LOOPS build of [sha256_transf] and [sha512_transf], which
    rotates the indices of the macro calls, computes what the loop build does,
    on every state, message and block count. *)
Theorem unroll_loops_agrees (hs message : list Z) (block_nb : Z) :
  length hs = 8%nat →
  sha256_transf_unrolled hs message block_nb = sha256_transf hs message block_nb ∧
  sha512_transf_unrolled hs message block_nb = sha512_transf hs message block_nb.
Proof.
  intros Hl. split.
  - by apply (transf_unrolled core256 (FIPS.alg256 [] 8)).
  - by apply (transf_unrolled core512 (FIPS.alg512 [] 8)).
Qed.

Lemma unroll_loops_agrees_witness :
  sha256_transf_unrolled sha256_h0 (replicate 128 7) 2 = sha256_transf sha256_h0 (replicate 128 7) 2 ∧
  sha512_transf_unrolled sha256_h0 (replicate 128 7) 2 = sha512_transf sha256_h0 (replicate 128 7) 2.
Proof. apply unroll_loops_agrees. reflexivity. Defined.
