(* ===== verification/HmacSha2.v ===== *)
(** * HMAC-SHA-2 (hmac/hmac/hmac_sha2.c, hmac_sha2.h)

    The keyed context with its four hash contexts and two pads, and [init],
    [reinit], [update], [final] and the one-call function for the four digests
    of [Sha2].  The theorem is RFC 2104 for a key of any size, messages given in
    pieces, and a second message after [reinit]. *)

From S2P Require Import Prelude Blocks Sha2.

(** ** The code *)

(** [hmac_sha224_ctx] and the like. *)
Record hmac_ctx := Hctx {
  ctx_inside : sha_ctx;
  ctx_outside : sha_ctx;
  ctx_inside_reinit : sha_ctx;
  ctx_outside_reinit : sha_ctx;
  block_ipad : list Z;
  block_opad : list Z;
}.

Section hmac.
Context (k : kind).

Definition HBLOCK_SIZE : Z := BLOCK_SIZE (v_core (variant_of k)).
Definition DIGEST_SIZE : Z :=
  match k with D224 => 224 / 8 | D256 => 256 / 8 | D384 => 384 / 8 | D512 => 512 / 8 end.

(** [for (i = 0; i < (int) num; i++)]: the key bytes into the two pads. *)
Fixpoint xor_key (n i : nat) (key_used ipad opad : list Z) : option (list Z * list Z) :=
  match n with
  | O => Some (ipad, opad)
  | S n =>
    kb ← load key_used i;
    ipad ← store ipad i (Z.lxor kb 0x36);
    opad ← store opad i (Z.lxor kb 0x5c);
    xor_key n (S i) key_used ipad opad
  end.

(** The key as it is used, its size, and the pads with the rest filled;
    [tmp] is the uninitialised local of the hash of a long key. *)
Definition key_setup (tmp : sha_ctx) (x : hmac_ctx) (key : list Z)
    : option (list Z * Z * list Z * list Z) :=
  let key_size := u32 (Z.of_nat (length key)) in
  if key_size =? HBLOCK_SIZE then Some (key, HBLOCK_SIZE, block_ipad x, block_opad x)
  else
    '(key_used, num) ←
      (if HBLOCK_SIZE <? key_size then
         key_temp ← op_digest (ops k) tmp key; Some (key_temp, DIGEST_SIZE)
       else Some (key, key_size));
    let fill := Z.to_nat (u32 (HBLOCK_SIZE - num)) in
    ipad ← store_range (block_ipad x) (Z.to_nat num) (replicate fill 0x36);
    opad ← store_range (block_opad x) (Z.to_nat num) (replicate fill 0x5c);
    Some (key_used, num, ipad, opad).

Definition hmac_init (tmp : sha_ctx) (x : hmac_ctx) (key : list Z) : option hmac_ctx :=
  '(key_used, num, ipad, opad) ← key_setup tmp x key;
  '(ipad, opad) ← xor_key (Z.to_nat (s32 num)) 0 key_used ipad opad;
  ib ← load_range ipad 0 (Z.to_nat HBLOCK_SIZE);
  inside ← op_update (ops k) (op_init (ops k) (ctx_inside x)) ib;
  ob ← load_range opad 0 (Z.to_nat HBLOCK_SIZE);
  outside ← op_update (ops k) (op_init (ops k) (ctx_outside x)) ob;
  Some (Hctx inside outside inside outside ipad opad).

Definition hmac_reinit (x : hmac_ctx) : hmac_ctx :=
  Hctx (ctx_inside_reinit x) (ctx_outside_reinit x) (ctx_inside_reinit x)
       (ctx_outside_reinit x) (block_ipad x) (block_opad x).

Definition hmac_update (x : hmac_ctx) (message : list Z) : option hmac_ctx :=
  inside ← op_update (ops k) (ctx_inside x) message;
  Some (Hctx inside (ctx_outside x) (ctx_inside_reinit x) (ctx_outside_reinit x)
             (block_ipad x) (block_opad x)).

(** [mac] is the buffer of the caller; [mac_size] bytes of it are written. *)
Definition hmac_final (x : hmac_ctx) (mac : list Z) (mac_size : nat) : option (list Z * hmac_ctx) :=
  '(digest_inside, inside) ← op_final (ops k) (ctx_inside x);
  outside ← op_update (ops k) (ctx_outside x) digest_inside;
  '(mac_temp, outside) ← op_final (ops k) outside;
  src ← load_range mac_temp 0 mac_size;
  mac ← store_range mac 0 src;
  Some (mac, Hctx inside outside (ctx_inside_reinit x) (ctx_outside_reinit x)
                  (block_ipad x) (block_opad x)).

(** [ctx] and [tmp] are uninitialised locals. *)
Definition hmac (tmp : sha_ctx) (ctx : hmac_ctx) (key message mac : list Z) (mac_size : nat)
    : option (list Z) :=
  x ← hmac_init tmp ctx key;
  x ← hmac_update x message;
  fst <$> hmac_final x mac mac_size.

End hmac.

Definition hmac_sha224_init : sha_ctx → hmac_ctx → list Z → option hmac_ctx := hmac_init D224.
Definition hmac_sha224_reinit : hmac_ctx → hmac_ctx := hmac_reinit.
Definition hmac_sha224_update : hmac_ctx → list Z → option hmac_ctx := hmac_update D224.
Definition hmac_sha224_final : hmac_ctx → list Z → nat → option (list Z * hmac_ctx) := hmac_final D224.
Definition hmac_sha224 : sha_ctx → hmac_ctx → list Z → list Z → list Z → nat → option (list Z) :=
  hmac D224.

Definition hmac_sha256_init : sha_ctx → hmac_ctx → list Z → option hmac_ctx := hmac_init D256.
Definition hmac_sha256_reinit : hmac_ctx → hmac_ctx := hmac_reinit.
Definition hmac_sha256_update : hmac_ctx → list Z → option hmac_ctx := hmac_update D256.
Definition hmac_sha256_final : hmac_ctx → list Z → nat → option (list Z * hmac_ctx) := hmac_final D256.
Definition hmac_sha256 : sha_ctx → hmac_ctx → list Z → list Z → list Z → nat → option (list Z) :=
  hmac D256.

Definition hmac_sha384_init : sha_ctx → hmac_ctx → list Z → option hmac_ctx := hmac_init D384.
Definition hmac_sha384_reinit : hmac_ctx → hmac_ctx := hmac_reinit.
Definition hmac_sha384_update : hmac_ctx → list Z → option hmac_ctx := hmac_update D384.
Definition hmac_sha384_final : hmac_ctx → list Z → nat → option (list Z * hmac_ctx) := hmac_final D384.
Definition hmac_sha384 : sha_ctx → hmac_ctx → list Z → list Z → list Z → nat → option (list Z) :=
  hmac D384.

Definition hmac_sha512_init : sha_ctx → hmac_ctx → list Z → option hmac_ctx := hmac_init D512.
Definition hmac_sha512_reinit : hmac_ctx → hmac_ctx := hmac_reinit.
Definition hmac_sha512_update : hmac_ctx → list Z → option hmac_ctx := hmac_update D512.
Definition hmac_sha512_final : hmac_ctx → list Z → nat → option (list Z * hmac_ctx) := hmac_final D512.
Definition hmac_sha512 : sha_ctx → hmac_ctx → list Z → list Z → list Z → nat → option (list Z) :=
  hmac D512.

(** The functions of a digest. *)
Record hmac_ops := Hops {
  hop_init : sha_ctx → hmac_ctx → list Z → option hmac_ctx;
  hop_reinit : hmac_ctx → hmac_ctx;
  hop_update : hmac_ctx → list Z → option hmac_ctx;
  hop_final : hmac_ctx → list Z → nat → option (list Z * hmac_ctx);
  hop_mac : sha_ctx → hmac_ctx → list Z → list Z → list Z → nat → option (list Z);
}.

Definition hops (k : kind) : hmac_ops :=
  match k with
  | D224 => Hops hmac_sha224_init hmac_sha224_reinit hmac_sha224_update hmac_sha224_final hmac_sha224
  | D256 => Hops hmac_sha256_init hmac_sha256_reinit hmac_sha256_update hmac_sha256_final hmac_sha256
  | D384 => Hops hmac_sha384_init hmac_sha384_reinit hmac_sha384_update hmac_sha384_final hmac_sha384
  | D512 => Hops hmac_sha512_init hmac_sha512_reinit hmac_sha512_update hmac_sha512_final hmac_sha512
  end.

Lemma hops_kind (k : kind) :
  hops k = Hops (hmac_init k) hmac_reinit (hmac_update k) (hmac_final k) (hmac k).
Proof. by destruct k. Qed.

(** ** Specification (RFC 2104) *)

Module RFC2104.
Section spec.
Context (a : FIPS.alg).

(** A key longer than a block is hashed first; zeros fill the block. *)
Definition K0 (key : list Z) : list Z :=
  let k := if decide (FIPS.B a < length key)%nat then FIPS.sha2 a key else key in
  k ++ replicate (FIPS.B a - length k) 0.

Definition pad (c : Z) (key : list Z) : list Z := (λ b, Z.lxor b c) <$> K0 key.

Definition HMAC (key text : list Z) : list Z :=
  FIPS.sha2 a (pad 0x5c key ++ FIPS.sha2 a (pad 0x36 key ++ text)).
End spec.
End RFC2104.

(** ** The pads *)

(** The loop with the bytes before [i] done, on pads long enough. *)
Lemma xor_key_spec (key : list Z) : ∀ n i p q zp zq,
  length p = i → length q = i → (n + i = length key)%nat → (n ≤ length zp)%nat → (n ≤ length zq)%nat →
  xor_key n i key (p ++ zp) (q ++ zq) =
    Some (p ++ ((λ b, Z.lxor b 0x36) <$> drop i key) ++ drop n zp,
          q ++ ((λ b, Z.lxor b 0x5c) <$> drop i key) ++ drop n zq).
Proof.
  induction n as [|n IH]; intros i p q zp zq Hp Hq Hn Hzp Hzq.
  - rewrite (drop_ge key) by lia. by rewrite !drop_0.
  - destruct zp as [|z1 zp]; [simpl in Hzp; lia|]. destruct zq as [|z2 zq]; [simpl in Hzq; lia|].
    destruct (lookup_lt_is_Some_2 key i) as [kb Hkb]; [lia|].
    cbn [xor_key]. unfold load. rewrite Hkb. cbn [mbind option_bind].
    rewrite !store_app by done. cbn [mbind option_bind].
    rewrite !(cons_middle _ _ zp), !(cons_middle _ _ zq), !(app_assoc _ [_]).
    simpl in Hzp, Hzq. rewrite IH by (rewrite ?length_app; simpl; lia).
    rewrite (drop_S _ _ _ Hkb). cbn [fmap list_fmap drop]. by rewrite <-!app_assoc.
Qed.

Section proofs.
Context (k : kind).
Let a : FIPS.alg := alg_of k.
Let B : nat := FIPS.B a.

Lemma block_facts : HBLOCK_SIZE k = Z.of_nat B ∧ (B = 64 ∨ B = 128)%nat ∧
  op_array (ops k) = (2 * B)%nat ∧ 0 < DIGEST_SIZE k < Z.of_nat B.
Proof. unfold B, a. destruct k; repeat split; auto. Qed.

Lemma sha2_length (m : list Z) : Z.of_nat (length (FIPS.sha2 a m)) = DIGEST_SIZE k.
Proof.
  assert (∀ hs bs, length hs = 8%nat → length (fold_left (FIPS.process a) bs hs) = 8%nat) as Hf.
  { intros hs bs. revert hs. induction bs as [|b bs IH]; intros hs Hl; [done|]. apply IH.
    unfold FIPS.process. rewrite length_zip_with.
    assert (∀ ts v, length v = 8%nat →
      length (fold_left (FIPS.step a (FIPS.W a b (FIPS.n_rounds a))) ts v) = 8%nat) as Hs;
      [|rewrite Hs; lia].
    intros ts. induction ts as [|t ts IHt]; intros v Hv; [done|]. apply IHt.
    do 8 (destruct v as [|? v]; [done|]). by destruct v. }
  assert (∀ n l, length (l ≫= be_bytes n) = (n * length l)%nat) as Hb.
  { intros n l. induction l as [|y l IH]; [simpl; lia|].
    rewrite bind_cons, length_app, IH, be_bytes_length. simpl. lia. }
  unfold FIPS.sha2. rewrite Hb, length_take, Hf.
  - unfold a. by destruct k.
  - unfold a. pose proof (v_state8 (v := variant_of k) (a := alg_of k)) as [H _]. exact H.
Qed.

Lemma sha2_bytes (m : list Z) : Forall is_byte (FIPS.sha2 a m).
Proof.
  unfold FIPS.sha2. apply Forall_bind, Forall_true. intros x. apply be_bytes_ok.
Qed.

(** The bytes of the key that are used. *)
Definition used (key : list Z) : list Z :=
  if decide (B < length key)%nat then FIPS.sha2 a key else key.

(** [memset(pad + num, c, fill)]. *)
Lemma fill_spec (kb pad : list Z) (c : Z) :
  length pad = B → (length kb ≤ B)%nat → ∃ pad',
    store_range pad (Z.to_nat (Z.of_nat (length kb)))
      (replicate (Z.to_nat (u32 (Z.of_nat B - Z.of_nat (length kb)))) c) = Some pad' ∧
    drop (length kb) pad' = replicate (B - length kb) c ∧ length pad' = B.
Proof.
  intros Hp Hkb. destruct block_facts as (_ & HB & _). unfold u32.
  rewrite wrap_small, Nat2Z.id by lia.
  replace (Z.to_nat (Z.of_nat B - Z.of_nat (length kb))) with (B - length kb)%nat by lia.
  unfold store_range. rewrite length_replicate, decide_True by lia. eexists. split; [done|].
  rewrite (drop_ge pad), app_nil_r by lia.
  split; [|rewrite length_app, length_take, length_replicate; lia].
  rewrite drop_app_length'; [done|]. rewrite length_take. lia.
Qed.

(** The loop over the key on pads that are filled behind it. *)
Lemma xor_pads (key ip op : list Z) :
  let kb := used key in (length kb ≤ B)%nat →
  drop (length kb) ip = replicate (B - length kb) 0x36 → length ip = B →
  drop (length kb) op = replicate (B - length kb) 0x5c → length op = B →
  xor_key (Z.to_nat (s32 (Z.of_nat (length kb)))) 0 kb ip op =
    Some (RFC2104.pad a 0x36 key, RFC2104.pad a 0x5c key).
Proof.
  cbv zeta. remember (used key) as kb eqn:Hkey. intros Hkb Hip Hlip Hop Hlop.
  destruct block_facts as (_ & HB & _). unfold s32.
  rewrite swrap_small, Nat2Z.id by lia.
  rewrite <-(app_nil_l ip), <-(app_nil_l op), (xor_key_spec kb) by (cbn [length app]; lia).
  rewrite Hip, Hop, drop_0. unfold RFC2104.pad, RFC2104.K0. fold B. fold (used key). rewrite <-Hkey.
  by rewrite !fmap_app, !fmap_replicate.
Qed.

(** The two pads after the setup and the loop. *)
Lemma pads_spec (tmp : sha_ctx) (x : hmac_ctx) (key : list Z) :
  length (block tmp) = op_array (ops k) → length (block_ipad x) = B → length (block_opad x) = B →
  Forall is_byte key → Z.of_nat (length key) < 2 ^ 29 →
  ∃ num ip op, key_setup k tmp x key = Some (used key, num, ip, op) ∧
    xor_key (Z.to_nat (s32 num)) 0 (used key) ip op =
      Some (RFC2104.pad a 0x36 key, RFC2104.pad a 0x5c key).
Proof.
  intros Ht Hi Ho Hk Hl. destruct block_facts as (HB & HB' & _ & HD).
  pose proof (xor_pads key) as Hxor. cbv zeta in Hxor.
  unfold key_setup. rewrite HB. replace (u32 (Z.of_nat (length key))) with (Z.of_nat (length key))
    by (symmetry; apply wrap_small; lia).
  destruct (Z.eqb_spec (Z.of_nat (length key)) (Z.of_nat B)) as [E|E].
  { assert (used key = key) as Hu by (unfold used; by rewrite decide_False by lia).
    rewrite Hu in *. do 3 eexists. split; [done|]. rewrite <-E.
    replace (B - length key)%nat with 0%nat in Hxor by lia.
    apply Hxor; rewrite ?drop_ge by lia; (lia || done). }
  assert ((if Z.of_nat B <? Z.of_nat (length key)
           then key_temp ← op_digest (ops k) tmp key; Some (key_temp, DIGEST_SIZE k)
           else Some (key, Z.of_nat (length key))) = Some (used key, Z.of_nat (length (used key))) ∧
          (length (used key) ≤ B)%nat) as [-> Hu].
  { unfold used. pose proof (sha2_length key) as Hs.
    destruct (Z.ltb_spec (Z.of_nat B) (Z.of_nat (length key))).
    - rewrite (digest_one k), decide_True by (done || lia). cbn [mbind option_bind]. fold a.
      rewrite Hs. split; [done|lia].
    - rewrite decide_False by lia. split; [done|lia]. }
  cbn [mbind option_bind].
  destruct (fill_spec (used key) (block_ipad x) 0x36 Hi Hu) as (ip & E1 & D1 & L1).
  destruct (fill_spec (used key) (block_opad x) 0x5c Ho Hu) as (op & E2 & D2 & L2).
  rewrite E1. cbn [mbind option_bind]. rewrite E2. cbn [mbind option_bind].
  do 3 eexists. split; [done|]. by apply Hxor.
Qed.

(** ** The contexts *)

Context (key : list Z).

Abbreviation ipad := (RFC2104.pad a 0x36 key).
Abbreviation opad := (RFC2104.pad a 0x5c key).
Abbreviation holds := (ctx_inv (variant_of k) a).

(** The context of [key] after the bytes [text]. *)
Record keyed (x : hmac_ctx) (text : list Z) : Prop := {
  keyed_inside : holds (ctx_inside x) (ipad ++ text);
  keyed_outside : holds (ctx_outside x) opad;
  keyed_inside_reinit : holds (ctx_inside_reinit x) ipad;
  keyed_outside_reinit : holds (ctx_outside_reinit x) opad;
}.

(** A context with the arrays the C types give it. *)
Definition hmac_ctx_ok (x : hmac_ctx) : Prop :=
  length (block (ctx_inside x)) = op_array (ops k) ∧
  length (block (ctx_outside x)) = op_array (ops k) ∧
  length (block_ipad x) = B ∧ length (block_opad x) = B.

Lemma pad_ok (c : Z) : is_byte c → Forall is_byte key →
  Forall is_byte (RFC2104.pad a c key) ∧ length (RFC2104.pad a c key) = B.
Proof.
  intros Hc Hk. destruct block_facts as (_ & _ & _ & HD). unfold RFC2104.pad, RFC2104.K0. fold B.
  assert (Forall is_byte (if decide (B < length key)%nat then FIPS.sha2 a key else key) ∧
    (length (if decide (B < length key)%nat then FIPS.sha2 a key else key) ≤ B)%nat) as [H1 H2].
  { pose proof (sha2_length key). case_decide; split; [apply sha2_bytes|lia|done|lia]. }
  split.
  - apply Forall_fmap, Forall_app. split.
    + eapply Forall_impl; [exact H1|]. intros b Hb. by apply lxor_byte.
    + apply Forall_replicate. by apply lxor_byte.
  - rewrite length_fmap, length_app, length_replicate. lia.
Qed.

Lemma op_update_inv (x : sha_ctx) (m b : list Z) :
  holds x m → Forall is_byte b → Z.of_nat (length m + length b) < 2 ^ 29 →
  ∃ x', op_update (ops k) x b = Some x' ∧ holds x' (m ++ b).
Proof. rewrite ops_variant. apply sha2_update_inv, _. Qed.

Lemma op_init_inv (x : sha_ctx) :
  length (block x) = op_array (ops k) → holds (op_init (ops k) x) [].
Proof. rewrite ops_variant. apply sha2_init_inv, _. Qed.

Lemma op_final_digest (x : sha_ctx) (m : list Z) :
  holds x m → Z.of_nat (length m) < 2 ^ 29 →
  ∃ x', op_final (ops k) x = Some (FIPS.sha2 a m, x').
Proof.
  rewrite ops_variant. intros Hx Hm.
  destruct (sha2_final_digest (variant_of k) a x m Hx Hm) as (x' & E & _). by exists x'.
Qed.

Lemma hmac_init_keyed (tmp : sha_ctx) (x : hmac_ctx) :
  length (block tmp) = op_array (ops k) → hmac_ctx_ok x →
  Forall is_byte key → Z.of_nat (length key) < 2 ^ 29 →
  ∃ x', hmac_init k tmp x key = Some x' ∧ keyed x' [].
Proof.
  intros Ht (Hin & Hout & Hi & Ho) Hk Hl. destruct block_facts as (HB & HB' & _).
  destruct (pads_spec tmp x key Ht Hi Ho Hk Hl) as (num & ip & op & E1 & E2).
  destruct (pad_ok 0x36 ltac:(done) Hk) as [Bi Li]. destruct (pad_ok 0x5c ltac:(done) Hk) as [Bo Lo].
  unfold hmac_init. rewrite E1. cbn [mbind option_bind]. rewrite E2. cbn [mbind option_bind].
  rewrite HB, Nat2Z.id.
  destruct (op_update_inv _ _ _ (op_init_inv _ Hin) Bi) as (xi & Ei & Hxi); [simpl; lia|].
  destruct (op_update_inv _ _ _ (op_init_inv _ Hout) Bo) as (xo & Eo & Hxo); [simpl; lia|].
  rewrite !load_range_ok, !drop_0, !take_ge by lia. cbn [mbind option_bind].
  rewrite Ei. cbn [mbind option_bind]. rewrite Eo. cbn [mbind option_bind].
  eexists. split; [done|]. split; cbn [ctx_inside ctx_outside ctx_inside_reinit ctx_outside_reinit];
    rewrite ?app_nil_r; done.
Qed.

Lemma hmac_update_keyed (x : hmac_ctx) (text m : list Z) :
  keyed x text → Forall is_byte key → Forall is_byte m →
  Z.of_nat (B + length text + length m) < 2 ^ 29 →
  ∃ x', hmac_update k x m = Some x' ∧ keyed x' (text ++ m).
Proof.
  intros [Hi Ho Hir Hor] Hk Hm Hl. destruct (pad_ok 0x36 ltac:(done) Hk) as [_ Li].
  destruct (op_update_inv _ _ m Hi Hm) as (x' & E & Hx'); [rewrite length_app; lia|].
  unfold hmac_update. rewrite E. cbn [mbind option_bind]. eexists. split; [done|].
  rewrite <-app_assoc in Hx'. by split.
Qed.

(** Pieces of a text given one after the other. *)
Definition hupdates (upd : hmac_ctx → list Z → option hmac_ctx) (x : hmac_ctx) (ms : list (list Z))
    : option hmac_ctx :=
  foldl (λ r m, r ≫= λ x, upd x m) (Some x) ms.

Lemma hupdates_keyed (ms : list (list Z)) (x : hmac_ctx) (text : list Z) :
  keyed x text → Forall is_byte key → Forall (Forall is_byte) ms →
  Z.of_nat (B + length text + length (concat ms)) < 2 ^ 29 →
  ∃ x', hupdates (hmac_update k) x ms = Some x' ∧ keyed x' (text ++ concat ms).
Proof.
  unfold hupdates. revert x text. induction ms as [|b ms IH]; intros x text Hx Hk Hb Hl.
  - exists x. cbn [concat]. by rewrite app_nil_r.
  - apply Forall_cons in Hb as [Hb Hbs]. cbn [concat] in *. rewrite length_app in Hl.
    destruct (hmac_update_keyed x text b Hx Hk Hb) as (x1 & E & Hx1); [lia|].
    cbn [foldl mbind option_bind]. rewrite E.
    destruct (IH x1 (text ++ b) Hx1 Hk Hbs) as (x2 & E2 & Hx2); [rewrite length_app; lia|].
    exists x2. by rewrite <-app_assoc in Hx2.
Qed.

(** [mac_size] bytes of the code at the front of the buffer. *)
Definition mac_of (mac : list Z) (mac_size : nat) (text : list Z) : list Z :=
  take mac_size (RFC2104.HMAC a key text) ++ drop mac_size mac.

Lemma hmac_final_keyed (x : hmac_ctx) (text mac : list Z) (mac_size : nat) :
  keyed x text → Forall is_byte key → Z.of_nat (B + length text) < 2 ^ 29 →
  Z.of_nat mac_size ≤ DIGEST_SIZE k → (mac_size ≤ length mac)%nat →
  ∃ x', hmac_final k x mac mac_size = Some (mac_of mac mac_size text, x') ∧
    keyed (hmac_reinit x') [].
Proof.
  intros [Hi Ho Hir Hor] Hk Hl Hs Hm. destruct block_facts as (_ & HB & _ & HD).
  destruct (pad_ok 0x36 ltac:(done) Hk) as [_ Li]. destruct (pad_ok 0x5c ltac:(done) Hk) as [_ Lo].
  destruct (op_final_digest _ _ Hi) as (xi & Ei); [rewrite length_app; lia|].
  set (d := FIPS.sha2 a (ipad ++ text)) in *.
  pose proof (sha2_length (ipad ++ text)) as Hd. fold d in Hd.
  destruct (op_update_inv _ _ d Ho) as (xo & Eo & Hxo); [apply sha2_bytes|lia|].
  destruct (op_final_digest _ _ Hxo) as (xf & Ef); [rewrite length_app; lia|].
  pose proof (sha2_length (opad ++ d)) as Hf.
  unfold hmac_final. rewrite Ei. cbn [mbind option_bind]. rewrite Eo. cbn [mbind option_bind].
  rewrite Ef. cbn [mbind option_bind]. rewrite load_range_ok, drop_0 by lia.
  cbn [mbind option_bind]. unfold store_range.
  rewrite length_take, decide_True by lia. cbn [mbind option_bind].
  eexists. split.
  - unfold mac_of, RFC2104.HMAC. fold d. rewrite take_0, Nat.min_l by lia. reflexivity.
  - unfold hmac_reinit. cbn [ctx_inside_reinit ctx_outside_reinit].
    split; cbn [ctx_inside ctx_outside ctx_inside_reinit ctx_outside_reinit]; rewrite ?app_nil_r; done.
Qed.

End proofs.

(** ** The theorem *)

(** C19: for the four digests, a key of any size and a context with any old
    content, [init], any sequence of [update]s and [final] write the first
    [mac_size] bytes of the RFC 2104 code of the concatenated pieces; after
    [reinit] the same context authenticates a second message under the same key;
    and the one-call function computes the same code. *)
Theorem hmac_sha2_rfc2104 (k : kind) (tmp : sha_ctx) (x0 : hmac_ctx) (key : list Z)
    (ms1 ms2 : list (list Z)) (mac : list Z) (mac_size : nat) :
  length (block tmp) = op_array (ops k) → hmac_ctx_ok k x0 →
  Forall is_byte key → Z.of_nat (length key) < 2 ^ 29 →
  Forall (Forall is_byte) ms1 → Z.of_nat (length (concat ms1)) < 2 ^ 28 →
  Forall (Forall is_byte) ms2 → Z.of_nat (length (concat ms2)) < 2 ^ 28 →
  Z.of_nat mac_size ≤ DIGEST_SIZE k → (mac_size ≤ length mac)%nat →
  ∃ x1 x2,
    (x ← hop_init (hops k) tmp x0 key; x ← hupdates (hop_update (hops k)) x ms1;
     hop_final (hops k) x mac mac_size) = Some (mac_of k key mac mac_size (concat ms1), x1) ∧
    (x ← hupdates (hop_update (hops k)) (hop_reinit (hops k) x1) ms2;
     hop_final (hops k) x mac mac_size) = Some (mac_of k key mac mac_size (concat ms2), x2) ∧
    hop_mac (hops k) tmp x0 key (concat ms1) mac mac_size =
      Some (mac_of k key mac mac_size (concat ms1)).
Proof.
  intros Ht Hx0 Hk Hkl Hb1 Hl1 Hb2 Hl2 Hs Hm. rewrite hops_kind.
  cbn [hop_init hop_reinit hop_update hop_final hop_mac].
  destruct (block_facts k) as (_ & HB & _).
  destruct (hmac_init_keyed k key tmp x0 Ht Hx0 Hk Hkl) as (x & Ei & Kx).
  destruct (hupdates_keyed k key ms1 x [] Kx Hk Hb1) as (y & Eu & Ky); [simpl; lia|].
  destruct (hmac_final_keyed k key y _ mac mac_size Ky Hk) as (x1 & Ef & Kr); [simpl; lia|done..|].
  destruct (hupdates_keyed k key ms2 _ [] Kr Hk Hb2) as (y2 & Eu2 & Ky2); [simpl; lia|].
  destruct (hmac_final_keyed k key y2 _ mac mac_size Ky2 Hk) as (x2 & Ef2 & _); [simpl; lia|done..|].
  exists x1, x2. rewrite Ei. cbn [mbind option_bind]. rewrite Eu, Eu2. cbn [mbind option_bind].
  split; [done|split; [done|]]. unfold hmac. rewrite Ei. cbn [mbind option_bind].
  destruct (hmac_update_keyed k key x [] (concat ms1) Kx Hk) as (z & Ez & Kz);
    [by apply Forall_concat|simpl; lia|].
  rewrite Ez. cbn [mbind option_bind].
  destruct (hmac_final_keyed k key z _ mac mac_size Kz Hk) as (x3 & -> & _); [simpl; lia|done..|].
  done.
Qed.

Definition stack_hctx (n b : nat) : hmac_ctx :=
  Hctx (stack_ctx n) (stack_ctx n) (stack_ctx n) (stack_ctx n) (replicate b 9) (replicate b 8).

Lemma hmac_sha2_rfc2104_witness :
  let key := bytes "Jefe" in let mac := replicate 20 1 in
  let ms1 := [bytes "what do ya "; bytes "want"] in let ms2 := [bytes "for nothing?"] in
  ∃ x1 x2,
    (x ← hop_init (hops D256) (stack_ctx 128) (stack_hctx 128 64) key;
     x ← hupdates (hop_update (hops D256)) x ms1;
     hop_final (hops D256) x mac 16) = Some (mac_of D256 key mac 16 (concat ms1), x1) ∧
    (x ← hupdates (hop_update (hops D256)) (hop_reinit (hops D256) x1) ms2;
     hop_final (hops D256) x mac 16) = Some (mac_of D256 key mac 16 (concat ms2), x2) ∧
    hop_mac (hops D256) (stack_ctx 128) (stack_hctx 128 64) key (concat ms1) mac 16 =
      Some (mac_of D256 key mac 16 (concat ms1)).
Proof.
  intros key mac ms1 ms2. apply hmac_sha2_rfc2104.
  - reflexivity.
  - repeat split.
  - repeat constructor; (discriminate || reflexivity).
  - reflexivity.
  - repeat constructor; (discriminate || reflexivity).
  - reflexivity.
  - repeat constructor; (discriminate || reflexivity).
  - reflexivity.
  - discriminate.
  - simpl. lia.
Defined.

(** The second test vector of the code's test program. *)
Example hmac_sha224_jefe :
  hmac_sha224 (stack_ctx 128) (stack_hctx 128 64) (bytes "Jefe") (bytes "what do ya want for nothing?")
    (replicate 28 0) 28 = Some
    [0xa3;0x0e;0x01;0x09;0x8b;0xc6;0xdb;0xbf;0x45;0x69;0x0f;0x3a;0x7e;0x9e;
     0x6d;0x0f;0x8b;0xbe;0xa2;0xa3;0x9e;0x61;0x48;0x00;0x8f;0xd0;0x5e;0x44].
Proof. vm_compute. reflexivity. Qed.
