(* ===== verification/Hotp.v ===== *)
(** * The HOTP generator (hotp/generate_hotp.c)

    [calcChecksum] (the credit card checksum), [myitoa] and [generateOTP].
    Strings are their bytes without the terminating NUL; the caller's [result] is
    a block of bytes.  A table read out of range, or a write past the end of
    [result], has no result. *)

From S2P Require Import Prelude Sha1 Hmac.

(** ** The code *)

Definition doubleDigits : list Z := [0; 2; 4; 6; 8; 1; 3; 5; 7; 9].

Definition DIGITS_POWER : list Z :=
  [1; 10; 100; 1000; 10000; 100000; 1000000; 10000000; 100000000].

(** [while (0 < digits--)] *)
Fixpoint checksum_loop (digits : nat) (num total : Z) (doubleDigit : bool) : option Z :=
  match digits with
  | O => Some total
  | S digits =>
    let digit := Z.rem num 10 in
    let num := Z.quot num 10 in
    digit ← (if doubleDigit then get doubleDigits digit else Some digit);
    checksum_loop digits num (total + digit) (negb doubleDigit)
  end.

Definition calcChecksum (num digits : Z) : option Z :=
  total ← checksum_loop (Z.to_nat digits) num 0 true;
  let result := Z.rem total 10 in
  Some (if 0 <? result then 10 - result else result).

Definition szMap : list Z := bytes "0123456789abcdefghijklmnopqrstuvwxyz".

(** The [do ... while (nValue > 0)] loop: the digits, lowest first. *)
Fixpoint itoa_digits (fuel : nat) (nValue radix : Z) (pStr : list Z) : option (list Z) :=
  match fuel with
  | O => None
  | S fuel =>
    c ← get szMap (nValue mod radix);
    let pStr := pStr ++ [c] in
    let nValue := nValue / radix in
    if 0 <? nValue then itoa_digits fuel nValue radix pStr else Some pStr
  end.

(** The swap of [pStr[nIndex]] and [pStr[nCount - nIndex]]. *)
Definition itoa_swap (pStr : list Z) (nIndex nCount : nat) : list Z :=
  let nTemp := pStr !!! nIndex in
  let pStr := <[nIndex := pStr !!! (nCount - nIndex)%nat]> pStr in
  <[(nCount - nIndex)%nat := nTemp]> pStr.

(** [while (nIndex-- > 0)] *)
Fixpoint itoa_reverse (nIndex nCount : nat) (pStr : list Z) : list Z :=
  match nIndex with
  | O => pStr
  | S nIndex => itoa_reverse nIndex nCount (itoa_swap pStr nIndex nCount)
  end.

(** The text left in [str]; [value] is an [int].  An [unsigned] of 32 bits has
    at most 32 digits. *)
Definition myitoa (value radix : Z) : option (list Z) :=
  if (2 <=? radix) && (radix <=? 36) then
    let neg := (value <? 0) && (radix =? 10) in
    let value := if neg then s32 (- value) else value in
    ds ← itoa_digits 32 (u32 value) radix [];
    let ds := itoa_reverse (length ds / 2) (length ds - 1) ds in
    Some (if neg then chr "-" :: ds else ds)
  else Some [].

(** The string in a buffer, and a string with its NUL stored at its start. *)
Fixpoint text_of (buf : list Z) : list Z :=
  match buf with [] => [] | c :: buf => if c =? NUL then [] else c :: text_of buf end.
Definition put_text (s buf : list Z) : option (list Z) :=
  if decide (length s < length buf)%nat then Some (s ++ NUL :: drop (S (length s)) buf) else None.

(** [while (strlen(result) < digits) strcat(result, "0");] *)
Fixpoint pad_zeros (fuel : nat) (digits : Z) (result : list Z) : option (list Z) :=
  match fuel with
  | O => Some result
  | S fuel =>
    if Z.of_nat (length (text_of result)) <? digits then
      result ← put_text (text_of result ++ [chr "0"]) result; pad_zeros fuel digits result
    else Some result
  end.

(** The four selected bytes, the top bit cleared. *)
Definition otp_binary (hash : list Z) (offset : nat) : Z :=
  Z.lor (Z.lor (Z.lor (Z.shiftl (Z.land (hash !!! offset) 0x7f) 24)
                      (Z.shiftl (Z.land (hash !!! (offset + 1)%nat) 0xff) 16))
               (Z.shiftl (Z.land (hash !!! (offset + 2)%nat) 0xff) 8))
        (Z.land (hash !!! (offset + 3)%nat) 0xff).

(** The offset asked for, when it is in range, or the dynamic one. *)
Definition otp_offset (hash : list Z) (truncationOffset : Z) : nat :=
  if (0 <=? truncationOffset) && (truncationOffset <? 20 - 4)
  then Z.to_nat truncationOffset else Z.to_nat (Z.land (hash !!! 19%nat) 0xf).

Definition generateOTP (ctx : SHA1_INFO) (secret text : list Z) (codeDigits : Z)
    (addChecksum : bool) (truncationOffset : Z) (result : list Z) : option (list Z) :=
  let digits := if addChecksum then codeDigits + 1 else codeDigits in
  let hash := hmac_sha1 ctx secret text 20 in
  let binary := otp_binary hash (otp_offset hash truncationOffset) in
  power ← get DIGITS_POWER codeDigits;
  let otp := Z.rem binary power in
  otp ← (if addChecksum then c ← calcChecksum otp codeDigits; Some (s32 (otp * 10 + c))
         else Some otp);
  str ← myitoa otp 10;
  result ← put_text str result;
  pad_zeros (Z.to_nat digits) digits result.

(** ** Checksums *)

Definition digit (i : nat) (num : Z) : Z := (num / 10 ^ Z.of_nat i) mod 10.

(** The weight of a digit: itself, or the digit sum of its double. *)
Definition luhn_weight (double : bool) (d : Z) : Z :=
  if double then (if d <? 5 then 2 * d else 2 * d - 9) else d.

Fixpoint sum_list (l : list Z) : Z :=
  match l with [] => 0 | x :: l' => x + sum_list l' end.

(** The credit card sum: every other digit, starting with the lowest, doubled. *)
Definition luhn_sum (n : nat) (num : Z) : Z :=
  sum_list ((λ i, luhn_weight (Nat.even i) (digit i num)) <$> seq 0 n).

Lemma table_double (d : Z) : 0 ≤ d < 10 → get doubleDigits d = Some (luhn_weight true d).
Proof.
  intros Hd. assert (d ∈ [0;1;2;3;4;5;6;7;8;9]) as H.
  { rewrite !elem_of_cons. lia. }
  rewrite !elem_of_cons in H. repeat destruct H as [->|H]; try done. by apply elem_of_nil in H.
Qed.

Lemma checksum_loop_sum (n : nat) : ∀ num total b,
  0 ≤ num →
  checksum_loop n num total b =
    Some (total + sum_list ((λ i, luhn_weight (xorb (negb b) (Nat.even i)) (digit i num)) <$> seq 0 n)).
Proof.
  induction n as [|n IH]; intros num total b H; cbn [checksum_loop].
  { simpl. f_equal. lia. }
  rewrite Z.rem_mod_nonneg, Z.quot_div_nonneg by lia.
  pose proof (Z.mod_pos_bound num 10 ltac:(lia)) as Hm.
  assert ((if b then get doubleDigits (num mod 10) else Some (num mod 10)) =
    Some (luhn_weight b (digit 0 num))) as ->.
  { unfold digit. change (10 ^ Z.of_nat 0) with 1. rewrite Z.div_1_r.
    destruct b; [by apply table_double|done]. }
  cbn [mbind option_bind]. rewrite IH by (apply Z.div_pos; lia). f_equal.
  rewrite <-cons_seq, fmap_cons. cbn [sum_list].
  rewrite <-fmap_S_seq, <-list_fmap_compose.
  replace (xorb (negb b) (Nat.even 0)) with b by (by destruct b).
  rewrite Z.add_assoc. f_equal. f_equal. apply list_fmap_ext. intros ? i _. unfold compose. cbn beta.
  f_equal.
  - rewrite Nat.even_succ, <-Nat.negb_even. by destruct b, (Nat.even i).
  - unfold digit. rewrite Nat2Z.inj_succ, Z.pow_succ_r by lia.
    by rewrite Z.div_div by lia.
Qed.

Lemma calcChecksum_luhn (num : Z) (n : nat) :
  0 ≤ num → calcChecksum num (Z.of_nat n) = Some ((- luhn_sum n num) mod 10) .
Proof.
  intros H. unfold calcChecksum. rewrite Nat2Z.id, checksum_loop_sum by done.
  cbn [mbind option_bind]. rewrite Z.add_0_l. f_equal. simpl xorb. fold (luhn_sum n num).
  assert (0 ≤ luhn_sum n num) as Hs.
  { unfold luhn_sum. induction (seq 0 n) as [|i l IH]; [done|].
    rewrite fmap_cons; cbn [sum_list].
    assert (0 ≤ luhn_weight (Nat.even i) (digit i num)); [|lia].
    pose proof (Z.mod_pos_bound (num / 10 ^ Z.of_nat i) 10 ltac:(lia)) as Hd.
    unfold luhn_weight. fold (digit i num) in Hd. revert Hd. generalize (digit i num) as d.
    intros d Hd. destruct (Nat.even i), (Z.ltb_spec d 5); lia. }
  rewrite Z.rem_mod_nonneg by lia.
  destruct (Z.ltb_spec 0 (luhn_sum n num mod 10)); Z.to_euclidean_division_equations; lia.
Qed.

(** Sums that agree except at one or two places. *)
Lemma sum_seq_ext (f g : nat → Z) (n : nat) : ∀ k,
  (∀ i, (k ≤ i < k + n)%nat → f i = g i) → sum_list (f <$> seq k n) = sum_list (g <$> seq k n).
Proof.
  induction n as [|n IH]; intros k H; [done|]. rewrite <-!cons_seq, !fmap_cons. cbn [sum_list].
  rewrite (H k), (IH (S k)); [done| |lia]. intros i Hi. apply H. lia.
Qed.

Lemma sum_seq_split (f : nat → Z) (j n : nat) : (j < n)%nat →
  sum_list (f <$> seq 0 n) =
    sum_list (f <$> seq 0 j) + f j + sum_list (f <$> seq (S j) (n - S j)).
Proof.
  intros H. replace n with (j + S (n - S j))%nat at 1 by lia.
  rewrite seq_app, fmap_app. rewrite Nat.add_0_l, <-cons_seq, fmap_cons.
  assert (∀ l l', sum_list (l ++ l') = sum_list l + sum_list l') as E.
  { intros l l'. induction l as [|x l IH]; [done|]. simpl. rewrite IH. lia. }
  rewrite E. cbn [sum_list]. lia.
Qed.

Lemma sum_diff1 (f g : nat → Z) (n k : nat) : (k < n)%nat →
  (∀ i, (i < n)%nat → i ≠ k → f i = g i) →
  sum_list (f <$> seq 0 n) - sum_list (g <$> seq 0 n) = f k - g k.
Proof.
  intros Hk H. rewrite !(sum_seq_split _ k n) by done.
  rewrite (sum_seq_ext f g k 0), (sum_seq_ext f g _ (S k)); [lia|..]; intros i Hi; apply H; lia.
Qed.

Lemma sum_diff2 (f g : nat → Z) (n k : nat) : (S k < n)%nat →
  (∀ i, (i < n)%nat → i ≠ k → i ≠ S k → f i = g i) →
  sum_list (f <$> seq 0 n) - sum_list (g <$> seq 0 n) = (f k - g k) + (f (S k) - g (S k)).
Proof.
  intros Hk H.
  set (h := λ i, if decide (i = k) then g k else f i).
  rewrite <-(Z.add_simpl_r (sum_list (f <$> seq 0 n)) (- sum_list (h <$> seq 0 n))).
  pose proof (sum_diff1 f h n k ltac:(lia)) as H1. pose proof (sum_diff1 h g n (S k) Hk) as H2.
  assert (h k = g k ∧ h (S k) = f (S k)) as [E1 E2].
  { unfold h. rewrite decide_True, decide_False by lia. done. }
  rewrite E1 in H1. rewrite E2 in H2.
  lapply H1; [lapply H2; [lia|]|].
  - intros i Hi Hne. unfold h. case_decide; [by subst|]. by apply H.
  - intros i Hi Hne. unfold h. by rewrite decide_False.
Qed.

(** ** Decimal and other texts *)

Definition char_val (c : Z) : Z := if c <? chr "a" then c - chr "0" else c - chr "a" + 10.

(** The number a digit text stands for. *)
Definition eval (radix : Z) (s : list Z) : Z :=
  fold_left (λ acc c, acc * radix + char_val c) s 0.

(** The same with an optional minus sign. *)
Definition parse (radix : Z) (s : list Z) : Z :=
  match s with
  | c :: s' => if c =? chr "-" then - eval radix s' else eval radix s
  | [] => 0
  end.

(** A digit text of the radix, with no leading zero except in "0". *)
Definition canonical (radix : Z) (s : list Z) : Prop :=
  Forall (λ c, ∃ d, 0 ≤ d < radix ∧ get szMap d = Some c) s ∧
  match s with [] => False | [_] => True | c :: _ => c ≠ chr "0" end.

Lemma szMap_val (d : Z) : 0 ≤ d < 36 → ∃ c, get szMap d = Some c ∧ char_val c = d ∧
  (c = chr "0" ↔ d = 0) ∧ c ≠ chr "-".
Proof.
  intros Hd. unfold get. rewrite (proj2 (Z.ltb_ge _ _)) by lia.
  destruct (lookup_lt_is_Some_2 szMap (Z.to_nat d)) as [c Hc];
    [change (length szMap) with 36%nat; lia|].
  exists c. split; [done|].
  assert (∀ i c, szMap !! i = Some c → char_val c = Z.of_nat i ∧ (c = chr "0" ↔ i = 0%nat) ∧ c ≠ chr "-") as H.
  { clear. intros i c. do 36 (destruct i as [|i]; [intros [= <-]; by vm_compute|]). done. }
  destruct (H _ _ Hc) as (H1 & H2 & H3). split_and!; [lia|rewrite H2; lia|done].
Qed.

Lemma eval_snoc (radix : Z) (s : list Z) (c : Z) : eval radix (s ++ [c]) = eval radix s * radix + char_val c.
Proof. unfold eval. by rewrite fold_left_app. Qed.

Lemma eval_zeros (s : list Z) (n : nat) : eval 10 (s ++ replicate n (chr "0")) = eval 10 s * 10 ^ Z.of_nat n.
Proof.
  induction n as [|n IH]; [rewrite app_nil_r; simpl; lia|].
  rewrite replicate_S_end, app_assoc, eval_snoc, IH, Nat2Z.inj_succ, Z.pow_succ_r by lia.
  change (char_val (chr "0")) with 0. lia.
Qed.

(** The loop appends the digits of [n], whose reverse is the text of [n]. *)
Lemma itoa_digits_spec (fuel : nat) (radix : Z) : 2 ≤ radix ≤ 36 → ∀ n p,
  (0 < fuel)%nat → 0 ≤ n < 2 ^ Z.of_nat fuel →
  ∃ ds, itoa_digits fuel n radix p = Some (p ++ ds) ∧
    eval radix (rev ds) = n ∧ canonical radix (rev ds) ∧ (n ≠ 0 → hd_error (rev ds) ≠ Some (chr "0")).
Proof.
  intros Hr. induction fuel as [|fuel IH]; intros n p Hf Hn; [lia|].
  cbn [itoa_digits]. pose proof (Z.mod_pos_bound n radix ltac:(lia)) as Hm.
  destruct (szMap_val (n mod radix)) as (c & Hc & Hv & H0 & _); [lia|].
  rewrite Hc. cbn [mbind option_bind].
  rewrite Nat2Z.inj_succ, Z.pow_succ_r in Hn by lia.
  pose proof (Z.div_mod n radix ltac:(lia)) as Hdm.
  assert (0 ≤ n / radix) as Hq0 by (apply Z.div_pos; lia).
  destruct (Z.ltb_spec 0 (n / radix)) as [Hq|Hq].
  - destruct (IH (n / radix) (p ++ [c])) as (ds & -> & He & [Hcan1 Hcan2] & Hnz); [| |].
    { destruct fuel; [|lia]. simpl in Hn. nia. }
    { split; [lia|]. nia. }
    exists (c :: ds). rewrite <-app_assoc. split; [done|]. simpl rev.
    split; [rewrite eval_snoc, He, Hv; lia|].
    assert (hd_error (rev ds ++ [c]) ≠ Some (chr "0")) as Hhd.
    { destruct (rev ds) as [|c' l]; [done|]. simpl. by apply Hnz; lia. }
    split; [|done]. split.
    + apply Forall_app. split; [done|]. constructor; [|done]. exists (n mod radix). auto.
    + destruct (rev ds) as [|c' l]; [done|]. simpl. destruct (l ++ [c]) eqn:E; [by destruct l|].
      intros ->. by apply Hhd.
  - exists [c]. split; [done|]. simpl rev. assert (n / radix = 0) as E by lia.
    split; [change [c] with ([] ++ [c]); rewrite eval_snoc, Hv; change (eval radix []) with 0; lia|].
    split; [split; [constructor; [exists (n mod radix); auto|done]|done]|].
    intros Hnz. simpl. intros [= ->]. apply Hnz. rewrite (proj1 H0 eq_refl) in Hdm. lia.
Qed.

Lemma itoa_reverse_lookup (k : nat) : ∀ l i, (2 * k ≤ length l)%nat → (i < length l)%nat →
  itoa_reverse k (length l - 1) l !! i =
    if decide (i < k ∨ length l - k ≤ i)%nat then l !! (length l - 1 - i)%nat else l !! i.
Proof.
  induction k as [|k IH]; intros l i Hk Hi; cbn [itoa_reverse].
  { rewrite decide_False by lia. done. }
  set (n := (length l - 1)%nat). set (l' := itoa_swap l k n).
  assert (length l' = length l) as Hl' by (unfold l', itoa_swap; by rewrite !length_insert).
  assert (∀ j, (j < length l)%nat → l' !! j =
    if decide (j = k) then l !! (n - k)%nat else if decide (j = n - k)%nat then l !! k else l !! j) as Hs.
  { intros j Hj. unfold l', itoa_swap.
    assert (∀ x, (x < length l)%nat → l !! x = Some (l !!! x)) as Ht
      by (intros; by apply list_lookup_lookup_total_lt).
    destruct (decide (j = n - k)%nat) as [->|].
    - rewrite list_lookup_insert_eq by (rewrite length_insert; lia).
      case_decide; [lia|]. symmetry. apply Ht. lia.
    - rewrite list_lookup_insert_ne by done. case_decide as Hjk.
      + subst j. rewrite list_lookup_insert_eq by lia. symmetry. apply Ht. lia.
      + by rewrite list_lookup_insert_ne by done. }
  replace n with (length l' - 1)%nat by lia. rewrite IH by lia. rewrite Hl'.
  repeat case_decide; try lia; rewrite Hs by lia; fold n; repeat case_decide; try lia; try done;
    f_equal; lia.
Qed.

Lemma rev_append_rev0 (l : list Z) : rev_append l [] = rev l.
Proof. symmetry. apply rev_alt. Qed.

Lemma itoa_reverse_rev (l : list Z) : itoa_reverse (length l / 2) (length l - 1) l = rev l.
Proof.
  apply list_eq. intros i.
  pose proof (Nat.div_mod_eq (length l) 2). pose proof (Nat.mod_upper_bound (length l) 2 ltac:(lia)).
  assert (∀ k n l, length (itoa_reverse k n l) = length l) as Hlen.
  { clear. induction k as [|k IH]; intros n l; [done|]. cbn [itoa_reverse]. rewrite IH.
    unfold itoa_swap. by rewrite !length_insert. }
  destruct (decide (i < length l)%nat).
  - rewrite itoa_reverse_lookup by lia.
    replace (rev l) with (reverse l) by (unfold reverse; apply rev_append_rev0).
    rewrite reverse_lookup by done.
    case_decide; f_equal; lia.
  - rewrite !lookup_ge_None_2; [done|..]; rewrite ?Hlen, ?length_rev; lia.
Qed.

(** [myitoa] on a radix in range. *)
Lemma myitoa_spec (value radix : Z) :
  2 ≤ radix ≤ 36 → - 2 ^ 31 ≤ value < 2 ^ 31 →
  ∃ s, myitoa value radix = Some s ∧
    parse radix s = (if radix =? 10 then value else u32 value) ∧
    canonical radix (if (value <? 0) && (radix =? 10) then tl s else s) ∧
    (0 ≤ value → eval radix s = value ∧ (value ≠ 0 → hd_error s ≠ Some (chr "0"))).
Proof.
  intros Hr Hv. unfold myitoa.
  assert ((2 <=? radix) && (radix <=? 36) = true) as -> by lia.
  set (neg := (value <? 0) && (radix =? 10)).
  set (v := if neg then s32 (- value) else value).
  pose proof (wrap_range 32 v ltac:(lia)) as Hw. fold (u32 v) in Hw.
  destruct (itoa_digits_spec 32 radix Hr (u32 v) [] ltac:(lia) Hw) as (ds & -> & He & Hc & Hnz).
  cbn [mbind option_bind app]. rewrite itoa_reverse_rev.
  assert (parse radix (rev ds) = u32 v) as Hp.
  { rewrite <-He. destruct Hc as [Hc _]. destruct (rev ds) as [|c s]; [done|].
    unfold parse. apply Forall_cons in Hc as [(d & Hd & Ht) _].
    destruct (szMap_val d ltac:(lia)) as (c' & Ht' & _ & _ & Hm).
    rewrite Ht in Ht'. simplify_eq. by rewrite (proj2 (Z.eqb_neq _ _)). }
  exists (if neg then chr "-" :: rev ds else rev ds). split; [done|].
  destruct neg eqn:En; unfold neg in En.
  - assert (radix = 10 ∧ value < 0) as [-> Hneg] by lia. simpl Z.eqb.
    assert (u32 v = - value) as Hu.
    { unfold v, u32, s32. rewrite swrap_mod by lia. apply wrap_small. lia. }
    split; [|split; [exact Hc|intros; lia]].
    unfold parse. rewrite Z.eqb_refl, He, Hu. lia.
  - rewrite Hp. split; [|split; [done|]].
    + destruct (Z.eqb_spec radix 10); [|done]. unfold v, u32. apply wrap_small. lia.
    + intros H0. assert (u32 v = value) as Hu by (unfold v, u32; apply wrap_small; lia).
      split; [by rewrite He|]. intros Hne. apply Hnz. by rewrite Hu.
Qed.

Lemma char_val_digit (c d radix : Z) : 0 ≤ d < radix → radix ≤ 36 → get szMap d = Some c →
  0 ≤ char_val c < radix ∧ (c ≠ chr "0" → 0 < char_val c).
Proof.
  intros Hd Hr Ht. destruct (szMap_val d ltac:(lia)) as (c' & Ht' & Hv & H0 & _).
  rewrite Ht in Ht'. simplify_eq. split; [done|]. intros Hc.
  destruct (decide (char_val c' = 0)) as [E|E]; [|lia]. by apply H0 in E.
Qed.

Lemma eval_app (radix : Z) (s t : list Z) :
  eval radix (s ++ t) = eval radix s * radix ^ Z.of_nat (length t) + eval radix t.
Proof.
  induction t as [|c t IH] using rev_ind; [rewrite app_nil_r; change (eval radix []) with 0; simpl; lia|].
  rewrite app_assoc, !eval_snoc, IH, length_app. simpl length.
  rewrite Nat.add_1_r, Nat2Z.inj_succ, Z.pow_succ_r by lia. lia.
Qed.

(** A canonical text is as short as its number allows. *)
Lemma canonical_length (s : list Z) (n : nat) :
  canonical 10 s → eval 10 s < 10 ^ Z.of_nat n → (0 < n)%nat → (length s ≤ n)%nat.
Proof.
  intros [Hf Hh] He Hn. destruct s as [|c [|c2 s]]; [done|simpl; lia|].
  apply Forall_cons in Hf as [(d & Hd & Ht) Hf].
  destruct (char_val_digit c d 10 Hd ltac:(lia) Ht) as [_ Hpos]. specialize (Hpos Hh).
  change (c :: c2 :: s) with ([c] ++ (c2 :: s)) in He. rewrite eval_app in He.
  change (eval 10 [c]) with (char_val c) in He.
  assert (0 ≤ eval 10 (c2 :: s)) as Hs.
  { clear - Hf. induction (c2 :: s) as [|x l IH] using rev_ind; [done|].
    apply Forall_app in Hf as [Hf Hx]. apply Forall_cons in Hx as [(e & He & Ht) _].
    destruct (char_val_digit x e 10 He ltac:(lia) Ht). rewrite eval_snoc.
    specialize (IH Hf). lia. }
  destruct (decide (length (c2 :: s) < n)%nat) as [|Hge]; [simpl in *; lia|].
  assert (10 ^ Z.of_nat n ≤ 10 ^ Z.of_nat (length (c2 :: s))) by (apply Z.pow_le_mono_r; lia).
  nia.
Qed.

(** There is no NUL in a digit text. *)
Lemma canonical_text (s : list Z) : canonical 10 s → NUL ∉ s.
Proof.
  intros [Hs _] HN. rewrite Forall_forall in Hs. destruct (Hs _ HN) as (d & Hd & E).
  unfold get in E. rewrite (proj2 (Z.ltb_ge _ _)) in E by lia.
  apply list_elem_of_lookup_2 in E. revert E. apply (bool_decide_eq_true_1 (NUL ∉ szMap)). by vm_compute.
Qed.

Lemma text_of_app (r rest : list Z) : NUL ∉ r → text_of (r ++ NUL :: rest) = r.
Proof.
  induction r as [|c r IH]; [done|]. intros [Hc Hr]%not_elem_of_cons. cbn [app text_of].
  rewrite (proj2 (Z.eqb_neq _ _)) by done. by rewrite IH.
Qed.

Lemma pad_zeros_spec (fuel : nat) : ∀ digits r rest,
  NUL ∉ r → (Z.to_nat digits ≤ fuel + length r)%nat →
  let k := (Z.to_nat digits - length r)%nat in
  pad_zeros fuel digits (r ++ NUL :: rest) =
    if decide (k ≤ length rest)%nat then Some (r ++ replicate k (chr "0") ++ NUL :: drop k rest) else None.
Proof.
  induction fuel as [|fuel IH]; intros digits r rest Hr Hf k; cbn [pad_zeros].
  { assert (k = 0%nat) as -> by lia. by rewrite decide_True by lia. }
  rewrite text_of_app by done. destruct (Z.ltb_spec (Z.of_nat (length r)) digits).
  2: { assert (k = 0%nat) as -> by lia. by rewrite decide_True by lia. }
  assert (k = S (Z.to_nat digits - length (r ++ [chr "0"]))) as Hk by (rewrite length_app; simpl; lia).
  unfold put_text. destruct rest as [|x rest].
  { rewrite decide_False by (rewrite !length_app; simpl; lia). by rewrite decide_False by (simpl; lia). }
  rewrite decide_True by (rewrite !length_app; simpl; lia). cbn [mbind option_bind].
  replace (drop (S (length (r ++ [chr "0"]))) (r ++ NUL :: x :: rest)) with rest.
  2: { rewrite length_app, (drop_app_ge r) by (simpl; lia).
       replace (S (length r + length [chr "0"]) - length r)%nat with 2%nat by (simpl; lia). done. }
  rewrite IH; [|intros [?|[= ?]%list_elem_of_singleton]%elem_of_app; done|rewrite length_app; simpl; lia].
  rewrite <-app_assoc, Hk. cbn [app replicate length drop].
  destruct (decide _), (decide _); (lia || done).
Qed.

(** ** One-time passwords *)

(** RFC 4226 truncation at a given offset. *)
Definition otp_at (mac : list Z) (o n : nat) : Z :=
  ((mac !!! o mod 128) * 2 ^ 24 + mac !!! (o + 1)%nat * 2 ^ 16 +
   mac !!! (o + 2)%nat * 2 ^ 8 + mac !!! (o + 3)%nat) mod 10 ^ Z.of_nat n.

Lemma otp_binary_value (hash : list Z) (o : nat) :
  Forall is_byte hash → (o + 4 ≤ length hash)%nat →
  otp_binary hash o = (hash !!! o mod 128) * 2 ^ 24 + hash !!! (o + 1)%nat * 2 ^ 16 +
   hash !!! (o + 2)%nat * 2 ^ 8 + hash !!! (o + 3)%nat.
Proof.
  intros Hb Hl.
  assert (∀ k, (k < 4)%nat → is_byte (hash !!! (o + k)%nat)) as Hk.
  { intros k ?. destruct (lookup_lt_is_Some_2 hash (o + k)) as [x Hx]; [lia|].
    rewrite (list_lookup_total_correct _ _ _ Hx). by eapply Forall_lookup_1. }
  pose proof (Hk 1%nat ltac:(lia)) as H1.
  pose proof (Hk 2%nat ltac:(lia)) as H2. pose proof (Hk 3%nat ltac:(lia)) as H3.
  unfold otp_binary. change 0x7f with (Z.ones 7). change 0xff with (Z.ones 8).
  rewrite !Z.land_ones by lia. rewrite !(Z.mod_small _ (2 ^ 8)) by done.
  change (2 ^ 7) with 128.
  generalize dependent (hash !!! (o + 1)%nat). generalize dependent (hash !!! (o + 2)%nat).
  generalize dependent (hash !!! (o + 3)%nat). generalize (hash !!! o mod 128). clear.
  intros a d Hd c Hc b Hb.
  transitivity (Z.lor (Z.shiftl (Z.lor (Z.shiftl (Z.lor (Z.shiftl a 8) b) 8) c) 8) d).
  { rewrite !Z.shiftl_lor, !Z.shiftl_shiftl by lia. done. }
  rewrite !lor_shift8 by done. lia.
Qed.

Lemma otp_binary_nonneg (hash : list Z) (o : nat) :
  Forall is_byte hash → (o + 4 ≤ length hash)%nat → 0 ≤ otp_binary hash o.
Proof.
  intros Hb Hl. unfold otp_binary. rewrite !Z.lor_nonneg, !Z.shiftl_nonneg, !Z.land_nonneg. lia.
Qed.

Lemma table_power (n : nat) : (n ≤ 8)%nat → get DIGITS_POWER (Z.of_nat n) = Some (10 ^ Z.of_nat n).
Proof. intros H. do 9 (destruct n as [|n]; [done|]). lia. Qed.

Lemma otp_offset_range (hash : list Z) (t : Z) : (otp_offset hash t ≤ 15)%nat.
Proof.
  unfold otp_offset. case_match; [lia|]. change 0xf with (Z.ones 4).
  rewrite Z.land_ones by lia. pose proof (Z.mod_pos_bound (hash !!! 19%nat) (2 ^ 4) ltac:(lia)). lia.
Qed.

Lemma digit_weights (k : nat) (a : Z) :
  0 ≤ digit k a < 10 ∧ 0 ≤ luhn_weight (Nat.even k) (digit k a) < 10 ∧
  (0 < digit k a → 0 < luhn_weight (Nat.even k) (digit k a)).
Proof.
  assert (0 ≤ digit k a < 10) as H by (apply Z.mod_pos_bound; lia).
  split; [done|]. unfold luhn_weight. revert H. generalize (digit k a) as d. intros d H.
  destruct (Nat.even k), (Z.ltb_spec d 5); lia.
Qed.

(** The offset the code chooses, as RFC 4226 gives it. *)
Lemma otp_offset_spec (mac : list Z) (t : Z) :
  otp_offset mac t = Z.to_nat (if decide (0 ≤ t ≤ 15) then t else (mac !!! 19%nat) mod 16).
Proof.
  unfold otp_offset. assert (Z.land (mac !!! 19%nat) 0xf = (mac !!! 19%nat) mod 16) as ->.
  { change 0xf with (Z.ones 4). by rewrite Z.land_ones. }
  change (20 - 4) with 16.
  destruct (Z.leb_spec 0 t), (Z.ltb_spec t 16); cbn [andb]; case_decide; done || lia.
Qed.

(** The text of a code: the last steps of [generateOTP], on the MAC. *)
Lemma otp_text (mac : list Z) (n : nat) (addChecksum : bool) (truncationOffset : Z) (result : list Z) :
  Forall is_byte mac → length mac = 20%nat → (1 ≤ n ≤ 8)%nat →
  let code := otp_at mac (otp_offset mac truncationOffset) n in
  let digits := (if addChecksum then S n else n) in
  let cdigits := if addChecksum then Z.of_nat n + 1 else Z.of_nat n in
  ∃ s otp, (let otp := Z.rem (otp_binary mac (otp_offset mac truncationOffset)) (10 ^ Z.of_nat n) in
      otp ← (if addChecksum then c ← calcChecksum otp (Z.of_nat n); Some (s32 (otp * 10 + c))
             else Some otp);
      str ← myitoa otp 10;
      result ← put_text str result;
      pad_zeros (Z.to_nat cdigits) cdigits result) =
      (if decide (digits < length result)%nat then Some (s ++ NUL :: drop (S digits) result) else None) ∧
    length s = digits ∧
    otp = (if addChecksum then code * 10 + (- luhn_sum n code) mod 10 else code) ∧
    ∃ dec, s = dec ++ replicate (digits - length dec) (chr "0") ∧
      canonical 10 dec ∧ eval 10 dec = otp ∧
      eval 10 s = otp * 10 ^ Z.of_nat (digits - length dec).
Proof.
  intros Hb Hl Hn code digits cdigits.
  pose proof (otp_offset_range mac truncationOffset) as Ho.
  pose proof (otp_binary_nonneg mac (otp_offset mac truncationOffset) Hb ltac:(lia)) as H0.
  rewrite otp_binary_value in * by (done || lia).
  rewrite Z.rem_mod_nonneg by lia.
  fold (otp_at mac (otp_offset mac truncationOffset) n). fold code.
  pose proof (Z.mod_pos_bound ((mac !!! otp_offset mac truncationOffset mod 128) * 2 ^ 24 +
    mac !!! (otp_offset mac truncationOffset + 1)%nat * 2 ^ 16 +
    mac !!! (otp_offset mac truncationOffset + 2)%nat * 2 ^ 8 +
    mac !!! (otp_offset mac truncationOffset + 3)%nat) (10 ^ Z.of_nat n) ltac:(lia)) as Hc.
  fold (otp_at mac (otp_offset mac truncationOffset) n) in Hc. fold code in Hc. clearbody code.
  assert (10 ^ Z.of_nat n ≤ 10 ^ 8) as Hp by (apply Z.pow_le_mono_r; lia).
  pose proof (Z.mod_pos_bound (- luhn_sum n code) 10 ltac:(lia)) as Hk.
  set (otp := if addChecksum then code * 10 + (- luhn_sum n code) mod 10 else code).
  assert ((if addChecksum then c ← calcChecksum code (Z.of_nat n); Some (s32 (code * 10 + c))
    else Some code) = Some otp) as Eo.
  { unfold otp. destruct addChecksum; [|done]. rewrite calcChecksum_luhn by lia.
    cbn [mbind option_bind]. f_equal. apply swrap_small; lia. }
  cbn [mbind option_bind] in Eo |- *. rewrite Eo. cbn [mbind option_bind].  
  assert (0 ≤ otp < 10 ^ Z.of_nat digits) as Ho'.
  { unfold otp, digits. destruct addChecksum; [|lia]. rewrite Nat2Z.inj_succ, Z.pow_succ_r by lia. lia. }
  assert (10 ^ Z.of_nat digits ≤ 10 ^ 9) as Hp'
    by (apply Z.pow_le_mono_r; unfold digits; destruct addChecksum; lia).
  destruct (myitoa_spec otp 10 ltac:(lia) ltac:(lia)) as (dec & -> & _ & Hcan & Hev).
  cbn [mbind option_bind]. rewrite (proj2 (Z.ltb_ge otp 0)) in Hcan by lia.
  destruct (Hev ltac:(lia)) as [Hd _].
  assert (length dec ≤ digits)%nat as Hlen
    by (apply canonical_length; [done|lia|unfold digits; destruct addChecksum; lia]).
  replace cdigits with (Z.of_nat digits) by (unfold digits, cdigits; destruct addChecksum; lia).
  exists (dec ++ replicate (digits - length dec) (chr "0")), otp. split.
  { unfold put_text. destruct (decide (length dec < length result)%nat) as [Hr|Hr];
      cbn [mbind option_bind]; [|by rewrite decide_False by lia].
    rewrite pad_zeros_spec, Nat2Z.id; [|by apply canonical_text|lia].
    rewrite <-app_assoc, drop_drop, length_drop.
    replace (S (length dec) + (digits - length dec))%nat with (S digits) by lia.
    destruct (decide _), (decide _); (lia || done). }
  split; [rewrite length_app, length_replicate; lia|]. split; [done|].
  exists dec. split; [done|]. split; [done|]. split; [done|]. by rewrite eval_zeros, Hd.
Qed.

(** ** Properties *)

(** [myitoa] prints every [int] in every radix from 2 to 36: the text has
    digits of the radix only, no leading zero, and reads back as the value;
    a negative value gets a sign in radix 10 and is printed as the [unsigned]
    of the same bits otherwise; other radices leave the empty string. *)
Theorem myitoa_correct (value radix : Z) :
  - 2 ^ 31 ≤ value < 2 ^ 31 →
  if decide (2 ≤ radix ≤ 36) then ∃ s, myitoa value radix = Some s ∧
    parse radix s = (if radix =? 10 then value else u32 value) ∧
    canonical radix (if (value <? 0) && (radix =? 10) then tl s else s)
  else myitoa value radix = Some [].
Proof.
  intros Hv. case_decide as Hr.
  - destruct (myitoa_spec value radix Hr Hv) as (s & H1 & H2 & H3 & _). eauto.
  - unfold myitoa. assert ((2 <=? radix) && (radix <=? 36) = false) as -> by lia. done.
Qed.

(** One mistyped digit changes the checksum. *)
Lemma checksum_digit (n k : nat) (a b : Z) :
  0 ≤ a → 0 ≤ b → (k < n)%nat → digit k a ≠ digit k b →
  (∀ i, (i < n)%nat → i ≠ k → digit i a = digit i b) →
  calcChecksum a (Z.of_nat n) ≠ calcChecksum b (Z.of_nat n).
Proof.
  intros Ha Hb Hk Hd Hsame. rewrite !calcChecksum_luhn by done. intros [= E].
  pose proof (sum_diff1 (λ i, luhn_weight (Nat.even i) (digit i a))
    (λ i, luhn_weight (Nat.even i) (digit i b)) n k Hk) as H.
  fold (luhn_sum n a) (luhn_sum n b) in H. cbn beta in H.
  lapply H; [clear H; intros H|intros i Hi Hne; by rewrite Hsame].
  destruct (digit_weights k a) as (Ra & Wa & _). destruct (digit_weights k b) as (Rb & Wb & Ib).
  assert (luhn_weight (Nat.even k) (digit k a) = luhn_weight (Nat.even k) (digit k b)) as Ew
    by (Z.to_euclidean_division_equations; lia).
  apply Hd. revert Ew. generalize dependent (digit k a). generalize dependent (digit k b).
  clear. intros x Hx _ _ y _ Hy _. unfold luhn_weight.
  destruct (Nat.even k), (Z.ltb_spec x 5), (Z.ltb_spec y 5); lia.
Qed.

(** Two adjacent digits swapped. *)
Lemma checksum_swap (n k : nat) (a b : Z) :
  0 ≤ a → 0 ≤ b → (S k < n)%nat →
  digit k b = digit (S k) a → digit (S k) b = digit k a →
  (∀ i, (i < n)%nat → i ≠ k → i ≠ S k → digit i a = digit i b) →
  calcChecksum a (Z.of_nat n) = calcChecksum b (Z.of_nat n) ↔
  digit k a = digit (S k) a ∨
  (digit k a = 0 ∧ digit (S k) a = 9) ∨ (digit k a = 9 ∧ digit (S k) a = 0).
Proof.
  intros Ha Hb Hk H1 H2 Hsame. rewrite !calcChecksum_luhn by done.
  pose proof (sum_diff2 (λ i, luhn_weight (Nat.even i) (digit i a))
    (λ i, luhn_weight (Nat.even i) (digit i b)) n k Hk) as H.
  fold (luhn_sum n a) (luhn_sum n b) in H. cbn beta in H.
  lapply H; [clear H; intros H|intros i Hi Hne Hne'; by rewrite Hsame].
  rewrite H1, H2 in H.
  destruct (digit_weights k a) as (Ra & _). destruct (digit_weights (S k) a) as (Rb & _).
  assert (Nat.even (S k) = negb (Nat.even k)) as E
    by (by rewrite Nat.even_succ, <-Nat.negb_even).
  rewrite E in H. revert Ra Rb H.
  generalize (digit k a) as x. generalize (digit (S k) a) as y. clear. intros y x Hx Hy H.
  assert (Some ((- luhn_sum n a) mod 10) = Some ((- luhn_sum n b) mod 10) ↔
    (luhn_sum n a - luhn_sum n b) mod 10 = 0) as ->.
  { split; [intros [= E]|intros E; f_equal]; Z.to_euclidean_division_equations; lia. }
  rewrite H. unfold luhn_weight.
  destruct (Nat.even k), (Z.ltb_spec x 5), (Z.ltb_spec y 5); cbn [negb];
    Z.to_euclidean_division_equations; lia.
Qed.

(** C40: the checksum detects every single mistyped digit: two numbers that
    differ in exactly one of the [n] digits have different checksums; of the
    swaps of two adjacent digits it detects all except that of a 0 and a 9,
    which leaves it unchanged. *)
Theorem checksum_detects (n k : nat) (a b : Z) :
  0 ≤ a → 0 ≤ b →
  ((k < n)%nat → digit k a ≠ digit k b →
   (∀ i, (i < n)%nat → i ≠ k → digit i a = digit i b) →
   calcChecksum a (Z.of_nat n) ≠ calcChecksum b (Z.of_nat n)) ∧
  ((S k < n)%nat → digit k b = digit (S k) a → digit (S k) b = digit k a →
   (∀ i, (i < n)%nat → i ≠ k → i ≠ S k → digit i a = digit i b) →
   calcChecksum a (Z.of_nat n) = calcChecksum b (Z.of_nat n) ↔
   digit k a = digit (S k) a ∨
   (digit k a = 0 ∧ digit (S k) a = 9) ∨ (digit k a = 9 ∧ digit (S k) a = 0)).
Proof. intros Ha Hb. split; [by apply checksum_digit|by apply checksum_swap]. Qed.

(** C39: [generateOTP] with 1 to 8 digits takes the RFC 4226 truncation of the
    HMAC at the offset asked for, when that leaves four bytes of the MAC (0 to
    15), and at the low four bits of the MAC's last byte otherwise; it appends
    the checksum digit on request and stores a text of exactly the requested
    length and its NUL at the start of [result], the rest of which stays; it
    writes past the end of [result] when there is no room for them, and then
    only.  The text is the decimal number followed, when it is short, by
    zeros: its value is then the code times a power of ten, where the standard
    puts the zeros in front. *)
Theorem generateOTP_correct (ctx : SHA1_INFO) (secret text : list Z) (n : nat)
    (addChecksum : bool) (truncationOffset : Z) (result : list Z) :
  length (data ctx) = 64%nat → Forall is_byte secret → Forall is_byte text →
  Z.of_nat (length secret) < 2 ^ 31 → Z.of_nat (length text) < 2 ^ 31 → (1 ≤ n ≤ 8)%nat →
  let mac := RFC.HMAC secret text in
  let offset := if decide (0 ≤ truncationOffset ≤ 15) then truncationOffset
                else (mac !!! 19%nat) mod 16 in
  let code := otp_at mac (Z.to_nat offset) n in
  let digits := (if addChecksum then S n else n) in
  ∃ s otp, generateOTP ctx secret text (Z.of_nat n) addChecksum truncationOffset result =
      (if decide (digits < length result)%nat then Some (s ++ NUL :: drop (S digits) result) else None) ∧
    length s = digits ∧
    otp = (if addChecksum then code * 10 + (- luhn_sum n code) mod 10 else code) ∧
    ∃ dec, s = dec ++ replicate (digits - length dec) (chr "0") ∧
      canonical 10 dec ∧ eval 10 dec = otp ∧
      eval 10 s = otp * 10 ^ Z.of_nat (digits - length dec).
Proof.
  intros Hctx Hs Ht Hsl Htl Hn mac offset code digits. unfold generateOTP.
  rewrite hmac_sha1_spec, app_nil_r, take_ge
    by (done || (unfold RFC.HMAC; rewrite sha1_length; lia)). fold mac.
  rewrite table_power by lia. cbn [mbind option_bind]. unfold code, offset. rewrite <-otp_offset_spec.
  apply (otp_text mac n addChecksum truncationOffset result); [apply sha1_bytes|apply sha1_length|done].
Qed.

(** ** Witnesses *)

Lemma myitoa_correct_witness :
  (- 2 ^ 31 ≤ -2147483648 < 2 ^ 31) ∧ myitoa (-2147483648) 10 = Some (bytes "-2147483648") ∧
  ∃ s, myitoa (-2147483648) 10 = Some s ∧ parse 10 s = -2147483648 ∧ canonical 10 (tl s).
Proof. split; [lia|]. split; [vm_compute; reflexivity|]. apply (myitoa_correct (-2147483648) 10). lia. Defined.

Lemma checksum_detects_witness :
  calcChecksum 755224 6 ≠ calcChecksum 755824 6 ∧
  calcChecksum 90123 5 = calcChecksum 9123 5 ∧ calcChecksum 12345 5 ≠ calcChecksum 21345 5.
Proof.
  split; [|split].
  - apply (checksum_detects 6 2 755224 755824); [lia|lia|lia|by vm_compute|].
    intros i Hi Hne. do 6 (destruct i as [|i]; [first [done | by vm_compute]|]). lia.
  - apply (checksum_detects 5 3 90123 9123); [lia|lia|lia|by vm_compute|by vm_compute| |].
    + intros i Hi Hne Hne'. do 5 (destruct i as [|i]; [first [done | by vm_compute]|]). lia.
    + right; left. by vm_compute.
  - intros E. apply (checksum_detects 5 3 12345 21345) in E;
      [|lia|lia|lia|by vm_compute|by vm_compute|].
    + vm_compute in E. destruct E as [E|[[E _]|[E _]]]; discriminate E.
    + intros i Hi Hne Hne'. do 5 (destruct i as [|i]; [first [done | by vm_compute]|]). lia.
Defined.

(** The code 010690 of the counter text "6" comes out as "106900"; an offset
    asked for is used. *)
Lemma generateOTP_correct_witness :
  let result := replicate 10 0 in
  generateOTP ctx0 (bytes "12345678901234567890") (bytes "6") 6 false (-1) result = Some (bytes "106900" ++ replicate 4 0) ∧
  generateOTP ctx0 (bytes "12345678901234567890") (bytes "6") 6 false 3 result ≠ Some (bytes "106900" ++ replicate 4 0) ∧
  ∃ s otp dec, generateOTP ctx0 (bytes "12345678901234567890") (bytes "6") 6 false 3 result = Some (s ++ replicate 4 0) ∧
    length s = 6%nat ∧ s = dec ++ replicate (6 - length dec) (chr "0") ∧ eval 10 dec = otp.
Proof.
  intros result. split; [vm_compute; reflexivity|]. split; [vm_compute; discriminate|].
  destruct (generateOTP_correct ctx0 (bytes "12345678901234567890") (bytes "6") 6 false 3 result)
    as (s & otp & H1 & H2 & _ & dec & Hs & _ & He & _); [done| | |by vm_compute|by vm_compute|lia|].
  - repeat constructor; by vm_compute.
  - repeat constructor; by vm_compute.
  - exists s, otp, dec. split; [exact H1|]. split; [exact H2|]. split; [exact Hs|exact He].
Defined.
