(* ===== verification/Heap.v ===== *)
(** * Binary heaps (heap/bigheap.c, heap/smallheap.c)

    The two files are the same code with the comparisons turned round, so the
    operations are written once over the class [Above] (a child that is [above]
    its parent moves up) and instantiated: [>] gives the max heap, [<] the min
    heap.  An array is the list of its cells, indices are [uint32_t]; a read or
    write outside the array has no result. *)

From S2P Require Import Prelude.

(** ** The code *)

Class Above := above : Z → Z → bool.

(** What the theorems need of the comparison: it compares a key. *)
Class AboveKey `{Above} (key : Z → Z) : Prop :=
  above_key x y : above x y = (key y <? key x).

Definition Swap (array : list Z) (i j : Z) : option (list Z) :=
  tmp ← get array j;
  ai ← get array i;
  array ← set array j ai;
  set array i tmp.

Section Heap.
Context `{Above}.

(** [if (child < heapSize && array[child] > array[best])] *)
Definition select (array : list Z) (heapSize child best : Z) : option Z :=
  if child <? heapSize then
    c ← get array child;
    b ← get array best;
    Some (if above c b then child else best)
  else Some best.

(** The recursion goes to a child, a larger index: [fuel] is the heap size. *)
Fixpoint Heapify (fuel : nat) (array : list Z) (heapSize currentNode : Z) : option (list Z) :=
  match fuel with
  | O => None
  | S fuel =>
    let leftChild := u32 (2 * currentNode + 1) in
    let rightChild := u32 (2 * currentNode + 2) in
    largest ← select array heapSize leftChild currentNode;
    largest ← select array heapSize rightChild largest;
    if largest =? currentNode then Some array
    else
      array ← Swap array largest currentNode;
      Heapify fuel array heapSize largest
  end.

Definition heap_fuel (heapSize : Z) : nat := S (Z.to_nat heapSize).

(** [for (i = heapSize/2; i >= 0; i--)]; [n] is [i + 1]. *)
Fixpoint HeapCreat_loop (n : nat) (array : list Z) (heapSize : Z) : option (list Z) :=
  match n with
  | O => Some array
  | S i =>
    array ← Heapify (heap_fuel heapSize) array heapSize (Z.of_nat i);
    HeapCreat_loop i array heapSize
  end.

Definition HeapCreat (array : list Z) (heapSize : Z) : option (list Z) :=
  HeapCreat_loop (S (Z.to_nat (heapSize / 2))) array heapSize.

(** [if (elem < array[0])] for the max heap. *)
Definition Insert (array : list Z) (heapSize elem : Z) : option (list Z) :=
  top ← get array 0;
  if above top elem then
    array ← set array 0 elem;
    Heapify (heap_fuel heapSize) array heapSize 0
  else Some array.

End Heap.

Definition gt_above : Above := λ x y, y <? x.
Definition lt_above : Above := λ x y, x <? y.

Definition MaxHeapify (array : list Z) (heapSize currentNode : Z) : option (list Z) :=
  Heapify (H := gt_above) (heap_fuel heapSize) array heapSize currentNode.
Definition MaxHeapCreat : list Z → Z → option (list Z) := HeapCreat (H := gt_above).
Definition MaxInsert : list Z → Z → Z → option (list Z) := Insert (H := gt_above).

Definition MinHeapify (array : list Z) (heapSize currentNode : Z) : option (list Z) :=
  Heapify (H := lt_above) (heap_fuel heapSize) array heapSize currentNode.
Definition MinHeapCreat : list Z → Z → option (list Z) := HeapCreat (H := lt_above).
Definition MinInsert : list Z → Z → Z → option (list Z) := Insert (H := lt_above).

#[export] Instance gt_above_key : AboveKey (H := gt_above) id.
Proof. done. Qed.
#[export] Instance lt_above_key : AboveKey (H := lt_above) Z.opp.
Proof. intros x y. unfold above, lt_above. lia. Qed.

(** ** The heap order *)

Section Order.
#[local] Set Default Proof Using "Type*".
Context `{AboveKey} (n : nat).

Definition child (i j : nat) : Prop := j = (2 * i + 1)%nat ∨ j = (2 * i + 2)%nat.

(** No child at or below node [k] is above its parent. *)
Definition heap_from (k : nat) (a : list Z) : Prop :=
  ∀ i j, (k ≤ i)%nat → child i j → (j < n)%nat → key (a !!! j) ≤ key (a !!! i).

(** The same except at node [c], whose children are still below its parent. *)
Definition heap_except (k c : nat) (a : list Z) : Prop :=
  (∀ i j, (k ≤ i)%nat → i ≠ c → child i j → (j < n)%nat → key (a !!! j) ≤ key (a !!! i)) ∧
  (∀ i j, (k ≤ i)%nat → child i c → child c j → (j < n)%nat → key (a !!! j) ≤ key (a !!! i)).

(** The same cells in another order, those past the heap untouched. *)
Definition reordered (a a' : list Z) : Prop := a' ≡ₚ a ∧ drop n a' = drop n a.

Lemma heap_from_except (k c : nat) (a : list Z) : heap_from k a → heap_except k c a.
Proof.
  intros Hh. split; [eauto|]. intros i j Hi Hic Hcj Hj.
  transitivity (key (a !!! c)); [apply Hh|apply Hh]; try done; unfold child in *; lia.
Qed.

Lemma reordered_refl (a : list Z) : reordered a a.
Proof. done. Qed.

Lemma reordered_trans (a b c : list Z) : reordered a b → reordered b c → reordered a c.
Proof. intros [H1 H2] [H3 H4]. split; [by rewrite H3|congruence]. Qed.

Lemma reordered_length (a b : list Z) : reordered a b → length b = length a.
Proof. intros [Hp _]. by apply Permutation_length. Qed.

Definition swapped (a : list Z) (i j : nat) : list Z := <[i := a !!! j]> (<[j := a !!! i]> a).

Lemma swapped_length (a : list Z) (i j : nat) : length (swapped a i j) = length a.
Proof. unfold swapped. by rewrite !length_insert. Qed.

Lemma Swap_nat (a : list Z) (i j : nat) :
  (i < length a)%nat → (j < length a)%nat →
  Swap a (Z.of_nat i) (Z.of_nat j) = Some (swapped a i j).
Proof.
  intros Hi Hj. unfold Swap. rewrite !get_nat by done. cbn [mbind option_bind].
  rewrite set_nat by done. cbn [mbind option_bind].
  by rewrite set_nat by (rewrite length_insert; done).
Qed.

Lemma swapped_lookup (a : list Z) (i j k : nat) :
  (i < length a)%nat → (j < length a)%nat →
  swapped a i j !!! k =
    if decide (k = i) then a !!! j else if decide (k = j) then a !!! i else a !!! k.
Proof.
  intros Hi Hj. unfold swapped. case_decide as E; [subst|].
  - apply list_lookup_total_insert_eq. by rewrite length_insert.
  - rewrite list_lookup_total_insert_ne by done. case_decide as E'; [subst|].
    + by apply list_lookup_total_insert_eq.
    + by apply list_lookup_total_insert_ne.
Qed.

Lemma delete_insert_same (l : list Z) (i : nat) (x : Z) : delete i (<[i := x]> l) = delete i l.
Proof. rewrite !delete_take_drop, drop_insert_lt, take_insert_ge by lia. done. Qed.

Lemma insert_perm (l : list Z) (i : nat) (x : Z) :
  (i < length l)%nat → <[i := x]> l ≡ₚ x :: delete i l.
Proof.
  intros Hi. rewrite (delete_Permutation (<[i := x]> l) i x)
    by (by apply list_lookup_insert_eq).
  by rewrite delete_insert_same.
Qed.

Lemma swapped_perm (a : list Z) (i j : nat) :
  i ≠ j → (i < length a)%nat → (j < length a)%nat → swapped a i j ≡ₚ a.
Proof.
  intros Hij Hi Hj. unfold swapped. set (b := <[j := a !!! i]> a).
  assert (b !! i = Some (a !!! i)) as Hb.
  { unfold b. rewrite list_lookup_insert_ne by done. by apply list_lookup_lookup_total_lt. }
  rewrite insert_perm by (unfold b; by rewrite length_insert).
  rewrite (delete_Permutation a j (a !!! j)) at 2 by (by apply list_lookup_lookup_total_lt).
  apply perm_skip, (Permutation_cons_inv (a := a !!! i)).
  rewrite <-(delete_Permutation b i) by done. unfold b. by rewrite insert_perm.
Qed.

Lemma swapped_reordered (a : list Z) (i j : nat) :
  i ≠ j → (i < n)%nat → (j < n)%nat → (n ≤ length a)%nat → reordered a (swapped a i j).
Proof.
  intros Hij Hi Hj Hn. split; [apply swapped_perm; lia|].
  unfold swapped. by rewrite !drop_insert_lt by lia.
Qed.

(** ** Sifting down *)

Lemma select_spec (a : list Z) (c b : nat) :
  (n ≤ length a)%nat → ((c < n)%nat → (b < n)%nat) →
  ∃ l : nat, select a (Z.of_nat n) (Z.of_nat c) (Z.of_nat b) = Some (Z.of_nat l) ∧
    (l = b ∨ l = c ∧ (c < n)%nat) ∧ key (a !!! b) ≤ key (a !!! l) ∧
    ((c < n)%nat → key (a !!! c) ≤ key (a !!! l)).
Proof.
  intros Hn Hb. unfold select. destruct (Z.ltb_spec (Z.of_nat c) (Z.of_nat n)).
  - rewrite !get_nat by lia. cbn [mbind option_bind]. rewrite above_key.
    destruct (Z.ltb_spec (key (a !!! b)) (key (a !!! c))); [exists c|exists b]; split_and!;
      try done; try lia; by right || left.
  - exists b. split_and!; [done|by left|lia|lia].
Qed.

Lemma sift_step (a : list Z) (k c l : nat) :
  (k ≤ c)%nat → child c l → (l < n)%nat → (n ≤ length a)%nat →
  heap_except k c a →
  key (a !!! c) ≤ key (a !!! l) → (∀ j, child c j → (j < n)%nat → key (a !!! j) ≤ key (a !!! l)) →
  heap_except k l (swapped a l c).
Proof.
  intros Hk Hc Hl Hn [He1 He2] Hcl Hmax.
  assert (c < l)%nat by (unfold child in Hc; lia).
  split; intros i j Hi.
  - intros Hil Hij Hj. rewrite !swapped_lookup by lia.
    rewrite (decide_False (P := i = l)) by done.
    destruct (decide (i = c)) as [->|Hic].
    + case_decide; [done|]. rewrite decide_False by (unfold child in Hij; lia). by apply Hmax.
    + rewrite (decide_False (P := j = l)) by (unfold child in *; lia).
      case_decide; [subst j; by apply He2|by apply He1].
  - intros Hil Hlj Hj. assert (i = c) as -> by (unfold child in *; lia).
    rewrite !swapped_lookup by lia. rewrite (decide_False (P := c = l)), (decide_True (P := c = c)) by lia.
    rewrite !decide_False by (unfold child in *; lia).
    apply He1; [lia|lia|done|done].
Qed.

Lemma Heapify_spec (fuel : nat) : ∀ (a : list Z) (c k : nat),
  Z.of_nat n < 2 ^ 31 → (n ≤ length a)%nat → (k ≤ c ≤ n)%nat → Z.of_nat c < 2 ^ 31 - 1 →
  (n < fuel + c)%nat → heap_except k c a →
  ∃ a', Heapify fuel a (Z.of_nat n) (Z.of_nat c) = Some a' ∧ reordered a a' ∧ heap_from k a'.
Proof.
  induction fuel as [|fuel IH]; intros a c k Hn Hlen Hk Hc31 Hf He; [lia|].
  cbn [Heapify]. unfold u32. rewrite !wrap_small by lia.
  replace (2 * Z.of_nat c + 1) with (Z.of_nat (2 * c + 1)) by lia.
  replace (2 * Z.of_nat c + 2) with (Z.of_nat (2 * c + 2)) by lia.
  destruct (select_spec a (2 * c + 1) c Hlen) as (l1 & -> & Hl1 & Hb1 & Hc1); [lia|].
  cbn [mbind option_bind].
  destruct (select_spec a (2 * c + 2) l1 Hlen) as (l & -> & Hl & Hb2 & Hc2); [lia|].
  cbn [mbind option_bind].
  assert (∀ j, child c j → (j < n)%nat → key (a !!! j) ≤ key (a !!! l)) as Hmax.
  { intros j [->| ->] Hj; [specialize (Hc1 Hj); lia|by apply Hc2]. }
  destruct (Z.eqb_spec (Z.of_nat l) (Z.of_nat c)) as [E|E].
  - exists a. split; [done|]. split; [apply reordered_refl|]. intros i j Hi Hij Hj.
    destruct (decide (i = c)) as [->|]; [|by apply (proj1 He)].
    assert (l = c) as <- by lia. by apply Hmax.
  - assert (child c l ∧ (l < n)%nat) as [Hcl Hln] by (unfold child; lia).
    rewrite Swap_nat by lia. cbn [mbind option_bind].
    destruct (IH (swapped a l c) l k) as (a' & -> & Hr & Hh);
      [done|by rewrite swapped_length|unfold child in Hcl; lia|lia|unfold child in Hcl; lia| |].
    { apply sift_step; try done; lia. }
    exists a'. split; [done|]. split; [|done].
    eapply reordered_trans; [|exact Hr]. apply swapped_reordered; lia.
Qed.

Lemma HeapCreat_loop_spec (m : nat) : ∀ a : list Z,
  Z.of_nat n < 2 ^ 31 → (n ≤ length a)%nat → (2 * m ≤ n + 2)%nat → heap_from m a →
  ∃ a', HeapCreat_loop m a (Z.of_nat n) = Some a' ∧ reordered a a' ∧ heap_from 0 a'.
Proof.
  induction m as [|m IH]; intros a Hn Hlen Hm Hh; cbn [HeapCreat_loop].
  { exists a. split; [done|]. split; [apply reordered_refl|done]. }
  destruct (Heapify_spec (heap_fuel (Z.of_nat n)) a m m) as (a1 & -> & Hr & Hh1);
    [done|done|lia|lia|unfold heap_fuel; lia| |].
  { split; intros i j Hi; [|unfold child; lia]. intros Hne Hij Hj. apply Hh; [lia|done|done]. }
  cbn [mbind option_bind].
  destruct (IH a1) as (a' & -> & Hr' & Hh'); [done|by rewrite (reordered_length a)|lia|done|].
  exists a'. split; [done|]. split; [by eapply reordered_trans|done].
Qed.

Lemma HeapCreat_spec (a : list Z) :
  Z.of_nat n < 2 ^ 31 → (n ≤ length a)%nat →
  ∃ a', HeapCreat a (Z.of_nat n) = Some a' ∧ reordered a a' ∧ heap_from 0 a'.
Proof.
  intros Hn Hlen. unfold HeapCreat. apply HeapCreat_loop_spec; [done|done| |].
  - Z.to_euclidean_division_equations; lia.
  - intros i j Hi Hij Hj. exfalso. unfold child in Hij.
    assert (Z.of_nat n / 2 < Z.of_nat i) by lia. Z.to_euclidean_division_equations; lia.
Qed.

(** The root dominates the heap. *)
Lemma heap_root (a : list Z) : heap_from 0 a → ∀ j, (j < n)%nat → key (a !!! j) ≤ key (a !!! 0%nat).
Proof.
  intros Hh j. induction j as [j IH] using lt_wf_ind. intros Hj.
  destruct j as [|j]; [done|].
  pose proof (Nat.div_mod_eq j 2) as E. pose proof (Nat.mod_upper_bound j 2 ltac:(lia)).
  transitivity (key (a !!! (j / 2)%nat)); [|apply IH; lia].
  apply Hh; [lia|unfold child; lia|done].
Qed.

Lemma Insert_spec (a : list Z) (x : Z) :
  Z.of_nat n < 2 ^ 31 → (0 < n ≤ length a)%nat → heap_from 0 a →
  ∃ a', Insert a (Z.of_nat n) x = Some a' ∧ heap_from 0 a' ∧ length a' = length a ∧
    (if above (a !!! 0%nat) x then reordered (<[0%nat := x]> a) a' else a' = a).
Proof.
  intros Hn Hlen Hh. unfold Insert. change 0 with (Z.of_nat 0). rewrite get_nat by lia.
  cbn [mbind option_bind]. destruct (above _ _).
  - rewrite set_nat by lia. cbn [mbind option_bind].
    destruct (Heapify_spec (heap_fuel (Z.of_nat n)) (<[0%nat := x]> a) 0 0) as (a' & -> & Hr & Hh');
      [done|rewrite length_insert; lia|lia|lia|unfold heap_fuel; lia| |].
    { split; intros i j Hi; [|unfold child; lia]. intros Hne Hij Hj.
      rewrite !list_lookup_total_insert_ne by (unfold child in Hij; lia). by apply Hh. }
    exists a'. split; [done|]. split; [done|]. split; [|done].
    by rewrite (reordered_length _ _ Hr), length_insert.
  - exists a. done.
Qed.

End Order.

(** ** Streams of insertions *)

(** A caller's loop: one [Insert] per element. *)
Fixpoint insert_all `{Above} (a : list Z) (heapSize : Z) (xs : list Z) : option (list Z) :=
  match xs with
  | [] => Some a
  | x :: xs => a ← Insert a heapSize x; insert_all a heapSize xs
  end.

(** [kept] are the cells with the smallest keys of [all]. *)
Definition best_of (key : Z → Z) (kept all : list Z) : Prop :=
  ∃ rest, kept ++ rest ≡ₚ all ∧ ∀ x y, x ∈ kept → y ∈ rest → key x ≤ key y.

Section Stream.
#[local] Set Default Proof Using "Type*".
Context `{AboveKey}.

Lemma heap_root_elem (a : list Z) (x : Z) :
  heap_from (key := key) (length a) 0 a → x ∈ a → key x ≤ key (a !!! 0%nat).
Proof.
  intros Hh (i & Hi)%list_elem_of_lookup_1.
  rewrite <-(list_lookup_total_correct _ _ _ Hi).
  apply (heap_root (length a)); [done|]. by eapply lookup_lt_Some.
Qed.

(** One insertion keeps the best cells, seen so far. *)
Lemma Insert_best (a all : list Z) (x : Z) :
  Z.of_nat (length a) < 2 ^ 31 → (0 < length a)%nat →
  heap_from (key := key) (length a) 0 a → best_of key a all →
  ∃ a', Insert a (Z.of_nat (length a)) x = Some a' ∧ length a' = length a ∧
    heap_from (key := key) (length a') 0 a' ∧ best_of key a' (all ++ [x]).
Proof.
  intros Hn Hpos Hh (rest & Hp & Hle).
  destruct (Insert_spec (length a) a x) as (a' & Hi & Hh' & Hl & Hc); [done|lia|done|].
  exists a'. split; [done|]. split; [done|]. split; [by rewrite Hl|].
  rewrite above_key in Hc. destruct (Z.ltb_spec (key x) (key (a !!! 0%nat))) as [Hlt|Hge].
  - destruct Hc as [Hc _]. rewrite insert_perm in Hc by done.
    set (top := a !!! 0%nat) in *.
    assert (a ≡ₚ top :: delete 0%nat a) as Ha
      by (apply delete_Permutation, list_lookup_lookup_total_lt; done).
    set (d := delete 0%nat a) in *. clearbody d.
    exists (top :: rest). split.
    + rewrite <-Hp, Hc, Ha. simpl. rewrite <-!Permutation_middle, app_nil_r. apply perm_swap.
    + intros y z Hy Hz. rewrite Hc in Hy. apply elem_of_cons in Hz.
      assert (∀ w, w ∈ rest → key top ≤ key w) as Hr.
      { intros w Hw. apply Hle; [|done]. rewrite Ha. by left. }
      assert (key y ≤ key top) as Hyt.
      { apply elem_of_cons in Hy as [->|Hy]; [lia|]. apply heap_root_elem; [done|].
        rewrite Ha. by right. }
      destruct Hz as [->|Hz]; [done|]. specialize (Hr z Hz). lia.
  - subst a'. exists (rest ++ [x]). split; [by rewrite app_assoc, Hp|].
    intros y z Hy Hz. apply elem_of_app in Hz as [Hz|Hz]; [by apply Hle|].
    apply list_elem_of_singleton in Hz as ->. pose proof (heap_root_elem a y Hh Hy). lia.
Qed.

Lemma insert_all_best (xs : list Z) : ∀ (a all : list Z),
  Z.of_nat (length a) < 2 ^ 31 → (0 < length a)%nat →
  heap_from (key := key) (length a) 0 a → best_of key a all →
  ∃ a', insert_all a (Z.of_nat (length a)) xs = Some a' ∧ length a' = length a ∧
    best_of key a' (all ++ xs).
Proof.
  induction xs as [|x xs IH]; intros a all Hn Hpos Hh Hb; cbn [insert_all].
  { exists a. by rewrite app_nil_r. }
  destruct (Insert_best a all x) as (a1 & -> & Hl & Hh1 & Hb1); try done.
  cbn [mbind option_bind]. rewrite <-Hl in Hn, Hpos |- *.
  destruct (IH a1 (all ++ [x])) as (a' & -> & Hl' & Hb'); try done.
  exists a'. by rewrite <-app_assoc in Hb'.
Qed.

Lemma stream_best (a xs : list Z) :
  Z.of_nat (length a) < 2 ^ 31 → (0 < length a)%nat →
  ∃ h a', HeapCreat a (Z.of_nat (length a)) = Some h ∧
    insert_all h (Z.of_nat (length a)) xs = Some a' ∧ length a' = length a ∧
    best_of key a' (a ++ xs).
Proof.
  intros Hn Hpos.
  destruct (HeapCreat_spec (length a) a) as (h & Hc & Hr & Hh); [done|done|].
  pose proof (reordered_length _ _ _ Hr) as Hl.
  destruct (insert_all_best xs h a) as (a' & Hi & Hl' & Hb); [by rewrite Hl|by rewrite Hl|by rewrite Hl| |].
  { exists []. split; [rewrite app_nil_r; apply Hr|]. by intros x y _ ?%elem_of_nil. }
  exists h, a'. rewrite Hl in Hi, Hl'. done.
Qed.
End Stream.

(** ** Properties *)

(** both constructors, on every array with a heap of less than 2^31
    cells, terminate without leaving it, reorder the heap's cells only, leave
    every cell at or above ([Max]) or at or below ([Min]) its children, and put
    the greatest or least cell at index 0. *)
Theorem HeapCreat_heap (a : list Z) (n : nat) :
  Z.of_nat n < 2 ^ 31 → (n ≤ length a)%nat →
  (∃ h, MaxHeapCreat a (Z.of_nat n) = Some h ∧ h ≡ₚ a ∧ drop n h = drop n a ∧
    (∀ i j, child i j → (j < n)%nat → h !!! j ≤ h !!! i) ∧
    (∀ j, (j < n)%nat → h !!! j ≤ h !!! 0%nat)) ∧
  (∃ h, MinHeapCreat a (Z.of_nat n) = Some h ∧ h ≡ₚ a ∧ drop n h = drop n a ∧
    (∀ i j, child i j → (j < n)%nat → h !!! i ≤ h !!! j) ∧
    (∀ j, (j < n)%nat → h !!! 0%nat ≤ h !!! j)).
Proof.
  intros Hn Hl. split.
  - destruct (HeapCreat_spec (H := gt_above) (key := id) n a Hn Hl) as (h & Hc & [Hp Hd] & Hh).
    exists h. split_and!; try done.
    + intros i j Hij Hj. apply (Hh i j); [lia|done|done].
    + apply (heap_root (H := gt_above) (key := id) n h Hh).
  - destruct (HeapCreat_spec (H := lt_above) (key := Z.opp) n a Hn Hl) as (h & Hc & [Hp Hd] & Hh).
    exists h. split_and!; try done.
    + intros i j Hij Hj. pose proof (Hh i j ltac:(lia) Hij Hj). lia.
    + intros j Hj. pose proof (heap_root (H := lt_above) n h Hh j Hj). lia.
Qed.

(** C28: a max heap built from N numbers and fed any stream through [MaxInsert]
    holds the N smallest of all the numbers seen (with their multiplicity); the
    min heap with [MinInsert] holds the N greatest. *)
Theorem heap_stream_best (a xs : list Z) :
  Z.of_nat (length a) < 2 ^ 31 → (0 < length a)%nat →
  let n := Z.of_nat (length a) in
  (∃ h kept rest, MaxHeapCreat a n = Some h ∧
    insert_all (H := gt_above) h n xs = Some kept ∧ length kept = length a ∧
    kept ++ rest ≡ₚ a ++ xs ∧ ∀ x y, x ∈ kept → y ∈ rest → x ≤ y) ∧
  (∃ h kept rest, MinHeapCreat a n = Some h ∧
    insert_all (H := lt_above) h n xs = Some kept ∧ length kept = length a ∧
    kept ++ rest ≡ₚ a ++ xs ∧ ∀ x y, x ∈ kept → y ∈ rest → y ≤ x).
Proof.
  intros Hn Hpos n. split.
  - destruct (stream_best (H := gt_above) (key := id) a xs Hn Hpos) as (h & kept & H1 & H2 & H3 & rest & H4 & H5).
    by exists h, kept, rest.
  - destruct (stream_best (H := lt_above) (key := Z.opp) a xs Hn Hpos) as (h & kept & H1 & H2 & H3 & rest & H4 & H5).
    exists h, kept, rest. split_and!; try done. intros x y Hx Hy. specialize (H5 x y Hx Hy). lia.
Qed.

(** ** Witnesses (the arrays of heap/main.c) *)

Lemma HeapCreat_heap_witness :
  MaxHeapCreat [2;20;13;18;15;8;3;5;4;25] 10 = Some [25;20;13;18;15;8;3;5;4;2] ∧
  ∃ h, MinHeapCreat [2;20;13;18;15;8;3;5;4;25] 10 = Some h ∧
    ∀ j, (j < 10)%nat → h !!! 0%nat ≤ h !!! j.
Proof.
  split; [vm_compute; reflexivity|].
  destruct (HeapCreat_heap [2;20;13;18;15;8;3;5;4;25] 10) as [_ (h & H1 & _ & _ & _ & H2)];
    [lia|simpl; lia|]. exists h. split; [exact H1|exact H2].
Defined.

Lemma heap_stream_best_witness :
  (h ← MaxHeapCreat [2;20;13;18] 4; insert_all (H := gt_above) h 4 [7;40;1]) = Some [13;7;1;2] ∧
  ∃ h kept rest, MaxHeapCreat [2;20;13;18] 4 = Some h ∧
    insert_all (H := gt_above) h 4 [7;40;1] = Some kept ∧
    kept ++ rest ≡ₚ [2;20;13;18] ++ [7;40;1] ∧ ∀ x y, x ∈ kept → y ∈ rest → x ≤ y.
Proof.
  split; [vm_compute; reflexivity|].
  destruct (heap_stream_best [2;20;13;18] [7;40;1]) as [(h & k & r & H1 & H2 & _ & H3 & H4) _];
    [simpl; lia|simpl; lia|].
  exists h, k, r. split; [exact H1|]. split; [exact H2|]. split; [exact H3|exact H4].
Defined.
