(* ===== verification/Kmp.v ===== *)
(** * String search (kmp/kmp.c)

    [makeNext] fills the prefix table of the pattern, [kmp] prints the shift of
    every occurrence.  A C string is the list of its bytes, read with a NUL
    after the last; [next] is the caller's [int] array.  A length is stored in an
    [int]; no index goes past it, so that none overflows. *)

From S2P Require Import Prelude.

(** ** The code *)

(** [s[i]] of a NUL-terminated string. *)
Definition char_at (s : list Z) (i : Z) : option Z := get (s ++ [NUL]) i.

(** [int m = strlen(P)]. *)
Definition strlen_int (s : list Z) : Z := s32 (Z.of_nat (length s)).

(** [while (k > 0 && c != P[k]) k = next[k-1];] *)
Fixpoint fall (fuel : nat) (P next : list Z) (c k : Z) : option Z :=
  match fuel with
  | O => None
  | S fuel =>
    if 0 <? k then
      p ← char_at P k;
      if c =? p then Some k
      else k ← get next (k - 1); fall fuel P next c k
    else Some k
  end.

(** [while ...; if (P[k] == c) k++;] *)
Definition advance (P next : list Z) (c k : Z) : option Z :=
  k ← fall (S (Z.to_nat k)) P next c k;
  p ← char_at P k;
  Some (if p =? c then k + 1 else k).

(** [for (q = 1, k = 0; q < m; ++q)]; [n] is [m - q]. *)
Fixpoint makeNext_loop (n : nat) (P next : list Z) (q k : Z) : option (list Z) :=
  match n with
  | O => Some next
  | S n =>
    c ← char_at P q;
    k ← advance P next c k;
    next ← set next q k;
    makeNext_loop n P next (q + 1) k
  end.

Definition makeNext (P next : list Z) : option (list Z) :=
  next ← set next 0 0;
  makeNext_loop (Z.to_nat (strlen_int P - 1)) P next 1 0.

(** [for (i = 0, q = 0; i < n; ++i)]: the shifts printed; [T] is the text from
    [i] on. *)
Fixpoint kmp_loop (T P next : list Z) (i q : Z) : option (list Z) :=
  match T with
  | [] => Some []
  | c :: T =>
    q ← advance P next c q;
    out ← kmp_loop T P next (i + 1) q;
    Some (if q =? strlen_int P then (i - strlen_int P + 1) :: out else out)
  end.

Definition kmp (T P next : list Z) : option (list Z * list Z) :=
  next ← makeNext P next;
  out ← kmp_loop (take (Z.to_nat (strlen_int T)) T) P next 0 0;
  Some (out, next).

(** ** Specification *)

(** [k] is the length of the longest prefix of [P] that ends the text [X]. *)
Definition longest (P X : list Z) (k : nat) : Prop :=
  (k ≤ length P)%nat ∧ take k P `suffix_of` X ∧
  ∀ j, (j ≤ length P)%nat → take j P `suffix_of` X → (j ≤ k)%nat.

(** The first [n] cells of the prefix table: cell [i] is the length of the
    longest proper prefix of [P[0..i]] that also ends it. *)
Definition prefix_table (P next : list Z) (n : nat) : Prop :=
  ∀ i, (i < n)%nat → ∃ k, next !! i = Some (Z.of_nat k) ∧ longest P (drop 1 (take (S i) P)) k.

(** The pattern occurs in [T] at shift [s]. *)
Definition occurs (T P : list Z) (s : nat) : Prop := take (length P) (drop s T) = P.

#[export] Instance occurs_dec (T P : list Z) (s : nat) : Decision (occurs T P s) := decide (_ = _).

(** All shifts, in increasing order. *)
Definition shifts (T P : list Z) : list nat :=
  filter (occurs T P) (seq 0 (S (length T) - length P)).

(** ** Lemmas *)

Lemma strlen_int_length (s : list Z) : Z.of_nat (length s) < 2 ^ 31 → strlen_int s = Z.of_nat (length s).
Proof. intros H. apply swrap_small; [done|]. lia. Qed.

Lemma char_at_lt (s : list Z) (i : nat) (c : Z) : s !! i = Some c → char_at s (Z.of_nat i) = Some c.
Proof.
  intros H. unfold char_at. pose proof (lookup_lt_Some _ _ _ H).
  rewrite get_nat by (rewrite length_app; lia).
  f_equal. apply list_lookup_total_correct. by rewrite lookup_app_l.
Qed.

Lemma char_at_end (s : list Z) : char_at s (Z.of_nat (length s)) = Some NUL.
Proof.
  unfold char_at. rewrite get_nat by (rewrite length_app; simpl; lia).
  f_equal. apply list_lookup_total_correct. by rewrite lookup_app_r, Nat.sub_diag.
Qed.

(** A prefix one longer ends [X ++ [c]] when the prefix ends [X] and [c] follows. *)
Lemma suffix_extend (P X : list Z) (c : Z) (j : nat) : (S j ≤ length P)%nat →
  take (S j) P `suffix_of` X ++ [c] ↔ take j P `suffix_of` X ∧ P !! j = Some c.
Proof.
  intros Hj. destruct (lookup_lt_is_Some_2 P j) as [p Hp]; [lia|].
  rewrite (take_S_r _ _ _ Hp), Hp. split.
  - intros [Y E]. rewrite app_assoc in E. apply app_inj_tail in E as [E ->]. split; [by exists Y|done].
  - intros [[Y ->] [= ->]]. exists Y. by rewrite app_assoc.
Qed.

Lemma suffix_shorter (P X : list Z) (j q : nat) : (j < q)%nat → (q ≤ length P)%nat →
  take j P `suffix_of` X → take q P `suffix_of` X → take j P `suffix_of` drop 1 (take q P).
Proof.
  intros Hj Hq H1 H2.
  destruct (suffix_weak_total _ _ _ H1 H2) as [[Y E]|H].
  - assert (length (take q P) = length (Y ++ take j P)) as El by (by rewrite E).
    rewrite length_app, !length_take in El.
    destruct Y as [|y Y]; [simpl in El; lia|]. rewrite E. by exists Y.
  - apply suffix_length in H. rewrite !length_take in H. lia.
Qed.

(** The candidates left: prefixes longer than [q] that end [X] do not go on with [c]. *)
Definition candidate (P X : list Z) (c : Z) (q : nat) : Prop :=
  (q ≤ length P)%nat ∧ take q P `suffix_of` X ∧
  ∀ j, (q < j ≤ length P)%nat → take j P `suffix_of` X → P !! j ≠ Some c.

Lemma fall_spec (P next X : list Z) (c : Z) (fuel : nat) : ∀ q,
  c ≠ NUL → prefix_table P next q → candidate P X c q → (q < fuel)%nat →
  ∃ q', fall fuel P next c (Z.of_nat q) = Some (Z.of_nat q') ∧ (q' ≤ q)%nat ∧
    candidate P X c q' ∧ (q' = 0%nat ∨ P !! q' = Some c).
Proof.
  intros q Hc. revert q. induction fuel as [|fuel IH]; intros q Ht Hq Hf; [lia|].
  cbn [fall]. destruct (Z.ltb_spec 0 (Z.of_nat q)) as [H0|H0].
  2: { exists q. split_and!; [done|lia|apply Hq..|left; lia]. }
  destruct Hq as (Hl & Hs & Hj).
  assert (∃ p, char_at P (Z.of_nat q) = Some p ∧ (c = p ↔ P !! q = Some c)) as (p & -> & Hp).
  { destruct (P !! q) as [p|] eqn:Ep.
    - exists p. split; [by apply char_at_lt|naive_solver].
    - apply lookup_ge_None in Ep. assert (q = length P) as -> by lia.
      exists NUL. split; [apply char_at_end|naive_solver]. }
  cbn [mbind option_bind]. destruct (Z.eqb_spec c p) as [E|E].
  { exists q. split_and!; [done|lia|done..|right; by apply Hp]. }
  destruct (Ht (q - 1)%nat) as (k & Hk & Hkl & Hks & Hkm); [lia|].
  replace (S (q - 1)) with q in Hks, Hkm by lia.
  assert (k < q)%nat as Hkq.
  { apply suffix_length in Hks. rewrite length_drop, !length_take in Hks. lia. }
  replace (Z.of_nat q - 1) with (Z.of_nat (q - 1)) by lia.
  rewrite get_nat by (by eapply lookup_lt_Some).
  rewrite (list_lookup_total_correct _ _ _ Hk). cbn [mbind option_bind].
  destruct (IH k) as (q' & -> & Hq' & Hc' & Hr); [|..|lia|].
  { intros i Hi. apply Ht. lia. }
  { split_and!; [lia| |].
    - transitivity (drop 1 (take q P)); [done|]. transitivity (take q P); [|done].
      apply suffix_drop.
    - intros j Hj' Hjs. destruct (Nat.lt_trichotomy j q) as [Hlt|[->|Hgt]].
      + pose proof (Hkm j ltac:(lia) (suffix_shorter _ _ _ _ Hlt Hl Hjs Hs)). lia.
      + tauto.
      + apply Hj; [lia|done]. }
  exists q'. split_and!; [done|lia|apply Hc'..|done].
Qed.

Lemma advance_spec (P next X : list Z) (c : Z) (q : nat) :
  c ≠ NUL → (0 < length P)%nat → prefix_table P next q → longest P X q →
  ∃ q', advance P next c (Z.of_nat q) = Some (Z.of_nat q') ∧ longest P (X ++ [c]) q'.
Proof.
  intros Hc HP Ht (Hl & Hs & Hm). unfold advance. rewrite Nat2Z.id.
  destruct (fall_spec P next X c (S q) q) as (k & -> & Hk & (Hkl & Hks & Hkm) & Hk0); [done|done| |lia|].
  { split_and!; [done|done|]. intros j Hj Hjs. specialize (Hm j ltac:(lia) Hjs). lia. }
  cbn [mbind option_bind].
  assert (∀ j, (S j ≤ length P)%nat → take (S j) P `suffix_of` X ++ [c] → (j ≤ k)%nat) as Hmax.
  { intros j Hj [Hjs Hjc]%suffix_extend; [|lia]. destruct (decide (j ≤ k)%nat); [done|].
    destruct (Hkm j ltac:(lia) Hjs Hjc). }
  destruct (P !! k) as [p|] eqn:Ep.
  - rewrite (char_at_lt _ _ _ Ep). cbn [mbind option_bind].
    destruct (Z.eqb_spec p c) as [->|Hpc].
    + exists (S k). split; [f_equal; lia|]. apply lookup_lt_Some in Ep as Hlt.
      split_and!; [lia|by apply suffix_extend|].
      intros [|j] Hj Hjs; [lia|]. specialize (Hmax j Hj Hjs). lia.
    + destruct Hk0 as [->|]; [|congruence].
      exists 0%nat. split; [done|]. split_and!; [lia|apply suffix_nil|].
      intros [|j] Hj Hjs; [lia|]. pose proof (Hmax j Hj Hjs) as Hj0.
      assert (j = 0%nat) as -> by lia. apply suffix_extend in Hjs as [_ ?]; [congruence|lia].
  - destruct Hk0 as [->|Hk0]; [|congruence]. apply lookup_ge_None in Ep. lia.
Qed.

Lemma longest_nil (P : list Z) : longest P [] 0.
Proof.
  split_and!; [lia|done|]. intros j Hj Hs. apply suffix_length in Hs.
  rewrite length_take in Hs. simpl in Hs. lia.
Qed.

Lemma longest_full (P X : list Z) (q : nat) : longest P X q → (q = length P ↔ P `suffix_of` X).
Proof.
  intros (Hl & Hs & Hm). split.
  - intros ->. by rewrite firstn_all in Hs.
  - intros H. specialize (Hm (length P) ltac:(lia)). rewrite firstn_all in Hm.
    specialize (Hm H). lia.
Qed.

Lemma longest_le (P X : list Z) (q : nat) : longest P X q → (q ≤ length X)%nat.
Proof.
  intros (Hl & Hs & _). apply suffix_length in Hs. rewrite length_take in Hs. lia.
Qed.

Lemma makeNext_loop_spec (P : list Z) (n : nat) : ∀ (next : list Z) (q k : nat),
  NUL ∉ P → (q + n = length P)%nat → (0 < q)%nat → (length P ≤ length next)%nat →
  prefix_table P next q → longest P (drop 1 (take q P)) k →
  ∃ next', makeNext_loop n P next (Z.of_nat q) (Z.of_nat k) = Some next' ∧
    prefix_table P next' (length P) ∧ length next' = length next ∧
    drop (length P) next' = drop (length P) next.
Proof.
  induction n as [|n IH]; intros next q k HP Hq H0 Hl Ht Hk; cbn [makeNext_loop].
  { exists next. replace q with (length P) in Ht by lia. done. }
  destruct (lookup_lt_is_Some_2 P q) as [c Hc]; [lia|].
  rewrite (char_at_lt _ _ _ Hc). cbn [mbind option_bind].
  pose proof (longest_le _ _ _ Hk) as Hkl. rewrite length_drop, length_take in Hkl.
  destruct (advance_spec P next (drop 1 (take q P)) c k) as (k' & -> & Hk');
    [intros ->; by apply HP, (list_elem_of_lookup_2 _ _ _ Hc)|lia|intros i Hi; apply Ht; lia|done|].
  cbn [mbind option_bind]. rewrite set_nat by lia. cbn [mbind option_bind].
  assert (drop 1 (take q P) ++ [c] = drop 1 (take (S q) P)) as E.
  { rewrite (take_S_r _ _ _ Hc), drop_app_le by (rewrite length_take; lia). done. }
  rewrite E in Hk'. replace (Z.of_nat q + 1) with (Z.of_nat (S q)) by lia.
  destruct (IH (<[q := Z.of_nat k']> next) (S q) k') as (next' & -> & H1 & H2 & H3);
    [done|lia|lia|by rewrite length_insert| |done|].
  { intros i Hi. destruct (decide (i = q)) as [->|].
    - exists k'. split; [apply list_lookup_insert_eq; lia|done].
    - rewrite list_lookup_insert_ne by done. apply Ht. lia. }
  exists next'. rewrite H2, H3, length_insert. split_and!; try done.
  by rewrite drop_insert_lt by lia.
Qed.

Lemma makeNext_spec (P next : list Z) :
  Z.of_nat (length P) < 2 ^ 31 → NUL ∉ P → (0 < length P ≤ length next)%nat →
  ∃ next', makeNext P next = Some next' ∧ prefix_table P next' (length P) ∧
    length next' = length next ∧ drop (length P) next' = drop (length P) next.
Proof.
  intros H31 HP Hl. unfold makeNext. rewrite strlen_int_length by done.
  replace (Z.to_nat (Z.of_nat (length P) - 1)) with (length P - 1)%nat by lia.
  change 0 with (Z.of_nat 0). rewrite set_nat by lia.
  cbn [mbind option_bind]. change 1 with (Z.of_nat 1).
  destruct (makeNext_loop_spec P (length P - 1) (<[0%nat := Z.of_nat 0]> next) 1 0)
    as (next' & -> & H1 & H2 & H3); [done|lia|lia|by rewrite length_insert; lia|..].
  { intros i Hi. assert (i = 0%nat) as -> by lia. exists 0%nat.
    split; [apply list_lookup_insert_eq; lia|].
    destruct P as [|p P]; [simpl in Hl; lia|]. apply longest_nil. }
  { destruct P as [|p P]; [simpl in Hl; lia|]. apply longest_nil. }
  exists next'. rewrite H2, H3, length_insert. split_and!; try done.
  by rewrite drop_insert_lt by lia.
Qed.

(** The ends of the matches in [text] among the positions [l]. *)
Definition match_ends (P text : list Z) (l : list nat) : list nat :=
  filter (λ e, P `suffix_of` take e text) l.

Lemma kmp_loop_spec (P next : list Z) (T : list Z) : Z.of_nat (length P) < 2 ^ 31 → ∀ (X : list Z) (q : nat),
  NUL ∉ T → (0 < length P)%nat → prefix_table P next (length P) → longest P X q →
  kmp_loop T P next (Z.of_nat (length X)) (Z.of_nat q) =
    Some ((λ e, Z.of_nat e - Z.of_nat (length P)) <$>
      match_ends P (X ++ T) (seq (S (length X)) (length T))).
Proof.
  intros H31. induction T as [|c T IH]; intros X q HT HP Ht Hq; [done|].
  cbn [kmp_loop length]. apply not_elem_of_cons in HT as [Hc HT].
  destruct (advance_spec P next X c q) as (q' & -> & Hq'); [done|done|..|done|].
  { intros i Hi. apply Ht. destruct Hq. lia. }
  cbn [mbind option_bind].
  replace (Z.of_nat (length X) + 1) with (Z.of_nat (length (X ++ [c])))
    by (rewrite length_app; simpl; lia).
  rewrite (IH (X ++ [c]) q') by done. cbn [mbind option_bind]. f_equal.
  rewrite <-app_assoc. simpl app. rewrite length_app. simpl length. rewrite Nat.add_1_r.
  rewrite <-(cons_seq (length T)). unfold match_ends.
  rewrite filter_cons.
  assert (take (S (length X)) (X ++ c :: T) = X ++ [c]) as E.
  { rewrite (cons_middle c X T), app_assoc, take_app_le by (rewrite length_app; simpl; lia).
    apply take_ge. rewrite length_app. simpl. lia. }
  rewrite E. pose proof (longest_full _ _ _ Hq') as Hf.
  rewrite strlen_int_length by done.
  destruct (Z.eqb_spec (Z.of_nat q') (Z.of_nat (length P))) as [Heq|Hne].
  - rewrite decide_True by (apply Hf; lia). rewrite fmap_cons. f_equal. lia.
  - rewrite decide_False by (rewrite <-Hf; lia). done.
Qed.

Lemma filter_none {A} (Q : A → Prop) `{∀ x, Decision (Q x)} (l : list A) :
  (∀ x, x ∈ l → ¬ Q x) → filter Q l = [].
Proof.
  induction l as [|x l IH]; intros H'; [done|]. rewrite filter_cons_False by (apply H'; by left).
  apply IH. intros y Hy. apply H'. by right.
Qed.

Lemma filter_ext_in {A} (Q R : A → Prop) `{∀ x, Decision (Q x)} `{∀ x, Decision (R x)} (l : list A) :
  (∀ x, x ∈ l → Q x ↔ R x) → filter Q l = filter R l.
Proof.
  induction l as [|x l IH]; intros E; [done|].
  rewrite !filter_cons, IH by (intros y Hy; apply E; by right).
  specialize (E x (list_elem_of_here x l)). repeat case_decide; tauto.
Qed.

Lemma filter_fmap {A B} (f : A → B) (Q : B → Prop) `{∀ x, Decision (Q x)} (l : list A) :
  filter Q (f <$> l) = f <$> filter (λ x, Q (f x)) l.
Proof.
  induction l as [|x l IH]; [done|]. rewrite fmap_cons, !filter_cons, IH.
  by case_decide.
Qed.

Lemma match_ends_shifts (P T : list Z) : (0 < length P)%nat →
  match_ends P T (seq 1 (length T)) = (λ s, (s + length P)%nat) <$> shifts T P.
Proof.
  intros HP. unfold match_ends, shifts.
  assert (∀ e, (e < length P)%nat → ¬ P `suffix_of` take e T) as Hshort.
  { intros e He Hs. apply suffix_length in Hs. rewrite length_take in Hs. lia. }
  destruct (decide (length P ≤ length T)%nat) as [Hle|Hlt].
  - replace (length T) with ((length P - 1) + (S (length T) - length P))%nat at 1 by lia.
    rewrite seq_app, filter_app, filter_none.
    2: { intros e He%elem_of_seq. apply Hshort. lia. }
    replace (1 + (length P - 1))%nat with (length P + 0)%nat by lia.
    rewrite app_nil_l, <-fmap_add_seq, filter_fmap.
    rewrite (list_fmap_ext _ (λ s, (s + length P)%nat)) by (intros; lia). f_equal.
    apply filter_ext_in. intros s Hs%elem_of_seq. unfold occurs.
    replace (take (length P + s) T) with (take s T ++ take (length P) (drop s T))
      by (rewrite Nat.add_comm; apply take_take_drop).
    split.
    + intros [Y E]. apply app_inj_2 in E as [_ E]; [done|].
      rewrite length_take, length_drop. lia.
    + intros E. rewrite E. by exists (take s T).
  - rewrite (filter_none (λ e, P `suffix_of` take e T)).
    + replace (S (length T) - length P)%nat with 0%nat by lia. done.
    + intros e He%elem_of_seq. apply Hshort. lia.
Qed.

(** ** Properties *)

(** C29: for strings whose lengths fit in an [int], a pattern of at least one
    character and a [next] array with a cell per pattern character, [kmp] terminates without reading or writing outside
    its arguments, prints exactly the shifts at which the pattern occurs, in
    increasing order and overlaps included, and leaves in [next] the prefix
    table of the pattern, with the cells past it untouched. *)
Theorem kmp_correct (T P next : list Z) :
  Z.of_nat (length T) < 2 ^ 31 → Z.of_nat (length P) < 2 ^ 31 →
  NUL ∉ T → NUL ∉ P → (0 < length P ≤ length next)%nat →
  ∃ next', kmp T P next = Some (Z.of_nat <$> shifts T P, next') ∧
    prefix_table P next' (length P) ∧ length next' = length next ∧
    drop (length P) next' = drop (length P) next.
Proof.
  intros HT31 HP31 HT HP Hl. unfold kmp.
  rewrite strlen_int_length, Nat2Z.id, take_ge by done.
  destruct (makeNext_spec P next HP31 HP Hl) as (next' & -> & Ht & Hl' & Hd).
  cbn [mbind option_bind]. change 0 with (Z.of_nat 0).
  pose proof (kmp_loop_spec P next' T HP31 [] 0 HT ltac:(lia) Ht (longest_nil P)) as E.
  simpl length in E. change (Z.of_nat 0) with 0 in *. rewrite E.
  cbn [mbind option_bind]. exists next'. split; [|done]. do 2 f_equal.
  simpl app. rewrite match_ends_shifts by lia. rewrite <-list_fmap_compose.
  apply list_fmap_ext. intros i s _. unfold compose. lia.
Qed.

(** The call of [main], and an overlapping search. *)
Lemma kmp_correct_witness :
  kmp (bytes "ababxbababcadfdsss") (bytes "abca") (replicate 20 0) =
    Some ([8], [0;0;0;1] ++ replicate 16 0) ∧
  ∃ next', kmp (bytes "aaaa") (bytes "aa") [5; 6; 7] = Some ([0; 1; 2], next') ∧
    prefix_table (bytes "aa") next' 2.
Proof.
  split; [vm_compute; reflexivity|].
  destruct (kmp_correct (bytes "aaaa") (bytes "aa") [5; 6; 7]) as (next' & H & Ht & _);
    [done|done|apply (bool_decide_eq_true_1 _); vm_compute; reflexivity
    |apply (bool_decide_eq_true_1 _); vm_compute; reflexivity|simpl; lia|].
  exists next'. split; [exact H|exact Ht].
Defined.
