(* ===== verification/CString.v ===== *)
(** * C strings as lists of bytes

    A pointer into a NUL-terminated string is the list of the bytes from there
    to the NUL.  [strspn], [strcspn], [strtoul], [strtol] and the ["%d"] of
    [sprintf], with the lemmas that relate printing and parsing. *)

From S2P Require Import Prelude.

(** ** Spans *)

Definition in_set (set : list Z) (c : Z) : bool := existsb (Z.eqb c) set.

Fixpoint span_by (p : Z → bool) (s : list Z) : nat :=
  match s with c :: s' => if p c then S (span_by p s') else 0 | [] => 0 end.

Definition strspn (s accept : list Z) : nat := span_by (in_set accept) s.
Definition strcspn (s reject : list Z) : nat := span_by (λ c, negb (in_set reject c)) s.

(** [*ptr] is NUL or in the set. *)
Definition at_end_or (s set : list Z) : bool :=
  match s with [] => true | c :: _ => in_set set c end.

(** Equality of two pointers into one string. *)
Definition ptr_eqb (a b : list Z) : bool := (length a =? length b)%nat.

Definition starts_with (s p : list Z) : bool := bool_decide (take (length p) s = p).

(** ** Numbers *)

Definition isspace (c : Z) : bool := (c =? 32) || ((9 <=? c) && (c <=? 13)).
Definition isdigit (c : Z) : bool := (chr "0" <=? c) && (c <=? chr "9").

Fixpoint skip_space (s : list Z) : list Z :=
  match s with c :: s' => if isspace c then skip_space s' else s | [] => [] end.

Definition split_sign (s : list Z) : bool * list Z :=
  match s with
  | c :: s' => if c =? chr "-" then (true, s') else if c =? chr "+" then (false, s') else (false, s)
  | [] => (false, [])
  end.

Fixpoint dec_run (s : list Z) (acc : Z) : Z * list Z :=
  match s with
  | c :: s' => if isdigit c then dec_run s' (acc * 10 + (c - chr "0")) else (acc, s)
  | [] => (acc, [])
  end.

(** The sign, the magnitude and the end of the number a text starts with. *)
Definition scan_number (s : list Z) : option (bool * Z * list Z) :=
  let '(neg, s1) := split_sign (skip_space s) in
  match s1 with
  | c :: _ => if isdigit c then let '(v, e) := dec_run s1 0 in Some (neg, v, e) else None
  | [] => None
  end.

Definition ULONG_MAX : Z := 2 ^ 64 - 1.
Definition LONG_MAX : Z := 2 ^ 63 - 1.

(** The result, [*endptr], and whether [errno] is set. *)
Definition strtoul (s : list Z) : Z * list Z * bool :=
  match scan_number s with
  | None => (0, s, false)
  | Some (neg, v, e) =>
    if ULONG_MAX <? v then (ULONG_MAX, e, true) else (u64 (if neg : bool then - v else v), e, false)
  end.

Definition strtol (s : list Z) : Z * list Z * bool :=
  match scan_number s with
  | None => (0, s, false)
  | Some (neg, v, e) =>
    let v := if neg : bool then - v else v in
    if LONG_MAX <? v then (LONG_MAX, e, true)
    else if v <? - LONG_MAX - 1 then (- LONG_MAX - 1, e, true) else (v, e, false)
  end.

Fixpoint show_digits (fuel : nat) (n : Z) (acc : list Z) : list Z :=
  match fuel with
  | O => acc
  | S fuel =>
    let acc := (chr "0" + n mod 10) :: acc in
    if n <? 10 then acc else show_digits fuel (n / 10) acc
  end.

(** ["%u"] of a non-negative number, ["%d"] of any. *)
Definition show_u (n : Z) : list Z := show_digits (S (Z.to_nat (Z.log2 n))) n [].
Definition show_d (n : Z) : list Z := if n <? 0 then chr "-" :: show_u (- n) else show_u n.
(** ["%+d"] *)
Definition show_plus_d (n : Z) : list Z := if n <? 0 then show_d n else chr "+" :: show_u n.

(** ** Lemmas *)

Lemma in_set_spec (set : list Z) (c : Z) : in_set set c = true ↔ c ∈ set.
Proof.
  unfold in_set. rewrite existsb_exists. split.
  - intros (x & Hx & <-%Z.eqb_eq). by apply list_elem_of_In.
  - intros H. exists c. split; [by apply list_elem_of_In|apply Z.eqb_refl].
Qed.

Lemma span_by_le (p : Z → bool) (s : list Z) : (span_by p s ≤ length s)%nat.
Proof. induction s as [|c s IH]; simpl; [lia|]. destruct (p c); lia. Qed.

Lemma span_by_all (p : Z → bool) (s t : list Z) :
  Forall (λ c, p c = true) s → match t with [] => True | c :: _ => p c = false end →
  span_by p (s ++ t) = length s.
Proof.
  intros Hs Ht. induction Hs as [|c s Hc Hs IH]; simpl.
  - destruct t as [|c t]; [done|]. simpl. by rewrite Ht.
  - by rewrite Hc, IH.
Qed.

Lemma span_by_take (p : Z → bool) (s : list Z) : Forall (λ c, p c = true) (take (span_by p s) s).
Proof.
  induction s as [|c s IH]; simpl; [constructor|]. destruct (p c) eqn:E; simpl; [by constructor|constructor].
Qed.

Lemma span_by_drop (p : Z → bool) (s : list Z) :
  match drop (span_by p s) s with [] => True | c :: _ => p c = false end.
Proof. induction s as [|c s IH]; simpl; [done|]. by destruct (p c) eqn:E. Qed.

Lemma starts_with_spec (s p : list Z) : starts_with s p = true ↔ ∃ t, s = p ++ t.
Proof.
  unfold starts_with. rewrite bool_decide_eq_true. split.
  - intros E. exists (drop (length p) s). rewrite <-E at 1. by rewrite take_drop.
  - intros [t ->]. apply take_app_length.
Qed.

Lemma ptr_eqb_app (a b : list Z) : ptr_eqb (a ++ b) b = bool_decide (a = []).
Proof.
  unfold ptr_eqb. rewrite length_app. destruct a as [|x a].
  - apply Nat.eqb_refl.
  - rewrite bool_decide_false by done. apply Nat.eqb_neq. cbn [length]. lia.
Qed.

(** *** Printing and parsing *)

Lemma isdigit_show (n : Z) : 0 ≤ n < 10 → isdigit (chr "0" + n) = true.
Proof. intros H. unfold isdigit. chr_simpl. lia. Qed.

Lemma show_digits_spec (fuel : nat) : ∀ n acc, 0 ≤ n → n < 2 ^ Z.of_nat fuel →
  (0 < fuel)%nat →
  ∃ ds, show_digits fuel n acc = ds ++ acc ∧ ds ≠ [] ∧ Forall (λ c, isdigit c = true) ds ∧
    ∀ t a, dec_run (ds ++ t) a = dec_run t (a * 10 ^ Z.of_nat (length ds) + n).
Proof.
  induction fuel as [|fuel IH]; intros n acc H0 Hn Hf; [lia|]. cbn [show_digits].
  pose proof (Z.mod_pos_bound n 10 ltac:(lia)) as Hm.
  assert (∀ t a, dec_run (chr "0" + n mod 10 :: t) a = dec_run t (a * 10 + n mod 10)) as Hd.
  { intros t a. cbn [dec_run]. rewrite isdigit_show by done. f_equal. lia. }
  destruct (Z.ltb_spec n 10) as [Hs|Hs].
  - exists [chr "0" + n mod 10]. split_and!; [done|done|by repeat constructor; apply isdigit_show|].
    intros t a. cbn [app]. rewrite Hd. f_equal. rewrite Z.mod_small by lia. simpl length. lia.
  - destruct fuel as [|fuel]; [simpl in Hn; lia|].
    destruct (IH (n / 10) ((chr "0" + n mod 10) :: acc)) as (ds & -> & Hne & Hds & Hr);
      [apply Z.div_pos; lia| |lia|].
    { apply Z.div_lt_upper_bound; [lia|]. rewrite Nat2Z.inj_succ, Z.pow_succ_r in Hn by lia.
      pose proof (pow2_pos (Z.of_nat (S fuel))). lia. }
    exists (ds ++ [chr "0" + n mod 10]). rewrite <-app_assoc. split_and!; [done|by destruct ds| |].
    + apply Forall_app. split; [done|]. repeat constructor. by apply isdigit_show.
    + intros t a. rewrite <-app_assoc, Hr. cbn [app]. rewrite Hd. f_equal.
      rewrite length_app, Nat2Z.inj_add, Z.pow_add_r by lia. simpl (10 ^ Z.of_nat _).
      pose proof (Z.div_mod n 10 ltac:(lia)). lia.
Qed.

Lemma show_u_spec (n : Z) : 0 ≤ n →
  show_u n ≠ [] ∧ Forall (λ c, isdigit c = true) (show_u n) ∧
  ∀ t a, dec_run (show_u n ++ t) a = dec_run t (a * 10 ^ Z.of_nat (length (show_u n)) + n).
Proof.
  intros Hn. unfold show_u.
  destruct (show_digits_spec (S (Z.to_nat (Z.log2 n))) n []) as (ds & -> & H); [done| |lia|].
  - rewrite Nat2Z.inj_succ, Z2Nat.id by apply Z.log2_nonneg.
    destruct (decide (n = 0)) as [->|]; [done|]. apply Z.log2_spec. lia.
  - rewrite app_nil_r. exact H.
Qed.

(** The text after a number does not go on with a digit. *)
Definition number_ends (t : list Z) : Prop := match t with [] => True | c :: _ => isdigit c = false end.

Lemma dec_run_end (t : list Z) (a : Z) : number_ends t → dec_run t a = (a, t).
Proof. destruct t as [|c t]; [done|]. simpl. by intros ->. Qed.

Lemma isdigit_not (c : Z) : isdigit c = true →
  isspace c = false ∧ c ≠ chr "-" ∧ c ≠ chr "+" ∧ c ≠ 0 ∧ c ≠ chr "~" ∧ c ≠ 34.
Proof. unfold isdigit, isspace. chr_simpl. lia. Qed.

Lemma scan_show_u (n : Z) (t : list Z) : 0 ≤ n → number_ends t →
  scan_number (show_u n ++ t) = Some (false, n, t).
Proof.
  intros Hn Ht. destruct (show_u_spec n Hn) as (Hne & Hd & Hr). unfold scan_number.
  specialize (Hr t 0). rewrite (dec_run_end t) in Hr by done.
  destruct (show_u n) as [|c s]; [done|]. cbn [app] in Hr |- *.
  apply Forall_cons in Hd as [Hc _]. destruct (isdigit_not c Hc) as (Hsp & Hm & Hp & _).
  cbn [skip_space]. rewrite Hsp. cbn [split_sign].
  rewrite (proj2 (Z.eqb_neq _ _) Hm), (proj2 (Z.eqb_neq _ _) Hp). rewrite Hc, Hr.
  by rewrite Z.mul_0_l, Z.add_0_l.
Qed.

Lemma scan_show_d (n : Z) (t : list Z) : number_ends t →
  scan_number (show_d n ++ t) = Some (n <? 0, Z.abs n, t).
Proof.
  intros Ht. unfold show_d. destruct (Z.ltb_spec n 0).
  - pose proof (scan_show_u (- n) t ltac:(lia) Ht) as E.
    destruct (show_u_spec (- n) ltac:(lia)) as (Hne & Hd & _).
    destruct (show_u (- n)) as [|c s]; [done|]. apply Forall_cons in Hd as [Hc _].
    unfold scan_number in *. cbn [app] in *. change (skip_space (chr "-" :: c :: s ++ t)) with (chr "-" :: c :: s ++ t).
    cbn [split_sign]. rewrite Z.eqb_refl.
    destruct (isdigit_not c Hc) as (Hsp & Hm & Hp & _).
    cbn [skip_space] in E. rewrite Hsp in E. cbn [split_sign] in E.
    rewrite (proj2 (Z.eqb_neq _ _) Hm), (proj2 (Z.eqb_neq _ _) Hp), Hc in E. rewrite Hc.
    destruct (dec_run _ _). simplify_eq. do 3 f_equal. lia.
  - rewrite scan_show_u by (done || lia). do 3 f_equal. lia.
Qed.

Lemma strtol_show_d (n : Z) (t : list Z) : - 2 ^ 63 ≤ n < 2 ^ 63 → number_ends t →
  strtol (show_d n ++ t) = (n, t, false).
Proof.
  intros Hn Ht. unfold strtol. rewrite scan_show_d by done. unfold LONG_MAX.
  assert ((if n <? 0 then - Z.abs n else Z.abs n) = n) as -> by (destruct (Z.ltb_spec n 0); lia).
  rewrite !(proj2 (Z.ltb_ge _ _)) by lia. done.
Qed.

Lemma strtoul_show_d (n : Z) (t : list Z) : - 2 ^ 63 ≤ n < 2 ^ 63 → number_ends t →
  strtoul (show_d n ++ t) = (u64 n, t, false).
Proof.
  intros Hn Ht. unfold strtoul. rewrite scan_show_d by done. unfold ULONG_MAX.
  rewrite (proj2 (Z.ltb_ge _ _)) by lia. do 3 f_equal. destruct (Z.ltb_spec n 0); lia.
Qed.

Lemma show_d_chars (n : Z) : Forall (λ c, c = chr "-" ∨ isdigit c = true) (show_d n) ∧ show_d n ≠ [].
Proof.
  unfold show_d. destruct (Z.ltb_spec n 0).
  - split; [|done]. constructor; [by left|].
    destruct (show_u_spec (- n)) as (_ & H' & _); [lia|]. eapply Forall_impl; [exact H'|]. by right.
  - destruct (show_u_spec n) as (Hne & H' & _); [lia|]. split; [|done].
    eapply Forall_impl; [exact H'|]. by right.
Qed.
