(* ===== verification/Dechunk.v ===== *)
(** * The HTTP chunk decoder (http_chunk/dechunk.c)

    [memstr], the globals of the decoder as a record, [dechunk_init],
    [dechunk], [dechunk_free] and [dechunk_getbuff].  The input is one block of
    memory and an offset into it; the output lives in a heap of blocks, with an
    oracle that decides each [malloc] and [realloc].  Reading or writing
    outside a block, through NULL or through a freed block has no result.

    [eats] is the format the decoder accepts, as a relation on phases; its
    chunk sizes count the CRLF after the data. *)

From S2P Require Import Prelude CString.

(** ** Memory *)

(** What an allocation does: fail, return a fresh block, or (for [realloc])
    resize in place. *)
Inductive alloc_result := AFail | ANew | ASame.

#[export] Instance alloc_result_eq_dec : EqDecision alloc_result.
Proof. solve_decision. Defined.

(** A byte that was never written is [None]. *)
Record heap := Heap {
  blocks : gmap nat (list (option Z));
  next_block : nat;
  calls : nat;
}.

Definition resize_block (c : list (option Z)) (n : Z) : list (option Z) :=
  take (Z.to_nat n) c ++ replicate (Z.to_nat n - length c) None.

Definition heap_new (h : heap) (c : list (option Z)) : nat * heap :=
  (next_block h, Heap (<[next_block h := c]> (blocks h)) (S (next_block h)) (S (calls h))).

Definition heap_set (h : heap) (b : nat) (c : list (option Z)) : heap :=
  Heap (<[b := c]> (blocks h)) (next_block h) (S (calls h)).

Section Oracle.
Context (oracle : nat → alloc_result).

Definition malloc (h : heap) (n : Z) : option nat * heap :=
  match oracle (calls h) with
  | AFail => (None, Heap (blocks h) (next_block h) (S (calls h)))
  | _ => let '(b, h) := heap_new h (resize_block [] n) in (Some b, h)
  end.

Definition realloc (h : heap) (b : nat) (n : Z) : option (option nat * heap) :=
  c ← blocks h !! b;
  match oracle (calls h) with
  | AFail => Some (None, Heap (blocks h) (next_block h) (S (calls h)))
  | ASame => Some (Some b, heap_set h b (resize_block c n))
  | ANew =>
    let h := Heap (delete b (blocks h)) (next_block h) (calls h) in
    let '(b', h) := heap_new h (resize_block c n) in Some (Some b', h)
  end.
End Oracle.

(** [memcpy] of [vs] to offset [i] of block [b]. *)
Definition heap_write (h : heap) (b i : nat) (vs : list Z) : option heap :=
  c ← blocks h !! b;
  if decide (i + length vs ≤ length c)%nat then
    Some (Heap (<[b := take i c ++ (Some <$> vs) ++ drop (i + length vs) c]> (blocks h))
               (next_block h) (calls h))
  else None.

(** ** memstr *)

Definition lower (c : Z) : Z :=
  if (chr "A" <=? c) && (c <=? chr "Z") then Z.lor c 0x20 else c.

(** The inner loop: the bytes at [p] against [sub]. *)
Fixpoint memstr_at (mem : list Z) (p : nat) (sub : list Z) : option bool :=
  match sub with
  | [] => Some true
  | cq :: sub =>
    cp ← load mem p;
    if lower cq =? lower cp then memstr_at mem (S p) sub else Some false
  end.

(** [while (indx > 0)]; the scan leaves the block after at most
    [S (length mem)] steps. *)
Fixpoint memstr_loop (fuel : nat) (mem : list Z) (p : nat) (indx : Z) (sub : list Z)
    : option (option nat) :=
  match fuel with
  | O => None
  | S fuel =>
    if 0 <? indx then
      b ← memstr_at mem p sub;
      if b : bool then Some (Some p) else memstr_loop fuel mem (S p) (indx - 1) sub
    else Some None
  end.

Definition memstr (mem : list Z) (src : nat) (src_len : Z) (sub : list Z) : option (option nat) :=
  if src_len <? Z.of_nat (length sub) then Some None
  else memstr_loop (S (length mem)) mem src src_len sub.

(** ** sscanf(s, "%x", &itmp) *)

Definition hex_digit (c : Z) : option Z :=
  if (chr "0" <=? c) && (c <=? chr "9") then Some (c - chr "0")
  else if (chr "a" <=? c) && (c <=? chr "f") then Some (c - chr "a" + 10)
  else if (chr "A" <=? c) && (c <=? chr "F") then Some (c - chr "A" + 10)
  else None.

Fixpoint hex_run (s : list Z) (acc : Z) : Z :=
  match s with
  | c :: s' => match hex_digit c with Some d => hex_run s' (acc * 16 + d) | None => acc end
  | [] => acc
  end.

Definition hex_sign (s : list Z) : bool * list Z :=
  match s with
  | c :: s' => if c =? chr "-" then (true, s') else if c =? chr "+" then (false, s') else (false, s)
  | [] => (false, [])
  end.

Definition hex_prefix (s : list Z) : list Z :=
  match s with
  | c0 :: c1 :: s' => if (c0 =? chr "0") && (lower c1 =? chr "x") then s' else s
  | _ => s
  end.

(** The source must be a string; a number that does not fit has no result. *)
Definition sscanf_x (s : list Z) (itmp : Z) : option Z :=
  if decide (NUL ∈ s) then
    let '(neg, s) := hex_sign (skip_space s) in
    let s := hex_prefix s in
    match hex_digit (default NUL (head s)) with
    | None => Some itmp
    | Some _ =>
      let v := hex_run s 0 in
      if v <? 2 ^ 32 then Some (s32 (if neg then - v else v)) else None
    end
  else None.

(** ** The decoder *)

Definition DCE_OK : Z := 0.
Definition DCE_ISRUNNING : Z := 1.
Definition DCE_FORMAT : Z := 2.
Definition DCE_ARGUMENT : Z := 3.
Definition DCE_MEM : Z := 4.
Definition DCE_LOCK : Z := 5.

(** The globals [g_*], with the heap the buffer lives in. *)
Record globals := Globals {
  buff_out : option nat;
  buff_pt : option (nat * nat);
  buff_outlen : Z;
  chunk_len : Z;
  chunk_read : Z;
  is_running : bool;
  is_first : bool;
  is_chunkbegin : bool;
  mem_heap : heap;
}.

Definition CRLF : list Z := [CR; LF].

Definition reset (g : globals) (running : bool) (h : heap) : globals :=
  Globals None None 0 0 0 running true false h.

Definition dechunk_init (g : globals) : Z * globals :=
  if is_running g then (DCE_ISRUNNING, g) else (DCE_OK, reset g true (mem_heap g)).

(** [free(g_buff_out)]; freeing NULL does nothing. *)
Definition dechunk_free (g : globals) : option (Z * globals) :=
  h ← match buff_out g with
      | None => Some (mem_heap g)
      | Some b => _ ← blocks (mem_heap g) !! b;
        Some (Heap (delete b (blocks (mem_heap g))) (next_block (mem_heap g)) (calls (mem_heap g)))
      end;
  Some (DCE_OK, reset g false h).

Definition dechunk_getbuff (g : globals) : option nat * Z := (buff_out g, buff_outlen g).

(** The block under [if (g_is_first)]: the end of the header. *)
Definition skip_header (mem : list Z) (input : nat) (inlen : Z) (g : globals)
    : option (option (nat * Z * globals)) :=
  if is_first g then
    r ← memstr mem input inlen (CRLF ++ CRLF);
    match r with
    | None => Some None
    | Some p =>
      let data_start := (p + 4)%nat in
      Some (Some (data_start, u64 (inlen - Z.of_nat (data_start - input)),
        Globals (buff_out g) (buff_pt g) (buff_outlen g) (chunk_len g) (chunk_read g)
                (is_running g) false (is_chunkbegin g) (mem_heap g)))
    end
  else Some (Some (input, inlen, g)).

Section Decoder.
Context (oracle : nat → alloc_result).

(** The block under [if (!g_is_chunkbegin)]: the size line and the room for the
    chunk; [inl] is the early return of [DCE_MEM]. *)
Definition begin_chunk (mem : list Z) (stmp : nat) (data_len : Z) (g : globals)
    : option (globals + nat * Z * globals) :=
  if is_chunkbegin g then Some (inr (stmp, data_len, g))
  else
    itmp ← sscanf_x (drop stmp mem) 0;
    let itmp := if 0 <? itmp then itmp - 2 else itmp in
    r ← memstr mem stmp data_len CRLF;
    p ← r;
    let data_start := (p + 2)%nat in
    let data_len := u64 (data_len - Z.of_nat (data_start - stmp)) in
    let len := u64 itmp in
    let outlen := u64 (buff_outlen g + len) in
    if (0 <? len) && negb (outlen =? 0) then
      match buff_out g with
      | None =>
        let '(b, h) := malloc oracle (mem_heap g) outlen in
        let g := Globals b ((λ b, (b, 0%nat)) <$> b) outlen len 0
                         (is_running g) (is_first g) true h in
        match b with
        | None => Some (inl g)
        | Some _ => Some (inr (data_start, data_len, g))
        end
      | Some b =>
        '(b, h) ← realloc oracle (mem_heap g) b outlen;
        let g := Globals b (buff_pt g) outlen len 0 (is_running g) (is_first g) true h in
        match b with
        | None => Some (inl g)
        | Some _ => Some (inr (data_start, data_len, g))
        end
      end
    else
      Some (inr (data_start, data_len,
        Globals (buff_out g) (buff_pt g) outlen len 0 (is_running g) (is_first g) true
                (mem_heap g))).

Definition CHUNK_INIT (g : globals) : globals :=
  Globals (buff_out g) (buff_pt g) (buff_outlen g) 0 0 (is_running g) (is_first g) false
          (mem_heap g).

(** [memcpy(g_buff_pt, data_start, cpsize)] and the two counters. *)
Definition copy_chunk (mem : list Z) (data_start : nat) (data_len : Z) (g : globals)
    : option (Z * globals) :=
  let cpsize := Z.min (chunk_len g - chunk_read g) data_len in
  '(b, i) ← buff_pt g;
  vs ← (if decide (cpsize ≤ Z.of_nat (length mem))
        then load_range mem data_start (Z.to_nat cpsize) else None);
  h ← heap_write (mem_heap g) b i vs;
  Some (cpsize, Globals (buff_out g) (Some (b, i + Z.to_nat cpsize)%nat) (buff_outlen g)
    (chunk_len g) (chunk_read g + cpsize) (is_running g) (is_first g) (is_chunkbegin g) h).

(** The last part, with the recursive call as [rec]. *)
Definition copy_phase (rec : nat → Z → globals → option (Z * globals)) (mem : list Z)
    (data_start : nat) (data_len : Z) (g : globals) : option (Z * globals) :=
  if chunk_read g <? chunk_len g then
    '(cpsize, g) ← copy_chunk mem data_start data_len g;
    let data_len := u64 (data_len - (cpsize + 2)) in
    let data_start := (data_start + Z.to_nat cpsize + 2)%nat in
    if chunk_len g <=? chunk_read g then
      let g := CHUNK_INIT g in
      if 0 <? data_len then rec data_start data_len g else Some (DCE_OK, g)
    else Some (DCE_OK, g)
  else Some (DCE_OK, CHUNK_INIT g).

(** Each recursion starts further on in the block: the fuel is its length. *)
Fixpoint dechunk_rec (fuel : nat) (mem : list Z) (input : nat) (inlen : Z) (g : globals)
    : option (Z * globals) :=
  match fuel with
  | O => None
  | S fuel =>
    if negb (is_running g) then Some (DCE_LOCK, g)
    else if inlen <=? 0 then Some (DCE_ARGUMENT, g)
    else
      r ← skip_header mem input inlen g;
      match r with
      | None => Some (DCE_FORMAT, g)
      | Some (data_start, data_len, g) =>
        r ← begin_chunk mem data_start data_len g;
        match r with
        | inl g => Some (DCE_MEM, g)
        | inr (data_start, data_len, g) =>
          copy_phase (dechunk_rec fuel mem) mem data_start data_len g
        end
      end
  end.

(** The call: [input] is NULL or the start of a block. *)
Definition dechunk (input : option (list Z)) (inlen : Z) (g : globals) : option (Z * globals) :=
  match input with
  | None => Some (if negb (is_running g) then DCE_LOCK else DCE_ARGUMENT, g)
  | Some mem => dechunk_rec (S (length mem)) mem 0 inlen g
  end.

(** The receive loop: each packet arrives in a NUL-terminated buffer. *)
Fixpoint dechunk_all (packets : list (list Z)) (g : globals) : option (Z * globals) :=
  match packets with
  | [] => Some (DCE_OK, g)
  | p :: packets =>
    '(ret, g) ← dechunk (Some (p ++ [NUL])) (Z.of_nat (length p)) g;
    if ret =? DCE_OK then dechunk_all packets g else Some (ret, g)
  end.
End Decoder.

(** ** The format *)

(** A size line: hexadecimal digits only. *)
Definition hex_text (s : list Z) (v : Z) : Prop :=
  s ≠ [] ∧ Forall (λ c, is_Some (hex_digit c)) s ∧ hex_run s 0 = v.

(** Where the decoder is between two packets: before the end of the header,
    before a size line, or with [n] bytes of a chunk still to come. *)
Inductive phase := Header | Between | Inside (n : nat).

(** [eats ph p ph' out]: in phase [ph] the packet [p] carries the data [out]
    and leaves the phase [ph']. *)
Inductive eats : phase → list Z → phase → list Z → Prop :=
  | eats_header h p ph out :
      (∀ i, (i < length h)%nat → take 4 (drop i (h ++ CRLF ++ CRLF)) ≠ CRLF ++ CRLF) →
      eats Between p ph out → eats Header (h ++ CRLF ++ CRLF ++ p) ph out
  | eats_size s n p ph out :
      hex_text s (Z.of_nat n + 2) → (0 < n)%nat → Z.of_nat n + 2 < 2 ^ 31 →
      eats (Inside n) p ph out → eats Between (s ++ CRLF ++ p) ph out
  | eats_last s p : hex_text s 0 → eats Between (s ++ CRLF ++ p) Between []
  | eats_part n p : (length p < n)%nat → eats (Inside n) p (Inside (n - length p)) p
  | eats_data n d p ph out :
      n = length d → eats_rest p ph out → eats (Inside n) (d ++ CRLF ++ p) ph (d ++ out)
with eats_rest : list Z → phase → list Z → Prop :=
  | rest_nil : eats_rest [] Between []
  | rest_more p ph out : p ≠ [] → eats Between p ph out → eats_rest p ph out.

Scheme eats_mut := Minimality for eats Sort Prop
  with eats_rest_mut := Minimality for eats_rest Sort Prop.

(** A sequence of packets, none of them empty. *)
Inductive eats_all : phase → list (list Z) → phase → list Z → Prop :=
  | all_nil ph : eats_all ph [] ph []
  | all_cons ph p ph1 out1 ps ph2 out2 :
      p ≠ [] → eats ph p ph1 out1 → eats_all ph1 ps ph2 out2 →
      eats_all ph (p :: ps) ph2 (out1 ++ out2).

(** ** memstr *)

Definition ci_match (mem sub : list Z) (p : nat) : Prop :=
  lower <$> take (length sub) (drop p mem) = lower <$> sub.

#[export] Instance ci_match_dec (mem sub : list Z) (p : nat) : Decision (ci_match mem sub p) :=
  decide (_ = _).

Lemma ci_match_cons (mem sub : list Z) (cp cq : Z) (p : nat) : mem !! p = Some cp →
  ci_match mem (cq :: sub) p ↔ lower cq = lower cp ∧ ci_match mem sub (S p).
Proof.
  intros Hcp. unfold ci_match. rewrite (drop_S _ _ _ Hcp). cbn [length take].
  rewrite !fmap_cons. split; [intros E; injection E; naive_solver|]. by intros [-> ->].
Qed.

Lemma memstr_at_spec (mem sub : list Z) : ∀ p, (p + length sub ≤ length mem)%nat →
  memstr_at mem p sub = Some (bool_decide (ci_match mem sub p)).
Proof.
  induction sub as [|cq sub IH]; intros p Hl; cbn [memstr_at].
  { by rewrite bool_decide_true. }
  simpl in Hl. destruct (lookup_lt_is_Some_2 mem p) as [cp Hcp]; [lia|].
  unfold load. rewrite Hcp. cbn [mbind option_bind].
  pose proof (ci_match_cons mem sub cp cq p Hcp) as Hc.
  destruct (Z.eqb_spec (lower cq) (lower cp)) as [E|E].
  - rewrite IH by lia. f_equal. apply bool_decide_ext. tauto.
  - rewrite bool_decide_false; [done|tauto].
Qed.

Lemma memstr_loop_found (mem sub : list Z) (q : nat) (fuel : nat) : ∀ p indx,
  (p ≤ q)%nat → (q + length sub ≤ length mem)%nat → Z.of_nat q < Z.of_nat p + indx →
  (q < fuel + p)%nat → ci_match mem sub q → (∀ i, (p ≤ i < q)%nat → ¬ ci_match mem sub i) →
  memstr_loop fuel mem p indx sub = Some (Some q).
Proof.
  induction fuel as [|fuel IH]; intros p indx Hp Hq Hi Hf Hm Hn; [lia|]. cbn [memstr_loop].
  rewrite (proj2 (Z.ltb_lt _ _)), memstr_at_spec by lia. cbn [mbind option_bind].
  case_bool_decide as Hc.
  - destruct (decide (p = q)) as [->|]; [done|]. destruct (Hn p); [lia|done].
  - assert (p ≠ q) by (by intros ->). apply IH; try done; try lia.
    intros i Hi'. apply Hn. lia.
Qed.

Lemma memstr_loop_none (mem sub : list Z) (fuel : nat) : ∀ p n,
  (n = 0 ∨ p + n - 1 + length sub ≤ length mem)%nat → (n < fuel)%nat →
  (∀ i, (p ≤ i < p + n)%nat → ¬ ci_match mem sub i) →
  memstr_loop fuel mem p (Z.of_nat n) sub = Some None.
Proof.
  induction fuel as [|fuel IH]; intros p n Hl Hf Hn; [lia|]. cbn [memstr_loop].
  destruct n as [|n]; [done|]. rewrite (proj2 (Z.ltb_lt _ _)), memstr_at_spec by lia.
  cbn [mbind option_bind]. rewrite bool_decide_false by (apply Hn; lia).
  replace (Z.of_nat (S n) - 1) with (Z.of_nat n) by lia.
  apply IH; [lia|lia|]. intros i Hi. apply Hn. lia.
Qed.

Lemma memstr_found (mem sub : list Z) (src q : nat) (src_len : Z) :
  (src ≤ q)%nat → (q + length sub ≤ length mem)%nat → Z.of_nat q < Z.of_nat src + src_len →
  Z.of_nat (length sub) ≤ src_len →
  ci_match mem sub q → (∀ i, (src ≤ i < q)%nat → ¬ ci_match mem sub i) →
  memstr mem src src_len sub = Some (Some q).
Proof.
  intros. unfold memstr. rewrite (proj2 (Z.ltb_ge _ _)) by lia.
  apply memstr_loop_found; try done; lia.
Qed.

(** ** Lemmas on the size line *)

Lemma hex_digit_range (c d : Z) : hex_digit c = Some d →
  48 ≤ c ≤ 57 ∨ 97 ≤ c ≤ 102 ∨ 65 ≤ c ≤ 70.
Proof. unfold hex_digit. chr_simpl. repeat case_match; intros; try done; lia.
Qed.

Lemma hex_run_app (s t : list Z) : Forall (λ c, is_Some (hex_digit c)) s →
  ∀ acc, hex_run (s ++ t) acc = hex_run t (hex_run s acc).
Proof.
  induction 1 as [|c s [d Hd] Hs IH]; intros acc; [done|]. simpl. by rewrite Hd, IH.
Qed.

(** The tail after the digits starts with a byte that is no digit and no [x]. *)
Lemma sscanf_hex (s t : list Z) (v : Z) :
  hex_text s v → v < 2 ^ 31 → 0 ≤ v → NUL ∈ t → sscanf_x (s ++ CR :: t) 0 = Some v.
Proof.
  intros (Hne & Hs & Hv) Hlt H0 Hn. unfold sscanf_x.
  rewrite decide_True by (apply elem_of_app; right; by right).
  destruct s as [|c s]; [done|]. change ((c :: s) ++ CR :: t) with (c :: s ++ CR :: t).
  apply Forall_cons in Hs as Hcs. destruct Hcs as [[d Hd] Hs'].
  pose proof (hex_digit_range _ _ Hd) as Hc.
  assert (skip_space (c :: s ++ CR :: t) = c :: s ++ CR :: t) as ->.
  { cbn [skip_space]. replace (isspace c) with false; [done|]. unfold isspace. lia. }
  assert (hex_sign (c :: s ++ CR :: t) = (false, c :: s ++ CR :: t)) as ->.
  { unfold hex_sign. chr_simpl. by rewrite !(proj2 (Z.eqb_neq _ _)) by lia. }
  assert (hex_prefix (c :: s ++ CR :: t) = c :: s ++ CR :: t) as ->.
  { unfold hex_prefix. destruct s as [|c1 s]; cbn [app].
    - by rewrite andb_false_r.
    - apply Forall_cons in Hs' as [[d1 Hd1] _]. pose proof (hex_digit_range _ _ Hd1) as Hc1.
      replace (lower c1 =? chr "x") with false; [by rewrite andb_false_r|].
      symmetry. apply Z.eqb_neq. unfold lower. change (chr "A") with 65. change (chr "Z") with 90.
      change (chr "x") with 120.
      destruct ((65 <=? c1) && (c1 <=? 90)) eqn:E; [|lia]. intros E'.
      apply (f_equal (λ z, Z.testbit z 4)) in E'. rewrite Z.lor_spec in E'.
      assert (65 ≤ c1 ≤ 70) by lia.
      assert (c1 = 65 ∨ c1 = 66 ∨ c1 = 67 ∨ c1 = 68 ∨ c1 = 69 ∨ c1 = 70) as Hcs by lia.
      by repeat destruct Hcs as [->|Hcs]; [..|subst c1]. }
  cbn [head default]. unfold default, from_option, id. rewrite Hd.
  change (c :: s ++ CR :: t) with ((c :: s) ++ CR :: t). rewrite hex_run_app, Hv by done.
  cbn [hex_run]. change (hex_digit CR) with (@None Z). cbv iota.
  rewrite (proj2 (Z.ltb_lt _ _)) by lia. f_equal. apply swrap_small; lia.
Qed.

Lemma hex_not_cr (s : list Z) (i : nat) (c : Z) :
  Forall (λ c, is_Some (hex_digit c)) s → s !! i = Some c → c ≠ CR ∧ lower c ≠ CR.
Proof.
  intros Hs Hc. destruct (Forall_lookup_1 _ _ _ _ Hs Hc) as [d Hd].
  apply hex_digit_range in Hd. unfold CR. split; [lia|].
  unfold lower. chr_simpl. destruct ((65 <=? c) && (c <=? 90)) eqn:E; [|lia]. intros E'.
  apply (f_equal (λ z, Z.testbit z 5)) in E'. rewrite Z.lor_spec in E'.
  change (Z.testbit 32 5) with true in E'. rewrite orb_true_r in E'. done.
Qed.

(** The first CRLF of a size line. *)
Lemma memstr_size (mem s t : list Z) (off : nat) (len : Z) :
  drop off mem = s ++ CRLF ++ t → Forall (λ c, is_Some (hex_digit c)) s →
  Z.of_nat (length s) + 2 ≤ len →
  memstr mem off len CRLF = Some (Some (off + length s)%nat).
Proof.
  intros Hd Hs Hl.
  assert (length (drop off mem) = length s + 2 + length t)%nat as El.
  { rewrite Hd, !length_app. simpl. lia. }
  rewrite length_drop in El.
  apply memstr_found; simpl length; try lia.
  - unfold ci_match. rewrite <-drop_drop, Hd, drop_app_length. done.
  - intros i Hi Hc. unfold ci_match in Hc.
    destruct (lookup_lt_is_Some_2 s (i - off)) as [c Hcs]; [lia|].
    destruct (hex_not_cr _ _ _ Hs Hcs) as [_ Hn].
    assert (mem !! i = Some c) as Hm.
    { replace i with (off + (i - off))%nat by lia. rewrite <-lookup_drop, Hd.
      by apply lookup_app_l_Some. }
    rewrite (drop_S _ _ _ Hm) in Hc. simpl in Hc. injection Hc. intros _ E.
    apply Hn. rewrite E. done.
Qed.

(** ** The decoder implements the format *)

(** The output block holds [B] and has room for [n] more bytes. *)
Definition buffer (g : globals) (B : list Z) (n : nat) : Prop :=
  buff_outlen g = Z.of_nat (length B + n) ∧
  ((buff_out g = None ∧ B = [] ∧ n = 0%nat) ∨
   ∃ b, buff_out g = Some b ∧ buff_pt g = Some (b, length B) ∧
     blocks (mem_heap g) !! b = Some ((Some <$> B) ++ replicate n None)).

(** The globals in a phase, with the data [B] decoded so far. *)
Definition repr (g : globals) (ph : phase) (B : list Z) : Prop :=
  is_running g = true ∧
  match ph with
  | Header => is_first g = true ∧ is_chunkbegin g = false ∧ B = [] ∧ buffer g B 0
  | Between => is_first g = false ∧ is_chunkbegin g = false ∧ buffer g B 0
  | Inside n => is_first g = false ∧ is_chunkbegin g = true ∧ buffer g B n ∧ (0 < n)%nat ∧
      0 ≤ chunk_read g ∧ chunk_len g < 2 ^ 31 ∧ chunk_len g - chunk_read g = Z.of_nat n
  end.

Lemma CHUNK_INIT_repr (g : globals) (B : list Z) :
  is_running g = true → is_first g = false → buffer g B 0 → repr (CHUNK_INIT g) Between B.
Proof. intros H1 H2 [H3 H4]. split_and!; try done. Qed.

(** Copying [p] into the room left. *)
Lemma copy_chunk_spec (mem p t : list Z) (off : nat) (len : Z) (g : globals) (B : list Z) (n : nat) :
  repr g (Inside n) B → drop off mem = p ++ t → (length p ≤ n)%nat →
  t ≠ [] → Z.min (Z.of_nat n) len = Z.of_nat (length p) →
  ∃ g', copy_chunk mem off len g = Some (Z.of_nat (length p), g') ∧
    is_running g' = true ∧ is_first g' = false ∧ is_chunkbegin g' = true ∧
    buffer g' (B ++ p) (n - length p) ∧
    chunk_len g' = chunk_len g ∧ chunk_read g' = chunk_read g + Z.of_nat (length p) ∧
    buff_out g' = buff_out g ∧ calls (mem_heap g') = calls (mem_heap g) ∧
    next_block (mem_heap g') = next_block (mem_heap g).
Proof.
  intros (Hr & Hf & Hb & [Ho Hbuf] & Hn & H0 & Hlt & Hc) Hd Hp Ht Hmin.
  unfold copy_chunk. rewrite Hc, Hmin.
  destruct Hbuf as [(_ & _ & ->)|(b & Hout & Hpt & Hblk)]; [lia|].
  rewrite Hpt. cbn [mbind option_bind].
  assert (length (drop off mem) = length p + length t)%nat as El by (rewrite Hd; apply length_app).
  rewrite length_drop in El.
  rewrite decide_True, Nat2Z.id by lia. unfold load_range.
  rewrite decide_True by (destruct t; [done|simpl in El; lia]).
  rewrite Hd, take_app_length. cbn [mbind option_bind]. unfold heap_write. rewrite Hblk.
  cbn [mbind option_bind]. rewrite length_app, length_fmap, length_replicate.
  rewrite decide_True by lia. cbn [mbind option_bind].
  eexists. split; [done|]. cbn. split; [done|]. split; [done|]. split; [done|]. split; [|done].
  split; [cbn; rewrite Ho, length_app; lia|]. right. exists b. cbn. rewrite length_app.
  split_and!; [done|done|]. rewrite lookup_insert_eq. f_equal.
  rewrite fmap_app, <-app_assoc. rewrite take_app_length' by (by rewrite length_fmap).
  f_equal. f_equal.
  rewrite drop_app_ge by (rewrite length_fmap; lia). rewrite length_fmap.
  rewrite drop_replicate. f_equal. lia.
Qed.

(** *** What the allocator does

    A run that begins in [g] needs a block from the first call, when there is no
    buffer yet, and from every other call that the buffer stays where it is:
    [g_buff_pt] is not adjusted after [realloc]. *)
Definition harmless (oracle : nat → alloc_result) (g : globals) (k : nat) : Prop :=
  if decide (buff_out g = None ∧ k = calls (mem_heap g)) then oracle k ≠ AFail else oracle k = ASame.

(** The outcomes of a run [r] from [g]: it succeeds and all its calls were
    harmless; or the first call that is not either fails, which gives [DCE_MEM],
    or moves the buffer, and then the next byte is written through a stale
    pointer. *)
Definition outcome (oracle : nat → alloc_result) (g : globals) (r : option (Z * globals))
    (Q : globals → Prop) : Prop :=
  (∃ g', r = Some (DCE_OK, g') ∧ Q g' ∧
     ∀ k, (calls (mem_heap g) ≤ k < calls (mem_heap g'))%nat → harmless oracle g k) ∨
  (∃ k, (calls (mem_heap g) ≤ k)%nat ∧ ¬ harmless oracle g k ∧
     (∀ j, (calls (mem_heap g) ≤ j < k)%nat → harmless oracle g j) ∧
     if decide (oracle k = AFail)
     then ∃ g', r = Some (DCE_MEM, g') ∧ buff_out g' = None ∧ is_running g' = true
     else r = None).

(** [g1] is a later state of a run from [g]. *)
Definition later (g g1 : globals) : Prop :=
  (calls (mem_heap g) ≤ calls (mem_heap g1))%nat ∧
  (buff_out g1 = None ↔ buff_out g = None ∧ calls (mem_heap g1) = calls (mem_heap g)).

Lemma later_trans (g g1 g2 : globals) : later g g1 → later g1 g2 → later g g2.
Proof.
  intros [L1 L2] [L3 L4]. split; [lia|]. rewrite L4, L2. split.
  - intros [[? ?] ?]. split; [done|lia].
  - intros [? ?]. split; [split; [done|lia]|lia].
Qed.

Lemma harmless_later (oracle : nat → alloc_result) (g g1 : globals) (k : nat) :
  later g g1 → (calls (mem_heap g1) ≤ k)%nat → harmless oracle g1 k ↔ harmless oracle g k.
Proof.
  unfold harmless. intros [Hle Hb] Hk.
  destruct (decide (buff_out g1 = None ∧ k = calls (mem_heap g1))) as [[H1 H2]|H1];
    destruct (decide (buff_out g = None ∧ k = calls (mem_heap g))) as [[H3 H4]|H3]; try done.
  - apply Hb in H1 as [? ?]. destruct H3. split; [done|congruence].
  - destruct H1. assert (calls (mem_heap g1) = calls (mem_heap g)) as E by lia.
    split; [by apply Hb|congruence].
Qed.

Lemma outcome_later (oracle : nat → alloc_result) (g g1 : globals) (r : option (Z * globals))
    (Q Q' : globals → Prop) :
  later g g1 → (∀ k, (calls (mem_heap g) ≤ k < calls (mem_heap g1))%nat → harmless oracle g k) →
  (∀ g', Q g' → Q' g') → outcome oracle g1 r Q → outcome oracle g r Q'.
Proof.
  intros Hl Hpre HQ [(g' & Hr & Hq & Hk)|(k & Hk & Hbad & Hpast & Hend)].
  - left. exists g'. split; [done|]. split; [auto|]. intros k Hkr.
    destruct (decide (k < calls (mem_heap g1))%nat); [apply Hpre; lia|].
    apply (harmless_later _ _ g1); [done|lia|]. apply Hk. lia.
  - right. pose proof (proj1 Hl). exists k. split; [lia|]. split; [by rewrite <-(harmless_later _ _ g1)|].
    split; [|done]. intros j Hj. destruct (decide (j < calls (mem_heap g1))%nat); [apply Hpre; lia|].
    apply (harmless_later _ _ g1); [done|lia|]. apply Hpast. lia.
Qed.

(** The state did not change the buffer and made no call. *)
Definition same_heap (g g1 : globals) : Prop :=
  buff_out g1 = buff_out g ∧ calls (mem_heap g1) = calls (mem_heap g).

Lemma outcome_same (oracle : nat → alloc_result) (g g1 : globals) (r : option (Z * globals))
    (Q Q' : globals → Prop) :
  same_heap g g1 → (∀ g', Q g' → Q' g') → outcome oracle g1 r Q → outcome oracle g r Q'.
Proof.
  intros [H1 H2] HQ. apply outcome_later; [|rewrite H2; intros; lia|done].
  split; [lia|]. rewrite H1. tauto.
Qed.

(** The state and a buffer the allocator knows. *)
Definition at_phase (g : globals) (ph : phase) (B : list Z) : Prop :=
  repr g ph B ∧ ∀ b, buff_out g = Some b → (b < next_block (mem_heap g))%nat.

Lemma outcome_here (oracle : nat → alloc_result) (g g' : globals) (Q : globals → Prop) :
  same_heap g g' → Q g' → outcome oracle g (Some (DCE_OK, g')) Q.
Proof. intros [_ H] HQ. left. exists g'. rewrite H. split; [done|]. split; [done|]. lia. Qed.

Section Refinement.
Context (oracle : nat → alloc_result).

(** A write through a pointer to a block that is gone. *)
Lemma stale_copy (rec : nat → Z → globals → option (Z * globals)) (mem : list Z) (off : nat) (len : Z)
    (g : globals) (b i : nat) :
  chunk_read g < chunk_len g → buff_pt g = Some (b, i) → blocks (mem_heap g) !! b = None →
  copy_phase rec mem off len g = None.
Proof.
  intros Hc Hp Hb. unfold copy_phase. rewrite (proj2 (Z.ltb_lt _ _)) by done.
  unfold copy_chunk. rewrite Hp. cbn [mbind option_bind]. destruct (if decide _ then _ else _); [|done].
  cbn [mbind option_bind]. unfold heap_write. by rewrite Hb.
Qed.

Lemma begin_size (mem s p t : list Z) (off n : nat) (g : globals) (B : list Z) :
  at_phase g Between B → drop off mem = s ++ CRLF ++ p ++ t → NUL ∈ t →
  hex_text s (Z.of_nat n + 2) → (0 < n)%nat → Z.of_nat n + 2 < 2 ^ 31 →
  Z.of_nat (length B) < 2 ^ 62 → Z.of_nat (length (s ++ CRLF ++ p)) < 2 ^ 62 →
  let run := begin_chunk oracle mem off (Z.of_nat (length (s ++ CRLF ++ p))) g in
  let at_data g' := run = Some (inr ((off + length s + 2)%nat, Z.of_nat (length p), g')) in
  let k := calls (mem_heap g) in
  (harmless oracle g k ∧ ∃ g', at_data g' ∧ at_phase g' (Inside n) B ∧ later g g' ∧
     calls (mem_heap g') = S k) ∨
  (¬ harmless oracle g k ∧
   if decide (oracle k = AFail)
   then ∃ g', run = Some (inl g') ∧ buff_out g' = None ∧ is_running g' = true
   else ∃ g' b i, at_data g' ∧ chunk_read g' < chunk_len g' ∧ buff_pt g' = Some (b, i) ∧
     blocks (mem_heap g') !! b = None).
Proof.
  intros [(Hr & Hf & Hb & [Ho Hbuf]) Hfresh] Hd Ht Hs Hn Hn31 HB Hlen run at_data k.
  unfold at_data, run, begin_chunk. rewrite Hb, Hd.
  change (CRLF ++ p ++ t) with (CR :: [LF] ++ p ++ t).
  rewrite (sscanf_hex s _ _ Hs) by (try lia; apply elem_of_app; right; apply elem_of_app; by right).
  rewrite !length_app in *. change (length CRLF) with 2%nat in *.
  cbn [mbind option_bind]. rewrite (proj2 (Z.ltb_lt 0 (Z.of_nat n + 2))) by lia.
  rewrite (memstr_size mem s (p ++ t) off) by (done || apply Hs || lia).
  cbn [mbind option_bind]. replace (Z.of_nat n + 2 - 2) with (Z.of_nat n) by lia.
  rewrite Nat.add_0_r in Ho. rewrite Ho. unfold u64. rewrite !wrap_small by lia.
  rewrite (proj2 (Z.ltb_lt _ _)), (proj2 (Z.eqb_neq _ _)) by lia. cbn [andb negb].
  replace (Z.of_nat (length s + (2 + length p)) - Z.of_nat (off + length s + 2 - off))
    with (Z.of_nat (length p)) by lia.
  replace (Z.of_nat (length B) + Z.of_nat n) with
    (Z.of_nat (length B + n)) by lia.
  unfold harmless, later. fold k. destruct Hbuf as [(-> & -> & _)|(b & Hout & Hpt & Hblk)].
  - rewrite decide_True by done. unfold malloc. fold k. destruct (oracle k) eqn:Eo.
    { right. split; [tauto|]. rewrite decide_True by done. by eexists. }
    all: left; (split; [done|]); unfold heap_new; eexists; (split; [done|]);
      (split; [|split; [split; [cbn; lia|split; [done|cbn; lia]]|done]]);
      (split; [|intros b [= <-]; cbn; lia]);
      split_and!; cbn; try done; try lia; (split; [done|]);
      right; exists (next_block (mem_heap g)); cbn; (split_and!; [done|done|]);
      rewrite lookup_insert_eq; unfold resize_block; rewrite Nat2Z.id; simpl; by rewrite take_nil, Nat.sub_0_r.
  - rewrite Hout. rewrite decide_False by (by intros [? _]). unfold realloc. rewrite Hblk. fold k.
    cbn [mbind option_bind]. destruct (oracle k) eqn:Eo.
    + right. split; [done|]. rewrite decide_True by done. by eexists.
    + right. split; [done|]. rewrite decide_False by done. unfold heap_new. eexists _, b, _.
      split; [done|]. split; [cbn; lia|]. split; [exact Hpt|]. cbn.
      specialize (Hfresh b Hout). rewrite lookup_insert_ne by lia. apply lookup_delete_eq.
    + left. split; [done|]. eexists. split; [done|].
      split; [|split; [split; [cbn; lia|split; [done|by intros [? _]]]|done]].
      split; [|intros b' [= <-]; cbn; by apply Hfresh].
      split_and!; cbn; try done; try lia. split; [done|].
      right. exists b. cbn. split_and!; [done|done|].
      rewrite lookup_insert_eq. unfold resize_block. rewrite Nat2Z.id. f_equal.
      change (replicate 0 (@None Z)) with (@nil (option Z)). rewrite app_nil_r, length_fmap, take_ge by (rewrite length_fmap; lia).
      f_equal. f_equal. lia.
Qed.

Lemma begin_last (mem s p t : list Z) (off : nat) (g : globals) (B : list Z) :
  repr g Between B → drop off mem = s ++ CRLF ++ p ++ t → NUL ∈ t → hex_text s 0 →
  Z.of_nat (length B) < 2 ^ 62 → Z.of_nat (length (s ++ CRLF ++ p)) < 2 ^ 62 →
  ∃ g' len, begin_chunk oracle mem off (Z.of_nat (length (s ++ CRLF ++ p))) g =
      Some (inr ((off + length s + 2)%nat, len, g')) ∧
    chunk_read g' = 0 ∧ chunk_len g' = 0 ∧
    is_running g' = true ∧ is_first g' = false ∧ buffer g' B 0 ∧ same_heap g g' ∧
    next_block (mem_heap g') = next_block (mem_heap g).
Proof.
  intros (Hr & Hf & Hb & [Ho Hbuf]) Hd Ht Hs HB Hlen. unfold begin_chunk. rewrite Hb, Hd.
  change (CRLF ++ p ++ t) with (CR :: [LF] ++ p ++ t).
  rewrite (sscanf_hex s _ _ Hs) by (try lia; apply elem_of_app; right; apply elem_of_app; by right).
  rewrite !length_app in *. change (length CRLF) with 2%nat in *.
  cbn [mbind option_bind]. change (0 <? 0) with false. cbv iota.
  rewrite (memstr_size mem s (p ++ t) off) by (done || apply Hs || lia).
  cbn [mbind option_bind]. change (u64 0) with 0. cbn [Z.ltb Z.compare andb].
  eexists _, _. split; [done|]. cbn. rewrite Z.add_0_r. split_and!; try done.
  split; [|done]. cbn. rewrite Ho. apply wrap_small. lia.
Qed.

(** What a packet does, by the phase it starts in. *)
Definition runs (ph : phase) (p : list Z) (ph' : phase) (out : list Z) : Prop :=
  ∀ fuel mem t off g B, drop off mem = p ++ t → NUL ∈ t → (length p < fuel)%nat →
  at_phase g ph B → Z.of_nat (length B + length p) < 2 ^ 62 →
  outcome oracle g
    (match ph with
     | Inside _ => copy_phase (dechunk_rec oracle (pred fuel) mem) mem off (Z.of_nat (length p)) g
     | _ => dechunk_rec oracle fuel mem off (Z.of_nat (length p)) g
     end) (λ g', at_phase g' ph' (B ++ out) ∧ later g g').

(** The same for the bytes after the data of a chunk. *)
Definition runs_rest (p : list Z) (ph' : phase) (out : list Z) : Prop :=
  ∀ fuel mem t off g B, drop off mem = p ++ t → NUL ∈ t → (length p < fuel)%nat →
  at_phase g Between B → Z.of_nat (length B + length p) < 2 ^ 62 →
  outcome oracle g
    (if 0 <? Z.of_nat (length p) then dechunk_rec oracle fuel mem off (Z.of_nat (length p)) g
     else Some (DCE_OK, g)) (λ g', at_phase g' ph' (B ++ out) ∧ later g g').

Lemma later_same (g g1 g2 : globals) : same_heap g g1 → later g1 g2 → later g g2.
Proof. intros [H1 H2] [H3 H4]. split; [lia|]. by rewrite <-H1, <-H2. Qed.

Lemma same_later (g g1 : globals) : same_heap g g1 → later g g1.
Proof. intros [H1 H2]. split; [lia|]. rewrite H1. tauto. Qed.

Lemma runs_header (h p : list Z) (ph : phase) (out : list Z) :
  (∀ i, (i < length h)%nat → take 4 (drop i (h ++ CRLF ++ CRLF)) ≠ CRLF ++ CRLF) →
  p ≠ [] → runs Between p ph out → runs Header (h ++ CRLF ++ CRLF ++ p) ph out.
Proof.
  intros Hh Hp IH fuel mem t off g B Hd Ht Hf Hg HB.
  assert (length (drop off mem) = length h + 4 + length p + length t)%nat as El.
  { rewrite Hd, !length_app. simpl. lia. }
  rewrite length_drop in El.
  assert (0 < length t)%nat as Hlt by (destruct t; [by apply elem_of_nil in Ht|simpl; lia]).
  rewrite !length_app in *. change (length CRLF) with 2%nat in *.
  destruct fuel as [|fuel]; [lia|].
  destruct Hg as [(Hr & Hfi & Hcb & -> & Ho & Hbuf) Hfresh].
  set (g1 := Globals (buff_out g) (buff_pt g) (buff_outlen g) (chunk_len g) (chunk_read g)
                     (is_running g) false (is_chunkbegin g) (mem_heap g)).
  assert (skip_header mem off (Z.of_nat (length h + (2 + (2 + length p)))) g =
    Some (Some ((off + length h + 4)%nat, Z.of_nat (length p), g1))) as Hsk.
  { unfold skip_header. rewrite Hfi. rewrite (memstr_found _ _ off (off + length h));
      [|simpl; lia..| |].
    - cbn [mbind option_bind]. do 4 f_equal. unfold u64. rewrite wrap_small by lia. lia.
    - unfold ci_match. rewrite <-drop_drop, Hd, <-!app_assoc, drop_app_length. done.
    - intros i Hi Hc. unfold ci_match in Hc. apply (Hh (i - off)%nat); [lia|].
      change (length (CRLF ++ CRLF)) with 4%nat in Hc.
      replace i with (off + (i - off))%nat in Hc by lia.
      rewrite <-drop_drop, Hd, <-!app_assoc in Hc.
      rewrite (drop_app_le h) in Hc |- * by lia.
      remember (drop (i - off) h) as l eqn:E.
      assert (length l = length h - (i - off))%nat as Hll by (subst l; apply length_drop).
      assert (take 4 (l ++ CRLF ++ CRLF) = take 4 (l ++ CRLF ++ CRLF ++ p ++ t)) as ->.
      { destruct l as [|? [|? [|? [|? l]]]]; done. }
      revert Hc. generalize (l ++ CRLF ++ CRLF ++ p ++ t). clear. intros l Hc.
      destruct l as [|a [|b [|c [|d l]]]]; try done. simpl in Hc |- *.
      assert (∀ x, (lower x = CR → x = CR) ∧ (lower x = LF → x = LF)) as Hlow.
      { intros x. unfold lower. chr_simpl. destruct ((65 <=? x) && (x <=? 90)) eqn:Ex; [|done].
        split; intros E; apply (f_equal (λ z, Z.testbit z 5)) in E; rewrite Z.lor_spec in E;
          change (Z.testbit 32 5) with true in E; rewrite orb_true_r in E; done. }
      injection Hc as H1 H2 H3 H4. by rewrite (proj1 (Hlow a) H1), (proj2 (Hlow b) H2),
        (proj1 (Hlow c) H3), (proj2 (Hlow d) H4). }
  assert (same_heap g g1) as Hsame by done. apply (outcome_same _ _ g1 _ (λ g', at_phase g' ph ([] ++ out) ∧ later g1 g') _ Hsame);
    [intros g' [Hg' Hl]; split; [exact Hg'|by apply (later_same _ g1)]|].
  assert (dechunk_rec oracle (S fuel) mem off (Z.of_nat (length h + (2 + (2 + length p)))) g =
    dechunk_rec oracle (S fuel) mem (off + length h + 4) (Z.of_nat (length p)) g1) as ->.
  { cbn [dechunk_rec]. change (is_running g1) with (is_running g). rewrite Hr. cbn [negb].
    rewrite (proj2 (Z.leb_gt (Z.of_nat (length p)) 0)) by (destruct p; [done|simpl; lia]).
    rewrite (proj2 (Z.leb_gt _ _)) by lia. rewrite Hsk. done. }
  apply IH with (t := t); [|done|lia|split; [by split_and!|exact Hfresh]|simpl in *; lia].
  rewrite <-drop_drop, <-drop_drop, Hd, <-!app_assoc, drop_app_length. done.
Qed.

Lemma runs_size (s p : list Z) (n : nat) (ph : phase) (out : list Z) :
  hex_text s (Z.of_nat n + 2) → (0 < n)%nat → Z.of_nat n + 2 < 2 ^ 31 →
  runs (Inside n) p ph out → runs Between (s ++ CRLF ++ p) ph out.
Proof.
  intros Hs Hn Hn31 IH fuel mem t off g B Hd Ht Hf Hg HB.
  rewrite <-!app_assoc in Hd.
  pose proof (begin_size mem s p t off n g B Hg Hd Ht Hs Hn Hn31 ltac:(lia) ltac:(lia)) as Hb. cbn zeta in Hb.
  rewrite !length_app in *. change (length CRLF) with 2%nat in *.
  destruct fuel as [|fuel]; [lia|].
  destruct Hg as [(Hr & Hfi & _) _].
  assert (dechunk_rec oracle (S fuel) mem off (Z.of_nat (length s + (2 + length p))) g =
    (r ← begin_chunk oracle mem off (Z.of_nat (length s + (2 + length p))) g;
     match r with
     | inl g => Some (DCE_MEM, g)
     | inr (data_start, data_len, g) => copy_phase (dechunk_rec oracle fuel mem) mem data_start data_len g
     end)) as ->.
  { cbn [dechunk_rec]. rewrite Hr. cbn [negb]. rewrite (proj2 (Z.leb_gt _ _)) by lia.
    unfold skip_header. by rewrite Hfi. }
  destruct Hb as [(Hgood & g1 & Hb & Hg1 & Hl & Hc1)|(Hbad & Hb)].
  - rewrite Hb. cbn [mbind option_bind].
    apply (outcome_later _ _ g1 _ (λ g', at_phase g' ph (B ++ out) ∧ later g1 g')); [done| | |].
    + intros k Hk. by assert (k = calls (mem_heap g)) as -> by lia.
    + intros g' [Hg' Hl']. split; [done|]. by apply (later_trans _ g1).
    + apply (IH (S fuel) mem t _ g1 B); [|done|lia|done|lia].
      rewrite <-drop_drop, <-drop_drop, Hd, drop_app_length. done.
  - right. exists (calls (mem_heap g)). split; [lia|]. split; [done|]. split; [lia|].
    case_decide.
    + destruct Hb as (g1 & Hb & H1 & H2). rewrite Hb. by exists g1.
    + destruct Hb as (g1 & b & i & Hb & H1 & H2 & H3). rewrite Hb. cbn [mbind option_bind].
      by apply (stale_copy _ _ _ _ _ b i).
Qed.

Lemma at_phase_keep (g g' : globals) (ph ph' : phase) (B B' : list Z) :
  at_phase g ph B → repr g' ph' B' → buff_out g' = buff_out g →
  next_block (mem_heap g') = next_block (mem_heap g) → at_phase g' ph' B'.
Proof. intros [_ Hf] Hr E1 E2. split; [done|]. by rewrite E1, E2. Qed.

Lemma runs_last (s p : list Z) : hex_text s 0 → runs Between (s ++ CRLF ++ p) Between [].
Proof.
  intros Hs fuel mem t off g B Hd Ht Hf Hg HB. rewrite <-!app_assoc in Hd. pose proof Hg as [Hrep _].
  destruct (begin_last mem s p t off g B) as (g1 & len & Hb & H0 & H0' & Hr1 & Hf1 & Hbuf & Hsame & Hnb);
    try done; [lia|lia|].
  rewrite !length_app in *. change (length CRLF) with 2%nat in *.
  destruct fuel as [|fuel]; [lia|]. cbn [dechunk_rec].
  destruct Hrep as (Hr & Hfi & _). rewrite Hr. cbn [negb]. rewrite (proj2 (Z.leb_gt _ _)) by lia.
  unfold skip_header. rewrite Hfi. cbn [mbind option_bind]. rewrite Hb.
  cbn [mbind option_bind]. unfold copy_phase. rewrite H0, H0'. cbn [Z.ltb Z.compare].
  assert (same_heap g (CHUNK_INIT g1)) as Hsame' by exact Hsame.
  apply outcome_here; [done|]. split; [|by apply same_later]. rewrite app_nil_r.
  apply (at_phase_keep g _ Between _ B); [done|by apply CHUNK_INIT_repr|apply Hsame|done].
Qed.

Lemma runs_part (n : nat) (p : list Z) : (length p < n)%nat → runs (Inside n) p (Inside (n - length p)) p.
Proof.
  intros Hn fuel mem t off g B Hd Ht Hf Hg HB. pose proof Hg as [Hrep _].
  destruct (copy_chunk_spec mem p t off (Z.of_nat (length p)) g B n) as
    (g' & Hc & Hr & Hfi & Hcb & Hbuf & Hlen & Hread & Hout & Hcalls & Hnb); try done; [lia|intros ->; by apply elem_of_nil in Ht|lia|].
  destruct Hrep as (_ & _ & _ & _ & _ & H0 & H31 & Hrem).
  assert (same_heap g g') as Hsame by done.
  unfold copy_phase. rewrite (proj2 (Z.ltb_lt _ _)), Hc by lia. cbn [mbind option_bind].
  rewrite (proj2 (Z.leb_gt _ _)) by lia. apply outcome_here; [done|]. split; [|by apply same_later].
  apply (at_phase_keep g _ (Inside n) _ B); [done| |done|done]. split_and!; try done; lia.
Qed.

Lemma runs_data (d p : list Z) (n : nat) (ph : phase) (out : list Z) :
  n = length d → runs_rest p ph out → runs (Inside n) (d ++ CRLF ++ p) ph (d ++ out).
Proof.
  intros -> IH fuel mem t off g B Hd Ht Hf Hg HB. rewrite <-!app_assoc in Hd. pose proof Hg as [Hrep _].
  rewrite !length_app in *. change (length CRLF) with 2%nat in *.
  destruct (copy_chunk_spec mem d (CRLF ++ p ++ t) off
    (Z.of_nat (length d + (2 + length p))) g B (length d)) as
    (g1 & Hc & Hr & Hfi & Hcb & Hbuf & Hlen & Hread & Hout & Hcalls & Hnb); try done; [lia|].
  destruct Hrep as (_ & _ & _ & _ & H0n & H0 & H31 & Hrem).
  rewrite Nat.sub_diag in Hbuf. assert (same_heap g (CHUNK_INIT g1)) as Hsame by done.
  unfold copy_phase. rewrite (proj2 (Z.ltb_lt _ _)), Hc by lia. cbn [mbind option_bind].
  rewrite (proj2 (Z.leb_le _ _)) by lia. rewrite Nat2Z.id. unfold u64. rewrite wrap_small by lia.
  replace (Z.of_nat (length d + (2 + length p)) - (Z.of_nat (length d) + 2))
    with (Z.of_nat (length p)) by lia.
  apply (outcome_same _ _ (CHUNK_INIT g1) _ (λ g', at_phase g' ph ((B ++ d) ++ out) ∧ later (CHUNK_INIT g1) g'));
    [done| |].
  { intros g' [Hg' Hl]. rewrite app_assoc. split; [done|]. by apply (later_same _ (CHUNK_INIT g1)). }
  apply (IH (pred fuel) mem t (off + length d + 2)%nat (CHUNK_INIT g1) (B ++ d));
    [|done|lia| |rewrite length_app; lia].
  - rewrite <-drop_drop, <-drop_drop, Hd, drop_app_length. done.
  - apply (at_phase_keep g _ (Inside (length d)) _ B); [done|by apply CHUNK_INIT_repr|done|done].
Qed.

Lemma runs_more (p : list Z) (ph : phase) (out : list Z) :
  p ≠ [] → runs Between p ph out → runs_rest p ph out.
Proof.
  intros Hp IH fuel mem t off g B Hd Ht Hf Hg HB.
  rewrite (proj2 (Z.ltb_lt _ _)) by (destruct p; [done|simpl; lia]). by eapply IH.
Qed.

Lemma eats_between_ne (ph ph' : phase) (p out : list Z) : eats ph p ph' out → ph = Between → p ≠ [].
Proof.
  destruct 1 as [| s ? ? ? ? [] | s ? []| |]; intros [=]; by destruct s.
Qed.

Lemma eats_runs (ph ph' : phase) (p out : list Z) : eats ph p ph' out → runs ph p ph' out.
Proof.
  apply (eats_mut runs runs_rest).
  - intros h q ph1 out1 Hh He IH. apply runs_header; [done| |done]. by eapply eats_between_ne.
  - intros s n q ph1 out1 Hs Hn H31 _ IH. by eapply runs_size.
  - apply runs_last.
  - apply runs_part.
  - intros n d q ph1 out1 Hn _ IH. by apply runs_data.
  - intros fuel mem t off g B Hd Ht Hf Hg HB. apply outcome_here; [done|].
    rewrite app_nil_r. split; [done|]. by apply same_later.
  - intros q ph1 out1 Hq _ IH. by apply runs_more.
Qed.

(** One call of [dechunk]. *)
Lemma dechunk_eats (p : list Z) (g : globals) (ph ph' : phase) (B out : list Z) :
  p ≠ [] → eats ph p ph' out → at_phase g ph B → Z.of_nat (length B + length p) < 2 ^ 62 →
  outcome oracle g (dechunk oracle (Some (p ++ [NUL])) (Z.of_nat (length p)) g)
    (λ g', at_phase g' ph' (B ++ out) ∧ later g g').
Proof.
  intros Hp He Hg HB. unfold dechunk.
  pose proof (eats_runs _ _ _ _ He (S (length (p ++ [NUL]))) (p ++ [NUL]) [NUL] 0%nat g B
    eq_refl ltac:(by left) ltac:(rewrite length_app; simpl; lia) Hg HB) as Hrun.
  destruct ph; [exact Hrun|exact Hrun|].
  cbn [dechunk_rec pred] in Hrun |- *. destruct Hg as [(Hr & Hfi & Hcb & _) _].
  rewrite Hr. cbn [negb]. rewrite (proj2 (Z.leb_gt _ _)) by (destruct p; [done|simpl; lia]).
  unfold skip_header. rewrite Hfi. cbn [mbind option_bind].
  unfold begin_chunk. rewrite Hcb. exact Hrun.
Qed.

Lemma eats_out_length (ph ph' : phase) (p out : list Z) : eats ph p ph' out → (length out ≤ length p)%nat.
Proof.
  apply (eats_mut (λ _ p _ out, (length out ≤ length p)%nat) (λ p _ out, (length out ≤ length p)%nat));
    intros; rewrite ?length_app in *; simpl; lia.
Qed.

Lemma dechunk_all_eats (ph ph' : phase) (ps : list (list Z)) (out : list Z) :
  eats_all ph ps ph' out → ∀ g B, at_phase g ph B → Z.of_nat (length B + length (mjoin ps)) < 2 ^ 62 →
  outcome oracle g (dechunk_all oracle ps g) (λ g', at_phase g' ph' (B ++ out) ∧ later g g').
Proof.
  induction 1 as [ph|ph p ph1 out1 ps ph2 out2 Hp He _ IH]; intros g B Hg HB; cbn [dechunk_all].
  { rewrite app_nil_r. apply outcome_here; [done|]. split; [done|]. by apply same_later. }
  change (mjoin (p :: ps)) with (p ++ mjoin ps) in HB. rewrite length_app in HB.
  pose proof (eats_out_length _ _ _ _ He).
  destruct (dechunk_eats p g ph ph1 B out1 Hp He Hg ltac:(lia))
    as [(g1 & -> & [Hg1 Hl1] & Hk1)|(k & Hk & Hbad & Hpast & Hend)].
  - cbn [mbind option_bind]. rewrite Z.eqb_refl.
    apply (outcome_later _ _ g1 _ (λ g', at_phase g' ph2 ((B ++ out1) ++ out2) ∧ later g1 g')); [done|done| |].
    + intros g' [Hg' Hl']. rewrite app_assoc. split; [done|]. by apply (later_trans _ g1).
    + apply IH; [done|]. rewrite length_app. lia.
  - right. exists k. split; [done|]. split; [done|]. split; [done|]. case_decide.
    + destruct Hend as (g1 & -> & H1 & H2). by exists g1.
    + by rewrite Hend.
Qed.
End Refinement.

(** ** Messages *)

(** A chunk as the decoder reads it: a size line, the data, a CRLF. *)
Definition chunk_text (c : list Z * list Z) : list Z := c.1 ++ CRLF ++ c.2 ++ CRLF.

Definition chunk_ok (c : list Z * list Z) : Prop :=
  c.2 ≠ [] ∧ hex_text c.1 (Z.of_nat (length c.2) + 2) ∧ Z.of_nat (length c.2) + 2 < 2 ^ 31.

Lemma eats_chunks (cs : list (list Z * list Z)) (last tail : list Z) :
  Forall chunk_ok cs → hex_text last 0 →
  eats Between ((cs ≫= chunk_text) ++ last ++ CRLF ++ tail) Between (cs ≫= snd).
Proof.
  intros Hcs Hl. induction Hcs as [|[s d] cs (Hd & Hs & H31) _ IH]; [by apply eats_last|].
  rewrite !bind_cons. unfold chunk_text at 1. cbn [fst snd] in *. rewrite <-!app_assoc.
  eapply eats_size; [exact Hs|destruct d; [done|simpl; lia]|done|].
  apply eats_data; [done|]. apply rest_more; [|done].
  intros E. apply app_nil in E as [_ E]. apply app_nil in E as [-> _]. by destruct Hl.
Qed.

(** ** Properties *)

Lemma init_at_phase (g : globals) : at_phase (reset g true (mem_heap g)) Header [].
Proof. split; [|done]. split_and!; try done. split; [done|]. by left. Qed.

(** C23: after [dechunk_init], on any packets that carry a message of the
    format (the boundaries inside the data of a chunk or after its CRLF), and
    whatever [malloc] and [realloc] do: the decoder reads within each packet
    and, as long as the first allocation gives a block and [realloc] leaves the
    buffer where it is, answers [DCE_OK] and is left in the phase of the format
    with exactly the data of the chunks in its buffer, whatever it ran before;
    at a chunk boundary [dechunk_getbuff] returns that buffer.  When an
    allocation fails the answer is [DCE_MEM]; when [realloc] moves the buffer,
    the data of the chunk is written through the stale [g_buff_pt] into the
    freed block, and the run has no result. *)
Theorem dechunk_decodes (oracle : nat → alloc_result) (g : globals) (packets : list (list Z))
    (ph : phase) (out : list Z) :
  is_running g = false →
  eats_all Header packets ph out → Z.of_nat (length (mjoin packets)) < 2 ^ 62 →
  let g0 := (dechunk_init g).2 in
  outcome oracle g0 (dechunk_all oracle packets g0) (λ g',
    repr g' ph out ∧
    (ph = Between → out ≠ [] → ∃ b,
      dechunk_getbuff g' = (Some b, Z.of_nat (length out)) ∧
      blocks (mem_heap g') !! b = Some (Some <$> out))).
Proof.
  intros Hr He Hl g0. unfold g0, dechunk_init. rewrite Hr. cbn [snd].
  pose proof (dechunk_all_eats oracle _ _ _ _ He _ [] (init_at_phase g) Hl) as Ho. revert Ho.
  apply outcome_same; [done|]. intros g' [[Hg' _] _]. split; [done|]. intros -> Hne.
  destruct Hg' as (_ & _ & _ & Hlen & [(_ & ? & _)|(b & Hb & _ & Hblk)]); [done|].
  exists b. unfold dechunk_getbuff. rewrite Hb, Hlen. cbn [app] in *. rewrite Nat.add_0_r.
  split; [done|]. rewrite Hblk. simpl. by rewrite app_nil_r.
Qed.

(** A message in one packet, of a header, any chunks and a last chunk of
    size 0, is decoded to the concatenation of the chunk data. *)
Lemma dechunk_message (oracle : nat → alloc_result) (g : globals) (h last tail : list Z)
    (cs : list (list Z * list Z)) :
  is_running g = false →
  (∀ i, (i < length h)%nat → take 4 (drop i (h ++ CRLF ++ CRLF)) ≠ CRLF ++ CRLF) →
  Forall chunk_ok cs → hex_text last 0 →
  let msg := h ++ CRLF ++ CRLF ++ (cs ≫= chunk_text) ++ last ++ CRLF ++ tail in
  Z.of_nat (length msg) < 2 ^ 62 →
  let g0 := (dechunk_init g).2 in
  outcome oracle g0 (dechunk oracle (Some (msg ++ [NUL])) (Z.of_nat (length msg)) g0)
    (λ g', repr g' Between (cs ≫= snd)).
Proof.
  intros Hr Hh Hcs Hl msg Hm g0. unfold g0, dechunk_init. rewrite Hr. cbn [snd].
  assert (msg ≠ []) as Hne by (unfold msg; by destruct h).
  pose proof (dechunk_eats oracle msg _ Header Between [] (cs ≫= snd) Hne
    (eats_header _ _ _ _ Hh (eats_chunks _ _ _ Hcs Hl)) (init_at_phase g) Hm) as Ho. revert Ho.
  apply outcome_same; [done|]. by intros g' [[Hg' _] _].
Qed.

(** C38: the error codes and the life cycle: a decoder that is not running
    answers [DCE_LOCK], a running one answers [DCE_ISRUNNING] to a second
    [dechunk_init] and [DCE_ARGUMENT] to NULL or an empty packet, a first packet
    without the end of a header gives [DCE_FORMAT], all without any change of
    state; [dechunk_free] frees the buffer and stops the decoder. *)
Theorem dechunk_errors (oracle : nat → alloc_result) (g : globals) (mem : list Z) (len : nat)
    (ph : phase) (B : list Z) :
  (is_running g = false → dechunk oracle (Some mem) (Z.of_nat len) g = Some (DCE_LOCK, g) ∧
    dechunk oracle None (Z.of_nat len) g = Some (DCE_LOCK, g)) ∧
  (repr g ph B →
    dechunk_init g = (DCE_ISRUNNING, g) ∧
    dechunk oracle None (Z.of_nat len) g = Some (DCE_ARGUMENT, g) ∧
    dechunk oracle (Some mem) 0 g = Some (DCE_ARGUMENT, g) ∧
    (ph = Header → (0 < len)%nat → (len + 3 ≤ length mem)%nat →
      (∀ i, (i < len)%nat → ¬ ci_match mem (CRLF ++ CRLF) i) →
      dechunk oracle (Some mem) (Z.of_nat len) g = Some (DCE_FORMAT, g)) ∧
    (∃ g', dechunk_free g = Some (DCE_OK, g') ∧ is_running g' = false ∧
      dechunk_getbuff g' = (None, 0) ∧
      ∀ b, buff_out g = Some b → blocks (mem_heap g') !! b = None)).
Proof.
  split.
  { intros Hr. unfold dechunk. cbn [dechunk_rec]. by rewrite Hr. }
  intros Hg. destruct Hg as [Hr Hg].
  unfold dechunk_init, dechunk. cbn [dechunk_rec]. rewrite Hr. split_and!; try done.
  - intros -> H0 Hl Hno. rewrite (proj2 (Z.leb_gt _ _)) by lia. unfold skip_header.
    destruct Hg as (-> & _). cbn [negb]. unfold memstr. case_match; [done|].
    rewrite (memstr_loop_none _ _ _ 0 len); [done|right; simpl; lia|lia|].
    intros i Hi. apply Hno. lia.
  - assert (∃ n, buffer g B n) as (n & _ & Hb).
    { destruct ph; [exists 0%nat; apply Hg|exists 0%nat; apply Hg|exists n; apply Hg]. }
    unfold dechunk_free. destruct Hb as [(-> & _)|(b & -> & _ & Hblk)].
    + eexists. split; [done|]. done.
    + rewrite Hblk. cbn [mbind option_bind]. eexists. split; [done|]. split; [done|].
      split; [done|]. intros b' [= <-]. apply lookup_delete_eq.
Qed.

(** ** Witnesses *)

Definition idle : globals := Globals None None 0 0 0 false true false (Heap ∅ 0 0).
Definition same_oracle : nat → alloc_result := λ _, ASame.

Lemma hex_text_7 : hex_text (bytes "7") (Z.of_nat 5 + 2).
Proof. split; [done|]. split; [|done]. repeat constructor. by eexists. Qed.

Lemma hex_text_0 : hex_text (bytes "0") 0.
Proof. split; [done|]. split; [|done]. repeat constructor. by eexists. Qed.

(** A header and the size line, then the chunk data cut in two. *)
Lemma dechunk_decodes_witness :
  ∃ g', dechunk_all same_oracle
    [bytes "H" ++ CRLF ++ CRLF ++ bytes "7" ++ CRLF ++ bytes "he";
     bytes "llo" ++ CRLF ++ bytes "0" ++ CRLF ++ CRLF] (dechunk_init idle).2 = Some (DCE_OK, g') ∧
    dechunk_getbuff g' = (Some 0%nat, 5) ∧
    blocks (mem_heap g') !! 0%nat = Some (Some <$> bytes "hello").
Proof.
  destruct (dechunk_decodes same_oracle idle
    [bytes "H" ++ CRLF ++ CRLF ++ bytes "7" ++ CRLF ++ bytes "he";
     bytes "llo" ++ CRLF ++ bytes "0" ++ CRLF ++ CRLF] Between (bytes "hello"))
    as [(g' & Hd & [_ Hb] & _)|(k & _ & Hbad & _)]; [done| |by vm_compute| |].
  - change (bytes "hello") with (bytes "he" ++ (bytes "llo" ++ []) ++ []).
    apply (all_cons _ _ (Inside 3)); [done| |].
    + apply eats_header; [intros [|i] Hi; [done|simpl in Hi; lia]|].
      eapply eats_size; [apply hex_text_7|lia|lia|]. apply (eats_part 5). simpl. lia.
    + apply (all_cons _ _ Between); [done| |constructor].
      apply (eats_data 3); [done|]. apply rest_more; [done|].
      apply (eats_last (bytes "0") CRLF), hex_text_0.
  - destruct (Hb eq_refl) as (b & Hget & Hblk); [done|]. exists g'. split; [exact Hd|].
    assert (b = 0%nat) as ->; [|by split].
    vm_compute in Hd. injection Hd as <-. vm_compute in Hget. by injection Hget.
  - destruct Hbad. unfold harmless. by case_decide.
Defined.

Lemma dechunk_errors_witness :
  dechunk same_oracle (Some (bytes "abc" ++ replicate 4 0)) 3 idle = Some (DCE_LOCK, idle) ∧
  dechunk same_oracle (Some (bytes "abc" ++ replicate 4 0)) 3 (dechunk_init idle).2 =
    Some (DCE_FORMAT, (dechunk_init idle).2).
Proof.
  split.
  - by apply (dechunk_errors same_oracle idle (bytes "abc" ++ replicate 4 0) 3 Header []).
  - apply (dechunk_errors same_oracle (dechunk_init idle).2 (bytes "abc" ++ replicate 4 0) 3 Header []);
      [|done|lia|simpl; lia|].
    + split_and!; try done. split; [done|]. by left.
    + intros [|[|[|i]]] Hi; [done|done|done|lia].
Defined.

(** ** What the code does outside the format *)

(** A chunk size as HTTP counts it (without the CRLF) loses two bytes. *)
Example http_size_loses_data :
  ∃ g', dechunk same_oracle (Some (bytes "H" ++ CRLF ++ CRLF ++ bytes "5" ++ CRLF ++
      bytes "hello" ++ CRLF ++ bytes "0" ++ CRLF ++ CRLF ++ [NUL])) 20 (dechunk_init idle).2 =
      Some (DCE_OK, g') ∧
    blocks (mem_heap g') !! 0%nat = Some (Some <$> bytes "hel").
Proof. eexists. split; [vm_compute; reflexivity|vm_compute; reflexivity]. Qed.

(** When [realloc] moves the buffer, the second chunk is written through the
    stale [g_buff_pt] into the freed block. *)
Definition moving_oracle : nat → alloc_result := λ _, ANew.

Example moved_buffer_is_stale :
  dechunk moving_oracle (Some (bytes "H" ++ CRLF ++ CRLF ++ bytes "7" ++ CRLF ++
    bytes "hello" ++ CRLF ++ bytes "7" ++ CRLF ++ bytes " you!" ++ CRLF ++ bytes "0" ++
    CRLF ++ CRLF ++ [NUL])) 32 (dechunk_init idle).2 = None.
Proof. vm_compute. reflexivity. Qed.
