(* ===== verification/PamWorld.v ===== *)
(** * The world of the PAM module

    What pam_google_authenticator.c reads and changes outside its own
    variables: the outcomes of [malloc], the log, the clock, the file system,
    the file-system uid and gid, the PAM items and the answers of the user.  The
    functions of the module are state transformers on it. *)

From S2P Require Import Prelude.

(** A file; [f_reg] is [S_ISREG]. *)
Record file := File {
  f_mode : Z;
  f_reg : bool;
  f_uid : Z;
  f_mtime : Z;
  f_data : list Z;
}.

(** What the conversation returns: a text, or nothing (or an error); while the
    user is typing other sessions may have changed the files. *)
Record answer := Answer {
  a_text : option (list Z);
  a_files : option (gmap (list Z) file);
}.

Record world := World {
  w_allocs : list bool;               (* outcomes of the next allocations and system calls; then success *)
  w_log : list (Z * string);          (* priority and format, newest first *)
  w_clock : nat → Z;                  (* the readings of time(NULL) *)
  w_ticks : nat;                      (* how many were taken *)
  w_fsuid : Z;
  w_fsgid : Z;
  w_files : gmap (list Z) file;
  w_authtok : option (list Z);        (* PAM_AUTHTOK *)
  w_answers : list answer;            (* what the conversation returns next *)
}.

Definition M (A : Type) : Type := world → A * world.

#[export] Instance M_ret : MRet M := λ A a w, (a, w).
#[export] Instance M_bind : MBind M := λ A B f m w, let '(a, w) := m w in f a w.

Lemma M_bind_unfold {A B} (m : M A) (f : A → M B) (w : world) :
  (m ≫= f) w = f (m w).1 (m w).2.
Proof. unfold mbind, M_bind. by destruct (m w). Qed.

Definition set_allocs (l : list bool) (w : world) : world :=
  World l (w_log w) (w_clock w) (w_ticks w) (w_fsuid w) (w_fsgid w) (w_files w)
        (w_authtok w) (w_answers w).

Definition set_log (l : list (Z * string)) (w : world) : world :=
  World (w_allocs w) l (w_clock w) (w_ticks w) (w_fsuid w) (w_fsgid w) (w_files w)
        (w_authtok w) (w_answers w).

Definition set_ticks (n : nat) (w : world) : world :=
  World (w_allocs w) (w_log w) (w_clock w) n (w_fsuid w) (w_fsgid w) (w_files w)
        (w_authtok w) (w_answers w).

Definition set_ids (uid gid : Z) (w : world) : world :=
  World (w_allocs w) (w_log w) (w_clock w) (w_ticks w) uid gid (w_files w)
        (w_authtok w) (w_answers w).

Definition set_files (f : gmap (list Z) file) (w : world) : world :=
  World (w_allocs w) (w_log w) (w_clock w) (w_ticks w) (w_fsuid w) (w_fsgid w) f
        (w_authtok w) (w_answers w).

Definition set_authtok (a : option (list Z)) (w : world) : world :=
  World (w_allocs w) (w_log w) (w_clock w) (w_ticks w) (w_fsuid w) (w_fsgid w) (w_files w)
        a (w_answers w).

Definition set_answers (l : list answer) (w : world) : world :=
  World (w_allocs w) (w_log w) (w_clock w) (w_ticks w) (w_fsuid w) (w_fsgid w) (w_files w)
        (w_authtok w) l.

(** Whether a [malloc] succeeds, or a system call that can fail for reasons
    that are not in the model. *)
Definition alloc : M bool := λ w,
  match w_allocs w with
  | [] => (true, w)
  | b :: l => (b, set_allocs l w)
  end.

Definition LOG_EMERG : Z := 0.
Definition LOG_ERR : Z := 3.

(** [log_message], without its [_exit] on [LOG_EMERG] (see the caller). *)
Definition log_message (priority : Z) (format : string) : M () :=
  λ w, ((), set_log ((priority, format) :: w_log w) w).

(** [time(NULL)] *)
Definition get_time : M Z := λ w, (w_clock w (w_ticks w), set_ticks (S (w_ticks w)) w).

(** [get_time()/30], in an [int]. *)
Definition get_timestamp : M Z := t ← get_time; mret (s32 (Z.quot t 30)).

(** ** What a computation leaves alone *)

(** The files, the ids, the token and the answers are as before. *)
Definition quiet (w w' : world) : Prop :=
  w_files w' = w_files w ∧ w_fsuid w' = w_fsuid w ∧ w_fsgid w' = w_fsgid w ∧
  w_authtok w' = w_authtok w ∧ w_answers w' = w_answers w ∧ w_clock w' = w_clock w.

#[export] Instance quiet_preorder : PreOrder quiet.
Proof. split; [done|]. unfold quiet. intros a b c. naive_solver congruence. Qed.

Lemma alloc_quiet (w : world) : quiet w (alloc w).2.
Proof. unfold alloc. by destruct (w_allocs w). Qed.

Lemma log_quiet (p : Z) (s : string) (w : world) : quiet w (log_message p s w).2.
Proof. done. Qed.

Lemma time_quiet (w : world) : quiet w (get_time w).2.
Proof. done. Qed.

Lemma bind_quiet {A B} (m : M A) (f : A → M B) (w : world) :
  quiet w (m w).2 → (∀ a w', quiet w' (f a w').2) → quiet w ((m ≫= f) w).2.
Proof. intros H1 H2. rewrite M_bind_unfold. etrans; [exact H1|apply H2]. Qed.

(** ** Outcomes that were used up *)

(** The world after the first [n] outcomes have been taken. *)
Definition spent (n : nat) (w : world) : world := set_allocs (drop n (w_allocs w)) w.

(** One of the next [n] allocations fails. *)
Definition failed (n : nat) (w : world) : Prop := false ∈ take n (w_allocs w).

Lemma spent_0 (w : world) : spent 0 w = w.
Proof. by destruct w. Qed.

Lemma spent_spent (n m : nat) (w : world) : spent n (spent m w) = spent (m + n) w.
Proof. unfold spent. destruct w. cbn. by rewrite drop_drop. Qed.

Lemma failed_spent (n m : nat) (w : world) : failed n (spent m w) → failed (m + n) w.
Proof.
  unfold failed, spent. cbn. intros H. rewrite <-(take_drop m (take (m + n) (w_allocs w))).
  apply elem_of_app. right. by rewrite skipn_firstn_comm, Nat.add_comm, Nat.add_sub.
Qed.

Lemma failed_le (n m : nat) (w : world) : (n ≤ m)%nat → failed n w → failed m w.
Proof.
  unfold failed. intros Hnm H. rewrite <-(Nat.min_l n m), <-take_take in H by done.
  apply elem_of_take in H as (i & Hi & _). by eapply list_elem_of_lookup_2.
Qed.

Lemma not_failed (n : nat) (w : world) : w_allocs w = [] → ¬ failed n w.
Proof. unfold failed. intros ->. rewrite take_nil. apply not_elem_of_nil. Qed.

Lemma alloc_spent (w : world) : (alloc w).2 = spent 1 w ∧ ((alloc w).1 = false → failed 1 w).
Proof.
  unfold alloc, spent, failed. destruct w as [[|b l] ?]; cbn; [done|].
  split; [by rewrite drop_0|]. intros ->. by left.
Qed.
