(* ===== verification/CfgFile.v ===== *)
(** * The state file: options ([get_cfg_value], [set_cfg_value])

    The buffer of pam_google_authenticator.c is a text without NUL; a pointer
    into it is the text from there on.  [cfg_lookup] and [cfg_replace] are the
    loops of the two functions, [get_cfg_value] and [set_cfg_value] add the
    allocations.  The specification views the text as its lines ([segs]).

    [memcmp(line+2, key, key_len)] is read byte by byte up to the first
    difference. *)

From S2P Require Import Prelude CString PamWorld.

(** ** The code *)

Definition eol : list Z := [CR; LF].
Definition blank : list Z := [SP; TAB].
Definition DQ : Z := 34.

(** The test on [line]: the text after the key, when the line has it. *)
Definition match_key (key line : list Z) : option (list Z) :=
  match line with
  | a :: b :: rest =>
    if (a =? DQ) && (b =? SP) && starts_with rest key &&
       at_end_or (drop (length key) rest) [SP; TAB; CR; LF]
    then Some (drop (length key) rest) else None
  | _ => None
  end.

(** [line += strcspn(line, "\r\n"); line += strspn(line, "\r\n");] *)
Definition line_end (line : list Z) : list Z :=
  let l := drop (strcspn line eol) line in drop (strspn l eol) l.

(** The loop over the lines; every round moves on. *)
Fixpoint find_line (fuel : nat) (key line : list Z) : option (list Z * list Z) :=
  match fuel with
  | O => None
  | S fuel =>
    match line with
    | [] => None
    | _ =>
      match match_key key line with
      | Some ptr => Some (line, ptr)
      | None => find_line fuel key (line_end line)
      end
    end
  end.

Definition cfg_lookup (key buf : list Z) : option (list Z) :=
  '(_, ptr) ← find_line (S (length buf)) key buf;
  let ptr := drop (strspn ptr blank) ptr in
  Some (take (strcspn ptr eol) ptr).

(** NULL, [&oom] or the value. *)
Inductive cfg_value := NoValue | Oom | Value (v : list Z).

Definition get_cfg_value (key buf : list Z) : M cfg_value :=
  match cfg_lookup key buf with
  | None => mret NoValue
  | Some v =>
    ok ← alloc;
    if ok : bool then mret (Value v)
    else log_message LOG_ERR "Out of memory";; mret Oom
  end.

(** The lines to replace: [start] and [stop]. *)
Definition cfg_place (key buf : list Z) : list Z * list Z :=
  match find_line (S (length buf)) key buf with
  | Some (line, _) => (line, line_end line)
  | None => (line_end buf, line_end buf)
  end.

(** The loop that deletes the other lines with the key. *)
Fixpoint delete_lines (fuel : nat) (key line : list Z) : list Z :=
  match fuel with
  | O => line
  | S fuel =>
    match line with
    | [] => []
    | _ =>
      match match_key key line with
      | Some _ => delete_lines fuel key (line_end line)
      | None => take (length line - length (line_end line)) line ++
                delete_lines fuel key (line_end line)
      end
    end
  end.

Definition new_line (key val : list Z) : list Z := DQ :: SP :: key ++ [SP] ++ val ++ [LF].

Definition cfg_replace (key val buf : list Z) : list Z :=
  let '(start, stop) := cfg_place key buf in
  take (length buf - length start) buf ++ new_line key val ++
  delete_lines (S (length stop)) key stop.

(** The status and the buffer; a longer text needs a new one. *)
Definition set_cfg_value (key val buf : list Z) : M (Z * list Z) :=
  let '(start, stop) := cfg_place key buf in
  let total_len := (length key + length val + 4)%nat in
  if (total_len <=? length start - length stop)%nat then mret (0, cfg_replace key val buf)
  else
    ok ← alloc;
    if ok : bool then mret (0, cfg_replace key val buf)
    else log_message LOG_ERR "Out of memory";; mret (-1, buf).

(** ** Lines *)

(** The text up to [line_end], and the text as its lines. *)
Definition first_seg (buf : list Z) : list Z := take (length buf - length (line_end buf)) buf.

Fixpoint segs_go (fuel : nat) (buf : list Z) : list (list Z) :=
  match fuel with
  | O => []
  | S fuel => match buf with [] => [] | _ => first_seg buf :: segs_go fuel (line_end buf) end
  end.

Definition segs (buf : list Z) : list (list Z) := segs_go (S (length buf)) buf.

Definition is_eol (c : Z) : bool := in_set eol c.

(** A body without end-of-line bytes, and the bytes that end it. *)
Definition seg_parts (s b e : list Z) : Prop :=
  s = b ++ e ∧ Forall (λ c, is_eol c = false) b ∧ Forall (λ c, is_eol c = true) e.

(** Only the last line may be unterminated; only the first may have no body. *)
Fixpoint wf_tail (ls : list (list Z)) : Prop :=
  match ls with
  | [] => True
  | s :: ls => (∃ b e, seg_parts s b e ∧ b ≠ [] ∧ (e ≠ [] ∨ ls = [])) ∧ wf_tail ls
  end.

Definition wf_lines (ls : list (list Z)) : Prop :=
  match ls with
  | [] => True
  | s :: ls => (∃ b e, seg_parts s b e ∧ s ≠ [] ∧ (e ≠ [] ∨ ls = [])) ∧ wf_tail ls
  end.

Definition terminated (s : list Z) : Prop := ∃ b e, seg_parts s b e ∧ e ≠ [].

(** *** The lines of a text *)

Lemma strcspn_body (b t : list Z) :
  Forall (λ c, is_eol c = false) b → match t with [] => True | c :: _ => is_eol c = true end →
  strcspn (b ++ t) eol = length b.
Proof.
  intros Hb Ht. apply span_by_all.
  - eapply Forall_impl; [exact Hb|]. intros c Hc. fold (is_eol c). by rewrite Hc.
  - destruct t as [|c t]; [done|]. fold (is_eol c). by rewrite Ht.
Qed.

Lemma strspn_eol (e t : list Z) :
  Forall (λ c, is_eol c = true) e → match t with [] => True | c :: _ => is_eol c = false end →
  strspn (e ++ t) eol = length e.
Proof. intros He Ht. by apply span_by_all. Qed.

(** A text that starts with a line of these parts, what follows being no
    end-of-line byte. *)
Definition follows (e t : list Z) : Prop :=
  (e ≠ [] ∨ t = []) ∧ match t with [] => True | c :: _ => is_eol c = false end.

Lemma line_end_parts (s b e t : list Z) : seg_parts s b e → follows e t → line_end (s ++ t) = t.
Proof.
  intros (-> & Hb & He) [Hf Ht]. unfold line_end. rewrite <-app_assoc.
  rewrite strcspn_body; [|done|].
  - rewrite drop_app_length. rewrite strspn_eol by done. apply drop_app_length.
  - destruct He as [|c e Hc He]; [|done]. destruct Hf as [?| ->]; done.
Qed.

Lemma first_seg_parts (s b e t : list Z) : seg_parts s b e → follows e t → first_seg (s ++ t) = s.
Proof.
  intros Hs Hf. unfold first_seg. rewrite (line_end_parts _ _ _ _ Hs Hf), length_app.
  replace (length s + length t - length t)%nat with (length s) by lia. apply take_app_length.
Qed.

(** Every text starts with such a line. *)
Lemma first_seg_exists (buf : list Z) : ∃ s b e,
  buf = s ++ line_end buf ∧ seg_parts s b e ∧ follows e (line_end buf) ∧ (buf ≠ [] → s ≠ []).
Proof.
  set (n := strcspn buf eol). set (l := drop n buf). set (m := strspn l eol).
  assert (line_end buf = drop m l) as E by done.
  exists (take n buf ++ take m l), (take n buf), (take m l).
  assert (Forall (λ c, is_eol c = false) (take n buf)) as Hb.
  { pose proof (span_by_take (λ c, negb (in_set eol c)) buf) as H. eapply Forall_impl; [exact H|].
    intros c. unfold is_eol. cbn beta. by destruct (in_set eol c). }
  assert (Forall (λ c, is_eol c = true) (take m l)) as He by apply span_by_take.
  pose proof (span_by_drop (in_set eol) l) as Hd. fold (strspn l eol) m in Hd.
  pose proof (span_by_drop (λ c, negb (in_set eol c)) buf) as Hn. fold (strcspn buf eol) n l in Hn.
  split; [rewrite E, <-app_assoc, take_drop; unfold l; by rewrite take_drop|].
  split; [done|]. split.
  - split; [|by rewrite E; destruct (drop m l)].
    destruct l as [|c l'] eqn:El; [right; by rewrite E, drop_nil|]. left.
    cbn beta iota in Hn. apply negb_false_iff in Hn.
    unfold m, strspn. cbn [span_by]. by rewrite Hn.
  - intros Hne Hs. apply app_nil in Hs as [H1 H2]. unfold l in H2.
    destruct buf as [|c buf]; [done|]. unfold n, strcspn in H1. cbn [span_by] in H1.
    destruct (in_set eol c) eqn:Ec; [|done].
    unfold m, l, n, strspn, strcspn in H2. cbn [span_by] in H2. rewrite Ec in H2.
    cbn [negb drop span_by] in H2. by rewrite Ec in H2.
Qed.

Lemma line_end_length (buf : list Z) : buf ≠ [] → (length (line_end buf) < length buf)%nat.
Proof.
  intros Hne. destruct (first_seg_exists buf) as (s & b & e & E & _ & _ & Hs).
  specialize (Hs Hne). apply (f_equal length) in E. rewrite length_app in E.
  destruct s; [done|simpl in E; lia].
Qed.

Lemma segs_nil : segs [] = [].
Proof. done. Qed.

Lemma segs_go_fuel (n m : nat) : ∀ buf, (length buf < n)%nat → (length buf < m)%nat →
  segs_go n buf = segs_go m buf.
Proof.
  revert m. induction n as [|n IH]; intros [|m] buf Hn Hm; try lia. cbn [segs_go].
  destruct buf as [|c buf]; [done|]. pose proof (line_end_length (c :: buf) ltac:(done)).
  f_equal. apply IH; lia.
Qed.

Lemma segs_unfold (buf : list Z) : buf ≠ [] → segs buf = first_seg buf :: segs (line_end buf).
Proof.
  intros Hne. unfold segs at 1. cbn [segs_go]. destruct buf as [|c buf]; [done|].
  pose proof (line_end_length (c :: buf) Hne). f_equal. apply segs_go_fuel; lia.
Qed.

Lemma segs_app (s b e t : list Z) :
  seg_parts s b e → s ≠ [] → follows e t → segs (s ++ t) = s :: segs t.
Proof.
  intros Hs Hne Hf. rewrite segs_unfold by (by destruct s).
  by rewrite (first_seg_parts _ _ _ _ Hs Hf), (line_end_parts _ _ _ _ Hs Hf).
Qed.

(** Induction along the lines of a text. *)
Lemma lines_ind (P : list Z → Prop) :
  P [] →
  (∀ s b e t, s ≠ [] → seg_parts s b e → follows e t → P t → P (s ++ t)) →
  ∀ buf, P buf.
Proof.
  intros H0 HS buf. remember (length buf) as n eqn:En. revert buf En.
  induction n as [n IH] using lt_wf_ind. intros buf ->.
  destruct (decide (buf = [])) as [->|Hne]; [done|].
  destruct (first_seg_exists buf) as (s & b & e & E & Hs & Hf & Hsne).
  rewrite E. apply (HS s b e); [by apply Hsne|done|done|].
  apply (IH (length (line_end buf))); [by apply line_end_length|done].
Qed.

Lemma segs_concat (buf : list Z) : mjoin (segs buf) = buf.
Proof.
  induction buf as [|s b e t Hne Hs Hf IH] using lines_ind; [done|].
  rewrite (segs_app s b e) by done.
  change (s ++ mjoin (segs t) = s ++ t). by rewrite IH.
Qed.

(** A text of well-formed lines starts with a body byte or is empty. *)
Lemma wf_tail_head (ls : list (list Z)) : wf_tail ls →
  match mjoin ls with [] => ls = [] | c :: _ => is_eol c = false end.
Proof.
  destruct ls as [|s ls]; [done|]. intros [(b & e & (-> & Hb & He) & Hne & _) _].
  destruct b as [|c b]; [done|]. by inversion Hb.
Qed.

Lemma wf_follows (b e : list Z) (ls : list (list Z)) : (e ≠ [] ∨ ls = []) → wf_tail ls → follows e (mjoin ls).
Proof.
  intros He Hw. pose proof (wf_tail_head _ Hw) as H. split.
  - destruct He as [?| ->]; [by left|by right].
  - by destruct (mjoin ls).
Qed.

Lemma segs_tail (ls : list (list Z)) : wf_tail ls → segs (mjoin ls) = ls.
Proof.
  induction ls as [|s ls IH]; [done|]. intros [(b & e & Hs & Hne & He) Hw].
  change (mjoin (s :: ls)) with (s ++ mjoin ls).
  rewrite (segs_app s b e), IH; [done|done|done| |by apply (wf_follows b)].
  destruct Hs as (-> & _). by destruct b.
Qed.

Lemma segs_wf_join (ls : list (list Z)) : wf_lines ls → segs (mjoin ls) = ls.
Proof.
  destruct ls as [|s ls]; [done|]. intros [(b & e & Hs & Hne & He) Hw].
  change (mjoin (s :: ls)) with (s ++ mjoin ls).
  by rewrite (segs_app s b e), segs_tail by (try apply (wf_follows b); done).
Qed.

Lemma segs_wf (buf : list Z) : wf_lines (segs buf).
Proof.
  assert (∀ t, match t with [] => True | c :: _ => is_eol c = false end → wf_tail (segs t)) as H.
  { induction t as [|s b e t Hne Hs [Hf1 Hf2] IH] using lines_ind; [done|]. intros Hc.
    rewrite (segs_app s b e) by done. split; [|by apply IH].
    exists b, e. split; [done|]. split.
    - destruct Hs as (-> & _ & He). intros ->. destruct e as [|c e]; [done|]. simpl in Hc.
      apply Forall_cons in He as [He _]. congruence.
    - destruct Hf1 as [?| ->]; [by left|by right]. }
  destruct buf as [|s b e t Hne Hs Hf] using lines_ind; [done|].
  rewrite (segs_app s b e) by done. split; [|apply H, Hf].
  exists b, e. split; [done|]. split; [done|]. destruct Hf as [[?| ->] _]; [by left|by right].
Qed.

(** ** Options on lines *)

(** Option names: not empty, without blanks, ends of line and quotes. *)
Definition key_byte (c : Z) : bool := negb (in_set [SP; TAB; CR; LF; NUL] c).
Definition key_ok (key : list Z) : Prop := key ≠ [] ∧ Forall (λ c, key_byte c = true) key.

Definition matches (key s : list Z) : bool :=
  match match_key key s with Some _ => true | None => false end.

(** The value of a line with the key. *)
Definition line_value (key s : list Z) : option (list Z) :=
  ptr ← match_key key s;
  let ptr := drop (strspn ptr blank) ptr in
  Some (take (strcspn ptr eol) ptr).

Lemma match_key_spec (key line ptr : list Z) :
  match_key key line = Some ptr ↔
  line = DQ :: SP :: key ++ ptr ∧ at_end_or ptr [SP; TAB; CR; LF] = true.
Proof.
  unfold match_key. split.
  - destruct line as [|a [|b rest]]; [done|done|]. case_match eqn:E; [|done]. intros [= <-].
    rewrite !andb_true_iff in E. destruct E as [[[->%Z.eqb_eq ->%Z.eqb_eq] [t ->]%starts_with_spec] E].
    rewrite drop_app_length in *. done.
  - intros [-> H]. rewrite !Z.eqb_refl. rewrite drop_app_length, H.
    by rewrite (proj2 (starts_with_spec (key ++ ptr) key)) by eauto.
Qed.

Lemma key_not_eol (key : list Z) : key_ok key → Forall (λ c, is_eol c = false) key.
Proof.
  intros [_ H]. eapply Forall_impl; [exact H|]. intros c. unfold key_byte, is_eol, eol, in_set.
  cbn [existsb]. destruct (c =? SP), (c =? TAB), (c =? CR), (c =? LF); done.
Qed.

Lemma eol_delim (c : Z) : is_eol c = true → in_set [SP; TAB; CR; LF] c = true.
Proof.
  unfold is_eol, eol, in_set. cbn [existsb]. destruct (c =? SP), (c =? TAB), (c =? CR), (c =? LF); done.
Qed.

(** A line that is all body is the last one. *)
Lemma seg_body_last (s b e t : list Z) :
  seg_parts s b e → follows e t → Forall (λ c, is_eol c = false) s → t = [].
Proof.
  intros (-> & _ & He) [Hf _] Hs. apply Forall_app in Hs as [_ Hs].
  destruct e as [|c e]; [by destruct Hf|]. apply Forall_cons in He as [He _].
  apply Forall_cons in Hs as [Hs _]. congruence.
Qed.

Lemma key_prefix_body (key : list Z) : key_ok key → Forall (λ c, is_eol c = false) (DQ :: SP :: key).
Proof. intros Hk. repeat constructor. by apply key_not_eol. Qed.

(** The bytes after a line do not decide whether it has the key. *)
Lemma match_key_app (key s b e t : list Z) :
  key_ok key → seg_parts s b e → follows e t →
  match_key key (s ++ t) = (λ p, p ++ t) <$> match_key key s.
Proof.
  intros Hk Hs Hf. pose proof (key_prefix_body _ Hk) as Hke.
  destruct (match_key key s) as [p|] eqn:E; simpl.
  - apply match_key_spec in E as [E Hp]. apply match_key_spec. split; [rewrite E; cbn [app]; by rewrite <-app_assoc|].
    destruct p as [|c p]; [|done]. rewrite app_nil_r in E.
    by rewrite (seg_body_last s b e t) by (done || by rewrite E).
  - destruct (match_key key (s ++ t)) as [p'|] eqn:E'; [|done]. exfalso.
    apply match_key_spec in E' as [E' Hp].
    change (DQ :: SP :: key ++ p') with ((DQ :: SP :: key) ++ p') in E'.
    apply app_eq_inv in E' as [(k & E1 & E2)|(k & E1 & E2)].
    2: { assert (t = []) as ->.
      { eapply (seg_body_last s); [done..|]. rewrite E1 in Hke. by apply Forall_app in Hke as [? _]. }
      symmetry in E2. apply app_nil in E2 as [-> ->]. rewrite app_nil_r in E1. subst s.
      apply eq_None_not_Some in E. apply E. exists []. apply match_key_spec.
      split; [by rewrite app_nil_r|done]. }
    apply eq_None_not_Some in E. apply E. exists k. apply match_key_spec. split; [done|].
    subst p'. by destruct k.
Qed.

Lemma matches_app (key s b e t : list Z) : key_ok key → seg_parts s b e → follows e t →
  matches key (s ++ t) = matches key s.
Proof. intros Hk Hs Hf. unfold matches. rewrite (match_key_app key s b e) by done. by destruct (match_key key s). Qed.

(** Two keys never share a line. *)
Lemma matches_unique (key key' s : list Z) :
  key_ok key → key_ok key' → matches key s = true → matches key' s = true → key = key'.
Proof.
  unfold matches. intros Hk Hk'. destruct (match_key key s) as [p|] eqn:E; [|done]. intros _.
  destruct (match_key key' s) as [p'|] eqn:E'; [|done]. intros _.
  apply match_key_spec in E as [-> Hp]. apply match_key_spec in E' as [E' Hp'].
  injection E' as E'.
  assert (∀ k q, key_ok k → at_end_or q [SP; TAB; CR; LF] = true → span_by key_byte (k ++ q) = length k) as Hsp.
  { intros k q [_ H] Hq. apply span_by_all; [done|]. destruct q as [|c q]; [done|].
    unfold key_byte. simpl in Hq. rewrite negb_false_iff. unfold in_set in *. cbn [existsb] in *.
    destruct (c =? SP), (c =? TAB), (c =? CR), (c =? LF); done. }
  pose proof (Hsp _ _ Hk Hp) as H1. rewrite E', (Hsp _ _ Hk' Hp') in H1.
  by apply (app_inj_1 _ _ _ _ (eq_sym H1)) in E' as [? _].
Qed.

(** *** The loops on the lines of the buffer *)

Lemma find_line_segs (key : list Z) : key_ok key → ∀ buf fuel, (length buf < fuel)%nat →
  match find_line fuel key buf with
  | Some (line, ptr) => ∃ pre s post p, segs buf = pre ++ s :: post ∧ line = s ++ mjoin post ∧
      match_key key s = Some p ∧ ptr = p ++ mjoin post ∧ Forall (λ s, matches key s = false) pre ∧
      line_end line = mjoin post
  | None => Forall (λ s, matches key s = false) (segs buf)
  end.
Proof.
  intros Hk. induction buf as [|s b e t Hne Hs Hf IH] using lines_ind; intros fuel Hl.
  { destruct fuel; [simpl in Hl; lia|]. constructor. }
  destruct fuel as [|fuel]; [lia|]. rewrite length_app in Hl.
  assert (find_line (S fuel) key (s ++ t) = match match_key key (s ++ t) with
      | Some ptr => Some (s ++ t, ptr) | None => find_line fuel key t end) as ->.
  { cbn [find_line]. rewrite (line_end_parts s b e t) by done. by destruct s. }
  rewrite (segs_app s b e), (match_key_app key s b e) by done.
  destruct (match_key key s) as [p|] eqn:E; simpl.
  - exists [], s, (segs t), p. rewrite segs_concat.
    split_and!; try done. by apply (line_end_parts s b e).
  - specialize (IH fuel). destruct (find_line fuel key t) as [[line ptr]|].
    + destruct IH as (pre & s' & post & p & -> & Hline & Hm & Hp & Hpre & Hle);
        [destruct s; simpl in *; [done|lia]|].
      exists (s :: pre), s', post, p. split_and!; try done. constructor; [|done].
      unfold matches. by rewrite E.
    + constructor; [unfold matches; by rewrite E|]. apply IH. destruct s; simpl in *; [done|lia].
Qed.

Lemma delete_lines_segs (key : list Z) : key_ok key → ∀ buf fuel, (length buf < fuel)%nat →
  delete_lines fuel key buf = mjoin (filter (λ s, matches key s = false) (segs buf)).
Proof.
  intros Hk. induction buf as [|s b e t Hne Hs Hf IH] using lines_ind; intros fuel Hl.
  { destruct fuel; [simpl in Hl; lia|]. done. }
  destruct fuel as [|fuel]; [lia|]. rewrite length_app in Hl.
  assert (delete_lines (S fuel) key (s ++ t) = match match_key key (s ++ t) with
      | Some _ => delete_lines fuel key t | None => s ++ delete_lines fuel key t end) as ->.
  { pose proof (first_seg_parts s b e t Hs Hf) as E. unfold first_seg in E.
    cbn [delete_lines]. rewrite (line_end_parts s b e t) in E |- * by done.
    rewrite E. by destruct s. }
  rewrite (segs_app s b e), (match_key_app key s b e) by done.
  rewrite IH by (destruct s; simpl in *; [done|lia]).
  destruct (match_key key s) as [p|] eqn:E; simpl fmap; cbv iota.
  - by rewrite filter_cons_False by (unfold matches; by rewrite E).
  - by rewrite filter_cons_True by (unfold matches; by rewrite E).
Qed.

(** ** The specification *)

(** The first line with the key is replaced, the others with it are dropped;
    without one, the new line goes after the first line. *)
Fixpoint replace_line (key new : list Z) (ls : list (list Z)) : option (list (list Z)) :=
  match ls with
  | [] => None
  | s :: ls =>
    if matches key s then Some (new :: filter (λ s, matches key s = false) ls)
    else (cons s) <$> replace_line key new ls
  end.

Definition set_lines (key new : list Z) (ls : list (list Z)) : list (list Z) :=
  match replace_line key new ls with
  | Some ls => ls
  | None => match ls with [] => [new] | s :: ls => s :: new :: ls end
  end.

Definition find_value (key : list Z) (ls : list (list Z)) : option (list Z) :=
  s ← head (filter (λ s, matches key s = true) ls); line_value key s.

Lemma replace_line_app (key new s : list Z) (pre post : list (list Z)) :
  Forall (λ s, matches key s = false) pre → matches key s = true →
  replace_line key new (pre ++ s :: post) =
    Some (pre ++ new :: filter (λ s, matches key s = false) post).
Proof.
  induction 1 as [|x pre Hx _ IH]; intros Hs; simpl; [by rewrite Hs|]. by rewrite Hx, IH.
Qed.

Lemma replace_line_none (key new : list Z) (ls : list (list Z)) :
  Forall (λ s, matches key s = false) ls → replace_line key new ls = None.
Proof. induction 1 as [|x ls Hx _ IH]; simpl; [done|]. by rewrite Hx, IH. Qed.

Lemma filter_all_false (key : list Z) (ls : list (list Z)) :
  Forall (λ s, matches key s = false) ls → filter (λ s, matches key s = true) ls = [].
Proof.
  induction 1 as [|x ls Hx _ IH]; [done|]. by rewrite filter_cons_False by congruence.
Qed.

(** Reading the value in the whole text or in its line. *)
Lemma value_app (p t : list Z) : (t = [] ∨ ∃ c, last p = Some c ∧ is_eol c = true) →
  take (strcspn (drop (strspn (p ++ t) blank) (p ++ t)) eol) (drop (strspn (p ++ t) blank) (p ++ t)) =
  take (strcspn (drop (strspn p blank) p) eol) (drop (strspn p blank) p).
Proof.
  intros [->|Hc]; [by rewrite !app_nil_r|]. destruct Hc as (c & Hl & Hc).
  apply last_Some in Hl as [q ->]. rewrite <-app_assoc. cbn [app].
  assert (in_set blank c = false) as Hcb.
  { unfold is_eol, eol, blank, in_set in *. cbn [existsb] in *.
    destruct (Z.eqb_spec c CR) as [->|]; [done|]. by destruct (Z.eqb_spec c LF) as [->|]. }
  assert (∀ r, strspn (q ++ c :: r) blank = span_by (in_set blank) q) as Hsp.
  { intros r. unfold strspn. clear -Hcb. induction q as [|x q IH]; cbn [app span_by]; [by rewrite Hcb|].
    destruct (in_set blank x); [by rewrite IH|done]. }
  rewrite !Hsp. pose proof (span_by_le (in_set blank) q) as Hle.
  rewrite !(drop_app_le q) by lia. generalize (drop (span_by (in_set blank) q) q). clear -Hc. intros r.
  assert (∀ t, strcspn (r ++ c :: t) eol = span_by (λ c, negb (in_set eol c)) r) as Hsp.
  { intros t'. unfold strcspn. induction r as [|x r IH]; cbn [app span_by]; [unfold is_eol in Hc; by rewrite Hc|].
    destruct (negb (in_set eol x)); [by rewrite IH|done]. }
  rewrite !Hsp. pose proof (span_by_le (λ c, negb (in_set eol c)) r).
  by rewrite !take_app_le by done.
Qed.

Lemma cfg_lookup_lines (key buf : list Z) : key_ok key → cfg_lookup key buf = find_value key (segs buf).
Proof.
  intros Hk. unfold cfg_lookup, find_value.
  pose proof (find_line_segs key Hk buf (S (length buf)) ltac:(lia)) as H.
  destruct (find_line _ key buf) as [[line ptr]|].
  - destruct H as (pre & s & post & p & Es & -> & Hm & -> & Hpre & Hle).
    rewrite Es, filter_app, filter_all_false by done. cbn [app mbind option_bind].
    rewrite filter_cons_True by (unfold matches; by rewrite Hm). cbn [head mbind option_bind].
    unfold line_value. rewrite Hm. cbn [mbind option_bind]. f_equal. apply value_app.
    pose proof (segs_wf buf) as Hw. rewrite Es in Hw.
    assert (∃ b e, seg_parts s b e ∧ (e ≠ [] ∨ post = [])) as (b & e & (Hs & Hb & He) & Hep).
    { destruct pre as [|s' pre]; [destruct Hw as [(b & e & H1 & _ & H2) _]; eauto|].
      destruct Hw as [_ Hw]. clear Es. induction pre as [|s'' pre IH]; simpl in Hw.
      - destruct Hw as [(b & e & H1 & _ & H2) _]; eauto.
      - apply IH; [by apply Forall_cons in Hpre as [? Hpre]; apply Forall_cons in Hpre as [? Hpre]; constructor|apply Hw]. }
    destruct Hep as [Hne| ->]; [|by left]. right.
    apply match_key_spec in Hm as [Hm Hp]. destruct (exists_last Hne) as (e' & c & ->).
    exists c. apply Forall_app in He as [_ He]. apply Forall_cons in He as [He _]. split; [|done].
    destruct p as [|x p'] eqn:Ep using rev_ind.
    + exfalso. rewrite Hs, app_nil_r in Hm.
      assert (Forall (λ c, is_eol c = false) (b ++ e' ++ [c])) as Hf by (rewrite Hm; by apply key_prefix_body).
      rewrite !Forall_app, Forall_singleton in Hf. destruct Hf as (_ & _ & Hf). congruence.
    + rewrite last_snoc. rewrite Hs in Hm.
      assert ((b ++ e') ++ [c] = (DQ :: SP :: key ++ p') ++ [x]) as E by (rewrite <-app_assoc; rewrite Hm; cbn; by rewrite <-app_assoc).
      apply app_inj_tail in E as [_ ->]. done.
  - rewrite filter_all_false by done. done.
Qed.

(** *** [set_cfg_value] on lines *)

(** Values: no end of line, no blank in front. *)
Definition val_ok (val : list Z) : Prop :=
  Forall (λ c, is_eol c = false) val ∧ match val with [] => True | c :: _ => in_set blank c = false end.

(** The secret line is terminated. *)
Definition cfg_ok (buf : list Z) : Prop := ∃ s ls, segs buf = s :: ls ∧ terminated s.

Lemma new_line_parts (key val : list Z) : key_ok key → val_ok val →
  seg_parts (new_line key val) (DQ :: SP :: key ++ SP :: val) [LF].
Proof.
  intros Hk [Hv _]. split; [unfold new_line; cbn [app]; by rewrite <-!app_assoc|].
  split; [|by repeat constructor].
  apply (Forall_app_2 _ [DQ; SP]); [by repeat constructor|].
  apply Forall_app. split; [by apply key_not_eol|]. by constructor.
Qed.

Lemma new_line_match (key val : list Z) : match_key key (new_line key val) = Some (SP :: val ++ [LF]).
Proof. by apply match_key_spec. Qed.

Lemma new_line_matches (key key' val : list Z) : key_ok key → key_ok key' → key' ≠ key →
  matches key' (new_line key val) = false.
Proof.
  intros Hk Hk' Hne. destruct (matches key' (new_line key val)) eqn:E; [|done].
  destruct Hne. eapply matches_unique; [done..|]. unfold matches. by rewrite new_line_match.
Qed.

Lemma new_line_value (key val : list Z) : val_ok val → line_value key (new_line key val) = Some val.
Proof.
  intros [Hv Hb]. unfold line_value. rewrite new_line_match. cbn [mbind option_bind]. f_equal.
  assert (strspn (SP :: val ++ [LF]) blank = 1%nat) as ->.
  { apply (span_by_all _ [SP]); [by repeat constructor|]. by destruct val. }
  change (drop 1 (SP :: val ++ [LF])) with (val ++ [LF]). rewrite strcspn_body by done. apply take_app_length.
Qed.

Lemma cfg_place_spec (key buf : list Z) : key_ok key →
  ∃ pre old post, segs buf = pre ++ old ++ post ∧
    cfg_place key buf = (mjoin (old ++ post), mjoin post) ∧
    (∀ new, set_lines key new (segs buf) =
      pre ++ new :: filter (λ s, matches key s = false) post) ∧
    Forall (λ s, matches key s = false) pre ∧ Forall (λ s, matches key s = true) old ∧
    ((∃ o, old = [o]) ∨ (old = [] ∧ (length pre ≤ 1)%nat ∧ (pre = [] → segs buf = []))).
Proof.
  intros Hk. unfold cfg_place, set_lines.
  pose proof (find_line_segs key Hk buf (S (length buf)) ltac:(lia)) as H.
  destruct (find_line _ key buf) as [[line ptr]|].
  - destruct H as (pre & s & post & p & Es & -> & Hm & _ & Hpre & Hle).
    exists pre, [s], post. rewrite Hle. split_and!; [done|done| |done|constructor; [unfold matches; by rewrite Hm|done]|by left; exists s].
    intros new. rewrite Es, replace_line_app; [done|done|]. unfold matches. by rewrite Hm.
  - exists (take 1 (segs buf)), [], (drop 1 (segs buf)). cbn [app]. rewrite take_drop.
    assert (mjoin (drop 1 (segs buf)) = line_end buf) as ->.
    { destruct (decide (buf = [])) as [->|Hne]; [done|]. rewrite segs_unfold by done. apply segs_concat. }
    split_and!; [done|done| |by apply Forall_take|constructor|right; split_and!; [done|rewrite length_take; lia|by destruct (segs buf)]].
    intros new. rewrite replace_line_none by done.
    destruct (segs buf) as [|s ls]; [done|]. change (take 1 (s :: ls)) with [s]. change (drop 1 (s :: ls)) with ls.
    apply Forall_cons in H as [_ H].
    assert (filter (λ s, matches key s = false) ls = ls) as ->; [|done].
    induction H as [|x ls Hx _ IH]; [done|]. by rewrite filter_cons_True, IH.
Qed.

Lemma mjoin_app {A} (l l' : list (list A)) : mjoin (l ++ l') = mjoin l ++ mjoin l'.
Proof. induction l as [|x l IH]; [done|]. simpl. by rewrite IH, app_assoc. Qed.

(** The new buffer is the concatenation of the new lines. *)
Lemma cfg_replace_lines (key val buf : list Z) : key_ok key →
  cfg_replace key val buf = mjoin (set_lines key (new_line key val) (segs buf)).
Proof.
  intros Hk. unfold cfg_replace.
  destruct (cfg_place_spec key buf Hk) as (pre & old & post & Es & -> & -> & _).
  rewrite !mjoin_app. change (mjoin (?x :: ?l)) with (x ++ mjoin l).
  assert (wf_lines (segs buf)) as Hw by apply segs_wf.
  rewrite <-(segs_concat buf) at 1 2. rewrite Es, mjoin_app, length_app.
  rewrite !mjoin_app, !length_app.
  replace (length (mjoin pre) + (length (mjoin old) + length (mjoin post)) -
    (length (mjoin old) + length (mjoin post)))%nat with (length (mjoin pre)) by lia.
  rewrite take_app_length. f_equal. cbn [mjoin list_join]. f_equal.
  rewrite delete_lines_segs by (done || lia). do 2 f_equal.
  rewrite Es in Hw.
  assert (∀ l : list (list Z), wf_lines (l ++ post) → l ≠ [] → wf_tail post) as Htail.
  { clear. intros l. destruct l as [|s l]; [done|]. intros [_ Hw] _. cbn [app] in Hw.
    induction l as [|s' l IH]; [done|]. apply IH, Hw. }
  destruct (pre ++ old) as [|s l] eqn:El.
  - apply app_nil in El as [-> ->]. by apply segs_wf_join.
  - apply segs_tail, (Htail (pre ++ old)); [by rewrite <-app_assoc|by rewrite El].
Qed.

Lemma wf_tail_filter (Q : list Z → Prop) `{∀ s, Decision (Q s)} (ls : list (list Z)) :
  wf_tail ls → wf_tail (filter Q ls).
Proof.
  induction ls as [|s ls IH]; [done|]. intros [(b & e & Hs & Hb & He) Hw]. rewrite filter_cons.
  case_decide; [|by apply IH]. split; [|by apply IH]. exists b, e. split; [done|]. split; [done|].
  destruct He as [?| ->]; [by left|by right].
Qed.

Lemma wf_tail_split (ls ls' : list (list Z)) : wf_tail (ls ++ ls') → wf_tail ls'.
Proof. induction ls as [|s ls IH]; [done|]. intros [_ H]. by apply IH. Qed.

Lemma wf_tail_replace (pre : list (list Z)) (o new : list Z) (post post' : list (list Z)) :
  wf_tail (pre ++ o :: post) → wf_tail (new :: post') → wf_tail (pre ++ new :: post').
Proof.
  induction pre as [|s pre IH]; [done|]. intros [(b & e & H1 & H2 & H3) Hw] Hn. split; [|by apply IH].
  exists b, e. split; [done|]. split; [done|]. left. destruct H3 as [?|H3]; [done|by destruct pre].
Qed.

(** On a buffer whose first line is terminated, the lines of the result are
    those of the specification. *)
Lemma set_lines_wf (key val buf : list Z) : key_ok key → val_ok val → cfg_ok buf →
  segs (cfg_replace key val buf) = set_lines key (new_line key val) (segs buf) ∧
  cfg_ok (cfg_replace key val buf).
Proof.
  intros Hk Hv (s & ls & Es & Ht). rewrite cfg_replace_lines by done.
  pose proof (segs_wf buf) as Hw. pose proof (new_line_parts key val Hk Hv) as Hn.
  assert (∀ post, wf_tail post → wf_tail (new_line key val :: filter (λ s, matches key s = false) post)) as Hnew.
  { intros post Hp. split; [|by apply wf_tail_filter].
    exists (DQ :: SP :: key ++ SP :: val), [LF]. split; [done|]. split; [done|by left]. }
  destruct (cfg_place_spec key buf Hk) as (pre & old & post & Es' & _ & Hset & _ & _ & Hcase).
  rewrite Hset. unfold cfg_ok. rewrite Es in Hcase. rewrite Es' in Hw, Es.
  assert (wf_lines (pre ++ new_line key val :: filter (λ s, matches key s = false) post) ∧
    ∃ s' ls', pre ++ new_line key val :: filter (λ s, matches key s = false) post = s' :: ls' ∧
      terminated s') as [Hwf (s' & ls' & E' & Ht')].
  { destruct pre as [|s' pre].
    - destruct Hcase as [(o & ->)|(_ & _ & H)]; [|by specialize (H eq_refl)].
      destruct Hw as [_ Hw]. destruct (Hnew post Hw) as [_ Hf].
      split; [|by eexists _, _; split; [done|]; eexists _, _].
      split; [|done]. eexists _, _. split; [exact Hn|]. split; [done|by left].
    - cbn [app] in Hw, Es |- *. injection Es as -> Es. destruct Hw as [_ Hw].
      split; [|eauto]. destruct Ht as (b & e & Hs & He). split.
      + exists b, e. split; [done|]. split; [|by left]. destruct Hs as (-> & _). by destruct b.
      + destruct Hcase as [(o & ->)|(-> & Hl & _)].
        * eapply wf_tail_replace; [exact Hw|]. apply Hnew. by apply wf_tail_split, (wf_tail_split [o]) in Hw.
        * destruct pre; [|simpl in Hl; lia]. by apply Hnew. }
  rewrite segs_wf_join by done. split; [done|]. eauto.
Qed.

(** ** Properties *)

(** C30: [set_cfg_value] either reports -1, after a failed allocation and with
    the buffer as it was, or reports 0 and rewrites the lines: the first line
    with the key is replaced by the new line, later ones are dropped, and
    without one the new line goes after the secret; all other lines keep their
    bytes and order.  An allocation is only needed when the text grows. *)
Theorem set_cfg_value_lines (key val buf : list Z) (w : world) :
  key_ok key → val_ok val → cfg_ok buf →
  let '(rc, buf', w') := set_cfg_value key val buf w in
  (rc = -1 ∧ buf' = buf ∧ ∃ l, w_allocs w = false :: l) ∨
  (rc = 0 ∧ w_log w' = w_log w ∧ cfg_ok buf' ∧
   segs buf' = set_lines key (new_line key val) (segs buf)).
Proof.
  intros Hk Hv Hc. destruct (set_lines_wf key val buf Hk Hv Hc) as [H1 H2].
  unfold set_cfg_value. destruct (cfg_place key buf) as [start stop].
  destruct (_ <=? _)%nat; [by right|]. rewrite M_bind_unfold. unfold alloc.
  destruct (w_allocs w) as [|[|] l] eqn:E; cbn; [by right|by right|left; eauto].
Qed.

Lemma filter_other (key key' : list Z) (ls : list (list Z)) :
  key_ok key → key_ok key' → key' ≠ key →
  filter (λ s, matches key' s = true) (filter (λ s, matches key s = false) ls) =
  filter (λ s, matches key' s = true) ls.
Proof.
  intros Hk Hk' Hne. induction ls as [|s ls IH]; [done|].
  destruct (matches key s) eqn:E.
  - rewrite (filter_cons_False (λ s, matches key s = false)) by congruence.
    rewrite IH, filter_cons_False; [done|]. intros E'. destruct Hne. by apply (matches_unique key' key s).
  - rewrite (filter_cons_True (λ s, matches key s = false)) by done.
    rewrite !filter_cons. by rewrite IH.
Qed.

Lemma filter_other_true (key key' : list Z) (ls : list (list Z)) :
  key_ok key → key_ok key' → key' ≠ key → Forall (λ s, matches key s = true) ls →
  filter (λ s, matches key' s = true) ls = [].
Proof.
  intros Hk Hk' Hne. induction 1 as [|o ls Ho _ IH]; [done|].
  rewrite filter_cons_False; [done|]. intros Ho'. destruct Hne. by apply (matches_unique key' key o).
Qed.

(** Reading after setting. *)
Lemma lookup_replace (key val buf : list Z) :
  key_ok key → val_ok val → cfg_ok buf →
  cfg_lookup key (cfg_replace key val buf) = Some val ∧
  (∀ key', key_ok key' → key' ≠ key →
    cfg_lookup key' (cfg_replace key val buf) = cfg_lookup key' buf).
Proof.
  intros Hk Hv Hc. destruct (set_lines_wf key val buf Hk Hv Hc) as [Hs _].
  destruct (cfg_place_spec key buf Hk) as (pre & old & post & Es & _ & Hset & Hpre & Hold & Hcase).
  rewrite Hset in Hs. split.
  - rewrite cfg_lookup_lines, Hs by done. unfold find_value.
    rewrite filter_app, filter_all_false by done.
    rewrite filter_cons_True by (unfold matches; by rewrite new_line_match).
    cbn [app head mbind option_bind]. by apply new_line_value.
  - intros key' Hk' Hne. rewrite !cfg_lookup_lines, Hs, Es by done. unfold find_value. do 2 f_equal.
    rewrite !filter_app. f_equal.
    rewrite filter_cons_False by (rewrite new_line_matches; done).
    rewrite (filter_other_true key key' old) by done.
    cbn [app]. by apply filter_other.
Qed.

(** C31: what is set is read back, and the values of all other options and the
    secret line stay as they were. *)
Theorem set_get_cfg_value (key val buf : list Z) :
  key_ok key → val_ok val → cfg_ok buf →
  cfg_lookup key (cfg_replace key val buf) = Some val ∧
  (∀ key', key_ok key' → key' ≠ key →
    cfg_lookup key' (cfg_replace key val buf) = cfg_lookup key' buf) ∧
  (∀ s, head (segs buf) = Some s → matches key s = false →
    head (segs (cfg_replace key val buf)) = Some s).
Proof.
  intros Hk Hv Hc. destruct (lookup_replace key val buf Hk Hv Hc) as [Hl1 Hl2].
  split; [done|]. split; [done|]. intros s Hh Hm.
  destruct (set_lines_wf key val buf Hk Hv Hc) as [Hs _].
  destruct (cfg_place_spec key buf Hk) as (pre & old & post & Es & _ & Hset & Hpre & Hold & Hcase).
  rewrite Hset in Hs. rewrite Hs. rewrite Es in Hh. destruct pre as [|p pre]; [|exact Hh].
  destruct Hcase as [(o & ->)|(-> & _ & H)].
  - cbn [app head] in Hh. injection Hh as ->. apply Forall_cons in Hold as [Ho _]. congruence.
  - specialize (H eq_refl). rewrite Es in H. rewrite H in Hh. discriminate Hh.
Qed.

(** [get_cfg_value] answers with the value of the first line that has the
    key (the blanks after the key skipped, up to the end of the line), NULL
    when there is none, and [&oom] only when its allocation fails; it changes
    nothing but the allocator and the log. *)
Theorem get_cfg_value_lines (key buf : list Z) (w : world) :
  key_ok key →
  let '(r, w') := get_cfg_value key buf w in
  quiet w w' ∧
  match r with
  | NoValue => find_value key (segs buf) = None
  | Value v => find_value key (segs buf) = Some v
  | Oom => ∃ l, w_allocs w = false :: l
  end.
Proof.
  intros Hk. unfold get_cfg_value. rewrite cfg_lookup_lines by done.
  destruct (find_value key (segs buf)) as [v|]; [|done].
  rewrite M_bind_unfold. unfold alloc.
  destruct (w_allocs w) as [|[|] l] eqn:E; cbn; (split; [done|]); [done|done|eauto].
Qed.

(** ** Witnesses *)

Definition key_RATE_LIMIT : list Z := bytes "RATE_LIMIT".
Definition key_WINDOW_SIZE : list Z := bytes "WINDOW_SIZE".

Definition idle_world : world := World [] [] (λ n, 1000000 + Z.of_nat n) 0 0 0 ∅ None [].

Definition sample_line (s : string) : list Z := DQ :: SP :: bytes s ++ [LF].
Definition sample_cfg : list Z :=
  bytes "2SH3V3GDW7ZNMGYE" ++ [LF] ++ sample_line "RATE_LIMIT 3 30" ++ sample_line "TOTP_AUTH" ++
  bytes "12345678" ++ [LF] ++ sample_line "RATE_LIMIT 1 1".

Lemma key_ok_RATE_LIMIT : key_ok key_RATE_LIMIT.
Proof. split; [done|]. repeat constructor. Qed.

Lemma key_ok_WINDOW_SIZE : key_ok key_WINDOW_SIZE.
Proof. split; [done|]. repeat constructor. Qed.

Lemma sample_cfg_ok : cfg_ok sample_cfg.
Proof.
  exists (bytes "2SH3V3GDW7ZNMGYE" ++ [LF]).
  eexists. split; [vm_compute; reflexivity|].
  exists (bytes "2SH3V3GDW7ZNMGYE"), [LF]. repeat split; [..|done]; repeat constructor.
Qed.

Lemma set_cfg_value_lines_witness :
  set_cfg_value key_RATE_LIMIT (bytes "5 9") sample_cfg idle_world =
    (0, bytes "2SH3V3GDW7ZNMGYE" ++ [LF] ++ sample_line "RATE_LIMIT 5 9" ++
        sample_line "TOTP_AUTH" ++ bytes "12345678" ++ [LF], idle_world) ∧
  let '(rc, buf', w') := set_cfg_value key_WINDOW_SIZE (bytes "5") sample_cfg idle_world in
  (rc = -1 ∧ buf' = sample_cfg ∧ ∃ l, w_allocs idle_world = false :: l) ∨
  (rc = 0 ∧ w_log w' = w_log idle_world ∧ cfg_ok buf' ∧
   segs buf' = set_lines key_WINDOW_SIZE (new_line key_WINDOW_SIZE (bytes "5")) (segs sample_cfg)).
Proof.
  split; [reflexivity|].
  assert (val_ok (bytes "5")) as Hv by (split; [repeat constructor|done]).
  exact (set_cfg_value_lines key_WINDOW_SIZE (bytes "5") sample_cfg idle_world
    key_ok_WINDOW_SIZE Hv sample_cfg_ok).
Defined.

Lemma set_get_cfg_value_witness :
  cfg_lookup key_RATE_LIMIT (cfg_replace key_RATE_LIMIT (bytes "5 9") sample_cfg) = Some (bytes "5 9").
Proof.
  apply (set_get_cfg_value key_RATE_LIMIT (bytes "5 9") sample_cfg);
    [apply key_ok_RATE_LIMIT|split; [repeat constructor|done]|apply sample_cfg_ok].
Defined.

Lemma get_cfg_value_lines_witness :
  get_cfg_value key_RATE_LIMIT sample_cfg idle_world = (Value (bytes "3 30"), idle_world) ∧
  let '(r, w') := get_cfg_value key_RATE_LIMIT sample_cfg idle_world in
  quiet idle_world w' ∧
  match r with
  | NoValue => find_value key_RATE_LIMIT (segs sample_cfg) = None
  | Value v => find_value key_RATE_LIMIT (segs sample_cfg) = Some v
  | Oom => ∃ l, w_allocs idle_world = false :: l
  end.
Proof.
  split; [reflexivity|].
  exact (get_cfg_value_lines key_RATE_LIMIT sample_cfg idle_world key_ok_RATE_LIMIT).
Defined.

(** On a secret without a line end the option is glued to the secret. *)
Example unterminated_secret :
  cfg_replace key_WINDOW_SIZE (bytes "5") (bytes "SECRET") =
    bytes "SECRET" ++ sample_line "WINDOW_SIZE 5" ∧
  cfg_lookup key_WINDOW_SIZE (cfg_replace key_WINDOW_SIZE (bytes "5") (bytes "SECRET")) = None.
Proof. split; vm_compute; reflexivity. Qed.
