(* ===== verification/PamCodes.v ===== *)
(** * The checks of the PAM module (pam_google_authenticator.c)

    [rate_limit], [check_scratch_codes], [window_size],
    [invalidate_timebased_code], [check_time_skew], [check_timebased_code],
    [check_counterbased_code] and their helpers.  They take and return the
    buffer of the state file and the flag [updated]; [int] arithmetic that
    overflows wraps around.

    The code of a secret and a moving factor comes from the class [CodeGen];
    PamMain instantiates it with [compute_code] of Hmac. *)

From Stdlib Require Import Sorted.
From S2P Require Import Prelude CString PamWorld CfgFile.

(** ** The code *)

Class CodeGen := gen_code : list Z → Z → Z.

Inductive nullok_t := NULLERR | NULLOK | SECRETNOTFOUND.
Inductive pass_mode_t := PROMPT | TRY_FIRST_PASS | USE_FIRST_PASS.

Record Params := MkParams {
  secret_filename_spec : option (list Z);
  nullok : nullok_t;
  noskewadj : bool;
  echocode : Z;
  fixed_uid : bool;
  no_increment_hotp : bool;
  uid : Z;
  pass_mode : pass_mode_t;
  forward_pass : bool;
}.

(** [strstr(s, sub)] *)
Fixpoint contains (s sub : list Z) : bool :=
  starts_with s sub || match s with [] => false | _ :: s' => contains s' sub end.

Definition is_totp (buf : list Z) : bool := contains buf (DQ :: bytes " TOTP_AUTH").

(** [comparator] on two cells, and [qsort] with it (as an insertion sort; the
    comparator is an order when the cells are less than 2^31 apart). *)
Definition comparator (a b : Z) : Z := s32 (u32 (a - b)).

Fixpoint sort_insert (x : Z) (l : list Z) : list Z :=
  match l with
  | [] => [x]
  | y :: l' => if comparator x y <=? 0 then x :: l else y :: sort_insert x l'
  end.

Definition qsort (l : list Z) : list Z := foldr sort_insert [] l.

(** *** get_hotp_counter *)

Definition key_HOTP_COUNTER : list Z := bytes "HOTP_COUNTER".

Definition get_hotp_counter (buf : list Z) : M Z :=
  r ← get_cfg_value key_HOTP_COUNTER buf;
  match r with
  | Oom => mret (-1)
  | NoValue => mret 0
  | Value counter_str => mret (strtol counter_str).1.1
  end.

(** *** rate_limit *)

(** The loop over the time stamps. *)
Inductive stamps := StampsOk (l : list Z) | StampsBad | StampsOom.

Fixpoint read_stamps (fuel : nat) (endptr acc : list Z) : M stamps :=
  match fuel with
  | O => mret StampsBad
  | S fuel =>
    match endptr with
    | [] => mret (StampsOk acc)
    | c :: _ =>
      if in_set eol c then mret (StampsOk acc)
      else if negb (in_set blank c) then mret StampsBad
      else
        let '(v, e, errno) := strtoul endptr in
        if errno || ptr_eqb endptr e then mret StampsBad
        else
          ok ← alloc;
          if ok : bool then read_stamps fuel e (acc ++ [u32 (s32 v)]) else mret StampsOom
    end
  end.

(** [attempts], [interval] and the text after them. *)
Definition rate_numbers (value : list Z) : option (Z * Z * list Z) :=
  let '(v, endptr, errno) := strtoul value in
  let attempts := s32 v in
  if (attempts <? 1) || ptr_eqb value endptr || (100 <? attempts) || errno ||
     negb (match endptr with c :: _ => in_set blank c | [] => false end)
  then None
  else
    let '(v, endptr', errno) := strtoul endptr in
    let interval := s32 v in
    if (interval <? 1) || ptr_eqb endptr endptr' || (3600 <? interval) || errno then None
    else Some (attempts, interval, endptr').

(** The loop that finds [start] and [stop]; [i] counts the cells passed. *)
Fixpoint prune (l : list Z) (now lim i start stop : Z) : Z * Z :=
  match l with
  | [] => (start, stop)
  | t :: l =>
    if t <? lim then prune l now lim (i + 1) (i + 1) i
    else if now <? t then (start, stop)
    else prune l now lim (i + 1) start i
  end.

(** [sprintf(list, "%d %d", ...)] and the stamps after it. *)
Definition rate_text (attempts interval : Z) (l : list Z) : list Z :=
  show_d attempts ++ [SP] ++ show_d interval ++ (l ≫= λ t, SP :: show_u t).



Definition rate_limit (updated : bool) (buf : list Z) : M (Z * bool * list Z) :=
  r ← get_cfg_value key_RATE_LIMIT buf;
  match r with
  | NoValue => mret (0, updated, buf)
  | Oom => mret (-1, updated, buf)
  | Value value =>
    match rate_numbers value with
    | None => log_message LOG_ERR "Invalid RATE_LIMIT option";; mret (-1, updated, buf)
    | Some (attempts, interval, endptr) =>
      t ← get_time;
      let now := u32 t in
      ok ← alloc;
      if negb (ok : bool) then log_message LOG_ERR "Out of memory";; mret (-1, updated, buf)
      else
        r ← read_stamps (S (length endptr)) endptr [now];
        match r with
        | StampsBad =>
          log_message LOG_ERR "Invalid list of timestamps in RATE_LIMIT";; mret (-1, updated, buf)
        | StampsOom => log_message LOG_ERR "Out of memory";; mret (-1, updated, buf)
        | StampsOk timestamps =>
          let timestamps := qsort timestamps in
          let '(start, stop) := prune timestamps now (u32 (now - interval)) 0 0 (-1) in
          let exceeded := attempts <? stop - start + 1 in
          let start := if exceeded then stop - attempts + 1 else start in
          ok ← alloc;
          if negb (ok : bool) then log_message LOG_ERR "Out of memory";; mret (-1, updated, buf)
          else
            let kept := take (Z.to_nat (stop - start + 1)) (drop (Z.to_nat start) timestamps) in
            '(rc, buf) ← set_cfg_value key_RATE_LIMIT (rate_text attempts interval kept) buf;
            if rc <? 0 then mret (-1, updated, buf)
            else if exceeded then
              log_message LOG_ERR "Too many concurrent login attempts. Please try again.";;
              mret (-1, true, buf)
            else mret (0, true, buf)
        end
    end
  end.

(** *** check_scratch_codes *)

(** The loop, on the text already passed and the text from [ptr] on. *)
Fixpoint scratch_loop (fuel : nat) (passed ptr : list Z) (code : Z) : option (list Z) :=
  match fuel with
  | O => None
  | S fuel =>
    let n := strspn ptr eol in
    let passed := passed ++ take n ptr in
    let ptr := drop n ptr in
    if starts_with ptr [DQ] then
      let n := strcspn ptr [LF] in
      scratch_loop fuel (passed ++ take n ptr) (drop n ptr) code
    else
      let '(v, endptr, errno) := strtoul ptr in
      let scratchcode := s32 v in
      if errno || ptr_eqb ptr endptr || negb (at_end_or endptr eol) ||
         (scratchcode <? 10 * 1000 * 1000) || (100 * 1000 * 1000 <=? scratchcode)
      then None
      else if scratchcode =? code then
        Some (passed ++ drop (strspn endptr eol) endptr)
      else scratch_loop fuel (passed ++ take (length ptr - length endptr) ptr) endptr code
  end.

Definition check_scratch_codes (updated : bool) (buf : list Z) (code : Z) : Z * bool * list Z :=
  let n := strcspn buf [LF] in
  match scratch_loop (S (length buf)) (take n buf) (drop n buf) code with
  | Some buf => (0, true, buf)
  | None => (1, updated, buf)
  end.

(** *** window_size *)

Definition window_size (buf : list Z) : M Z :=
  r ← get_cfg_value key_WINDOW_SIZE buf;
  match r with
  | NoValue => mret 3
  | Oom => mret 0
  | Value value =>
    let '(v, endptr, errno) := strtoul value in
    let window := s32 v in
    if errno || ptr_eqb value [] || ptr_eqb value endptr ||
       negb (at_end_or endptr [SP; TAB; LF; CR]) || (window <? 1) || (100 <? window)
    then log_message LOG_ERR "Invalid WINDOW_SIZE option";; mret 0
    else mret window
  end.

(** *** invalidate_timebased_code *)

(** The loop over the blocked time stamps: the text kept so far and the text
    from [ptr] on. *)
Inductive blocked_list := Kept (l : list Z) | Reused | BadList.

Fixpoint blocked_loop (fuel : nat) (kept ptr : list Z) (tm window : Z) : blocked_list :=
  match fuel with
  | O => BadList
  | S fuel =>
    match ptr with
    | [] => Kept kept
    | _ =>
      let n := strspn ptr [SP; TAB; CR; LF] in
      let kept := kept ++ take n ptr in
      let ptr := drop n ptr in
      match ptr with
      | [] => Kept kept
      | _ =>
        let '(v, endptr, errno) := strtoul ptr in
        let blocked := s32 v in
        if errno || ptr_eqb ptr endptr || negb (at_end_or endptr [SP; TAB; CR; LF]) then BadList
        else if tm =? blocked then Reused
        else if (window <=? s32 (blocked - tm)) || (window <=? s32 (tm - blocked)) then
          blocked_loop fuel kept (drop (strspn endptr blank) endptr) tm window
        else
          blocked_loop fuel (kept ++ take (length ptr - length endptr) ptr) endptr tm window
      end
    end
  end.

Definition key_DISALLOW_REUSE : list Z := bytes "DISALLOW_REUSE".

Definition invalidate_timebased_code (tm : Z) (updated : bool) (buf : list Z)
    : M (Z * bool * list Z) :=
  r ← get_cfg_value key_DISALLOW_REUSE buf;
  match r with
  | NoValue => mret (0, updated, buf)
  | Oom => mret (-1, updated, buf)
  | Value disallow =>
    window ← window_size buf;
    if window =? 0 then mret (-1, updated, buf)
    else
      match blocked_loop (S (length disallow)) [] disallow tm window with
      | BadList => mret (-1, updated, buf)
      | Reused =>
        log_message LOG_ERR "Trying to reuse a previously used time-based code.";;
        mret (-1, updated, buf)
      | Kept disallow =>
        ok ← alloc;
        if negb (ok : bool) then
          log_message LOG_ERR "Failed to allocate memory when updating";; mret (-1, updated, buf)
        else
          let disallow := disallow ++ (if disallow is [] then [] else [SP]) ++ show_d tm in
          '(rc, buf) ← set_cfg_value key_DISALLOW_REUSE disallow buf;
          if rc <? 0 then mret (-1, updated, buf) else mret (0, true, buf)
      end
  end.

(** *** check_time_skew *)

(** [tms] and [skews] as one list of at most three pairs. *)
Definition push_entry (e : Z * Z) (l : list (Z * Z)) : list (Z * Z) :=
  if (length l =? 3)%nat then drop 1 l ++ [e] else l ++ [e].

(** The loop that reads them. *)
Fixpoint read_entries (fuel : nat) (ptr : list Z) (l : list (Z * Z)) : list (Z * Z) :=
  match fuel with
  | O => l
  | S fuel =>
    if at_end_or ptr eol then l
    else
      let '(v, endptr, errno) := strtoul ptr in
      let i := u32 (s32 v) in
      match endptr with
      | [] => l
      | c :: after =>
        if errno || ptr_eqb ptr endptr || negb ((c =? chr "+") || (c =? chr "-")) then l
        else
          let '(v, endptr', errno) := strtoul after in
          let j := s32 v in
          if errno || ptr_eqb endptr endptr' || negb (at_end_or endptr' [SP; TAB; CR; LF]) then l
          else
            let j := if c =? chr "-" then s32 (- j) else j in
            read_entries fuel endptr' (push_entry (i, j) l)
      end
    end.

(** The loop over the second and third entry; [None] is [goto keep_trying]. *)
Fixpoint skew_sequence (l : list (Z * Z)) (last_tm last_skew avg_skew skew : Z) : option Z :=
  match l with
  | [] => Some avg_skew
  | (t, s) :: l =>
    if (t <=? last_tm) || (u32 (last_tm + 2) <? t) ||
       (s32 (last_skew - skew) <? -1) || (1 <? s32 (last_skew - skew))
    then None
    else skew_sequence l t s (s32 (avg_skew + s)) skew
  end.

(** The average skew of three entries in quick succession. *)
Definition skew_found (l : list (Z * Z)) (skew : Z) : option Z :=
  match l with
  | [(t0, s0); e1; e2] =>
    avg ← skew_sequence [e1; e2] t0 s0 s0 skew; Some (Z.quot avg 3)
  | _ => None
  end.

(** The text of the entries: [sprintf(..., " %d%+d" + !*reset, ...)]. *)
Definition entry_text (e : Z * Z) : list Z := show_d (s32 e.1) ++ show_plus_d e.2.

Fixpoint entries_text (l : list (Z * Z)) : list Z :=
  match l with
  | [] => []
  | [e] => entry_text e
  | e :: l => entry_text e ++ [SP] ++ entries_text l
  end.

Definition key_RESETTING_TIME_SKEW : list Z := bytes "RESETTING_TIME_SKEW".
Definition key_TIME_SKEW : list Z := bytes "TIME_SKEW".

(** The entries of the RESETTING_TIME_SKEW line. *)
Definition old_entries (r : cfg_value) : list (Z * Z) :=
  match r with Value v => read_entries (S (length v)) v [] | _ => [] end.

(** The same code as the last time. *)
Definition same_code (entries : list (Z * Z)) (skew tm : Z) : bool :=
  match last entries with Some (t, s) => u32 (tm + skew) =? u32 (t + s) | None => false end.

(** The part after the new entry is in: the average, and the two options. *)
Definition record_skew (updated : bool) (buf : list Z) (entries : list (Z * Z)) (skew : Z)
    : M (Z * bool * list Z) :=
  let found := skew_found entries skew in
  '(rc, buf) ← match found with
               | Some avg => set_cfg_value key_TIME_SKEW (show_d avg) buf
               | None => mret (0, buf)
               end;
  if rc <? 0 then mret (-1, updated, buf)
  else
    let reset := match found with Some _ => [] | None => entries_text entries end in
    '(rc, buf) ← set_cfg_value key_RESETTING_TIME_SKEW reset buf;
    if rc <? 0 then mret (-1, updated, buf)
    else mret (match found with Some _ => 0 | None => -1 end, true, buf).

Definition check_time_skew (updated : bool) (buf : list Z) (skew tm : Z) : M (Z * bool * list Z) :=
  r ← get_cfg_value key_RESETTING_TIME_SKEW buf;
  match r with
  | Oom => mret (-1, updated, buf)
  | _ =>
    if same_code (old_entries r) skew tm then mret (-1, updated, buf)
    else record_skew updated buf (push_entry (u32 tm, skew) (old_entries r)) skew
  end.

(** *** check_timebased_code and check_counterbased_code *)

Section Codes.
Context `{CodeGen}.

(** The first of the offsets [lo, lo + 1, ...] whose code matches; [at_] is the
    moving factor of an offset. *)
Fixpoint find_code (n : nat) (lo : Z) (secret : list Z) (at_ : Z → Z) (code : Z) : option Z :=
  match n with
  | O => None
  | S n =>
    if gen_code secret (at_ lo) =? code then Some lo
    else find_code n (lo + 1) secret at_ code
  end.

(** The loop over a day: [for (int i = 0; i < 25*60; ++i)]; [skew] is 1000000
    while nothing was found. *)
Fixpoint scan_skew (n : nat) (i skew : Z) (secret : list Z) (tm code : Z) : Z :=
  match n with
  | O => skew
  | S n =>
    let skew := if (gen_code secret (s32 (tm - i)) =? code) && (skew =? 1000000) then - i else skew in
    let skew := if (gen_code secret (s32 (tm + i)) =? code) && (skew =? 1000000) then i else skew in
    scan_skew n (i + 1) skew secret tm code
  end.

(** The two searches, once the time step and the stored skew are known. *)
Definition try_codes (updated : bool) (buf secret : list Z) (code : Z) (params : Params) (tm skew : Z)
    : M (Z * bool * list Z) :=
  window ← window_size buf;
  if window =? 0 then mret (-1, updated, buf)
  else
    let lo := - ((window - 1) / 2) in
    match find_code (Z.to_nat (window / 2 - lo + 1)) lo secret (λ i, s32 (tm + skew + i)) code with
    | Some i => invalidate_timebased_code (s32 (tm + skew + i)) updated buf
    | None =>
      if noskewadj params then mret (1, updated, buf)
      else
        let skew := scan_skew (25 * 60) 0 1000000 secret tm code in
        if negb (skew =? 1000000) then check_time_skew updated buf skew tm
        else mret (1, updated, buf)
    end.

Definition check_timebased_code (updated : bool) (buf secret : list Z) (code : Z) (params : Params)
    : M (Z * bool * list Z) :=
  if negb (is_totp buf) then mret (1, updated, buf)
  else if (code <? 0) || (1000000 <=? code) then mret (1, updated, buf)
  else
    tm ← get_timestamp;
    r ← get_cfg_value key_TIME_SKEW buf;
    match r with
    | Oom => mret (-1, updated, buf)
    | NoValue => try_codes updated buf secret code params tm 0
    | Value skew_str => try_codes updated buf secret code params tm (s32 (strtol skew_str).1.1)
    end.

(** The status, [updated], the buffer and [must_advance_counter]. *)
Definition check_counterbased_code (updated : bool) (buf secret : list Z) (code hotp_counter : Z)
    (must_advance : bool) : M (Z * bool * list Z * bool) :=
  if hotp_counter <? 1 then mret (1, updated, buf, must_advance)
  else if (code <? 0) || (1000000 <=? code) then mret (1, updated, buf, must_advance)
  else
    window ← window_size buf;
    if window =? 0 then mret (-1, updated, buf, must_advance)
    else
      match find_code (Z.to_nat window) 0 secret (λ i, hotp_counter + i) code with
      | Some i =>
        '(rc, buf) ← set_cfg_value key_HOTP_COUNTER (show_d (s64 (hotp_counter + i + 1))) buf;
        if rc <? 0 then mret (-1, updated, buf, must_advance)
        else mret (0, true, buf, false)
      | None => mret (1, updated, buf, true)
      end.
End Codes.

(** ** Frame *)

Create HintDb quiet.
#[export] Hint Resolve alloc_quiet log_quiet time_quiet : quiet.

(** Walks through a monadic body; every leaf is a quiet call. *)
Ltac quiet_step :=
  match goal with
  | |- quiet ?w ?w => reflexivity
  | |- quiet ?w (mret _ ?w).2 => reflexivity
  | |- quiet _ ((_ ≫= _) _).2 => apply bind_quiet; [|intros ? ?]
  | |- quiet _ ((match ?x with _ => _ end) _).2 => destruct x
  | |- quiet _ ((let '(_, _) := ?x in _) _).2 => destruct x
  | |- _ => solve [eauto with quiet]
  end.
Ltac quiet := repeat (cbn zeta; quiet_step).

Lemma get_cfg_value_quiet (key buf : list Z) (w : world) : quiet w (get_cfg_value key buf w).2.
Proof. unfold get_cfg_value. quiet. Qed.

Lemma set_cfg_value_quiet (key val buf : list Z) (w : world) : quiet w (set_cfg_value key val buf w).2.
Proof. unfold set_cfg_value. quiet. Qed.
#[export] Hint Resolve get_cfg_value_quiet set_cfg_value_quiet : quiet.

Lemma get_hotp_counter_quiet (buf : list Z) (w : world) : quiet w (get_hotp_counter buf w).2.
Proof. unfold get_hotp_counter. quiet. Qed.

Lemma read_stamps_quiet (fuel : nat) : ∀ endptr acc w, quiet w (read_stamps fuel endptr acc w).2.
Proof. induction fuel as [|fuel IH]; intros endptr acc w; cbn [read_stamps]; quiet. Qed.
#[export] Hint Resolve get_hotp_counter_quiet read_stamps_quiet : quiet.

Lemma rate_limit_quiet (updated : bool) (buf : list Z) (w : world) :
  quiet w (rate_limit updated buf w).2.
Proof. unfold rate_limit. quiet. Qed.

Lemma window_size_quiet (buf : list Z) (w : world) : quiet w (window_size buf w).2.
Proof. unfold window_size. quiet. Qed.
#[export] Hint Resolve rate_limit_quiet window_size_quiet : quiet.

Lemma invalidate_quiet (tm : Z) (updated : bool) (buf : list Z) (w : world) :
  quiet w (invalidate_timebased_code tm updated buf w).2.
Proof. unfold invalidate_timebased_code. quiet. Qed.

Lemma check_time_skew_quiet (updated : bool) (buf : list Z) (skew tm : Z) (w : world) :
  quiet w (check_time_skew updated buf skew tm w).2.
Proof. unfold check_time_skew, record_skew. quiet. Qed.

Lemma get_timestamp_quiet (w : world) : quiet w (get_timestamp w).2.
Proof. done. Qed.
#[export] Hint Resolve invalidate_quiet check_time_skew_quiet get_timestamp_quiet : quiet.

Lemma check_timebased_quiet `{CodeGen} (updated : bool) (buf secret : list Z) (code : Z)
    (params : Params) (w : world) :
  quiet w (check_timebased_code updated buf secret code params w).2.
Proof. unfold check_timebased_code, try_codes. quiet. Qed.

Lemma check_counterbased_quiet `{CodeGen} (updated : bool) (buf secret : list Z)
    (code hotp_counter : Z) (must : bool) (w : world) :
  quiet w (check_counterbased_code updated buf secret code hotp_counter must w).2.
Proof. unfold check_counterbased_code. quiet. Qed.
#[export] Hint Resolve check_timebased_quiet check_counterbased_quiet : quiet.

(** ** Results of the calls *)

Lemma get_cfg_run (key buf : list Z) (w w' : world) (r : cfg_value) :
  get_cfg_value key buf w = (r, w') →
  (r = Oom ∨ ∃ k, (k ≤ 1)%nat ∧ w' = spent k w) ∧
  match r with
  | NoValue => cfg_lookup key buf = None
  | Value v => cfg_lookup key buf = Some v
  | Oom => failed 1 w
  end.
Proof.
  unfold get_cfg_value. destruct (cfg_lookup key buf) as [v|].
  - rewrite M_bind_unfold. destruct (alloc_spent w) as [Ew Ef]. destruct (alloc w) as [[|] w1];
      cbn [fst snd] in *; intros [= <- <-]; (split; [|auto]); [|by left].
    right. by exists 1%nat.
  - intros [= <- <-]. split; [|done]. right. exists 0%nat. rewrite spent_0. auto.
Qed.

Lemma get_cfg_inv (key buf : list Z) (w w' : world) (r : cfg_value) :
  get_cfg_value key buf w = (r, w') →
  match r with
  | NoValue => cfg_lookup key buf = None
  | Value v => cfg_lookup key buf = Some v
  | Oom => failed 1 w
  end.
Proof. apply get_cfg_run. Qed.

Lemma set_cfg_run (key val buf buf' : list Z) (w w' : world) (rc : Z) :
  set_cfg_value key val buf w = (rc, buf', w') →
  (rc = -1 ∧ buf' = buf ∧ failed 1 w) ∨
  (rc = 0 ∧ buf' = cfg_replace key val buf ∧ ∃ k, (k ≤ 1)%nat ∧ w' = spent k w).
Proof.
  unfold set_cfg_value. destruct (cfg_place key buf) as [start stop].
  destruct (_ <=? _)%nat.
  { intros [= <- <- <-]. right. split; [done|]. split; [done|]. exists 0%nat. rewrite spent_0. auto. }
  rewrite M_bind_unfold. destruct (alloc_spent w) as [Ew Ef].
  destruct (alloc w) as [[|] w1]; cbn [fst snd] in *; intros [= <- <- <-]; [right|left; auto].
  split; [done|]. split; [done|]. by exists 1%nat.
Qed.

Lemma set_cfg_inv (key val buf buf' : list Z) (w w' : world) (rc : Z) :
  set_cfg_value key val buf w = (rc, buf', w') →
  (rc = -1 ∧ buf' = buf ∧ failed 1 w) ∨ (rc = 0 ∧ buf' = cfg_replace key val buf).
Proof. intros H. apply set_cfg_run in H as [?|(? & ? & _)]; auto. Qed.

(** Takes the next call of a monadic equation apart. *)
Ltac step H :=
  match type of H with
  | ((?m ≫= ?f) ?w) = _ =>
    let E := fresh "E" in
    rewrite M_bind_unfold in H;
    destruct (m w) as [? ?] eqn:E; cbn [fst snd] in H
  end.

(** The window the WINDOW_SIZE option asks for: 3 without the option, and else
    a number from 1 to 100 with nothing but white space after it. *)
Definition window_is (buf : list Z) (n : Z) : Prop :=
  match cfg_lookup key_WINDOW_SIZE buf with
  | None => n = 3
  | Some v => ∃ x rest, strtoul v = (x, rest, false) ∧ v ≠ [] ∧ length rest ≠ length v ∧
      at_end_or rest [SP; TAB; LF; CR] = true ∧ n = s32 x ∧ 1 ≤ n ≤ 100
  end.

Lemma window_is_range (buf : list Z) (n : Z) : window_is buf n → 1 ≤ n ≤ 100.
Proof. unfold window_is. destruct (cfg_lookup _ _); [|lia]. naive_solver. Qed.

Lemma window_size_run (buf : list Z) (w w' : world) (n : Z) :
  window_size buf w = (n, w') →
  (n = 0 ∧ ((∀ m, ¬ window_is buf m) ∨ failed 1 w)) ∨
  (window_is buf n ∧ ∃ k, (k ≤ 1)%nat ∧ w' = spent k w).
Proof.
  unfold window_size, window_is. intros H. step H. apply get_cfg_run in E as [Hk E].
  destruct c as [| |v].
  - injection H as <- <-. right. rewrite E. destruct Hk; done.
  - injection H as <- <-. left. auto.
  - destruct Hk as [|Hk]; [done|]. rewrite E. destruct (strtoul v) as [[x e] errno] eqn:Ev. case_match eqn:Ec.
    + step H. injection H as <- <-. left. split; [done|]. left.
      intros m (x' & e' & [= <- <- ->] & Hv & He & Hend & -> & Hr). unfold ptr_eqb in Ec.
      rewrite Hend, (proj2 (Z.ltb_ge _ _)), (proj2 (Z.ltb_ge _ _)) in Ec by lia.
      destruct v; [done|]. rewrite (proj2 (Nat.eqb_neq (length (_ :: _)) (length e))) in Ec by auto.
      discriminate Ec.
    + injection H as <- <-. right. split; [|done]. unfold ptr_eqb in Ec. rewrite !orb_false_iff in Ec.
      destruct Ec as [[[[[-> Hv] He] Hend] H1] H2]. exists x, e. split; [done|].
      split; [by destruct v|]. split; [by apply Nat.eqb_neq; rewrite Nat.eqb_sym|].
      apply negb_false_iff in Hend. split; [done|]. split; [done|lia].
Qed.

(** Numbers are values of options. *)
Lemma digit_plain (x : Z) : x = chr "-" ∨ isdigit x = true → is_eol x = false ∧ in_set blank x = false.
Proof.
  unfold is_eol, in_set, eol, blank, isdigit. cbn [existsb]. chr_simpl. lia.
Qed.

Lemma show_d_val_ok (n : Z) : val_ok (show_d n).
Proof.
  destruct (show_d_chars n) as [Hch Hne]. split.
  - eapply Forall_impl; [exact Hch|]. intros x Hx. by apply digit_plain.
  - destruct (show_d n) as [|x s]; [done|]. apply Forall_cons in Hch as [Hx _]. by apply digit_plain.
Qed.

Lemma key_ok_HOTP_COUNTER : key_ok key_HOTP_COUNTER.
Proof. split; [done|repeat constructor]. Qed.

(** A stored counter is read back. *)
Lemma hotp_counter_set (n : Z) (buf : list Z) (w : world) :
  cfg_ok buf → - 2 ^ 63 ≤ n < 2 ^ 63 → w_allocs w = [] →
  (get_hotp_counter (cfg_replace key_HOTP_COUNTER (show_d n) buf) w).1 = n.
Proof.
  intros Hc Hn Hw. unfold get_hotp_counter. rewrite M_bind_unfold. unfold get_cfg_value.
  rewrite (proj1 (lookup_replace _ _ _ key_ok_HOTP_COUNTER (show_d_val_ok n) Hc)).
  rewrite M_bind_unfold. unfold alloc. rewrite Hw. cbn [fst snd mret M_ret].
  rewrite <-(app_nil_r (show_d n)), strtol_show_d by (done || lia). done.
Qed.

(** ** The offsets that match *)

Section CodesLemmas.
Context `{CodeGen}.

Lemma find_code_some (secret : list Z) (at_ : Z → Z) (code : Z) (n : nat) : ∀ lo i,
  find_code n lo secret at_ code = Some i →
  lo ≤ i < lo + Z.of_nat n ∧ gen_code secret (at_ i) = code ∧
  ∀ j, lo ≤ j < i → gen_code secret (at_ j) ≠ code.
Proof.
  induction n as [|n IH]; intros lo i; [done|]. cbn [find_code].
  destruct (Z.eqb_spec (gen_code secret (at_ lo)) code) as [E|E].
  - intros [= <-]. split; [lia|]. split; [done|]. lia.
  - intros (Hi & Hc & Hm)%IH. split; [lia|]. split; [done|]. intros j Hj.
    destruct (decide (j = lo)) as [->|]; [done|]. apply Hm. lia.
Qed.

Lemma find_code_none (secret : list Z) (at_ : Z → Z) (code : Z) (n : nat) : ∀ lo,
  find_code n lo secret at_ code = None →
  ∀ j, lo ≤ j < lo + Z.of_nat n → gen_code secret (at_ j) ≠ code.
Proof.
  induction n as [|n IH]; intros lo Hf j Hj; [lia|]. cbn [find_code] in Hf.
  destruct (Z.eqb_spec (gen_code secret (at_ lo)) code) as [E|E]; [done|].
  destruct (decide (j = lo)) as [->|]; [done|]. apply (IH (lo + 1)); [done|lia].
Qed.

Lemma scan_skew_keep (secret : list Z) (tm code : Z) (n : nat) : ∀ i skew,
  skew ≠ 1000000 → scan_skew n i skew secret tm code = skew.
Proof.
  induction n as [|n IH]; intros i skew Hs; [done|]. cbn [scan_skew].
  rewrite !(proj2 (Z.eqb_neq _ _) Hs), !andb_false_r, !(proj2 (Z.eqb_neq _ _) Hs), !andb_false_r.
  by apply IH.
Qed.

(** The search of a day finds a matching offset with the least absolute value,
    the negative one of two. *)
Definition nearest (secret : list Z) (tm code lo d : Z) : Prop :=
  gen_code secret (s32 (tm + d)) = code ∧
  (∀ d', lo ≤ Z.abs d' < Z.abs d → gen_code secret (s32 (tm + d')) ≠ code) ∧
  (0 < d → gen_code secret (s32 (tm - d)) ≠ code).

Lemma scan_skew_spec (secret : list Z) (tm code : Z) (n : nat) : ∀ i,
  0 ≤ i → i + Z.of_nat n < 1000000 →
  let d := scan_skew n i 1000000 secret tm code in
  (d = 1000000 ∧ ∀ d', i ≤ Z.abs d' < i + Z.of_nat n → gen_code secret (s32 (tm + d')) ≠ code) ∨
  (i ≤ Z.abs d < i + Z.of_nat n ∧ nearest secret tm code i d).
Proof.
  unfold nearest. induction n as [|n IH]; intros i Hi Hn; cbn zeta;
    [left; split; [done|intros; lia]|].
  cbn [scan_skew]. change (1000000 =? 1000000) with true.
  destruct (Z.eqb_spec (gen_code secret (s32 (tm - i))) code) as [E1|E1]; cbn [andb].
  - rewrite (proj2 (Z.eqb_neq (- i) 1000000)), andb_false_r by lia.
    rewrite scan_skew_keep by lia. right. rewrite Z.add_opp_r. split; [lia|]. split; [done|]. split; intros; lia.
  - change (1000000 =? 1000000) with true.
    destruct (Z.eqb_spec (gen_code secret (s32 (tm + i))) code) as [E2|E2]; cbn [andb].
    + rewrite scan_skew_keep by lia. right. split; [lia|]. split; [done|]. split; [intros; lia|done].
    + assert (∀ d', Z.abs d' = i → gen_code secret (s32 (tm + d')) ≠ code) as Hno.
      { intros d' Hd. destruct (decide (d' = i)) as [->|]; [done|].
        assert (d' = - i) as -> by lia. by rewrite Z.add_opp_r. }
      destruct (IH (i + 1)) as [[H1 H2]|(H1 & H2 & H3 & H4)]; [lia|lia|left|right].
      * split; [done|]. intros d' Hd. destruct (decide (Z.abs d' = i)); [by apply Hno|apply H2; lia].
      * split; [lia|]. split; [done|]. split; [|done]. intros d' Hd.
        destruct (decide (Z.abs d' = i)); [by apply Hno|apply H3; lia].
Qed.

(** ** Properties of the checks *)

(** C10: [check_counterbased_code] accepts exactly the codes of the next
    counters, as many as the WINDOW_SIZE option says, and stores the counter
    after the first one that matched, so that the codes up to it are never
    accepted again.  It leaves the buffer alone otherwise: with status 1 and the
    request to advance the counter when a code in range matched no counter of
    the window, with status 1 and without that request when there is no positive
    counter or the code is out of range, and with -1 and without the request
    only when the option is bad or an allocation failed. *)
Theorem counterbased_correct (updated : bool) (buf secret : list Z) (code c : Z) (must : bool)
    (w w' : world) (rc : Z) (updated' : bool) (buf' : list Z) (must' : bool) :
  cfg_ok buf → c < 2 ^ 62 →
  check_counterbased_code updated buf secret code c must w = ((rc, updated', buf', must'), w') →
  let proper := 1 ≤ c ∧ 0 ≤ code < 1000000 in
  (rc = 0 ∧ updated' = true ∧ must' = false ∧ proper ∧ cfg_ok buf' ∧ ∃ i window,
     window_is buf window ∧ 0 ≤ i < window ∧ gen_code secret (c + i) = code ∧
     (∀ j, 0 ≤ j < i → gen_code secret (c + j) ≠ code) ∧
     buf' = cfg_replace key_HOTP_COUNTER (show_d (c + i + 1)) buf ∧
     (∀ w, w_allocs w = [] → (get_hotp_counter buf' w).1 = c + i + 1)) ∨
  (buf' = buf ∧ updated' = updated ∧
    ((rc = 1 ∧ must' = true ∧ proper ∧ ∃ window, window_is buf window ∧
        ∀ i, 0 ≤ i < window → gen_code secret (c + i) ≠ code) ∨
     (rc = 1 ∧ must' = must ∧ ¬ proper) ∨
     (rc = -1 ∧ must' = must ∧ proper ∧ ((∀ n, ¬ window_is buf n) ∨ failed 2 w)))).
Proof.
  intros Hc Hr H0 proper. unfold check_counterbased_code in H0.
  destruct (Z.ltb_spec c 1) as [Hc1|Hc1].
  { injection H0 as <- <- <- <- _. right. split; [done|]. split; [done|]. right; left.
    split; [done|]. split; [done|]. unfold proper. lia. }
  destruct ((code <? 0) || (1000000 <=? code)) eqn:Ecode.
  { injection H0 as <- <- <- <- _. right. split; [done|]. split; [done|]. right; left.
    split; [done|]. split; [done|]. unfold proper. lia. }
  assert proper as Hp by (unfold proper; lia).
  step H0. apply window_size_run in E as [(-> & Hbad)|(Hwin & k & Hk & ->)].
  { injection H0 as <- <- <- <- _. right. split; [done|]. split; [done|]. right; right.
    split; [done|]. split; [done|]. split; [done|].
    destruct Hbad as [?|Hf]; [by left|right]. apply (failed_le 1); [lia|done]. }
  pose proof (window_is_range _ _ Hwin) as Hz. rewrite (proj2 (Z.eqb_neq z 0)) in H0 by lia.
  destruct (find_code _ _ _ _ _) as [i|] eqn:Ef.
  - apply find_code_some in Ef as (Hi & Hg & Hmin). step H0. destruct p as [rc1 b1].
    apply set_cfg_inv in E as [(-> & -> & Hf)|(-> & ->)].
    + injection H0 as <- <- <- <- _. right. split; [done|]. split; [done|]. right; right.
      split; [done|]. split; [done|]. split; [done|]. right.
      apply failed_spent in Hf. revert Hf. apply failed_le. lia.
    + injection H0 as <- <- <- <- _. left.
      unfold s64. rewrite swrap_small by lia.
      pose proof key_ok_HOTP_COUNTER as Hkey.
      pose proof (show_d_val_ok (c + i + 1)) as Hv.
      destruct (set_lines_wf _ _ _ Hkey Hv Hc) as [_ Hok].
      split; [done|]. split; [done|]. split; [done|]. split; [done|]. split; [done|].
      exists i, z. split; [done|]. split; [lia|]. split; [done|]. split; [done|]. split; [done|].
      intros wx Hwx. by apply hotp_counter_set; [|lia|].
  - injection H0 as <- <- <- <- _. right. split; [done|]. split; [done|]. left.
    split; [done|]. split; [done|]. split; [done|]. exists z. split; [done|].
    intros i Hi. apply (find_code_none _ _ _ _ _ Ef). lia.
Qed.
End CodesLemmas.

(** *** Time skew *)

Lemma key_ok_TIME_SKEW : key_ok key_TIME_SKEW.
Proof. split; [done|repeat constructor]. Qed.
Lemma key_ok_RESETTING : key_ok key_RESETTING_TIME_SKEW.
Proof. split; [done|repeat constructor]. Qed.
Lemma key_ok_DISALLOW_REUSE : key_ok key_DISALLOW_REUSE.
Proof. split; [done|repeat constructor]. Qed.

(** Without failing allocations the calls succeed and stay without failures. *)
Lemma set_cfg_ok (key val buf : list Z) (w : world) : w_allocs w = [] →
  set_cfg_value key val buf w = ((0, cfg_replace key val buf), w).
Proof.
  intros Hw. unfold set_cfg_value. destruct (cfg_place key buf).
  destruct (_ <=? _)%nat; [done|]. rewrite M_bind_unfold. unfold alloc. by rewrite Hw.
Qed.

Lemma get_cfg_ok (key buf : list Z) (w : world) : w_allocs w = [] →
  get_cfg_value key buf w = (match cfg_lookup key buf with Some v => Value v | None => NoValue end, w).
Proof.
  intros Hw. unfold get_cfg_value. destruct (cfg_lookup key buf); [|done].
  rewrite M_bind_unfold. unfold alloc. by rewrite Hw.
Qed.

Lemma val_ok_app (a b : list Z) : a ≠ [] → val_ok a → Forall (λ c, is_eol c = false) b → val_ok (a ++ b).
Proof. intros Hne [Ha1 Ha2] Hb. split; [by apply Forall_app|]. by destruct a. Qed.

Lemma show_plus_d_plain (n : Z) : Forall (λ c, is_eol c = false) (show_plus_d n).
Proof.
  unfold show_plus_d. destruct (Z.ltb_spec n 0) as [|Hge]; [apply show_d_val_ok|]. constructor; [done|].
  pose proof (show_d_val_ok n) as [H _]. unfold show_d in H. by rewrite (proj2 (Z.ltb_ge _ _) Hge) in H.
Qed.

Lemma entry_text_ok (e : Z * Z) (t : list Z) : Forall (λ c, is_eol c = false) t → val_ok (entry_text e ++ t).
Proof.
  intros Ht. unfold entry_text. rewrite <-app_assoc. apply val_ok_app.
  - apply show_d_chars.
  - apply show_d_val_ok.
  - apply Forall_app. split; [apply show_plus_d_plain|done].
Qed.

Lemma entries_text_val_ok (l : list (Z * Z)) : val_ok (entries_text l).
Proof.
  induction l as [|e [|e' l] IH]; [done|cbn [entries_text]; rewrite <-(app_nil_r (entry_text e)); by apply entry_text_ok|].
  change (entries_text (e :: e' :: l)) with (entry_text e ++ SP :: entries_text (e' :: l)).
  apply entry_text_ok. constructor; [done|apply IH].
Qed.

(** Numbers are read back. *)
Lemma s32_u64 (n : Z) : - 2 ^ 31 ≤ n < 2 ^ 31 → s32 (u64 n) = n.
Proof.
  intros Hn. unfold s32, u64. transitivity (swrap 32 n); [|apply swrap_small; lia].
  unfold swrap, wrap. change (2 ^ 64) with 18446744073709551616. change (2 ^ 32) with 4294967296.
  change (2 ^ (32 - 1)) with 2147483648. Z.to_euclidean_division_equations; lia.
Qed.

Lemma skip_space_show (n : Z) (t : list Z) : skip_space (show_d n ++ t) = show_d n ++ t.
Proof.
  destruct (show_d_chars n) as [Hd Hne]. destruct (show_d n) as [|c s]; [done|].
  apply Forall_cons in Hd as [Hc _]. cbn [app skip_space].
  replace (isspace c) with false; [done|]. symmetry. destruct Hc as [->|Hc]; [done|]. by apply isdigit_not.
Qed.

Lemma strtoul_number (ws : list Z) (n : Z) (t : list Z) :
  Forall (λ c, isspace c = true) ws → - 2 ^ 31 ≤ n < 2 ^ 31 → number_ends t →
  strtoul (ws ++ show_d n ++ t) = (u64 n, t, false).
Proof.
  intros Hws Hn Ht. rewrite <-(strtoul_show_d n t) by (lia || done). unfold strtoul.
  assert (scan_number (ws ++ show_d n ++ t) = scan_number (show_d n ++ t)) as E.
  { assert (skip_space (ws ++ show_d n ++ t) = skip_space (show_d n ++ t)) as E; [|unfold scan_number; by rewrite E].
    induction Hws as [|c ws Hc _ IH]; [done|]. cbn [app skip_space]. by rewrite Hc. }
  rewrite E, scan_show_d by done. done.
Qed.

Lemma show_u_d (n : Z) : 0 ≤ n → show_u n = show_d n.
Proof. intros Hn. unfold show_d. by rewrite (proj2 (Z.ltb_ge _ _)). Qed.

(** Three entries in a row: increasing time stamps at most two windows apart,
    the skews of the first two within one of [skew]. *)
Definition in_a_row (l : list (Z * Z)) (skew : Z) (t0 s0 t1 s1 t2 s2 : Z) : Prop :=
  l = [(t0, s0); (t1, s1); (t2, s2)] ∧
  t0 < t1 ≤ u32 (t0 + 2) ∧ t1 < t2 ≤ u32 (t1 + 2) ∧
  -1 ≤ s32 (s0 - skew) ≤ 1 ∧ -1 ≤ s32 (s1 - skew) ≤ 1.

Lemma skew_found_spec (l : list (Z * Z)) (skew : Z) :
  match skew_found l skew with
  | Some avg => ∃ t0 s0 t1 s1 t2 s2, in_a_row l skew t0 s0 t1 s1 t2 s2 ∧
      avg = Z.quot (s32 (s32 (s0 + s1) + s2)) 3
  | None => ∀ t0 s0 t1 s1 t2 s2, ¬ in_a_row l skew t0 s0 t1 s1 t2 s2
  end.
Proof.
  unfold in_a_row.
  destruct l as [|[t0 s0] [|[t1 s1] [|[t2 s2] [|? l]]]]; cbn [skew_found]; try (intros; by intros [? _]).
  cbn [skew_sequence].
  destruct ((t1 <=? t0) || (u32 (t0 + 2) <? t1) || (s32 (s0 - skew) <? -1) ||
    (1 <? s32 (s0 - skew))) eqn:E1.
  { cbn [mbind option_bind]. intros a b c d e f ([= <- <- <- <- <- <-] & ?). lia. }
  destruct ((t2 <=? t1) || (u32 (t1 + 2) <? t2) || (s32 (s1 - skew) <? -1) ||
    (1 <? s32 (s1 - skew))) eqn:E2; cbn [mbind option_bind].
  { intros a b c d e f ([= <- <- <- <- <- <-] & ?). lia. }
  rewrite !orb_false_iff in E1, E2. exists t0, s0, t1, s1, t2, s2. split; [|done].
  split; [done|]. split_and!; lia.
Qed.

(** The entries the module writes: an [unsigned] time stamp and an [int] skew. *)
Definition entry_ok (e : Z * Z) : Prop := 0 ≤ e.1 < 2 ^ 32 ∧ - 2 ^ 31 < e.2 < 2 ^ 31.

Lemma show_plus_d_read (j : Z) (t : list Z) : - 2 ^ 31 < j < 2 ^ 31 → number_ends t →
  ∃ c ds, show_plus_d j = c :: ds ∧ (c =? chr "+") || (c =? chr "-") = true ∧ isdigit c = false ∧
    strtoul (ds ++ t) = (u64 (Z.abs j), t, false) ∧
    (if c =? chr "-" then s32 (- s32 (u64 (Z.abs j))) else s32 (u64 (Z.abs j))) = j.
Proof.
  intros Hj Ht.
  assert (strtoul (show_u (Z.abs j) ++ t) = (u64 (Z.abs j), t, false)) as Hn.
  { rewrite show_u_d by lia. apply strtoul_show_d; [lia|done]. }
  rewrite s32_u64 by lia. unfold show_plus_d, show_d. destruct (Z.ltb_spec j 0).
  - exists (chr "-"), (show_u (- j)). rewrite Z.abs_neq in * by lia. split; [done|]. split; [done|].
    split; [done|]. split; [done|]. change (chr "-" =? chr "-") with true. cbv iota.
    rewrite Z.opp_involutive. apply swrap_small; lia.
  - exists (chr "+"), (show_u j). rewrite Z.abs_eq in * by lia. done.
Qed.

Lemma u32_s32 (t : Z) : 0 ≤ t < 2 ^ 32 → u32 (s32 t) = t.
Proof.
  intros Ht. transitivity (wrap 32 t); [|apply wrap_small; lia]. unfold u32, s32, swrap, wrap.
  change (2 ^ 32) with 4294967296. change (2 ^ (32 - 1)) with 2147483648.
  Z.to_euclidean_division_equations; lia.
Qed.

(** One entry is read back. *)
Lemma read_entry (ws : list Z) (e : Z * Z) (t : list Z) (fuel : nat) (acc : list (Z * Z)) :
  ws = [] ∨ ws = [SP] → entry_ok e → t = [] ∨ (∃ t', t = SP :: t') →
  read_entries (S fuel) (ws ++ entry_text e ++ t) acc = read_entries fuel t (push_entry e acc).
Proof.
  intros Hws [He1 He2] Ht. destruct e as [i j]. cbn [fst snd] in *. unfold entry_text. cbn [fst snd].
  assert (number_ends t) as Hends by (by destruct Ht as [->|[t' ->]]).
  destruct (show_plus_d_read j t He2 Hends) as (c & ds & -> & Hsign & Hcd & Hread & Hval).
  rewrite <-app_assoc. cbn [app].
  set (p := ws ++ show_d (s32 i) ++ c :: ds ++ t).
  destruct (show_d_chars (s32 i)) as [Hd Hne].
  assert (at_end_or p eol = false) as Hend.
  { unfold p. destruct Hws as [->| ->]; [|done]. cbn [app].
    destruct (show_d (s32 i)) as [|x xs]; [done|]. apply Forall_cons in Hd as [Hx _].
    cbn [app at_end_or]. by apply digit_plain in Hx as [Hx _]. }
  assert (strtoul p = (u64 (s32 i), c :: ds ++ t, false)) as Hi.
  { apply strtoul_number; [destruct Hws as [->| ->]; by repeat constructor| |exact Hcd].
    unfold s32. pose proof (swrap_range 32 i ltac:(lia)). lia. }
  cbn [read_entries]. rewrite Hend, Hi.
  assert (- 2 ^ 31 ≤ s32 i < 2 ^ 31) as Hir by (unfold s32; pose proof (swrap_range 32 i ltac:(lia)); lia).
  rewrite s32_u64 by done. rewrite u32_s32 by done. rewrite Hsign.
  assert (ptr_eqb p (c :: ds ++ t) = false) as ->.
  { unfold p. rewrite app_assoc, ptr_eqb_app, bool_decide_false; [done|].
    intros [_ ?]%app_nil. done. }
  cbn [orb negb]. rewrite Hread. change (c :: ds ++ t) with ((c :: ds) ++ t).
  rewrite ptr_eqb_app, bool_decide_false by done.
  assert (at_end_or t [SP; TAB; CR; LF] = true) as -> by (by destruct Ht as [->|[t' ->]]).
  cbn [orb negb]. by rewrite Hval.
Qed.

Lemma read_entries_text (l : list (Z * Z)) : Forall entry_ok l → ∀ ws fuel acc,
  ws = [] ∨ ws = [SP] → (l ≠ [] ∨ ws = []) → (length l < fuel)%nat → (length acc + length l ≤ 3)%nat →
  read_entries fuel (ws ++ entries_text l) acc = acc ++ l.
Proof.
  induction 1 as [|e l He Hl IH]; intros ws fuel acc Hws Hne Hf Hlen.
  { destruct Hne as [?| ->]; [done|]. destruct fuel; [simpl in Hf; lia|].
    cbn [app entries_text read_entries at_end_or]. by rewrite app_nil_r. }
  destruct fuel as [|fuel]; [lia|]. simpl in Hf, Hlen.
  assert (push_entry e acc = acc ++ [e]) as Hpush.
  { unfold push_entry. by rewrite (proj2 (Nat.eqb_neq _ _)) by lia. }
  destruct l as [|e' l].
  - cbn [entries_text]. rewrite <-(app_nil_r (entry_text e)), read_entry by auto. rewrite Hpush.
    destruct fuel; [simpl in Hf; lia|done].
  - change (entries_text (e :: e' :: l)) with (entry_text e ++ [SP] ++ entries_text (e' :: l)).
    rewrite read_entry by eauto. rewrite Hpush, IH; [by rewrite <-app_assoc|by right|by left|lia|].
    rewrite length_app. simpl in *. lia.
Qed.

(** What the module remembers of earlier codes. *)
Definition remembered (buf : list Z) (l : list (Z * Z)) : Prop :=
  (length l ≤ 3)%nat ∧ Forall entry_ok l ∧
  (cfg_lookup key_RESETTING_TIME_SKEW buf = Some (entries_text l) ∨
   (cfg_lookup key_RESETTING_TIME_SKEW buf = None ∧ l = [])).

Lemma entries_text_length (l : list (Z * Z)) : (length l ≤ length (entries_text l))%nat.
Proof.
  induction l as [|e [|e' l] IH]; [done| |].
  - cbn [entries_text length]. unfold entry_text. rewrite length_app.
    destruct (show_d_chars (s32 e.1)) as [_ Hne]. destruct (show_d (s32 e.1)); [done|simpl; lia].
  - change (entries_text (e :: e' :: l)) with (entry_text e ++ SP :: entries_text (e' :: l)).
    rewrite length_app. simpl in *. lia.
Qed.

Lemma old_entries_remembered (buf : list Z) (l : list (Z * Z)) (r : cfg_value) :
  remembered buf l → r ≠ Oom →
  match r with
  | NoValue => cfg_lookup key_RESETTING_TIME_SKEW buf = None
  | Value v => cfg_lookup key_RESETTING_TIME_SKEW buf = Some v
  | Oom => True
  end → old_entries r = l.
Proof.
  intros (Hl & Hok & Hlk) Hr Hv. destruct r as [| |v]; [|done|]; destruct Hlk as [Hlk|[Hlk ->]];
    try congruence; [done|]. rewrite Hv in Hlk. injection Hlk as ->. cbn [old_entries].
  pose proof (entries_text_length l).
  apply (read_entries_text l Hok [] _ []); [by left|by right|lia|simpl; lia].
Qed.

(** The new entry goes to the end of the last two. *)
Lemma push_entry_drop (e : Z * Z) (l : list (Z * Z)) : (length l ≤ 3)%nat →
  push_entry e l = drop (length l - 2) l ++ [e].
Proof.
  intros Hl. unfold push_entry. destruct l as [|a [|b [|c [|d l]]]]; try done. simpl in Hl. lia.
Qed.

Lemma check_time_skew_run (updated : bool) (buf : list Z) (l : list (Z * Z)) (skew tm : Z)
    (w w' : world) (rc : Z) (updated' : bool) (buf' : list Z) :
  cfg_ok buf → remembered buf l →
  check_time_skew updated buf skew tm w = ((rc, updated', buf'), w') →
  let again := ∃ t s, last l = Some (t, s) ∧ u32 (tm + skew) = u32 (t + s) in
  let l' := drop (length l - 2) l ++ [(u32 tm, skew)] in
  (again ∧ rc = -1 ∧ updated' = updated ∧ buf' = buf) ∨
  (¬ again ∧ rc = 0 ∧ updated' = true ∧ ∃ t0 s0 t1 s1, in_a_row l' skew t0 s0 t1 s1 (u32 tm) skew ∧
     let average := Z.quot (s32 (s32 (s0 + s1) + skew)) 3 in
     buf' = cfg_replace key_RESETTING_TIME_SKEW [] (cfg_replace key_TIME_SKEW (show_d average) buf) ∧
     cfg_lookup key_TIME_SKEW buf' = Some (show_d average) ∧
     cfg_lookup key_RESETTING_TIME_SKEW buf' = Some []) ∨
  (¬ again ∧ rc = -1 ∧ updated' = true ∧ (∀ t0 s0 t1 s1 t2 s2, ¬ in_a_row l' skew t0 s0 t1 s1 t2 s2) ∧
     buf' = cfg_replace key_RESETTING_TIME_SKEW (entries_text l') buf ∧
     cfg_lookup key_RESETTING_TIME_SKEW buf' = Some (entries_text l') ∧
     cfg_lookup key_TIME_SKEW buf' = cfg_lookup key_TIME_SKEW buf) ∨
  (rc = -1 ∧ updated' = updated ∧ failed 3 w).
Proof.
  intros Hc Hrem H again l'. unfold check_time_skew in H. step H.
  apply get_cfg_run in E as [Hk E].
  assert (c = Oom ∨ c ≠ Oom) as [->|Hoom] by (destruct c; auto).
  { injection H as <- <- <- _. right; right; right. split; [done|]. split; [done|].
    apply (failed_le 1); [lia|done]. }
  destruct Hk as [|(k & Hk & ->)]; [done|].
  pose proof (old_entries_remembered buf l c Hrem Hoom ltac:(by destruct c)) as Hold.
  assert ((if same_code l skew tm then mret (-1, updated, buf)
     else record_skew updated buf l' skew) (spent k w) = (rc, updated', buf', w')) as H'.
  { unfold l'. destruct Hrem as [Hlen _]. rewrite <-push_entry_drop by done.
    rewrite Hold in H. destruct c; done. }
  clear H. assert (if same_code l skew tm then again else ¬ again) as Hag.
  { unfold same_code, again. destruct (last l) as [[t s]|].
    - destruct (Z.eqb_spec (u32 (tm + skew)) (u32 (t + s))); [eauto|]. intros (? & ? & [= <- <-] & ?). done.
    - intros (? & ? & ? & ?). done. }
  destruct (same_code l skew tm).
  { injection H' as <- <- <- _. by left. }
  right. unfold record_skew in H'. cbn zeta in H'.
  pose proof (skew_found_spec l' skew) as Hf.
  destruct (skew_found l' skew) as [avg|].
  - destruct Hf as (t0 & s0 & t1 & s1 & t2 & s2 & Hrow & Ha).
    assert (t2 = u32 tm ∧ s2 = skew) as [-> ->].
    { destruct Hrow as [El _]. unfold l' in El. apply (f_equal last) in El. rewrite last_snoc in El.
      by injection El. }
    step H'. destruct p as [rc1 b1].
    apply set_cfg_run in E0 as [(-> & -> & Hfail)|(-> & -> & k1 & Hk1 & ->)].
    { injection H' as <- <- <- _. right; right. split; [done|]. split; [done|].
      apply failed_spent in Hfail. revert Hfail. apply failed_le. lia. }
    change (0 <? 0) with false in H'. cbv iota in H'. step H'. destruct p as [rc2 b2].
    destruct (lookup_replace _ _ _ key_ok_TIME_SKEW (show_d_val_ok avg) Hc) as (Hg & _).
    destruct (set_lines_wf _ _ _ key_ok_TIME_SKEW (show_d_val_ok avg) Hc) as [_ Hok].
    assert (val_ok []) as Hv by done.
    destruct (lookup_replace _ _ _ key_ok_RESETTING Hv Hok) as (Hg1 & Hg2).
    apply set_cfg_inv in E0 as [(-> & -> & Hfail)|(-> & ->)]; injection H' as <- <- <- _.
    { right; right. split; [done|]. split; [done|]. do 2 apply failed_spent in Hfail.
      revert Hfail. apply failed_le. lia. }
    left. split; [done|]. split; [done|]. split; [done|]. exists t0, s0, t1, s1. split; [done|].
    cbn zeta. rewrite <-Ha. split; [done|]. split; [|done].
    rewrite Hg2; [done|apply key_ok_TIME_SKEW|done].
  - step H'. injection E0 as <- <-. change (0 <? 0) with false in H'. cbv iota in H'.
    step H'. destruct p as [rc2 b2].
    pose proof (entries_text_val_ok l') as Hv.
    destruct (lookup_replace _ _ _ key_ok_RESETTING Hv Hc) as (Hg1 & Hg2).
    apply set_cfg_inv in E0 as [(-> & -> & Hfail)|(-> & ->)]; injection H' as <- <- <- _.
    { right; right. split; [done|]. split; [done|]. apply failed_spent in Hfail.
      revert Hfail. apply failed_le. lia. }
    right; left. split; [done|]. split; [done|]. split; [done|]. split; [done|]. split; [done|].
    split; [done|]. apply Hg2; [apply key_ok_TIME_SKEW|done].
Qed.

(** What an accepted code of another skew leaves in the buffer. *)
Definition readjusted (skew tm : Z) (buf : list Z) (updated' : bool) (buf' : list Z) : Prop :=
  updated' = true ∧
  (∃ average, buf' = cfg_replace key_RESETTING_TIME_SKEW []
     (cfg_replace key_TIME_SKEW (show_d average) buf)) ∧
  (∀ l, cfg_ok buf → remembered buf l → ∃ t0 s0 t1 s1,
     in_a_row (drop (length l - 2) l ++ [(u32 tm, skew)]) skew t0 s0 t1 s1 (u32 tm) skew).

Lemma check_time_skew_readjusted (updated : bool) (buf : list Z) (skew tm : Z)
    (w w' : world) (updated' : bool) (buf' : list Z) :
  check_time_skew updated buf skew tm w = ((0, updated', buf'), w') →
  readjusted skew tm buf updated' buf'.
Proof.
  intros H. assert (updated' = true ∧ ∃ average, buf' = cfg_replace key_RESETTING_TIME_SKEW []
     (cfg_replace key_TIME_SKEW (show_d average) buf)) as [Hu Ha].
  { unfold check_time_skew in H. step H.
    assert (c = Oom ∨ ∃ l, (if same_code l skew tm then mret (-1, updated, buf)
      else record_skew updated buf (push_entry (u32 tm, skew) l) skew) w0 = (0, updated', buf', w'))
      as [->|[l H']] by (destruct c; eauto); [discriminate H|].
    destruct (same_code l skew tm); [discriminate H'|]. unfold record_skew in H'. cbn zeta in H'.
    destruct (skew_found _ _) as [avg|]; step H'; destruct p as [rc1 b1].
    - apply set_cfg_inv in E0 as [(-> & -> & _)|(-> & ->)]; [discriminate H'|].
      change (0 <? 0) with false in H'. cbv iota in H'. step H'. destruct p as [rc2 b2].
      apply set_cfg_inv in E0 as [(-> & -> & _)|(-> & ->)]; [discriminate H'|].
      injection H' as <- <- _. eauto.
    - injection E0 as <- <- <-. change (0 <? 0) with false in H'. cbv iota in H'. step H'.
      destruct p as [rc2 b2]. destruct (rc2 <? 0); discriminate H'. }
  split; [done|]. split; [done|]. intros l Hc Hrem.
  destruct (check_time_skew_run _ _ _ _ _ _ _ _ _ _ Hc Hrem H)
    as [(_ & H' & _)|[(_ & _ & _ & t0 & s0 & t1 & s1 & Hrow & _)|[(_ & H' & _)|(H' & _)]]];
    [discriminate H'| |discriminate H'..]. by exists t0, s0, t1, s1.
Qed.

(** C22: [check_time_skew], on a file with the entries [l] of up to three
    earlier codes as the module writes them.  The same code as the last time is
    refused and changes nothing.  Otherwise the new entry follows the last two
    old ones, and the code is accepted exactly when these are three in a row:
    increasing time stamps at most two windows apart, with skews within one of
    the new skew; then the average of the three skews is stored as TIME_SKEW and
    the entries are cleared, and otherwise the entries are stored, TIME_SKEW
    stays, and the status is -1.  Only a failed allocation can interfere. *)
Theorem check_time_skew_correct (updated : bool) (buf : list Z) (l : list (Z * Z)) (skew tm : Z)
    (w w' : world) (rc : Z) (updated' : bool) (buf' : list Z) :
  cfg_ok buf → remembered buf l →
  check_time_skew updated buf skew tm w = ((rc, updated', buf'), w') →
  let again := ∃ t s, last l = Some (t, s) ∧ u32 (tm + skew) = u32 (t + s) in
  let l' := drop (length l - 2) l ++ [(u32 tm, skew)] in
  (again ∧ rc = -1 ∧ updated' = updated ∧ buf' = buf) ∨
  (¬ again ∧ rc = 0 ∧ updated' = true ∧ ∃ t0 s0 t1 s1, in_a_row l' skew t0 s0 t1 s1 (u32 tm) skew ∧
     let average := Z.quot (s32 (s32 (s0 + s1) + skew)) 3 in
     buf' = cfg_replace key_RESETTING_TIME_SKEW [] (cfg_replace key_TIME_SKEW (show_d average) buf) ∧
     cfg_lookup key_TIME_SKEW buf' = Some (show_d average) ∧
     cfg_lookup key_RESETTING_TIME_SKEW buf' = Some []) ∨
  (¬ again ∧ rc = -1 ∧ updated' = true ∧ (∀ t0 s0 t1 s1 t2 s2, ¬ in_a_row l' skew t0 s0 t1 s1 t2 s2) ∧
     buf' = cfg_replace key_RESETTING_TIME_SKEW (entries_text l') buf ∧
     cfg_lookup key_RESETTING_TIME_SKEW buf' = Some (entries_text l') ∧
     cfg_lookup key_TIME_SKEW buf' = cfg_lookup key_TIME_SKEW buf) ∨
  (rc = -1 ∧ updated' = updated ∧ failed 3 w).
Proof. apply check_time_skew_run. Qed.

(** *** Scratch codes *)

(** The lines after the secret: options and eight-digit codes. *)
Inductive item := Opt (text : list Z) | Code (n : Z).

Definition item_text (i : item) : list Z :=
  match i with Opt t => DQ :: t ++ [LF] | Code n => show_u n ++ [LF] end.

Definition item_ok (i : item) : Prop :=
  match i with Opt t => LF ∉ t | Code n => 10000000 ≤ n < 100000000 end.

(** Without the first scratch code that equals [n]; [None] when there is none. *)
Fixpoint use_code (n : Z) (its : list item) : option (list item) :=
  match its with
  | [] => None
  | Code m :: its => if m =? n then Some its else (cons (Code m)) <$> use_code n its
  | i :: its => (cons i) <$> use_code n its
  end.

Lemma items_head (its : list item) : Forall item_ok its →
  match its ≫= item_text with [] => its = [] | c :: _ => in_set eol c = false end.
Proof.
  intros [|[t|n] its' Hi _]; [done|done|]. rewrite bind_cons. cbn [item_text].
  destruct (show_u_spec n) as (Hne & Hd & _); [simpl in Hi; lia|].
  destruct (show_u n) as [|c s]; [done|]. apply Forall_cons in Hd as [Hc _].
  by apply digit_plain; right.
Qed.

Lemma strcspn_lf (t s : list Z) : LF ∉ t → strcspn (t ++ LF :: s) [LF] = length t.
Proof.
  intros Ht. apply span_by_all; [|done]. apply Forall_forall. intros c Hc.
  apply negb_true_iff. destruct (in_set [LF] c) eqn:E; [|done]. apply in_set_spec in E.
  apply list_elem_of_singleton in E as ->. done.
Qed.

Lemma scratch_loop_items (its : list item) (code : Z) : Forall item_ok its →
  ∀ fuel passed, (length (its ≫= item_text) < fuel)%nat →
  scratch_loop fuel passed (LF :: (its ≫= item_text)) code =
    (λ its', passed ++ LF :: (its' ≫= item_text)) <$> use_code code its.
Proof.
  intros His. induction His as [|i its Hi His IH]; intros fuel passed Hf.
  { destruct fuel; [lia|]. done. }
  destruct fuel as [|fuel]; [lia|]. cbn [scratch_loop].
  assert (strspn (LF :: ((i :: its) ≫= item_text)) eol = 1%nat) as ->.
  { apply (span_by_all _ [LF]); [by repeat constructor|].
    pose proof (items_head (i :: its)) as H. destruct ((i :: its) ≫= item_text); [done|].
    apply H. by constructor. }
  change (take 1 (LF :: ((i :: its) ≫= item_text))) with [LF].
  change (drop 1 (LF :: ((i :: its) ≫= item_text))) with (item_text i ++ (its ≫= item_text)).
  rewrite bind_cons, length_app in Hf. destruct i as [t|n]; cbn [item_text use_code item_ok] in *.
  - change (starts_with ((DQ :: t ++ [LF]) ++ (its ≫= item_text)) [DQ]) with true. cbv iota.
    assert ((DQ :: t ++ [LF]) ++ (its ≫= item_text) = (DQ :: t) ++ LF :: (its ≫= item_text)) as ->
      by (cbn [app]; by rewrite <-app_assoc).
    assert (strcspn ((DQ :: t) ++ LF :: (its ≫= item_text)) [LF] = S (length t)) as ->.
    { apply (strcspn_lf (DQ :: t)). intros [?|?]%elem_of_cons; done. }
    rewrite (take_app_length' (DQ :: t)), (drop_app_length' (DQ :: t)) by done.
    rewrite IH by (simpl in Hf; rewrite length_app in Hf; simpl in Hf; lia).
    rewrite <-option_fmap_compose. destruct (use_code code its) as [its'|]; [|done].
    cbn [fmap option_fmap option_map]. f_equal. unfold compose.
    rewrite bind_cons. cbn [item_text app]. by rewrite <-!app_assoc.
  - destruct (show_u_spec n) as (Hne & Hd & _); [lia|].
    assert ((show_u n ++ [LF]) ++ (its ≫= item_text) = show_u n ++ LF :: (its ≫= item_text)) as ->
      by (by rewrite <-app_assoc).
    assert (starts_with (show_u n ++ LF :: (its ≫= item_text)) [DQ] = false) as ->.
    { destruct (show_u n) as [|c s]; [done|]. apply Forall_cons in Hd as [Hc _].
      unfold starts_with. apply bool_decide_false. intros [= ->]. done. }
    assert (show_d n = show_u n) as Es by (unfold show_d; by rewrite (proj2 (Z.ltb_ge _ _)) by lia).
    rewrite <-Es, strtoul_show_d by (done || lia). rewrite Es.
    rewrite ptr_eqb_app, bool_decide_false by done.
    unfold u64, s32. rewrite wrap_small by lia. rewrite swrap_small by lia.
    rewrite (proj2 (Z.ltb_ge _ _)), (proj2 (Z.leb_gt _ _)) by lia.
    change (at_end_or (LF :: (its ≫= item_text)) eol) with true. cbn [orb negb].
    destruct (Z.eqb_spec n code) as [->|Hn].
    + assert (strspn (LF :: (its ≫= item_text)) eol = 1%nat) as ->.
      { apply (span_by_all _ [LF]); [by repeat constructor|].
        pose proof (items_head its His) as H. by destruct (its ≫= item_text). }
      simpl. f_equal. rewrite drop_0. by rewrite <-app_assoc.
    + replace (length (show_u n ++ LF :: (its ≫= item_text)) - length (LF :: (its ≫= item_text)))%nat
        with (length (show_u n)) by (rewrite length_app; lia).
      rewrite take_app_length, IH.
      * rewrite <-option_fmap_compose. destruct (use_code code its) as [its'|]; [|done].
    cbn [fmap option_fmap option_map]. f_equal. unfold compose.
        rewrite bind_cons. cbn [item_text]. by rewrite <-!app_assoc.
      * rewrite length_app in Hf. simpl in Hf. destruct (show_u n); [done|simpl in Hf; lia].
Qed.

Lemma scratch_codes_run (updated : bool) (secret : list Z) (its : list item) (code : Z) :
  LF ∉ secret → Forall item_ok its →
  check_scratch_codes updated (secret ++ [LF] ++ (its ≫= item_text)) code =
    match use_code code its with
    | Some its' => (0, true, secret ++ [LF] ++ (its' ≫= item_text))
    | None => (1, updated, secret ++ [LF] ++ (its ≫= item_text))
    end.
Proof.
  intros Hs His. unfold check_scratch_codes. cbn [app].
  rewrite strcspn_lf by done. rewrite take_app_length, drop_app_length, scratch_loop_items; [|done|].
  - by destruct (use_code code its).
  - rewrite length_app. simpl. lia.
Qed.

(** C11: on a file of a secret line, options and eight-digit codes, a code is
    accepted exactly when it is one of the scratch codes; it is then removed
    from the file, once, and everything else stays; otherwise the file is not
    touched and the other kinds of codes are to be tried. *)
Theorem scratch_codes_correct (updated : bool) (secret : list Z) (its : list item) (code : Z) :
  LF ∉ secret → Forall item_ok its →
  check_scratch_codes updated (secret ++ [LF] ++ (its ≫= item_text)) code =
    match use_code code its with
    | Some its' => (0, true, secret ++ [LF] ++ (its' ≫= item_text))
    | None => (1, updated, secret ++ [LF] ++ (its ≫= item_text))
    end.
Proof. apply scratch_codes_run. Qed.

(** *** Rate limit *)

Lemma key_ok_RATE : key_ok key_RATE_LIMIT.
Proof. exact key_ok_RATE_LIMIT. Qed.

(** A time stamp that is printed and read back unchanged. *)
Definition stamp_ok (t : Z) : Prop := 0 ≤ t < 2 ^ 31.

Lemma sort_insert_perm (x : Z) (l : list Z) : sort_insert x l ≡ₚ x :: l.
Proof.
  induction l as [|y l IH]; [done|]. cbn [sort_insert]. destruct (_ <=? _); [done|].
  rewrite IH. apply perm_swap.
Qed.

Lemma qsort_perm (l : list Z) : qsort l ≡ₚ l.
Proof.
  induction l as [|x l IH]; [done|]. unfold qsort. cbn [foldr]. fold (qsort l).
  by rewrite sort_insert_perm, IH.
Qed.

Lemma comparator_le (x y : Z) : stamp_ok x → stamp_ok y → (comparator x y <=? 0) = (x <=? y).
Proof.
  unfold stamp_ok, comparator, s32, u32. intros Hx Hy. 
  assert (swrap 32 (wrap 32 (x - y)) = x - y) as ->.
  { transitivity (swrap 32 (x - y)); [|apply swrap_small; lia].
    unfold swrap, wrap. by rewrite Zplus_mod_idemp_l. }
  destruct (Z.leb_spec x y), (Z.leb_spec (x - y) 0); lia.
Qed.

Lemma sort_insert_sorted (x : Z) (l : list Z) : stamp_ok x → Forall stamp_ok l →
  StronglySorted Z.le l → StronglySorted Z.le (sort_insert x l).
Proof.
  intros Hx Hl Hs. induction Hs as [|y l Hs IH Hy]; cbn [sort_insert]; [by repeat constructor|].
  apply Forall_cons in Hl as [Hyo Hl]. rewrite comparator_le by done.
  destruct (Z.leb_spec x y).
  - constructor; [by constructor|]. constructor; [done|].
    eapply Forall_impl; [exact Hy|]. cbn. intros z. lia.
  - constructor; [by apply IH|]. rewrite sort_insert_perm. constructor; [lia|done].
Qed.

Lemma qsort_sorted (l : list Z) : Forall stamp_ok l → StronglySorted Z.le (qsort l).
Proof.
  induction 1 as [|x l Hx Hl IH]; [constructor|]. unfold qsort. cbn [foldr]. fold (qsort l).
  apply sort_insert_sorted; [done| |done]. by rewrite qsort_perm.
Qed.

(** The stamps inside the window [lim, now], of a sorted list. *)
Definition window_of (lim now : Z) (l : list Z) : list Z := filter (λ t, lim ≤ t ≤ now) l.

Lemma prune_future (now lim : Z) (l : list Z) : ∀ i start stop,
  StronglySorted Z.le l → Forall (λ t, lim ≤ t) l →
  prune l now lim i start stop =
    (start, if window_of lim now l is [] then stop else i + Z.of_nat (length (window_of lim now l)) - 1).
Proof.
  induction l as [|t l IH]; intros i start stop Hs Hl; [done|].
  apply StronglySorted_inv in Hs as [Hs Ht]. apply Forall_cons in Hl as [Ht0 Hl].
  cbn [prune]. rewrite (proj2 (Z.ltb_ge _ _)) by done. unfold window_of.
  destruct (Z.ltb_spec now t).
  - assert (filter (λ t, lim ≤ t ≤ now) (t :: l) = []) as ->; [|done].
    rewrite filter_cons_False by lia. clear -Ht H. induction Ht as [|x l Hx _ IH]; [done|].
    rewrite filter_cons_False by lia. done.
  - rewrite filter_cons_True by lia. rewrite IH by done. f_equal. unfold window_of.
    destruct (filter _ l); simpl length; lia.
Qed.

Lemma prune_spec (now lim : Z) (l : list Z) : ∀ i,
  StronglySorted Z.le l →
  let p := length (filter (λ t, t < lim) l) in
  let n := length (window_of lim now l) in
  prune l now lim i i (i - 1) = (i + Z.of_nat p, i + Z.of_nat (p + n) - 1) ∧
  take n (drop p l) = window_of lim now l.
Proof.
  induction l as [|t l IH]; intros i Hs p n; [split; [unfold p, n, window_of; cbn; f_equal; lia|done]|].
  apply StronglySorted_inv in Hs as [Hs' Ht]. unfold p, n, window_of. cbn [prune].
  destruct (Z.ltb_spec t lim).
  - rewrite filter_cons_True by done. rewrite (filter_cons_False (λ t, lim ≤ t ≤ now)) by lia.
    destruct (IH (i + 1) Hs') as [H1 H2]. cbn [length drop].
    replace (i + 1 - 1) with i in H1 by lia. rewrite H1. unfold window_of in *. split; [f_equal; lia|done].
  - assert (filter (λ t, t < lim) (t :: l) = []) as ->.
    { rewrite filter_cons_False by lia. clear -Ht H. induction Ht as [|x l Hx _ IH]; [done|].
      rewrite filter_cons_False by lia. done. }
    assert (Forall (λ t, lim ≤ t) (t :: l)) as Hl.
    { constructor; [done|]. eapply Forall_impl; [exact Ht|]. cbn. lia. }
    assert (StronglySorted Z.le (t :: l)) as Hs by (by constructor).
    pose proof (prune_future now lim (t :: l) i i (i - 1) Hs Hl) as E. cbn [prune] in E.
    rewrite (proj2 (Z.ltb_ge _ _)) in E by done. rewrite E. cbn [length]. fold (window_of lim now (t :: l)).
    split.
    + f_equal; [lia|]. destruct (window_of lim now (t :: l)); simpl length; lia.
    + rewrite drop_0. unfold window_of. clear -Hs Hl. revert Hs Hl. generalize (t :: l). clear t l.
      induction l as [|t l IH]; intros Hs Hl; [done|].
      apply StronglySorted_inv in Hs as [Hs Ht]. apply Forall_cons in Hl as [Ht0 Hl].
      rewrite filter_cons. case_decide as Hd.
      * simpl. f_equal. by apply IH.
      * assert (filter (λ t, lim ≤ t ≤ now) l = []) as ->; [|done].
        clear -Ht Hd Ht0. induction Ht as [|x l Hx _ IH]; [done|].
        rewrite filter_cons_False by lia. done.
Qed.

(** The text of a RATE_LIMIT line is read back. *)
Definition stamps_text (l : list Z) : list Z := l ≫= λ t, SP :: show_u t.

Lemma stamps_text_ends (l : list Z) : number_ends (stamps_text l).
Proof. by destruct l. Qed.

Lemma rate_numbers_text (a i : Z) (l : list Z) : 1 ≤ a ≤ 100 → 1 ≤ i ≤ 3600 →
  rate_numbers (rate_text a i l) = Some (a, i, stamps_text l).
Proof.
  intros Ha Hi. unfold rate_numbers, rate_text. fold (stamps_text l).
  pose proof (strtoul_number [] a ([SP] ++ show_d i ++ stamps_text l)) as E1. cbn [app] in E1 |- *.
  rewrite E1 by (done || lia). clear E1. rewrite s32_u64 by lia.
  rewrite ptr_eqb_app, bool_decide_false by apply show_d_chars.
  rewrite !(proj2 (Z.ltb_ge _ _)) by lia. cbn [orb negb in_set existsb blank].
  change (in_set blank SP) with true. cbn [orb negb].
  pose proof (strtoul_number [SP] i (stamps_text l)) as E2. cbn [app] in E2.
  rewrite E2 by (try apply stamps_text_ends; repeat constructor; lia). clear E2. rewrite s32_u64 by lia.
  change (SP :: show_d i ++ stamps_text l) with ((SP :: show_d i) ++ stamps_text l).
  rewrite ptr_eqb_app, bool_decide_false by done. rewrite !(proj2 (Z.ltb_ge _ _)) by lia. done.
Qed.

Lemma read_stamps_text (l : list Z) (w : world) : w_allocs w = [] → Forall stamp_ok l →
  ∀ fuel acc, (length (stamps_text l) < fuel)%nat →
  read_stamps fuel (stamps_text l) acc w = (StampsOk (acc ++ l), w).
Proof.
  intros Hw. induction 1 as [|t l Ht Hl IH]; intros fuel acc Hf.
  { destruct fuel; [simpl in Hf; lia|]. cbn. by rewrite app_nil_r. }
  destruct fuel as [|fuel]; [lia|]. unfold stamp_ok in Ht.
  change (stamps_text (t :: l)) with ((SP :: show_u t) ++ stamps_text l) in Hf |- *.
  rewrite length_app in Hf. rewrite show_u_d in Hf |- * by lia. cbn [read_stamps app].
  change (in_set eol SP) with false. change (in_set blank SP) with true. cbn [negb].
  pose proof (strtoul_number [SP] t (stamps_text l)) as E. cbn [app] in E.
  rewrite E by (try apply stamps_text_ends; repeat constructor; lia). clear E. rewrite s32_u64 by lia.
  change (SP :: show_d t ++ stamps_text l) with ((SP :: show_d t) ++ stamps_text l).
  rewrite ptr_eqb_app, bool_decide_false by done. cbn [orb].
  rewrite M_bind_unfold. unfold alloc. rewrite Hw. cbn [fst snd].
  rewrite IH by (simpl in Hf; lia). unfold u32. rewrite wrap_small by lia. by rewrite <-app_assoc.
Qed.

Lemma rate_text_val_ok (a i : Z) (l : list Z) : Forall stamp_ok l → val_ok (rate_text a i l).
Proof.
  intros Hl. unfold rate_text. apply val_ok_app; [apply show_d_chars|apply show_d_val_ok|].
  constructor; [done|]. apply Forall_app. split; [apply show_d_val_ok|].
  induction Hl as [|t l Ht _ IH]; [constructor|]. rewrite bind_cons. apply Forall_app. split; [|done].
  unfold stamp_ok in Ht. rewrite show_u_d by lia. constructor; [done|apply show_d_val_ok].
Qed.

Lemma filter_sorted (Q : Z → Prop) `{∀ t, Decision (Q t)} (l : list Z) :
  StronglySorted Z.le l → StronglySorted Z.le (filter Q l).
Proof.
  induction 1 as [|t l Hs IH Ht]; [constructor|]. rewrite filter_cons. case_decide; [|done].
  constructor; [done|]. rewrite Forall_forall in Ht |- *. intros x [_ Hx]%list_elem_of_filter. by apply Ht.
Qed.

(** The greatest element of a sorted list is among its last ones. *)
Lemma sorted_max_in_drop (m : nat) (x : Z) (l : list Z) :
  StronglySorted Z.le l → x ∈ l → Forall (λ t, t ≤ x) l → (m < length l)%nat → x ∈ drop m l.
Proof.
  revert m. induction l as [|t l IH]; intros m Hs Hx Hl Hm; [simpl in Hm; lia|].
  destruct m as [|m]; [done|]. simpl in Hm |- *.
  apply StronglySorted_inv in Hs as [Hs Ht]. apply Forall_cons in Hl as [Htx Hl].
  apply IH; [done| |done|lia]. apply elem_of_cons in Hx as [->|Hx]; [|done].
  destruct l as [|y l]; [simpl in Hm; lia|]. apply Forall_cons in Ht as [Hy _].
  apply Forall_cons in Hl as [Hl _]. assert (y = t) as -> by lia. by left.
Qed.

(** Between the reading of the stamps and the new line. *)
Lemma prune_kept (now lim a : Z) (l : list Z) : StronglySorted Z.le l → 1 ≤ a →
  let win := window_of lim now l in
  let '(start, stop) := prune l now lim 0 0 (-1) in
  stop - start + 1 = Z.of_nat (length win) ∧
  let start := if a <? stop - start + 1 then stop - a + 1 else start in
  take (Z.to_nat (stop - start + 1)) (drop (Z.to_nat start) l) = drop (length win - Z.to_nat a) win.
Proof.
  intros Hs Ha win. destruct (prune_spec now lim l 0 Hs) as [Hp Hw].
  change (-1) with (0 - 1). rewrite Hp. fold win in Hw. fold win.
  set (p := length (filter (λ t, t < lim) l)) in *. set (n := length win) in *.
  split; [lia|]. cbn zeta.
  replace (0 + Z.of_nat (p + n) - 1 - (0 + Z.of_nat p) + 1) with (Z.of_nat n) by lia.
  destruct (Z.ltb_spec a (Z.of_nat n)).
  - replace (Z.to_nat (0 + Z.of_nat (p + n) - 1 - (0 + Z.of_nat (p + n) - 1 - a + 1) + 1)) with (Z.to_nat a) by lia.
    replace (Z.to_nat (0 + Z.of_nat (p + n) - 1 - a + 1)) with (p + (n - Z.to_nat a))%nat by lia.
    rewrite <-drop_drop, take_drop_commute. rewrite <-Hw. f_equal. f_equal. lia.
  - replace (Z.to_nat (0 + Z.of_nat (p + n) - 1 - (0 + Z.of_nat p) + 1)) with n by lia.
    replace (Z.to_nat (0 + Z.of_nat p)) with p by lia. rewrite Hw.
    by replace (n - Z.to_nat a)%nat with 0%nat by lia.
Qed.

(** C16: on a RATE_LIMIT line as the module writes it ([attempts], [interval]
    and the stamps of earlier logins), with no failing allocation, the login is
    allowed exactly when it and the stamps of the last [interval] seconds are at
    most [attempts]; in both cases the line is rewritten with the latest stamps
    of that window, at most [attempts] of them, sorted and with the current
    time among them, and this line has the same form again. *)
Theorem rate_limit_correct (updated : bool) (buf : list Z) (a i : Z) (l : list Z) (w : world) :
  cfg_ok buf → 1 ≤ a ≤ 100 → 1 ≤ i ≤ 3600 → Forall stamp_ok l → w_allocs w = [] →
  let now := w_clock w (w_ticks w) in
  i ≤ now < 2 ^ 31 →
  cfg_lookup key_RATE_LIMIT buf = Some (rate_text a i l) →
  let win := window_of (now - i) now (qsort (now :: l)) in
  let kept := drop (length win - Z.to_nat a) win in
  (rate_limit updated buf w).1 =
    (if Z.of_nat (length win) <=? a then 0 else -1, true,
     cfg_replace key_RATE_LIMIT (rate_text a i kept) buf) ∧
  win ≡ₚ window_of (now - i) now (now :: l) ∧ StronglySorted Z.le win ∧ now ∈ kept ∧
  Forall stamp_ok kept ∧ (length kept ≤ Z.to_nat a)%nat ∧
  cfg_lookup key_RATE_LIMIT (cfg_replace key_RATE_LIMIT (rate_text a i kept) buf) =
    Some (rate_text a i kept).
Proof.
  intros Hc Ha Hi Hl Hw now Hnow Hlk win kept.
  assert (Forall stamp_ok (now :: l)) as Hall by (constructor; [unfold stamp_ok; lia|done]).
  pose proof (qsort_sorted _ Hall) as Hs.
  assert (win ≡ₚ window_of (now - i) now (now :: l)) as Hperm by (unfold win, window_of; by rewrite qsort_perm).
  assert (StronglySorted Z.le win) as Hws by (by apply filter_sorted).
  assert (now ∈ win) as Hin.
  { rewrite Hperm. apply list_elem_of_filter. split; [lia|by left]. }
  assert (Forall stamp_ok kept) as Hk.
  { apply Forall_drop. rewrite Hperm. apply Forall_forall. intros x [_ Hx]%list_elem_of_filter.
    by rewrite Forall_forall in Hall; apply Hall. }
  assert (0 < length win)%nat as Hn by (destruct win; [by apply elem_of_nil in Hin|simpl; lia]).
  pose proof (rate_text_val_ok a i kept Hk) as Hv. pose proof key_ok_RATE_LIMIT as Hkey.
  split; [|split; [done|split; [done|split; [|split; [done|split]]]]].
  - pose proof (prune_kept now (now - i) a (qsort (now :: l)) Hs ltac:(lia)) as Hp. cbn zeta in Hp.
    unfold rate_limit. rewrite M_bind_unfold, get_cfg_ok, Hlk by done. cbn [fst snd].
    rewrite rate_numbers_text by done. rewrite M_bind_unfold. cbn [get_time fst snd]. fold now.
    cbn zeta. rewrite M_bind_unfold. unfold alloc. cbn [w_allocs set_ticks]. rewrite Hw. cbn [fst snd negb].
    unfold u32. rewrite (wrap_small 32 now), (wrap_small 32 (now - i)) by lia.
    rewrite M_bind_unfold, read_stamps_text by (done || lia). cbn [fst snd app].
    destruct (prune _ _ _ _ _ _) as [start stop]. destruct Hp as [Hlen Hkept].
    fold win in Hlen, Hkept. rewrite M_bind_unfold. unfold alloc. cbn [w_allocs set_ticks].
    rewrite Hw. cbn [fst snd negb]. rewrite Hkept. fold kept.
    rewrite M_bind_unfold, set_cfg_ok by done. cbn [fst snd]. change (0 <? 0) with false. cbv iota.
    rewrite Hlen. destruct (Z.ltb_spec a (Z.of_nat (length win))).
    + rewrite (proj2 (Z.leb_gt _ _)) by lia. done.
    + rewrite (proj2 (Z.leb_le _ _)) by lia. done.
  - apply sorted_max_in_drop; [done|done| |lia]. rewrite Hperm. apply Forall_forall.
    intros x [Hx _]%list_elem_of_filter. lia.
  - unfold kept. rewrite length_drop. lia.
  - by apply lookup_replace.
Qed.


(** *** Reuse of time-based codes *)

(** The text of a DISALLOW_REUSE value: numbers separated by blanks. *)
Inductive blocked_text : list Z → list Z → Prop :=
  | blocked_nil ws : Forall (λ c, in_set blank c = true) ws → blocked_text ws []
  | blocked_cons ws n t l :
      Forall (λ c, in_set blank c = true) ws → - 2 ^ 31 ≤ n < 2 ^ 31 →
      match t with [] => True | c :: _ => in_set blank c = true end →
      blocked_text t l → blocked_text (ws ++ show_d n ++ t) (n :: l).

Definition no_lead (t : list Z) : Prop := match t with [] => True | c :: _ => in_set blank c = false end.

(** The time stamps kept in the list: those of the window around [tm]. *)
Definition near (tm window b : Z) : bool :=
  negb ((window <=? s32 (b - tm)) || (window <=? s32 (tm - b))).

Definition ws4 : list Z := [SP; TAB; CR; LF].

Lemma blank_ws4 (c : Z) : in_set blank c = true → in_set ws4 c = true ∧ isspace c = true ∧ isdigit c = false.
Proof. unfold in_set, blank, ws4, isspace, isdigit. cbn [existsb]. chr_simpl. lia. Qed.

Lemma plain_ws4 (c : Z) : c = chr "-" ∨ isdigit c = true → in_set ws4 c = false.
Proof. unfold in_set, ws4, isdigit. cbn [existsb]. chr_simpl. lia. Qed.

Lemma blocked_text_app_ws (ws t l : list Z) :
  Forall (λ c, in_set blank c = true) ws → blocked_text t l → blocked_text (ws ++ t) l.
Proof.
  intros Hws. destruct 1 as [ws' H|ws' n t l H Hn Ht Hl].
  - constructor. by apply Forall_app.
  - rewrite app_assoc. constructor; [by apply Forall_app|done..].
Qed.

Lemma blocked_text_drop (t l : list Z) : blocked_text t l →
  blocked_text (drop (strspn t blank) t) l ∧ no_lead (drop (strspn t blank) t).
Proof.
  intros H. split.
  - destruct H as [ws H|ws n t l H Hn Ht Hl].
    + apply blocked_nil, Forall_drop, H.
    + assert (strspn (ws ++ show_d n ++ t) blank = length ws) as ->.
      { apply span_by_all; [done|]. destruct (show_d_chars n) as [Hd Hne].
        destruct (show_d n) as [|c s]; [done|]. apply Forall_cons in Hd as [Hc _]. by apply digit_plain. }
      rewrite drop_app_length. by apply (blocked_cons []).
  - apply span_by_drop.
Qed.

Lemma blocked_loop_spec (tm window : Z) : ∀ fuel t l kept,
  blocked_text t l → (length t < fuel)%nat →
  (tm ∈ l → blocked_loop fuel kept t tm window = Reused) ∧
  (tm ∉ l → ∃ t', blocked_loop fuel kept t tm window = Kept (kept ++ t') ∧
     blocked_text t' (filter (λ b, near tm window b = true) l) ∧
     (match t with [] => True | c :: _ => in_set blank c = true end →
      match t' with [] => True | c :: _ => in_set blank c = true end) ∧
     (no_lead t → no_lead t')).
Proof.
  induction fuel as [|fuel IH]; intros t l kept Ht Hf; [lia|].
  destruct Ht as [ws Hws|ws n t l Hws Hn Ht Hl].
  { split; [by intros ?%elem_of_nil|]. intros _. exists ws.
    split; [|split; [by apply blocked_nil|done]].
    cbn [blocked_loop]. fold ws4. destruct ws as [|c ws]; [by rewrite app_nil_r|].
    assert (strspn (c :: ws) ws4 = length (c :: ws)) as ->.
    { rewrite <-(app_nil_r (c :: ws)) at 1. apply span_by_all; [|done].
      eapply Forall_impl; [exact Hws|]. intros x Hx. by apply blank_ws4. }
    rewrite firstn_all, drop_all. done. }
  destruct (show_d_chars n) as [Hd Hne]. set (p := ws ++ show_d n ++ t) in *.
  assert (number_ends t) as Hends.
  { destruct t as [|c t]; [done|]. by apply blank_ws4 in Ht as (_ & _ & ?). }
  assert (strspn p ws4 = length ws) as Esp.
  { apply span_by_all; [eapply Forall_impl; [exact Hws|]; intros x Hx; by apply blank_ws4|].
    destruct (show_d n) as [|c s]; [done|]. apply Forall_cons in Hd as [Hc _]. by apply plain_ws4. }
  assert (∀ kept, blocked_loop (S fuel) kept p tm window =
    if tm =? n then Reused
    else if negb (near tm window n) then blocked_loop fuel (kept ++ ws) (drop (strspn t blank) t) tm window
    else blocked_loop fuel ((kept ++ ws) ++ show_d n) t tm window) as Estep.
  { intros k. cbn [blocked_loop]. fold ws4.
    assert (p ≠ []) as Hp by (unfold p; destruct ws; [by destruct (show_d n)|done]).
    destruct p as [|c0 p0] eqn:Ep; [done|]. rewrite <-Ep in *. rewrite Esp. unfold p in *.
    rewrite take_app_length, drop_app_length.
    destruct (show_d n ++ t) as [|c1 q1] eqn:Eq; [by destruct (show_d n)|]. rewrite <-Eq.
    pose proof (strtoul_number [] n t ltac:(constructor) Hn Hends) as Est. cbn [app] in Est. rewrite Est.
    rewrite s32_u64 by done. rewrite ptr_eqb_app, bool_decide_false by done.
    assert (at_end_or t ws4 = true) as ->.
    { destruct t as [|c t]; [done|]. simpl. by apply blank_ws4. }
    cbn [orb negb]. rewrite length_app.
    replace (length (show_d n) + length t - length t)%nat with (length (show_d n)) by lia.
    rewrite take_app_length. unfold near. rewrite negb_involutive. done. }
  assert (length t < length p)%nat as Hlt.
  { unfold p. rewrite !length_app. destruct (show_d n); [done|simpl; lia]. }
  destruct (blocked_text_drop t l Hl) as [Hdl Hdn].
  rewrite Estep. destruct (Z.eqb_spec tm n) as [->|Hne'].
  { split; [done|]. intros H. destruct H. by left. }
  destruct (near tm window n) eqn:Enear; cbn [negb].
  - destruct (IH t l ((kept ++ ws) ++ show_d n) Hl ltac:(lia)) as [IH1 IH2]. split.
    + intros [?|H]%elem_of_cons; [done|by apply IH1].
    + intros H. apply not_elem_of_cons in H as [_ H]. destruct (IH2 H) as (t' & -> & Hb & Hlead & _).
      exists (ws ++ show_d n ++ t'). rewrite filter_cons_True by done.
      split; [by rewrite <-!app_assoc|]. split; [|split].
      * constructor; [done|done| |done]. by apply Hlead.
      * unfold p. destruct ws as [|c ws]; [|done]. by destruct (show_d n).
      * unfold p. destruct ws as [|c ws]; [|done]. by destruct (show_d n).
  - assert (length (drop (strspn t blank) t) < fuel)%nat as Hdf by (rewrite length_drop; lia).
    destruct (IH _ l (kept ++ ws) Hdl Hdf) as [IH1 IH2]. split.
    + intros [?|H]%elem_of_cons; [done|by apply IH1].
    + intros H. apply not_elem_of_cons in H as [_ H]. destruct (IH2 H) as (t' & -> & Hb & _ & Hnl).
      exists (ws ++ t'). rewrite filter_cons_False by congruence.
      split; [by rewrite <-!app_assoc|]. split; [by apply blocked_text_app_ws|].
      specialize (Hnl Hdn). unfold p. destruct ws as [|c ws]; [|done]. cbn [app]. split; [|done].
      destruct (show_d n) as [|c s] eqn:Es; [done|]. cbn [app]. intros Hc.
      apply Forall_cons in Hd as [Hc' _]. apply digit_plain in Hc' as [_ Hc']. congruence.
Qed.

(** The new stamp goes to the end. *)
Lemma blocked_text_snoc (t l : list Z) (tm : Z) : blocked_text t l → - 2 ^ 31 ≤ tm < 2 ^ 31 →
  blocked_text (t ++ (if t is [] then [] else [SP]) ++ show_d tm) (l ++ [tm]).
Proof.
  intros H Htm.
  assert (∀ ws, Forall (λ c, in_set blank c = true) ws → blocked_text (ws ++ show_d tm) [tm]) as Hone.
  { intros ws Hws. rewrite <-(app_nil_r (show_d tm)). constructor; [done|done|done|by apply blocked_nil]. }
  assert (blocked_text (t ++ SP :: show_d tm) (l ++ [tm])) as Hsp.
  { induction H as [ws Hws|ws n t l Hws Hn Ht Hl IH].
    - change (SP :: show_d tm) with ([SP] ++ show_d tm). rewrite app_assoc. apply Hone.
      apply Forall_app. split; [done|by repeat constructor].
    - cbn [app]. rewrite <-!app_assoc. constructor; [done|done| |done]. by destruct t. }
  destruct t as [|c t]; [|done]. cbn [app]. inversion H as [ws|ws n t l' Hws Hn Ht Hl E]; subst.
  - by apply (Hone []).
  - apply app_nil in E as [_ E]. apply app_nil in E as [E _]. by destruct (show_d_chars n).
Qed.

Lemma blocked_text_plain (t l : list Z) : blocked_text t l → Forall (λ c, is_eol c = false) t.
Proof.
  assert (∀ ws, Forall (λ c, in_set blank c = true) ws → Forall (λ c, is_eol c = false) ws) as Hb.
  { intros ws Hws. eapply Forall_impl; [exact Hws|]. intros c. unfold is_eol, in_set, blank, eol.
    cbn [existsb]. chr_simpl. cbn beta. lia. }
  induction 1 as [ws Hws|ws n t l Hws Hn Ht Hl IH]; [by apply Hb|].
  rewrite !Forall_app. split; [by apply Hb|]. split; [apply show_d_val_ok|done].
Qed.

(** A value does not begin with a blank. *)
Lemma cfg_lookup_no_lead (key buf v : list Z) : cfg_lookup key buf = Some v → no_lead v.
Proof.
  unfold cfg_lookup. destruct (find_line _ _ _) as [[line ptr]|]; [|done].
  cbn [mbind option_bind]. intros [= <-]. unfold no_lead.
  pose proof (span_by_drop (in_set blank) ptr) as Hd. fold (strspn ptr blank) in Hd.
  destruct (drop (strspn ptr blank) ptr) as [|c s]; [done|]. by destruct (strcspn (c :: s) eol).
Qed.

(** What an accepted stamp leaves in the buffer. *)
Definition recorded (stamp : Z) (updated : bool) (buf : list Z) (updated' : bool) (buf' : list Z) : Prop :=
  match cfg_lookup key_DISALLOW_REUSE buf with
  | None => updated' = updated ∧ buf' = buf
  | Some v => updated' = true ∧ (∀ l, blocked_text v l → stamp ∉ l) ∧
      ∃ kept, buf' = cfg_replace key_DISALLOW_REUSE
        (kept ++ (if kept is [] then [] else [SP]) ++ show_d stamp) buf
  end.

Lemma invalidate_recorded (tm : Z) (updated : bool) (buf : list Z) (w w' : world)
    (updated' : bool) (buf' : list Z) :
  invalidate_timebased_code tm updated buf w = ((0, updated', buf'), w') →
  recorded tm updated buf updated' buf'.
Proof.
  intros H. unfold invalidate_timebased_code in H. step H. apply get_cfg_inv in E.
  unfold recorded. destruct c as [| |v]; [|discriminate H|]; rewrite ?E.
  { by injection H as <- <- _. }
  step H. destruct (z =? 0); [discriminate H|].
  destruct (blocked_loop (S (length v)) [] v tm z) as [t'| |] eqn:Eb; [|step H; discriminate H|discriminate H].
  step H. destruct b; cbn [negb] in H; [|step H; discriminate H]. step H. destruct p as [rc1 b1].
  apply set_cfg_inv in E2 as [(-> & -> & _)|(-> & ->)]; [discriminate H|].
  injection H as <- <- _. split; [done|]. split; [|by exists t'].
  intros l Hl Hin. destruct (blocked_loop_spec tm z (S (length v)) v l [] Hl ltac:(lia)) as [Hre _].
  by rewrite (Hre Hin) in Eb.
Qed.

(** C21: without the DISALLOW_REUSE option [invalidate_timebased_code] accepts
    and changes nothing.  With it, a time stamp of the list is refused, before
    anything is changed; a stamp that is accepted is added to the list, from
    which exactly the stamps are dropped that are outside the window, of the
    size the WINDOW_SIZE option says, around it; so as long as the window lasts
    the same code cannot be used again.  A stamp that is not in the list is
    refused only because of a bad option or a failed allocation, and all
    failures leave the buffer as it was. *)
Theorem no_code_reuse (tm : Z) (updated : bool) (buf : list Z) (w w' : world)
    (rc : Z) (updated' : bool) (buf' : list Z) :
  cfg_ok buf → - 2 ^ 31 ≤ tm < 2 ^ 31 →
  invalidate_timebased_code tm updated buf w = ((rc, updated', buf'), w') →
  (cfg_lookup key_DISALLOW_REUSE buf = None → rc = 0 ∧ buf' = buf ∧ updated' = updated) ∧
  (∀ v l, cfg_lookup key_DISALLOW_REUSE buf = Some v → blocked_text v l →
    (rc = -1 ∧ buf' = buf ∧ updated' = updated ∧
      (tm ∈ l ∨ (∀ n, ¬ window_is buf n) ∨ failed 4 w)) ∨
    (rc = 0 ∧ updated' = true ∧ (tm ∉ l) ∧ ∃ window v', window_is buf window ∧
      cfg_ok buf' ∧ buf' = cfg_replace key_DISALLOW_REUSE v' buf ∧
      cfg_lookup key_DISALLOW_REUSE buf' = Some v' ∧
      blocked_text v' (filter (λ b, near tm window b = true) l ++ [tm]))).
Proof.
  intros Hc Htm H. unfold invalidate_timebased_code in H. step H.
  pose proof E as E0. apply get_cfg_run in E as [Hk E]. split.
  { intros Hv. unfold get_cfg_value in E0. rewrite Hv in E0. injection E0 as <- _.
    by injection H as <- <- <- _. }
  clear E0.
  intros v l Hv Hb. destruct c as [| |v0]; [congruence| |].
  { injection H as <- <- <- _. left. split; [done|]. split; [done|]. split; [done|]. right; right.
    apply (failed_le 1); [lia|done]. }
  destruct Hk as [|(k & Hk & ->)]; [done|].
  assert (v0 = v) as -> by congruence. step H.
  apply window_size_run in E0 as [(-> & Hbad)|(Hwin & k1 & Hk1 & ->)].
  { injection H as <- <- <- _. left. split; [done|]. split; [done|]. split; [done|]. right.
    destruct Hbad as [?|Hf]; [by left|right]. apply failed_spent in Hf. revert Hf. apply failed_le. lia. }
  pose proof (window_is_range _ _ Hwin) as Hz. rewrite (proj2 (Z.eqb_neq z 0)) in H by lia.
  destruct (blocked_loop_spec tm z (S (length v)) v l [] Hb ltac:(lia)) as [Hre Hkeep].
  destruct (decide (tm ∈ l)) as [Hin|Hin].
  { rewrite (Hre Hin) in H. step H. injection H as <- <- <- _. left. auto. }
  destruct (Hkeep Hin) as (t' & Et & Hb' & _ & Hnl). rewrite Et in H. cbn [app] in H.
  rewrite spent_spent in H. step H. destruct (alloc_spent (spent (k + k1) w)) as [Ew Ef].
  rewrite E0 in Ew, Ef. cbn [fst snd] in Ew, Ef. subst w0.
  destruct b; cbn [negb] in H.
  2: { step H; injection H as <- <- <- _. left. split; [done|]. split; [done|]. split; [done|].
       right; right. specialize (Ef eq_refl). apply failed_spent in Ef. revert Ef. apply failed_le. lia. }
  rewrite spent_spent in H. step H. destruct p as [rc1 b1].
  apply set_cfg_inv in E1 as [(-> & -> & Hf)|(-> & ->)]; injection H as <- <- <- _.
  { left. split; [done|]. split; [done|]. split; [done|]. right; right. apply failed_spent in Hf.
    revert Hf. apply failed_le. lia. }
  right. split; [done|]. split; [done|]. split; [done|].
  pose proof (blocked_text_snoc t' _ tm Hb' Htm) as Hnew.
  assert (val_ok (t' ++ (if t' is [] then [] else [SP]) ++ show_d tm)) as Hval.
  { split; [by eapply blocked_text_plain|].
    destruct t' as [|c t']; [apply show_d_val_ok|]. apply Hnl. by eapply cfg_lookup_no_lead. }
  exists z, (t' ++ (if t' is [] then [] else [SP]) ++ show_d tm).
  split; [done|]. split; [by apply set_lines_wf; [apply key_ok_DISALLOW_REUSE|..]|].
  split; [done|]. split; [|done]. by apply lookup_replace; [apply key_ok_DISALLOW_REUSE|..].
Qed.

(** *** Time-based codes *)

(** The skew stored in the file. *)
Definition stored_skew (buf : list Z) : Z :=
  match cfg_lookup key_TIME_SKEW buf with Some s => s32 (strtol s).1.1 | None => 0 end.

Ltac step_all H :=
  cbn zeta in H;
  lazymatch type of H with
  | ((mret _) _) = _ => injection H as <- <- <- _
  | ((_ ≫= _) _) = _ => step H; step_all H
  | (match ?x with _ => _ end) _ = _ => destruct x; step_all H
  end.

Lemma invalidate_rc (tm : Z) (updated : bool) (buf : list Z) (w w' : world) (rc : Z)
    (updated' : bool) (buf' : list Z) :
  invalidate_timebased_code tm updated buf w = ((rc, updated', buf'), w') → rc = 0 ∨ rc = -1.
Proof. unfold invalidate_timebased_code. intros H. step_all H; auto. Qed.

Lemma check_time_skew_rc (updated : bool) (buf : list Z) (skew tm : Z) (w w' : world) (rc : Z)
    (updated' : bool) (buf' : list Z) :
  check_time_skew updated buf skew tm w = ((rc, updated', buf'), w') → rc = 0 ∨ rc = -1.
Proof. unfold check_time_skew, record_skew. intros H. step_all H; repeat case_match; auto. Qed.

(** Around the step [tm], moved by [skew]: the offsets of the window. *)
Definition in_window (window i : Z) : Prop := - ((window - 1) / 2) ≤ i ≤ window / 2.

Lemma window_offsets (z i : Z) : 1 ≤ z → in_window z i ↔
  - ((z - 1) / 2) ≤ i < - ((z - 1) / 2) + Z.of_nat (Z.to_nat (z / 2 - - ((z - 1) / 2) + 1)).
Proof. unfold in_window. intros Hz. Z.to_euclidean_division_equations; lia. Qed.

(** How a code in range is judged in the window of the file, in the world [w1]
    after the options have been read. *)
Definition judged `{CodeGen} (updated : bool) (buf secret : list Z) (code : Z) (params : Params)
    (tm skew window : Z) (w1 : world) (res : Z * bool * list Z) (w' : world) : Prop :=
  let code_at d := gen_code secret (s32 (tm + d)) in
  (∃ i, in_window window i ∧ code_at (skew + i) = code ∧
     (∀ j, in_window window j → j < i → code_at (skew + j) ≠ code) ∧
     invalidate_timebased_code (s32 (tm + (skew + i))) updated buf w1 = (res, w')) ∨
  ((∀ i, in_window window i → code_at (skew + i) ≠ code) ∧
   ((noskewadj params = false ∧ ∃ d, -1500 < d < 1500 ∧ nearest secret tm code 0 d ∧
       check_time_skew updated buf d tm w1 = (res, w')) ∨
    ((noskewadj params = true ∨ ∀ d, -1500 < d < 1500 → code_at d ≠ code) ∧ res = (1, updated, buf)))).

Lemma try_codes_judged `{CodeGen} (updated : bool) (buf secret : list Z) (code : Z) (params : Params)
    (tm skew : Z) (w w' : world) (res : Z * bool * list Z) :
  try_codes updated buf secret code params tm skew w = (res, w') →
  (res = (-1, updated, buf) ∧ ((∀ n, ¬ window_is buf n) ∨ failed 1 w)) ∨
  ∃ window k, window_is buf window ∧ (k ≤ 1)%nat ∧
    judged updated buf secret code params tm skew window (spent k w) res w'.
Proof.
  intros H0. unfold try_codes in H0. step H0.
  apply window_size_run in E as [(-> & Hbad)|(Hwin & k & Hk & ->)].
  { injection H0 as <- _. by left. }
  right. exists z, k. split; [done|]. split; [done|].
  pose proof (window_is_range _ _ Hwin) as Hz. rewrite (proj2 (Z.eqb_neq z 0)) in H0 by lia. cbn zeta in H0.
  unfold judged. cbn zeta. setoid_rewrite window_offsets; [|lia..].
  destruct (find_code _ _ _ _ _) as [i|] eqn:Ef.
  - apply find_code_some in Ef as (Hi & Hg & Hmin). left. exists i. rewrite !Z.add_assoc.
    split; [done|]. split; [done|]. split; [|done]. intros j Hj Hji. rewrite Z.add_assoc. apply Hmin. lia.
  - pose proof (find_code_none _ _ _ _ _ Ef) as Hnone. right.
    split; [intros i Hi; rewrite Z.add_assoc; by apply Hnone|].
    destruct (noskewadj params); [right; injection H0 as <- _; auto|].
    pose proof (scan_skew_spec secret tm code (25 * 60) 0 ltac:(lia) ltac:(lia)) as Hscan. cbn zeta in Hscan.
    destruct Hscan as [[Es Hno]|[Hd Hnear]].
    + rewrite Es in H0. injection H0 as <- _. right. split; [|done]. right. intros d Hd. apply Hno. lia.
    + rewrite (proj2 (Z.eqb_neq _ _)) in H0 by lia. left. split; [done|]. eexists. split; [|done]. lia.
Qed.

Lemma timebased_run `{CodeGen} (updated : bool) (buf secret : list Z) (code : Z) (params : Params)
    (w w' : world) (res : Z * bool * list Z) :
  check_timebased_code updated buf secret code params w = (res, w') →
  let tm := s32 (Z.quot (w_clock w (w_ticks w)) 30) in
  let proper := is_totp buf = true ∧ 0 ≤ code < 1000000 in
  (¬ proper ∧ res = (1, updated, buf)) ∨
  (proper ∧ res = (-1, updated, buf) ∧ ((∀ n, ¬ window_is buf n) ∨ failed 2 w)) ∨
  (proper ∧ ∃ window k, window_is buf window ∧ (k ≤ 2)%nat ∧
     judged updated buf secret code params tm (stored_skew buf) window
       (spent k (set_ticks (S (w_ticks w)) w)) res w').
Proof.
  intros H0 tm proper. unfold check_timebased_code in H0.
  destruct (is_totp buf) eqn:Et; cbn [negb] in H0.
  2: { injection H0 as <- _. left. split; [|done]. by intros [? _]. }
  destruct ((code <? 0) || (1000000 <=? code)) eqn:Ec.
  { injection H0 as <- _. left. split; [|done]. unfold proper. lia. }
  assert proper as Hp by (unfold proper; split; [done|lia]). right.
  rewrite M_bind_unfold in H0. change (get_timestamp w) with (tm, set_ticks (S (w_ticks w)) w) in H0.
  cbn [fst snd] in H0. set (wt := set_ticks (S (w_ticks w)) w) in *.
  assert (∀ n, failed n wt → failed n w) as Hwt by done.
  step H0. apply get_cfg_run in E as [Hk E].
  assert (c = Oom ∨ (c ≠ Oom ∧
    try_codes updated buf secret code params tm (stored_skew buf) w0 = (res, w'))) as [->|[Hc Ht]].
  { unfold stored_skew. destruct c; rewrite ?E; auto. }
  { injection H0 as <- _. left. split; [done|]. split; [done|]. right. apply Hwt, (failed_le 1); [lia|done]. }
  destruct Hk as [|(k & Hk & ->)]; [done|].
  apply try_codes_judged in Ht as [[-> Hbad]|(window & k1 & Hwin & Hk1 & Hj)]; [left|right].
  - split; [done|]. split; [done|]. destruct Hbad as [?|Hf]; [by left|right].
    apply Hwt. apply failed_spent in Hf. revert Hf. apply failed_le. lia.
  - split; [done|]. exists window, (k + k1)%nat. rewrite spent_spent in Hj. split; [done|]. split; [lia|done].
Qed.

(** C20: [check_timebased_code] on every input.  Without the TOTP_AUTH option
    or with a code that is not below 1000000 it answers 1.  Otherwise it looks
    at the time steps of the window around the current one, moved by the stored
    skew, as many as the WINDOW_SIZE option says: at the first one with this
    code, the answer and the new buffer are those of
    [invalidate_timebased_code] for that step.  When no step of the window has
    the code and the skew may be adjusted, the nearest step within 1500 of the
    current one that has it is handed to [check_time_skew]; when there is none,
    or the skew may not be adjusted, the answer is 1 and nothing changes.  It
    fails with -1 before that only for a bad option or a failed allocation. *)
Theorem timebased_correct `{CodeGen} (updated : bool) (buf secret : list Z) (code : Z) (params : Params)
    (w w' : world) (res : Z * bool * list Z) :
  check_timebased_code updated buf secret code params w = (res, w') →
  let tm := s32 (Z.quot (w_clock w (w_ticks w)) 30) in
  let proper := is_totp buf = true ∧ 0 ≤ code < 1000000 in
  (¬ proper ∧ res = (1, updated, buf)) ∨
  (proper ∧ res = (-1, updated, buf) ∧ ((∀ n, ¬ window_is buf n) ∨ failed 2 w)) ∨
  (proper ∧ ∃ window k, window_is buf window ∧ (k ≤ 2)%nat ∧
     judged updated buf secret code params tm (stored_skew buf) window
       (spent k (set_ticks (S (w_ticks w)) w)) res w').
Proof. apply timebased_run. Qed.

(** ** Witnesses *)

(** A generator for the examples: the code is the moving factor. *)
Definition toy_gen : CodeGen := λ _ c, c mod 1000000.

Definition hotp_cfg : list Z := bytes "SECRET" ++ [LF] ++ sample_line "HOTP_COUNTER 7".

Lemma terminated_first (s t : list Z) (ls : list (list Z)) :
  Forall (λ c, is_eol c = false) s → segs (s ++ [LF] ++ t) = (s ++ [LF]) :: ls → cfg_ok (s ++ [LF] ++ t).
Proof.
  intros Hs E. exists (s ++ [LF]), ls. split; [done|]. exists s, [LF].
  split; [|done]. split; [done|]. split; [done|by repeat constructor].
Qed.

Lemma hotp_cfg_ok : cfg_ok hotp_cfg.
Proof. eapply terminated_first; [repeat constructor|vm_compute; reflexivity]. Qed.

Lemma counterbased_correct_witness :
  check_counterbased_code (H := toy_gen) false hotp_cfg [] 9 7 false idle_world =
    ((0, true, bytes "SECRET" ++ [LF] ++ sample_line "HOTP_COUNTER 10", false), idle_world) ∧
  ∃ i window, 0 ≤ i < window ∧ toy_gen [] (7 + i) = 9.
Proof.
  assert (check_counterbased_code (H := toy_gen) false hotp_cfg [] 9 7 false idle_world =
    ((0, true, bytes "SECRET" ++ [LF] ++ sample_line "HOTP_COUNTER 10", false), idle_world)) as E
    by reflexivity.
  split; [exact E|].
  destruct (counterbased_correct (H := toy_gen) false hotp_cfg [] 9 7 false idle_world _ _ _ _ _ hotp_cfg_ok ltac:(lia) E)
    as [(_ & _ & _ & _ & _ & i & window & _ & Hi & Hg & _)|(_ & _ & [(H & _)|[(H & _)|(H & _)]])];
    [|discriminate H..].
  exists i, window. split; [exact Hi|exact Hg].
Defined.

(** Two earlier entries and a third in a row. *)
Definition skew_cfg : list Z := bytes "SECRET" ++ [LF] ++ sample_line "RESETTING_TIME_SKEW 100+5 101+5".

Lemma skew_cfg_ok : cfg_ok skew_cfg.
Proof. eapply terminated_first; [repeat constructor|vm_compute; reflexivity]. Qed.

Lemma skew_cfg_remembered : remembered skew_cfg [(100, 5); (101, 5)].
Proof.
  split; [simpl; lia|]. split; [|left; vm_compute; reflexivity].
  repeat (constructor; [unfold entry_ok; simpl; lia|]). constructor.
Qed.

(** The third code is accepted; a code with another skew is only remembered. *)
Lemma check_time_skew_correct_witness :
  (check_time_skew false skew_cfg 6 102 idle_world).1.1.1 = 0 ∧
  cfg_lookup key_TIME_SKEW (check_time_skew false skew_cfg 6 102 idle_world).1.2 = Some (bytes "5") ∧
  (check_time_skew false skew_cfg 8 102 idle_world).1.1.1 = -1.
Proof.
  split; [reflexivity|]. split; [|reflexivity].
  destruct (check_time_skew_correct false skew_cfg [(100, 5); (101, 5)] 6 102 idle_world
    (check_time_skew false skew_cfg 6 102 idle_world).2 0 true
    (check_time_skew false skew_cfg 6 102 idle_world).1.2 skew_cfg_ok skew_cfg_remembered)
    as [(_ & H & _)|[H|[(_ & H & _)|(H & _)]]].
  - reflexivity.
  - discriminate H.
  - destruct H as (_ & _ & _ & t0 & s0 & t1 & s1 & E & _ & Hl & _). rewrite Hl.
    destruct E as [E _]. injection E as <- <- <- <-. vm_compute. reflexivity.
  - discriminate H.
  - discriminate H.
Defined.

Lemma scratch_codes_correct_witness :
  check_scratch_codes false (bytes "SECRET" ++ [LF] ++
    ([Opt (bytes " TOTP_AUTH"); Code 12345678; Code 87654321] ≫= item_text)) 87654321 =
  (0, true, bytes "SECRET" ++ [LF] ++ ([Opt (bytes " TOTP_AUTH"); Code 12345678] ≫= item_text)).
Proof.
  apply (scratch_codes_correct false (bytes "SECRET")
    [Opt (bytes " TOTP_AUTH"); Code 12345678; Code 87654321] 87654321).
  - apply (bool_decide_eq_true_1 _). vm_compute. reflexivity.
  - constructor; [|constructor; [|constructor; [|constructor]]]; cbn [item_ok]; [|lia|lia].
    apply (bool_decide_eq_true_1 _). vm_compute. reflexivity.
Defined.

Definition rate_cfg : list Z :=
  bytes "SECRET" ++ [LF] ++ new_line key_RATE_LIMIT (rate_text 2 30 [999980; 999990]).

Lemma rate_cfg_ok : cfg_ok rate_cfg.
Proof. eapply terminated_first; [repeat constructor|vm_compute; reflexivity]. Qed.

(** Two logins in the last 30 seconds; the clock shows 1000000. *)
Lemma rate_limit_correct_witness :
  (rate_limit false rate_cfg idle_world).1 =
    (-1, true, cfg_replace key_RATE_LIMIT (rate_text 2 30 [999990; 1000000]) rate_cfg).
Proof.
  destruct (rate_limit_correct false rate_cfg 2 30 [999980; 999990] idle_world rate_cfg_ok) as [H _];
    [lia|lia|repeat (constructor; [unfold stamp_ok; lia|]); constructor|done|split; vm_compute; congruence|vm_compute; reflexivity|].
  exact H.
Defined.

Definition reuse_cfg : list Z := bytes "SECRET" ++ [LF] ++ sample_line "DISALLOW_REUSE 40 52".

Lemma reuse_cfg_ok : cfg_ok reuse_cfg.
Proof. eapply terminated_first; [repeat constructor|vm_compute; reflexivity]. Qed.

Lemma reuse_cfg_blocked : blocked_text (bytes "40 52") [40; 52].
Proof.
  apply (blocked_cons [] 40 (bytes " 52")); [constructor|lia|done|].
  apply (blocked_cons [SP] 52 []); [by repeat constructor|lia|done|by apply blocked_nil].
Qed.

Lemma no_code_reuse_witness :
  invalidate_timebased_code 53 false reuse_cfg idle_world =
    ((0, true, bytes "SECRET" ++ [LF] ++ sample_line "DISALLOW_REUSE 52 53"), idle_world) ∧
  ∃ v', blocked_text v' [52; 53].
Proof.
  assert (invalidate_timebased_code 53 false reuse_cfg idle_world =
    ((0, true, bytes "SECRET" ++ [LF] ++ sample_line "DISALLOW_REUSE 52 53"), idle_world)) as E by reflexivity.
  split; [exact E|].
  destruct (proj2 (no_code_reuse 53 false reuse_cfg _ _ _ _ _ reuse_cfg_ok ltac:(lia) E)
    (bytes "40 52") [40; 52] ltac:(vm_compute; reflexivity) reuse_cfg_blocked)
    as [(H & _)|(_ & _ & _ & window & v' & _ & _ & _ & _ & Hv)].
  - discriminate H.
  - exists (bytes "52 53").
    apply (blocked_cons [] 52 (bytes " 53")); [constructor|lia|done|].
    apply (blocked_cons [SP] 53 []); [by repeat constructor|lia|done|by apply blocked_nil].
Defined.

Definition totp_cfg : list Z := bytes "SECRET" ++ [LF] ++ sample_line "TOTP_AUTH".

Definition no_options : Params := MkParams None NULLERR true 1 false false 0 PROMPT false.

(** The clock shows 1000000, the step is 33333. *)
Lemma timebased_correct_witness :
  check_timebased_code (H := toy_gen) false totp_cfg [] 33334 no_options idle_world =
    ((0, false, totp_cfg), set_ticks 1 idle_world) ∧
  ∃ window i, window_is totp_cfg window ∧ in_window window i ∧ toy_gen [] (s32 (33333 + (0 + i))) = 33334.
Proof.
  assert (check_timebased_code (H := toy_gen) false totp_cfg [] 33334 no_options idle_world =
    ((0, false, totp_cfg), set_ticks 1 idle_world)) as E by reflexivity.
  split; [exact E|].
  destruct (timebased_correct (H := toy_gen) _ _ _ _ _ _ _ _ E)
    as [[_ H]|[(_ & H & _)|(_ & window & k & Hwin & _ & Hj)]]; [discriminate H..|].
  destruct Hj as [(i & Hi & Hc & _)|(_ & [(H & _)|(_ & H)])].
  - exists window, i. split; [exact Hwin|]. split; [exact Hi|exact Hc].
  - discriminate H.
  - discriminate H.
Defined.
