(* ===== verification/PamMain.v ===== *)
(** * The PAM module (pam_google_authenticator.c)

    The arguments, the place of the state file, privileges, reading and
    replacing the file, the password conversation, and [google_authenticator],
    which composes them with the checks of PamCodes.

    The password database and the permission to switch ids are the class [Os];
    ids are the [int]s that [setfsuid] and [setfsgid] take and return
    ([HAS_SETFSUID] is defined).  [_exit] ends [google_authenticator] with
    [None]. *)

From S2P Require Import Prelude Base32 Sha1 Hmac CString PamWorld CfgFile PamCodes.

(** ** The system *)

Record passwd := Passwd {
  pw_uid : Z;
  pw_gid : Z;
  pw_dir : option (list Z);
}.

(** [getpwnam_r] and [getpwuid_r] (an error is no entry), the user of the PAM
    session, whether the kernel lets [setfsuid] and [setfsgid] go from one id
    to another, and what a [write] that fails has written. *)
Class Os := {
  pam_user : option (list Z);
  getpwnam : list Z → option passwd;
  getpwuid : Z → option passwd;
  may_setfsuid : Z → Z → bool;
  may_setfsgid : Z → Z → bool;
  partial_write : list Z → list Z;
}.

Definition PAM_SUCCESS : Z := 0.
Definition PAM_SESSION_ERR : Z := 14.
Definition PAM_PROMPT_ECHO_OFF : Z := 1.
Definition PAM_PROMPT_ECHO_ON : Z := 2.
Definition INT_MAX : Z := 2 ^ 31 - 1.

Section Module_.
Context `{Os} `{CodeGen}.

(** *** Arguments *)

(** The uid, or -1 ([None]). *)
Definition parse_user (name : list Z) : M (option Z) :=
  let '(l, endptr, errno) := strtol name in
  if negb errno && negb (ptr_eqb endptr name) && (0 <=? l) && (l <=? INT_MAX) then mret (Some l)
  else
    ok ← alloc;
    if negb (ok : bool) then log_message LOG_ERR "Out of memory";; mret None
    else
      match getpwnam name with
      | None => log_message LOG_ERR "Failed to look up user";; mret None
      | Some pw => mret (Some (pw_uid pw))
      end.

Definition set_secret (v : list Z) (p : Params) : Params :=
  MkParams (Some v) (nullok p) (noskewadj p) (echocode p) (fixed_uid p) (no_increment_hotp p)
           (uid p) (pass_mode p) (forward_pass p).
Definition set_nullok (v : nullok_t) (p : Params) : Params :=
  MkParams (secret_filename_spec p) v (noskewadj p) (echocode p) (fixed_uid p) (no_increment_hotp p)
           (uid p) (pass_mode p) (forward_pass p).
Definition set_noskewadj (p : Params) : Params :=
  MkParams (secret_filename_spec p) (nullok p) true (echocode p) (fixed_uid p) (no_increment_hotp p)
           (uid p) (pass_mode p) (forward_pass p).
Definition set_echocode (v : Z) (p : Params) : Params :=
  MkParams (secret_filename_spec p) (nullok p) (noskewadj p) v (fixed_uid p) (no_increment_hotp p)
           (uid p) (pass_mode p) (forward_pass p).
Definition set_user (v : Z) (p : Params) : Params :=
  MkParams (secret_filename_spec p) (nullok p) (noskewadj p) (echocode p) true (no_increment_hotp p)
           v (pass_mode p) (forward_pass p).
Definition set_no_increment (p : Params) : Params :=
  MkParams (secret_filename_spec p) (nullok p) (noskewadj p) (echocode p) (fixed_uid p) true
           (uid p) (pass_mode p) (forward_pass p).
Definition set_pass_mode (v : pass_mode_t) (p : Params) : Params :=
  MkParams (secret_filename_spec p) (nullok p) (noskewadj p) (echocode p) (fixed_uid p)
           (no_increment_hotp p) (uid p) v (forward_pass p).
Definition set_forward (p : Params) : Params :=
  MkParams (secret_filename_spec p) (nullok p) (noskewadj p) (echocode p) (fixed_uid p)
           (no_increment_hotp p) (uid p) (pass_mode p) true.

Definition streq (a b : list Z) : bool := bool_decide (a = b).

(** The loop over [argv]; [memcmp] of a prefix is [starts_with]. *)
Fixpoint parse_argv (argv : list (list Z)) (params : Params) : M (option Params) :=
  match argv with
  | [] => mret (Some params)
  | a :: argv =>
    if starts_with a (bytes "secret=") then parse_argv argv (set_secret (drop 7 a) params)
    else if starts_with a (bytes "user=") then
      r ← parse_user (drop 5 a);
      match r with
      | None => mret None
      | Some uid => parse_argv argv (set_user uid params)
      end
    else if streq a (bytes "try_first_pass") then parse_argv argv (set_pass_mode TRY_FIRST_PASS params)
    else if streq a (bytes "use_first_pass") then parse_argv argv (set_pass_mode USE_FIRST_PASS params)
    else if streq a (bytes "forward_pass") then parse_argv argv (set_forward params)
    else if streq a (bytes "noskewadj") then parse_argv argv (set_noskewadj params)
    else if streq a (bytes "no_increment_hotp") then parse_argv argv (set_no_increment params)
    else if streq a (bytes "nullok") then parse_argv argv (set_nullok NULLOK params)
    else if streq a (bytes "echo-verification-code") || streq a (bytes "echo_verification_code")
    then parse_argv argv (set_echocode PAM_PROMPT_ECHO_ON params)
    else log_message LOG_ERR "Unrecognized option";; mret None
  end.

Definition parse_args (argv : list (list Z)) (params : Params) : M (option Params) :=
  parse_argv argv (set_echocode PAM_PROMPT_ECHO_OFF params).

(** *** The state file's name *)

Definition SECRET : list Z := bytes "~/.google_authenticator".

(** The substitution at [cur], if any: the length of the variable and its
    value; [Some None] is [goto err]. *)
Definition find_var (allow_tilde : bool) (cur : list Z) (pw : option passwd) (username : list Z)
    : option (option (nat * list Z)) :=
  let home := pw ≫= pw_dir in
  if allow_tilde && starts_with cur (bytes "~") then Some ((λ d, (1%nat, d)) <$> home)
  else if starts_with cur (bytes "${HOME}") then Some ((λ d, (7%nat, d)) <$> home)
  else if starts_with cur (bytes "${USER}") then Some (Some (7%nat, username))
  else None.

(** The loop: the text before [offset] and the text from there on. *)
Fixpoint expand (fuel : nat) (done_ cur : list Z) (allow_tilde : bool) (pw : option passwd)
    (username : list Z) : M (option (list Z)) :=
  match fuel with
  | O => mret None
  | S fuel =>
    match cur with
    | [] => mret (Some done_)
    | c :: rest =>
      match find_var allow_tilde cur pw username with
      | Some None => mret None
      | Some (Some (var_len, subst)) =>
        ok ← alloc;
        if negb (ok : bool) then mret None
        else expand fuel (done_ ++ subst) (drop var_len cur) false pw username
      | None => expand fuel (done_ ++ [c]) rest (c =? chr "/") pw username
      end
    end
  end.

Definition location_error : M (option (list Z * Z)) :=
  log_message LOG_ERR "Failed to compute location of secret file";; mret None.

(** The entry of the user, with a home directory; not looked up for a fixed uid. *)
Definition lookup_home (username : list Z) : option passwd :=
  pw ← getpwnam username;
  d ← pw_dir pw;
  if starts_with d (bytes "/") then Some pw else None.

(** [strdup(spec)] and the expansion; the uid is the fixed one or the user's. *)
Definition expand_spec (params : Params) (pw : option passwd) (username : list Z)
    : M (option (list Z * Z)) :=
  let spec := default SECRET (secret_filename_spec params) in
  ok ← alloc;
  if negb (ok : bool) then location_error
  else
    r ← expand (S (length spec)) [] spec true pw username;
    match r with
    | None => location_error
    | Some name => mret (Some (name, s32 (default (uid params) (pw_uid <$> pw))))
    end.

Definition get_secret_filename (params : Params) (username : list Z) : M (option (list Z * Z)) :=
  if fixed_uid params then expand_spec params None username
  else
    ok ← alloc;
    if negb (ok : bool) then location_error
    else
      match lookup_home username with
      | None => location_error
      | Some pw => expand_spec params (Some pw) username
      end.

Definition get_user_name : M (option (list Z)) :=
  match pam_user with
  | Some (c :: s) => mret (Some (c :: s))
  | _ => log_message LOG_ERR "No user name available when checking verification code";; mret None
  end.

(** *** Privileges *)

Definition setfsuid (u : Z) : M Z := λ w,
  (w_fsuid w, if may_setfsuid (w_fsuid w) u then set_ids u (w_fsgid w) w else w).
Definition setfsgid (g : Z) : M Z := λ w,
  (w_fsgid w, if may_setfsgid (w_fsgid w) g then set_ids (w_fsuid w) g w else w).

Definition setuser (uid : Z) : M Z :=
  old_uid ← setfsuid uid;
  u ← setfsuid uid;
  if negb (uid =? u) then setfsuid old_uid;; mret (-1) else mret old_uid.

Definition setgroup (gid : Z) : M Z :=
  old_gid ← setfsgid gid;
  g ← setfsgid gid;
  if negb (gid =? g) then setfsgid old_gid;; mret (-1) else mret old_gid.

(** [setgroup(g) < 0 || setgroup(g) != g] *)
Definition group_not_reset (g : Z) : M bool :=
  r ← setgroup g;
  if r <? 0 then mret true else r ← setgroup g; mret (negb (r =? g)).
Definition user_not_reset (u : Z) : M bool :=
  r ← setuser u;
  if r <? 0 then mret true else r ← setuser u; mret (negb (r =? u)).

(** The switch to [uid] and [gid]: the status, [old_uid] and [old_gid]. *)
Definition switch_ids (uid gid : Z) : M (Z * Z * Z) :=
  gid_o ← setgroup gid;
  uid_o ← setuser uid;
  if uid_o <? 0 then
    bad ← (if 0 <=? gid_o then group_not_reset gid_o else mret false);
    log_message LOG_ERR "Failed to change user id";;
    mret (-1, -1, if bad : bool then gid_o else -1)
  else
    gid_o ← (if gid_o <? 0 then setgroup gid else mret gid_o);
    if gid_o <? 0 then
      bad ← user_not_reset uid_o;
      log_message LOG_ERR "Failed to change group id for user";;
      mret (-1, if bad : bool then uid_o else -1, -1)
    else mret (0, uid_o, gid_o).

Definition drop_privileges (uid : Z) : M (Z * Z * Z) :=
  ok ← alloc;
  if negb (ok : bool) then log_message LOG_ERR "Out of memory";; mret (-1, -1, -1)
  else
    match getpwuid (u32 uid) with
    | None => log_message LOG_ERR "Cannot look up user id";; mret (-1, -1, -1)
    | Some pw => switch_ids uid (s32 (pw_gid pw))
    end.

(** *** Reading and replacing the file *)

(** [sb.st_mode & 03577] must be [0400]. *)
Definition mode_mask : Z := 0x77F.
Definition mode_wanted : Z := 0x100.
Definition st_size (f : file) : Z := Z.of_nat (length (f_data f)).

(** [open] for reading: a file, or [ENOENT] or another error. *)
Inductive open_result := Opened (f : file) | Enoent | OpenError.

Definition open_rdonly (path : list Z) : M open_result := λ w,
  let '(ok, w) := alloc w in
  if ok then (match w_files w !! path with Some f => Opened f | None => Enoent end, w)
  else (OpenError, w).

(** The open file ([size] and [mtime] are its) and the parameters. *)
Definition open_secret_file (path : list Z) (params : Params) (uid : Z)
    : M (option file * Params) :=
  let failed := (log_message LOG_ERR "Failed to read";; mret (None, params)) in
  r ← open_rdonly path;
  match r with
  | Enoent =>
    match nullok params with
    | NULLERR => failed
    | _ => mret (None, set_nullok SECRETNOTFOUND params)
    end
  | OpenError => failed
  | Opened f =>
    stat_ok ← alloc;
    if negb (stat_ok : bool) then failed
    else if negb (Z.land (f_mode f) mode_mask =? mode_wanted) || negb (f_reg f) ||
            negb (f_uid f =? u32 uid)
    then log_message LOG_ERR "Secret file must only be accessible by its user";; mret (None, params)
    else if (st_size f <? 1) || (64 * 1024 <? st_size f)
    then log_message LOG_ERR "Invalid file size";; mret (None, params)
    else mret (Some f, params)
  end.

(** The bytes of the file, when they can be read and hold no NUL. *)
Definition read_file_contents (f : file) : M (option (list Z)) :=
  ok ← alloc;
  read_ok ← (if ok : bool then alloc else mret false);
  if negb (read_ok : bool) then log_message LOG_ERR "Could not read";; mret None
  else if existsb (Z.eqb 0) (f_data f)
  then log_message LOG_ERR "Invalid file contents";; mret None
  else mret (Some (f_data f)).

(** The system calls on the copy: [open] with [O_CREAT|O_EXCL], [stat],
    [write], [rename], [unlink]. *)
Definition open_excl (path : list Z) : M bool := λ w,
  let '(ok, w) := alloc w in
  match ok, w_files w !! path with
  | true, None =>
    (true, set_files (<[path := File mode_wanted true (u32 (w_fsuid w)) (w_clock w (w_ticks w)) []]>
                        (w_files w)) w)
  | _, _ => (false, w)
  end.

Definition stat (path : list Z) : M (option file) := λ w,
  let '(ok, w) := alloc w in (if ok then w_files w !! path else None, w).

Definition write_fd (path buf : list Z) : M bool := λ w,
  let '(ok, w) := alloc w in
  let put d := set_files (alter (λ f, File (f_mode f) (f_reg f) (f_uid f)
                                          (w_clock w (w_ticks w)) d) path (w_files w)) w in
  if ok then (true, put buf) else (false, put (partial_write buf)).

Definition rename (from to : list Z) : M bool := λ w,
  let '(ok, w) := alloc w in
  match ok, w_files w !! from with
  | true, Some f => (true, set_files (<[to := f]> (delete from (w_files w))) w)
  | _, _ => (false, w)
  end.

Definition unlink (path : list Z) : M () := λ w,
  let '(ok, w) := alloc w in ((), if ok then set_files (delete path (w_files w)) w else w).

Definition removal_failure : M Z :=
  log_message LOG_ERR "Failed to update secret file";; mret (-1).

Definition write_file_contents (path : list Z) (old_size old_mtime : Z) (buf : list Z) : M Z :=
  ok ← alloc;
  if negb (ok : bool) then removal_failure
  else
    let tmp_filename := path ++ bytes "~" in
    fd_ok ← open_excl tmp_filename;
    if negb (fd_ok : bool) then removal_failure
    else
      sb ← stat path;
      let same := match sb with
                  | Some f => (st_size f =? old_size) && (f_mtime f =? old_mtime)
                  | None => false
                  end in
      if negb same then
        log_message LOG_ERR "Secret file changed while trying to use scratch code";;
        unlink tmp_filename;; mret (-1)
      else
        written ← write_fd tmp_filename buf;
        renamed ← (if written : bool then rename tmp_filename path else mret false);
        if negb (renamed : bool) then unlink tmp_filename;; removal_failure else mret 0.

(** The decoded key: [base32_decode] in place, in a block of [base32Len + 1]. *)
Definition get_shared_secret (buf : list Z) : M (option (list Z)) :=
  let base32Len := strcspn buf [LF] in
  ok ← alloc;
  if negb (ok : bool) then mret None
  else
    match base32_decode (take base32Len buf ++ [0]) 0 0 (Z.of_nat base32Len) with
    | Some (m, secretLen) =>
      if secretLen <? 1 then
        log_message LOG_ERR "Could not find a valid BASE32 encoded secret";; mret None
      else mret (Some (take (Z.to_nat secretLen) m))
    | None => mret None
    end.

(** *** The password *)

Definition get_first_pass : M (option (list Z)) := λ w,
  match w_authtok w with
  | Some password => let '(ok, w) := alloc w in (if ok then Some password else None, w)
  | None => (None, w)
  end.

(** [converse] takes the next answer; other sessions may have run meanwhile. *)
Definition converse : M (option (list Z)) := λ w,
  match w_answers w with
  | [] => (None, w)
  | a :: l => (a_text a, set_answers l (set_files (default (w_files w) (a_files a)) w))
  end.

Definition request_pass : M (option (list Z)) :=
  resp ← converse;
  match resp with
  | Some (c :: s) => mret resp
  | _ => log_message LOG_ERR "Did not receive verification code from user";; mret resp
  end.

Definition pam_set_authtok (pw : list Z) : M bool := λ w,
  let '(ok, w) := alloc w in (ok, if ok then set_authtok (Some pw) w else w).

(** *** The login *)

(** The password of a mode and [saved_pw]. *)
Definition mode_pass (mode : Z) (params : Params) (saved_pw : option (list Z))
    : M (option (list Z) * option (list Z)) :=
  if mode <? 2 then
    match pass_mode params with
    | PROMPT => mret (None, saved_pw)
    | _ => pw ← get_first_pass; mret (pw, saved_pw)
    end
  else
    match pass_mode params with
    | USE_FIRST_PASS => mret (None, saved_pw)
    | _ =>
      saved_pw ← match saved_pw with None => request_pass | Some _ => mret saved_pw end;
      match saved_pw with
      | None => mret (None, None)
      | Some s => ok ← alloc; mret (if ok : bool then Some s else None, saved_pw)
      end
    end.

(** The password without the code at its end, and the code. *)
Definition split_code (mode : Z) (pw : list Z) : option (list Z * Z) :=
  let expected_len := if Z.odd mode then 8%nat else 6%nat in
  if (length pw <? expected_len)%nat then None
  else
    let tail := drop (length pw - expected_len) pw in
    let ch := default 0 (head tail) in
    if (chr "9" <? ch) || (ch <? if (expected_len =? 8)%nat then chr "1" else chr "0") then None
    else
      let '(l, endptr, errno) := strtol tail in
      if errno || (l <? 0) || negb (bool_decide (endptr = [])) then None
      else Some (take (length pw - expected_len) pw, s32 l).

(** The switch over the kinds of codes. *)
Definition check_codes (updated : bool) (buf secret : list Z) (code : Z) (params : Params)
    (hotp_counter : Z) (must_advance : bool) : M (Z * bool * list Z * bool) :=
  let '(r, updated, buf) := check_scratch_codes updated buf code in
  if r =? 1 then
    if 0 <? hotp_counter
    then check_counterbased_code updated buf secret code hotp_counter must_advance
    else
      '(r, updated, buf) ← check_timebased_code updated buf secret code params;
      mret (r, updated, buf, must_advance)
  else mret (r, updated, buf, must_advance).

(** The variables of the loop over the modes. *)
Record session := Session {
  s_rc : Z;
  s_updated : bool;
  s_buf : list Z;
  s_must_advance : bool;
  s_pw : option (list Z);
  s_saved : option (list Z);
}.

Fixpoint try_modes (modes : list Z) (params : Params) (secret : list Z) (hotp_counter : Z)
    (s : session) : M session :=
  match modes with
  | [] => mret s
  | mode :: modes =>
    if s_updated s || bool_decide (s_pw s ≠ None) then
      mret (Session PAM_SESSION_ERR (s_updated s) (s_buf s) (s_must_advance s) None (s_saved s))
    else
      '(pw, saved_pw) ← mode_pass mode params (s_saved s);
      let s := Session (s_rc s) (s_updated s) (s_buf s) (s_must_advance s) None saved_pw in
      match pw ≫= split_code mode with
      | None => try_modes modes params secret hotp_counter s
      | Some (pw, code) =>
        if (2 <=? mode) && negb (forward_pass params) && negb (bool_decide (pw = []))
        then try_modes modes params secret hotp_counter s
        else
          '(r, updated, buf, must_advance) ←
            check_codes (s_updated s) (s_buf s) secret code params hotp_counter (s_must_advance s);
          if r =? 0 then mret (Session PAM_SUCCESS updated buf must_advance (Some pw) saved_pw)
          else if r =? 1 then
            try_modes modes params secret hotp_counter
              (Session (s_rc s) updated buf must_advance None saved_pw)
          else mret (Session (s_rc s) updated buf must_advance (Some pw) saved_pw)
      end
  end.

(** From [get_hotp_counter] to the error message: [rc], [updated] and the buffer. *)
Definition ask_code (params : Params) (buf secret : list Z) : M (Z * bool * list Z) :=
  hotp_counter ← get_hotp_counter buf;
  s ← try_modes [0; 1; 2; 3] params secret hotp_counter
        (Session PAM_SESSION_ERR false buf false None None);
  rc ← (if (s_rc s =? PAM_SUCCESS) && forward_pass params then
          match s_pw s with
          | None => mret PAM_SESSION_ERR
          | Some pw =>
            ok ← pam_set_authtok pw; mret (if ok : bool then s_rc s else PAM_SESSION_ERR)
          end
        else mret (s_rc s));
  '(rc, updated, buf) ←
    (if negb (no_increment_hotp params) && s_must_advance s then
       '(r, buf) ← set_cfg_value key_HOTP_COUNTER (show_d (s64 (hotp_counter + 1))) (s_buf s);
       mret (if r <? 0 then PAM_SESSION_ERR else rc, true, buf)
     else mret (rc, s_updated s, s_buf s));
  (if rc =? PAM_SUCCESS then mret () else log_message LOG_ERR "Invalid verification code");;
  mret (rc, updated, buf).

(** The conditions from [read_file_contents] on: [rc], [early_updated] or
    [updated], and the buffer. *)
Definition use_file (params : Params) (f : file) : M (Z * bool * list Z) :=
  r ← read_file_contents f;
  match r with
  | None => mret (PAM_SESSION_ERR, false, [])
  | Some buf =>
    r ← get_shared_secret buf;
    match r with
    | None => mret (PAM_SESSION_ERR, false, buf)
    | Some secret =>
      '(r, early_updated, buf) ← rate_limit false buf;
      if r <? 0 then mret (PAM_SESSION_ERR, early_updated, buf)
      else
        '(rc, updated, buf) ← ask_code params buf secret;
        mret (rc, early_updated || updated, buf)
    end
  end.

(** Opening the file, the login, and persisting the new state. *)
Definition login (params : Params) (path : list Z) (uid : Z) : M Z :=
  '(f, params) ← open_secret_file path params uid;
  match f with
  | None => mret (match nullok params with SECRETNOTFOUND => PAM_SUCCESS | _ => PAM_SESSION_ERR end)
  | Some f =>
    '(rc, updated, buf) ← use_file params f;
    if updated : bool then
      r ← write_file_contents path (st_size f) (f_mtime f) buf;
      mret (if r <? 0 then PAM_SESSION_ERR else rc)
    else mret rc
  end.

(** Back to the old ids; [true] is [_exit(1)]. *)
Definition restore_ids (old_uid old_gid : Z) : M bool :=
  (if 0 <=? old_gid then group_not_reset old_gid;; mret () else mret ());;
  if 0 <=? old_uid then
    bad ← user_not_reset old_uid;
    if bad : bool then log_message LOG_EMERG "We switched users, but can't switch back";; mret true
    else mret false
  else mret false.

(** [Params params = { 0 }] *)
Definition params0 : Params := MkParams None NULLERR false 0 false false 0 PROMPT false.

Definition google_authenticator (argv : list (list Z)) : M (option Z) :=
  r ← parse_args argv params0;
  match r with
  | None => mret (Some PAM_SESSION_ERR)
  | Some params =>
    username ← get_user_name;
    match username with
    | None => mret (Some PAM_SESSION_ERR)
    | Some username =>
      r ← get_secret_filename params username;
      match r with
      | None => mret (Some PAM_SESSION_ERR)
      | Some (path, uid) =>
        '(r, old_uid, old_gid) ← drop_privileges uid;
        rc ← (if r =? 0 then login params path uid else mret PAM_SESSION_ERR);
        gone ← restore_ids old_uid old_gid;
        mret (if gone : bool then None else Some rc)
      end
    end
  end.

Definition pam_sm_authenticate := google_authenticator.
Definition pam_sm_setcred (argv : list (list Z)) : M (option Z) := mret (Some PAM_SUCCESS).
Definition pam_sm_open_session := google_authenticator.
End Module_.

(** The codes of the module. *)
Definition module_codes (ctx : SHA1_INFO) : CodeGen := compute_code ctx.

(** ** Frames *)

(** A computation that keeps what [π] shows of the world. *)
Definition keeps {A B} (π : world → B) (m : M A) : Prop := ∀ w, π (m w).2 = π w.

Lemma keeps_ret {A B} (π : world → B) (a : A) : keeps π (mret a).
Proof. done. Qed.

Lemma keeps_bind {A A' B} (π : world → B) (m : M A) (f : A → M A') :
  keeps π m → (∀ a, keeps π (f a)) → keeps π (m ≫= f).
Proof. intros H1 H2 w. rewrite M_bind_unfold. by rewrite H2, H1. Qed.

Definition ids (w : world) : Z * Z := (w_fsuid w, w_fsgid w).

Lemma quiet_keeps {A} (m : M A) : (∀ w, quiet w (m w).2) → keeps ids m.
Proof. intros Hq w. destruct (Hq w) as (_ & Hu & Hg & _). unfold ids. by rewrite Hu, Hg. Qed.

Create HintDb keeps.
#[export] Hint Resolve keeps_ret : keeps.
#[export] Hint Extern 3 (keeps ids _) => (apply quiet_keeps; solve [eauto with quiet]) : keeps.

Ltac keeps_step :=
  match goal with
  | |- keeps _ (_ ≫= _) => apply keeps_bind; [|intros ?]
  | |- keeps _ (match ?x with _ => _ end) => destruct x
  | |- keeps _ (let '(_, _) := ?x in _) => destruct x
  | |- _ => solve [eauto with keeps]
  end.
Ltac keeps := repeat (cbn zeta; keeps_step).

(** A step that is a function of the world. *)
Ltac keeps_prim := intros w; unfold alloc; repeat case_match; simplify_eq/=; done.

Section Frames.
Context `{Os} `{CodeGen}.

Lemma open_rdonly_quiet (path : list Z) (w : world) : quiet w (open_rdonly path w).2.
Proof.
  unfold open_rdonly. pose proof (alloc_quiet w). by destruct (alloc w) as [[|] w1].
Qed.

Lemma open_excl_ids (path : list Z) : keeps ids (open_excl path).
Proof. unfold open_excl. keeps_prim. Qed.
Lemma stat_ids (path : list Z) : keeps ids (stat path).
Proof. unfold stat. keeps_prim. Qed.
Lemma write_fd_ids (path buf : list Z) : keeps ids (write_fd path buf).
Proof. unfold write_fd. keeps_prim. Qed.
Lemma rename_ids (from to : list Z) : keeps ids (rename from to).
Proof. unfold rename. keeps_prim. Qed.
Lemma unlink_ids (path : list Z) : keeps ids (unlink path).
Proof. unfold unlink. keeps_prim. Qed.
Lemma first_pass_ids : keeps ids get_first_pass.
Proof. unfold get_first_pass. keeps_prim. Qed.
Lemma converse_ids : keeps ids converse.
Proof. unfold converse. keeps_prim. Qed.
Lemma set_authtok_ids (pw : list Z) : keeps ids (pam_set_authtok pw).
Proof. unfold pam_set_authtok. keeps_prim. Qed.
End Frames.
#[export] Hint Resolve open_rdonly_quiet : quiet.
#[export] Hint Resolve open_excl_ids stat_ids write_fd_ids rename_ids unlink_ids first_pass_ids
  converse_ids set_authtok_ids : keeps.

Section FramesLogin.
Context `{Os} `{CodeGen}.

Lemma open_secret_file_ids (path : list Z) (params : Params) (uid : Z) :
  keeps ids (open_secret_file path params uid).
Proof. unfold open_secret_file. keeps. Qed.

Lemma write_file_ids (path buf : list Z) (size mtime : Z) :
  keeps ids (write_file_contents path size mtime buf).
Proof. unfold write_file_contents, removal_failure. keeps. Qed.

Lemma mode_pass_ids (mode : Z) (params : Params) (saved : option (list Z)) :
  keeps ids (mode_pass mode params saved).
Proof. unfold mode_pass, request_pass. keeps. Qed.

Lemma check_codes_ids (updated : bool) (buf secret : list Z) (code : Z) (params : Params)
    (c : Z) (must : bool) : keeps ids (check_codes updated buf secret code params c must).
Proof. unfold check_codes. keeps. Qed.
#[local] Hint Resolve open_secret_file_ids write_file_ids mode_pass_ids check_codes_ids : keeps.

Lemma try_modes_ids (params : Params) (secret : list Z) (c : Z) (modes : list Z) :
  ∀ s, keeps ids (try_modes modes params secret c s).
Proof. induction modes as [|mode modes IH]; intros s; cbn [try_modes]; keeps. Qed.
#[local] Hint Resolve try_modes_ids : keeps.

Lemma use_file_ids (params : Params) (f : file) : keeps ids (use_file params f).
Proof. unfold use_file, read_file_contents, get_shared_secret, ask_code. keeps. Qed.
#[local] Hint Resolve use_file_ids : keeps.

Lemma login_ids (params : Params) (path : list Z) (uid : Z) : keeps ids (login params path uid).
Proof. unfold login. keeps. Qed.
End FramesLogin.

Lemma set_ids_self (w : world) : set_ids (w_fsuid w) (w_fsgid w) w = w.
Proof. by destruct w. Qed.

(** *** Switching ids *)

Section Ids.
Context `{Os}.

(** [setuser] and [setgroup] switch, or report -1 and change nothing; staying
    at the current id always works. *)
Lemma setuser_spec (u : Z) (w : world) :
  setuser u w = if decide (w_fsuid w = u ∨ may_setfsuid (w_fsuid w) u = true)
                then (w_fsuid w, set_ids u (w_fsgid w) w) else (-1, w).
Proof.
  unfold setuser, setfsuid. rewrite !M_bind_unfold. cbn [fst snd].
  destruct (may_setfsuid (w_fsuid w) u) eqn:E.
  - rewrite decide_True by auto. cbn [w_fsuid w_fsgid set_ids]. rewrite Z.eqb_refl. cbn [negb mret M_ret].
    by destruct (may_setfsuid u u).
  - rewrite E. destruct (Z.eqb_spec u (w_fsuid w)) as [->|Hne]; cbn [negb].
    + rewrite decide_True by auto. by rewrite set_ids_self.
    + rewrite M_bind_unfold. cbn [fst snd mret M_ret]. rewrite decide_False by (intros [?|?]; congruence).
      destruct (may_setfsuid (w_fsuid w) (w_fsuid w)); rewrite ?set_ids_self; reflexivity.
Qed.

Lemma setgroup_spec (g : Z) (w : world) :
  setgroup g w = if decide (w_fsgid w = g ∨ may_setfsgid (w_fsgid w) g = true)
                 then (w_fsgid w, set_ids (w_fsuid w) g w) else (-1, w).
Proof.
  unfold setgroup, setfsgid. rewrite !M_bind_unfold. cbn [fst snd].
  destruct (may_setfsgid (w_fsgid w) g) eqn:E.
  - rewrite decide_True by auto. cbn [w_fsuid w_fsgid set_ids]. rewrite Z.eqb_refl. cbn [negb mret M_ret].
    by destruct (may_setfsgid g g).
  - rewrite E. destruct (Z.eqb_spec g (w_fsgid w)) as [->|Hne]; cbn [negb].
    + rewrite decide_True by auto. by rewrite set_ids_self.
    + rewrite M_bind_unfold. cbn [fst snd mret M_ret]. rewrite decide_False by (intros [?|?]; congruence).
      destruct (may_setfsgid (w_fsgid w) (w_fsgid w)); rewrite ?set_ids_self; reflexivity.
Qed.

(** Only the ids change. *)
Definition moved (w w' : world) : Prop := ∃ u g, w' = set_ids u g w.

Lemma moved_trans (a b c : world) : moved a b → moved b c → moved a c.
Proof. intros (u & g & ->) (u' & g' & ->). by exists u', g'. Qed.

Lemma user_not_reset_spec (u : Z) (w : world) :
  let '(bad, w') := user_not_reset u w in
  (bad = false → w' = set_ids u (w_fsgid w) w) ∧
  (w' = w ∨ w' = set_ids u (w_fsgid w) w).
Proof.
  unfold user_not_reset. rewrite M_bind_unfold, setuser_spec.
  case_decide as D; cbn [fst snd].
  - destruct (w_fsuid w <? 0) eqn:Es; [split; [done|by right]|].
    rewrite M_bind_unfold, setuser_spec. cbn [w_fsuid w_fsgid set_ids]. rewrite decide_True by auto.
    cbn [fst snd mret M_ret]. split; [done|by right].
  - split; [done|by left].
Qed.

Lemma group_not_reset_spec (g : Z) (w : world) :
  let '(bad, w') := group_not_reset g w in
  (w' = w ∨ w' = set_ids (w_fsuid w) g w) ∧
  (bad = false ∨ may_setfsgid (w_fsgid w) g = true → w' = set_ids (w_fsuid w) g w).
Proof.
  unfold group_not_reset. rewrite M_bind_unfold, setgroup_spec.
  case_decide as D; cbn [fst snd].
  - destruct (w_fsgid w <? 0) eqn:Es; [split; [by right|done]|].
    rewrite M_bind_unfold, setgroup_spec. cbn [w_fsuid w_fsgid set_ids]. rewrite decide_True by auto.
    cbn [fst snd mret M_ret]. split; [by right|done].
  - change (-1 <? 0) with true. cbn. split; [by left|]. intros [|]; [done|]. tauto.
Qed.

(** What [drop_privileges] leaves, by its status and the ids it reports. *)
Lemma switch_ids_spec (uid gid : Z) (w : world) : 0 ≤ w_fsuid w → 0 ≤ w_fsgid w →
  let '(r, old_uid, old_gid, w') := switch_ids uid gid w in
  (r = 0 ∧ old_uid = w_fsuid w ∧ old_gid = w_fsgid w ∧ w_fsuid w' = uid ∧ w_fsgid w' = gid) ∨
  (r = -1 ∧ (old_uid = w_fsuid w ∨ (old_uid = -1 ∧ w_fsuid w' = w_fsuid w)) ∧
   (old_gid = w_fsgid w ∨ (old_gid = -1 ∧ w_fsgid w' = w_fsgid w))).
Proof.
  intros Hu Hg. unfold switch_ids. rewrite M_bind_unfold, setgroup_spec.
  set (D1 := decide _). destruct D1 as [D1|D1]; cbn [fst snd]; rewrite M_bind_unfold, setuser_spec;
    cbn [w_fsuid w_fsgid set_ids]; set (D2 := decide _); destruct D2 as [D2|D2]; cbn [fst snd].
  - rewrite (proj2 (Z.ltb_ge _ _) Hu), (proj2 (Z.ltb_ge _ _) Hg). rewrite M_bind_unfold. cbn [fst snd mret M_ret].
    rewrite (proj2 (Z.ltb_ge _ _) Hg). left. done.
  - change (-1 <? 0) with true. cbv iota. rewrite (proj2 (Z.leb_le _ _) Hg), M_bind_unfold.
    pose proof (group_not_reset_spec (w_fsgid w) (set_ids (w_fsuid w) gid w)) as Hr.
    destruct (group_not_reset _ _) as [bad w1]. cbn [fst snd]. rewrite M_bind_unfold. cbn [fst snd mret M_ret log_message set_log].
    right. cbn [w_fsuid w_fsgid set_ids set_log] in *. destruct Hr as [Hw1 Hr].
    split; [done|]. split.
    { right. split; [done|]. by destruct Hw1 as [-> | ->]. }
    destruct bad; [by left|]. right. split; [done|]. by rewrite Hr by auto.
  - rewrite (proj2 (Z.ltb_ge _ _) Hu). change (-1 <? 0) with true. cbv iota.
    rewrite M_bind_unfold, setgroup_spec. cbn [w_fsuid w_fsgid set_ids].
    rewrite decide_False by done. cbn [fst snd]. change (-1 <? 0) with true. cbv iota. rewrite M_bind_unfold.
    pose proof (user_not_reset_spec (w_fsuid w) (set_ids uid (w_fsgid w) w)) as Hr.
    destruct (user_not_reset _ _) as [bad w1]. cbn [fst snd]. rewrite M_bind_unfold. cbn [fst snd mret M_ret log_message set_log].
    right. cbn [w_fsuid w_fsgid set_ids set_log] in *. destruct Hr as [Hr Hw1]. split; [done|]. split.
    + destruct bad; [by left|]. right. split; [done|]. by rewrite Hr.
    + right. split; [done|]. by destruct Hw1 as [-> | ->].
  - change (-1 <? 0) with true. cbv iota. rewrite M_bind_unfold. cbn [fst snd].
    right. split; [done|]. split; right; done.
Qed.

Lemma restore_ids_spec (old_uid old_gid : Z) (w : world) :
  let '(gone, w') := restore_ids old_uid old_gid w in
  gone = false →
  w_fsuid w' = (if 0 <=? old_uid then old_uid else w_fsuid w) ∧
  ((0 ≤ old_gid → ∀ g, may_setfsgid g old_gid = true) →
   w_fsgid w' = if 0 <=? old_gid then old_gid else w_fsgid w).
Proof.
  unfold restore_ids. rewrite M_bind_unfold.
  match goal with |- context [(?m w).2] => set (w1 := (m w).2) end.
  assert (w_fsuid w1 = w_fsuid w ∧ ((0 ≤ old_gid → ∀ g, may_setfsgid g old_gid = true) →
    w_fsgid w1 = if 0 <=? old_gid then old_gid else w_fsgid w)) as [Hu1 Hg1].
  { unfold w1. destruct (Z.leb_spec 0 old_gid) as [Hle|]; [|done]. rewrite M_bind_unfold. cbn [mret M_ret snd].
    pose proof (group_not_reset_spec old_gid w) as Hr. destruct (group_not_reset _ _) as [bad w2].
    destruct Hr as [Hw2 Hr]. cbn [fst snd]. split; [by destruct Hw2 as [-> | ->]|].
    intros Hm. by rewrite Hr by auto. }
  clearbody w1. cbn [fst]. destruct (0 <=? old_uid).
  - rewrite M_bind_unfold. pose proof (user_not_reset_spec old_uid w1) as Hr.
    destruct (user_not_reset _ _) as [bad w2]. cbn [fst snd]. destruct Hr as [Hr _].
    destruct bad; [done|]. cbn [mret M_ret]. intros _. rewrite Hr by done. cbn [w_fsuid w_fsgid set_ids]. done.
  - cbn [mret M_ret]. intros _. by rewrite Hu1.
Qed.
End Ids.

Section Restored.
Context `{Os} `{CodeGen}.

Lemma parse_argv_quiet (argv : list (list Z)) : ∀ params w, quiet w (parse_argv argv params w).2.
Proof.
  induction argv as [|a argv IH]; intros params w; cbn [parse_argv]; [done|]. unfold parse_user. quiet.
Qed.

Lemma expand_quiet (pw : option passwd) (username : list Z) (fuel : nat) :
  ∀ done_ cur t w, quiet w (expand fuel done_ cur t pw username w).2.
Proof. induction fuel as [|fuel IH]; intros done_ cur t w; cbn [expand]; quiet. Qed.
#[local] Hint Resolve parse_argv_quiet expand_quiet : quiet.

Lemma get_secret_filename_quiet (params : Params) (username : list Z) (w : world) :
  quiet w (get_secret_filename params username w).2.
Proof. unfold get_secret_filename, expand_spec, location_error. quiet. Qed.

Lemma drop_privileges_spec (uid : Z) (w : world) : 0 ≤ w_fsuid w → 0 ≤ w_fsgid w →
  let '(r, old_uid, old_gid, w') := drop_privileges uid w in
  (r = 0 ∧ old_uid = w_fsuid w ∧ old_gid = w_fsgid w ∧ w_fsuid w' = uid) ∨
  (r = -1 ∧ (old_uid = w_fsuid w ∨ (old_uid = -1 ∧ w_fsuid w' = w_fsuid w)) ∧
   (old_gid = w_fsgid w ∨ (old_gid = -1 ∧ w_fsgid w' = w_fsgid w))).
Proof.
  intros Hu Hg. unfold drop_privileges. rewrite M_bind_unfold.
  destruct (alloc_quiet w) as (_ & Hu1 & Hg1 & _). destruct (alloc w) as [[|] w1]; cbn [fst snd negb] in *.
  2: { rewrite M_bind_unfold. cbn. tauto. }
  destruct (getpwuid (u32 uid)) as [pw|].
  2: { rewrite M_bind_unfold. cbn. tauto. }
  pose proof (switch_ids_spec uid (s32 (pw_gid pw)) w1) as Hs.
  rewrite Hu1, Hg1 in Hs. specialize (Hs Hu Hg).
  destruct (switch_ids _ _ _) as [[[r ou] og] w2]. destruct Hs as [(?&?&?&?&?)|?]; tauto.
Qed.

Lemma then_true_keeps {A} (r : bool) (m : M A) (a : A) : keeps ids m →
  keeps ids (if r then m else mret a).
Proof. by destruct r. Qed.

(** C32: whenever the module returns, it has its file-system uid back, whether
    the login succeeded or failed and whatever calls failed on the way; and its
    gid too, when the kernel lets it go back there.  Otherwise the process has
    exited. *)
Theorem privileges_restored (argv : list (list Z)) (w w' : world) (rc : Z) :
  0 ≤ w_fsuid w → 0 ≤ w_fsgid w →
  google_authenticator argv w = (Some rc, w') →
  w_fsuid w' = w_fsuid w ∧
  ((∀ g, may_setfsgid g (w_fsgid w) = true) → w_fsgid w' = w_fsgid w).
Proof.
  intros Hu Hg Hr. unfold google_authenticator in Hr.
  assert (∀ w1, ids w1 = ids w → w_fsuid w1 = w_fsuid w ∧ w_fsgid w1 = w_fsgid w) as Hids
    by (intros w1; unfold ids; by intros [= -> ->]).
  step Hr. apply (f_equal snd) in E as E1. cbn [snd] in E1.
  pose proof (quiet_keeps (parse_args argv params0) (parse_argv_quiet _ _) w) as K1. rewrite E in K1.
  cbn [snd] in K1. clear E E1. destruct o as [params|].
  2: { injection Hr as <- <-. apply Hids in K1. tauto. }
  step Hr. assert (w1 = w0 ∨ ids w1 = ids w0) as K2.
  { unfold get_user_name in E. destruct pam_user as [[|c s]|]; [|injection E as _ <-; by left|];
      rewrite M_bind_unfold in E; injection E as _ <-; by right. }
  assert (ids w1 = ids w) as K2' by (destruct K2; congruence). clear E K2. destruct o as [username|].
  2: { injection Hr as <- <-. apply Hids in K2'. tauto. }
  step Hr. pose proof (quiet_keeps _ (get_secret_filename_quiet params username) w1) as K3.
  rewrite E in K3. cbn [snd] in K3. rewrite K2' in K3. clear E. destruct o as [[path uid]|].
  2: { injection Hr as <- <-. apply Hids in K3. tauto. }
  apply Hids in K3 as [Ku Kg]. pose proof (drop_privileges_spec uid w2) as Hd.
  rewrite Ku, Kg in Hd. specialize (Hd Hu Hg). step Hr. destruct p as [[r ou] og].
  step Hr. assert (ids w4 = ids w3) as K4.
  { rewrite <-(then_true_keeps (r =? 0) (login params path uid) PAM_SESSION_ERR (login_ids _ _ _) w3).
    by rewrite E0. }
  assert (w_fsuid w4 = w_fsuid w3 ∧ w_fsgid w4 = w_fsgid w3) as [Lu Lg]
    by (revert K4; unfold ids; by intros [= -> ->]).
  step Hr. pose proof (restore_ids_spec ou og w4) as Hs. rewrite E1 in Hs. cbv beta iota in Hs.
  destruct b; [discriminate Hr|]. injection Hr as <- <-. destruct (Hs eq_refl) as [Hsu Hsg]. rewrite Hsu.
  destruct Hd as [(_ & -> & -> & _)|(_ & Hou & Hog)].
  - rewrite (proj2 (Z.leb_le _ _) Hu). split; [done|]. intros Hm. rewrite Hsg by auto.
    by rewrite (proj2 (Z.leb_le _ _) Hg).
  - split.
    + destruct Hou as [->|[-> Hou]]; [by rewrite (proj2 (Z.leb_le _ _) Hu)|]. cbn. by rewrite Lu.
    + intros Hm. destruct Hog as [->|[-> Hog]].
      * rewrite Hsg by auto. by rewrite (proj2 (Z.leb_le _ _) Hg).
      * rewrite Hsg by lia. cbn. by rewrite Lg.
Qed.
End Restored.

(** *** Replacing the file *)

Section Files.
Context `{Os}.

Lemma alloc_inv (w w' : world) (ok : bool) : alloc w = (ok, w') →
  w_files w' = w_files w ∧ w_fsuid w' = w_fsuid w ∧ (w_allocs w = [] → ok = true ∧ w_allocs w' = []).
Proof. unfold alloc. destruct (w_allocs w) eqn:E; intros [= <- <-]; split_and!; try done; intros ?; by split; congruence. Qed.

(** What a file-system call answered and left; [calm] is that nothing fails. *)
Definition calm (w : world) : Prop := w_allocs w = [].

Lemma open_excl_inv (path : list Z) (w w' : world) (b : bool) : open_excl path w = (b, w') →
  (calm w → calm w' ∧ (w_files w !! path = None → b = true)) ∧
  if b then w_files w !! path = None ∧
    ∃ t, w_files w' = <[path := File mode_wanted true (u32 (w_fsuid w)) t []]> (w_files w)
  else w_files w' = w_files w.
Proof.
  unfold open_excl, calm. destruct (alloc w) as [ok w1] eqn:E.
  apply alloc_inv in E as (Ef & Eu & Ec). rewrite Ef, Eu.
  destruct ok, (w_files w !! path) as [g|] eqn:El; intros [= <- <-]; cbn [w_allocs w_files set_files].
  - split; [intros Hc; by split; [apply Ec|]|done].
  - split; [intros Hc; by split; [apply Ec|]|]. split; [done|]. eauto.
  - split; [intros Hc; by destruct (Ec Hc)|done].
  - split; [intros Hc; by destruct (Ec Hc)|done].
Qed.

Lemma stat_inv (path : list Z) (w w' : world) (o : option file) : stat path w = (o, w') →
  w_files w' = w_files w ∧ (calm w → calm w' ∧ o = w_files w !! path) ∧
  ∀ f, o = Some f → w_files w !! path = Some f.
Proof.
  unfold stat, calm. destruct (alloc w) as [ok w1] eqn:E. apply alloc_inv in E as (Ef & _ & Ec).
  intros [= <- <-]. rewrite Ef. split; [done|]. split.
  - intros Hc. by destruct (Ec Hc) as [-> ?].
  - by destruct ok.
Qed.

Lemma alter_some (m : gmap (list Z) file) (g : file → file) (i : list Z) (x : file) :
  m !! i = Some x → alter g i m = <[i := g x]> m.
Proof. intros Hx. rewrite <-(insert_id m i x Hx) at 1. by rewrite alter_insert_eq. Qed.

Lemma write_fd_inv (path buf : list Z) (w w' : world) (b : bool) (f : file) :
  write_fd path buf w = (b, w') → w_files w !! path = Some f →
  (calm w → calm w' ∧ b = true) ∧
  ∃ t d, (b = true → d = buf) ∧
    w_files w' = <[path := File (f_mode f) (f_reg f) (f_uid f) t d]> (w_files w).
Proof.
  unfold write_fd, calm. destruct (alloc w) as [ok w1] eqn:E. apply alloc_inv in E as (Ef & _ & Ec).
  rewrite Ef. intros Hr Hf.
  destruct ok; injection Hr as <- <-; cbn [w_files w_allocs set_files]; (split;
    [intros Hc; destruct (Ec Hc); done|]); (eexists _, _; split; [|by rewrite (alter_some _ _ _ _ Hf)]); done.
Qed.

Lemma rename_inv (from to : list Z) (w w' : world) (b : bool) (f : file) :
  rename from to w = (b, w') → w_files w !! from = Some f →
  (calm w → calm w' ∧ b = true) ∧
  if b then w_files w' = <[to := f]> (delete from (w_files w)) else w_files w' = w_files w.
Proof.
  unfold rename, calm. destruct (alloc w) as [ok w1] eqn:E. apply alloc_inv in E as (Ef & _ & Ec).
  rewrite Ef. intros Hr Hf. rewrite Hf in Hr.
  destruct ok; injection Hr as <- <-; cbn [w_files w_allocs set_files]; (split;
    [intros Hc; destruct (Ec Hc); done|done]).
Qed.

Lemma unlink_inv (path : list Z) (w w' : world) (u : ()) : unlink path w = (u, w') →
  (calm w → calm w' ∧ w_files w' = delete path (w_files w)) ∧
  (w_files w' = delete path (w_files w) ∨ w_files w' = w_files w).
Proof.
  unfold unlink, calm. destruct (alloc w) as [ok w1] eqn:E. apply alloc_inv in E as (Ef & _ & Ec).
  rewrite <-Ef. destruct ok; intros [= _ <-]; cbn [w_files w_allocs set_files].
  - split; [|by left]. intros Hc. by destruct (Ec Hc).
  - split; [|by right]. intros Hc. by destruct (Ec Hc).
Qed.

Lemma tmp_ne (path : list Z) : path ++ bytes "~" ≠ path.
Proof. intros E%(f_equal length). rewrite length_app in E. simpl in E. lia. Qed.

(** The check that the file is the one that was read. *)
Definition unchanged (o : option file) (size mtime : Z) : Prop :=
  ∃ f, o = Some f ∧ st_size f = size ∧ f_mtime f = mtime.

Lemma write_file_run (path buf : list Z) (size mtime : Z) (w w' : world) (r : Z) :
  write_file_contents path size mtime buf w = (r, w') →
  let tmp := path ++ bytes "~" in
  ((r = 0 ∧ unchanged (w_files w !! path) size mtime ∧ w_files w !! tmp = None ∧
     ∃ t, w_files w' = <[path := File mode_wanted true (u32 (w_fsuid w)) t buf]> (w_files w)) ∨
   (r = -1 ∧ (∀ q, q ≠ tmp → w_files w' !! q = w_files w !! q))) ∧
  (calm w → r = -1 →
     w_files w' = w_files w ∧
     ¬ (unchanged (w_files w !! path) size mtime ∧ w_files w !! tmp = None)).
Proof.
  intros Hr tmp. unfold write_file_contents, removal_failure in Hr. fold tmp in Hr.
  pose proof (tmp_ne path) as Hne. fold tmp in Hne.
  step Hr. apply alloc_inv in E as (F1 & U1 & C1). destruct b; cbn [negb] in Hr.
  2: { step Hr. injection E as _ <-. injection Hr as <- <-. cbn [w_files log_message set_log]. rewrite F1.
       split; [by right|]. intros Hc. by destruct (C1 Hc). }
  step Hr. apply open_excl_inv in E as [C2 F2]. destruct b; cbn [negb] in Hr.
  2: { step Hr. injection E as _ <-. injection Hr as <- <-. cbn [w_files log_message set_log]. rewrite F2, F1.
       split; [by right|]. intros Hc _. split; [done|]. intros [_ Ht]. destruct (C1 Hc) as [_ Hc0].
       destruct (C2 Hc0) as [_ Hb]. rewrite F1 in Hb. by discriminate Hb. }
  destruct F2 as (Ht & t & F2). rewrite F1 in Ht, F2. rewrite U1 in F2.
  step Hr. apply stat_inv in E as (F3 & C3 & L3).
  rewrite F2 in L3, C3. rewrite lookup_insert_ne in L3, C3 by done.
  destruct (match o with Some f => _ | None => _ end) eqn:Es; cbn [negb] in Hr.
  2: { step Hr. injection E as _ <-. step Hr. apply unlink_inv in E as [C5 F5]. injection Hr as <- <-.
       cbn [w_files set_log] in F5, C5. rewrite F3, F2 in F5, C5. rewrite delete_insert_id in F5, C5 by done.
       split; [right; split; [done|]; intros q Hq; destruct F5 as [-> | ->];
         [done|by rewrite lookup_insert_ne]|].
       intros Hc _. destruct (C1 Hc) as [_ Hc1]. destruct (C2 Hc1) as [Hc2 _]. destruct (C3 Hc2) as [Hc3 Ho].
       split; [by apply C5|]. intros [(f & Hf & Hs & Hm) _]. rewrite Ho, Hf, Hs, Hm, !Z.eqb_refl in Es. done. }
  assert (unchanged (w_files w !! path) size mtime) as Hun.
  { destruct o as [f|]; [|done]. exists f. apply andb_true_iff in Es as [Es1 Es2].
    split; [by apply L3|]. lia. }
  step Hr. apply (write_fd_inv _ _ _ _ _ (File mode_wanted true (u32 (w_fsuid w)) t [])) in E as [C4 (t' & d & Hd & F4)];
    [|by rewrite F3, F2, lookup_insert_eq]. cbn [f_mode f_reg f_uid] in F4.
  rewrite F3, F2, insert_insert_eq in F4.
  assert (calm w → calm w3 ∧ b = true) as C4'.
  { intros Hc. destruct (C1 Hc) as [_ Hc1]. destruct (C2 Hc1) as [Hc2 _]. destruct (C3 Hc2) as [Hc3 _]. by apply C4. }
  step Hr.
  assert ((calm w → b0 = true) ∧ if b0 then b = true ∧
    w_files w4 = <[path := File mode_wanted true (u32 (w_fsuid w)) t' buf]> (w_files w)
    else w_files w4 = w_files w3) as [C5 F5].
  { destruct b.
    - apply (rename_inv _ _ _ _ _ (File mode_wanted true (u32 (w_fsuid w)) t' buf)) in E as [C5 F5];
        [|by rewrite F4, lookup_insert_eq, Hd].
      split; [intros Hc; by apply C5, C4'|]. destruct b0; [|done]. split; [done|].
      by rewrite F5, F4, delete_insert_id.
    - injection E as <- <-. split; [|done]. intros Hc. by destruct (C4' Hc). }
  destruct b0; cbn [negb] in Hr.
  - injection Hr as <- <-. split; [|done]. left. split; [done|]. split; [done|]. split; [done|].
    exists t'. by apply F5.
  - step Hr. apply unlink_inv in E0 as [_ F6]. step Hr. injection E0 as _ <-. injection Hr as <- <-.
    cbn [w_files set_log]. split; [|intros Hc; by discriminate (C5 Hc)]. right. split; [done|].
    intros q Hq. destruct F6 as [-> | ->]; rewrite F5, F4; [rewrite lookup_delete_ne by done|];
      by rewrite lookup_insert_ne.
Qed.

Lemma write_file_inv (path buf : list Z) (size mtime : Z) (w w' : world) (r : Z) :
  write_file_contents path size mtime buf w = (r, w') →
  (r = 0 ∧ unchanged (w_files w !! path) size mtime ∧ w_files w !! (path ++ bytes "~") = None ∧
     ∃ t, w_files w' = <[path := File mode_wanted true (u32 (w_fsuid w)) t buf]> (w_files w)) ∨
  (r = -1 ∧ (∀ q, q ≠ path ++ bytes "~" → w_files w' !! q = w_files w !! q)).
Proof. intros Hr. by apply write_file_run in Hr as [Hr _]. Qed.

(** C17: [write_file_contents] is atomic: either it reports success, and the
    state file, which still was the one that had been read, and no copy was in
    the way, is replaced by the new contents, readable by its owner only; or it
    reports failure and the state file is as before.  In both cases no other
    file than the copy is touched, and when no system call fails the copy is
    gone too, and the failure means that the file had changed or that a copy
    was there. *)
Theorem write_file_atomic (path buf : list Z) (size mtime : Z) (w w' : world) (r : Z) :
  write_file_contents path size mtime buf w = (r, w') →
  let tmp := path ++ bytes "~" in
  ((r = 0 ∧ unchanged (w_files w !! path) size mtime ∧ w_files w !! tmp = None ∧
     ∃ t, w_files w' = <[path := File mode_wanted true (u32 (w_fsuid w)) t buf]> (w_files w)) ∨
   (r = -1 ∧ (∀ q, q ≠ tmp → w_files w' !! q = w_files w !! q))) ∧
  (calm w → r = -1 →
     w_files w' = w_files w ∧
     ¬ (unchanged (w_files w !! path) size mtime ∧ w_files w !! tmp = None)).
Proof. apply write_file_run. Qed.
End Files.

(** ** A login that succeeds *)

(** What the id switches keep. *)
Definition rest (w : world) := (w_files w, w_authtok w, w_answers w, w_clock w).

Lemma quiet_rest {A} (m : M A) : (∀ w, quiet w (m w).2) → keeps rest m.
Proof. intros Hq w. destruct (Hq w) as (Hf & _ & _ & Ha & Hn & Hc). unfold rest. congruence. Qed.
#[export] Hint Extern 3 (keeps rest _) => (apply quiet_rest; solve [eauto with quiet]) : keeps.

(** [w] is a later world of a login that began in [w0]: the token and the clock
    are the same, the answers left are among those of [w0]. *)
Definition later (w0 w : world) : Prop :=
  w_authtok w = w_authtok w0 ∧ w_clock w = w_clock w0 ∧
  (∀ a, a ∈ w_answers w → a ∈ w_answers w0) ∧ ids w = ids w0.

#[export] Instance later_preorder : PreOrder later.
Proof.
  split; [done|]. intros a b c (A1 & B1 & C1 & D1) (A2 & B2 & C2 & D2).
  split_and!; [congruence|congruence|auto|congruence].
Qed.

Lemma quiet_later (w w' : world) : quiet w w' → later w w'.
Proof.
  intros (_ & Hu & Hg & Ha & Hn & Hc). split_and!; try done; [by rewrite Hn|]. unfold ids. by rewrite Hu, Hg.
Qed.

Section Sound.
Context `{Os} `{CodeGen}.

(** The password is the token of an earlier module or an answer of the user,
    as the options have it. *)
Definition offered (params : Params) (w0 : world) (pw : list Z) : Prop :=
  (pass_mode params ≠ PROMPT ∧ w_authtok w0 = Some pw) ∨
  (pass_mode params ≠ USE_FIRST_PASS ∧ ∃ a, a ∈ w_answers w0 ∧ a_text a = Some pw).

(** How the code is accepted, and what that makes of the file: [s_buf], and
    [s_updated] when it has changed.
    - A scratch code is removed.
    - With a positive counter, a code of one of the next counters, as many as
      the window has: the counter moves past it, and is not to be advanced again.
    - Without, a code of a step of the window around one the clock shows, moved
      by the stored skew: with DISALLOW_REUSE the step was not in the list, and
      now is its last entry.
    - Unless [noskewadj], a code of a step less than 1500 away and the third in
      a row with this skew, which is stored. *)
Definition right_code (params : Params) (w0 : world) (buf secret : list Z) (hotp_counter code : Z)
    (s : session) : Prop :=
  (check_scratch_codes false buf code = (0, true, s_buf s) ∧ s_updated s = true ∧
   ∀ key its, LF ∉ key → Forall item_ok its → buf = key ++ [LF] ++ (its ≫= item_text) →
     ∃ its', use_code code its = Some its' ∧ s_buf s = key ++ [LF] ++ (its' ≫= item_text)) ∨
  (0 ≤ code < 1000000 ∧ s_must_advance s = false ∧
   ((0 < hotp_counter ∧ s_updated s = true ∧ ∃ window i, window_is buf window ∧ 0 ≤ i < window ∧
       gen_code secret (hotp_counter + i) = code ∧
       (∀ j, 0 ≤ j < i → gen_code secret (hotp_counter + j) ≠ code) ∧
       s_buf s = cfg_replace key_HOTP_COUNTER (show_d (s64 (hotp_counter + i + 1))) buf) ∨
    (hotp_counter ≤ 0 ∧ is_totp buf = true ∧ ∃ k,
       let tm := s32 (Z.quot (w_clock w0 k) 30) in
       (∃ window i, window_is buf window ∧ in_window window i ∧
          let step := s32 (tm + (stored_skew buf + i)) in
          gen_code secret step = code ∧ recorded step false buf (s_updated s) (s_buf s)) ∨
       (noskewadj params = false ∧ ∃ d, -1500 < d < 1500 ∧ gen_code secret (s32 (tm + d)) = code ∧
          readjusted d tm buf (s_updated s) (s_buf s))))).

Lemma scratch_result (buf : list Z) (code : Z) (updated : bool) :
  (∃ buf', check_scratch_codes updated buf code = (0, true, buf')) ∨
  check_scratch_codes updated buf code = (1, updated, buf).
Proof. unfold check_scratch_codes. destruct (scratch_loop _ _ _ _); eauto. Qed.

Lemma counterbased_inv (updated : bool) (buf secret : list Z) (code c : Z) (must : bool)
    (w w' : world) (r : Z) (u : bool) (b : list Z) (m : bool) :
  check_counterbased_code updated buf secret code c must w = ((r, u, b, m), w') →
  (r = 1 → u = updated ∧ b = buf) ∧
  (r = 0 → 0 ≤ code < 1000000 ∧ u = true ∧ m = false ∧ ∃ window i, window_is buf window ∧ 0 ≤ i < window ∧
     gen_code secret (c + i) = code ∧ (∀ j, 0 ≤ j < i → gen_code secret (c + j) ≠ code) ∧
     b = cfg_replace key_HOTP_COUNTER (show_d (s64 (c + i + 1))) buf).
Proof.
  unfold check_counterbased_code. intros Hr.
  destruct (c <? 1); [by injection Hr as <- <- <- <- _|].
  destruct ((code <? 0) || (1000000 <=? code)) eqn:Ec; [by injection Hr as <- <- <- <- _|].
  step Hr. apply window_size_run in E as [(-> & _)|(Hwin & _)]; [by injection Hr as <- <- <- <- _|].
  pose proof (window_is_range _ _ Hwin) as Hz. rewrite (proj2 (Z.eqb_neq z 0)) in Hr by lia.
  destruct (find_code _ _ _ _ _) as [i|] eqn:Ef; [|by injection Hr as <- <- <- <- _].
  apply find_code_some in Ef as (Hi & Hg & Hmin). step Hr. destruct p as [rc1 b1].
  apply set_cfg_inv in E as [(-> & -> & _)|(-> & ->)]; [by injection Hr as <- <- <- <- _|].
  injection Hr as <- <- <- <- _. split; [done|]. intros _.
  split; [lia|]. split; [done|]. split; [done|]. exists z, i. split; [done|]. split; [lia|done].
Qed.

Lemma timebased_inv (buf secret : list Z) (code : Z) (params : Params)
    (w w' : world) (r : Z) (u : bool) (b : list Z) :
  check_timebased_code false buf secret code params w = ((r, u, b), w') →
  (r = 1 → u = false ∧ b = buf) ∧
  (r = 0 → 0 ≤ code < 1000000 ∧ is_totp buf = true ∧
     let tm := s32 (Z.quot (w_clock w (w_ticks w)) 30) in
     (∃ window i, window_is buf window ∧ in_window window i ∧
        let step := s32 (tm + (stored_skew buf + i)) in
        gen_code secret step = code ∧ recorded step false buf u b) ∨
     (noskewadj params = false ∧ ∃ d, -1500 < d < 1500 ∧ gen_code secret (s32 (tm + d)) = code ∧
        readjusted d tm buf u b)).
Proof.
  intros Hr. apply timebased_run in Hr as [(_ & [= -> -> ->])|[(_ & [= -> -> ->] & _)|
    ([Ht Hc] & window & k & Hwin & _ & Hj)]]; [done|done|].
  destruct Hj as [(i & Hi & Hg & _ & Hinv)|(_ & [(Hn & d & Hd & [Hg _] & Hs)|(_ & [= -> -> ->])])]; [..|done].
  - split; [intros ->; apply invalidate_rc in Hinv; lia|]. intros ->.
    split; [done|]. split; [done|]. left. exists window, i. split; [done|]. split; [done|]. split; [done|].
    by eapply invalidate_recorded.
  - split; [intros ->; apply check_time_skew_rc in Hs; lia|]. intros ->.
    split; [done|]. split; [done|]. right. split; [done|]. exists d. split; [done|]. split; [done|].
    by eapply check_time_skew_readjusted.
Qed.

Lemma check_codes_sound (buf secret : list Z) (code : Z) (params : Params) (c : Z) (must : bool)
    (w w' : world) (r : Z) (u : bool) (b : list Z) (m : bool) :
  check_codes false buf secret code params c must w = ((r, u, b, m), w') →
  (c ≤ 0 → must = false) →
  quiet w w' ∧ (c ≤ 0 → m = false) ∧ (r = 1 → u = false ∧ b = buf) ∧
  (r = 0 → ∀ rc pw saved, right_code params w buf secret c code (Session rc u b m pw saved)).
Proof.
  unfold check_codes, right_code. intros Hr Hmust.
  destruct (scratch_result buf code false) as [[b' Es]|Es]; rewrite Es in Hr.
  - injection Hr as <- <- <- <- <-. split; [done|]. split; [done|]. split; [done|]. intros _ ???.
    left. cbn [s_buf s_updated]. split; [done|]. split; [done|]. intros key its Hk Hi ->.
    rewrite scratch_codes_run in Es by done. destruct (use_code code its) as [its'|]; [|done].
    injection Es as <-. eauto.
  - change (1 =? 1) with true in Hr. cbv iota in Hr. destruct (Z.ltb_spec 0 c) as [Hc|Hc].
    + split; [pose proof (check_counterbased_quiet false buf secret code c must w) as Q; by rewrite Hr in Q|].
      split; [lia|]. apply counterbased_inv in Hr as [H1 H2]. split; [done|]. intros Hr0 ???. right.
      destruct (H2 Hr0) as (Hrng & Hu & Hm & Hi). split; [done|]. split; [done|]. by left.
    + step Hr. destruct p as [[r1 u1] b1]. injection Hr as <- <- <- <- <-.
      split; [pose proof (check_timebased_quiet false buf secret code params w) as Q; by rewrite E in Q|].
      split; [done|]. apply timebased_inv in E as [T1 T0]. split; [done|]. intros Hr0 ???. right.
      destruct (T0 Hr0) as (Hrng & Htotp & Hcase). split; [done|]. split; [by apply Hmust|]. right.
      split; [done|]. split; [done|]. by exists (w_ticks w).
Qed.

Lemma right_code_later (params : Params) (w0 w : world) (buf secret : list Z) (c code : Z) (s : session) :
  later w0 w → right_code params w buf secret c code s → right_code params w0 buf secret c code s.
Proof. intros (_ & Hc & _) Hr. unfold right_code in *. by rewrite Hc in Hr. Qed.

(** *** The password *)

Lemma alloc_later (w w' : world) (ok : bool) : alloc w = (ok, w') → later w w'.
Proof. intros E. pose proof (alloc_quiet w) as Q. rewrite E in Q. by apply quiet_later. Qed.

Lemma request_pass_sound (w w' : world) (o : option (list Z)) : request_pass w = (o, w') →
  later w w' ∧ ∀ s, o = Some s → ∃ a, a ∈ w_answers w ∧ a_text a = Some s.
Proof.
  unfold request_pass, converse. rewrite M_bind_unfold. destruct (w_answers w) as [|a l] eqn:Ea; cbn [fst snd].
  - rewrite M_bind_unfold. intros [= <- <-]. split; [|done]. apply quiet_later. done.
  - intros Hr. assert (o = a_text a ∧ later w w') as [-> Hl].
    { destruct (a_text a) as [[|x s]|] eqn:Et; rewrite ?M_bind_unfold in Hr; injection Hr as <- <-;
        (split; [done|]); (split_and!; try done); cbn [w_answers set_log set_answers];
        intros b Hb; rewrite Ea; by right. }
    split; [done|]. intros s Hs. exists a. split; [by left|done].
Qed.

Lemma mode_pass_sound (mode : Z) (params : Params) (saved saved' pw : option (list Z)) (w0 w w' : world) :
  mode_pass mode params saved w = ((pw, saved'), w') → later w0 w →
  (∀ s, saved = Some s → offered params w0 s) →
  later w0 w' ∧ (∀ s, saved' = Some s → offered params w0 s) ∧ (∀ s, pw = Some s → offered params w0 s).
Proof.
  intros Hr Hl Hs. unfold mode_pass in Hr. destruct (mode <? 2).
  - destruct (pass_mode params) eqn:Em; [by injection Hr as <- <- <-|..];
      (rewrite M_bind_unfold in Hr; unfold get_first_pass in Hr;
       destruct (w_authtok w) as [p|] eqn:Ep; cbn [fst snd] in Hr; [|by injection Hr as <- <- <-];
       destruct (alloc w) as [ok w1] eqn:E; injection Hr as <- <- <-; apply alloc_later in E;
       (split; [by etrans|]); (split; [done|]); destruct ok; [|done]; intros s [= <-]; left;
       rewrite Em; split; [done|]; by rewrite <-(proj1 Hl)).
  - assert (pass_mode params ≠ USE_FIRST_PASS →
      ((saved' ← match saved with None => request_pass | Some _ => mret saved end;
        match saved' with
        | None => mret (None, None)
        | Some s => ok ← alloc; mret (if ok : bool then Some s else None, saved')
        end) w = (pw, saved', w')) →
      later w0 w' ∧ (∀ s, saved' = Some s → offered params w0 s) ∧ (∀ s, pw = Some s → offered params w0 s)) as Hgo.
    { intros Hm Hx. step Hx.
      assert (later w0 w1 ∧ ∀ s, o = Some s → offered params w0 s) as [Hl1 Ho].
      { destruct saved as [s|]; [by injection E as <- <-|]. apply request_pass_sound in E as [Hl1 Ha].
        split; [by etrans|]. intros s Hso. right. split; [done|]. destruct (Ha s Hso) as (a & Hin & Ht).
        exists a. split; [|done]. by apply Hl. }
      destruct o as [s|]; [|by injection Hx as <- <- <-]. step Hx. injection Hx as <- <- <-.
      apply alloc_later in E0. split; [by etrans|]. split; [done|]. by destruct b. }
    destruct (pass_mode params); [by apply Hgo| by apply Hgo |by injection Hr as <- <- <-].
Qed.

(** *** The loop over the modes *)

(** How the loop ends: with an error, or with a password offered by the user
    that ends in a right code. *)
Definition granted (params : Params) (w0 : world) (buf secret : list Z) (c : Z) (s : session) : Prop :=
  ∃ mode pw prefix code, 0 ≤ mode < 4 ∧ offered params w0 pw ∧
    split_code mode pw = Some (prefix, code) ∧ s_pw s = Some prefix ∧
    (2 ≤ mode → forward_pass params = false → prefix = []) ∧
    right_code params w0 buf secret c code s.

Lemma try_modes_sound (params : Params) (secret buf : list Z) (c : Z) (w0 : world) (modes : list Z) :
  Forall (λ mode, 0 ≤ mode < 4) modes →
  ∀ s w s' w', try_modes modes params secret c s w = (s', w') →
    later w0 w → s_rc s = PAM_SESSION_ERR → s_updated s = false → s_buf s = buf → s_pw s = None →
    (c ≤ 0 → s_must_advance s = false) →
    (∀ x, s_saved s = Some x → offered params w0 x) →
    later w0 w' ∧
    (s_rc s' = PAM_SESSION_ERR ∨ (s_rc s' = PAM_SUCCESS ∧ granted params w0 buf secret c s')).
Proof.
  intros Hm. induction Hm as [|mode modes Hmode Hm IH]; intros s w s' w' Hr Hl Hrc Hu Hb Hp Hma Hs; cbn [try_modes] in Hr.
  { injection Hr as <- <-. auto. }
  rewrite Hu, Hp, bool_decide_false in Hr by auto. cbn [orb] in Hr.
  step Hr. destruct p as [pw saved']. apply (mode_pass_sound _ _ _ _ _ w0) in E as (Hl1 & Hs1 & Hpw); [|done|done].
  assert (∀ st, try_modes modes params secret c st w1 = (s', w') → s_rc st = s_rc s → s_updated st = false →
    s_buf st = buf → s_pw st = None → s_must_advance st = s_must_advance s → s_saved st = saved' → later w0 w' ∧
    (s_rc s' = PAM_SESSION_ERR ∨ (s_rc s' = PAM_SUCCESS ∧ granted params w0 buf secret c s'))) as Hnext.
  { intros st Hst E1 E2 E3 E4 E5 E6. apply (IH _ _ _ _ Hst); try done; [congruence|by rewrite E5|by rewrite E6]. }
  cbn [s_rc s_updated s_buf s_must_advance s_saved] in Hr.
  destruct (pw ≫= split_code mode) as [[prefix code]|] eqn:Esp; [|by apply (Hnext _ Hr)].
  destruct pw as [pw|]; [|done]. cbn in Esp. specialize (Hpw _ eq_refl).
  destruct ((2 <=? mode) && negb (forward_pass params) && negb (bool_decide (prefix = []))) eqn:Eg;
    [by apply (Hnext _ Hr)|].
  step Hr. destruct p as [[[r u] b] m]. rewrite Hb in E. pose proof E as E'.
  apply check_codes_sound in E' as (Q & Hm1 & H1 & H0'); [|done]. apply quiet_later in Q.
  assert (later w0 w2) as Hl2 by (by transitivity w1).
  destruct (Z.eqb_spec r 0) as [->|Hr0].
  - injection Hr as <- <-. split; [done|]. right. split; [done|].
    exists mode, pw, prefix, code. split; [done|]. split; [done|]. split; [done|]. split; [done|]. split.
    + intros Hm2 Hf. rewrite Hf, (proj2 (Z.leb_le _ _) Hm2) in Eg. cbn [andb negb] in Eg.
      apply negb_false_iff, bool_decide_eq_true in Eg. done.
    + apply (right_code_later _ _ w1); [done|]. by apply H0'.
  - destruct (Z.eqb_spec r 1) as [->|Hr1].
    + destruct (H1 eq_refl) as [-> ->]. apply (IH _ _ _ _ Hr); done.
    + injection Hr as <- <-. auto.
Qed.

Lemma granted_later (params : Params) (w0 w : world) (buf secret : list Z) (c : Z) (s : session) :
  later w0 w → granted params w buf secret c s → granted params w0 buf secret c s.
Proof.
  intros Hl (mode & pw & prefix & code & Hm & Ho & Hs & Hp & Hf & Hc).
  exists mode, pw, prefix, code. split; [done|]. split.
  { destruct Hl as (Ha & _ & Hin & _). destruct Ho as [[Hx Ho]|(Hx & a & Hina & Ht)]; [left|right].
    - split; [done|congruence].
    - split; [done|]. exists a. auto. }
  split; [done|]. split; [done|]. split; [done|]. by apply (right_code_later _ _ w).
Qed.

(** *** The file *)

(** What [open_secret_file] demands of the file: readable by its owner, the
    user, and by nobody else, regular, and of a size from 1 to 64 kB. *)
Definition private (f : file) (uid : Z) : Prop :=
  Z.land (f_mode f) mode_mask = mode_wanted ∧ f_reg f = true ∧ f_uid f = u32 uid ∧
  1 ≤ st_size f ≤ 65536.

Lemma set_cfg_later (key val buf : list Z) (w w' : world) (r : Z * list Z) :
  set_cfg_value key val buf w = (r, w') → later w w'.
Proof. intros E. pose proof (set_cfg_value_quiet key val buf w) as Q. rewrite E in Q. by apply quiet_later. Qed.

(** The changes of the check and, when it asks for that and the options admit
    it, of the counter. *)
Definition advanced (params : Params) (c : Z) (s : session) (updated : bool) (buf' : list Z) : Prop :=
  if negb (no_increment_hotp params) && s_must_advance s
  then updated = true ∧ buf' = cfg_replace key_HOTP_COUNTER (show_d (s64 (c + 1))) (s_buf s)
  else updated = s_updated s ∧ buf' = s_buf s.

Lemma ask_code_sound (params : Params) (buf secret : list Z) (w w' : world) (updated : bool) (buf' : list Z) :
  ask_code params buf secret w = ((PAM_SUCCESS, updated, buf'), w') →
  ∃ c s, c = (get_hotp_counter buf w).1 ∧ granted params w buf secret c s ∧ advanced params c s updated buf'.
Proof.
  unfold ask_code. intros Hr. step Hr. exists z. step Hr. exists s. split; [done|].
  assert (later w w0) as Hl.
  { pose proof (get_hotp_counter_quiet buf w) as Q. rewrite E in Q. by apply quiet_later. }
  apply (try_modes_sound params secret buf z w) in E0 as [_ Hs];
    [|repeat (constructor; [lia|]); constructor|done|done|done|done|done|done|done].
  step Hr. step Hr. destruct p as [[rc2 u2] b2].
  assert ((rc2 = z0 ∧ advanced params z s u2 b2) ∨ rc2 = PAM_SESSION_ERR) as Hadv.
  { unfold advanced. destruct (negb _ && _).
    - step E1. destruct p as [r1 b1].
      apply set_cfg_inv in E2 as [(-> & -> & _)|(-> & ->)]; injection E1 as <- <- <- _; [by right|].
      left. done.
    - injection E1 as <- <- <- _. left. done. }
  step Hr. injection Hr as -> <- <- <-. destruct Hadv as [[Hz Hadv]|Hadv]; [|discriminate Hadv].
  destruct Hs as [Hs|[_ Hg]]; [|done]. exfalso. rewrite Hs in E0.
  change (PAM_SESSION_ERR =? PAM_SUCCESS) with false in E0. cbn [andb] in E0.
  injection E0 as <- <-. discriminate Hz.
Qed.

Lemma use_file_sound (params : Params) (f : file) (w w' : world) (updated : bool) (buf' : list Z) :
  use_file params f w = ((PAM_SUCCESS, updated, buf'), w') →
  ∃ secret w1 w2 r early buf c s, quiet w w1 ∧ (get_shared_secret (f_data f) w1).1 = Some secret ∧
    (0 ∉ f_data f) ∧ (rate_limit false (f_data f) w2).1 = (r, early, buf) ∧ 0 ≤ r ∧
    granted params w buf secret c s ∧ (∃ w3, c = (get_hotp_counter buf w3).1) ∧
    ∃ u, updated = early || u ∧ advanced params c s u buf'.
Proof.
  unfold use_file. intros Hr. step Hr.
  pose proof E as E'. unfold read_file_contents in E'. step E'. step E'.
  assert (quiet w w0) as Q0.
  { transitivity w1; [pose proof (alloc_quiet w) as Q; by rewrite E0 in Q|].
    transitivity w2; [destruct b; [pose proof (alloc_quiet w1) as Q; by rewrite E1 in Q|by injection E1 as _ <-]|].
    destruct b0; cbn [negb] in E'; [|step E'; by injection E2 as _ <-; injection E' as _ <-].
    destruct (existsb _ _); [step E'; by injection E2 as _ <-; injection E' as _ <-|by injection E' as _ <-]. }
  destruct o as [buf0|]; [|discriminate Hr].
  assert (buf0 = f_data f ∧ 0 ∉ f_data f) as [-> Hnul].
  { destruct b0; cbn [negb] in E'; [|by step E']. destruct (existsb _ _) eqn:Ex; [by step E'|].
    injection E' as <- _. split; [done|]. intros Hin. apply list_elem_of_In in Hin.
    assert (existsb (Z.eqb 0) (f_data f) = true) as Ht; [|congruence].
    apply existsb_exists. by exists 0. }
  step Hr. destruct o as [secret|]; [|discriminate Hr]. step Hr. destruct p as [[r early] buf].
  destruct (r <? 0) eqn:Er; [discriminate Hr|]. step Hr. destruct p as [[rc u] b1].
  injection Hr as -> <- <- <-. pose proof E4 as Hask. apply ask_code_sound in Hask as (c & s & Hc & Hg & Hadv).
  assert (later w w4) as Hl.
  { transitivity w0; [by apply quiet_later|].
    assert (quiet w0 w3) as Q3.
    { unfold get_shared_secret in E2. pose proof (eq_refl : (λ x : option (list Z) * world, x.2)
        (Some secret, w3) = w3) as Ew. rewrite <-E2 in Ew. rewrite <-Ew. cbv beta. quiet. }
    transitivity w3; [by apply quiet_later|].
    pose proof (rate_limit_quiet false (f_data f) w3) as Q. rewrite E3 in Q. by apply quiet_later. }
  exists secret, w0, w3, r, early, buf, c, s. split; [done|]. split; [by rewrite E2|]. split; [done|].
  split; [by rewrite E3|]. split; [lia|]. split; [by apply (granted_later _ _ w4)|].
  split; [by exists w4|by exists u].
Qed.

Lemma shared_secret_spec (buf secret : list Z) (w : world) :
  0 ∉ buf → (get_shared_secret buf w).1 = Some secret →
  Spec.decode (take (strcspn buf [LF]) buf) = Some secret ∧ secret ≠ [].
Proof.
  intros Hz Hr. unfold get_shared_secret in Hr. rewrite M_bind_unfold in Hr.
  destruct (alloc w) as [[|] w1]; cbn [fst snd negb] in Hr; [|done].
  set (n := strcspn buf [LF]) in *. set (key := take n buf) in *.
  assert (length key = n) as Hn.
  { unfold key. rewrite length_take. pose proof (span_by_le (λ c, negb (in_set [LF] c)) buf). unfold n, strcspn. lia. }
  pose proof (base32_decode_key (key ++ [0]) 0 0 (Z.of_nat n) key) as Hd.
  assert (cstr_at (key ++ [0]) 0 key) as Hc.
  { split.
    - apply Forall_forall. intros c Hin ->. apply Hz. apply elem_of_take in Hin as (i & Hi & _). by apply list_elem_of_lookup_2 in Hi.
    - unfold load_range. rewrite decide_True by (rewrite length_app; simpl; lia).
      rewrite drop_0, take_ge; [done|rewrite length_app; simpl; lia]. }
  specialize (Hd Hc ltac:(lia) ltac:(rewrite length_app; simpl; lia) ltac:(lia)).
  destruct (Spec.decode key) as [out|].
  - destruct Hd as (m' & Hrun & Hld). rewrite Hrun in Hr. destruct (Z.ltb_spec (Z.of_nat (length out)) 1).
    { by rewrite M_bind_unfold in Hr. }
    cbn [fst mret M_ret] in Hr. rewrite Nat2Z.id in Hr. unfold load_range in Hld. rewrite drop_0 in Hld.
    case_decide; [|done]. injection Hld as Hld. rewrite Hld in Hr. injection Hr as <-.
    split; [done|]. destruct out; [simpl in *; lia|done].
  - destruct Hd as (m' & Hrun). rewrite Hrun in Hr. cbn in Hr. done.
Qed.

Lemma open_secret_file_inv (path : list Z) (params params' : Params) (uid : Z) (w w' : world) (o : option file) :
  open_secret_file path params uid w = ((o, params'), w') →
  quiet w w' ∧
  match o with
  | Some f => params' = params ∧ w_files w !! path = Some f ∧ private f uid
  | None => params' = params ∨
      (nullok params ≠ NULLERR ∧ w_files w !! path = None ∧ params' = set_nullok SECRETNOTFOUND params)
  end.
Proof.
  intros Hr. unfold open_secret_file in Hr. step Hr.
  assert (quiet w w0) as Q by (pose proof (open_rdonly_quiet path w) as Q; by rewrite E in Q).
  assert (match o0 with Opened f => w_files w !! path = Some f | Enoent => w_files w !! path = None
          | OpenError => True end) as Ho.
  { unfold open_rdonly in E. destruct (alloc w) as [ok w1] eqn:Ea. apply alloc_inv in Ea as (Ef & _).
    rewrite Ef in E. destruct ok; injection E as <- _; [|done]. by destruct (w_files w !! path). }
  assert (∀ wx, quiet w wx → (log_message LOG_ERR "Failed to read";; mret (None, params)) wx = (o, params', w') →
    quiet w w' ∧ o = None ∧ params' = params) as Hfail.
  { intros wx Hq Hx. rewrite M_bind_unfold in Hx. injection Hx as <- <- <-. done. }
  destruct o0 as [f| |].
  - step Hr. assert (quiet w w1) as Q1.
    { etrans; [exact Q|]. pose proof (alloc_quiet w0) as Qa. by rewrite E0 in Qa. }
    destruct b; cbn [negb] in Hr; [|by apply (Hfail _ Q1) in Hr as (? & -> & ->); auto].
    destruct (negb (_ =? _) || _ || _) eqn:Ep.
    { rewrite M_bind_unfold in Hr. injection Hr as <- <- <-. auto. }
    destruct ((st_size f <? 1) || (64 * 1024 <? st_size f)) eqn:Es.
    { rewrite M_bind_unfold in Hr. injection Hr as <- <- <-. auto. }
    injection Hr as <- <- <-. split; [done|]. split; [done|]. split; [done|].
    rewrite !orb_false_iff, !negb_false_iff in Ep. destruct Ep as [[? ?] ?].
    split; [lia|]. split; [done|]. split; lia.
  - destruct (nullok params) eqn:En; [by apply (Hfail _ Q) in Hr as (? & -> & ->); auto|..];
      injection Hr as <- <- <-; (split; [done|]); right; done.
  - apply (Hfail _ Q) in Hr as (? & -> & ->); auto.
Qed.

Lemma no_session (nk : nullok_t) : nk ≠ SECRETNOTFOUND →
  match nk with SECRETNOTFOUND => PAM_SUCCESS | _ => PAM_SESSION_ERR end ≠ PAM_SUCCESS.
Proof. by destruct nk. Qed.

(** The state file [f] of the user [uid] let the user in: it is private, holds
    a base32 secret and no NUL, the rate limit allowed the attempt, and the
    loop granted the login.  When that changed the file, the new contents were
    put in its place, with the right contents [buf'], and the file was still the
    one that had been read. *)
Definition logged_in (params : Params) (path : list Z) (uid : Z) (w : world) (files : gmap (list Z) file) : Prop :=
  ∃ f secret early buf c s, w_files w !! path = Some f ∧ private f uid ∧ (0 ∉ f_data f) ∧
    Spec.decode (take (strcspn (f_data f) [LF]) (f_data f)) = Some secret ∧ secret ≠ [] ∧
    (∃ r w2, (rate_limit false (f_data f) w2).1 = (r, early, buf) ∧ 0 ≤ r) ∧
    (∃ w3, c = (get_hotp_counter buf w3).1) ∧ granted params w buf secret c s ∧
    ∃ u buf', advanced params c s u buf' ∧ (early || u = true → ∃ wx,
        unchanged (w_files wx !! path) (st_size f) (f_mtime f) ∧
        ∃ t, files !! path = Some (File mode_wanted true (u32 (w_fsuid w)) t buf')).

Lemma login_sound (params : Params) (path : list Z) (uid : Z) (w w' : world) :
  nullok params ≠ SECRETNOTFOUND →
  login params path uid w = (PAM_SUCCESS, w') →
  (nullok params = NULLOK ∧ w_files w !! path = None) ∨
  logged_in params path uid w (w_files w').
Proof.
  intros Hnk Hr. unfold login in Hr. step Hr. destruct p as [o params'].
  apply open_secret_file_inv in E as [Q Ho]. destruct o as [f|].
  2: { injection Hr as Hr _. destruct Ho as [->|(Hn & Hf & ->)].
       - by apply no_session in Hr.
       - left. split; [|done]. by destruct (nullok params). }
  destruct Ho as (-> & Hf & Hp). right. step Hr. destruct p as [[rc updated] buf'].
  assert (rc = PAM_SUCCESS ∧ (updated = true → unchanged (w_files w1 !! path) (st_size f) (f_mtime f) ∧
    ∃ t, w_files w' !! path = Some (File mode_wanted true (u32 (w_fsuid w1)) t buf'))) as [-> Hw].
  { destruct updated; [|by injection Hr as -> _]. step Hr.
    destruct (z <? 0) eqn:Ez; [discriminate Hr|]. injection Hr as -> ->. split; [done|]. intros _.
    apply write_file_inv in E0 as [(_ & Hu & _ & t & ->)|(-> & _)]; [|done].
    split; [done|]. exists t. by rewrite lookup_insert_eq. }
  pose proof (use_file_ids params f w0) as Hids. rewrite E in Hids. cbn [snd] in Hids. apply (f_equal fst) in Hids.
  cbn [ids fst] in Hids.
  apply use_file_sound in E as (secret & w2 & w3 & r & early & buf & c & s & Q2 & Hs & Hz & Hrl & Hr0 & Hg & (w4 & Hc) & u & -> & Hadv).
  apply shared_secret_spec in Hs as [Hs Hne]; [|done].
  exists f, secret, early, buf, c, s. split; [done|]. split; [done|]. split; [done|]. split; [done|].
  split; [done|]. split; [by exists r, w3|]. split; [by exists w4|].
  split; [apply (granted_later _ _ w0); [by apply quiet_later|done]|].
  exists u, buf'. split; [done|]. intros Hup. exists w1. destruct Q as (_ & Hu & _).
  rewrite <-Hu, <-Hids. by apply Hw.
Qed.

(** *** The whole module *)

Lemma parse_argv_nullok (argv : list (list Z)) : ∀ params params' w w',
  parse_argv argv params w = (Some params', w') →
  nullok params ≠ SECRETNOTFOUND → nullok params' ≠ SECRETNOTFOUND.
Proof.
  induction argv as [|a argv IH]; intros params params' w w' Hr Hn; cbn [parse_argv] in Hr.
  { by injection Hr as <- <-. }
  repeat match type of Hr with
  | (if ?b then _ else _) _ = _ => destruct b; [try (eapply IH; [exact Hr|done])|]
  end; [|by rewrite M_bind_unfold in Hr].
  step Hr. destruct o; [by eapply IH|done].
Qed.

Lemma drop_rest (uid : Z) : keeps rest (drop_privileges uid).
Proof.
  assert (∀ u, keeps rest (setuser u)) as Hu.
  { intros u w. rewrite setuser_spec. by case_decide. }
  assert (∀ g, keeps rest (setgroup g)) as Hg.
  { intros g w. rewrite setgroup_spec. by case_decide. }
  unfold drop_privileges, switch_ids, group_not_reset, user_not_reset. keeps.
Qed.

Lemma restore_rest (u g : Z) : keeps rest (restore_ids u g).
Proof.
  assert (∀ u, keeps rest (setuser u)) as Hu.
  { intros x w. rewrite setuser_spec. by case_decide. }
  assert (∀ g, keeps rest (setgroup g)) as Hg.
  { intros x w. rewrite setgroup_spec. by case_decide. }
  unfold restore_ids, group_not_reset, user_not_reset. keeps.
Qed.

(** C1: the module answers PAM_SUCCESS only when the administrator allowed
    users without a state file and there is none, or when the state file of the
    user, found where the options say, is a private file of the user with a
    secret, the rate limit allows another attempt, and a password that the
    options admit ends in a right code; without password forwarding nothing
    else may precede the code.  The code is used up before the module returns,
    in one replacement of the very file that was read: an accepted scratch code
    is gone from the new file, the counter in it is the one after the accepted
    code, and with DISALLOW_REUSE the accepted step, which was not in the list,
    is in the list.  Only a code that is accepted because it is the third in a
    row with another skew leaves that skew and nothing else. *)
Theorem authentication_sound (argv : list (list Z)) (w w' : world) :
  0 ≤ w_fsuid w → 0 ≤ w_fsgid w →
  google_authenticator argv w = (Some PAM_SUCCESS, w') →
  ∃ params username path uid wx wy,
    (parse_args argv params0 w).1 = Some params ∧ pam_user = Some username ∧
    (get_secret_filename params username wx).1 = Some (path, uid) ∧
    w_fsuid wy = uid ∧ rest wy = rest w ∧
    ((nullok params = NULLOK ∧ w_files w !! path = None) ∨
     logged_in params path uid wy (w_files w')).
Proof.
  intros Hu Hg Hr. unfold google_authenticator in Hr.
  step Hr. assert (quiet w w0) as Q0 by (pose proof (parse_argv_quiet argv (set_echocode PAM_PROMPT_ECHO_OFF params0) w) as Q;
    unfold parse_args in E; by rewrite E in Q).
  destruct o as [params|]; [|discriminate Hr].
  assert (nullok params ≠ SECRETNOTFOUND) as Hnk by (by eapply parse_argv_nullok; [exact E|]).
  step Hr. assert (quiet w0 w1 ∧ ∀ u, o = Some u → pam_user = Some u) as [Q1 Hname].
  { unfold get_user_name in E0. destruct pam_user as [[|c u]|];
      rewrite ?M_bind_unfold in E0; injection E0 as <- <-; (split; [done|]); by intros ? [= <-]. }
  destruct o as [username|]; [|discriminate Hr]. specialize (Hname _ eq_refl).
  step Hr. pose proof (get_secret_filename_quiet params username w1) as Q2. rewrite E1 in Q2. cbn [snd] in Q2.
  destruct o as [[path uid]|]; [|discriminate Hr].
  assert (quiet w w2) as Q by (transitivity w0; [done|by transitivity w1]).
  pose proof Q as (Qf & Qu & Qg & Qa & Qn & Qc).
  pose proof (drop_privileges_spec uid w2 ltac:(by rewrite Qu) ltac:(by rewrite Qg)) as Hd.
  pose proof (drop_rest uid w2) as Hrest. step Hr. destruct p as [[r ou] og]. cbn [snd] in Hrest.
  destruct Hd as [(-> & _ & _ & Huid)|(-> & _)].
  2: { change (-1 =? 0) with false in Hr. cbv iota in Hr. step Hr. injection E3 as <- _. step Hr.
       destruct b; discriminate Hr. }
  change (0 =? 0) with true in Hr. cbv iota in Hr. step Hr. step Hr.
  destruct b; [discriminate Hr|]. injection Hr as -> <-.
  apply login_sound in E3; [|done].
  exists params, username, path, uid, w1, w3. split; [done|]. split; [done|]. split; [by rewrite E1|].
  split; [done|].
  assert (rest w3 = rest w) as Hrw by (rewrite Hrest; unfold rest; congruence). split; [done|].
  pose proof (restore_rest ou og w4) as Hres. rewrite E4 in Hres. cbn [snd] in Hres.
  assert (w_files w5 = w_files w4) as -> by (unfold rest in Hres; congruence).
  assert (w_files w3 = w_files w) as Hf3 by (unfold rest in Hrw; congruence).
  destruct E3 as [[Hn Hl]|Hl]; [left; by rewrite <-Hf3|by right].
Qed.
End Sound.

(** ** The name of the state file *)

Section Filename.
Context `{Os}.

(** What the specification of the file name means: a tilde at the start or
    after a slash, and the two variables, are replaced; what replaced them is
    not looked at again. *)
Inductive expansion (home : option (list Z)) (user : list Z) : bool → list Z → list Z → Prop :=
| exp_end t : expansion home user t [] []
| exp_tilde d s out : home = Some d → expansion home user false s out →
    expansion home user true (bytes "~" ++ s) (d ++ out)
| exp_home t d s out : home = Some d → expansion home user false s out →
    expansion home user t (bytes "${HOME}" ++ s) (d ++ out)
| exp_user t s out : expansion home user false s out →
    expansion home user t (bytes "${USER}" ++ s) (user ++ out)
| exp_char t c s out : (t = true → c ≠ chr "~") →
    (∀ s', c :: s ≠ bytes "${HOME}" ++ s') → (∀ s', c :: s ≠ bytes "${USER}" ++ s') →
    expansion home user (c =? chr "/") s out → expansion home user t (c :: s) (c :: out).

Lemma starts_with_drop (s p : list Z) : starts_with s p = true → s = p ++ drop (length p) s.
Proof. intros [t ->]%starts_with_spec. by rewrite drop_app_length. Qed.

Lemma starts_with_false (s p : list Z) : starts_with s p = false ↔ ∀ t, s ≠ p ++ t.
Proof.
  split.
  - intros E t ->. assert (starts_with (p ++ t) p = true) by (apply starts_with_spec; eauto). congruence.
  - intros Hn. destruct (starts_with s p) eqn:E; [|done]. apply starts_with_drop in E. by apply Hn in E.
Qed.

(** [find_var] follows the rules. *)
Lemma find_var_inv (t : bool) (c : Z) (s : list Z) (pw : option passwd) (user : list Z) :
  match find_var t (c :: s) pw user with
  | None => (t = true → c ≠ chr "~") ∧ (∀ s', c :: s ≠ bytes "${HOME}" ++ s') ∧
            (∀ s', c :: s ≠ bytes "${USER}" ++ s')
  | Some None => pw ≫= pw_dir = None ∧ (t = true ∧ c = chr "~" ∨ ∃ s', c :: s = bytes "${HOME}" ++ s')
  | Some (Some (n, v)) => ∀ out, expansion (pw ≫= pw_dir) user false (drop n (c :: s)) out →
            expansion (pw ≫= pw_dir) user t (c :: s) (v ++ out)
  end.
Proof.
  unfold find_var. destruct (t && starts_with (c :: s) (bytes "~")) eqn:E1.
  - apply andb_true_iff in E1 as [-> E1]. apply starts_with_drop in E1.
    destruct (pw ≫= pw_dir) as [d|] eqn:Eh; cbn [fmap option_fmap option_map].
    + intros out Ho. rewrite E1. by apply exp_tilde.
    + split; [done|]. left. split; [done|]. by injection E1.
  - destruct (starts_with (c :: s) (bytes "${HOME}")) eqn:E2.
    + apply starts_with_drop in E2. destruct (pw ≫= pw_dir) as [d|] eqn:Eh; cbn [fmap option_fmap option_map].
      * intros out Ho. rewrite E2. by apply exp_home.
      * split; [done|]. right. eauto.
    + destruct (starts_with (c :: s) (bytes "${USER}")) eqn:E3.
      * apply starts_with_drop in E3. intros out Ho. rewrite E3. by apply exp_user.
      * split; [|by rewrite <-!starts_with_false]. intros -> ->. cbn [andb] in E1.
        rewrite starts_with_false in E1. by eapply (E1 s).
Qed.

Lemma expand_sound (pw : option passwd) (user : list Z) (fuel : nat) : ∀ done_ cur t w w' name,
  expand fuel done_ cur t pw user w = (Some name, w') →
  ∃ out, name = done_ ++ out ∧ expansion (pw ≫= pw_dir) user t cur out.
Proof.
  induction fuel as [|fuel IH]; intros done_ cur t w w' name Hr; cbn [expand] in Hr; [done|].
  destruct cur as [|c s].
  { injection Hr as <- <-. exists []. split; [by rewrite app_nil_r|constructor]. }
  pose proof (find_var_inv t c s pw user) as Hf. destruct (find_var t (c :: s) pw user) as [[[n v]|]|].
  - step Hr. destruct b; [|done]. apply IH in Hr as (out & -> & Ho).
    exists (v ++ out). split; [by rewrite app_assoc|by apply Hf].
  - done.
  - apply IH in Hr as (out & -> & Ho). exists (c :: out). split; [by rewrite <-app_assoc|].
    destruct Hf as (?&?&?). by apply exp_char.
Qed.

(** [SECRET] is a file in the home directory. *)
Lemma default_location (d user : list Z) :
  expansion (Some d) user true SECRET (d ++ bytes "/.google_authenticator").
Proof.
  apply (exp_tilde _ _ d (bytes "/.google_authenticator")); [done|]. unfold bytes. cbn [fmap list_fmap].
  repeat (apply exp_char; [done|by intros ? [=]|by intros ? [=]|]). constructor.
Qed.

Lemma calm_alloc (w : world) : calm w → alloc w = (true, w).
Proof. unfold calm, alloc. by intros ->. Qed.

(** The rules leave no choice. *)
Lemma expand_complete (pw : option passwd) (user : list Z) (fuel : nat) : ∀ done_ cur t w out,
  calm w → (length cur < fuel)%nat → expansion (pw ≫= pw_dir) user t cur out →
  expand fuel done_ cur t pw user w = (Some (done_ ++ out), w).
Proof.
  induction fuel as [|fuel IH]; intros done_ cur t w out Hw Hf Hx; [lia|]. cbn [expand].
  destruct cur as [|c s]; [inversion Hx; subst; by rewrite app_nil_r|].
  pose proof (find_var_inv t c s pw user) as Hv. unfold find_var in *.
  destruct (t && starts_with (c :: s) (bytes "~")) eqn:E1.
  { apply andb_true_iff in E1 as [-> E1]. apply starts_with_drop in E1. injection E1 as ->.
    inversion Hx; subst; [|naive_solver]. match goal with Hd : _ = Some _ |- _ => rewrite Hd end. cbn [fmap option_fmap option_map].
    rewrite M_bind_unfold, calm_alloc by done. cbn [fst snd negb]. rewrite app_assoc. apply IH; [done| |done].
    rewrite length_drop. simpl in *. lia. }
  destruct (starts_with (c :: s) (bytes "${HOME}")) eqn:E2.
  { apply starts_with_drop in E2. rewrite E2 in Hx. inversion Hx; subst; try discriminate; [|naive_solver].
    match goal with Hd : _ = Some _ |- _ => rewrite Hd end. cbn [fmap option_fmap option_map].
    rewrite M_bind_unfold, calm_alloc by done. cbn [fst snd negb]. rewrite app_assoc. apply IH; [done| |done].
    rewrite length_drop. simpl in *. lia. }
  destruct (starts_with (c :: s) (bytes "${USER}")) eqn:E3.
  { apply starts_with_drop in E3. rewrite E3 in Hx. inversion Hx; subst; try discriminate; [|naive_solver].
    rewrite M_bind_unfold, calm_alloc by done. cbn [fst snd negb]. rewrite app_assoc. apply IH; [done| |done].
    rewrite length_drop. simpl in *. lia. }
  destruct Hv as (H1 & H2 & H3). inversion Hx; subst; [by destruct (H1 eq_refl)|by destruct (H2 s0)|by destruct (H3 s0)|].
  replace (done_ ++ c :: out0) with ((done_ ++ [c]) ++ out0) by (by rewrite <-app_assoc).
  apply IH; [done|simpl in *; lia|done].
Qed.

(** C33: the state file is where the specification says, by default in the
    home directory; its owner is the fixed user or the user that logs in, who
    must have an absolute home directory.  Without failing allocations the name
    is found whenever the specification has an expansion, which is so unless it
    asks for the home directory of a fixed user. *)
Theorem secret_filename_correct (params : Params) (username name : list Z) (u : Z) (w : world) :
  let pw := if fixed_uid params then None else lookup_home username in
  let spec := default SECRET (secret_filename_spec params) in
  let found := (fixed_uid params = true ∨ is_Some pw) ∧
    expansion (pw ≫= pw_dir) username true spec name ∧ u = s32 (default (uid params) (pw_uid <$> pw)) in
  ((get_secret_filename params username w).1 = Some (name, u) → found) ∧
  (calm w → found → (get_secret_filename params username w).1 = Some (name, u)) ∧
  (calm w → fixed_uid params = false → secret_filename_spec params = None →
    ∀ p d, lookup_home username = Some p → pw_dir p = Some d →
    (get_secret_filename params username w).1 = Some (d ++ bytes "/.google_authenticator", s32 (pw_uid p))).
Proof.
  intros pw spec.
  assert (∀ w1, (expand_spec params pw username w1).1 = Some (name, u) →
    expansion (pw ≫= pw_dir) username true spec name ∧ u = s32 (default (uid params) (pw_uid <$> pw))) as Hs.
  { intros w1 Hr. unfold expand_spec, location_error in Hr. fold spec in Hr. rewrite M_bind_unfold in Hr.
    destruct (alloc w1) as [[|] w2]; cbn [fst snd negb] in Hr; [|by rewrite M_bind_unfold in Hr].
    rewrite M_bind_unfold in Hr. destruct (expand _ _ _ _ _ _ w2) as [[n|] w3] eqn:E; cbn [fst snd] in Hr;
      [|by rewrite M_bind_unfold in Hr].
    injection Hr as -> <-. apply expand_sound in E as (out & -> & Ho). done. }
  assert (∀ out, calm w → expansion (pw ≫= pw_dir) username true spec out →
    (expand_spec params pw username w).1 = Some (out, s32 (default (uid params) (pw_uid <$> pw)))) as Hc.
  { intros out Hw Ho. unfold expand_spec. fold spec. rewrite M_bind_unfold, calm_alloc by done.
    cbn [fst snd negb]. rewrite M_bind_unfold, (expand_complete _ _ _ _ _ _ _ out) by (done || lia). done. }
  unfold get_secret_filename. unfold pw in Hs, Hc. destruct (fixed_uid params); cbv zeta.
  { split; [intros Hr; split; [by left|by apply (Hs w)]|]. split; [|done].
    intros Hw (_ & Ho & ->). by apply Hc. }
  destruct (lookup_home username) as [p|] eqn:El.
  - split; [|split].
    + rewrite M_bind_unfold. destruct (alloc w) as [[|] w1]; cbn [fst snd negb];
        [|unfold location_error; by rewrite M_bind_unfold].
      intros Hr. split; [right; eauto|by apply (Hs w1)].
    + intros Hw (_ & Ho & ->). rewrite M_bind_unfold, calm_alloc by done. by apply Hc.
    + intros Hw _ Hsp p' d [= <-] Hd. rewrite M_bind_unfold, calm_alloc by done.
      apply Hc; [done|]. unfold spec. rewrite Hsp. cbn [mbind option_bind]. rewrite Hd. apply default_location.
  - split; [|split; [|done]].
    + rewrite M_bind_unfold. destruct (alloc w) as [[|] w1]; cbn [fst snd negb];
        unfold location_error; by rewrite M_bind_unfold.
    + intros _ ([?|[x ?]] & _); done.
Qed.
End Filename.

(** ** The properties at work *)

Definition home_path : list Z := bytes "/home/u/.google_authenticator".

Definition sample_os : Os := {|
  pam_user := Some (bytes "u");
  getpwnam := λ n, if streq n (bytes "u") then Some (Passwd 7 8 (Some (bytes "/home/u"))) else None;
  getpwuid := λ n, if n =? 7 then Some (Passwd 7 8 (Some (bytes "/home/u"))) else None;
  may_setfsuid := λ _ _, true;
  may_setfsgid := λ _ _, true;
  partial_write := λ s, take 3 s;
|}.

Definition hotp_file : file :=
  File 0x8100 true 7 12 (bytes "MFRGG" ++ [LF] ++ sample_line "HOTP_COUNTER 7").

(** The user answers with the code of counter 9. *)
Definition hotp_world : world :=
  World [] [] (λ n, 1000000 + Z.of_nat n) 0 0 0 {[home_path := hotp_file]} None
        [Answer (Some (bytes "000009")) None].

#[local] Existing Instance sample_os.
#[local] Existing Instance toy_gen.

(** The login works, and the counter is stored. *)
Example hotp_login :
  (google_authenticator [] hotp_world).1 = Some PAM_SUCCESS ∧
  w_files (google_authenticator [] hotp_world).2 !! home_path =
    Some (File mode_wanted true 7 1000000 (bytes "MFRGG" ++ [LF] ++ sample_line "HOTP_COUNTER 10")).
Proof. split; reflexivity. Qed.

Lemma authentication_sound_witness :
  (google_authenticator [] hotp_world).1 = Some PAM_SUCCESS ∧
  ∃ params path uid wy, logged_in params path uid wy (w_files (google_authenticator [] hotp_world).2).
Proof.
  assert ((google_authenticator [] hotp_world).1 = Some PAM_SUCCESS) as E by reflexivity.
  split; [exact E|].
  destruct (authentication_sound [] hotp_world (google_authenticator [] hotp_world).2)
    as (params & username & path & uid & wx & wy & Hp & Hn & Hs & _ & _ & [[Hk _]|Hl]).
  - discriminate.
  - discriminate.
  - rewrite <-E. destruct (google_authenticator [] hotp_world). reflexivity.
  - injection Hp as <-. discriminate Hk.
  - exists params, path, uid, wy. exact Hl.
Defined.

Lemma privileges_restored_witness :
  w_fsuid (google_authenticator [] hotp_world).2 = w_fsuid hotp_world.
Proof.
  assert ((google_authenticator [] hotp_world).1 = Some PAM_SUCCESS) as E by reflexivity.
  apply (privileges_restored [] hotp_world _ PAM_SUCCESS).
  - discriminate.
  - discriminate.
  - rewrite <-E. destruct (google_authenticator [] hotp_world). reflexivity.
Defined.

Lemma write_file_atomic_witness :
  (write_file_contents home_path (st_size hotp_file) 12 (bytes "X") hotp_world).1 = 0 ∧
  unchanged (w_files hotp_world !! home_path) (st_size hotp_file) 12.
Proof.
  assert ((write_file_contents home_path (st_size hotp_file) 12 (bytes "X") hotp_world).1 = 0) as E by reflexivity.
  split; [exact E|].
  destruct (write_file_atomic home_path (bytes "X") (st_size hotp_file) 12 hotp_world
    (write_file_contents home_path (st_size hotp_file) 12 (bytes "X") hotp_world).2 0) as [H _].
  - rewrite <-E. destruct (write_file_contents _ _ _ _ _). reflexivity.
  - destruct H as [(_ & Hu & _)|(Hr & _)]; [exact Hu|discriminate Hr].
Defined.

Lemma secret_filename_correct_witness :
  (get_secret_filename params0 (bytes "u") hotp_world).1 = Some (home_path, 7).
Proof.
  destruct (secret_filename_correct params0 (bytes "u") home_path 7 hotp_world) as (_ & _ & H).
  exact (H eq_refl eq_refl eq_refl (Passwd 7 8 (Some (bytes "/home/u"))) (bytes "/home/u") eq_refl eq_refl).
Defined.

(** Another session has changed the file while the user was typing: the login
    fails and the file of that session stays. *)
Definition other_file : file :=
  File 0x8100 true 7 13 (bytes "MFRGG" ++ [LF] ++ sample_line "HOTP_COUNTER 8").

Example changed_file_login :
  let w := set_answers [Answer (Some (bytes "000009")) (Some {[home_path := other_file]})] hotp_world in
  (google_authenticator [] w).1 = Some PAM_SESSION_ERR ∧
  w_files (google_authenticator [] w).2 !! home_path = Some other_file.
Proof. split; reflexivity. Qed.

(** Without a state file, [nullok] lets the user in. *)
Example nullok_login :
  (google_authenticator [bytes "nullok"] idle_world).1 = Some PAM_SUCCESS ∧
  (google_authenticator [] idle_world).1 = Some PAM_SESSION_ERR ∧
  (google_authenticator [bytes "nullo"] idle_world).1 = Some PAM_SESSION_ERR.
Proof. split_and!; reflexivity. Qed.

(** A code that is accepted because it is the third in a row with another skew
    is not entered in DISALLOW_REUSE: it is accepted once more right after. *)
Definition skew_file : file :=
  File 0x8100 true 7 12 (bytes "MFRGG" ++ [LF] ++ sample_line "TOTP_AUTH" ++ sample_line "DISALLOW_REUSE" ++
    sample_line "RESETTING_TIME_SKEW 33331+100 33332+100").

Definition answer_code : answer := Answer (Some (bytes "033433")) None.

Example skew_replay :
  let w := World [] [] (λ _, 1000000) 0 0 0 {[home_path := skew_file]} None [answer_code] in
  let '(r1, w1) := google_authenticator [] w in
  let '(r2, w2) := google_authenticator [] (set_answers [answer_code] w1) in
  let '(r3, w3) := google_authenticator [] (set_answers [answer_code] w2) in
  r1 = Some PAM_SUCCESS ∧ r2 = Some PAM_SUCCESS ∧ r3 = Some PAM_SESSION_ERR.
Proof. vm_compute. done. Qed.
