(* ===== verification/DList.v ===== *)
(** * Doubly linked lists (list/mylist.h)

    [struct list_head] in a memory with a map for each field; reading or
    writing a field of an address that is no [list_head] is an error ([None]).
    Every function of the header is a transformer of the memory.  A list is a
    ring: the head followed by its entries.  The refinement theorem follows any
    number of rings through any sequence of operations. *)

From S2P Require Import Prelude.

(** ** The code *)

Record mem := Mem { m_next : gmap Z Z; m_prev : gmap Z Z }.

Definition LIST_POISON1 : Z := 0x00100100.
Definition LIST_POISON2 : Z := 0x00200200.

Definition next (x : Z) (m : mem) : option Z := m_next m !! x.
Definition prev (x : Z) (m : mem) : option Z := m_prev m !! x.

(** [x->next = y] and [x->prev = y] *)
Definition set_next (x y : Z) (m : mem) : option mem :=
  if decide (is_Some (next x m)) then Some (Mem (<[x:=y]> (m_next m)) (m_prev m)) else None.
Definition set_prev (x y : Z) (m : mem) : option mem :=
  if decide (is_Some (prev x m)) then Some (Mem (m_next m) (<[x:=y]> (m_prev m))) else None.

Definition INIT_LIST_HEAD (list : Z) (m : mem) : option mem :=
  m ← set_next list list m; set_prev list list m.

Definition __list_add (new prev_ next_ : Z) (m : mem) : option mem :=
  m ← set_prev next_ new m;
  m ← set_next new next_ m;
  m ← set_prev new prev_ m;
  set_next prev_ new m.

Definition list_add (new head : Z) (m : mem) : option mem :=
  n ← next head m; __list_add new head n m.

Definition list_add_tail (new head : Z) (m : mem) : option mem :=
  p ← prev head m; __list_add new p head m.

Definition __list_del (prev_ next_ : Z) (m : mem) : option mem :=
  m ← set_prev next_ prev_ m; set_next prev_ next_ m.

Definition list_del (entry : Z) (m : mem) : option mem :=
  p ← prev entry m; n ← next entry m;
  m ← __list_del p n m;
  m ← set_next entry LIST_POISON1 m;
  set_prev entry LIST_POISON2 m.

Definition list_replace (old new : Z) (m : mem) : option mem :=
  n ← next old m;
  m ← set_next new n m;
  n ← next new m;
  m ← set_prev n new m;
  p ← prev old m;
  m ← set_prev new p m;
  p ← prev new m;
  set_next p new m.

Definition list_replace_init (old new : Z) (m : mem) : option mem :=
  m ← list_replace old new m; INIT_LIST_HEAD old m.

Definition list_del_init (entry : Z) (m : mem) : option mem :=
  p ← prev entry m; n ← next entry m;
  m ← __list_del p n m; INIT_LIST_HEAD entry m.

Definition list_move (list head : Z) (m : mem) : option mem :=
  p ← prev list m; n ← next list m;
  m ← __list_del p n m; list_add list head m.

Definition list_move_tail (list head : Z) (m : mem) : option mem :=
  p ← prev list m; n ← next list m;
  m ← __list_del p n m; list_add_tail list head m.

Definition list_is_last (list head : Z) (m : mem) : option bool :=
  n ← next list m; Some (n =? head).

Definition list_empty (head : Z) (m : mem) : option bool :=
  n ← next head m; Some (n =? head).

Definition list_empty_careful (head : Z) (m : mem) : option bool :=
  n ← next head m; p ← prev head m; Some ((n =? head) && (n =? p)).

Definition list_is_singular (head : Z) (m : mem) : option bool :=
  e ← list_empty head m; n ← next head m; p ← prev head m; Some (negb e && (n =? p)).

Definition __list_cut_position (list head entry : Z) (m : mem) : option mem :=
  new_first ← next entry m;
  n ← next head m;
  m ← set_next list n m;
  n ← next list m;
  m ← set_prev n list m;
  m ← set_prev list entry m;
  m ← set_next entry list m;
  m ← set_next head new_first m;
  set_prev new_first head m.

Definition list_cut_position (list head entry : Z) (m : mem) : option mem :=
  e ← list_empty head m;
  if e : bool then Some m
  else
    s ← list_is_singular head m;
    n ← next head m;
    if s && (negb (n =? entry) && negb (head =? entry)) then Some m
    else if entry =? head then INIT_LIST_HEAD list m
    else __list_cut_position list head entry m.

Definition __list_splice (list prev_ next_ : Z) (m : mem) : option mem :=
  first ← next list m;
  last ← prev list m;
  m ← set_prev first prev_ m;
  m ← set_next prev_ first m;
  m ← set_next last next_ m;
  set_prev next_ last m.

Definition list_splice (list head : Z) (m : mem) : option mem :=
  e ← list_empty list m;
  if negb (e : bool) then n ← next head m; __list_splice list head n m else Some m.

Definition list_splice_tail (list head : Z) (m : mem) : option mem :=
  e ← list_empty list m;
  if negb (e : bool) then p ← prev head m; __list_splice list p head m else Some m.

Definition list_splice_init (list head : Z) (m : mem) : option mem :=
  e ← list_empty list m;
  if negb (e : bool) then
    n ← next head m; m ← __list_splice list head n m; INIT_LIST_HEAD list m
  else Some m.

Definition list_splice_tail_init (list head : Z) (m : mem) : option mem :=
  e ← list_empty list m;
  if negb (e : bool) then
    p ← prev head m; m ← __list_splice list p head m; INIT_LIST_HEAD list m
  else Some m.

(** [list_for_each], [list_for_each_prev]: the entries that [pos] runs through. *)
Fixpoint walk (step : Z → mem → option Z) (fuel : nat) (pos head : Z) (m : mem) : option (list Z) :=
  match fuel with
  | O => None
  | S fuel =>
    if pos =? head then Some []
    else n ← step pos m; l ← walk step fuel n head m; Some (pos :: l)
  end.

Definition list_for_each (fuel : nat) (head : Z) (m : mem) : option (list Z) :=
  n ← next head m; walk next fuel n head m.
Definition list_for_each_prev (fuel : nat) (head : Z) (m : mem) : option (list Z) :=
  p ← prev head m; walk prev fuel p head m.

(** [list_for_each_safe] with a body that may remove [pos]; [n] is read before
    the body runs. *)
Fixpoint walk_safe (body : Z → mem → option mem) (fuel : nat) (pos n head : Z) (m : mem) : option mem :=
  match fuel with
  | O => None
  | S fuel =>
    if pos =? head then Some m
    else m ← body pos m; n' ← next n m; walk_safe body fuel n n' head m
  end.

Definition list_for_each_safe (body : Z → mem → option mem) (fuel : nat) (head : Z) (m : mem) : option mem :=
  pos ← next head m; n ← next pos m; walk_safe body fuel pos n head m.

(** ** Rings *)

Definition edge (m : mem) (x y : Z) : Prop := next x m = Some y ∧ prev y m = Some x.

(** From [a] through the addresses of [l] to [b]. *)
Fixpoint path (m : mem) (a : Z) (l : list Z) (b : Z) : Prop :=
  match l with
  | [] => edge m a b
  | x :: l => edge m a x ∧ path m x l b
  end.

Definition ring (m : mem) (c : list Z) : Prop :=
  match c with [] => False | h :: l => path m h l h end.

Lemma path_app (m : mem) (l1 l2 : list Z) (x b : Z) : ∀ a,
  path m a (l1 ++ x :: l2) b ↔ path m a l1 x ∧ path m x l2 b.
Proof. induction l1 as [|y l1 IH]; intros a; cbn [path app]; [done|]. rewrite IH. tauto. Qed.

Lemma ring_rot (m : mem) (l1 l2 : list Z) : ring m (l1 ++ l2) → ring m (l2 ++ l1).
Proof.
  destruct l1 as [|a l1]; [by rewrite app_nil_r|]. destruct l2 as [|b l2]; [by rewrite app_nil_r|].
  cbn [ring app]. rewrite !path_app. tauto.
Qed.

(** The fields of addresses outside [ws] are the same, and no field is lost. *)
Definition agree (ws : list Z) (m m' : mem) : Prop :=
  (∀ x, x ∉ ws → next x m' = next x m ∧ prev x m' = prev x m) ∧
  (∀ x, is_Some (next x m) → is_Some (next x m')) ∧ (∀ x, is_Some (prev x m) → is_Some (prev x m')).

Lemma path_frame (m m' : mem) (b : Z) (l : list Z) : ∀ a,
  (∀ x, x ∈ a :: l → next x m' = next x m) → (∀ y, y ∈ l ++ [b] → prev y m' = prev y m) →
  path m a l b → path m' a l b.
Proof.
  induction l as [|x l IH]; intros a Hn Hp; cbn [path]; unfold edge.
  - intros [H1 H2]. rewrite Hn by (by left). rewrite Hp by (by left). done.
  - intros [[H1 H2] H3]. rewrite Hn by (by left). rewrite Hp by (by left). split; [done|].
    apply IH; [intros z Hz; apply Hn; by right|intros z Hz; apply Hp; by right|done].
Qed.

Lemma ring_frame (ws : list Z) (m m' : mem) (c : list Z) :
  agree ws m m' → (∀ x, x ∈ c → x ∉ ws) → ring m c → ring m' c.
Proof.
  destruct c as [|h l]; [done|]. intros [Ha _] Hc. apply path_frame.
  - intros x Hx. by apply Ha, Hc.
  - intros x Hx. apply Ha, Hc. apply elem_of_app in Hx as [Hx|Hx%list_elem_of_singleton]; [by right|subst; by left].
Qed.

Lemma path_alloc (m : mem) (b x : Z) (l : list Z) : ∀ a, path m a l b →
  (x ∈ a :: l → is_Some (next x m)) ∧ (x ∈ l ++ [b] → is_Some (prev x m)).
Proof.
  induction l as [|y l IH]; intros a; cbn [path app]; unfold edge.
  - intros [H1 H2]. split; intros ->%list_elem_of_singleton; eauto.
  - intros [[H1 H2] H3]. destruct (IH y H3) as [I1 I2].
    split; (intros [->|Hx]%elem_of_cons; [by eauto|auto]).
Qed.

Lemma ring_alloc (m : mem) (c : list Z) (x : Z) : ring m c → x ∈ c →
  is_Some (next x m) ∧ is_Some (prev x m).
Proof.
  destruct c as [|h l]; [done|]. intros Hr Hx. destruct (path_alloc m h x l h Hr) as [H1 H2]. split; [auto|].
  apply H2, elem_of_app. apply elem_of_cons in Hx as [->|Hx]; [right; by left|by left].
Qed.

(** *** The internal functions on rings *)

Lemma set_next_ok (x y : Z) (m : mem) : is_Some (next x m) →
  set_next x y m = Some (Mem (<[x:=y]> (m_next m)) (m_prev m)).
Proof. intros Hx. unfold set_next. by rewrite decide_True. Qed.
Lemma set_prev_ok (x y : Z) (m : mem) : is_Some (prev x m) →
  set_prev x y m = Some (Mem (m_next m) (<[x:=y]> (m_prev m))).
Proof. intros Hx. unfold set_prev. by rewrite decide_True. Qed.

Lemma insert_alloc (g : gmap Z Z) (x y z : Z) : is_Some (g !! x) → is_Some (<[y:=z]> g !! x).
Proof. intros Hx. apply lookup_insert_is_Some'. by right. Qed.

(** Runs the writes of a goal [... = Some _]; the addresses are allocated. *)
Ltac exec :=
  repeat first
    [ rewrite set_next_ok by (unfold next in *; cbn [m_next m_prev]; eauto using insert_alloc)
    | rewrite set_prev_ok by (unfold prev in *; cbn [m_next m_prev]; eauto using insert_alloc)
    | progress cbn [mbind option_bind m_next m_prev] ].

(** [set_solver] on the memberships of the context only. *)
Ltac members :=
  repeat match goal with
  | H : ?P |- _ =>
    lazymatch P with
    | _ ∈ _ => fail
    | ¬ (_ ∈ _) => fail
    | _ ≠ _ => fail
    | ∀ _, _ ∈ _ → _ => fail
    | _ => clear H
    end
  end; set_solver.

(** An entry of a map with known writes, the addresses being different. *)
Ltac cells := cbn [path]; unfold edge in *; unfold next, prev in *; cbn [m_next m_prev] in *;
  repeat first [ split | rewrite lookup_insert_eq | rewrite lookup_insert_ne by (first [congruence|members]) ]; try done.

(** The first address after the first one, around the ring. *)
Definition second (p : Z) (l : list Z) : Z := match l with [] => p | x :: _ => x end.

Lemma ring_second (m : mem) (p : Z) (l : list Z) : ring m (p :: l) → next p m = Some (second p l).
Proof. by destruct l as [|x l]; cbn [ring path]; unfold edge; intros; naive_solver. Qed.

Lemma agree_writes (m : mem) (n p : gmap Z Z) (ws : list Z) :
  (∀ x, x ∉ ws → n !! x = m_next m !! x ∧ p !! x = m_prev m !! x) →
  (∀ x, is_Some (m_next m !! x) → is_Some (n !! x)) →
  (∀ x, is_Some (m_prev m !! x) → is_Some (p !! x)) → agree ws m (Mem n p).
Proof. done. Qed.

Ltac agree_tac :=
  apply agree_writes;
    [let Hz := fresh in intros ? Hz;
     repeat (rewrite lookup_insert_ne by (let E := fresh in intros E; apply Hz; rewrite <-E; first [assumption|members])); done
    |intros; eauto 8 using insert_alloc..].

Definition allocated (m : mem) (x : Z) : Prop := is_Some (next x m) ∧ is_Some (prev x m).

Lemma add_ring (m : mem) (new p : Z) (l : list Z) :
  ring m (p :: l) → NoDup (new :: p :: l) → allocated m new →
  ∃ m', __list_add new p (second p l) m = Some m' ∧ ring m' (p :: new :: l) ∧
        agree (new :: p :: l) m m'.
Proof.
  intros Hr Hd [Hn Hp]. apply NoDup_cons in Hd as [Hnew Hd]. apply not_elem_of_cons in Hnew as [Hnp Hnl].
  pose proof (ring_alloc m _ p Hr ltac:(by left)) as [Pn Pp].
  assert (second p l ∈ p :: l) as Hs by (destruct l; [by left|right; by left]).
  pose proof (ring_alloc m _ _ Hr Hs) as [Sn Sp].
  unfold __list_add. exec. eexists. split; [done|]. split.
  - cbn [ring path]. destruct l as [|x l]; cbn [second path] in *; [cells|].
    apply NoDup_cons in Hd as [Hpx Hd]. apply NoDup_cons in Hd as [Hx Hd].
    apply not_elem_of_cons in Hpx as [Hpx Hpl]. apply not_elem_of_cons in Hnl as [Hnx Hnl].
    destruct Hr as [He Hr]. split; [cells|]. split; [cells|].
    revert Hr. apply path_frame; unfold next, prev; cbn [m_next m_prev].
    + intros z Hz. rewrite !lookup_insert_ne; [done|..]; members.
    + intros z Hz. rewrite !lookup_insert_ne; [done|..]; members.
  - agree_tac.
Qed.

Lemma del_ring (m : mem) (p e : Z) (l : list Z) :
  ring m (p :: e :: l) → NoDup (p :: e :: l) →
  ∃ m', __list_del p (second p l) m = Some m' ∧ ring m' (p :: l) ∧ agree (p :: l) m m'.
Proof.
  intros Hr Hd. apply NoDup_cons in Hd as [Hp Hd]. apply NoDup_cons in Hd as [He Hd].
  apply not_elem_of_cons in Hp as [Hpe Hpl].
  pose proof (ring_alloc m _ p Hr ltac:(by left)) as [Pn Pp].
  assert (second p l ∈ p :: e :: l) as Hs by (destruct l; [by left|right; right; by left]).
  pose proof (ring_alloc m _ _ Hr Hs) as [Sn Sp].
  unfold __list_del. exec. eexists. split; [done|]. split.
  - cbn [ring path] in *. destruct l as [|x l]; cbn [second path] in *; [cells|].
    apply NoDup_cons in Hd as [Hx Hd]. apply not_elem_of_cons in Hpl as [Hpx Hpl].
    destruct Hr as (_ & _ & Hr). split; [cells|].
    revert Hr. apply path_frame; unfold next, prev; cbn [m_next m_prev].
    + intros z Hz. rewrite !lookup_insert_ne; [done|..]; members.
    + intros z Hz. rewrite !lookup_insert_ne; [done|..]; members.
  - destruct l; agree_tac.
Qed.

Lemma init_ring (m : mem) (x : Z) : allocated m x →
  ∃ m', INIT_LIST_HEAD x m = Some m' ∧ ring m' [x] ∧ agree [x] m m'.
Proof.
  intros [Hn Hp]. unfold INIT_LIST_HEAD. exec. eexists. split; [done|]. split; [cbn [ring path]; cells|agree_tac].
Qed.

(** The entries of the ring [a :: l1] go after [p]; [a] keeps its fields. *)
Lemma splice_ring (m : mem) (a p : Z) (x : Z) (l1 l2 : list Z) :
  ring m (a :: x :: l1) → ring m (p :: l2) → NoDup ((a :: x :: l1) ++ p :: l2) →
  ∃ m', __list_splice a p (second p l2) m = Some m' ∧ ring m' (p :: (x :: l1) ++ l2) ∧
        agree ((x :: l1) ++ p :: l2) m m'.
Proof.
  intros Hr1 Hr2 Hd.
  assert (∃ z l1', x :: l1 = l1' ++ [z]) as (z & l1' & Ez)
    by (destruct (exists_last (l := x :: l1)) as (l1' & z & E); [done|eauto]).
  pose proof (ring_second _ _ _ Hr1) as Hfirst. cbn [second] in Hfirst.
  assert (prev a m = Some z) as Hlast.
  { cbn [ring] in Hr1. rewrite Ez in Hr1. apply path_app in Hr1 as [_ [_ Hz]]. done. }
  pose proof (ring_alloc m _ x Hr1 ltac:(set_solver)) as [Xn Xp].
  pose proof (ring_alloc m _ z Hr1 ltac:(rewrite Ez; set_solver)) as [Zn Zp].
  pose proof (ring_alloc m _ p Hr2 ltac:(by left)) as [Pn Pp].
  assert (second p l2 ∈ p :: l2) as Hs by (destruct l2; [by left|right; by left]).
  pose proof (ring_alloc m _ _ Hr2 Hs) as [Sn Sp].
  assert (z ∈ x :: l1) as Hzin by (rewrite Ez; set_solver).
  unfold __list_splice. rewrite Hfirst, Hlast. exec. eexists. split; [done|]. split.
  - apply NoDup_app in Hd as (Hd1 & Hd12 & Hd2).
    assert (ring m (a :: l1' ++ [z]) ∧ NoDup (a :: l1' ++ [z])) as [Hz Hdz] by (by rewrite <-Ez).
    assert (∀ y, y ∈ l1' ++ [z] → y ∉ p :: l2) as Hd12' by (rewrite <-Ez; intros y Hy; apply Hd12; by right).
    assert (head (l1' ++ [z]) = Some x) as Hx by (by rewrite <-Ez).
    assert ((x ∉ p :: l2) ∧ (z ∉ p :: l2)) as [Hx2 Hz2] by (split; apply Hd12'; [rewrite <-Ez|]; set_solver).
    rewrite Ez, <-app_assoc. clear Ez Hr1 Hd1 Hd12. cbn [ring app] in *.
    apply path_app in Hz as [Hz _]. apply NoDup_cons in Hdz as [_ Hdz].
    apply NoDup_app in Hdz as (Hdl & Hlz & _). apply path_app. split.
    + destruct l1' as [|x' l1']; cbn [path app] in *; injection Hx as ->; [cells|].
      apply NoDup_cons in Hdl as [Hx Hdl]. destruct Hz as [_ Hz]. split; [cells|].
      revert Hz. apply path_frame; unfold next, prev; cbn [m_next m_prev];
        intros y Hy; rewrite !lookup_insert_ne; first [done|members].
    + destruct l2 as [|y l2]; cbn [second path] in *; [cells|].
      apply NoDup_cons in Hd2 as [Hp Hd2]. apply NoDup_cons in Hd2 as [Hy Hd2].
      destruct Hr2 as [_ Hr2]. split; [cells|].
      revert Hr2. apply path_frame; unfold next, prev; cbn [m_next m_prev];
        intros u Hu; rewrite !lookup_insert_ne; first [done|members].
  - agree_tac.
Qed.

Lemma next_Mem (x : Z) (n p : gmap Z Z) : next x (Mem n p) = n !! x.
Proof. done. Qed.
Lemma prev_Mem (x : Z) (n p : gmap Z Z) : prev x (Mem n p) = p !! x.
Proof. done. Qed.

Lemma snoc_split (x : Z) (l : list Z) : ∃ q z, x :: l = q ++ [z].
Proof. destruct (exists_last (l := x :: l)) as (q & z & E); [done|eauto]. Qed.

(** [new] takes the place of the first address of a ring. *)
Lemma replace_ring (m : mem) (old new : Z) (l : list Z) :
  ring m (old :: l) → NoDup (new :: old :: l) → allocated m new →
  ∃ m', list_replace old new m = Some m' ∧ ring m' (new :: l) ∧ agree (new :: old :: l) m m'.
Proof.
  intros Hr Hd [Hn Hp]. apply NoDup_cons in Hd as [Hnew Hd]. apply not_elem_of_cons in Hnew as [Hno Hnl].
  apply NoDup_cons in Hd as [Hol Hd].
  pose proof (ring_alloc m _ old Hr ltac:(by left)) as [On Op].
  destruct l as [|x l].
  - destruct Hr as [Hr1 Hr2]. unfold list_replace. rewrite Hr1. exec.
    rewrite next_Mem, lookup_insert_eq. exec.
    rewrite prev_Mem, lookup_insert_eq. exec.
    rewrite prev_Mem, lookup_insert_eq. exec.
    eexists. split; [done|]. split; [cbn [ring path]; cells|agree_tac].
  - destruct (snoc_split x l) as (q & z & Ez). pose proof (ring_second _ _ _ Hr) as Hx. cbn [second] in Hx.
    assert (path m old q z ∧ edge m z old) as [Hq [Hz1 Hz2]] by (cbn [ring] in Hr; rewrite Ez in Hr; by apply path_app in Hr).
    pose proof (ring_alloc m _ x Hr ltac:(set_solver)) as [Xn Xp].
    pose proof (ring_alloc m _ z Hr ltac:(rewrite Ez; set_solver)) as [Zn Zp].
    assert (x ≠ old ∧ z ≠ old ∧ x ≠ new ∧ z ≠ new) as (Xo & Zo & Xw & Zw).
    { assert (z ∈ x :: l) by (rewrite Ez; set_solver). set_solver. }
    assert (z ∈ x :: l) as Hzin by (rewrite Ez; set_solver).
    unfold list_replace. rewrite Hx. exec.
    rewrite next_Mem, lookup_insert_eq. exec.
    rewrite prev_Mem, lookup_insert_ne by done.
    change (m_prev m !! old) with (prev old m). rewrite Hz2. exec.
    rewrite prev_Mem, lookup_insert_eq. exec.
    eexists. split; [done|]. split; [|agree_tac].
    cbn [ring]. rewrite Ez. apply path_app. rewrite Ez in Hnl, Hol, Hd.
    assert (head (q ++ [z]) = Some x) as Hh by (by rewrite <-Ez). clear Ez.
    apply NoDup_app in Hd as (Hd & Hqz & _). split; [|cells].
    destruct q as [|x' q]; cbn [path app] in *; injection Hh as ->; [cells|].
    apply NoDup_cons in Hd as [Hxq Hd]. destruct Hq as [_ Hq]. split; [cells|].
    revert Hq. apply path_frame; unfold next, prev; cbn [m_next m_prev];
      intros y Hy; rewrite !lookup_insert_ne; first [done|members].
Qed.

(** [list] takes the entries up to [e]. *)
Lemma cut_ring (m : mem) (list_ h e : Z) (l1 l2 : list Z) :
  ring m (h :: l1 ++ e :: l2) → NoDup (list_ :: h :: l1 ++ e :: l2) → allocated m list_ →
  ∃ m', __list_cut_position list_ h e m = Some m' ∧ ring m' (list_ :: l1 ++ [e]) ∧ ring m' (h :: l2) ∧
        agree (list_ :: h :: l1 ++ e :: l2) m m'.
Proof.
  intros Hr Hd [Hn Hp]. apply NoDup_cons in Hd as [Hnew Hd]. apply NoDup_cons in Hd as [Hh Hd].
  pose proof (ring_second _ _ _ Hr) as Hx. remember (second h (l1 ++ e :: l2)) as x eqn:Ex.
  remember (second h l2) as y eqn:Ey.
  assert (path m h l1 e ∧ path m e l2 h) as [H1 H2] by (by cbn [ring] in Hr; apply path_app in Hr).
  assert (next e m = Some y) as Hy by (rewrite Ey; destruct l2; cbn [path] in H2; unfold edge in H2; naive_solver).
  assert (x ∈ h :: l1 ++ e :: l2) as Hxin by (rewrite Ex; destruct l1; cbn [second app]; set_solver).
  assert (x ∈ l1 ++ [e]) as Hxl by (rewrite Ex; destruct l1; cbn [second app]; set_solver).
  assert (y ∈ h :: l2) as Hyin by (rewrite Ey; destruct l2; cbn [second]; set_solver).
  pose proof (ring_alloc m _ x Hr Hxin) as [Xn Xp].
  pose proof (ring_alloc m _ y Hr ltac:(set_solver)) as [Yn Yp].
  pose proof (ring_alloc m _ h Hr ltac:(by left)) as [Hhn Hhp].
  pose proof (ring_alloc m _ e Hr ltac:(set_solver)) as [En Ep].
  unfold __list_cut_position. rewrite Hy, Hx. exec.
  rewrite next_Mem, lookup_insert_eq. exec.
  eexists. split; [done|]. apply NoDup_app in Hd as (Hd1 & Hd12 & Hd2). apply NoDup_cons in Hd2 as [Hel Hd2].
  assert (list_ ≠ h ∧ list_ ≠ e ∧ h ≠ e ∧ list_ ≠ x ∧ list_ ≠ y ∧ x ≠ h ∧ y ≠ e) as (N1 & N2 & N3 & N4 & N5 & N6 & N7).
  { assert (y ∈ h :: l1 ++ e :: l2) as Hyin2 by (clear -Hyin; set_solver).
    clear -Hnew Hh Hel Hxin Hxl Hyin Hyin2. split_and!; intros E; rewrite E in *; clear E; set_solver. }
  assert (list_ ∈ list_ :: h :: l1 ++ e :: l2 ∧ h ∈ list_ :: h :: l1 ++ e :: l2 ∧ e ∈ list_ :: h :: l1 ++ e :: l2 ∧
    x ∈ list_ :: h :: l1 ++ e :: l2 ∧ y ∈ list_ :: h :: l1 ++ e :: l2) as (M1 & M2 & M3 & M4 & M5).
  { clear -Hxin Hyin. split_and!; set_solver. }
  split; [|split; [|agree_tac]]; clear M1 M2 M3 M4 M5 Hxin.
  - cbn [ring]. apply path_app. split; [|cells]. clear Hr.
    destruct l1 as [|x' l1]; cbn [second path app] in *; subst x; [cells|].
    apply NoDup_cons in Hd1 as [Hxl1 Hd1]. destruct H1 as [_ H1]. split; [cells|].
    revert H1. apply path_frame; unfold next, prev; cbn [m_next m_prev];
      intros u Hu; rewrite !lookup_insert_ne; first [done|members].
  - cbn [ring]. destruct l2 as [|y' l2]; cbn [second path] in *; subst y; [cells|].
    apply NoDup_cons in Hd2 as [Hyl Hd2]. destruct H2 as [_ H2]. split; [cells|].
    revert H2. apply path_frame; unfold next, prev; cbn [m_next m_prev];
      intros u Hu; rewrite !lookup_insert_ne; first [done|members].
Qed.

(** ** The operations on rings *)

Lemma agree_trans (ws1 ws2 : list Z) (a b c : mem) :
  agree ws1 a b → agree ws2 b c → agree (ws1 ++ ws2) a c.
Proof.
  intros (A1 & B1 & C1) (A2 & B2 & C2). split; [|auto].
  intros x [H1 H2]%not_elem_of_app. destruct (A2 x H2) as [-> ->], (A1 x H1) as [-> ->]. done.
Qed.

Lemma agree_alloc (ws : list Z) (m m' : mem) (x : Z) : agree ws m m' → allocated m x → allocated m' x.
Proof. intros (_ & B & C) [Hn Hp]. split; auto. Qed.

Lemma ring_edge (m : mem) (p e : Z) (l : list Z) : ring m (p :: e :: l) →
  prev e m = Some p ∧ next e m = Some (second p l).
Proof.
  intros [[_ H1] H2]. split; [done|]. destruct l; cbn [path second] in *; unfold edge in H2; naive_solver.
Qed.

(** The predecessor of an entry goes first. *)
Lemma ring_pred (m : mem) (h e : Z) (l1 l2 : list Z) :
  ring m (h :: l1 ++ e :: l2) → NoDup (h :: l1 ++ e :: l2) →
  ∃ p q, h :: l1 = q ++ [p] ∧ ring m (p :: e :: l2 ++ q) ∧ NoDup (p :: e :: l2 ++ q) ∧
    prev e m = Some p ∧ next e m = Some (second p (l2 ++ q)) ∧
    (∀ m', ring m' (p :: l2 ++ q) → ring m' (h :: l1 ++ l2)).
Proof.
  intros Hr Hd. destruct (snoc_split h l1) as (q & p & E). exists p, q.
  assert (h :: l1 ++ e :: l2 = q ++ p :: e :: l2) as E2.
  { change (h :: l1 ++ e :: l2) with ((h :: l1) ++ e :: l2). by rewrite E, <-app_assoc. }
  rewrite E2 in Hr, Hd. pose proof (ring_rot _ _ _ Hr) as Hr'. cbn [app] in Hr'.
  split; [done|]. split; [done|]. split.
  { change (p :: e :: l2 ++ q) with ((p :: e :: l2) ++ q). by rewrite (Permutation_app_comm _ q). }
  destruct (ring_edge _ _ _ _ Hr') as [H1 H2]. split; [done|]. split; [done|].
  intros m' Hm. change (h :: l1 ++ l2) with ((h :: l1) ++ l2). rewrite E, <-app_assoc. cbn [app].
  by apply (ring_rot m' (p :: l2) q).
Qed.

(** The last address of a ring, before the head. *)
Lemma ring_last (m : mem) (h : Z) (l : list Z) : ring m (h :: l) →
  ∃ p k, prev h m = Some p ∧ ring m (p :: k) ∧ p :: k ≡ₚ h :: l ∧ second p k = h ∧
    (∀ m' l', ring m' (p :: l' ++ k) → ring m' (h :: l ++ l')).
Proof.
  intros Hr. destruct l as [|x l].
  { exists h, []. destruct Hr as [H1 H2]. split; [done|]. split; [done|]. split; [done|]. split; [done|].
    intros m' l'. by rewrite app_nil_r. }
  destruct (snoc_split x l) as (q & z & E). exists z, (h :: q). rewrite E in Hr |- *.
  split; [by cbn [ring] in Hr; apply path_app in Hr as [_ [_ ?]]|].
  split; [by apply (ring_rot m (h :: q) [z])|]. split.
  { rewrite (Permutation_app_comm q [z]). apply Permutation_swap. }
  split; [done|]. intros m' l' Hm. rewrite <-app_assoc. cbn [app].
  apply (ring_rot m' (z :: l') (h :: q) Hm).
Qed.

Lemma op_del (m : mem) (h e : Z) (l1 l2 : list Z) :
  ring m (h :: l1 ++ e :: l2) → NoDup (h :: l1 ++ e :: l2) →
  ∃ p n m', prev e m = Some p ∧ next e m = Some n ∧ __list_del p n m = Some m' ∧
    ring m' (h :: l1 ++ l2) ∧ agree (h :: l1 ++ l2) m m' ∧ allocated m' e.
Proof.
  intros Hr Hd. destruct (ring_pred _ _ _ _ _ Hr Hd) as (p & q & E & Hr' & Hd' & Hp & Hn & Hback).
  destruct (del_ring _ _ _ _ Hr' Hd') as (m' & Hrun & Hm & Ha).
  exists p, (second p (l2 ++ q)), m'. split; [done|]. split; [done|]. split; [done|]. split; [by apply Hback|].
  assert (h :: l1 ++ l2 ≡ₚ p :: l2 ++ q) as Hperm.
  { change (h :: l1 ++ l2) with ((h :: l1) ++ l2). rewrite E, <-app_assoc.
    rewrite (Permutation_app_comm q). done. }
  split.
  - destruct Ha as (A & B & C). split; [|done]. intros x Hx. apply A. by rewrite <-Hperm.
  - eapply agree_alloc; [exact Ha|]. eapply (ring_alloc _ _ e Hr). set_solver.
Qed.

Lemma op_add (m : mem) (new h : Z) (l : list Z) :
  ring m (h :: l) → NoDup (new :: h :: l) → allocated m new →
  ∃ m', list_add new h m = Some m' ∧ ring m' (h :: new :: l) ∧ agree (new :: h :: l) m m'.
Proof.
  intros Hr Hd Ha. unfold list_add. rewrite (ring_second _ _ _ Hr). by apply add_ring.
Qed.

Lemma op_add_tail (m : mem) (new h : Z) (l : list Z) :
  ring m (h :: l) → NoDup (new :: h :: l) → allocated m new →
  ∃ m', list_add_tail new h m = Some m' ∧ ring m' (h :: l ++ [new]) ∧ agree (new :: h :: l) m m'.
Proof.
  intros Hr Hd Ha. destruct (ring_last _ _ _ Hr) as (p & k & Hp & Hr' & Hperm & Hs & Hback).
  unfold list_add_tail. rewrite Hp. cbn [mbind option_bind].
  destruct (add_ring m new p k Hr') as (m' & Hrun & Hm & Hag); [by rewrite Hperm|done|].
  exists m'. split; [by rewrite Hs in Hrun|]. split; [by apply (Hback _ [new])|].
  destruct Hag as (A & B & C). split; [|done]. intros x Hx. apply A. by rewrite Hperm.
Qed.

Lemma op_init (m : mem) (x : Z) : allocated m x →
  ∃ m', INIT_LIST_HEAD x m = Some m' ∧ ring m' [x] ∧ agree [x] m m'.
Proof. apply init_ring. Qed.

Lemma empty_spec (m : mem) (h : Z) (l : list Z) : ring m (h :: l) → NoDup (h :: l) →
  list_empty h m = Some (bool_decide (l = [])).
Proof.
  intros Hr Hd. unfold list_empty. rewrite (ring_second _ _ _ Hr). cbn [mbind option_bind].
  destruct l as [|x l]; cbn [second]; [by rewrite Z.eqb_refl|].
  rewrite bool_decide_false by done. apply NoDup_cons in Hd as [Hd _].
  by rewrite (proj2 (Z.eqb_neq x h)) by set_solver.
Qed.

Lemma op_splice (m : mem) (a h : Z) (l1 l2 : list Z) :
  ring m (a :: l1) → ring m (h :: l2) → NoDup ((a :: l1) ++ h :: l2) → l1 ≠ [] →
  ∃ n m', next h m = Some n ∧ __list_splice a h n m = Some m' ∧ ring m' (h :: l1 ++ l2) ∧
    agree (l1 ++ h :: l2) m m'.
Proof.
  intros Hr1 Hr2 Hd Hne. destruct l1 as [|x l1]; [done|].
  destruct (splice_ring _ _ _ _ _ _ Hr1 Hr2 Hd) as (m' & Hrun & Hm & Ha).
  exists (second h l2), m'. split; [by apply ring_second|]. done.
Qed.

Lemma op_splice_tail (m : mem) (a h : Z) (l1 l2 : list Z) :
  ring m (a :: l1) → ring m (h :: l2) → NoDup ((a :: l1) ++ h :: l2) → l1 ≠ [] →
  ∃ p m', prev h m = Some p ∧ __list_splice a p h m = Some m' ∧ ring m' (h :: l2 ++ l1) ∧
    agree (l1 ++ h :: l2) m m'.
Proof.
  intros Hr1 Hr2 Hd Hne. destruct l1 as [|x l1]; [done|].
  destruct (ring_last _ _ _ Hr2) as (p & k & Hp & Hr' & Hperm & Hs & Hback).
  destruct (splice_ring _ _ _ _ _ _ Hr1 Hr') as (m' & Hrun & Hm & Ha); [by rewrite Hperm|].
  exists p, m'. split; [done|]. split; [by rewrite Hs in Hrun|]. split; [by apply Hback|].
  destruct Ha as (A & B & C). split; [|done]. intros y Hy. apply A. by rewrite Hperm.
Qed.

Lemma op_replace (m : mem) (old new h : Z) (l1 l2 : list Z) :
  ring m (h :: l1 ++ old :: l2) → NoDup (new :: h :: l1 ++ old :: l2) → allocated m new →
  ∃ m', list_replace old new m = Some m' ∧ ring m' (h :: l1 ++ new :: l2) ∧
    agree (new :: h :: l1 ++ old :: l2) m m'.
Proof.
  intros Hr Hd Ha.
  destruct (replace_ring m old new (l2 ++ h :: l1)) as (m' & Hrun & Hm & Hag).
  - by apply (ring_rot m (h :: l1) (old :: l2)).
  - revert Hd. apply NoDup_Permutation_proper. constructor.
    apply (Permutation_app_comm (old :: l2) (h :: l1)).
  - done.
  - exists m'. split; [done|]. split; [by apply (ring_rot m' (new :: l2) (h :: l1))|].
    destruct Hag as (A & B & C). split; [|done]. intros y Hy. apply A. intros Hin. apply Hy.
    revert Hin. rewrite !elem_of_cons, !elem_of_app, !elem_of_cons. tauto.
Qed.

(** ** Refinement: any number of lists under any operations *)

Inductive op :=
| Init (x : Z) | Add (new head : Z) | AddTail (new head : Z) | Del (e : Z) | DelInit (e : Z)
| Replace (old new : Z) | ReplaceInit (old new : Z) | Move (e head : Z) | MoveTail (e head : Z)
| Splice (a head : Z) | SpliceTail (a head : Z) | SpliceInit (a head : Z) | SpliceTailInit (a head : Z)
| Cut (x head e : Z).

Definition run_op (o : op) : mem → option mem :=
  match o with
  | Init x => INIT_LIST_HEAD x
  | Add new head => list_add new head
  | AddTail new head => list_add_tail new head
  | Del e => list_del e
  | DelInit e => list_del_init e
  | Replace old new => list_replace old new
  | ReplaceInit old new => list_replace_init old new
  | Move e head => list_move e head
  | MoveTail e head => list_move_tail e head
  | Splice a head => list_splice a head
  | SpliceTail a head => list_splice_tail a head
  | SpliceInit a head => list_splice_init a head
  | SpliceTailInit a head => list_splice_tail_init a head
  | Cut x head e => list_cut_position x head e
  end.

Section Refinement.
Variable D : Z → Prop.   (* the addresses of [list_head]s *)

(** The effect of an operation on the lists it works on, each written as its
    head followed by its entries; the other lists are not mentioned.  [x] is
    the address the operation takes from outside the lists. *)
Inductive effect : op → option Z → list (list Z) → list (list Z) → Prop :=
| eff_init x : effect (Init x) (Some x) [] [[x]]
| eff_add x h l : effect (Add x h) (Some x) [h :: l] [h :: x :: l]
| eff_add_tail x h l : effect (AddTail x h) (Some x) [h :: l] [h :: l ++ [x]]
| eff_del e h l1 l2 : effect (Del e) None [h :: l1 ++ e :: l2] [h :: l1 ++ l2]
| eff_del_init e h l1 l2 : effect (DelInit e) None [h :: l1 ++ e :: l2] [h :: l1 ++ l2; [e]]
| eff_replace old x h l1 l2 :
    effect (Replace old x) (Some x) [h :: l1 ++ old :: l2] [h :: l1 ++ x :: l2]
| eff_replace_head h x l : effect (Replace h x) (Some x) [h :: l] [x :: l]
| eff_replace_init old x h l1 l2 :
    effect (ReplaceInit old x) (Some x) [h :: l1 ++ old :: l2] [h :: l1 ++ x :: l2; [old]]
| eff_replace_init_head h x l : effect (ReplaceInit h x) (Some x) [h :: l] [x :: l; [h]]
| eff_move e h l1 l2 : effect (Move e h) None [h :: l1 ++ e :: l2] [h :: e :: l1 ++ l2]
| eff_move_other e h h' l l1 l2 :
    effect (Move e h) None [h' :: l1 ++ e :: l2; h :: l] [h' :: l1 ++ l2; h :: e :: l]
| eff_move_tail e h l1 l2 : effect (MoveTail e h) None [h :: l1 ++ e :: l2] [h :: (l1 ++ l2) ++ [e]]
| eff_move_tail_other e h h' l l1 l2 :
    effect (MoveTail e h) None [h' :: l1 ++ e :: l2; h :: l] [h' :: l1 ++ l2; h :: l ++ [e]]
| eff_splice a h l1 l2 : l1 ≠ [] → effect (Splice a h) None [a :: l1; h :: l2] [h :: l1 ++ l2]
| eff_splice_tail a h l1 l2 : l1 ≠ [] → effect (SpliceTail a h) None [a :: l1; h :: l2] [h :: l2 ++ l1]
| eff_splice_init a h l1 l2 : effect (SpliceInit a h) None [a :: l1; h :: l2] [[a]; h :: l1 ++ l2]
| eff_splice_tail_init a h l1 l2 :
    effect (SpliceTailInit a h) None [a :: l1; h :: l2] [[a]; h :: l2 ++ l1]
| eff_splice_empty a h l : effect (Splice a h) None [[a]; h :: l] [[a]; h :: l]
| eff_splice_tail_empty a h l : effect (SpliceTail a h) None [[a]; h :: l] [[a]; h :: l]
| eff_cut x h e l1 l2 : effect (Cut x h e) (Some x) [h :: l1 ++ e :: l2] [x :: l1 ++ [e]; h :: l2]
| eff_cut_none x h l : l ≠ [] → effect (Cut x h h) (Some x) [h :: l] [[x]; h :: l]
| eff_cut_empty x h e : effect (Cut x h e) (Some x) [[h]] [[h]].

(** The lists [Rs] are in the memory, without a common address. *)
Definition repr (m : mem) (Rs : list (list Z)) : Prop :=
  Forall (ring m) Rs ∧ NoDup (concat Rs) ∧ ∀ x, D x → allocated m x.

(** A step of the abstract machine; lists may be given up at any time. *)
Definition fresh (x : option Z) (Rs : list (list Z)) : Prop :=
  ∀ y, x = Some y → D y ∧ y ∉ concat Rs.

Inductive step : op → list (list Z) → list (list Z) → Prop :=
| step_intro o x cs cs' R Rs : effect o x cs cs' → cs ++ R ⊆+ Rs → fresh x (cs ++ R) → step o Rs (cs' ++ R).

Lemma repr_sub (m : mem) (Rs Rs' : list (list Z)) : Rs' ⊆+ Rs → repr m Rs → repr m Rs'.
Proof.
  intros Hsub (Hr & Hd & Ha). apply submseteq_Permutation in Hsub as [k Hk]. rewrite Hk in Hr, Hd.
  apply Forall_app in Hr as [Hr _]. rewrite concat_app in Hd. apply NoDup_app in Hd as (Hd & _). done.
Qed.

Definition taken (x : option Z) : list Z := match x with Some y => [y] | None => [] end.

Lemma effect_addresses (o : op) (x : option Z) (cs cs' : list (list Z)) :
  effect o x cs cs' → concat cs' ⊆+ taken x ++ concat cs.
Proof.
  destruct 1; cbn [concat taken app]; rewrite ?app_nil_r; try solve_submseteq.
Qed.
End Refinement.

(** What has to be shown of an operation. *)
Definition runs (o : mem → option mem) (m : mem) (ws : list Z) (cs' : list (list Z)) : Prop :=
  ∃ m', o m = Some m' ∧ Forall (ring m') cs' ∧ agree ws m m'.

Lemma agree_weaken (ws ws' : list Z) (m m' : mem) : ws ⊆ ws' → agree ws m m' → agree ws' m m'.
Proof. intros Hs (A & B & C). split; [|done]. intros x Hx. apply A. auto. Qed.

Lemma agree_refl (ws : list Z) (m : mem) : agree ws m m.
Proof. done. Qed.

Lemma poison_agree (m : mem) (e a b : Z) : allocated m e →
  ∃ m', (m1 ← set_next e a m; set_prev e b m1) = Some m' ∧ agree [e] m m'.
Proof. intros [Hn Hp]. exec. eexists. split; [done|agree_tac]. Qed.

Lemma runs_del (m : mem) (h e : Z) (l1 l2 : list Z) :
  ring m (h :: l1 ++ e :: l2) → NoDup (h :: l1 ++ e :: l2) →
  runs (list_del e) m (h :: l1 ++ e :: l2) [h :: l1 ++ l2].
Proof.
  intros Hr Hd. destruct (op_del _ _ _ _ _ Hr Hd) as (p & n & m1 & Hp & Hn & Hrun & Hm & Ha & He).
  unfold runs, list_del. rewrite Hp, Hn. cbn [mbind option_bind]. rewrite Hrun. cbn [mbind option_bind].
  destruct (poison_agree m1 e LIST_POISON1 LIST_POISON2 He) as (m2 & E & Ha2). exists m2.
  split; [done|]. split.
  - constructor; [|done]. apply (ring_frame [e] m1); [done| |done].
    intros x Hx [->|Hx2%elem_of_nil]%elem_of_cons; [|done]. clear -Hx Hd.
    change (h :: l1 ++ e :: l2) with ((h :: l1) ++ e :: l2) in Hd.
    rewrite (Permutation_app_comm (h :: l1)) in Hd. cbn [app] in Hd. apply NoDup_cons in Hd as [Hd _].
    apply Hd. rewrite <-(Permutation_app_comm (h :: l1)). done.
  - eapply agree_weaken; [|eapply agree_trans; [exact Ha|exact Ha2]]. set_solver.
Qed.

(** [op_del], then an operation [f] that leaves the shortened ring alone. *)
Lemma runs_after_del (m : mem) (h e : Z) (l1 l2 : list Z) (f : mem → option mem) (cs : list (list Z)) (ws : list Z) :
  ring m (h :: l1 ++ e :: l2) → NoDup (h :: l1 ++ e :: l2) →
  (∀ m1, ring m1 (h :: l1 ++ l2) → agree (h :: l1 ++ l2) m m1 → allocated m1 e → runs f m1 ws cs) →
  runs (λ m, p ← prev e m; n ← next e m; m ← __list_del p n m; f m) m ((h :: l1 ++ l2) ++ ws) cs.
Proof.
  intros Hr Hd Hf. destruct (op_del _ _ _ _ _ Hr Hd) as (p & n & m1 & Hp & Hn & Hrun & Hm & Ha & He).
  destruct (Hf m1 Hm Ha He) as (m2 & E & Hc & Ha2). exists m2. rewrite Hp, Hn. cbn [mbind option_bind].
  rewrite Hrun. cbn [mbind option_bind]. split; [done|]. split; [done|]. by eapply agree_trans.
Qed.

(** [INIT_LIST_HEAD] of an address that is in none of the rings. *)
Lemma runs_init (m : mem) (x : Z) (cs : list (list Z)) :
  allocated m x → Forall (ring m) cs → (x ∉ concat cs) → runs (INIT_LIST_HEAD x) m [x] ([x] :: cs).
Proof.
  intros Hx Hc Hn. destruct (init_ring m x Hx) as (m' & Hrun & Hr & Ha). exists m'. split; [done|]. split; [|done].
  constructor; [done|]. apply Forall_forall. intros c Hin. rewrite Forall_forall in Hc.
  apply (ring_frame [x] m); [done| |by apply Hc].
  intros y Hy [->|Hy2%elem_of_nil]%elem_of_cons; [|done]. apply Hn. apply list_elem_of_In, in_concat.
  exists c. by rewrite <-!list_elem_of_In.
Qed.

Lemma NoDup_mid (h e : Z) (l1 l2 : list Z) : NoDup (h :: l1 ++ e :: l2) → NoDup (e :: h :: l1 ++ l2).
Proof.
  intros Hd. change (h :: l1 ++ e :: l2) with ((h :: l1) ++ e :: l2) in Hd.
  by rewrite <-Permutation_middle in Hd.
Qed.

Lemma frame_other (m m' : mem) (ws c : list Z) : agree ws m m' → NoDup (ws ++ c) → ring m c → ring m' c.
Proof.
  intros Ha Hd. apply (ring_frame ws); [done|]. intros x Hx Hw. apply NoDup_app in Hd as (_ & Hd & _). by apply (Hd x).
Qed.

Lemma runs_weaken (f : mem → option mem) (m : mem) (ws ws' : list Z) (cs : list (list Z)) :
  ws ⊆ ws' → runs f m ws cs → runs f m ws' cs.
Proof. intros Hs (m' & E & Hc & Ha). exists m'. split; [done|]. split; [done|]. by eapply agree_weaken. Qed.

Lemma runs_splice (m : mem) (a h : Z) (l1 l2 : list Z) (tl : bool) :
  ring m (a :: l1) → ring m (h :: l2) → NoDup ((a :: l1) ++ h :: l2) → l1 ≠ [] →
  runs (if tl then list_splice_tail a h else list_splice a h) m ((a :: l1) ++ h :: l2)
       [if tl then h :: l2 ++ l1 else h :: l1 ++ l2].
Proof.
  intros Hr1 Hr2 Hd Hne. pose proof (empty_spec m a l1 Hr1 ltac:(by apply NoDup_app in Hd as [? _])) as He.
  rewrite bool_decide_false in He by done. destruct tl.
  - destruct (op_splice_tail _ _ _ _ _ Hr1 Hr2 Hd Hne) as (n & m' & Hn & Hrun & Hm & Ha). exists m'.
    unfold list_splice_tail. rewrite He. cbn [mbind option_bind negb]. rewrite Hn. cbn [mbind option_bind].
    split; [done|]. split; [by constructor|]. eapply agree_weaken; [|exact Ha]. set_solver.
  - destruct (op_splice _ _ _ _ _ Hr1 Hr2 Hd Hne) as (n & m' & Hn & Hrun & Hm & Ha). exists m'.
    unfold list_splice. rewrite He. cbn [mbind option_bind negb]. rewrite Hn. cbn [mbind option_bind].
    split; [done|]. split; [by constructor|]. eapply agree_weaken; [|exact Ha]. set_solver.
Qed.

Lemma splice_init_eq (a h : Z) (m : mem) (l : list Z) : ring m (a :: l) → NoDup (a :: l) → l ≠ [] →
  list_splice_init a h m = (m ← list_splice a h m; INIT_LIST_HEAD a m) ∧
  list_splice_tail_init a h m = (m ← list_splice_tail a h m; INIT_LIST_HEAD a m).
Proof.
  intros Hr Hd Hne. pose proof (empty_spec m a l Hr Hd) as He. rewrite bool_decide_false in He by done.
  unfold list_splice_init, list_splice_tail_init, list_splice, list_splice_tail. rewrite He.
  cbn [mbind option_bind negb]. split; [by destruct (next h m)|by destruct (prev h m)].
Qed.

Lemma runs_splice_init (m : mem) (a h : Z) (l1 l2 : list Z) (tl : bool) :
  ring m (a :: l1) → ring m (h :: l2) → NoDup ((a :: l1) ++ h :: l2) →
  runs (if tl then list_splice_tail_init a h else list_splice_init a h) m ((a :: l1) ++ h :: l2)
       [[a]; if tl then h :: l2 ++ l1 else h :: l1 ++ l2].
Proof.
  intros Hr1 Hr2 Hd. destruct (decide (l1 = [])) as [->|Hne].
  - exists m. pose proof (empty_spec m a [] Hr1 ltac:(by apply NoDup_app in Hd as [? _])) as He.
    unfold list_splice_init, list_splice_tail_init.
    split; [by destruct tl; rewrite He|]. split; [|apply agree_refl].
    destruct tl; cbn [app]; rewrite ?app_nil_r; (constructor; [done|]; constructor; done).
  - destruct (runs_splice m a h l1 l2 tl Hr1 Hr2 Hd Hne) as (m1 & E & Hc & Ha).
    destruct (splice_init_eq a h m l1 Hr1 ltac:(by apply NoDup_app in Hd as [? _]) Hne) as [E1 E2].
    destruct (runs_init m1 a [if tl then h :: l2 ++ l1 else h :: l1 ++ l2]) as (m2 & E3 & Hc3 & Ha3).
    + eapply agree_alloc; [exact Ha|]. apply (ring_alloc _ _ a Hr1). by left.
    + done.
    + cbn [concat]. rewrite app_nil_r. cbn [app] in Hd. apply NoDup_cons in Hd as [Hd _]. destruct tl; set_solver.
    + exists m2. split; [destruct tl; [rewrite E2|rewrite E1]; rewrite E; done|]. split; [done|].
      eapply agree_weaken; [|eapply agree_trans; [exact Ha|exact Ha3]]. set_solver.
Qed.

Lemma runs_replace (m : mem) (old new h : Z) (l1 l2 : list Z) :
  ring m (h :: l1 ++ old :: l2) → NoDup (new :: h :: l1 ++ old :: l2) → allocated m new →
  runs (list_replace old new) m (new :: h :: l1 ++ old :: l2) [h :: l1 ++ new :: l2].
Proof.
  intros Hr Hd Ha. destruct (op_replace _ _ _ _ _ _ Hr Hd Ha) as (m' & E & Hm & Hag).
  exists m'. split; [done|]. split; [by constructor|done].
Qed.

Lemma runs_replace_head (m : mem) (new h : Z) (l : list Z) :
  ring m (h :: l) → NoDup (new :: h :: l) → allocated m new →
  runs (list_replace h new) m (new :: h :: l) [new :: l].
Proof.
  intros Hr Hd Ha. destruct (replace_ring _ _ _ _ Hr Hd Ha) as (m' & E & Hm & Hag).
  exists m'. split; [done|]. split; [by constructor|done].
Qed.

(** An operation, then [INIT_LIST_HEAD] of an address that has left the ring. *)
Lemma runs_then_init (f : mem → option mem) (m : mem) (x : Z) (ws c : list Z) :
  runs f m ws [c] → allocated m x → x ∉ c → x ∈ ws →
  runs (λ m, m ← f m; INIT_LIST_HEAD x m) m ws [c; [x]].
Proof.
  intros (m1 & E & Hc & Ha) Hx Hn Hw.
  destruct (runs_init m1 x [c]) as (m2 & E2 & Hc2 & Ha2); [by eapply agree_alloc|done|by cbn [concat]; rewrite app_nil_r|].
  exists m2. rewrite E. split; [done|]. split.
  - apply Forall_cons in Hc2 as [H1 H2]. apply Forall_cons in H2 as [H2 _]. by repeat (constructor; [done|]).
  - eapply agree_weaken; [|by eapply agree_trans]. set_solver.
Qed.

Lemma runs_cut (m : mem) (x h e : Z) (l1 l2 : list Z) :
  ring m (h :: l1 ++ e :: l2) → NoDup (x :: h :: l1 ++ e :: l2) → allocated m x →
  runs (list_cut_position x h e) m (x :: h :: l1 ++ e :: l2) [x :: l1 ++ [e]; h :: l2].
Proof.
  intros Hr Hd Ha. destruct (cut_ring _ _ _ _ _ _ Hr Hd Ha) as (m' & E & H1 & H2 & Hag).
  exists m'. split; [|split; [by repeat (constructor; [done|])|done]].
  apply NoDup_cons in Hd as [Hx Hd]. pose proof (empty_spec m h _ Hr Hd) as He.
  rewrite bool_decide_false in He by (by destruct l1).
  assert (e ≠ h) as Heh.
  { apply NoDup_cons in Hd as [Hh _]. intros ->. apply Hh. set_solver. }
  unfold list_cut_position. rewrite He. cbn [mbind option_bind].
  destruct (ring_last _ _ _ Hr) as (p & k & Hp & _ & Hperm & _ & _).
  pose proof (ring_second _ _ _ Hr) as Hs.
  unfold list_is_singular. rewrite He. cbn [mbind option_bind]. rewrite Hs, Hp. cbn [mbind option_bind negb andb].
  rewrite (proj2 (Z.eqb_neq e h)) by done.
  assert ((second h (l1 ++ e :: l2) =? p) && (negb (second h (l1 ++ e :: l2) =? e) && negb (h =? e)) = false) as ->;
    [|done].
  destruct l1 as [|y l1]; cbn [second app]; [by rewrite Z.eqb_refl, andb_false_r|].
  rewrite (proj2 (Z.eqb_neq y p)); [done|]. intros ->. clear -Hr Hd Hp.
  cbn [app ring path] in Hr. destruct Hr as [_ Hr]. cbn [app] in Hd.
  apply NoDup_cons in Hd as [_ Hd]. apply NoDup_cons in Hd as [Hpl _].
  destruct (snoc_split p (l1 ++ e :: l2)) as (q & z & Eq).
  destruct (exists_last (l := l1 ++ e :: l2)) as (q' & z' & Eq'); [by destruct l1|].
  rewrite Eq' in Hr, Hpl. apply path_app in Hr as [_ [_ Hz]]. rewrite Hp in Hz. injection Hz as <-.
  apply Hpl. set_solver.
Qed.

(** [list_move] and [list_move_tail]: [f] adds the entry to the list [h :: l]. *)
Definition adds (f : mem → option mem) (e h : Z) (l l' : list Z) : Prop :=
  ∀ m1, ring m1 (h :: l) → NoDup (e :: h :: l) → allocated m1 e →
  ∃ m2, f m1 = Some m2 ∧ ring m2 l' ∧ agree (e :: h :: l) m1 m2.

Lemma runs_move_same (m : mem) (e h : Z) (l1 l2 : list Z) (f : mem → option mem) (l' : list Z) :
  ring m (h :: l1 ++ e :: l2) → NoDup (h :: l1 ++ e :: l2) → adds f e h (l1 ++ l2) l' →
  runs (λ m, p ← prev e m; n ← next e m; m ← __list_del p n m; f m) m (h :: l1 ++ e :: l2) [l'].
Proof.
  intros Hr Hd Hf. eapply runs_weaken; [|apply (runs_after_del m h e l1 l2 _ _ (e :: h :: l1 ++ l2)); [done|done|]].
  { set_solver. }
  intros m1 Hm Hag Hae. destruct (Hf m1) as (m2 & E & Hm2 & Ha2); [done|by apply NoDup_mid|done|].
  exists m2. split; [done|]. split; [by constructor|done].
Qed.

Lemma runs_move_other (m : mem) (e h h' : Z) (l l1 l2 : list Z) (f : mem → option mem) (l' : list Z) :
  ring m (h' :: l1 ++ e :: l2) → ring m (h :: l) → NoDup ((h' :: l1 ++ e :: l2) ++ h :: l) → adds f e h l l' →
  runs (λ m, p ← prev e m; n ← next e m; m ← __list_del p n m; f m) m
       ((h' :: l1 ++ e :: l2) ++ h :: l) [h' :: l1 ++ l2; l'].
Proof.
  intros Hr1 Hr2 Hd Hf. apply NoDup_app in Hd as (Hda & Hdb & Hdc).
  eapply runs_weaken; [|apply (runs_after_del m h' e l1 l2 _ _ (e :: h :: l)); [done|done|]].
  { set_solver. }
  intros m1 Hm Hag Hae. apply NoDup_mid, NoDup_cons in Hda as [He Hda].
  assert (∀ y, y ∈ h' :: l1 ++ l2 → y ∉ h :: l) as Hdb' by (intros y Hy; apply Hdb; set_solver).
  destruct (Hf m1) as (m2 & E & Hm2 & Ha2).
  - eapply frame_other; [exact Hag| |done]. apply NoDup_app. done.
  - constructor; [apply Hdb; set_solver|done].
  - done.
  - exists m2. split; [done|]. split; [|done]. constructor; [|by constructor].
    eapply ring_frame; [exact Ha2| |exact Hm]. intros y Hy [->|Hy2]%elem_of_cons; [done|by apply (Hdb' y)].
Qed.

Lemma runs_cut_none (m : mem) (x h : Z) (l : list Z) :
  ring m (h :: l) → NoDup (x :: h :: l) → allocated m x → l ≠ [] →
  runs (list_cut_position x h h) m (x :: h :: l) [[x]; h :: l].
Proof.
  intros Hr Hd Ha Hne. apply NoDup_cons in Hd as [Hx Hd].
  destruct (runs_init m x [h :: l]) as (m' & E & Hc & Hag);
    [done|by constructor|by cbn [concat]; rewrite app_nil_r|].
  exists m'. split; [|split; [done|eapply agree_weaken; [|exact Hag]; set_solver]].
  pose proof (empty_spec m h l Hr Hd) as He. rewrite bool_decide_false in He by done.
  destruct (ring_last _ _ _ Hr) as (p & k & Hp & _). pose proof (ring_second _ _ _ Hr) as Hs.
  unfold list_cut_position, list_is_singular. rewrite He. cbn [mbind option_bind]. rewrite Hs, Hp.
  cbn [mbind option_bind]. rewrite Z.eqb_refl. cbn [negb]. by rewrite !andb_false_r.
Qed.

(** Every operation has its effect. *)
Lemma effect_runs (o : op) (x : option Z) (cs cs' : list (list Z)) (m : mem) :
  effect o x cs cs' → Forall (ring m) cs → NoDup (taken x ++ concat cs) →
  (∀ y, x = Some y → allocated m y) → runs (run_op o) m (taken x ++ concat cs) cs'.
Proof.
  intros He Hr Hd Hx.
  destruct He; cbn [run_op concat taken app] in *; rewrite ?app_nil_r in *;
    try (pose proof (Hx _ eq_refl) as Ha; clear Hx);
    repeat match goal with Hf : Forall (ring m) (_ :: _) |- _ => apply Forall_cons in Hf as [? Hf] end.
  - (* Init *) apply runs_init; [done|done|apply not_elem_of_nil].
  - (* Add *) destruct (op_add m x h l) as (m' & E & Hm & Hag); [done..|]. exists m'. split; [done|]. split; [by constructor|done].
  - (* AddTail *) destruct (op_add_tail m x h l) as (m' & E & Hm & Hag); [done..|]. exists m'. split; [done|]. split; [by constructor|done].
  - (* Del *) by apply runs_del.
  - (* DelInit *)
    eapply runs_weaken; [|unfold list_del_init; apply (runs_after_del m h e l1 l2 _ _ [e]); [done|done|]].
    { set_solver. }
    intros m1 Hm Hag Hae. apply NoDup_mid, NoDup_cons in Hd as [Hd _].
    destruct (runs_init m1 e [h :: l1 ++ l2]) as (m2 & E & Hc & Ha2); [done|by constructor|by cbn [concat]; rewrite app_nil_r|].
    exists m2. split; [done|]. split; [|done].
    apply Forall_cons in Hc as [H1 H2]. apply Forall_cons in H2 as [H2 _]. by repeat (constructor; [done|]).
  - (* Replace *) by apply runs_replace.
  - (* Replace, the head *) by apply runs_replace_head.
  - (* ReplaceInit *)
    unfold list_replace_init. apply runs_then_init; [by apply runs_replace| | |].
    + by eapply ring_alloc; [done|set_solver].
    + apply NoDup_cons in Hd as [Hxn Hd]. apply NoDup_mid, NoDup_cons in Hd as [Hd _]. set_solver.
    + set_solver.
  - (* ReplaceInit, the head *)
    unfold list_replace_init. apply runs_then_init; [by apply runs_replace_head| | |].
    + by eapply ring_alloc; [done|by left].
    + apply NoDup_cons in Hd as [Hxn Hd]. apply NoDup_cons in Hd as [Hd _]. set_solver.
    + set_solver.
  - (* Move *) by apply (runs_move_same m e h l1 l2 (list_add e h)); [done..|intros ????; by apply op_add].
  - by apply (runs_move_other m e h h' l l1 l2 (list_add e h)); [done..|intros ????; by apply op_add].
  - (* MoveTail *) by apply (runs_move_same m e h l1 l2 (list_add_tail e h)); [done..|intros ????; by apply op_add_tail].
  - by apply (runs_move_other m e h h' l l1 l2 (list_add_tail e h)); [done..|intros ????; by apply op_add_tail].
  - (* Splice *) by apply (runs_splice m a h l1 l2 false).
  - by apply (runs_splice m a h l1 l2 true).
  - by apply (runs_splice_init m a h l1 l2 false).
  - by apply (runs_splice_init m a h l1 l2 true).
  - (* nothing to splice *)
    exists m. unfold list_splice. rewrite (empty_spec m a []) by (done || by apply NoDup_singleton).
    split; [done|]. split; [by repeat (constructor; [done|])|done].
  - exists m. unfold list_splice_tail. rewrite (empty_spec m a []) by (done || by apply NoDup_singleton).
    split; [done|]. split; [by repeat (constructor; [done|])|done].
  - (* Cut *) by apply runs_cut.
  - (* Cut at the head *) by apply runs_cut_none.
  - (* Cut of an empty list *)
    exists m. unfold list_cut_position. rewrite (empty_spec m h []) by (done || by apply NoDup_singleton).
    split; [done|]. split; [by repeat (constructor; [done|])|done].
Qed.

(** ** Properties *)

Section Properties.
Variable D : Z → Prop.

Lemma effect_fresh (o : op) (x : option Z) (cs cs' R : list (list Z)) (m : mem) :
  effect o x cs cs' → repr D m (cs ++ R) → fresh D x (cs ++ R) →
  NoDup (taken x ++ concat cs ++ concat R).
Proof.
  intros _ (_ & Hd & _) Hf. rewrite concat_app in Hd. destruct x as [y|]; [|done].
  destruct (Hf y eq_refl) as [_ Hy]. rewrite concat_app in Hy. by constructor.
Qed.

Lemma step_run (o : op) (Rs Rs' : list (list Z)) (m : mem) :
  step D o Rs Rs' → repr D m Rs → ∃ m', run_op o m = Some m' ∧ repr D m' Rs'.
Proof.
  intros [o' x cs cs' R Rs0 He Hsub Hf] Hr. apply (repr_sub _ _ _ _ Hsub) in Hr.
  pose proof (effect_fresh _ _ _ _ _ _ He Hr Hf) as Hd. destruct Hr as (Hr & _ & Ha).
  apply Forall_app in Hr as [Hc HR]. rewrite app_assoc in Hd.
  pose proof Hd as Hd'. apply NoDup_app in Hd' as (Hd1 & Hd2 & Hd3).
  destruct (effect_runs _ _ _ _ _ He Hc Hd1) as (m' & E & Hc' & Hag).
  { intros y ->. apply Ha. by apply (Hf y). }
  exists m'. split; [done|]. split; [|split].
  - apply Forall_app. split; [done|]. apply Forall_forall. intros c Hin.
    apply (ring_frame (taken x ++ concat cs) m); [done| |by rewrite Forall_forall in HR; apply HR].
    intros y Hy Hw. apply (Hd2 y Hw). apply list_elem_of_In, in_concat. exists c. by rewrite <-!list_elem_of_In.
  - rewrite concat_app. pose proof (effect_addresses _ _ _ _ He) as Hs.
    apply submseteq_Permutation in Hs as [k Hk]. rewrite Hk in Hd.
    apply NoDup_app in Hd as (Hda & Hdb & Hdc). apply NoDup_app in Hda as (Hda & _ & _).
    apply NoDup_app. split; [done|]. split; [|done]. intros y Hy. apply Hdb. apply elem_of_app. by left.
  - intros y Hy. eapply agree_alloc; [exact Hag|by apply Ha].
Qed.

(** A program and the abstract machine. *)
Fixpoint run_ops (os : list op) (m : mem) : option mem :=
  match os with [] => Some m | o :: os => m ← run_op o m; run_ops os m end.

Inductive steps : list op → list (list Z) → list (list Z) → Prop :=
| steps_nil Rs : steps [] Rs Rs
| steps_cons o os Rs Rs1 Rs2 : step D o Rs Rs1 → steps os Rs1 Rs2 → steps (o :: os) Rs Rs2.

(** C12: the list functions implement the abstract machine on lists: from a
    memory that holds the lists [Rs], without a common address, any program of
    operations that the machine can take runs without touching memory that is
    no [list_head], and leaves a memory that holds the lists of the machine. *)
Theorem list_refinement (os : list op) (Rs Rs' : list (list Z)) (m : mem) :
  steps os Rs Rs' → repr D m Rs → ∃ m', run_ops os m = Some m' ∧ repr D m' Rs'.
Proof.
  intros Hs. revert m. induction Hs as [Rs|o os Rs Rs1 Rs2 H1 Hs IH]; intros m Hr; [by exists m|].
  destruct (step_run _ _ _ _ H1 Hr) as (m1 & E & Hr1). destruct (IH m1 Hr1) as (m2 & E2 & Hr2).
  exists m2. cbn [run_ops]. by rewrite E.
Qed.
End Properties.

Lemma walk_next (m : mem) (h : Z) (l : list Z) : ∀ a fuel,
  path m a l h → h ∉ l → (length l < fuel)%nat → (n ← next a m; walk next fuel n h m) = Some l.
Proof.
  induction l as [|x l IH]; intros a fuel Hp Hn Hf; (destruct fuel as [|fuel]; [simpl in Hf; lia|]); cbn [path walk] in *.
  - destruct Hp as [-> _]. cbn [mbind option_bind]. by rewrite Z.eqb_refl.
  - destruct Hp as [[Hx _] Hp]. rewrite Hx. cbn [mbind option_bind]. apply not_elem_of_cons in Hn as [Hne Hn].
    rewrite (proj2 (Z.eqb_neq x h)) by done. specialize (IH x fuel Hp Hn ltac:(simpl in Hf; lia)).
    destruct (next x m) as [n|]; [|done]. cbn [mbind option_bind] in *. by rewrite IH.
Qed.

Lemma walk_prev (m : mem) (h : Z) (l : list Z) : ∀ b fuel,
  path m h l b → h ∉ l → (length l < fuel)%nat → (p ← prev b m; walk prev fuel p h m) = Some (reverse l).
Proof.
  induction l as [|x l IH] using rev_ind; intros b fuel Hp Hn Hf;
    (destruct fuel as [|fuel]; [lia|]); cbn [walk].
  - destruct Hp as [_ ->]. cbn [mbind option_bind]. by rewrite Z.eqb_refl.
  - apply path_app in Hp as [Hp [_ Hb]]. rewrite Hb. cbn [mbind option_bind].
    apply not_elem_of_app in Hn as [Hn Hne]. apply not_elem_of_cons in Hne as [Hne _].
    rewrite (proj2 (Z.eqb_neq x h)) by done. rewrite length_app in Hf. simpl in Hf.
    specialize (IH x fuel Hp Hn ltac:(lia)). rewrite reverse_app. cbn [reverse app].
    destruct (prev x m) as [n|]; [|done]. cbn [mbind option_bind] in *. by rewrite IH.
Qed.

Lemma del_init_first (m : mem) (h x : Z) (l : list Z) :
  ring m (h :: x :: l) → NoDup (h :: x :: l) →
  ∃ m1, list_del_init x m = Some m1 ∧ ring m1 (h :: l) ∧ ring m1 [x] ∧ agree (h :: x :: l) m m1.
Proof.
  intros Hr Hd. destruct (effect_runs _ _ _ _ m (eff_del_init x h [] l)) as (m1 & E & Hc & Hag).
  - by constructor.
  - cbn [concat taken app]. by rewrite app_nil_r.
  - done.
  - exists m1. cbn [concat taken app] in Hag. rewrite app_nil_r in Hag.
    apply Forall_cons in Hc as [Hh Hc]. apply Forall_cons in Hc as [Hx _]. done.
Qed.

Lemma walk_safe_del_init (h : Z) (l : list Z) : ∀ m x fuel,
  ring m (h :: x :: l) → NoDup (h :: x :: l) → (S (length l) < fuel)%nat →
  ∃ m', (n ← next x m; walk_safe list_del_init fuel x n h m) = Some m' ∧ ring m' [h] ∧
        Forall (λ e, ring m' [e]) (x :: l) ∧ agree (h :: x :: l) m m'.
Proof.
  induction l as [|y l IH]; intros m x fuel Hr Hd Hf; (destruct fuel as [|fuel]; [lia|]);
    pose proof (ring_edge _ _ _ _ Hr) as [_ Hn]; rewrite Hn; cbn [mbind option_bind walk_safe second];
    pose proof Hd as Hd'; apply NoDup_cons in Hd' as [Hdh Hd']; apply NoDup_cons in Hd' as [Hdx Hd'];
    (assert (x ≠ h) as Hxh by set_solver); rewrite (proj2 (Z.eqb_neq x h)) by done;
    destruct (del_init_first _ _ _ _ Hr Hd) as (m1 & E & Hh & Hx & Hag); rewrite E; cbn [mbind option_bind].
  - destruct (ring_alloc _ _ h Hh ltac:(by left)) as [[n Hn'] _]. rewrite Hn'. cbn [mbind option_bind].
    destruct fuel as [|fuel]; [simpl in Hf; lia|]. cbn [walk_safe]. rewrite Z.eqb_refl.
    exists m1. split; [done|]. split; [done|]. split; [by constructor|done].
  - destruct (IH m1 y fuel Hh) as (m2 & E2 & Hh2 & Hf2 & Ha2); [constructor; [set_solver|done]|simpl in Hf; lia|].
    exists m2. split; [exact E2|]. split; [done|]. split.
    + constructor; [|done]. apply (ring_frame (h :: y :: l) m1); [done| |done].
      intros z [->|Hz%elem_of_nil]%elem_of_cons; [|done]. intros [->|Hz]%elem_of_cons; done.
    + eapply agree_weaken; [|eapply agree_trans; [exact Hag|exact Ha2]]. set_solver.
Qed.

(** what the observers and the loops see of a list: [list_empty],
    [list_empty_careful], [list_is_singular] and [list_is_last] tell whether it
    has no entry, one entry, and whether an entry is the last one;
    [list_for_each] runs through the entries in order and
    [list_for_each_prev] in reverse; and [list_for_each_safe] may unlink every
    entry on its way, which leaves the list empty and every entry a list of
    its own.  One round more than there are entries is enough fuel. *)
Theorem list_traversal (m : mem) (h : Z) (l : list Z) (fuel : nat) :
  ring m (h :: l) → NoDup (h :: l) → (length l < fuel)%nat →
  list_empty h m = Some (bool_decide (l = [])) ∧
  list_empty_careful h m = Some (bool_decide (l = [])) ∧
  list_is_singular h m = Some (bool_decide (length l = 1%nat)) ∧
  (∀ e l1 l2, l = l1 ++ e :: l2 → list_is_last e h m = Some (bool_decide (l2 = []))) ∧
  list_for_each fuel h m = Some l ∧ list_for_each_prev fuel h m = Some (reverse l) ∧
  ∃ m', list_for_each_safe list_del_init fuel h m = Some m' ∧ ring m' [h] ∧ Forall (λ e, ring m' [e]) l.
Proof.
  intros Hr Hd Hf. pose proof (empty_spec m h l Hr Hd) as He.
  pose proof Hd as Hd'. apply NoDup_cons in Hd' as [Hh Hd'].
  destruct (ring_last _ _ _ Hr) as (p & k & Hp & Hr' & Hperm & Hs & _).
  pose proof (ring_second _ _ _ Hr) as Hn.
  assert (l = [] ∧ p = h ∨ ∃ x q, l = q ++ [p] ∧ second h l = x ∧ x ∈ l ∧ p ∈ l ∧ (x = p ↔ q = [])) as Hcase.
  { destruct l as [|x l]; [left; split; [done|]; destruct Hr as [_ Hr]; congruence|]. right.
    destruct (snoc_split x l) as (q & z & E). rewrite E in Hr. cbn [ring] in Hr.
    apply path_app in Hr as [_ [_ Hz]]. assert (z = p) as -> by congruence.
    exists x, q. split; [done|]. split; [done|]. split; [by left|]. split; [rewrite E; set_solver|].
    destruct q as [|y q]; [by injection E as ->|]. split; [|done]. injection E as <- ->. intros ->.
    apply NoDup_cons in Hd' as [Hd' _]. destruct Hd'. set_solver. }
  split; [done|]. split; [|split; [|split; [|split; [|split]]]].
  - unfold list_empty_careful. rewrite Hn, Hp. cbn [mbind option_bind]. f_equal.
    destruct Hcase as [[-> ->]|(x & q & -> & Hx & Hin & Hpin & Hxp)].
    + cbn [second]. by rewrite Z.eqb_refl.
    + rewrite Hx. rewrite (proj2 (Z.eqb_neq x h)) by (intros ->; by apply Hh). symmetry. apply bool_decide_false. by destruct q.
  - unfold list_is_singular. rewrite He. cbn [mbind option_bind]. rewrite Hn, Hp. cbn [mbind option_bind]. f_equal.
    destruct Hcase as [[-> ->]|(x & q & -> & Hx & Hin & Hpin & Hxp)]; [done|].
    rewrite Hx, bool_decide_false by (by destruct q). cbn [negb andb]. apply eq_true_iff_eq.
    rewrite Z.eqb_eq, bool_decide_eq_true, Hxp, length_app. destruct q; simpl; [done|split; [done|lia]].
  - intros e l1 l2 ->. unfold list_is_last. apply path_app in Hr as [_ Hr].
    destruct l2 as [|y l2]; cbn [path] in Hr; [destruct Hr as [-> _]|destruct Hr as [[-> _] _]]; cbn [mbind option_bind]; f_equal.
    + by rewrite Z.eqb_refl.
    + rewrite bool_decide_false by done. apply Z.eqb_neq. intros ->. apply Hh. clear. set_solver.
  - by apply walk_next.
  - by apply walk_prev.
  - unfold list_for_each_safe. rewrite Hn. cbn [mbind option_bind]. destruct l as [|x l]; cbn [second].
    + rewrite Hn. cbn [mbind option_bind second]. destruct fuel as [|fuel]; [simpl in Hf; lia|]. cbn [walk_safe]. rewrite Z.eqb_refl.
      exists m. split; [done|]. split; [done|constructor].
    + destruct (walk_safe_del_init h l m x fuel Hr Hd) as (m' & E & Hh' & Hall & _); [simpl in Hf; lia|].
      by exists m'.
Qed.

(** *** The properties at work *)

Definition three_nodes : mem := Mem {[1 := 0; 2 := 0; 3 := 0]} {[1 := 0; 2 := 0; 3 := 0]}.

(** A head with a queue of two, the first of which is unlinked. *)
Lemma list_refinement_witness :
  ∃ m', run_ops [Init 1; Add 2 1; AddTail 3 1; Del 2] three_nodes = Some m' ∧
        repr (λ x, x = 1 ∨ x = 2 ∨ x = 3) m' [[1; 3]].
Proof.
  apply (list_refinement _ _ [] [[1; 3]]).
  - apply (steps_cons _ _ _ _ [[1]] _).
    { apply (step_intro _ _ _ _ _ [] [] (eff_init 1)); [done|]. intros y [= <-]. split; [by left|apply not_elem_of_nil]. }
    apply (steps_cons _ _ _ _ [[1; 2]] _).
    { apply (step_intro _ _ _ _ _ [] [[1]] (eff_add 2 1 [])); [done|]. intros y [= <-]. split; [by right; left|set_solver]. }
    apply (steps_cons _ _ _ _ [[1; 2; 3]] _).
    { apply (step_intro _ _ _ _ _ [] [[1; 2]] (eff_add_tail 3 1 [2])); [done|]. intros y [= <-]. split; [by right; right|set_solver]. }
    apply (steps_cons _ _ _ _ [[1; 3]] _); [|apply steps_nil].
    apply (step_intro _ _ _ _ _ [] [[1; 2; 3]] (eff_del 2 1 [] [3])); done.
  - split; [done|]. split; [constructor|]. intros x [->|[->| ->]]; (split; eexists; reflexivity).
Defined.

Definition ring_mem : mem := Mem {[1 := 2; 2 := 3; 3 := 1]} {[1 := 3; 2 := 1; 3 := 2]}.

Lemma list_traversal_witness :
  list_for_each 3 1 ring_mem = Some [2; 3] ∧ list_for_each_prev 3 1 ring_mem = Some [3; 2].
Proof.
  destruct (list_traversal ring_mem 1 [2; 3] 3) as (_ & _ & _ & _ & H1 & H2 & _).
  - repeat (split; [split; reflexivity|]). split; reflexivity.
  - apply (bool_decide_eq_true_1 _). reflexivity.
  - simpl. lia.
  - split; [exact H1|exact H2].
Defined.
