(* ===== verification/HList.v ===== *)
(** * Hash lists (list/mylist.h)

    [struct hlist_node] has a [next] pointer and [pprev], the address of the
    pointer that points to the node: the [first] field of the head or the [next]
    field of another node.  Pointers are numbers with 0 for NULL; reading or
    writing a field that is not in the memory is an error ([None]). *)

From S2P Require Import Prelude.

(** ** The code *)

(** The pointer fields that [pprev] may point to. *)
Inductive cell := First (h : Z) | Next (n : Z).

#[export] Instance cell_eq_dec : EqDecision cell.
Proof. solve_decision. Defined.

Inductive pprev_t := PNull | PCell (c : cell) | PPoison.

Record hmem := HMem { h_first : gmap Z Z; n_next : gmap Z Z; n_pprev : gmap Z pprev_t }.

Definition LIST_POISON1 : Z := 0x00100100.

Definition rd (c : cell) (m : hmem) : option Z :=
  match c with First h => h_first m !! h | Next n => n_next m !! n end.
Definition pprev (n : Z) (m : hmem) : option pprev_t := n_pprev m !! n.

Definition wr (c : cell) (p : Z) (m : hmem) : option hmem :=
  if decide (is_Some (rd c m)) then
    Some (match c with
          | First h => HMem (<[h:=p]> (h_first m)) (n_next m) (n_pprev m)
          | Next n => HMem (h_first m) (<[n:=p]> (n_next m)) (n_pprev m)
          end)
  else None.
Definition set_pprev (n : Z) (p : pprev_t) (m : hmem) : option hmem :=
  if decide (is_Some (pprev n m)) then Some (HMem (h_first m) (n_next m) (<[n:=p]> (n_pprev m))) else None.

(** [*pprev = p] *)
Definition wr_pprev (pp : pprev_t) (p : Z) (m : hmem) : option hmem :=
  match pp with PCell c => wr c p m | _ => None end.

Definition INIT_HLIST_NODE (h : Z) (m : hmem) : option hmem :=
  m ← wr (Next h) 0 m; set_pprev h PNull m.

Definition hlist_unhashed (h : Z) (m : hmem) : option bool :=
  pp ← pprev h m; Some (match pp with PNull => true | _ => false end).

Definition hlist_empty (h : Z) (m : hmem) : option bool :=
  f ← rd (First h) m; Some (f =? 0).

Definition __hlist_del (n : Z) (m : hmem) : option hmem :=
  next ← rd (Next n) m;
  pp ← pprev n m;
  m ← wr_pprev pp next m;
  if negb (next =? 0) then set_pprev next pp m else Some m.

Definition hlist_del (n : Z) (m : hmem) : option hmem :=
  m ← __hlist_del n m;
  m ← wr (Next n) LIST_POISON1 m;
  set_pprev n PPoison m.

Definition hlist_del_init (n : Z) (m : hmem) : option hmem :=
  u ← hlist_unhashed n m;
  if negb (u : bool) then m ← __hlist_del n m; INIT_HLIST_NODE n m else Some m.

Definition hlist_add_head (n h : Z) (m : hmem) : option hmem :=
  first ← rd (First h) m;
  m ← wr (Next n) first m;
  m ← (if negb (first =? 0) then set_pprev first (PCell (Next n)) m else Some m);
  m ← wr (First h) n m;
  set_pprev n (PCell (First h)) m.

Definition hlist_add_before (n next : Z) (m : hmem) : option hmem :=
  pp ← pprev next m;
  m ← set_pprev n pp m;
  m ← wr (Next n) next m;
  m ← set_pprev next (PCell (Next n)) m;
  pp ← pprev n m;
  wr_pprev pp n m.

(** [next] goes after [n]. *)
Definition hlist_add_after (n next : Z) (m : hmem) : option hmem :=
  nn ← rd (Next n) m;
  m ← wr (Next next) nn m;
  m ← wr (Next n) next m;
  m ← set_pprev next (PCell (Next n)) m;
  nn ← rd (Next next) m;
  if negb (nn =? 0) then set_pprev nn (PCell (Next next)) m else Some m.

Definition hlist_move_list (old new : Z) (m : hmem) : option hmem :=
  first ← rd (First old) m;
  m ← wr (First new) first m;
  first ← rd (First new) m;
  m ← (if negb (first =? 0) then set_pprev first (PCell (First new)) m else Some m);
  wr (First old) 0 m.

(** [hlist_for_each] *)
Fixpoint hwalk (fuel : nat) (pos : Z) (m : hmem) : option (list Z) :=
  match fuel with
  | O => None
  | S fuel =>
    if pos =? 0 then Some []
    else n ← rd (Next pos) m; l ← hwalk fuel n m; Some (pos :: l)
  end.
Definition hlist_for_each (fuel : nat) (h : Z) (m : hmem) : option (list Z) :=
  f ← rd (First h) m; hwalk fuel f m.

(** ** Chains *)

(** From the field [c] through the nodes of [l] to the field [d]. *)
Fixpoint seg (m : hmem) (c : cell) (l : list Z) (d : cell) : Prop :=
  match l with
  | [] => c = d
  | n :: l => n ≠ 0 ∧ rd c m = Some n ∧ pprev n m = Some (PCell c) ∧ seg m (Next n) l d
  end.

Definition chain (m : hmem) (c : cell) (l : list Z) : Prop := ∃ d, seg m c l d ∧ rd d m = Some 0.
Definition hlist (m : hmem) (h : Z) (l : list Z) : Prop := chain m (First h) l.

(** The fields that a segment reads. *)
Fixpoint seg_cells (c : cell) (l : list Z) : list cell :=
  match l with [] => [] | n :: l => c :: seg_cells (Next n) l end.

Lemma seg_cells_last (m : hmem) (l : list Z) (d : cell) : ∀ c,
  seg m c l d → seg_cells c l ++ [d] = c :: (Next <$> l).
Proof.
  induction l as [|n l IH]; intros c; cbn [seg seg_cells app fmap list_fmap]; [by intros ->|].
  intros (_ & _ & _ & Hs). f_equal. by apply IH.
Qed.

Lemma seg_app (m : hmem) (l1 l2 : list Z) (d : cell) : ∀ c,
  seg m c (l1 ++ l2) d ↔ ∃ e, seg m c l1 e ∧ seg m e l2 d.
Proof.
  induction l1 as [|n l1 IH]; intros c; cbn [seg app].
  - split; [intros Hs; by exists c|by intros (e & -> & Hs)].
  - rewrite IH. naive_solver.
Qed.

Lemma chain_app (m : hmem) (c : cell) (l1 l2 : list Z) :
  chain m c (l1 ++ l2) ↔ ∃ e, seg m c l1 e ∧ chain m e l2.
Proof.
  unfold chain. setoid_rewrite seg_app. naive_solver.
Qed.

Lemma chain_first (m : hmem) (c : cell) (l : list Z) : chain m c l → rd c m = Some (hd 0 l).
Proof. intros (d & Hs & Hd). destruct l; cbn [seg hd] in *; naive_solver. Qed.

Lemma chain_cons (m : hmem) (c : cell) (n : Z) (l : list Z) :
  chain m c (n :: l) ↔ n ≠ 0 ∧ rd c m = Some n ∧ pprev n m = Some (PCell c) ∧ chain m (Next n) l.
Proof. unfold chain. cbn [seg]. naive_solver. Qed.

(** A segment depends on the fields it reads only. *)
Lemma seg_frame (m m' : hmem) (l : list Z) (d : cell) : ∀ c,
  (∀ x, x ∈ seg_cells c l → rd x m' = rd x m) → (∀ n, n ∈ l → pprev n m' = pprev n m) →
  seg m c l d → seg m' c l d.
Proof.
  induction l as [|n l IH]; intros c Hc Hp; cbn [seg seg_cells] in *; [done|].
  intros (H0 & H1 & H2 & Hs). rewrite Hc by (by left). rewrite Hp by (by left).
  split; [done|]. split; [done|]. split; [done|].
  apply IH; [intros x Hx; apply Hc; by right|intros x Hx; apply Hp; by right|done].
Qed.

Lemma chain_frame (m m' : hmem) (c : cell) (l : list Z) :
  (∀ x, x ∈ c :: (Next <$> l) → rd x m' = rd x m) → (∀ n, n ∈ l → pprev n m' = pprev n m) →
  chain m c l → chain m' c l.
Proof.
  intros Hc Hp (d & Hs & Hd). exists d. pose proof (seg_cells_last _ _ _ _ Hs) as E. rewrite <-E in Hc. split.
  - apply (seg_frame m); [|done|done]. intros x Hx. apply Hc, elem_of_app. by left.
  - rewrite Hc; [done|]. apply elem_of_app. right. by left.
Qed.

Lemma elem_of_nexts (x : cell) (l : list Z) : x ∈ Next <$> l ↔ ∃ n, x = Next n ∧ n ∈ l.
Proof. apply list_elem_of_fmap. Qed.

Lemma seg_nonnull (m : hmem) (l : list Z) (d : cell) : ∀ c, seg m c l d → 0 ∉ l.
Proof.
  induction l as [|n l IH]; intros c; cbn [seg]; [intros _; apply not_elem_of_nil|].
  intros (Hn & _ & _ & Hs) [?|Hin]%elem_of_cons; [done|by apply (IH (Next n))].
Qed.

(** What holds where the list is cut in two, at the field [e]. *)
Lemma cut_facts (m : hmem) (h : Z) (l1 l2 : list Z) : hlist m h (l1 ++ l2) → NoDup (l1 ++ l2) →
  ∃ e, seg m (First h) l1 e ∧ chain m e l2 ∧ (∀ x, x ∈ seg_cells (First h) l1 → x ≠ e) ∧
    (∀ n, n ∈ l2 → e ≠ Next n) ∧ (e = First h ∨ ∃ n, e = Next n ∧ n ∈ l1) ∧
    (∀ x, x ∈ seg_cells (First h) l1 → x = First h ∨ ∃ n, x = Next n ∧ n ∈ l1).
Proof.
  intros Hl Hd. apply chain_app in Hl as (e & Hs & Hc). exists e.
  pose proof (seg_cells_last _ _ _ _ Hs) as E. apply NoDup_app in Hd as (Hd1 & Hd2 & _).
  assert (NoDup (First h :: (Next <$> l1))) as Hn.
  { constructor; [by intros (n & ? & _)%elem_of_nexts|]. apply NoDup_fmap_2; [by intros ?? [=]|done]. }
  assert (∀ x, x ∈ seg_cells (First h) l1 ++ [e] → x = First h ∨ ∃ n, x = Next n ∧ n ∈ l1) as Hx.
  { rewrite E. intros x [->|Hx%elem_of_nexts]%elem_of_cons; [by left|by right]. }
  rewrite <-E in Hn. apply NoDup_app in Hn as (_ & Hn & _).
  split; [done|]. split; [done|]. split; [intros x Hin ->; apply (Hn e Hin); by left|].
  assert (e = First h ∨ ∃ n, e = Next n ∧ n ∈ l1) as He by (apply Hx, elem_of_app; right; by left).
  split; [|split; [done|]].
  - intros n Hin ->. destruct He as [?|(n' & [= <-] & Hin')]; [done|]. by apply (Hd2 n).
  - intros x Hin. apply Hx, elem_of_app. by left.
Qed.

(** [new] is put in at [e]. *)
Lemma chain_insert (m m' : hmem) (h new : Z) (e : cell) (l1 l2 : list Z) :
  NoDup (new :: l1 ++ l2) → new ≠ 0 → 
  seg m (First h) l1 e → chain m e l2 →
  (∀ x, x ∈ seg_cells (First h) l1 → x ≠ e) → (∀ n, n ∈ l2 → e ≠ Next n) →
  (∀ x, x ∈ seg_cells (First h) l1 → x = First h ∨ ∃ n, x = Next n ∧ n ∈ l1) →
  rd e m' = Some new → rd (Next new) m' = Some (hd 0 l2) →
  (∀ x, x ≠ e → x ≠ Next new → rd x m' = rd x m) →
  pprev new m' = Some (PCell e) → (∀ k l, l2 = k :: l → pprev k m' = Some (PCell (Next new))) →
  (∀ n, n ≠ new → n ≠ hd 0 l2 → pprev n m' = pprev n m) →
  hlist m' h (l1 ++ new :: l2).
Proof.
  intros Hd H0 Hs Hc He1 He2 He3 Hre Hrn Hr Hpn Hpk Hp. apply NoDup_cons in Hd as [Hn Hd].
  apply not_elem_of_app in Hn as [Hn1 Hn2]. pose proof Hd as Hd'. apply NoDup_app in Hd' as (_ & Hd12 & Hd2).
  apply chain_app. exists e. split.
  - apply (seg_frame m); [| |done].
    + intros x Hx. apply Hr; [by apply He1|]. destruct (He3 x Hx) as [->|(n & -> & Hin)]; [done|]. by intros [= ->].
    + intros n Hin. apply Hp; [by intros ->|]. destruct l2 as [|k l2]; cbn [hd].
      * intros ->. by apply (seg_nonnull _ _ _ _ Hs).
      * intros ->. apply (Hd12 k Hin). by left.
  - apply chain_cons. split; [done|]. split; [done|]. split; [done|].
    destruct l2 as [|k l2]; cbn [hd] in *; [by exists (Next new)|].
    apply chain_cons in Hc as (Hk & _ & _ & Hc). apply chain_cons. split; [done|]. split; [done|]. split; [by eapply Hpk|].
    apply NoDup_cons in Hd2 as [Hk2 Hd2]. revert Hc. apply chain_frame.
    + intros x Hx. assert (∃ n, x = Next n ∧ n ∈ k :: l2) as (n & -> & Hin).
      { apply elem_of_cons in Hx as [->|(n & -> & Hin)%elem_of_nexts]; [exists k|exists n]; (split; [done|]); [by left|by right]. }
      apply Hr; [by intros <-; apply (He2 n Hin)|by intros [= ->]].
    + intros n Hin. apply Hp; [intros ->; apply Hn2; by right|by intros ->].
Qed.

(** The node [n] is taken out at [e]. *)
Lemma chain_remove (m m' : hmem) (h n : Z) (e : cell) (l1 l2 : list Z) :
  NoDup (l1 ++ n :: l2) →
  seg m (First h) l1 e → chain m e (n :: l2) →
  (∀ x, x ∈ seg_cells (First h) l1 → x ≠ e) → (∀ k, k ∈ n :: l2 → e ≠ Next k) →
  (∀ x, x ∈ seg_cells (First h) l1 → x = First h ∨ ∃ k, x = Next k ∧ k ∈ l1) →
  rd e m' = Some (hd 0 l2) → (∀ x, x ≠ e → x ≠ Next n → rd x m' = rd x m) →
  (∀ k l, l2 = k :: l → pprev k m' = Some (PCell e)) →
  (∀ k, k ≠ n → k ≠ hd 0 l2 → pprev k m' = pprev k m) →
  hlist m' h (l1 ++ l2).
Proof.
  intros Hd Hs Hc He1 He2 He3 Hre Hr Hpk Hp. apply NoDup_app in Hd as (_ & Hd12 & Hd2).
  apply NoDup_cons in Hd2 as [Hn2 Hd2]. apply chain_app. exists e. split.
  - apply (seg_frame m); [| |done].
    + intros x Hx. apply Hr; [by apply He1|]. destruct (He3 x Hx) as [->|(k & -> & Hin)]; [done|].
      intros [= ->]. apply (Hd12 n Hin). by left.
    + intros k Hin. apply Hp; [intros ->; apply (Hd12 n Hin); by left|]. destruct l2 as [|k' l2]; cbn [hd].
      * intros ->. by apply (seg_nonnull _ _ _ _ Hs).
      * intros ->. apply (Hd12 k' Hin). right. by left.
  - apply chain_cons in Hc as (H0 & _ & _ & Hc). destruct l2 as [|k l2]; cbn [hd] in *; [by exists e|].
    apply chain_cons in Hc as (Hk & _ & _ & Hc). apply chain_cons. split; [done|]. split; [done|]. split; [by eapply Hpk|].
    apply NoDup_cons in Hd2 as [Hk2 Hd2]. revert Hc. apply chain_frame.
    + intros x Hx. assert (∃ y, x = Next y ∧ y ∈ k :: l2) as (y & -> & Hin).
      { apply elem_of_cons in Hx as [->|(y & -> & Hin)%elem_of_nexts]; [exists k|exists y]; (split; [done|]); [by left|by right]. }
      apply Hr; [intros <-; apply (He2 y); [by right|done]|by intros [= ->]].
    + intros y Hin. apply Hp; [intros ->; apply Hn2; by right|by intros ->].
Qed.

(** ** What the operations write *)

Definition upd (c : cell) (p : Z) (m : hmem) : hmem :=
  match c with
  | First h => HMem (<[h:=p]> (h_first m)) (n_next m) (n_pprev m)
  | Next n => HMem (h_first m) (<[n:=p]> (n_next m)) (n_pprev m)
  end.
Definition updp (n : Z) (p : pprev_t) (m : hmem) : hmem :=
  HMem (h_first m) (n_next m) (<[n:=p]> (n_pprev m)).

Lemma wr_ok (c : cell) (p : Z) (m : hmem) : is_Some (rd c m) → wr c p m = Some (upd c p m).
Proof. intros Hc. unfold wr. rewrite decide_True by done. by destruct c. Qed.
Lemma set_pprev_ok (n : Z) (p : pprev_t) (m : hmem) : is_Some (pprev n m) → set_pprev n p m = Some (updp n p m).
Proof. intros Hn. unfold set_pprev. by rewrite decide_True. Qed.

Lemma rd_upd (x c : cell) (p : Z) (m : hmem) : rd x (upd c p m) = if decide (x = c) then Some p else rd x m.
Proof.
  destruct x as [h|n], c as [h'|n']; cbn [rd upd h_first n_next]; try (by rewrite decide_False);
    (case_decide as E; [injection E as ->; by rewrite lookup_insert_eq|rewrite lookup_insert_ne; [done|congruence]]).
Qed.
Lemma rd_updp (x : cell) (n : Z) (p : pprev_t) (m : hmem) : rd x (updp n p m) = rd x m.
Proof. by destruct x. Qed.
Lemma pprev_upd (n : Z) (c : cell) (p : Z) (m : hmem) : pprev n (upd c p m) = pprev n m.
Proof. by destruct c. Qed.
Lemma pprev_updp (x n : Z) (p : pprev_t) (m : hmem) :
  pprev x (updp n p m) = if decide (x = n) then Some p else pprev x m.
Proof.
  unfold pprev, updp. cbn [n_pprev]. case_decide as E; [subst; by rewrite lookup_insert_eq|by rewrite lookup_insert_ne].
Qed.

Ltac fields := rewrite ?rd_updp, ?rd_upd, ?pprev_upd, ?pprev_updp, ?rd_updp, ?rd_upd.
Ltac known :=
  repeat (fields; first [rewrite decide_True by done | rewrite decide_False by (done || congruence)]); fields.

Lemma some_if {A B} `{Decision A} (x y : option B) :
  is_Some x → is_Some y → is_Some (if decide A then x else y).
Proof. by destruct (decide A). Qed.

(** Runs the writes; the fields are in the memory. *)
Ltac live := fields; repeat (apply some_if; [by eauto|]); by eauto.
Ltac hexec :=
  repeat first
    [ rewrite wr_ok by live
    | rewrite set_pprev_ok by live
    | progress cbn [mbind option_bind wr_pprev negb] ].

(** A node that is in no list: initialised, or deleted and poisoned. *)
Inductive off_list := Unhashed | Poisoned.

#[export] Instance off_list_eq_dec : EqDecision off_list.
Proof. solve_decision. Defined.

Definition is_off (m : hmem) (n : Z) (s : off_list) : Prop :=
  match s with
  | Unhashed => rd (Next n) m = Some 0 ∧ pprev n m = Some PNull
  | Poisoned => rd (Next n) m = Some LIST_POISON1 ∧ pprev n m = Some PPoison
  end.

Definition node (m : hmem) (n : Z) : Prop := is_Some (rd (Next n) m) ∧ is_Some (pprev n m).

(** [new] was put in at the field [e], which pointed to [k]. *)
Definition inserted (m m' : hmem) (e : cell) (new k : Z) : Prop :=
  rd e m' = Some new ∧ rd (Next new) m' = Some k ∧ (∀ x, x ≠ e → x ≠ Next new → rd x m' = rd x m) ∧
  pprev new m' = Some (PCell e) ∧ (k ≠ 0 → pprev k m' = Some (PCell (Next new))) ∧
  (∀ n, n ≠ new → n ≠ k → pprev n m' = pprev n m).

(** [n] was taken out at the field [e]; [k] followed it. *)
Definition removed (m m' : hmem) (e : cell) (n k : Z) : Prop :=
  rd e m' = Some k ∧ (∀ x, x ≠ e → x ≠ Next n → rd x m' = rd x m) ∧
  (k ≠ 0 → pprev k m' = Some (PCell e)) ∧ (∀ y, y ≠ n → y ≠ k → pprev y m' = pprev y m).

Lemma add_head_run (m : hmem) (new h k : Z) :
  rd (First h) m = Some k → node m new → (k ≠ 0 → is_Some (pprev k m)) → k ≠ new →
  ∃ m', hlist_add_head new h m = Some m' ∧ inserted m m' (First h) new k.
Proof.
  intros Hh [Hn Hp] Hk Hkn. unfold hlist_add_head. rewrite Hh. hexec.
  destruct (Z.eqb_spec k 0) as [->|Hk0]; hexec; (eexists; split; [done|]); unfold inserted.
  - split_and!; intros; known; done.
  - split_and!; intros; known; done.
Qed.

Lemma add_before_run (m : hmem) (new k : Z) (e : cell) :
  k ≠ 0 → rd e m = Some k → pprev k m = Some (PCell e) → node m new → k ≠ new → e ≠ Next new →
  ∃ m', hlist_add_before new k m = Some m' ∧ inserted m m' e new k.
Proof.
  intros H0 Hr Hp [Hn Hpn] Hkn He. unfold hlist_add_before. rewrite Hp. hexec. known. hexec.
  eexists. split; [done|]. unfold inserted. split_and!; intros; known; done.
Qed.

Lemma add_after_run (m : hmem) (n new k : Z) :
  rd (Next n) m = Some k → node m new → (k ≠ 0 → is_Some (pprev k m)) → k ≠ new → n ≠ new →
  ∃ m', hlist_add_after n new m = Some m' ∧ inserted m m' (Next n) new k.
Proof.
  intros Hr [Hn Hpn] Hk Hkn Hne. unfold hlist_add_after. rewrite Hr. hexec. known. cbn [mbind option_bind].
  destruct (Z.eqb_spec k 0) as [->|Hk0]; hexec; (eexists; split; [done|]); unfold inserted;
    split_and!; intros; known; done.
Qed.

Lemma __hlist_del_run (m : hmem) (n k : Z) (e : cell) :
  pprev n m = Some (PCell e) → rd e m = Some n → rd (Next n) m = Some k →
  (k ≠ 0 → is_Some (pprev k m)) → k ≠ n → e ≠ Next n →
  ∃ m', __hlist_del n m = Some m' ∧ removed m m' e n k ∧ rd (Next n) m' = Some k ∧ is_Some (pprev n m').
Proof.
  intros Hp He Hr Hk Hkn Hne. unfold __hlist_del. rewrite Hr, Hp. hexec.
  destruct (Z.eqb_spec k 0) as [->|Hk0]; hexec; (eexists; split; [done|]); unfold removed;
    split_and!; intros; known; try done; rewrite Hp; eauto.
Qed.

Lemma del_run (m : hmem) (n k : Z) (e : cell) :
  pprev n m = Some (PCell e) → rd e m = Some n → rd (Next n) m = Some k →
  (k ≠ 0 → is_Some (pprev k m)) → k ≠ n → e ≠ Next n →
  (∃ m', hlist_del n m = Some m' ∧ removed m m' e n k ∧ is_off m' n Poisoned) ∧
  (∃ m', hlist_del_init n m = Some m' ∧ removed m m' e n k ∧ is_off m' n Unhashed).
Proof.
  intros Hp He Hr Hk Hkn Hne.
  destruct (__hlist_del_run m n k e Hp He Hr Hk Hkn Hne) as (m1 & E & (R1 & R2 & R3 & R4) & Hn1 & Hp1).
  assert (∀ p q, removed m (updp n q (upd (Next n) p m1)) e n k) as Hrem.
  { intros p q. unfold removed. split_and!; intros; known; auto. }
  split.
  - unfold hlist_del. rewrite E. hexec. eexists. split; [done|]. split; [apply Hrem|split; by known].
  - unfold hlist_del_init, hlist_unhashed. rewrite Hp. cbn [mbind option_bind negb]. rewrite E. cbn [mbind option_bind].
    unfold INIT_HLIST_NODE. hexec. eexists. split; [done|]. split; [apply Hrem|split; by known].
Qed.

(** [hlist_del_init] leaves a node alone that is in no list. *)
Lemma del_init_unhashed (m : hmem) (n : Z) : is_off m n Unhashed → hlist_del_init n m = Some m.
Proof. intros [_ Hp]. unfold hlist_del_init, hlist_unhashed. by rewrite Hp. Qed.

Lemma init_run (m : hmem) (n : Z) : node m n →
  ∃ m', INIT_HLIST_NODE n m = Some m' ∧ is_off m' n Unhashed ∧ (∀ h, rd (First h) m' = rd (First h) m) ∧
    (∀ y, y ≠ n → rd (Next y) m' = rd (Next y) m ∧ pprev y m' = pprev y m).
Proof.
  intros [Hn Hp]. unfold INIT_HLIST_NODE. hexec. eexists. split; [done|]. split; [split; by known|].
  split; [intros h; by known|]. intros y Hy. split; by known.
Qed.

Lemma move_run (m : hmem) (old new : Z) (l : list Z) :
  old ≠ new → hlist m old l → NoDup l → is_Some (rd (First new) m) →
  ∃ m', hlist_move_list old new m = Some m' ∧ hlist m' old [] ∧ hlist m' new l ∧
    (∀ x, x ≠ First old → x ≠ First new → rd x m' = rd x m) ∧
    (∀ n, n ∉ l → pprev n m' = pprev n m).
Proof.
  intros Hne Hl Hd Hnew. pose proof (chain_first _ _ _ Hl) as Hf. unfold hlist_move_list. rewrite Hf. hexec. known.
  cbn [mbind option_bind]. destruct l as [|k l]; cbn [hd] in *.
  - rewrite Z.eqb_refl. hexec. eexists. split; [done|]. split; [|split; [|split]].
    + exists (First old). split; [done|]. by known.
    + exists (First new). split; [done|]. by known.
    + intros x H1 H2. by known.
    + intros n _. by known.
  - apply chain_cons in Hl as (Hk & _ & Hpk & Hc). rewrite (proj2 (Z.eqb_neq k 0)) by done. hexec.
    apply NoDup_cons in Hd as [Hkl Hd]. eexists. split; [done|]. split; [|split; [|split]].
    + exists (First old). split; [done|]. by known.
    + apply chain_cons. split; [done|]. split; [by known|]. split; [by known|]. revert Hc. apply chain_frame.
      * intros x Hx. assert (∃ y, x = Next y) as [y ->].
        { apply elem_of_cons in Hx as [->|(y & -> & _)%elem_of_nexts]; eauto. }
        by known.
      * intros n Hn. assert (n ≠ k) by (by intros ->). by known.
    + intros x H1 H2. by known.
    + intros n Hn. apply not_elem_of_cons in Hn as [Hn _]. by known.
Qed.

(** ** Refinement *)

Inductive op :=
| AddHead (n h : Z) | AddBefore (n x : Z) | AddAfter (x n : Z) | Del (n : Z) | DelInit (n : Z)
| InitNode (n : Z) | MoveList (old new : Z).

Definition run_op (o : op) : hmem → option hmem :=
  match o with
  | AddHead n h => hlist_add_head n h
  | AddBefore n x => hlist_add_before n x
  | AddAfter x n => hlist_add_after x n
  | Del n => hlist_del n
  | DelInit n => hlist_del_init n
  | InitNode n => INIT_HLIST_NODE n
  | MoveList old new => hlist_move_list old new
  end.

(** A list is a head and its nodes; the abstract state is a list of lists, and
    what is known of the nodes that are in none. *)
Abbreviation lists := (list (Z * list Z)).
Abbreviation offs := (gmap Z off_list).

(** The effect on the lists of an operation; [x] is the node it takes. *)
Inductive effect : op → option Z → lists → lists → Prop :=
| eff_add_head n h l : effect (AddHead n h) (Some n) [(h, l)] [(h, n :: l)]
| eff_add_before n x h l1 l2 : effect (AddBefore n x) (Some n) [(h, l1 ++ x :: l2)] [(h, l1 ++ n :: x :: l2)]
| eff_add_after n x h l1 l2 : effect (AddAfter x n) (Some n) [(h, l1 ++ x :: l2)] [(h, l1 ++ x :: n :: l2)]
| eff_del n h l1 l2 : effect (Del n) None [(h, l1 ++ n :: l2)] [(h, l1 ++ l2)]
| eff_del_init n h l1 l2 : effect (DelInit n) None [(h, l1 ++ n :: l2)] [(h, l1 ++ l2)]
| eff_move old new l k : effect (MoveList old new) None [(old, l); (new, k)] [(old, []); (new, l)].

(** The effect on the other nodes: an inserted node is one of them no more, a
    deleted one is poisoned or initialised. *)
Definition off_after (o : op) (off : offs) : offs :=
  match o with
  | AddHead n _ | AddBefore n _ | AddAfter _ n => delete n off
  | Del n => <[n := Poisoned]> off
  | DelInit n | InitNode n => <[n := Unhashed]> off
  | MoveList _ _ => off
  end.

Section Refinement.
Variable D : Z → Prop.   (* the addresses of nodes *)

Definition nodes (Rs : lists) : list Z := concat (Rs.*2).

Definition repr (m : hmem) (S : lists * offs) : Prop :=
  let '(Rs, off) := S in
  (∀ h l, (h, l) ∈ Rs → hlist m h l) ∧ NoDup (Rs.*1) ∧ NoDup (nodes Rs) ∧
  (∀ n, D n → n ≠ 0 ∧ node m n) ∧
  ∀ n s, off !! n = Some s → n ≠ 0 ∧ (n ∉ nodes Rs) ∧ is_off m n s.

Definition fresh (x : option Z) (Rs : lists) : Prop := ∀ n, x = Some n → D n ∧ n ∉ nodes Rs.

Inductive step : op → lists * offs → lists * offs → Prop :=
| step_intro o x cs cs' R Rs off :
    effect o x cs cs' → cs ++ R ≡ₚ Rs → fresh x (cs ++ R) → step o (Rs, off) (cs' ++ R, off_after o off)
| step_init n Rs off : D n → n ∉ nodes Rs → step (InitNode n) (Rs, off) (Rs, off_after (InitNode n) off)
| step_unhashed n Rs off : off !! n = Some Unhashed → step (DelInit n) (Rs, off) (Rs, off).

Inductive steps : list op → lists * offs → lists * offs → Prop :=
| steps_nil S : steps [] S S
| steps_cons o os S S1 S2 : step o S S1 → steps os S1 S2 → steps (o :: os) S S2.
End Refinement.

Fixpoint run_ops (os : list op) (m : hmem) : option hmem :=
  match os with [] => Some m | o :: os => m ← run_op o m; run_ops os m end.

Definition taken (x : option Z) : list Z := match x with Some n => [n] | None => [] end.

(** The node an operation deletes. *)
Definition deleted (o : op) : option (Z * off_list) :=
  match o with Del n => Some (n, Poisoned) | DelInit n => Some (n, Unhashed) | _ => None end.

Definition left_off (o : op) (m : hmem) : Prop :=
  match deleted o with Some (n, s) => n ≠ 0 ∧ is_off m n s | None => True end.

(** What an operation has to leave: its lists, the fields of the others, every
    field in the memory, and the node it deletes. *)
Definition runs (o : op) (m : hmem) (hs ns : list Z) (cs' : lists) : Prop :=
  ∃ m', run_op o m = Some m' ∧ (∀ h l, (h, l) ∈ cs' → hlist m' h l) ∧
    (∀ h, h ∉ hs → rd (First h) m' = rd (First h) m) ∧
    (∀ n, n ∉ ns → n ≠ 0 → rd (Next n) m' = rd (Next n) m ∧ pprev n m' = pprev n m) ∧
    (∀ n, n ≠ 0 → node m n → node m' n) ∧ left_off o m'.

Lemma is_off_node (m : hmem) (n : Z) (s : off_list) : is_off m n s → node m n.
Proof. unfold node. destruct s; intros [-> ->]; eauto. Qed.

Lemma last_field (h : Z) (e : cell) (l1 ns : list Z) (n : Z) :
  (e = First h ∨ ∃ y, e = Next y ∧ y ∈ l1) → (∀ y, y ∈ l1 → y ∈ ns) → n ∉ ns → Next n ≠ e.
Proof. intros [->|(y & -> & Hy)] Hs Hn; [done|]. intros [= ->]. auto. Qed.

(** The three insertions. *)
Lemma runs_insert (o : op) (m m' : hmem) (h new : Z) (e : cell) (l1 l2 : list Z) :
  hlist m h (l1 ++ l2) → NoDup (new :: l1 ++ l2) → new ≠ 0 →
  seg m (First h) l1 e →
  run_op o m = Some m' → inserted m m' e new (hd 0 l2) → deleted o = None →
  runs o m [h] (new :: l1 ++ l2) [(h, l1 ++ new :: l2)].
Proof.
  intros Hl Hd H0 Hseg Hrun (I1 & I2 & I3 & I4 & I5 & I6) Hdel.
  pose proof Hd as Hd'. apply NoDup_cons in Hd' as [Hn Hd'].
  destruct (cut_facts _ _ _ _ Hl Hd') as (e' & Hs & Hc & F1 & F2 & F3 & F4).
  assert (e' = e) as ->.
  { pose proof (seg_cells_last _ _ _ _ Hs) as E1. rewrite <-(seg_cells_last _ _ _ _ Hseg) in E1.
    by apply app_inj_tail in E1 as [_ ?]. }
  exists m'. split; [done|]. split; [|split; [|split; [|split]]].
  - intros h' l' Hin. apply list_elem_of_singleton in Hin as [= -> ->].
    apply (chain_insert m m' h new e l1 l2); try done.
    intros k l ->. cbn [hd] in I5. apply I5. apply chain_cons in Hc as [? _]. done.
  - intros h' Hh. apply I3; [|done]. destruct F3 as [->|(y & -> & _)]; [|done]. intros [= ->]. apply Hh. by left.
  - intros n Hnn Hn0. apply not_elem_of_cons in Hnn as [Hnn Hnl]. split.
    + apply I3; [|by intros [= ->]]. apply (last_field h e l1 (l1 ++ l2) n F3); [|done]. intros y Hy. apply elem_of_app. by left.
    + apply I6; [done|]. intros ->. destruct l2 as [|k l2]; [done|]. apply Hnl. apply elem_of_app. right. by left.
  - intros n Hn0 [N1 N2]. split.
    + destruct (decide (Next n = e)) as [->|]; [by eauto|]. destruct (decide (Next n = Next new)) as [[= ->]|]; [by eauto|].
      by rewrite I3.
    + destruct (decide (n = new)) as [->|]; [by eauto|]. destruct (decide (n = hd 0 l2)) as [->|]; [|by rewrite I6].
      rewrite I5 by done. by eauto.
  - unfold left_off. by rewrite Hdel.
Qed.

Lemma runs_remove (o : op) (m m' : hmem) (h n : Z) (e : cell) (l1 l2 : list Z) :
  hlist m h (l1 ++ n :: l2) → NoDup (l1 ++ n :: l2) → seg m (First h) l1 e →
  run_op o m = Some m' → removed m m' e n (hd 0 l2) → ∀ s, deleted o = Some (n, s) → is_off m' n s →
  runs o m [h] (l1 ++ n :: l2) [(h, l1 ++ l2)].
Proof.
  intros Hl Hd Hseg Hrun (R1 & R2 & R3 & R4) s Hdel Hoff.
  pose proof (is_off_node _ _ _ Hoff) as Hnode.
  destruct (cut_facts _ _ _ _ Hl Hd) as (e' & Hs & Hc & F1 & F2 & F3 & F4).
  assert (e' = e) as ->.
  { pose proof (seg_cells_last _ _ _ _ Hs) as E1. rewrite <-(seg_cells_last _ _ _ _ Hseg) in E1.
    by apply app_inj_tail in E1 as [_ ?]. }
  exists m'. split; [done|]. split; [|split; [|split; [|split]]].
  - intros h' l' Hin. apply list_elem_of_singleton in Hin as [= -> ->].
    apply (chain_remove m m' h n e l1 l2); try done.
    intros k l ->. cbn [hd] in R3. apply R3. apply chain_cons in Hc as (_ & _ & _ & Hc). apply chain_cons in Hc as [? _]. done.
  - intros h' Hh. apply R2; [|done]. destruct F3 as [->|(y & -> & _)]; [|done]. intros [= ->]. apply Hh. by left.
  - intros y Hy Hy0. assert (y ≠ n) as Hyn by (intros ->; apply Hy, elem_of_app; right; by left). split.
    + apply R2; [|by intros [= ->]]. apply (last_field h e l1 (l1 ++ n :: l2) y F3); [|done]. intros z Hz. apply elem_of_app. by left.
    + apply R4; [done|]. intros ->. destruct l2 as [|k l2]; [done|]. apply Hy. apply elem_of_app. right. right. by left.
  - intros y Hy0 [N1 N2]. destruct (decide (y = n)) as [->|Hyn]; [done|]. split.
    + destruct (decide (Next y = e)) as [->|]; [by eauto|]. by rewrite R2 by (done || by intros [= ->]).
    + destruct (decide (y = hd 0 l2)) as [->|]; [|by rewrite R4]. rewrite R3 by done. by eauto.
  - unfold left_off. rewrite Hdel. split; [|done]. apply chain_cons in Hc as [H0 _]. done.
Qed.

(** The fields around a cut, for the operations. *)
Lemma chain_node (m : hmem) (l : list Z) : ∀ c n, chain m c l → n ∈ l → n ≠ 0 ∧ is_Some (pprev n m).
Proof.
  induction l as [|x l IH]; intros c n Hc Hn; [by apply elem_of_nil in Hn|].
  apply chain_cons in Hc as (H0 & _ & Hp & Hc). apply elem_of_cons in Hn as [->|Hn]; [by eauto|by eapply IH].
Qed.

Lemma hd_pprev (m : hmem) (c : cell) (l : list Z) : chain m c l → hd 0 l ≠ 0 → is_Some (pprev (hd 0 l) m).
Proof. intros Hc Hn. destruct l as [|k l]; [done|]. apply (chain_node _ _ _ _ Hc). by left. Qed.

Lemma hd_ne (n : Z) (l : list Z) : n ≠ 0 → n ∉ l → hd 0 l ≠ n.
Proof. intros Hn Hl. destruct l as [|k l]; cbn [hd]; [done|]. intros ->. apply Hl. by left. Qed.

Lemma remove_facts (m : hmem) (h n : Z) (l1 l2 : list Z) :
  hlist m h (l1 ++ n :: l2) → NoDup (l1 ++ n :: l2) → node m n →
  ∃ e, seg m (First h) l1 e ∧
    (∃ m', hlist_del n m = Some m' ∧ removed m m' e n (hd 0 l2) ∧ is_off m' n Poisoned) ∧
    (∃ m', hlist_del_init n m = Some m' ∧ removed m m' e n (hd 0 l2) ∧ is_off m' n Unhashed).
Proof.
  intros Hl Hd [Hn1 Hn2]. destruct (cut_facts _ _ _ _ Hl Hd) as (e & Hs & Hc & F1 & F2 & F3 & F4).
  exists e. split; [done|]. apply chain_cons in Hc as (H0 & Hre & Hpn & Hc).
  apply NoDup_app in Hd as (_ & _ & Hd2). apply NoDup_cons in Hd2 as [Hn Hd2].
  apply del_run; [done|done|by apply chain_first|by apply (hd_pprev m (Next n))|by apply hd_ne|].
  apply F2. by left.
Qed.

Lemma heffect_runs (o : op) (x : option Z) (cs cs' : lists) (m : hmem) :
  effect o x cs cs' → (∀ h l, (h, l) ∈ cs → hlist m h l) → NoDup (cs.*1) → NoDup (taken x ++ nodes cs) →
  (∀ n, x = Some n → n ≠ 0 ∧ node m n) → (∀ n, n ∈ nodes cs → node m n) →
  runs o m (cs.*1) (taken x ++ nodes cs) cs'.
Proof.
  intros He Hl Hh Hd Hx Hns.
  destruct He as [n h l|n x h l1 l2|x n h l1 l2|n h l1 l2|n h l1 l2|old new l k];
    unfold nodes in *; cbn [fmap list_fmap fst snd concat taken app] in *; rewrite ?app_nil_r in *.
  - destruct (Hx n eq_refl) as [H0 Hn]. specialize (Hl h l ltac:(by left)). apply NoDup_cons in Hd as Hd'. destruct Hd' as [Hnl Hd'].
    destruct (add_head_run m n h (hd 0 l)) as (m' & E & Hi);
      [by apply (chain_first m (First h))|done|by apply (hd_pprev m (First h))|by apply hd_ne|].
    by apply (runs_insert _ m m' h n (First h) [] l).
  - destruct (Hx n eq_refl) as [H0 Hn]. specialize (Hl h _ ltac:(by left)). apply NoDup_cons in Hd as Hd'. destruct Hd' as [Hnl Hd'].
    destruct (cut_facts _ _ _ _ Hl Hd') as (e & Hs & Hc & F1 & F2 & F3 & F4).
    apply chain_cons in Hc as Hc'. destruct Hc' as (Hx0 & Hre & Hpx & _).
    destruct (add_before_run m n x e) as (m' & E & Hi); [done|done|done|done| | |].
    + intros ->. apply Hnl, elem_of_app. right. by left.
    + apply not_eq_sym, (last_field h e l1 (l1 ++ x :: l2) n F3); [|done]. intros y Hy. apply elem_of_app. by left.
    + by apply (runs_insert _ m m' h n e l1 (x :: l2)).
  - destruct (Hx x eq_refl) as [H0 Hn]. specialize (Hl h _ ltac:(by left)). apply NoDup_cons in Hd as Hd'. destruct Hd' as [Hnl Hd'].
    assert (l1 ++ n :: l2 = (l1 ++ [n]) ++ l2) as Eq by (by rewrite <-app_assoc).
    rewrite Eq in Hl, Hnl, Hd, Hd'. destruct (cut_facts _ _ _ _ Hl Hd') as (e & Hs & Hc & F1 & F2 & F3 & F4).
    assert (e = Next n) as ->.
    { apply seg_app in Hs as (e0 & _ & _ & _ & _ & Hs). by rewrite <-Hs. }
    destruct (add_after_run m n x (hd 0 l2)) as (m' & E & Hi); [by apply chain_first|done|by apply (hd_pprev m (Next n))| | |].
    + apply hd_ne; [done|]. intros Hin. apply Hnl, elem_of_app. by right.
    + intros ->. apply Hnl. rewrite <-app_assoc. apply elem_of_app. right. by left.
    + rewrite Eq. replace (l1 ++ n :: x :: l2) with ((l1 ++ [n]) ++ x :: l2) by (by rewrite <-app_assoc).
      by apply (runs_insert _ m m' h x (Next n) (l1 ++ [n]) l2).
  - destruct (remove_facts m h n l1 l2 (Hl h _ ltac:(by left)) Hd (Hns n ltac:(set_solver))) as (e & Hs & (m' & E & Hr & Hn) & _).
    by apply (runs_remove (Del n) m m' h n e l1 l2 (Hl h _ ltac:(by left)) Hd Hs E Hr Poisoned).
  - destruct (remove_facts m h n l1 l2 (Hl h _ ltac:(by left)) Hd (Hns n ltac:(set_solver))) as (e & Hs & _ & (m' & E & Hr & Hn)).
    by apply (runs_remove (DelInit n) m m' h n e l1 l2 (Hl h _ ltac:(by left)) Hd Hs E Hr Unhashed).
  - pose proof (Hl old l ltac:(by left)) as Hold. pose proof (Hl new k ltac:(right; by left)) as Hnew.
    apply NoDup_cons in Hh as [Hon _]. apply not_elem_of_cons in Hon as [Hon _].
    pose proof Hd as Hd'. apply NoDup_app in Hd' as (Hdl & _ & _).
    destruct (move_run m old new l Hon Hold Hdl) as (m' & E & H1 & H2 & H3 & H4);
      [rewrite (chain_first _ _ _ Hnew); by eauto|].
    exists m'. split; [done|]. split; [|split; [|split; [|split; [|done]]]].
    + intros h l' Hin. apply elem_of_cons in Hin as [[= -> ->]|Hin]; [done|].
      apply list_elem_of_singleton in Hin as [= -> ->]. done.
    + intros h Hh'. apply H3; intros [= ->]; apply Hh'; [by left|right; by left].
    + intros y Hy Hy0. split; [by apply H3|]. apply H4. intros Hin. apply Hy, elem_of_app. by left.
    + intros y Hy0 [N1 N2]. split; [by rewrite H3|]. destruct (decide (y ∈ l)) as [Hin|Hin]; [|by rewrite H4].
      by apply (chain_node _ _ _ _ H2).
Qed.

Section Machine.
Variable D : Z → Prop.

Lemma nodes_app (a b : lists) : nodes (a ++ b) = nodes a ++ nodes b.
Proof. unfold nodes. by rewrite fmap_app, concat_app. Qed.

Lemma effect_lists (o : op) (x : option Z) (cs cs' : lists) :
  effect o x cs cs' → cs'.*1 = cs.*1 ∧ nodes cs' ⊆+ taken x ++ nodes cs.
Proof.
  destruct 1; unfold nodes; cbn [fmap list_fmap fst snd concat taken app]; rewrite ?app_nil_r;
    (split; [done|try solve_submseteq]).
Qed.

Lemma repr_perm (m : hmem) (Rs Rs' : lists) (off : offs) :
  Rs ≡ₚ Rs' → repr D m (Rs, off) → repr D m (Rs', off).
Proof.
  intros Hp (H1 & H2 & H3 & H4 & H5).
  assert (nodes Rs' ≡ₚ nodes Rs) as Hn by (unfold nodes; by rewrite Hp).
  split; [|split; [|split; [|split; [done|]]]].
  - intros h l Hin. apply H1. by rewrite Hp.
  - by rewrite <-Hp.
  - by rewrite Hn.
  - intros n s Hs. rewrite Hn. by apply H5.
Qed.

Lemma elem_of_nodes (Rs : lists) (h n : Z) (l : list Z) : (h, l) ∈ Rs → n ∈ l → n ∈ nodes Rs.
Proof.
  intros Hin Hn. unfold nodes. apply list_elem_of_In, in_concat. exists l.
  rewrite <-!list_elem_of_In. split; [|done]. apply list_elem_of_fmap. by exists (h, l).
Qed.

Lemma nodes_elem (Rs : lists) (n : Z) : n ∈ nodes Rs → ∃ h l, (h, l) ∈ Rs ∧ n ∈ l.
Proof.
  unfold nodes. intros Hn. apply list_elem_of_In, in_concat in Hn as (l & Hl & Hn).
  apply list_elem_of_In in Hl. apply list_elem_of_In in Hn. apply list_elem_of_fmap in Hl as ([h l'] & -> & Hin). by exists h, l'.
Qed.

Lemma hlist_node (m : hmem) (h n : Z) (l : list Z) : hlist m h l → n ∈ l → node m n.
Proof.
  intros Hl Hn. split; [|by apply (chain_node _ _ _ _ Hl)].
  revert Hl. unfold hlist. generalize (First h). induction l as [|x l IH]; intros c Hc; [by apply elem_of_nil in Hn|].
  apply chain_cons in Hc as (_ & _ & _ & Hc). apply elem_of_cons in Hn as [->|Hn]; [|by eapply IH].
  rewrite (chain_first _ _ _ Hc). eauto.
Qed.

(** The nodes that are in no list after an operation. *)
Lemma off_after_ok (o : op) (x : option Z) (cs cs' R : lists) (off : offs) (m m' : hmem) :
  effect o x cs cs' → fresh D x (cs ++ R) → NoDup (nodes (cs ++ R)) →
  (∀ n s, off !! n = Some s → n ≠ 0 ∧ (n ∉ nodes (cs ++ R)) ∧ is_off m n s) →
  (∀ n, n ∉ taken x ++ nodes cs → n ≠ 0 → rd (Next n) m' = rd (Next n) m ∧ pprev n m' = pprev n m) →
  left_off o m' →
  ∀ n s, off_after o off !! n = Some s → n ≠ 0 ∧ (n ∉ nodes (cs' ++ R)) ∧ is_off m' n s.
Proof.
  intros He Hf Hd Hoff Hframe Hleft n s Hs.
  assert (n ∉ taken x → off !! n = Some s → n ≠ 0 ∧ (n ∉ nodes (cs' ++ R)) ∧ is_off m' n s) as Hold.
  { intros Hx Ho. destruct (Hoff n s Ho) as (H0 & Hn & Hi). rewrite nodes_app in Hn |- *.
    apply not_elem_of_app in Hn as [Hn1 Hn2]. destruct (effect_lists _ _ _ _ He) as [_ Hsub].
    assert (n ∉ taken x ++ nodes cs) as Hnot by (by apply not_elem_of_app).
    split; [done|]. split.
    - apply not_elem_of_app. split; [|done]. intros Hin. apply Hnot. by eapply elem_of_submseteq.
    - destruct (Hframe n Hnot H0) as [E1 E2]. unfold is_off in *. by destruct s; rewrite E1, E2. }
  assert (∀ k, deleted o = Some (k, s) → n = k → n ∉ nodes (cs' ++ R) →
    n ≠ 0 ∧ (n ∉ nodes (cs' ++ R)) ∧ is_off m' n s) as Hdel.
  { intros k Hk -> Hn. unfold left_off in Hleft. rewrite Hk in Hleft. destruct Hleft. done. }
  rewrite nodes_app in Hd.
  destruct He as [k h l|k y h l1 l2|y k h l1 l2|k h l1 l2|k h l1 l2|old new l k]; cbn [off_after taken deleted] in *; unfold nodes in *;
    cbn [fmap list_fmap fst snd concat app] in *; rewrite ?app_nil_r in *.
  1-3: apply lookup_delete_Some in Hs as [Hne Hs]; apply Hold; [|done];
    by intros ->%list_elem_of_singleton.
  1-2: apply lookup_insert_Some in Hs as [[<- <-]|[Hne Hs]]; [|apply Hold; [apply not_elem_of_nil|done]];
    apply (Hdel k eq_refl eq_refl);
    rewrite <-app_assoc, <-app_comm_cons, <-Permutation_middle in Hd; apply NoDup_cons in Hd as [Hd _];
    by rewrite app_assoc in Hd.
  apply Hold; [apply not_elem_of_nil|done].
Qed.

Lemma hstep_run (o : op) (S S' : lists * offs) (m : hmem) :
  step D o S S' → repr D m S → ∃ m', run_op o m = Some m' ∧ repr D m' S'.
Proof.
  intros [o' x cs cs' R Rs0 off He Hp Hf|n Rs off Hn Hin|n Rs off Hn] Hr.
  - symmetry in Hp. apply (repr_perm _ _ _ _ Hp) in Hr.
    destruct Hr as (Hl & Hh & Hn & HD & Hoff). pose proof Hn as Hnd. rewrite fmap_app in Hh. rewrite nodes_app in Hn.
    assert (NoDup ((taken x ++ nodes cs) ++ nodes R)) as Hd.
    { rewrite <-app_assoc. destruct x as [n|]; [|done]. destruct (Hf n eq_refl) as [_ Hx]. rewrite nodes_app in Hx. by constructor. }
    apply NoDup_app in Hh as (Hh1 & Hh2 & Hh3). apply NoDup_app in Hd as (Hd1 & Hd2 & Hd3).
    destruct (heffect_runs o' x cs cs' m He) as (m' & E & Hcs & Hfst & Hnx & Hnode & Hleft).
    + intros h l Hin. apply Hl, elem_of_app. by left.
    + done.
    + done.
    + intros n ->. apply HD. by apply (Hf n).
    + intros n (h & l & Hin & Hnl)%nodes_elem. apply (hlist_node m h n l); [|done]. apply Hl, elem_of_app. by left.
    + exists m'. split; [done|]. destruct (effect_lists _ _ _ _ He) as [Eh Hs].
      split; [|split; [|split; [|split]]].
      * intros h l [Hin|Hin]%elem_of_app; [by apply Hcs|].
        assert (hlist m h l) as Hml by (apply Hl, elem_of_app; by right).
        revert Hml. apply chain_frame.
        -- intros c Hc. apply elem_of_cons in Hc as [->|(n & -> & Hnl)%elem_of_nexts].
           ++ apply Hfst. intros Hx. apply (Hh2 h Hx). apply list_elem_of_fmap. by exists (h, l).
           ++ apply Hnx; [intros Hx; apply (Hd2 n Hx); by eapply elem_of_nodes|].
              apply (chain_node m l (First h)); [|done]. apply Hl, elem_of_app. by right.
        -- intros n Hnl. apply Hnx; [intros Hx; apply (Hd2 n Hx); by eapply elem_of_nodes|].
           apply (chain_node m l (First h)); [|done]. apply Hl, elem_of_app. by right.
      * rewrite fmap_app, Eh. apply NoDup_app. done.
      * rewrite nodes_app. apply submseteq_Permutation in Hs as [k Hk]. rewrite Hk in Hd1.
        apply NoDup_app in Hd1 as (Hd1 & _ & _). apply NoDup_app. split; [done|]. split; [|done].
        intros y Hy. apply Hd2. rewrite Hk. apply elem_of_app. by left.
      * intros n Hn'. destruct (HD n Hn') as [? ?]. split; [done|]. by apply Hnode.
      * by apply (off_after_ok o' x cs cs' R off m m').
  - destruct Hr as (Hl & Hh & Hnd & HD & Hoff). destruct (HD n Hn) as [H0 Hnode].
    destruct (init_run m n Hnode) as (m' & E & Hi & Hfst & Hnx). exists m'. split; [done|].
    split; [|split; [done|split; [done|split]]].
    + intros h l Hhl. pose proof (Hl h l Hhl) as Hml. revert Hml. apply chain_frame.
      * intros c Hc. apply elem_of_cons in Hc as [->|(y & -> & Hy)%elem_of_nexts]; [apply Hfst|].
        apply Hnx. intros ->. apply Hin. by eapply elem_of_nodes.
      * intros y Hy. apply Hnx. intros ->. apply Hin. by eapply elem_of_nodes.
    + intros y Hy. destruct (HD y Hy) as [? [Hy1 Hy2]]. split; [done|].
      destruct (decide (y = n)) as [->|Hne]; [by apply (is_off_node _ _ Unhashed)|].
      destruct (Hnx y Hne) as [E1 E2]. unfold node. by rewrite E1, E2.
    + intros y s Hs. cbn [off_after] in Hs. apply lookup_insert_Some in Hs as [[<- <-]|[Hne Hs]]; [done|].
      destruct (Hoff y s Hs) as (Hy0 & Hyn & Hys). split; [done|]. split; [done|].
      destruct (Hnx y (not_eq_sym Hne)) as [E1 E2]. unfold is_off in *. by destruct s; rewrite E1, E2.
  - exists m. split; [|done]. destruct Hr as (_ & _ & _ & _ & Hoff). destruct (Hoff n _ Hn) as (_ & _ & Hi).
    by apply del_init_unhashed.
Qed.

(** C24: the hash-list functions implement the abstract machine on lists: any
    program of operations runs without touching a field outside the memory and
    leaves the lists of the machine; so [pprev] always leads back to the pointer
    to its node, whether that is in the head or in another node.  The machine
    also says what the nodes in no list hold: after [hlist_del] both fields are
    poisoned, after [hlist_del_init] and [INIT_HLIST_NODE] both are NULL, and
    another [hlist_del_init] of such a node changes nothing. *)
Theorem hlist_refinement (os : list op) (S S' : lists * offs) (m : hmem) :
  steps D os S S' → repr D m S → ∃ m', run_ops os m = Some m' ∧ repr D m' S'.
Proof.
  intros Hs. revert m. induction Hs as [S|o os S S1 S2 H1 Hs IH]; intros m Hr; [by exists m|].
  destruct (hstep_run _ _ _ _ H1 Hr) as (m1 & E & Hr1). destruct (IH m1 Hr1) as (m2 & E2 & Hr2).
  exists m2. cbn [run_ops]. by rewrite E.
Qed.
End Machine.

(** [hlist_for_each] runs through the nodes; [hlist_empty] and
    [hlist_unhashed] tell what they say. *)
Lemma hlist_walk (m : hmem) (h : Z) (l : list Z) (fuel : nat) : hlist m h l → (length l < fuel)%nat →
  hlist_for_each fuel h m = Some l ∧ hlist_empty h m = Some (bool_decide (l = [])) ∧
  ∀ n, n ∈ l → hlist_unhashed n m = Some false.
Proof.
  intros Hl Hf. split; [|split].
  - unfold hlist_for_each. unfold hlist in Hl. revert Hl. generalize (First h). revert fuel Hf.
    induction l as [|n l IH]; intros fuel Hf c Hc; (destruct fuel as [|fuel]; [simpl in Hf; lia|]);
      rewrite (chain_first _ _ _ Hc); cbn [mbind option_bind hd hwalk].
    + done.
    + apply chain_cons in Hc as (H0 & _ & _ & Hc). rewrite (proj2 (Z.eqb_neq n 0)) by done.
      specialize (IH fuel ltac:(simpl in Hf; lia) _ Hc). destruct (rd (Next n) m) as [p|]; [|done].
      cbn [mbind option_bind] in *. by rewrite IH.
  - unfold hlist_empty. rewrite (chain_first _ _ _ Hl). cbn [mbind option_bind]. f_equal.
    destruct l as [|n l]; [done|]. apply chain_cons in Hl as (H0 & _). cbn [hd].
    rewrite bool_decide_false by done. by apply Z.eqb_neq.
  - intros n Hn. unfold hlist_unhashed, hlist in *. revert Hl. generalize (First h). clear Hf.
    induction l as [|x l IH]; intros c Hc; [by apply elem_of_nil in Hn|].
    apply chain_cons in Hc as (_ & _ & Hp & Hc). apply elem_of_cons in Hn as [->|Hn]; [by rewrite Hp|by eapply IH].
Qed.

(** *** The property at work *)

Definition bucket : hmem :=
  HMem {[10 := 0]} {[1 := 0; 2 := 0; 3 := 0]} {[1 := PNull; 2 := PNull; 3 := PNull]}.

Lemma hlist_refinement_witness :
  ∃ m', run_ops [AddHead 1 10; AddAfter 1 2; AddBefore 3 2; Del 1; DelInit 2; DelInit 2] bucket = Some m' ∧
        repr (λ x, x = 1 ∨ x = 2 ∨ x = 3) m' ([(10, [3])], {[1 := Poisoned; 2 := Unhashed]}).
Proof.
  pose (off0 := {[1 := Unhashed; 2 := Unhashed; 3 := Unhashed]} : offs).
  assert (<[2 := Unhashed]> (<[1 := Poisoned]> (delete 3 (delete 2 (delete 1 off0)))) =
    {[1 := Poisoned; 2 := Unhashed]}) as <- by (apply (bool_decide_eq_true_1 _); vm_compute; reflexivity).
  apply (hlist_refinement _ _ ([(10, [])], off0)).
  - apply (steps_cons _ _ _ _ ([(10, [1])], delete 1 off0) _).
    { apply (step_intro _ _ _ _ _ [] _ _ (eff_add_head 1 10 [])); [done|]. intros y [= <-]. split; [by left|apply not_elem_of_nil]. }
    apply (steps_cons _ _ _ _ ([(10, [1; 2])], delete 2 (delete 1 off0)) _).
    { apply (step_intro _ _ _ _ _ [] _ _ (eff_add_after 2 1 10 [] [])); [done|]. intros y [= <-].
      split; [by right; left|apply (bool_decide_eq_true_1 _); reflexivity]. }
    apply (steps_cons _ _ _ _ ([(10, [1; 3; 2])], delete 3 (delete 2 (delete 1 off0))) _).
    { apply (step_intro _ _ _ _ _ [] _ _ (eff_add_before 3 2 10 [1] [])); [done|]. intros y [= <-].
      split; [by right; right|apply (bool_decide_eq_true_1 _); reflexivity]. }
    apply (steps_cons _ _ _ _ ([(10, [3; 2])], <[1 := Poisoned]> (delete 3 (delete 2 (delete 1 off0)))) _).
    { apply (step_intro _ _ _ _ _ [] _ _ (eff_del 1 10 [] [3; 2])); [done|]. intros y [=]. }
    apply (steps_cons _ _ _ _ ([(10, [3])], <[2 := Unhashed]> (<[1 := Poisoned]> (delete 3 (delete 2 (delete 1 off0))))) _).
    { apply (step_intro _ _ _ _ _ [] _ _ (eff_del_init 2 10 [3] [])); [done|]. intros y [=]. }
    apply (steps_cons _ _ _ _ ([(10, [3])], <[2 := Unhashed]> (<[1 := Poisoned]> (delete 3 (delete 2 (delete 1 off0))))) _); [|apply steps_nil].
    apply step_unhashed. reflexivity.
  - split; [|split; [|split; [|split]]].
    + intros h l [= -> ->]%list_elem_of_singleton. exists (First 10). split; reflexivity.
    + apply NoDup_singleton.
    + constructor.
    + intros x [->|[->| ->]]; (split; [done|split; eexists; reflexivity]).
    + intros n s Hs. unfold off0 in Hs. apply lookup_insert_Some in Hs as [[<- <-]|[_ Hs]]; [split; [done|split; [apply not_elem_of_nil|split; reflexivity]]|].
      apply lookup_insert_Some in Hs as [[<- <-]|[_ Hs]]; [split; [done|split; [apply not_elem_of_nil|split; reflexivity]]|].
      apply lookup_singleton_Some in Hs as [<- <-]. split; [done|split; [apply not_elem_of_nil|split; reflexivity]].
Defined.
