(* ===== verification/HeapProp.v ===== *)
(** * Heap predicates

    A linear separation logic on memories of words, as an instance of Iris's
    logic of bunched implications, so that its proof mode can be used.  A
    predicate is about exactly the cells it mentions: [emp] holds of the empty
    memory only and [P ∗ Q] splits the memory in two; nothing can be dropped.
    In [⌜φ⌝] the fact [φ] stands with the empty memory, in [⌈φ⌉] with any. *)

From iris.bi Require Import bi.
From iris.proofmode Require Import proofmode environments.
From S2P Require Import Prelude.

Definition memory : Type := gmap Z Z.

Record hpred := HPred { at_mem : memory → Prop }.

(** ** The logic *)

Section ofe.
Record hpred_same (P Q : hpred) : Prop := HSame { same_at : ∀ h, at_mem P h ↔ at_mem Q h }.
#[local] Instance hpred_equiv : Equiv hpred := hpred_same.
#[local] Instance hpred_equivalence : @Equivalence hpred (≡).
Proof.
  split.
  - intros P. by split.
  - intros P Q [H]. split. intros h. by rw H.
  - intros P Q R [H1] [H2]. split. intros h. by rw H1.
Qed.
Canonical Structure hpredO := Ofe hpred (discrete_ofe_mixin hpred_equivalence).
End ofe.

Record h_entails (P Q : hpred) : Prop := HEntails { entails_at : ∀ h, at_mem P h → at_mem Q h }.
#[global] Arguments HEntails {_ _} _.
#[global] Arguments entails_at {_ _} _ _ _.
Definition h_emp : hpred := HPred (λ h, h = ∅).
Definition h_pure (φ : Prop) : hpred := HPred (λ _, φ).
Definition h_and (P Q : hpred) : hpred := HPred (λ h, at_mem P h ∧ at_mem Q h).
Definition h_or (P Q : hpred) : hpred := HPred (λ h, at_mem P h ∨ at_mem Q h).
Definition h_impl (P Q : hpred) : hpred := HPred (λ h, at_mem P h → at_mem Q h).
Definition h_forall {A} (P : A → hpred) : hpred := HPred (λ h, ∀ a, at_mem (P a) h).
Definition h_exist {A} (P : A → hpred) : hpred := HPred (λ h, ∃ a, at_mem (P a) h).
Definition h_sep (P Q : hpred) : hpred :=
  HPred (λ h, ∃ h1 h2, h = h1 ∪ h2 ∧ h1 ##ₘ h2 ∧ at_mem P h1 ∧ at_mem Q h2).
Definition h_wand (P Q : hpred) : hpred :=
  HPred (λ h, ∀ h', h ##ₘ h' → at_mem P h' → at_mem Q (h ∪ h')).
Definition h_persistently (P : hpred) : hpred := h_pure (h_entails h_emp P).

Lemma h_bi_mixin : BiMixin h_entails h_emp h_pure h_and h_or h_impl (@h_forall) (@h_exist) h_sep h_wand.
Proof.
  split.
  - split; [by intros P; split|]. intros P Q R [H1] [H2]. split. auto.
  - intros P Q. split; [intros [H]; split; split; intros h; apply H|].
    intros [[H1] [H2]]. split. split; auto.
  - intros n φ ψ H. split. intros h. apply H.
  - intros n P P' [HP] Q Q' [HQ]. split. intros h. simpl. by rw HP HQ.
  - intros n P P' [HP] Q Q' [HQ]. split. intros h. simpl. by rw HP HQ.
  - intros n P P' [HP] Q Q' [HQ]. split. intros h. simpl. by rw HP HQ.
  - intros A n P P' HP. split. intros h. simpl. split; intros H a; apply HP, H.
  - intros A n P P' HP. split. intros h. simpl. split; intros [a H]; exists a; by apply HP.
  - intros n P P' [HP] Q Q' [HQ]. split. intros h.
    split; intros (h1 & h2 & ? & ? & ? & ?); exists h1, h2; (split_and!; [done|done|by apply HP|by apply HQ]).
  - intros n P P' [HP] Q Q' [HQ]. split. intros h. simpl.
    split; intros H h' Hd Hp; apply HQ, H; [done|by apply HP|done|by apply HP].
  - by intros φ P Hφ; split.
  - intros φ P H. split. intros h Hφ. by apply H.
  - intros P Q. by split; intros h [? _].
  - intros P Q. by split; intros h [_ ?].
  - intros P Q R [H1] [H2]. split. split; auto.
  - intros P Q. split. by left.
  - intros P Q. split. by right.
  - intros P Q R [H1] [H2]. split. intros h [HP|HQ]; auto.
  - intros P Q R [H]. split. intros h HP HQ. by apply H.
  - intros P Q R [H]. split. intros h [HP HQ]. by apply H.
  - intros A P Q H. split. intros h HP a. by apply H.
  - intros A P a. split. intros h H. apply H.
  - intros A P a. split. intros h H. by exists a.
  - intros A P Q H. split. intros h [a Ha]. by apply (H a).
  - intros P P' Q Q' [H1] [H2]. split. intros h (h1 & h2 & -> & Hd & HP & HQ). exists h1, h2. auto.
  - intros P. split. intros h HP. exists ∅, h.
    split; [by rw (left_id_L ∅ (∪))|]. split; [apply map_disjoint_empty_l|done].
  - intros P. split. intros h (h1 & h2 & -> & _ & -> & HP). by rw (left_id_L ∅ (∪)).
  - intros P Q. split. intros h (h1 & h2 & -> & Hd & HP & HQ). exists h2, h1.
    split; [by apply (map_union_comm (M := gmap Z))|]. done.
  - intros P Q R. split. intros h (h12 & h3 & -> & Hd & (h1 & h2 & -> & Hd' & HP & HQ) & HR).
    apply map_disjoint_union_l in Hd as [Hd1 Hd2]. exists h1, (h2 ∪ h3).
    split; [by rw (assoc_L (∪))|]. split; [by apply map_disjoint_union_r|]. split; [done|].
    by exists h2, h3.
  - intros P Q R [H]. split. intros h HP h' Hd HQ. apply H. by exists h, h'.
  - intros P Q R [H]. split. intros h (h1 & h2 & -> & Hd & HP & HQ). by apply H.
Qed.

Lemma h_persistently_mixin : BiPersistentlyMixin h_entails h_emp h_and (@h_exist) h_sep h_persistently.
Proof.
  eapply bi_persistently_mixin_discrete, h_bi_mixin; [done| |done].
  intros A Φ [H]. destruct (H ∅ eq_refl) as [a Ha]. exists a. split. by intros h ->.
Qed.

Lemma h_later_mixin : BiLaterMixin h_entails h_pure h_or h_impl (@h_forall) (@h_exist) h_sep h_persistently id.
Proof. eapply bi_later_mixin_id, h_bi_mixin. done. Qed.

Canonical Structure hpropI : bi := {|
  bi_ofe_mixin := ofe_mixin_of hpred;
  bi_bi_mixin := h_bi_mixin;
  bi_bi_persistently_mixin := h_persistently_mixin;
  bi_bi_later_mixin := h_later_mixin |}.

Abbreviation hprop := (bi_car hpropI).

#[export] Instance hprop_pure_forall : BiPureForall hpropI.
Proof. intros A φ. by split. Qed.

#[export] Instance hprop_positive : BiPositive hpropI.
Proof.
  intros P Q. split. intros h [-> (h1 & h2 & E & Hd & HP & HQ)]. pose proof (map_positive_l _ _ (eq_sym E)) as ->.
  rw (left_id_L ∅ (∪)) in E. subst h2. exists ∅, ∅. split; [by rw (left_id_L ∅ (∪))|].
  split; [apply map_disjoint_empty_l|]. split; [by split|done].
Qed.

(** Facts that take no cells, and facts that leave the cells alone. *)
Notation "'⌜' φ '⌝'" := (bi_affinely (bi_pure φ%type%stdpp)) : bi_scope.
Notation "'⌈' φ '⌉'" := (bi_pure φ%type%stdpp) (at level 0, φ at level 200) : bi_scope.

(** ** Reading an assertion as a predicate *)

#[global] Arguments at_mem : simpl never.

Lemma at_sep (P Q : hprop) (h1 h2 : memory) :
  h1 ##ₘ h2 → at_mem P h1 → at_mem Q h2 → at_mem (P ∗ Q)%I (h1 ∪ h2).
Proof. intros Hd HP HQ. by exists h1, h2. Qed.

Lemma at_sep_inv (P Q : hprop) (h : memory) :
  at_mem (P ∗ Q)%I h → ∃ h1 h2, h = h1 ∪ h2 ∧ h1 ##ₘ h2 ∧ at_mem P h1 ∧ at_mem Q h2.
Proof. done. Qed.

Lemma at_pure (φ : Prop) (h : memory) : at_mem (⌜φ⌝ : hprop)%I h ↔ h = ∅ ∧ φ.
Proof. done. Qed.

Lemma at_wand_pure (φ : Prop) (P : hprop) (h : memory) : φ → at_mem (⌜φ⌝ -∗ P)%I h → at_mem P h.
Proof.
  intros Hφ H. rw -(right_id_L ∅ (∪) h). apply H; [apply map_disjoint_empty_r|]. by apply at_pure.
Qed.

(** A fact that follows from what is in the context, which stays as it is. *)
Lemma tac_fact (φ : Prop) (Δ : envs hpropI) (Q : hprop) :
  envs_entails Δ ⌈φ⌉ → (φ → envs_entails Δ Q) → envs_entails Δ Q.
Proof. rw envs_entails_unseal. intros H HQ. by apply (bi.pure_elim φ). Qed.

Tactic Notation "iFact" constr(φ) "as" simple_intropattern(x) := apply (tac_fact φ); [|intros x].
Tactic Notation "iPure" open_constr(t) "as" simple_intropattern(x) :=
  eapply tac_fact; [iApply t|intros x].
