(* ===== verification/WordMem.v ===== *)
(** * Word memory and its separation logic

    Code on linked structures as a state monad over a memory of words (an
    address holds a word or is not mapped; dereferencing NULL or an unmapped
    address has no result), with weakest preconditions in the linear separation
    logic of [HeapProp].  [wp_adequate] takes a proof in the logic back to the
    monad: the program has a result in every memory that holds the cells of the
    precondition, and the new memory consists of the cells of the postcondition
    and of what the old one held elsewhere, no more and no less: nothing that
    the program allocated is left over, and nothing is given back twice. *)

From iris.proofmode Require Import proofmode.
From S2P Require Import Prelude.
From S2P Require Export HeapProp.

(** ** Programs *)

Definition M (A : Type) : Type := memory → option (A * memory).

#[export] Instance M_ret : MRet M := λ A a m, Some (a, m).
#[export] Instance M_bind : MBind M := λ A B f c m, '(a, m) ← c m; f a m.

Definition undefined {A} : M A := λ _, None.

(** The word at offset [off] of the object at [p]. *)
Definition ld (p off : Z) : M Z := λ m,
  if p =? 0 then None else v ← m !! (p + off); Some (v, m).
Definition st (p off v : Z) : M unit := λ m,
  if p =? 0 then None else _ ← m !! (p + off); Some (tt, <[p + off := v]> m).

(** *** Allocation

    The addresses come from the class [Malloc], whose law is what the allocator
    documents: a block that is not NULL and overlaps nothing that is mapped.
    The cell [- p] stands for the allocator's record of the block at [p]: it
    holds the number of its cells, which lie [stride] apart (8 for words, 1 for
    bytes).  Freed cells are no longer mapped, so that a use after [free] or a
    second [free] has no result. *)

Class Malloc := {
  malloc_at : memory → Z → option Z;
  (* What the cells of a new block hold. *)
  malloc_junk : memory → Z → Z;
  malloc_fresh m n p : malloc_at m n = Some p →
    0 < p ∧ m !! (- p) = None ∧ ∀ i, 0 ≤ i < n → m !! (p + i) = None;
}.

Definition addrs (p stride : Z) (count : nat) : list Z := (λ i, p + stride * Z.of_nat i) <$> seq 0 count.

Fixpoint map_in (l : list Z) (v : Z → Z) (m : memory) : memory :=
  match l with [] => m | a :: l => <[a := v a]> (map_in l v m) end.
Fixpoint unmap (l : list Z) (m : memory) : option memory :=
  match l with [] => Some m | a :: l => _ ← m !! a; unmap l (delete a m) end.

(** A block of [count] cells that hold [v], NULL when there is no memory. *)
Definition new_block `{Malloc} (v : memory → Z → Z) (stride : Z) (count : nat) : M Z := λ m,
  match malloc_at m (stride * Z.of_nat count) with
  | None => Some (0, m)
  | Some p => Some (p, <[- p := Z.of_nat count]> (map_in (addrs p stride count) (v m) m))
  end.

(** There is always memory. *)
Definition memory_left `{Malloc} : Prop := ∀ m n, malloc_at m n ≠ None.

Definition calloc `{Malloc} : Z → nat → M Z := new_block (λ _ _, 0).
Definition malloc `{Malloc} : Z → nat → M Z := new_block malloc_junk.

Definition free (stride p : Z) : M unit := λ m,
  if p =? 0 then Some (tt, m)
  else
    n ← m !! (- p);
    m' ← unmap (- p :: addrs p stride (Z.to_nat n)) m; Some (tt, m').

(** *** An allocator, for concrete runs *)

(** Above everything that is mapped, on 16 bytes. *)
Definition top (m : memory) : Z := map_fold (λ a _ x, Z.max (Z.abs a) x) 0 m.

Lemma top_above (m : memory) (a v : Z) : m !! a = Some v → Z.abs a ≤ top m.
Proof.
  revert a v. apply (map_fold_weak_ind (λ x m, ∀ a v, m !! a = Some v → Z.abs a ≤ x)).
  - intros a v. by rw lookup_empty.
  - intros b w m' x _ IH a v [[-> _]|[_ H]]%lookup_insert_Some; [lia|]. pose proof (IH a v H). lia.
Qed.

Definition bump_at (m : memory) (n : Z) : option Z := Some (16 * (Z.max 0 (top m) / 16 + 1)).

Lemma bump_fresh (m : memory) (n p : Z) :
  bump_at m n = Some p → 0 < p ∧ m !! (- p) = None ∧ ∀ i, 0 ≤ i < n → m !! (p + i) = None.
Proof.
  intros [= <-]. set (p := 16 * (Z.max 0 (top m) / 16 + 1)).
  assert (Z.max 0 (top m) < p) as Hp by (unfold p; Z.to_euclidean_division_equations; lia).
  split_and!; [lia|apply eq_None_not_Some; intros [v Hv%top_above]; lia|].
  intros i Hi. apply eq_None_not_Some. intros [v Hv%top_above]. lia.
Qed.

Definition bump : Malloc := {| malloc_at := bump_at; malloc_junk _ _ := 90; malloc_fresh := bump_fresh |}.

(** ** Weakest preconditions *)

(** The word at an address. *)
Definition points_to (a v : Z) : hprop := HPred (λ h, h = {[a := v]}).
Notation "a ↦ v" := (points_to a v) (at level 20, format "a  ↦  v") : bi_scope.

(** From any memory that holds the cells of the precondition next to others,
    the program has a result, and leaves the others alone. *)
Definition wp {A} (c : M A) (Φ : A → hprop) : hprop := HPred (λ h, ∀ hf, h ##ₘ hf →
  ∃ a h', c (h ∪ hf) = Some (a, h' ∪ hf) ∧ h' ##ₘ hf ∧ at_mem (Φ a) h').

Lemma wp_ret {A} (a : A) (Φ : A → hprop) : Φ a ⊢ wp (mret a) Φ.
Proof. split. intros h H hf Hd. by exists a, h. Qed.

Lemma wp_bind {A B} (c : M A) (f : A → M B) (Φ : B → hprop) :
  wp c (λ a, wp (f a) Φ) ⊢ wp (c ≫= f) Φ.
Proof.
  split. intros h H hf Hd. destruct (H hf Hd) as (a & h1 & Hc & Hd1 & H1).
  destruct (H1 hf Hd1) as (b & h2 & Hf & Hd2 & H2). exists b, h2.
  split; [|done]. by rw /mbind /M_bind Hc.
Qed.

Lemma wp_mono {A} (c : M A) (Φ Ψ : A → hprop) : (∀ a, Φ a ⊢ Ψ a) → wp c Φ ⊢ wp c Ψ.
Proof.
  intros HΦ. split. intros h H hf Hd. destruct (H hf Hd) as (a & h1 & Hc & Hd1 & H1). exists a, h1.
  split; [done|]. split; [done|]. by apply HΦ.
Qed.

Lemma wp_frame {A} (c : M A) (Φ : A → hprop) (R : hprop) : wp c Φ ∗ R ⊢ wp c (λ a, Φ a ∗ R).
Proof.
  split. intros h (h1 & h2 & -> & Hd & H & HR)%at_sep_inv hf Hdf.
  apply map_disjoint_union_l in Hdf as [Hd1 Hd2].
  destruct (H (h2 ∪ hf)) as (a & h' & Hc & [Hd2' Hdf]%map_disjoint_union_r & H').
  { by apply map_disjoint_union_r. }
  exists a, (h' ∪ h2). rw -!(assoc_L (∪)). split; [done|]. split; [by apply map_disjoint_union_l|].
  by apply at_sep.
Qed.

Lemma wp_wand {A} (c : M A) (Φ Ψ : A → hprop) :
  wp c Φ -∗ (∀ a, Φ a -∗ Ψ a) -∗ wp c Ψ.
Proof.
  iIntros "H HΨ". iDestruct (wp_frame _ _ (∀ a, Φ a -∗ Ψ a)%I with "[$H $HΨ]") as "H". iApply (wp_mono with "H").
  iIntros (a) "[H HΨ]". by iApply "HΨ".
Qed.

(** What is true of every result. *)
Lemma wp_result {A} (φ : A → Prop) (c : M A) (Φ : A → hprop) :
  (∀ m a m', c m = Some (a, m') → φ a) → wp c (λ a, ⌜φ a⌝ -∗ Φ a) ⊢ wp c Φ.
Proof.
  intros Hφ. split. intros h H hf Hd. destruct (H hf Hd) as (a & h1 & Hc & Hd1 & H1). exists a, h1.
  split; [done|]. split; [done|]. by eapply at_wand_pure, H1; eapply Hφ.
Qed.

Lemma wp_assoc {A B C} (c : M A) (f : A → M B) (g : B → M C) (Φ : C → hprop) :
  wp ((c ≫= f) ≫= g) Φ ⊢ wp (c ≫= λ a, f a ≫= g) Φ.
Proof.
  split. intros h H hf Hd. destruct (H hf Hd) as (a & h1 & Hc & Hd1 & H1). exists a, h1.
  split; [|done]. rw -Hc /mbind /M_bind /=. by destruct (c (h ∪ hf)) as [[? ?]|].
Qed.

(** The word at offset [o] of the object at [p]. *)
Definition fld (p o v : Z) : hprop := (p + o) ↦ v.

Lemma at_points_to (a v : Z) (h hf : memory) :
  at_mem (a ↦ v)%I h → h ##ₘ hf → h = {[a := v]} ∧ hf !! a = None ∧ (h ∪ hf) !! a = Some v.
Proof.
  intros -> Hn%map_disjoint_singleton_l. split_and!; [done|done|].
  by apply lookup_union_Some_l, lookup_singleton_Some.
Qed.

Lemma wp_ld_cell (p off v : Z) : p ≠ 0 → fld p off v ⊢ wp (ld p off) (λ w, ⌜w = v⌝ ∗ fld p off v).
Proof.
  intros Hp. split. intros h H hf Hd. exists v, h.
  destruct (at_points_to _ _ _ _ H Hd) as (_ & _ & Hl). split; [|split; [done|]].
  - by rw /ld (proj2 (Z.eqb_neq _ _) Hp) Hl.
  - rw -(left_id_L ∅ (∪) h). by apply at_sep; [apply map_disjoint_empty_l|apply at_pure|].
Qed.

Lemma wp_st_cell (p off v w : Z) : p ≠ 0 → fld p off v ⊢ wp (st p off w) (λ _, fld p off w).
Proof.
  intros Hp. split. intros h H hf Hd. destruct (at_points_to _ _ _ _ H Hd) as (-> & Hn & Hl).
  exists tt, {[p + off := w]}. split; [|split; [by apply map_disjoint_singleton_l|done]].
  rw /st (proj2 (Z.eqb_neq _ _) Hp) Hl /=. by rw insert_union_l insert_singleton_eq.
Qed.

Lemma wp_ld (p off v : Z) (Φ : Z → hprop) :
  p ≠ 0 → fld p off v -∗ (fld p off v -∗ Φ v) -∗ wp (ld p off) Φ.
Proof.
  iIntros (Hp) "Hv HΦ". iApply (wp_wand with "[Hv]"); [by iApply wp_ld_cell|].
  iIntros (w) "[-> Hv]". by iApply "HΦ".
Qed.

Lemma wp_st (p off v w : Z) (Φ : unit → hprop) :
  p ≠ 0 → fld p off v -∗ (fld p off w -∗ Φ tt) -∗ wp (st p off w) Φ.
Proof.
  iIntros (Hp) "Hv HΦ". iApply (wp_wand with "[Hv]"); [by iApply (wp_st_cell with "Hv")|].
  iIntros ([]). done.
Qed.

Lemma fld_ne (p o v q w : Z) : fld p o v -∗ fld q o w -∗ ⌈p ≠ q⌉.
Proof.
  apply bi.entails_wand, bi.wand_intro_r. split. intros h (h1 & h2 & _ & Hd & H & ->)%at_sep_inv ->.
  destruct (at_points_to _ _ _ _ H Hd) as (_ & Hn & _). by rw lookup_singleton_eq in Hn.
Qed.

(** A block of cells. *)
Fixpoint array (p stride : Z) (vs : list Z) : hprop :=
  match vs with [] => emp | v :: vs => p ↦ v ∗ array (p + stride) stride vs end.
Definition token (p : Z) (n : nat) : hprop := (- p) ↦ Z.of_nat n.

#[export] Instance array_nil_affine (p stride : Z) : Affine (array p stride []).
Proof. apply bi.emp_affine. Qed.

Lemma addrs_S (p stride : Z) (n : nat) : addrs p stride (S n) = p :: addrs (p + stride) stride n.
Proof.
  rw /addrs -cons_seq fmap_cons. f_equal; [lia|]. rw -fmap_S_seq -list_fmap_compose.
  apply list_fmap_ext. intros i x _; simpl; lia.
Qed.

Lemma map_in_other (l : list Z) (v : Z → Z) (m : memory) (a : Z) :
  a ∉ l → map_in l v m !! a = m !! a.
Proof.
  induction l as [|b l IH]; [done|]. intros [??]%not_elem_of_cons. simpl. rw lookup_insert_ne //. auto.
Qed.

Lemma array_map_in (v : Z → Z) (stride p : Z) (n : nat) (m : memory) :
  0 < stride → (∀ a, a ∈ addrs p stride n → m !! a = None) →
  ∃ h, map_in (addrs p stride n) v m = h ∪ m ∧ h ##ₘ m ∧ at_mem (array p stride (v <$> addrs p stride n)) h.
Proof.
  intros Hs. revert p. induction n as [|n IH]; intros p Hn.
  { exists ∅. rw (left_id_L ∅ (∪)). split; [done|]. by split; [apply map_disjoint_empty_l|]. }
  rw addrs_S in Hn |- *. destruct (IH (p + stride)) as (h & E & Hd & Ha).
  { intros a Ha. apply Hn. by right. }
  assert ((h ∪ m) !! p = None) as Hp.
  { rw -E map_in_other; [apply Hn; by left|]. intros (i & ? & _)%list_elem_of_fmap. nia. }
  apply lookup_union_None in Hp as [Hh Hm]. exists ({[p := v p]} ∪ h). simpl. split_and!.
  - by rw E -(assoc_L (∪)) -insert_union_singleton_l.
  - apply map_disjoint_union_l. by split; [apply map_disjoint_singleton_l|].
  - by apply at_sep; [apply map_disjoint_singleton_l| |].
Qed.

Lemma unmap_array (stride : Z) (vs : list Z) (p : Z) (h hf : memory) :
  at_mem (array p stride vs) h → h ##ₘ hf → unmap (addrs p stride (length vs)) (h ∪ hf) = Some hf.
Proof.
  revert p h. induction vs as [|v vs IH]; intros p h H Hd; simpl length.
  { rw (H : h = ∅). by rw (left_id_L ∅ (∪)). }
  rw addrs_S. destruct (at_sep_inv _ _ _ H) as (h1 & h2 & -> & Hd' & H1 & H2).
  apply map_disjoint_union_l in Hd as [Hd1 Hd2]. rw -(assoc_L (∪)).
  destruct (at_points_to p v h1 (h2 ∪ hf)) as (-> & Hn & Hl); [done|by apply map_disjoint_union_r|].
  cbn [unmap]. rw Hl. cbn [mbind option_bind]. rw -insert_union_singleton_l delete_insert_id //. auto.
Qed.

Lemma wp_new_block_cells `{Malloc} (v : memory → Z → Z) (stride : Z) (n : nat) :
  0 < stride → emp ⊢ wp (new_block v stride n) (λ p,
    ⌜p = 0 ∧ ¬ memory_left⌝ ∨ ∃ m, ⌜0 < p⌝ ∗ token p n ∗ array p stride (v m <$> addrs p stride n)).
Proof.
  intros Hs. split. intros h -> hf _. rw (left_id_L ∅ (∪)) /new_block.
  destruct (malloc_at hf _) as [p|] eqn:E.
  - apply malloc_fresh in E as (Hp & Ht & Hf).
    destruct (array_map_in (v hf) stride p n hf) as (h & Eh & Hd & Ha); [done| |].
    { intros a (i & -> & Hi%elem_of_seq)%list_elem_of_fmap. apply Hf. nia. }
    assert ((h ∪ hf) !! (- p) = None) as [Hh _]%lookup_union_None.
    { rw -Eh map_in_other //. intros (i & ? & _)%list_elem_of_fmap. nia. }
    exists p, ({[- p := Z.of_nat n]} ∪ h). split_and!.
    + by rw Eh -(assoc_L (∪)) -insert_union_singleton_l.
    + apply map_disjoint_union_l. by split; [apply map_disjoint_singleton_l|].
    + right. exists hf. rw -(left_id_L ∅ (∪) (_ ∪ h)). apply at_sep; [apply map_disjoint_empty_l|by apply at_pure|].
      by apply at_sep; [apply map_disjoint_singleton_l| |].
  - exists 0, ∅. rw (left_id_L ∅ (∪)). split; [done|]. split; [apply map_disjoint_empty_l|]. left.
    apply at_pure. split_and!; [done|done|]. intros Hleft. by apply Hleft in E.
Qed.

Lemma wp_free_cells (stride p : Z) (vs : list Z) :
  p ≠ 0 → token p (length vs) ∗ array p stride vs ⊢ wp (free stride p) (λ _, emp).
Proof.
  intros Hp. split. intros h (h1 & h2 & -> & Hd & H1 & H2)%at_sep_inv hf Hdf.
  apply map_disjoint_union_l in Hdf as [Hd1 Hd2]. rw -(assoc_L (∪)).
  destruct (at_points_to _ _ h1 (h2 ∪ hf) H1) as (-> & Hn & Hl); [by apply map_disjoint_union_r|].
  exists tt, ∅. rw (left_id_L ∅ (∪)). split; [|split; [apply map_disjoint_empty_l|done]].
  rw /free (proj2 (Z.eqb_neq _ _) Hp) Hl. cbn [mbind option_bind unmap]. rw Nat2Z.id Hl.
  cbn [mbind option_bind]. rw -insert_union_singleton_l delete_insert_id // (unmap_array stride vs) //.
Qed.

Lemma wp_new_block `{Malloc} (v : memory → Z → Z) (stride : Z) (n : nat) (Φ : Z → hprop) :
  0 < stride →
  ((⌜¬ memory_left⌝ -∗ Φ 0) ∧ ∀ m p, ⌜0 < p⌝ -∗ token p n -∗ array p stride (v m <$> addrs p stride n) -∗ Φ p) ⊢
  wp (new_block v stride n) Φ.
Proof.
  iIntros (Hs) "HΦ". iApply (wp_wand with "[]"); [by iApply wp_new_block_cells|].
  iIntros (p) "[[-> %Hn]|(%m & %Hp & Ht & Ha)]"; [iDestruct "HΦ" as "[HΦ _]"; by iApply "HΦ"|].
  iDestruct "HΦ" as "[_ HΦ]". by iApply ("HΦ" with "[] Ht Ha").
Qed.

Lemma wp_calloc `{Malloc} (stride : Z) (n : nat) (Φ : Z → hprop) :
  0 < stride →
  ((⌜¬ memory_left⌝ -∗ Φ 0) ∧ ∀ p, ⌜0 < p⌝ -∗ token p n -∗ array p stride (replicate n 0) -∗ Φ p) ⊢ wp (calloc stride n) Φ.
Proof.
  iIntros (Hs) "HΦ". iApply wp_new_block; [done|]. iSplit; [by iDestruct "HΦ" as "[$ _]"|].
  iDestruct "HΦ" as "[_ HΦ]". iIntros (m p) "Hp Ht Ha". iApply ("HΦ" with "Hp Ht").
  rw (_ : (λ _, 0) <$> addrs p stride n = replicate n 0); [done|].
  rw (const_fmap (λ _, 0) _ 0) // /addrs length_fmap length_seq //.
Qed.

Lemma wp_malloc `{Malloc} (stride : Z) (n : nat) (Φ : Z → hprop) :
  0 < stride →
  ((⌜¬ memory_left⌝ -∗ Φ 0) ∧ ∀ p vs, ⌜0 < p ∧ length vs = n⌝ -∗ token p n -∗ array p stride vs -∗ Φ p) ⊢ wp (malloc stride n) Φ.
Proof.
  iIntros (Hs) "HΦ". iApply wp_new_block; [done|]. iSplit; [by iDestruct "HΦ" as "[$ _]"|].
  iDestruct "HΦ" as "[_ HΦ]". iIntros (m p) "%Hp Ht Ha". iApply ("HΦ" with "[] Ht Ha").
  iPureIntro. split; [done|]. by rw length_fmap /addrs length_fmap length_seq.
Qed.

Lemma wp_free (stride p : Z) (vs : list Z) (Φ : unit → hprop) :
  p ≠ 0 → token p (length vs) -∗ array p stride vs -∗ Φ tt -∗ wp (free stride p) Φ.
Proof.
  iIntros (Hp) "Ht Ha HΦ". iApply (wp_wand with "[Ht Ha]"); [iApply wp_free_cells; [done|iFrame]|].
  by iIntros ([]) "_".
Qed.

Lemma wp_free_null (stride : Z) (Φ : unit → hprop) : Φ tt ⊢ wp (free stride 0) Φ.
Proof. apply wp_ret. Qed.

Lemma fld_0 (p v : Z) : fld p 0 v ⊣⊢ p ↦ v.
Proof. by rw /fld Z.add_0_r. Qed.

Lemma array_cons (p stride v : Z) (vs : list Z) :
  array p stride (v :: vs) ⊣⊢ fld p 0 v ∗ array (p + stride) stride vs.
Proof. by rw fld_0. Qed.

Lemma array_open (p stride v : Z) (vs : list Z) :
  array p stride (v :: vs) -∗ fld p 0 v ∗ array (p + stride) stride vs.
Proof. rw array_cons. iIntros "$". Qed.

Lemma array_close (p stride v : Z) (vs : list Z) :
  fld p 0 v -∗ array (p + stride) stride vs -∗ array p stride (v :: vs).
Proof. rw array_cons. iIntros "$ $". Qed.

Lemma array_app (p stride : Z) (vs ws : list Z) :
  array p stride (vs ++ ws) ⊣⊢ array p stride vs ∗ array (p + stride * Z.of_nat (length vs)) stride ws.
Proof.
  revert p. induction vs as [|v vs IH]; intros p; simpl.
  - rw Z.mul_0_r Z.add_0_r. iSplit; [iIntros "$"|iIntros "[_ $]"].
  - rw IH. assert (p + stride + stride * Z.of_nat (length vs) = p + stride * Z.of_nat (S (length vs))) as -> by lia.
    iSplit; [iIntros "($ & $ & $)"|iIntros "[[$ $] $]"].
Qed.

(** The cells of a list, one by one. *)
Definition cells (cs : list (Z * Z)) : hprop := [∗ list] c ∈ cs, c.1 ↦ c.2.

Lemma cells_app (cs ds : list (Z * Z)) : cells (cs ++ ds) ⊣⊢ cells cs ∗ cells ds.
Proof. apply big_sepL_app. Qed.

#[global] Typeclasses Opaque points_to fld wp token array.

(** ** Adequacy *)

(** The memory holds the cells, each at an address of its own. *)
Definition holds (m : memory) (cs : list (Z * Z)) : Prop :=
  NoDup cs.*1 ∧ ∀ a v, (a, v) ∈ cs → m !! a = Some v.

(** The memory without the cells. *)
Definition outside (cs : list (Z * Z)) (m : memory) : memory := m ∖ list_to_map cs.

Lemma at_cells (cs : list (Z * Z)) (h : memory) :
  at_mem (cells cs) h ↔ NoDup cs.*1 ∧ h = list_to_map cs.
Proof.
  revert h. induction cs as [|[a v] cs IH]; intros h; simpl.
  { split; [intros ->; split; [constructor|done]|by intros [_ ->]]. }
  split.
  - intros (h1 & h2 & -> & Hd & -> & [Hnd ->]%IH)%at_sep_inv. rw -insert_union_singleton_l. split; [|done].
    constructor; [|done]. apply (not_elem_of_list_to_map (M := gmap Z)).
    by apply map_disjoint_singleton_l in Hd.
  - intros [[Ha Hnd]%NoDup_cons ->]. rw insert_union_singleton_l. apply at_sep; [|done|by apply IH].
    apply map_disjoint_singleton_l. by apply not_elem_of_list_to_map_1.
Qed.

Lemma holds_split (m : memory) (cs : list (Z * Z)) :
  holds m cs → m = list_to_map cs ∪ outside cs m.
Proof.
  intros [Hnd Hm]. symmetry. apply map_difference_union. apply map_subseteq_spec.
  intros a v Ha%elem_of_list_to_map_2. auto.
Qed.

Lemma holds_union (cs : list (Z * Z)) (m : memory) :
  NoDup cs.*1 → list_to_map cs ##ₘ m →
  holds (list_to_map cs ∪ m) cs ∧ outside cs (list_to_map cs ∪ m) = m.
Proof.
  intros Hnd Hd. split; [split; [done|]|].
  - intros a v Hin. apply lookup_union_Some_l. by apply elem_of_list_to_map_1.
  - rw /outside map_difference_union_distr_l. rw map_difference_diag (left_id_L ∅ (∪)).
    by rw map_difference_disjoint.
Qed.

Lemma wp_adequate {A} (c : M A) (cs : list (Z * Z)) (Q : A → list (Z * Z) → Prop) (m : memory) :
  holds m cs →
  (cells cs ⊢ wp c (λ a, ∃ cs', cells cs' ∗ ⌜Q a cs'⌝)) →
  ∃ a m' cs', c m = Some (a, m') ∧ Q a cs' ∧ holds m' cs' ∧ outside cs' m' = outside cs m.
Proof.
  intros Hm [Hwp]. destruct (Hwp (list_to_map cs)) with (outside cs m) as (a & h & Hc & Hd & cs' & Hh).
  { apply at_cells. by split; [apply Hm|]. }
  { apply map_disjoint_difference_r1. reflexivity. }
  rw -holds_split // in Hc. apply at_sep_inv in Hh as (h1 & h2 & -> & _ & [Hnd ->]%at_cells & [-> HQ]%at_pure).
  rw (right_id_L ∅ (∪)) in Hc Hd |- *. destruct (holds_union cs' (outside cs m) Hnd Hd). by eexists a, _, cs'.
Qed.

(** ** Footprints

    The cells an assertion stands for, as a predicate on lists of cells, so that
    a theorem proved in the logic can be stated without it. *)

Definition footprint : Type := list (Z * Z) → Prop.

Definition fp_cell (p o v : Z) : footprint := λ cs, cs = [(p + o, v)].
Definition fp_pure (φ : Prop) : footprint := λ cs, cs = [] ∧ φ.
Definition fp_sep (R S : footprint) : footprint := λ cs, ∃ a b, cs = a ++ b ∧ R a ∧ S b.
Definition fp_ex {A} (R : A → footprint) : footprint := λ cs, ∃ a, R a cs.
Fixpoint fp_list {A} (R : A → footprint) (xs : list A) : footprint :=
  match xs with [] => fp_pure True | x :: xs => fp_sep (R x) (fp_list R xs) end.

Notation "R ⊗ S" := (fp_sep R S) (at level 80, right associativity).

(** The allocator's record of a block, and a block of bytes. *)
Definition fp_token (p : Z) (n : nat) : footprint := λ cs, cs = [(- p, Z.of_nat n)].
Fixpoint fp_array (p : Z) (vs : list Z) : footprint :=
  match vs with [] => fp_pure True | v :: vs => fp_cell p 0 v ⊗ fp_array (p + 1) vs end.


(** The assertion [P] is about the cells of [R], and no others. *)
Class Covers (P : hprop) (R : footprint) : Prop := covers : P ⊣⊢ ∃ cs, cells cs ∗ ⌜R cs⌝.

#[export] Instance covers_proper : Proper ((⊣⊢) ==> (=) ==> iff) Covers.
Proof. intros P Q HPQ R ? <-. by rw /Covers HPQ. Qed.

#[export] Instance covers_cell (p o v : Z) : Covers (fld p o v) (fp_cell p o v).
Proof.
  rw /Covers /fp_cell /fld. iSplit.
  - iIntros "H". iExists [(p + o, v)]. rw /cells big_sepL_singleton. by iFrame.
  - iIntros "(%cs & H & ->)". by rw /cells big_sepL_singleton.
Qed.

#[export] Instance covers_pure (φ : Prop) : Covers ⌜φ⌝ (fp_pure φ).
Proof.
  rw /Covers /fp_pure. iSplit.
  - iIntros "%H". iExists []. rw /cells /=. auto.
  - iIntros "(%cs & H & -> & %)". rw /cells /=. auto.
Qed.

#[export] Instance covers_sep (P Q : hprop) (R S : footprint) :
  Covers P R → Covers Q S → Covers (P ∗ Q) (R ⊗ S).
Proof.
  rw /Covers /fp_sep. intros -> ->. iSplit.
  - iIntros "[(%a & Ha & %) (%b & Hb & %)]". iExists (a ++ b). rw cells_app. iFrame.
    iPureIntro. eauto.
  - iIntros "(%cs & H & %a & %b & -> & % & %)". rw cells_app. iDestruct "H" as "[Ha Hb]".
    iSplitL "Ha"; iExists _; by iFrame.
Qed.

#[export] Instance covers_ex {A} (P : A → hprop) (R : A → footprint) :
  (∀ a, Covers (P a) (R a)) → Covers (∃ a, P a) (fp_ex R).
Proof.
  intros H. rw /Covers /fp_ex. iSplit.
  - iIntros "[%a H]". rw (covers (P := P a)) /=. iDestruct "H" as "(%cs & H & %)". iExists cs. iFrame. eauto.
  - iIntros "(%cs & H & %a & %)". iExists a. rw (covers (P := P a)). iExists cs. by iFrame.
Qed.

#[export] Instance covers_emp : Covers (emp : hprop) (fp_pure True).
Proof.
  eapply covers_proper; [|reflexivity|apply (covers_pure True)]. by rw bi.affinely_True_emp.
Qed.

#[export] Instance covers_list {A} (P : A → hprop) (R : A → footprint) (xs : list A) :
  (∀ a, Covers (P a) (R a)) → Covers ([∗ list] x ∈ xs, P x) (fp_list R xs).
Proof.
  intros H. induction xs as [|x xs IH]; simpl.
  - apply covers_emp.
  - apply covers_sep; [done|exact IH].
Qed.

#[export] Instance covers_token (p : Z) (n : nat) : Covers (token p n) (fp_token p n).
Proof.
  rw /Covers /fp_token /token. iSplit.
  - iIntros "H". iExists [(- p, Z.of_nat n)]. rw /cells big_sepL_singleton. by iFrame.
  - iIntros "(%cs & H & ->)". by rw /cells big_sepL_singleton.
Qed.

#[export] Instance covers_array (p : Z) (vs : list Z) : Covers (array p 1 vs) (fp_array p vs).
Proof.
  revert p. induction vs as [|v vs IH]; intros p; [apply covers_emp|].
  eapply covers_proper; [apply array_cons|reflexivity|]. apply covers_sep; [apply covers_cell|apply IH].
Qed.

(** Total correctness with an exact frame: the cells of [R] become the cells of
    [Q], and the rest of the memory is what it was. *)
Definition triple {A} (R : footprint) (c : M A) (Q : A → footprint) : Prop :=
  ∀ m cs, R cs → holds m cs →
  ∃ a m' cs', c m = Some (a, m') ∧ Q a cs' ∧ holds m' cs' ∧ outside cs' m' = outside cs m.

Lemma wp_triple {A} (R : footprint) (c : M A) (Q : A → footprint) :
  (∃ (P : hprop) (P' : A → hprop), Covers P R ∧ (∀ a, Covers (P' a) (Q a)) ∧ (P ⊢ wp c P')) →
  triple R c Q.
Proof.
  intros (P & P' & HP & HP' & Hwp) m cs HR Hm. apply wp_adequate; [done|]. iIntros "Hc".
  iApply (wp_wand with "[Hc]"); [iApply Hwp; rw (covers (P := P)); iExists cs; by iFrame|].
  iIntros (a) "HP". rw (@covers _ _ (HP' a)). done.
Qed.

(** The memory that consists of the cells. *)
Lemma holds_list_to_map (cs : list (Z * Z)) :
  bool_decide (NoDup cs.*1) = true → holds (list_to_map cs) cs.
Proof.
  intros Hnd%bool_decide_eq_true. split; [done|]. intros a v Hin. by apply elem_of_list_to_map_1.
Qed.

(** Concrete footprints are built from their parts; pure parts are left. *)
Lemma fp_sep_intro (R S : footprint) (a b cs : list (Z * Z)) : R a → S b → a ++ b = cs → (R ⊗ S) cs.
Proof. intros Ha Hb <-. by exists a, b. Qed.

Lemma fp_cell_intro (p o v : Z) (cs : list (Z * Z)) : [(p + o, v)] = cs → fp_cell p o v cs.
Proof. by intros <-. Qed.

Lemma fp_pure_intro (φ : Prop) (cs : list (Z * Z)) : φ → [] = cs → fp_pure φ cs.
Proof. intros H <-. by split. Qed.

Lemma fp_ex_intro {A} (R : A → footprint) (a : A) (cs : list (Z * Z)) : R a cs → fp_ex R cs.
Proof. intros H. by exists a. Qed.

Ltac fp_build :=
  lazymatch goal with
  | |- fp_sep _ _ _ => eapply fp_sep_intro; [fp_build|fp_build|reflexivity]
  | |- fp_cell _ _ _ _ => apply fp_cell_intro; reflexivity
  | |- fp_pure _ _ => apply fp_pure_intro; [|reflexivity]
  | |- fp_token _ _ _ => reflexivity
  | |- fp_array _ [] _ => apply fp_pure_intro; [exact I|reflexivity]
  | |- fp_array _ (_ :: _) _ => eapply fp_sep_intro; [apply fp_cell_intro; reflexivity|fp_build|reflexivity]
  | |- fp_ex _ _ => eapply fp_ex_intro; fp_build
  | _ => idtac
  end.
