(* ===== verification/Rbtree.v ===== *)
(** * Red-black trees (rbtree/rbtree.c, rbtree.h, and their client rbtree/myrbtree.c)

    The code, over the word memory of [WordMem]: a pointer is an address, a
    field an offset, and a read or write through NULL or outside the mapped
    words has no result.  Loops have fuel.  The text that the code has twice,
    for left and for right, is here once with the direction as an argument. *)

From iris.proofmode Require Import proofmode.
From S2P Require Import Prelude WordMem.

(** ** The code *)

(** [struct rb_node]: offsets of its three words; [struct rb_root]: one word. *)
Definition rb_parent_color : Z := 0.
Definition rb_right : Z := 8.
Definition rb_left : Z := 16.
Definition rb_node : Z := 0.

Definition RB_RED : Z := 0.
Definition RB_BLACK : Z := 1.

(** The macros on the word that holds the parent and, in its low bit, the colour. *)
Definition rb_parent (r : Z) : M Z :=
  pc ← ld r rb_parent_color; mret (Z.land pc (u64 (Z.lnot 3))).
Definition rb_color (r : Z) : M Z := pc ← ld r rb_parent_color; mret (Z.land pc 1).
Definition rb_is_red (r : Z) : M bool := c ← rb_color r; mret (c =? 0).
Definition rb_is_black (r : Z) : M bool := c ← rb_color r; mret (negb (c =? 0)).
Definition rb_set_red (r : Z) : M unit :=
  pc ← ld r rb_parent_color; st r rb_parent_color (Z.land pc (u64 (Z.lnot 1))).
Definition rb_set_black (r : Z) : M unit :=
  pc ← ld r rb_parent_color; st r rb_parent_color (Z.lor pc 1).
Definition rb_set_parent (rb p : Z) : M unit :=
  pc ← ld rb rb_parent_color; st rb rb_parent_color (Z.lor (Z.land pc 3) p).
Definition rb_set_color (rb color : Z) : M unit :=
  pc ← ld rb rb_parent_color; st rb rb_parent_color (Z.lor (Z.land pc (u64 (Z.lnot 1))) color).

(** The code has each rebalancing step twice, with left and right exchanged;
    here the step is written once with the direction as an argument, [L] for the
    text that has [rb_left] where [d] is. *)
Inductive dir := L | R.
Definition opp (d : dir) : dir := match d with L => R | R => L end.
Definition child (d : dir) : Z := match d with L => rb_left | R => rb_right end.

(** [parent]'s link to [old], or the root, is set to [new]. *)
Definition set_link (d : dir) (parent old new root : Z) : M unit :=
  if parent =? 0 then st root rb_node new
  else
    x ← ld parent (child d);
    if old =? x then st parent (child d) new else st parent (child (opp d)) new.

Definition rotate (d : dir) (node root : Z) : M unit :=
  right ← ld node (child (opp d));
  parent ← rb_parent node;
  x ← ld right (child d);
  st node (child (opp d)) x;;
  (if x =? 0 then mret tt else y ← ld right (child d); rb_set_parent y node);;
  st right (child d) node;;
  rb_set_parent right parent;;
  set_link d parent node right root;;
  rb_set_parent node right.

Definition __rb_rotate_left (node root : Z) : M unit := rotate L node root.
Definition __rb_rotate_right (node root : Z) : M unit := rotate R node root.

(** A pointer that is not NULL and points to a red node. *)
Definition is_red_node (p : Z) : M bool := if p =? 0 then mret false else rb_is_red p.

(** The body of the loop of [rb_insert_color] when [parent] is the [d] child of
    [gparent]; the new value of [node]. *)
Definition insert_step (d : dir) (node parent gparent root : Z) : M Z :=
  uncle ← ld gparent (child (opp d));
  red ← is_red_node uncle;
  if (red : bool) then
    rb_set_black uncle;; rb_set_black parent;; rb_set_red gparent;; mret gparent
  else
    x ← ld parent (child (opp d));
    '(node, parent) ←
      (if x =? node then rotate d parent root;; mret (parent, node) else mret (node, parent));
    rb_set_black parent;; rb_set_red gparent;; rotate (opp d) gparent root;; mret node.

Fixpoint insert_loop (fuel : nat) (node root : Z) : M unit :=
  match fuel with
  | O => undefined
  | S fuel =>
    parent ← rb_parent node;
    if parent =? 0 then mret tt else
    red ← rb_is_red parent;
    if negb red then mret tt else
    gparent ← rb_parent parent;
    x ← ld gparent rb_left;
    node ← insert_step (if parent =? x then L else R) node parent gparent root;
    insert_loop fuel node root
  end.

Definition rb_insert_color (fuel : nat) (node root : Z) : M unit :=
  insert_loop fuel node root;; r ← ld root rb_node; rb_set_black r.

(** [!p || rb_is_black(p)] *)
Definition is_black_or_null (p : Z) : M bool := if p =? 0 then mret true else rb_is_black p.

(** Neither child of [other] is red; the left one is looked at first. *)
Definition both_black (other : Z) : M bool :=
  l ← ld other rb_left; bl ← is_black_or_null l;
  if (bl : bool) then r ← ld other rb_right; is_black_or_null r else mret false.

(** The body of the loop of [__rb_erase_color] when [node] is the [d] child of
    [parent]; [inl (node, parent)] to go on, [inr node] after [break]. *)
Definition erase_step (d : dir) (node parent root : Z) : M (Z * Z + Z) :=
  other ← ld parent (child (opp d));
  red ← rb_is_red other;
  other ← (if (red : bool) then
             rb_set_black other;; rb_set_red parent;; rotate d parent root;;
             ld parent (child (opp d))
           else mret other);
  both ← both_black other;
  if (both : bool) then
    rb_set_red other;; p ← rb_parent parent; mret (inl (parent, p))
  else
    or ← ld other (child (opp d)); br ← is_black_or_null or;
    other ← (if (br : bool) then
               ol ← ld other (child d); rb_set_black ol;; rb_set_red other;;
               rotate (opp d) other root;; ld parent (child (opp d))
             else mret other);
    c ← rb_color parent; rb_set_color other c;;
    rb_set_black parent;;
    or ← ld other (child (opp d)); rb_set_black or;;
    rotate d parent root;;
    r ← ld root rb_node; mret (inr r).

Fixpoint erase_loop (fuel : nat) (node parent root : Z) : M Z :=
  match fuel with
  | O => undefined
  | S fuel =>
    b ← is_black_or_null node;
    if negb b then mret node else
    r ← ld root rb_node;
    if node =? r then mret node else
    x ← ld parent rb_left;
    res ← erase_step (if x =? node then L else R) node parent root;
    match res with inl (node, parent) => erase_loop fuel node parent root | inr node => mret node end
  end.

Definition __rb_erase_color (fuel : nat) (node parent root : Z) : M unit :=
  node ← erase_loop fuel node parent root;
  if node =? 0 then mret tt else rb_set_black node.

(** Down the links of one side: [while (n->rb_left) n = n->rb_left]. *)
Fixpoint far (d : dir) (fuel : nat) (n : Z) : M Z :=
  match fuel with
  | O => undefined
  | S fuel => x ← ld n (child d); if x =? 0 then mret n else far d fuel x
  end.

(** The case of [rb_erase] with at most one child: [node] is taken out and
    [child] put in its place. *)
Definition erase_simple (fuel : nat) (node chld root : Z) : M unit :=
  parent ← rb_parent node;
  color ← rb_color node;
  (if chld =? 0 then mret tt else rb_set_parent chld parent);;
  set_link L parent node chld root;;
  if color =? RB_BLACK then __rb_erase_color fuel chld parent root else mret tt.

(** The case with two children: the successor takes the place of [old]. *)
Definition erase_two (fuel : nat) (old root : Z) : M unit :=
  r ← ld old rb_right;
  node ← far L fuel r;
  p ← rb_parent old;
  set_link L p old node root;;
  chld ← ld node rb_right;
  parent ← rb_parent node;
  color ← rb_color node;
  parent ←
    (if parent =? old then mret node
     else
       (if chld =? 0 then mret tt else rb_set_parent chld parent);;
       st parent rb_left chld;;
       r ← ld old rb_right; st node rb_right r;;
       r ← ld old rb_right; rb_set_parent r node;;
       mret parent);
  pc ← ld old rb_parent_color; st node rb_parent_color pc;;
  l ← ld old rb_left; st node rb_left l;;
  l ← ld old rb_left; rb_set_parent l node;;
  if color =? RB_BLACK then __rb_erase_color fuel chld parent root else mret tt.

Definition rb_erase (fuel : nat) (node root : Z) : M unit :=
  l ← ld node rb_left;
  if l =? 0 then r ← ld node rb_right; erase_simple fuel node r root
  else
    r ← ld node rb_right;
    if r =? 0 then l ← ld node rb_left; erase_simple fuel node l root
    else erase_two fuel node root.

(** [rb_first] is [L], [rb_last] is [R]. *)
Definition rb_end (d : dir) (fuel : nat) (root : Z) : M Z :=
  n ← ld root rb_node; if n =? 0 then mret 0 else far d fuel n.
Definition rb_first (fuel : nat) (root : Z) : M Z := rb_end L fuel root.
Definition rb_last (fuel : nat) (root : Z) : M Z := rb_end R fuel root.

(** [while ((parent = rb_parent(node)) && node == parent->rb_right) node = parent]. *)
Fixpoint climb (d : dir) (fuel : nat) (node : Z) : M Z :=
  match fuel with
  | O => undefined
  | S fuel =>
    parent ← rb_parent node;
    if parent =? 0 then mret parent else
    x ← ld parent (child d);
    if node =? x then climb d fuel parent else mret parent
  end.

(** [rb_next] is [R], [rb_prev] is [L]. *)
Definition rb_step (d : dir) (fuel : nat) (node : Z) : M Z :=
  p ← rb_parent node;
  if p =? node then mret 0 else
  x ← ld node (child d);
  if x =? 0 then climb d fuel node
  else x ← ld node (child d); far (opp d) fuel x.
Definition rb_next (fuel : nat) (node : Z) : M Z := rb_step R fuel node.
Definition rb_prev (fuel : nat) (node : Z) : M Z := rb_step L fuel node.

Definition rb_replace_node (victim new root : Z) : M unit :=
  parent ← rb_parent victim;
  set_link L parent victim new root;;
  l ← ld victim rb_left;
  (if l =? 0 then mret tt else l ← ld victim rb_left; rb_set_parent l new);;
  r ← ld victim rb_right;
  (if r =? 0 then mret tt else r ← ld victim rb_right; rb_set_parent r new);;
  pc ← ld victim rb_parent_color; r ← ld victim rb_right; l ← ld victim rb_left;
  st new rb_parent_color pc;; st new rb_right r;; st new rb_left l.

(** [rb_link] is the address of the link to set. *)
Definition rb_link_node (node parent rb_link : Z) : M unit :=
  st node rb_parent_color parent;;
  st node rb_right 0;; st node rb_left 0;;
  st rb_link 0 node.

(** *** The client *)

(** [struct mytype]: the node is its first member, then the [int]. *)
Definition num : Z := 24.

Fixpoint search_loop (fuel : nat) (node n : Z) : M Z :=
  match fuel with
  | O => undefined
  | S fuel =>
    if node =? 0 then mret 0 else
    x ← ld node num;
    if n <? x then y ← ld node rb_left; search_loop fuel y n
    else if x <? n then y ← ld node rb_right; search_loop fuel y n
    else mret node
  end.

Definition my_search (fuel : nat) (root n : Z) : M Z :=
  node ← ld root rb_node; search_loop fuel node n.

(** [tmp] is the address of a link; [None] when the number is found. *)
Fixpoint find_link (fuel : nat) (tmp parent n : Z) : M (option (Z * Z)) :=
  match fuel with
  | O => undefined
  | S fuel =>
    this ← ld tmp 0;
    if this =? 0 then mret (Some (tmp, parent)) else
    x ← ld this num;
    if n <? x then find_link fuel (this + rb_left) this n
    else if x <? n then find_link fuel (this + rb_right) this n
    else mret None
  end.

Definition my_insert (fuel : nat) (root data : Z) : M Z :=
  n ← ld data num;
  link ← find_link fuel (root + rb_node) 0 n;
  match link with
  | None => mret (-1)
  | Some (tmp, parent) =>
    rb_link_node data parent tmp;; rb_insert_color fuel data root;; mret 0
  end.

(** The block handed to [free], 0 when the number is not found. *)
Definition my_delete (fuel : nat) (root n : Z) : M Z :=
  data ← my_search fuel root n;
  if data =? 0 then mret 0 else rb_erase fuel data root;; mret data.

(** The numbers in the order they are printed. *)
Fixpoint print_loop (fuel fuel' : nat) (node : Z) : M (list Z) :=
  match fuel' with
  | O => undefined
  | S fuel' =>
    if node =? 0 then mret [] else
    x ← ld node num; next ← rb_next fuel node; xs ← print_loop fuel fuel' next; mret (x :: xs)
  end.

Definition print_rbtree (fuel : nat) (tree : Z) : M (list Z) :=
  node ← rb_first fuel tree; print_loop fuel fuel node.
