(* ===== verification/RbTrees.v ===== *)
(** * Trees, contexts and the red-black invariant

    The functional trees that the nodes of [Rbtree] represent, a tree with a
    hole as the list of the frames above the hole, the in-order sequence, and
    the invariant: no red node has a red child, and every path has the same
    number of black nodes.  A step of the code's loops goes from one pair of a
    context and a subtree to another; the lemmas here say which pairs are
    related and that the invariant goes with them. *)

From S2P Require Import Prelude Rbtree.

Inductive color := Red | Black.

Inductive tree := E | T (c : color) (l : tree) (p : Z) (r : tree).

#[export] Instance color_eq_dec : EqDecision color.
Proof. solve_decision. Defined.

#[export] Instance dir_eq_dec : EqDecision dir.
Proof. solve_decision. Defined.

Definition ptr (t : tree) : Z := match t with E => 0 | T _ _ p _ => p end.

(** The tree with [x] on the side [d] and [y] on the other. *)
Definition mk (d : dir) (c : color) (x : tree) (p : Z) (y : tree) : tree :=
  match d with L => T c x p y | R => T c y p x end.

Fixpoint inorder (t : tree) : list Z :=
  match t with E => [] | T _ l p r => inorder l ++ p :: inorder r end.

(** The colour of the root; NULL counts as black. *)
Definition root_color (t : tree) : color := match t with E => Black | T c _ _ _ => c end.

Definition blacken (t : tree) : tree := match t with E => E | T _ l p r => T Black l p r end.

(** ** A tree with a hole *)

(** The hole is on the side [fd] of the node [fp]; [fs] is the other subtree. *)
Record frame := F { fd : dir; fc : color; fp : Z; fs : tree }.

Fixpoint zip (k : list frame) (t : tree) : tree :=
  match k with [] => t | F d c p s :: k => zip k (mk d c t p s) end.

(** The node above the hole. *)
Definition above (k : list frame) : Z := match k with [] => 0 | f :: _ => fp f end.

Fixpoint before (k : list frame) : list Z :=
  match k with
  | [] => []
  | F L _ _ _ :: k => before k
  | F R _ p s :: k => before k ++ inorder s ++ [p]
  end.
Fixpoint after (k : list frame) : list Z :=
  match k with
  | [] => []
  | F L _ p s :: k => p :: inorder s ++ after k
  | F R _ _ _ :: k => after k
  end.

Lemma inorder_mk (d : dir) (c : color) (x : tree) (p : Z) (y : tree) :
  inorder (mk d c x p y) =
    match d with L => inorder x ++ p :: inorder y | R => inorder y ++ p :: inorder x end.
Proof. by destruct d. Qed.

Lemma inorder_zip (k : list frame) (t : tree) :
  inorder (zip k t) = before k ++ inorder t ++ after k.
Proof.
  revert t. induction k as [|[d c p s] k IH]; intros t; simpl; [by rewrite app_nil_r|].
  rewrite IH, inorder_mk. destruct d; by rewrite <-!app_assoc.
Qed.

(** The in-order sequence of the whole depends on that of the subtree only. *)
Lemma inorder_zip_eq (k : list frame) (t u : tree) :
  inorder t = inorder u → inorder (zip k t) = inorder (zip k u).
Proof. intros E0. by rewrite !inorder_zip, E0. Qed.

Lemma zip_app (k k' : list frame) (t : tree) : zip (k ++ k') t = zip k' (zip k t).
Proof. revert t. induction k as [|[d c p s] k IH]; intros t; [done|]. apply IH. Qed.

Lemma mk_opp (d : dir) (c : color) (x : tree) (p : Z) (y : tree) :
  mk (opp d) c x p y = mk d c y p x.
Proof. by destruct d. Qed.

Lemma opp_opp (d : dir) : opp (opp d) = d.
Proof. by destruct d. Qed.

Lemma mk_cases (d : dir) (c : color) (l : tree) (p : Z) (r : tree) :
  ∃ x y, T c l p r = mk d c x p y.
Proof. destruct d; [by exists l, r|by exists r, l]. Qed.

Lemma ptr_mk (d : dir) (c : color) (x : tree) (p : Z) (y : tree) : ptr (mk d c x p y) = p.
Proof. by destruct d. Qed.

Lemma blacken_mk (d : dir) (c : color) (x : tree) (p : Z) (y : tree) :
  blacken (mk d c x p y) = mk d Black x p y.
Proof. by destruct d. Qed.

Lemma zip_ne (k : list frame) (t : tree) : t ≠ E → zip k t ≠ E.
Proof.
  revert t. induction k as [|[d c p s] k IH]; intros t Ht; [done|]. apply IH. by destruct d.
Qed.

Lemma inorder_blacken (t : tree) : inorder (blacken t) = inorder t.
Proof. by destruct t. Qed.

(** ** The invariant *)

(** [rb c h t]: below a node of colour [c], with [h] black nodes on each path. *)
Inductive rb : color → nat → tree → Prop :=
  | rb_E c : rb c 0 E
  | rb_Red h l p r : rb Red h l → rb Red h r → rb Black h (T Red l p r)
  | rb_Black c h l p r : rb Black h l → rb Black h r → rb c (S h) (T Black l p r).

(** The context takes a tree that is [rb c h] to a tree with a black root. *)
Inductive ctx_rb : color → nat → list frame → Prop :=
  | ctx_nil h : ctx_rb Red h []
  | ctx_Red h d p s k : rb Red h s → ctx_rb Black h k → ctx_rb Red h (F d Red p s :: k)
  | ctx_Black c h d p s k :
      rb Black h s → ctx_rb c (S h) k → ctx_rb Black h (F d Black p s :: k).

Create HintDb rb.
#[export] Hint Constructors rb ctx_rb : rb.

(** A red-black tree: its root is black. *)
Definition red_black (t : tree) : Prop := ∃ h, rb Red h t.

Lemma rb_weaken (h : nat) (c : color) (t : tree) : rb Red h t → rb c h t.
Proof. inversion 1; destruct c; auto with rb. Qed.
#[export] Hint Resolve rb_weaken : rb.

Lemma rb_red_mk (d : dir) (h : nat) (x : tree) (p : Z) (y : tree) :
  rb Red h x → rb Red h y → rb Black h (mk d Red x p y).
Proof. destruct d; simpl; auto with rb. Qed.

Lemma rb_black_mk (d : dir) (c : color) (h : nat) (x : tree) (p : Z) (y : tree) :
  rb Black h x → rb Black h y → rb c (S h) (mk d Black x p y).
Proof. destruct d; simpl; auto with rb. Qed.
#[export] Hint Resolve rb_red_mk rb_black_mk : rb.

Lemma rb_red_inv (d : dir) (c : color) (h : nat) (x : tree) (p : Z) (y : tree) :
  rb c h (mk d Red x p y) → c = Black ∧ rb Red h x ∧ rb Red h y.
Proof. destruct d; simpl; inversion 1; auto. Qed.

Lemma rb_black_inv (d : dir) (c : color) (h : nat) (x : tree) (p : Z) (y : tree) :
  rb c h (mk d Black x p y) → ∃ h', h = S h' ∧ rb Black h' x ∧ rb Black h' y.
Proof. destruct d; simpl; inversion 1; eauto. Qed.

(** A subtree whose root is not red may hang below a red node. *)
Lemma rb_not_red (c : color) (h : nat) (t : tree) :
  rb c h t → root_color t = Black → rb Red h t.
Proof. inversion 1; simpl; (done || auto with rb). Qed.

Lemma rb_blacken (c : color) (h : nat) (l : tree) (p : Z) (r : tree) :
  rb Black h l → rb Black h r → rb c (S h) (blacken (T Red l p r)).
Proof. simpl. auto with rb. Qed.

Lemma rb_zip (c : color) (h : nat) (k : list frame) (t : tree) :
  ctx_rb c h k → rb c h t → red_black (zip k t).
Proof.
  intros Hk. revert t. induction Hk as [h|h d p s k Hs Hk IH|c h d p s k Hs Hk IH]; intros t Ht.
  - by exists h.
  - apply IH. auto with rb.
  - apply IH. auto with rb.
Qed.

Lemma red_black_root (k : list frame) (t : tree) :
  red_black (zip k t) → zip k t = blacken (zip k t).
Proof. intros [h H]. inversion H; done. Qed.

(** ** Insertion *)

(** The subtree has a red root that may be below a red node. *)
Definition inserting (h : nat) (k : list frame) (t : tree) : Prop :=
  ∃ c l n r, t = T Red l n r ∧ rb Red h l ∧ rb Red h r ∧ ctx_rb c h k.

(** At the root or below a black node the invariant holds, up to the root's colour. *)
Lemma inserting_done (h : nat) (k : list frame) (t : tree) :
  inserting h k t → root_color (T (match k with [] => Black | f :: _ => fc f end) E 0 E) = Black →
  red_black (blacken (zip k t)).
Proof.
  intros (c & l & n & r & -> & Hl & Hr & Hk) Hc. inversion Hk; subst; simpl in *; [|done|].
  - exists (S h). auto with rb.
  - assert (red_black (zip k0 (mk d Black (T Red l n r) p s))) as Hz
      by (eapply rb_zip; [done|auto with rb]).
    by rewrite <-red_black_root.
Qed.

(** Below a red node there is a black one above that. *)
Lemma inserting_above (h : nat) (k : list frame) (d : dir) (p : Z) (s t : tree) :
  inserting h (F d Red p s :: k) t →
  ∃ d2 g u k', k = F d2 Black g u :: k' ∧ rb Red h s ∧ rb Black h u ∧ ∃ c, ctx_rb c (S h) k'.
Proof.
  intros (c & l & n & r & -> & Hl & Hr & Hk). inversion Hk; subst.
  match goal with H : ctx_rb Black _ _ |- _ => inversion H; subst end. eauto 10.
Qed.

(** A red uncle: the colours change and the loop goes on from the grandparent. *)
Lemma inserting_up (h : nat) (k : list frame) (d1 d2 : dir) (p g : Z) (s t ul ur : tree) (u : Z) :
  inserting h (F d1 Red p s :: F d2 Black g (T Red ul u ur) :: k) t →
  inserting (S h) k (mk d2 Red (mk d1 Black t p s) g (T Black ul u ur)).
Proof.
  intros Hi. destruct (inserting_above _ _ _ _ _ _ Hi) as (? & ? & ? & ? & [= <- <- <- <-] & Hs & Hu & c' & Hk).
  destruct Hi as (c & l & n & r & -> & Hl & Hr & _).
  apply (rb_red_inv L) in Hu as (_ & Hul & Hur).
  assert (rb Red (S h) (mk d1 Black (T Red l n r) p s)) by auto with rb.
  assert (rb Red (S h) (T Black ul u ur)) by auto with rb.
  destruct d2; do 4 eexists; split_and!; (done || eauto with rb).
Qed.

(** A black uncle: one or two rotations, and the parent is black. *)
Lemma inserting_outer (h : nat) (k : list frame) (d : dir) (p g : Z) (s t u : tree) :
  inserting h (F d Red p s :: F d Black g u :: k) t → root_color u = Black →
  inserting h (F d Black p (mk d Red s g u) :: k) t.
Proof.
  intros Hi Hb. destruct (inserting_above _ _ _ _ _ _ Hi) as (? & ? & ? & ? & [= <- <- <- <-] & Hs & Hu & c' & Hk).
  destruct Hi as (c & l & n & r & -> & Hl & Hr & _).
  pose proof (rb_not_red _ _ _ Hu Hb).
  exists Black, l, n, r. split_and!; eauto with rb.
Qed.

Lemma inserting_inner (h : nat) (k : list frame) (d : dir) (p g n : Z) (s a b u : tree) :
  inserting h (F (opp d) Red p s :: F d Black g u :: k) (mk d Red a n b) → root_color u = Black →
  inserting h (F d Black n (mk d Red b g u) :: k) (mk d Red s p a).
Proof.
  intros Hi Hb. destruct (inserting_above _ _ _ _ _ _ Hi) as (? & ? & ? & ? & [= <- <- <- <-] & Hs & Hu & c' & Hk).
  destruct Hi as (c & l & n' & r & Ht & Hl & Hr & _).
  pose proof (rb_not_red _ _ _ Hu Hb).
  destruct d; injection Ht as -> -> ->; do 4 eexists; split_and!; eauto with rb.
Qed.

(** ** Erasure *)

(** The paths through the subtree are one black node short, or its root is red
    and blackening it makes up for it. *)
Definition erasing (h : nat) (k : list frame) (t : tree) : Prop :=
  ∃ c, ctx_rb c (S h) k ∧
    (rb Red h t ∨ root_color t = Red ∧ rb c (S h) (blacken t)).

Lemma erasing_red (h : nat) (k : list frame) (t : tree) :
  erasing h k t → root_color t = Red → red_black (zip k (blacken t)).
Proof.
  intros (c & Hk & [Ht|[_ Ht]]) Hr; [by inversion Ht; subst|]. by eapply rb_zip.
Qed.

Lemma erasing_root (h : nat) (t : tree) : erasing h [] t → red_black (blacken t).
Proof.
  intros (c & Hk & [Ht|[_ Ht]]).
  - exists h. inversion Ht; subst; simpl; auto with rb.
  - exists (S h). inversion Hk; subst. done.
Qed.

(** Below a parent the missing black node gives the sibling one. *)
Lemma erasing_sibling (h : nat) (k : list frame) (d : dir) (c : color) (p : Z) (s t : tree) :
  erasing h (F d c p s :: k) t → root_color t = Black →
  rb Red h t ∧ rb c (S h) s ∧ s ≠ E ∧
    match c with Red => ctx_rb Black (S h) k | Black => ∃ c', ctx_rb c' (S (S h)) k end.
Proof.
  intros (c' & Hk & [Ht|[Hr _]]) Hb; [|by rewrite Hb in Hr].
  inversion Hk; subst; split_and!; eauto; intros ->;
    match goal with H : rb _ _ E |- _ => inversion H end.
Qed.

(** A red sibling: rotated above the parent, which becomes red. *)
Lemma erasing_rotate (h : nat) (k : list frame) (d : dir) (p q : Z) (t s1 s2 : tree) (c : color) :
  erasing h (F d c p (mk d Red s1 q s2) :: k) t → root_color t = Black →
  c = Black ∧ erasing h (F d Red p s1 :: F d Black q s2 :: k) t ∧ root_color s1 = Black ∧
  zip (F d Red p s1 :: F d Black q s2 :: k) t = zip k (mk d Black (mk d Red t p s1) q s2).
Proof.
  intros He Hb. destruct (erasing_sibling _ _ _ _ _ _ _ He Hb) as (Ht & Hs & _ & Hk).
  apply rb_red_inv in Hs as (-> & H1 & H2). destruct Hk as [c' Hk].
  split_and!; [done| |by inversion H1|done].
  exists Red. split; [|by left]. eauto with rb.
Qed.

(** A black sibling without red child becomes red; the loop goes on from the parent. *)
Lemma erasing_up (h : nat) (k : list frame) (d : dir) (p q : Z) (t s1 s2 : tree) (c : color) :
  erasing h (F d c p (mk d Black s1 q s2) :: k) t → root_color t = Black →
  root_color s1 = Black → root_color s2 = Black →
  ∃ h', erasing h' k (mk d c t p (mk d Red s1 q s2)).
Proof.
  intros He Hb B1 B2. destruct (erasing_sibling _ _ _ _ _ _ _ He Hb) as (Ht & Hs & _ & Hk).
  apply rb_black_inv in Hs as (h' & [= <-] & H1 & H2).
  pose proof (rb_not_red _ _ _ H1 B1). pose proof (rb_not_red _ _ _ H2 B2).
  destruct c.
  - exists h, Black. split; [done|]. right. rewrite blacken_mk. destruct d; auto with rb.
  - exists (S h). destruct Hk as [c' Hk]. exists c'. split; [done|]. left. auto with rb.
Qed.

(** A black sibling with a red child: rotations restore the missing black node. *)
Lemma erasing_outer (h : nat) (k : list frame) (d : dir) (p q m : Z) (t s1 x y : tree) (c : color) :
  erasing h (F d c p (mk d Black s1 q (mk d Red x m y)) :: k) t → root_color t = Black →
  red_black (zip k (mk d c (mk d Black t p s1) q (mk d Black x m y))).
Proof.
  intros He Hb. destruct (erasing_sibling _ _ _ _ _ _ _ He Hb) as (Ht & Hs & _ & Hk).
  apply rb_black_inv in Hs as (h' & [= <-] & H1 & H2). apply rb_red_inv in H2 as (_ & Hx & Hy).
  assert (∀ c', rb c' (S h) (mk d Black t p s1)) by auto with rb.
  assert (∀ c', rb c' (S h) (mk d Black x m y)) by auto with rb.
  destruct c; [|destruct Hk as [c' Hk]]; eapply rb_zip; eauto with rb.
Qed.

Lemma erasing_inner (h : nat) (k : list frame) (d : dir) (p q m : Z) (t a b s2 : tree) (c : color) :
  erasing h (F d c p (mk d Black (mk d Red a m b) q s2) :: k) t → root_color t = Black →
  root_color s2 = Black → erasing h (F d c p (mk d Black a m (mk d Red b q s2)) :: k) t.
Proof.
  intros He Hb B2. destruct (erasing_sibling _ _ _ _ _ _ _ He Hb) as (Ht & Hs & _ & Hk).
  apply rb_black_inv in Hs as (h' & [= <-] & H1 & H2). apply rb_red_inv in H1 as (_ & Ha & Hm).
  pose proof (rb_not_red _ _ _ H2 B2).
  destruct He as (c' & Hc & _). exists c'. split; [|by left].
  inversion Hc; subst; econstructor; eauto with rb.
Qed.

(** The invariant of the whole is one of the context and one of the subtree. *)
Lemma rb_unzip (k : list frame) (t : tree) :
  red_black (zip k t) → ∃ c h, ctx_rb c h k ∧ rb c h t.
Proof.
  revert t. induction k as [|[d c p s] k IH]; intros t H.
  - destruct H as [h H]. exists Red, h. auto with rb.
  - destruct (IH _ H) as (c' & h & Hk & Ht). destruct c.
    + apply rb_red_inv in Ht as (-> & ? & ?). eauto with rb.
    + apply rb_black_inv in Ht as (h' & -> & ? & ?). eauto with rb.
Qed.

(** A node with one child, taken out. *)
Lemma erasing_start (c : color) (h : nat) (k : list frame) (t : tree) :
  ctx_rb c (S h) k → rb Black h t → erasing h k t.
Proof.
  intros Hk Ht. exists c. split; [done|]. destruct (root_color t) eqn:E.
  - right. split; [done|]. destruct t as [|[] l p r]; [done| |done]. apply (rb_red_inv L) in Ht as (_ & ? & ?).
    apply rb_blacken; auto with rb.
  - left. by eapply rb_not_red.
Qed.

Lemma erase_child (d : dir) (c : color) (k : list frame) (x : tree) (p : Z) (y : tree) :
  red_black (zip k (mk d c x p y)) →
  match c with Red => red_black (zip k x) | Black => ∃ h, erasing h k x end.
Proof.
  intros (c' & h & Hk & Ht)%rb_unzip. destruct c.
  - apply rb_red_inv in Ht as (-> & ? & ?). eapply rb_zip; eauto with rb.
  - apply rb_black_inv in Ht as (h' & -> & ? & ?). exists h'. by eapply erasing_start.
Qed.

(** The invariant does not depend on which nodes the tree consists of. *)
Lemma ctx_rb_replace (c e : color) (h : nat) (d : dir) (p q : Z) (s : tree) (k k' : list frame) :
  ctx_rb c h (k' ++ F d e p s :: k) → ctx_rb c h (k' ++ F d e q s :: k).
Proof.
  revert c h. induction k' as [|[d' c' p' s'] k' IH]; intros c h H; simpl in *;
    inversion H; subst; eauto with rb.
Qed.

Lemma red_black_replace (e : color) (d : dir) (p q : Z) (s t : tree) (k k' : list frame) :
  red_black (zip (k' ++ F d e p s :: k) t) → red_black (zip (k' ++ F d e q s :: k) t).
Proof. intros (c & h & Hk & Ht)%rb_unzip. eapply rb_zip; [by eapply ctx_rb_replace|done]. Qed.

(** ** The ends of a tree, and its height *)

(** The node at the end of the links of one side. *)
Fixpoint tip (d : dir) (t : tree) : Z :=
  match t with
  | E => 0
  | T _ l p r =>
    match d with
    | L => match l with E => p | _ => tip d l end
    | R => match r with E => p | _ => tip d r end
    end
  end.

Lemma tip_mk (d : dir) (c : color) (x : tree) (p : Z) (y : tree) :
  tip d (mk d c x p y) = match x with E => p | _ => tip d x end.
Proof. by destruct d. Qed.

(** All frames have the hole on the side [d]. *)
Definition spine (d : dir) (k : list frame) : Prop := Forall (λ f, fd f = d) k.

Lemma tip_split (d : dir) (t : tree) : t ≠ E →
  ∃ k c x, spine d k ∧ t = zip k (mk d c E (tip d t) x).
Proof.
  assert (∀ (P : tree → Prop), P E → (∀ c x p y, P x → P (mk d c x p y)) → ∀ t, P t) as ind.
  { intros P PE PT u. induction u as [|c l IHl p r IHr]; [done|].
    destruct d; [by apply (PT c l p r)|by apply (PT c r p l)]. }
  revert t. refine (ind _ _ _); [done|]. intros c x p y IH _. rewrite tip_mk.
  destruct x as [|cx xl q xr]; [exists [], c, y; split; [constructor|done]|].
  destruct IH as (k & e & z & Hk & Ez); [done|]. exists (k ++ [F d c p y]), e, z. split.
  - apply Forall_app_2; [done|]. by apply Forall_singleton.
  - rewrite zip_app, <-Ez. done.
Qed.

Lemma before_app (k k' : list frame) : before (k ++ k') = before k' ++ before k.
Proof.
  induction k as [|[d c p s] k IH]; simpl; [by rewrite app_nil_r|].
  destruct d; rewrite IH; [done|]. by rewrite <-app_assoc.
Qed.

Lemma after_app (k k' : list frame) : after (k ++ k') = after k ++ after k'.
Proof.
  induction k as [|[d c p s] k IH]; simpl; [done|].
  destruct d; rewrite IH; [|done]. simpl. by rewrite <-app_assoc.
Qed.

Lemma before_spine (k : list frame) : spine L k → before k = [].
Proof. induction 1 as [|[d c p s] k E]; [done|]. simpl in *. by subst d. Qed.
Lemma after_spine (k : list frame) : spine R k → after k = [].
Proof. induction 1 as [|[d c p s] k E]; [done|]. simpl in *. by subst d. Qed.

(** Any node of the sequence is one of the tree. *)
Lemma unzip_at (t : tree) (xs ys : list Z) (n : Z) :
  inorder t = xs ++ n :: ys →
  ∃ k c l r, t = zip k (T c l n r) ∧ xs = before k ++ inorder l ∧ ys = inorder r ++ after k.
Proof.
  revert xs ys. induction t as [|c l IHl p r IHr]; intros xs ys E; simpl in E; [by destruct xs|].
  apply app_eq_inv in E as [(zs & E1 & E2)|(zs & E1 & E2)].
  - destruct zs as [|z zs]; simpl in E2; injection E2 as -> ->.
    + exists [], c, l, r. simpl. rewrite E1, !app_nil_r. done.
    + destruct (IHl xs zs) as (k & c' & l' & r' & -> & -> & ->); [done|].
      exists (k ++ [F L c p r]), c', l', r'. rewrite zip_app, before_app, after_app. simpl.
      by rewrite app_nil_r, <-app_assoc.
  - destruct zs as [|z zs]; simpl in E2; injection E2 as -> E2.
    + exists [], c, l, r. simpl. rewrite E1, E2, !app_nil_r. done.
    + destruct (IHr zs ys) as (k & c' & l' & r' & -> & -> & ->); [done|].
      exists (k ++ [F R c z l]), c', l', r'. rewrite E1, zip_app, before_app, after_app. simpl.
      by rewrite app_nil_r, <-!app_assoc.
Qed.

(** The ends of the sequence. *)
Definition first (d : dir) (xs : list Z) : Z :=
  default 0 (match d with L => head xs | R => last xs end).

Lemma first_app (d : dir) (xs ys : list Z) :
  first d (xs ++ ys) = match d with L => if decide (xs = []) then first L ys else first L xs
                       | R => if decide (ys = []) then first R xs else first R ys end.
Proof.
  unfold first. destruct d.
  - by destruct xs.
  - destruct ys as [|y ys] using rev_ind; [by rewrite app_nil_r|].
    rewrite app_assoc, !last_snoc. clear IHys. rewrite decide_False; [done|]. by destruct ys.
Qed.

Lemma tip_first (d : dir) (t : tree) : tip d t = first d (inorder t).
Proof.
  induction t as [|c l IHl p r IHr]; [by destruct d|]. simpl. destruct d.
  - rewrite first_app. destruct l as [|cl ll q lr]; [done|]. rewrite IHl, decide_False; [done|].
    simpl. intros H. by destruct (inorder ll).
  - rewrite first_app, decide_False by done. change (p :: inorder r) with ([p] ++ inorder r). rewrite (first_app R [p]).
    destruct r as [|cl ll q lr]; [done|]. rewrite IHr, decide_False; [done|].
    simpl. intros H. by destruct (inorder ll).
Qed.

(** The nearest node above the hole that is on the other side. *)
Fixpoint up (d : dir) (k : list frame) : Z :=
  match k with
  | [] => 0
  | F d' _ p _ :: k => if decide (d' = d) then up d k else p
  end.

Lemma up_first (d : dir) (k : list frame) :
  up d k = match d with R => first L (after k) | L => first R (before k) end.
Proof.
  induction k as [|[d' c p s] k IH]; [by destruct d|]. simpl.
  destruct d, d'; simpl; try done.
  unfold first. by rewrite app_assoc, last_snoc.
Qed.

Fixpoint height (t : tree) : nat :=
  match t with E => 0 | T _ l _ r => S (height l `max` height r) end.

Lemma height_mk (d : dir) (c : color) (x : tree) (p : Z) (y : tree) :
  height (mk d c x p y) = S (height x `max` height y).
Proof. destruct d; simpl; [done|]. by rewrite Nat.max_comm. Qed.

Lemma height_zip (k : list frame) (t : tree) : (length k + height t ≤ height (zip k t))%nat.
Proof.
  revert t. induction k as [|[d c p s] k IH]; intros t; simpl; [done|].
  specialize (IH (mk d c t p s)). rewrite height_mk in IH. lia.
Qed.

(** The height is logarithmic in the number of nodes. *)
Lemma rb_size (c : color) (h : nat) (t : tree) : rb c h t → (2 ^ h ≤ S (length (inorder t)))%nat.
Proof.
  induction 1 as [|h l p r _ IHl _ IHr|c h l p r _ IHl _ IHr]; simpl;
    rewrite ?length_app; simpl in *; lia.
Qed.

Lemma rb_height (c : color) (h : nat) (t : tree) :
  rb c h t → (height t ≤ 2 * h + match c with Red => 0 | Black => 1 end)%nat.
Proof.
  induction 1 as [|h l p r _ IHl _ IHr|c h l p r _ IHl _ IHr]; simpl; (destruct c || idtac); lia.
Qed.

Lemma red_black_height (t : tree) :
  red_black t → (height t ≤ 2 * Nat.log2 (S (length (inorder t))))%nat.
Proof.
  intros [h H]. pose proof (rb_size _ _ _ H) as Hs. apply rb_height in H.
  apply Nat.log2_le_mono in Hs. rewrite Nat.log2_pow2 in Hs by lia. lia.
Qed.

(** Rotated and recoloured trees have the same sequence. *)
Ltac same_order :=
  repeat match goal with d : dir |- _ => destruct d end;
  cbn [zip mk opp]; apply inorder_zip_eq; cbn [inorder];
  repeat (rewrite <-app_assoc || rewrite <-app_comm_cons); done.
