(* ===== verification/RbMem.v ===== *)
(** * The red-black tree in memory

    The nodes of a functional tree and of a context as Iris assertions on the
    words of [Rbtree]'s nodes, the arithmetic of the word that holds the parent
    and the colour, and the specifications of the macros, of the change of a
    link and of the rotation.  The tactics [wp_op] and [wp_step] run the code
    one operation at a time. *)

From iris.proofmode Require Import proofmode environments.
From S2P Require Import Prelude WordMem Rbtree RbTrees.

(** ** The word with the parent and the colour *)

Definition cval (c : color) : Z := match c with Red => RB_RED | Black => RB_BLACK end.

(** A pointer to a node: not NULL, aligned. *)
Definition valid (p : Z) : Prop := 0 < p < 2 ^ 64 ∧ p mod 4 = 0.
(** A parent: a node or NULL. *)
Definition aligned (p : Z) : Prop := 0 ≤ p < 2 ^ 64 ∧ p mod 4 = 0.

Lemma valid_aligned (p : Z) : valid p → aligned p.
Proof. unfold valid, aligned. lia. Qed.

Lemma aligned_0 : aligned 0.
Proof. done. Qed.

Lemma valid_ne (p : Z) : valid p → p ≠ 0.
Proof. unfold valid. lia. Qed.
#[export] Hint Resolve valid_aligned aligned_0 valid_ne : core.

(** The low bits of a word and the rest. *)
Lemma land_not_ones (n x : Z) : 0 ≤ n ≤ 64 → 0 ≤ x < 2 ^ 64 →
  Z.land x (u64 (Z.lnot (Z.ones n))) = x - x mod 2 ^ n.
Proof.
  intros Hn Hx.
  assert (Z.land x (u64 (Z.lnot (Z.ones n))) = Z.ldiff x (Z.ones n)) as ->.
  { apply Z.bits_inj'. intros i Hi. unfold u64.
    rw Z.land_spec Z.ldiff_spec wrap_testbit; [|lia]. rw Z.lnot_spec; [|lia].
    case_bool_decide; [done|]. by rw (testbit_high 64 x i); [|lia..]. }
  rw Z.ldiff_ones_r; [|lia]. rw Z.shiftr_div_pow2 ?Z.shiftl_mul_pow2; [|lia..].
  pose proof (Z.div_mod x (2 ^ n)). pose proof (pow2_pos n). lia.
Qed.

Lemma lor_low (n p c : Z) : 0 ≤ n → p mod 2 ^ n = 0 → 0 ≤ c < 2 ^ n → Z.lor c p = p + c.
Proof.
  intros Hn Hp Hc. assert (Z.land c p = 0) as H0.
  { apply Z.bits_inj'. intros i Hi. rw Z.land_spec Z.bits_0. destruct (decide (i < n)).
    - rw -(Z.mod_pow2_bits_low p n i); [|done]. by rw Hp Z.bits_0 andb_false_r.
    - by rw (testbit_high n c i); [|lia..]. }
  rw Z.add_comm Z.add_nocarry_lxor; [|done]. symmetry. by apply Z.lxor_lor.
Qed.

Ltac pc_arith c := destruct c; unfold cval, RB_RED, RB_BLACK; Z.to_euclidean_division_equations; lia.

Section pc.
Context (p : Z) (c : color) (Hp : aligned p).

Lemma pc_parent : Z.land (p + cval c) (u64 (Z.lnot 3)) = p.
Proof using Hp.
  destruct Hp as [Hr Hm]. change 3 with (Z.ones 2). rw land_not_ones; [|done|].
  - change (2 ^ 2) with 4. pc_arith c.
  - change (2 ^ 64) with 18446744073709551616 in *.
    pc_arith c.
Qed.

Lemma pc_color : Z.land (p + cval c) 1 = cval c.
Proof using Hp.
  destruct Hp as [Hr Hm]. change 1 with (Z.ones 1) at 1. rw Z.land_ones; [|done].
  change (2 ^ 1) with 2. pc_arith c.
Qed.

Lemma pc_low : Z.land (p + cval c) 3 = cval c.
Proof using Hp.
  destruct Hp as [Hr Hm]. change 3 with (Z.ones 2). rw Z.land_ones; [|done].
  change (2 ^ 2) with 4. pc_arith c.
Qed.

Lemma pc_red : Z.land (p + cval c) (u64 (Z.lnot 1)) = p + cval Red.
Proof using Hp.
  destruct Hp as [Hr Hm]. change 1 with (Z.ones 1). rw land_not_ones; [|done|].
  - change (2 ^ 1) with 2. pc_arith c.
  - change (2 ^ 64) with 18446744073709551616 in *.
    pc_arith c.
Qed.

Lemma pc_black : Z.lor (p + cval c) 1 = p + cval Black.
Proof using Hp.
  destruct Hp as [Hr Hm]. destruct c; unfold cval, RB_RED, RB_BLACK.
  - rw Z.add_0_r Z.lor_comm (lor_low 1); [done|done| |done].
    change (2 ^ 1) with 2. Z.to_euclidean_division_equations; lia.
  - rw -(lor_low 1 p 1); [|done| |done].
    + by rw (Z.lor_comm (Z.lor 1 p)) Z.lor_assoc Z.lor_diag.
    + change (2 ^ 1) with 2. Z.to_euclidean_division_equations; lia.
Qed.

Lemma pc_set_parent (q : Z) : aligned q → Z.lor (Z.land (p + cval c) 3) q = q + cval c.
Proof using Hp.
  intros [Hr Hm]. rw pc_low. apply (lor_low 2); [done|done|]. by destruct c.
Qed.

Lemma pc_set_color (c' : color) : Z.lor (p + cval Red) (cval c') = p + cval c'.
Proof using Hp.
  destruct c'; unfold cval, RB_RED, RB_BLACK; [by rw Z.lor_0_r|].
  destruct Hp as [Hr Hm]. rw Z.add_0_r Z.lor_comm (lor_low 1); [done|done| |done].
  change (2 ^ 1) with 2. Z.to_euclidean_division_equations; lia.
Qed.
End pc.

(** ** Predicates *)

Section proofs.

(** The parent and colour of the node [p]. *)
Definition hdr (p : Z) (c : color) (par : Z) : hprop :=
  ⌜valid p ∧ aligned par⌝ ∗ fld p rb_parent_color (par + cval c).

(** The node [p] with the link [x] on the side [d] and [y] on the other. *)
Definition node (d : dir) (p : Z) (c : color) (par x y : Z) : hprop :=
  hdr p c par ∗ fld p (child d) x ∗ fld p (child (opp d)) y.

Fixpoint is_tree (par : Z) (t : tree) : hprop :=
  match t with
  | E => emp
  | T c l p r => node L p c par (ptr l) (ptr r) ∗ is_tree p l ∗ is_tree p r
  end.

#[export] Instance is_tree_E_affine (par : Z) : Affine (is_tree par E).
Proof. apply bi.emp_affine. Qed.

(** The context, from the link that points to the subtree up to the root. *)
Fixpoint is_ctx (root : Z) (k : list frame) (h : Z) : hprop :=
  match k with
  | [] => ⌜root ≠ 0⌝ ∗ fld root rb_node h
  | F d c p s :: k => node d p c (above k) h (ptr s) ∗ is_tree p s ∗ is_ctx root k p
  end.

Lemma node_opp (d : dir) (p : Z) (c : color) (par x y : Z) :
  node (opp d) p c par x y ⊣⊢ node d p c par y x.
Proof.
  rw /node opp_opp. iSplit; iIntros "($ & $ & $)".
Qed.

Lemma is_tree_mk (d : dir) (par : Z) (c : color) (x : tree) (p : Z) (y : tree) :
  is_tree par (mk d c x p y) ⊣⊢ node d p c par (ptr x) (ptr y) ∗ is_tree p x ∗ is_tree p y.
Proof.
  destruct d; simpl; [done|]. rw (node_opp L).
  iSplit; iIntros "($ & $ & $)".
Qed.

Lemma node_valid (d : dir) (p : Z) (c : color) (par x y : Z) :
  node d p c par x y -∗ ⌈valid p ∧ aligned par⌉.
Proof. by iIntros "((% & _) & _)". Qed.

Lemma hdr_valid (p : Z) (c : color) (par : Z) : hdr p c par -∗ ⌈valid p ∧ aligned par⌉.
Proof. by iIntros "(% & _)". Qed.

Lemma hdr_ne (p q : Z) (c e : color) (a b : Z) : hdr p c a -∗ hdr q e b -∗ ⌈p ≠ q⌉.
Proof.
  iIntros "[_ Hp] [_ Hq]". iApply (fld_ne with "Hp Hq").
Qed.

(** The root of a subtree is not a node owned apart from it. *)
Lemma is_tree_ptr_ne (par : Z) (t : tree) (q : Z) (e : color) (b : Z) :
  is_tree par t -∗ hdr q e b -∗ ⌈ptr t ≠ q⌉.
Proof.
  iIntros "Ht Hq". destruct t as [|c l p r]; simpl.
  - iDestruct "Hq" as "[[%Hq _] _]". iPureIntro. apply valid_ne in Hq. auto.
  - iDestruct "Ht" as "((Hp & _) & _)". iApply (hdr_ne with "Hp Hq").
Qed.

Lemma is_tree_ptr (par : Z) (t : tree) : is_tree par t -∗ ⌈t = E ∧ ptr t = 0 ∨ ptr t ≠ 0 ∧ valid (ptr t)⌉.
Proof.
  destruct t as [|c l p r]; simpl; [by iIntros "_"; iLeft|].
  iIntros "(((%H & _) & _) & _)". iPureIntro. destruct H as [H _]. auto.
Qed.

Lemma is_ctx_above (root : Z) (k : list frame) (h : Z) : is_ctx root k h -∗ ⌈aligned (above k)⌉.
Proof.
  destruct k as [|[d c p s] k]; simpl; [by iIntros "_"|].
  iIntros "(((%H & _) & _) & _)". iPureIntro. destruct H as [H _]. auto.
Qed.

(** Plugging the hole. *)
Lemma is_ctx_zip (root : Z) (k : list frame) (t : tree) :
  is_ctx root k (ptr t) ∗ is_tree (above k) t ⊣⊢
  is_ctx root [] (ptr (zip k t)) ∗ is_tree 0 (zip k t).
Proof.
  revert t. induction k as [|[d c p s] k IH]; intros t; [done|].
  simpl zip. rw -IH is_tree_mk ptr_mk. simpl. iSplit.
  - iIntros "[($ & $ & $) $]".
  - iIntros "($ & $ & $ & $)".
Qed.

(** ** The macros *)

Lemma wp_parent (p : Z) (c : color) (par : Z) (Φ : Z → hprop) :
  hdr p c par -∗ (hdr p c par -∗ Φ par) -∗ wp (rb_parent p) Φ.
Proof.
  iIntros "[%H Hp] HΦ". destruct H as [Hv Ha]. iApply wp_bind. iApply (wp_ld with "Hp"); [auto|].
  iIntros "Hp". iApply wp_ret. rw pc_parent; [|done]. iApply "HΦ". by iFrame.
Qed.

Lemma wp_color (p : Z) (c : color) (par : Z) (Φ : Z → hprop) :
  hdr p c par -∗ (hdr p c par -∗ Φ (cval c)) -∗ wp (rb_color p) Φ.
Proof.
  iIntros "[%H Hp] HΦ". destruct H as [Hv Ha]. iApply wp_bind. iApply (wp_ld with "Hp"); [auto|].
  iIntros "Hp". iApply wp_ret. rw pc_color; [|done]. iApply "HΦ". by iFrame.
Qed.

Lemma wp_is_red (p : Z) (c : color) (par : Z) (Φ : bool → hprop) :
  hdr p c par -∗ (hdr p c par -∗ Φ (bool_decide (c = Red))) -∗ wp (rb_is_red p) Φ.
Proof.
  iIntros "Hp HΦ". iApply wp_bind. iApply (wp_color with "Hp"). iIntros "Hp". iApply wp_ret.
  iSpecialize ("HΦ" with "Hp"). by destruct c.
Qed.

Lemma wp_is_black (p : Z) (c : color) (par : Z) (Φ : bool → hprop) :
  hdr p c par -∗ (hdr p c par -∗ Φ (bool_decide (c = Black))) -∗ wp (rb_is_black p) Φ.
Proof.
  iIntros "Hp HΦ". iApply wp_bind. iApply (wp_color with "Hp"). iIntros "Hp". iApply wp_ret.
  iSpecialize ("HΦ" with "Hp"). by destruct c.
Qed.

(** A write of the parent word. *)
Lemma wp_update (p : Z) (c c' : color) (par par' : Z) (f : Z → Z) (Φ : unit → hprop) :
  aligned par' → (aligned par → f (par + cval c) = par' + cval c') →
  hdr p c par -∗ (hdr p c' par' -∗ Φ tt) -∗
  wp (pc ← ld p rb_parent_color; st p rb_parent_color (f pc)) Φ.
Proof.
  iIntros (Ha' Hf) "[%H Hp] HΦ". destruct H as [Hv Ha]. iApply wp_bind.
  iApply (wp_ld with "Hp"); [auto|]. iIntros "Hp". rw Hf; [|done].
  iApply (wp_st with "Hp"); [auto|]. iIntros "Hp". iApply "HΦ". by iFrame.
Qed.

Lemma wp_set_red (p : Z) (c : color) (par : Z) (Φ : unit → hprop) :
  hdr p c par -∗ (hdr p Red par -∗ Φ tt) -∗ wp (rb_set_red p) Φ.
Proof.
  iIntros "Hp". iFact (aligned par) as Ha; [by iDestruct "Hp" as "[[_ %] _]"|].
  iApply (wp_update with "Hp"); [done|]. intros. by apply pc_red.
Qed.

Lemma wp_set_black (p : Z) (c : color) (par : Z) (Φ : unit → hprop) :
  hdr p c par -∗ (hdr p Black par -∗ Φ tt) -∗ wp (rb_set_black p) Φ.
Proof.
  iIntros "Hp". iFact (aligned par) as Ha; [by iDestruct "Hp" as "[[_ %] _]"|].
  iApply (wp_update with "Hp"); [done|]. intros. by apply pc_black.
Qed.

Lemma wp_set_parent (p : Z) (c : color) (par q : Z) (Φ : unit → hprop) :
  aligned q → hdr p c par -∗ (hdr p c q -∗ Φ tt) -∗ wp (rb_set_parent p q) Φ.
Proof. iIntros (Hq) "Hp". iApply (wp_update with "Hp"); [done|]. intros. by apply pc_set_parent. Qed.

Lemma wp_set_color (p : Z) (c c' : color) (par : Z) (Φ : unit → hprop) :
  hdr p c par -∗ (hdr p c' par -∗ Φ tt) -∗ wp (rb_set_color p (cval c')) Φ.
Proof.
  iIntros "Hp". iFact (aligned par) as Ha; [by iDestruct "Hp" as "[[_ %] _]"|].
  iApply (wp_update with "Hp"); [done|]. intros. by rw pc_red ?pc_set_color.
Qed.

(** The header of the root of a subtree. *)
Lemma is_tree_open (par : Z) (t : tree) : t ≠ E →
  is_tree par t -∗ ∃ c l p r, ⌜t = T c l p r⌝ ∗ hdr p c par ∗
    (∀ c' par', hdr p c' par' -∗ is_tree par' (T c' l p r)).
Proof.
  iIntros (Ht) "Ht". destruct t as [|c l p r]; [done|].
  iDestruct "Ht" as "((Hp & Hl & Hr) & Htl & Htr)". iExists c, l, p, r. iSplit; [done|].
  iFrame "Hp". iIntros (c' par') "Hp". simpl. iFrame.
Qed.

(** A subtree gets another parent. *)
Lemma wp_reparent (t : tree) (par q : Z) (Φ : unit → hprop) :
  t ≠ E → aligned q →
  is_tree par t -∗ (is_tree q t -∗ Φ tt) -∗ wp (rb_set_parent (ptr t) q) Φ.
Proof.
  iIntros (Ht Hq) "Ht HΦ". iDestruct (is_tree_open with "Ht") as (c l p r ->) "[Hp Ht]"; [done|].
  iApply (wp_set_parent with "Hp"); [done|]. iIntros "Hp". iApply "HΦ". by iApply "Ht".
Qed.

(** [if (t) rb_set_parent(t, q)], with and without a second load of the link. *)
Lemma wp_adopt (t : tree) (par q : Z) (Φ : unit → hprop) :
  aligned q → is_tree par t -∗ (is_tree q t -∗ Φ tt) -∗
  wp (if ptr t =? 0 then mret tt else rb_set_parent (ptr t) q) Φ.
Proof.
  iIntros (Hq) "Ht HΦ". iPure (is_tree_ptr with "Ht") as [[-> ->]|[Hne _]].
  - iApply wp_ret. by iApply "HΦ".
  - rw (proj2 (Z.eqb_neq _ _) Hne). iApply (wp_reparent with "Ht"); [by intros ->|done|done].
Qed.

Lemma wp_adopt_ld (t : tree) (par q a o : Z) (Φ : unit → hprop) :
  aligned q → a ≠ 0 → is_tree par t -∗ fld a o (ptr t) -∗
  (is_tree q t -∗ fld a o (ptr t) -∗ Φ tt) -∗
  wp (if ptr t =? 0 then mret tt else x ← ld a o; rb_set_parent x q) Φ.
Proof.
  iIntros (Hq Ha) "Ht Hl HΦ". iPure (is_tree_ptr with "Ht") as [[-> ->]|[Hne _]].
  - iApply wp_ret. by iApply ("HΦ" with "[]").
  - rw (proj2 (Z.eqb_neq _ _) Hne). iApply wp_bind. iApply (wp_ld with "Hl"); [done|].
    iIntros "Hl". iApply (wp_reparent with "Ht"); [by intros ->|done|].
    iIntros "Ht". iApply ("HΦ" with "Ht Hl").
Qed.

Lemma wp_parent_tree (t : tree) (par : Z) (Φ : Z → hprop) :
  t ≠ E → is_tree par t -∗ (is_tree par t -∗ Φ par) -∗ wp (rb_parent (ptr t)) Φ.
Proof.
  iIntros (Ht) "Ht HΦ". iDestruct (is_tree_open with "Ht") as (c l p r ->) "[Hp Ht]"; [done|].
  iApply (wp_parent with "Hp"). iIntros "Hp". iApply "HΦ". by iApply "Ht".
Qed.

Lemma wp_is_red_node (t : tree) (par : Z) (Φ : bool → hprop) :
  is_tree par t -∗ (is_tree par t -∗ Φ (bool_decide (root_color t = Red))) -∗
  wp (is_red_node (ptr t)) Φ.
Proof.
  iIntros "Ht HΦ". rw /is_red_node. iPure (is_tree_ptr with "Ht") as [[-> ->]|[Hne _]].
  - iApply wp_ret. by iApply "HΦ".
  - rw (proj2 (Z.eqb_neq _ _) Hne).
    iDestruct (is_tree_open with "Ht") as (c l p r ->) "[Hp Ht]"; [by intros ->|].
    iApply (wp_is_red with "Hp"). iIntros "Hp". iApply "HΦ". by iApply "Ht".
Qed.

Lemma wp_is_black_or_null (t : tree) (par : Z) (Φ : bool → hprop) :
  is_tree par t -∗ (is_tree par t -∗ Φ (bool_decide (root_color t = Black))) -∗
  wp (is_black_or_null (ptr t)) Φ.
Proof.
  iIntros "Ht HΦ". rw /is_black_or_null. iPure (is_tree_ptr with "Ht") as [[-> ->]|[Hne _]].
  - iApply wp_ret. by iApply "HΦ".
  - rw (proj2 (Z.eqb_neq _ _) Hne).
    iDestruct (is_tree_open with "Ht") as (c l p r ->) "[Hp Ht]"; [by intros ->|].
    iApply (wp_is_black with "Hp"). iIntros "Hp". iApply "HΦ". by iApply "Ht".
Qed.

Lemma wp_set_black_tree (t : tree) (par : Z) (Φ : unit → hprop) :
  t ≠ E → is_tree par t -∗ (is_tree par (blacken t) -∗ Φ tt) -∗ wp (rb_set_black (ptr t)) Φ.
Proof.
  iIntros (Ht) "Ht HΦ". iDestruct (is_tree_open with "Ht") as (c l p r ->) "[Hp Ht]"; [done|].
  iApply (wp_set_black with "Hp"). iIntros "Hp". iApply "HΦ". by iApply "Ht".
Qed.

(** The link to a node is set to another, wherever it is. *)
Lemma wp_set_link (d : dir) (root : Z) (k : list frame) (old new : Z) (e : color) (b : Z)
    (Φ : unit → hprop) :
  is_ctx root k old -∗ hdr old e b -∗ (is_ctx root k new -∗ hdr old e b -∗ Φ tt) -∗
  wp (set_link d (above k) old new root) Φ.
Proof.
  iIntros "Hk Ho HΦ". rw /set_link. destruct k as [|[d' c p s] k]; simpl.
  - iDestruct "Hk" as "[%Hr Hk]". iApply (wp_st with "Hk"); [done|]. iIntros "Hk".
    iApply ("HΦ" with "[Hk] Ho"). by iFrame.
  - iDestruct "Hk" as "(Hn & Hs & Hk)". iPure (node_valid with "Hn") as [Hp _].
    rw (proj2 (Z.eqb_neq _ _) (valid_ne _ Hp)).
    iPure (is_tree_ptr_ne with "Hs Ho") as Hne.
    iDestruct "Hn" as "(Hp & Hx & Hy)". iApply wp_bind.
    destruct (decide (d = d')) as [->|Hd].
    + iApply (wp_ld with "Hx"); [auto|]. iIntros "Hx". rw Z.eqb_refl.
      iApply (wp_st with "Hx"); [auto|]. iIntros "Hx". iApply ("HΦ" with "[-Ho] Ho"). iFrame.
    + assert (d = opp d') as -> by (by destruct d, d'). rw opp_opp.
      iApply (wp_ld with "Hy"); [auto|]. iIntros "Hy". rw (proj2 (Z.eqb_neq _ _)); [|auto].
      iApply (wp_st with "Hx"); [auto|]. iIntros "Hx". iApply ("HΦ" with "[-Ho] Ho"). iFrame.
Qed.

End proofs.

(** The predicates are opened by hand, never by unification. *)
#[global] Typeclasses Opaque hdr node is_tree is_ctx.

(** One step of a program: its cells are found in the context. *)
Ltac wp_op :=
  lazymatch goal with
  | |- envs_entails _ (wp (mret _) _) => iApply wp_ret
  | |- envs_entails _ (wp (ld ?p ?o) _) => iApply (wp_ld p o with "[$]"); [by auto|]; iIntros "?"
  | |- envs_entails _ (wp (st ?p ?o _) _) => iApply (wp_st p o with "[$]"); [by auto|]; iIntros "?"
  | |- envs_entails _ (wp (if ptr ?t =? 0 then mret tt else (ld ?a ?o ≫= _)) _) =>
      iApply (wp_adopt_ld t _ _ a o with "[$] [$]"); [by auto|by auto|]; iIntros "? ?"
  | |- envs_entails _ (wp (if ptr ?t =? 0 then mret tt else _) _) =>
      iApply (wp_adopt t with "[$]"); [by auto|]; iIntros "?"
  | |- envs_entails _ (wp (is_red_node (ptr ?t)) _) =>
      iApply (wp_is_red_node t with "[$]"); iIntros "?"
  | |- envs_entails _ (wp (is_black_or_null (ptr ?t)) _) =>
      iApply (wp_is_black_or_null t with "[$]"); iIntros "?"
  | |- envs_entails _ (wp (rb_parent ?p) _) => iApply (wp_parent p with "[$]"); iIntros "?"
  | |- envs_entails _ (wp (rb_color ?p) _) => iApply (wp_color p with "[$]"); iIntros "?"
  | |- envs_entails _ (wp (rb_is_red ?p) _) => iApply (wp_is_red p with "[$]"); iIntros "?"
  | |- envs_entails _ (wp (rb_set_red ?p) _) => iApply (wp_set_red p with "[$]"); iIntros "?"
  | |- envs_entails _ (wp (rb_set_black ?p) _) => iApply (wp_set_black p with "[$]"); iIntros "?"
  | |- envs_entails _ (wp (rb_set_color ?p _) _) => iApply (wp_set_color p with "[$]"); iIntros "?"
  | |- envs_entails _ (wp (rb_set_parent ?p _) _) =>
      iApply (wp_set_parent p with "[$]"); [by auto|]; iIntros "?"
  end.
Ltac wp_step :=
  lazymatch goal with
  | |- envs_entails _ (wp (_ ≫= _) _) => iApply wp_bind; wp_op
  | _ => wp_op
  end.

Section rotation.

(** ** Rotation *)

Lemma wp_rotate (d : dir) (root : Z) (k : list frame) (c e : color) (x y z : tree) (p q : Z)
    (Φ : unit → hprop) :
  is_ctx root k p -∗ is_tree (above k) (mk d c x p (mk d e y q z)) -∗
  (is_ctx root k q -∗ is_tree (above k) (mk d e (mk d c x p y) q z) -∗ Φ tt) -∗
  wp (rotate d p root) Φ.
Proof.
  iIntros "Hk Ht HΦ". rw !is_tree_mk !ptr_mk.
  iDestruct "Ht" as "(Hp & Hx & Hq & Hy & Hz)".
  iPure (node_valid with "Hp") as [Hvp Hak]. iPure (node_valid with "Hq") as [Hvq _].
  rw /node. iDestruct "Hp" as "(Hp & Hpx & Hpq)". iDestruct "Hq" as "(Hq & Hqy & Hqz)".
  rw /rotate. do 7 wp_step.
  iApply wp_bind. iApply (wp_set_link with "Hk [$]"). iIntros "Hk ?".
  wp_step. iApply ("HΦ" with "Hk"). iFrame.
Qed.

(** A whole tree hangs at the root link. *)
Definition tree_at (root : Z) (t : tree) : hprop :=
  ⌜root ≠ 0⌝ ∗ fld root rb_node (ptr t) ∗ is_tree 0 t.

Lemma is_ctx_tree_at (root : Z) (k : list frame) (t : tree) :
  is_ctx root k (ptr t) ∗ is_tree (above k) t ⊣⊢ tree_at root (zip k t).
Proof. rw is_ctx_zip /tree_at /=. by rw assoc. Qed.

Lemma plug (root : Z) (k : list frame) (t : tree) :
  is_ctx root k (ptr t) -∗ is_tree (above k) t -∗ tree_at root (zip k t).
Proof. iIntros "Hk Ht". iApply is_ctx_tree_at. iFrame. Qed.

End rotation.
