(* ===== verification/RbInsert.v ===== *)
(** * Insertion into the red-black tree

    The loop of [rb_insert_color] on a tree in memory: each step takes a
    context and a subtree to another, up to the root, in which the invariant
    holds but for the colour of the root. *)

From iris.proofmode Require Import proofmode environments.
From S2P Require Import Prelude WordMem Rbtree RbTrees RbMem.

Section insertion.

(** After a step: the subtree the loop goes on with, in its context. *)
Definition insert_next (root : Z) (k : list frame) (t : tree) (n : Z) : hprop :=
  ∃ h k' t', is_ctx root k' n ∗ is_tree (above k') t' ∗
    ⌜n = ptr t' ∧ inserting h k' t' ∧ (length k' < length k)%nat ∧
      inorder (zip k' t') = inorder (zip k t)⌝.

(** A red uncle. *)
Lemma wp_insert_up (h : nat) (d1 d : dir) (p g root : Z) (s u t : tree) (k : list frame) :
  let k0 := F d1 Red p s :: F d Black g u :: k in
  inserting h k0 t → root_color u = Red →
  is_ctx root k0 (ptr t) -∗ is_tree p t -∗
  wp (rb_set_black (ptr u);; rb_set_black p;; rb_set_red g;; mret g) (insert_next root k0 t).
Proof.
  cbv zeta. iIntros (Hi Hu) "Hk Ht". destruct u as [|[] ul q ur]; [done| |done]. simpl. rw /node.
  iDestruct "Hk" as "((Hp & Hpt & Hps) & Hs & (Hg & Hgp & Hgq) & ((Hq & Hql & Hqr) & Hul & Hur) & Hk)".
  do 4 wp_step. iExists (S h), k, (mk d Red (mk d1 Black t p s) g (T Black ul q ur)).
  rw !is_tree_mk !ptr_mk /node. simpl. rw /node. iFrame.
  iPureIntro. split_and!; [done|by apply inserting_up|simpl; lia|same_order].
Qed.

(** A black uncle, the subtree on the outer side. *)
Lemma wp_insert_outer (h : nat) (d : dir) (p g root : Z) (s u t : tree) (k : list frame) :
  let k0 := F d Red p s :: F d Black g u :: k in
  inserting h k0 t → root_color u = Black →
  is_ctx root k0 (ptr t) -∗ is_tree p t -∗
  wp (rb_set_black p;; rb_set_red g;; rotate (opp d) g root;; mret (ptr t)) (insert_next root k0 t).
Proof.
  cbv zeta. iIntros (Hi Hu) "Hk Ht". simpl. rw /node.
  iDestruct "Hk" as "((Hp & Hpt & Hps) & Hs & (Hg & Hgp & Hgu) & Hu & Hk)".
  do 2 wp_step. iApply wp_bind.
  iApply (wp_rotate (opp d) root k Red Black u s t g p with "Hk [-]").
  { rw !mk_opp !is_tree_mk !ptr_mk /node. iFrame. }
  rw !mk_opp. iIntros "Hk Ht". wp_step.
  iExists h, (F d Black p (mk d Red s g u) :: k), t.
  rw is_tree_mk. simpl. rw !ptr_mk. iDestruct "Ht" as "($ & $ & $)". iFrame.
  iPureIntro. split_and!; [done|by apply inserting_outer|simpl; lia|same_order].
Qed.

(** A black uncle, the subtree on the inner side: it is rotated outwards first. *)
Lemma wp_insert_inner (h : nat) (d : dir) (p g n root : Z) (s u a b : tree) (k : list frame) :
  let k0 := F (opp d) Red p s :: F d Black g u :: k in let t := mk d Red a n b in
  inserting h k0 t → root_color u = Black →
  is_ctx root k0 n -∗ is_tree p t -∗
  wp ('(node, parent) ← (rotate d p root;; mret (p, n));
      rb_set_black parent;; rb_set_red g;; rotate (opp d) g root;; mret node)
     (insert_next root k0 t).
Proof.
  cbv zeta. iIntros (Hi Hu) "Hk Ht". simpl.
  iDestruct "Hk" as "(Hp & Hs & Hk)". iApply wp_bind. iApply wp_bind.
  iApply (wp_rotate d root (F d Black g u :: k) Red Red s a b p n with "[Hk] [Hp Hs Ht]").
  { simpl. iFrame. }
  { rw (is_tree_mk d (above _)) ptr_mk node_opp. iFrame. }
  iIntros "Hk Ht". wp_step. simpl. rw !is_tree_mk !ptr_mk /node.
  iDestruct "Hk" as "((Hg & Hgp & Hgu) & Hu & Hk)".
  iDestruct "Ht" as "((Hn & Hnp & Hnb) & (Hp & Hs & Ha) & Hb)".
  do 2 wp_step. iApply wp_bind.
  iApply (wp_rotate (opp d) root k Red Black u b (mk d Red s p a) g n
    with "Hk [-]").
  { rw !mk_opp !is_tree_mk !ptr_mk /node. iFrame. }
  rw !mk_opp. iIntros "Hk Ht". wp_step.
  iExists h, (F d Black n (mk d Red b g u) :: k), (mk d Red s p a).
  rw (is_tree_mk d (above k)) !ptr_mk. simpl. rw !ptr_mk. iDestruct "Ht" as "($ & $ & $)". iFrame.
  iPureIntro. split_and!; [done|by apply inserting_inner|simpl; lia|same_order].
Qed.

Lemma wp_insert_step (h : nat) (d1 d : dir) (p g root : Z) (s u t : tree) (k : list frame) :
  let k0 := F d1 Red p s :: F d Black g u :: k in
  inserting h k0 t →
  is_ctx root k0 (ptr t) -∗ is_tree p t -∗
  wp (insert_step d (ptr t) p g root) (insert_next root k0 t).
Proof.
  cbv zeta. iIntros (Hi) "Hk Ht".
  pose proof Hi as (c & l & n & r & Et & _).
  simpl. rw /node.
  iDestruct "Hk" as "((Hp & Hpt & Hps) & Hs & (Hg & Hgp & Hgu) & Hu & Hk)".
  iFact (ptr s ≠ ptr t) as Hst.
  { rw Et /= /node. iDestruct "Ht" as "((Ht & _) & _)". iApply (is_tree_ptr_ne with "Hs Ht"). }
  iPure (hdr_valid with "Hp") as [Hvp _]. iPure (hdr_valid with "Hg") as [Hvg _].
  rw /insert_step. do 2 wp_step. destruct (decide (root_color u = Red)) as [Hu|Hu].
  { rw bool_decide_true; [|done]. iApply (wp_insert_up with "[-Ht] Ht"); [done..|].
    simpl. rw /node. by iFrame. }
  rw bool_decide_false; [|done].
  assert (root_color u = Black) as Hb by (by destruct (root_color u)).
  destruct (decide (d1 = d)) as [->|Hd].
  - wp_step. rw (proj2 (Z.eqb_neq _ _) Hst). iApply wp_bind. iApply wp_ret.
    iApply (wp_insert_outer with "[-Ht] Ht"); [done..|]. simpl. rw /node. by iFrame.
  - assert (d1 = opp d) as -> by (by destruct d, d1).
    destruct (mk_cases d Red l n r) as (a & b & Em). rw Em in Et. subst t. rw ptr_mk in Hst.
    rw ptr_mk. wp_step. rw Z.eqb_refl.
    iApply (wp_insert_inner with "[-Ht] Ht"); [done..|]. simpl. rw /node. by iFrame.
Qed.

(** ** The loop and [rb_insert_color] *)

Lemma wp_insert_loop (fuel h : nat) (root : Z) (k : list frame) (t : tree) :
  inserting h k t → (length k < fuel)%nat →
  is_ctx root k (ptr t) -∗ is_tree (above k) t -∗
  wp (insert_loop fuel (ptr t) root)
     (λ _, ∃ t', tree_at root t' ∗
        ⌜red_black (blacken t') ∧ t' ≠ E ∧ inorder t' = inorder (zip k t)⌝).
Proof.
  revert h k t. induction fuel as [|fuel IH]; iIntros (h k t Hi Hf) "Hk Ht"; [lia|].
  assert (t ≠ E) as HE by (destruct Hi as (? & ? & ? & ? & -> & _); done).
  cbn [insert_loop]. iApply wp_bind. iApply (wp_parent_tree with "Ht"); [done|]. iIntros "Ht".
  destruct k as [|[d1 c1 p s] k]; simpl above.
  { iApply wp_ret. iExists t. iDestruct (plug _ [] with "Hk Ht") as "$".
    iPureIntro. split_and!; [by eapply (inserting_done h [])|done|done]. }
  iEval (simpl; rw /node) in "Hk". iDestruct "Hk" as "((Hp & Hpt & Hps) & Hs & Hk)".
  iPure (hdr_valid with "Hp") as [Hvp _]. rw (proj2 (Z.eqb_neq _ _) (valid_ne _ Hvp)).
  iApply wp_bind. iApply (wp_is_red with "Hp"). iIntros "Hp". destruct c1; [rw bool_decide_true //=|rw bool_decide_false //=].
  2:{ iApply wp_ret. iExists (zip (F d1 Black p s :: k) t).
    iDestruct (plug _ (F d1 Black p s :: k) with "[-Ht] Ht") as "$".
    { simpl. rw /node. iFrame. }
    iPureIntro. split_and!; [by eapply inserting_done|by apply zip_ne|done]. }
  destruct (inserting_above _ _ _ _ _ _ Hi) as (d2 & g & u & k' & -> & _ & Hu & _).
  iEval (simpl; rw /node) in "Hk". iDestruct "Hk" as "((Hg & Hgp & Hgu) & Hu & Hk)".
  iPure (hdr_valid with "Hg") as [Hvg _].
  iPure (is_tree_ptr_ne with "Hu Hp") as Hup.
  iApply wp_bind. iApply (wp_parent with "Hp"). iIntros "Hp".
  iAssert (wp (ld g rb_left) (λ x, ⌜(if p =? x then L else R) = d2⌝ ∗
      is_ctx root (F d1 Red p s :: F d2 Black g u :: k') (ptr t)))%I with "[-Ht]" as "Hld".
  { simpl. rw /node. destruct d2; simpl.
    - wp_op. rw Z.eqb_refl. by iFrame.
    - wp_op. rw (proj2 (Z.eqb_neq _ _)); [|auto]. by iFrame. }
  iApply wp_bind. iApply (wp_wand with "Hld"). iIntros (x) "[%Hx Hk]". rw Hx.
  iApply wp_bind. iApply (wp_wand with "[Hk Ht]"); [iApply (wp_insert_step with "Hk Ht"); done|].
  iIntros (n) "(%h' & %k1 & %t1 & Hk & Ht & -> & %Hi1 & %Hl & %Ho)".
  iApply (wp_wand with "[Hk Ht]"); [iApply (IH with "Hk Ht"); [done|simpl in *; lia]|].
  iIntros (_) "(%t' & $ & % & % & %Ho')". iPureIntro. split_and!; [done..|]. by rw Ho' Ho.
Qed.

Lemma wp_insert_color (fuel h : nat) (root : Z) (k : list frame) (t : tree) :
  inserting h k t → (length k < fuel)%nat →
  is_ctx root k (ptr t) -∗ is_tree (above k) t -∗
  wp (rb_insert_color fuel (ptr t) root)
     (λ _, ∃ t', tree_at root t' ∗ ⌜red_black t' ∧ inorder t' = inorder (zip k t)⌝).
Proof.
  iIntros (Hi Hf) "Hk Ht". rw /rb_insert_color. iApply wp_bind.
  iApply (wp_wand with "[Hk Ht]"); [iApply (wp_insert_loop with "Hk Ht"); done|].
  iIntros (_) "(%t' & (%Hr & Hl & Ht) & %Hb & %HE & %Ho)".
  wp_step. iApply (wp_set_black_tree with "Ht"); [done|]. iIntros "Ht".
  iExists (blacken t'). rw inorder_blacken /tree_at. assert (ptr (blacken t') = ptr t') as -> by (by destruct t').
  by iFrame.
Qed.

End insertion.
