(* ===== verification/RbErase.v ===== *)
(** * Rebalancing the red-black tree after an erasure

    [__rb_erase_color] on a tree in memory: the loop's three parts (a sibling
    made black, its red child made the outer one, the last rotation), each on a
    context and a subtree whose paths are one black node short. *)

From iris.proofmode Require Import proofmode environments.
From S2P Require Import Prelude WordMem Rbtree RbTrees RbMem.

Section rebalancing.

(** The value of the root link. *)
Fixpoint top (k : list frame) (h : Z) : Z :=
  match k with [] => h | F _ _ p _ :: k => top k p end.

Lemma wp_root (root : Z) (k : list frame) (h : Z) (Φ : Z → hprop) :
  is_ctx root k h -∗ (is_ctx root k h -∗ Φ (top k h)) -∗ wp (ld root rb_node) Φ.
Proof.
  iInduction k as [|[d c p s] k] "IH" forall (h); simpl.
  - iIntros "[%Hr Hl] HΦ". iApply (wp_ld with "Hl"); [done|]. iIntros "Hl". iApply "HΦ". by iFrame.
  - iIntros "(Hp & Hs & Hk) HΦ". iApply ("IH" with "Hk"). iIntros "Hk". iApply "HΦ". iFrame.
Qed.

Lemma top_ne (root : Z) (k : list frame) (d : dir) (c : color) (p h par : Z) (s t : tree) :
  is_ctx root (F d c p s :: k) h -∗ is_tree par t -∗ ⌈top k p ≠ ptr t⌉.
Proof.
  iInduction k as [|[d' c' p' s'] k] "IH" forall (d c p h s).
  - simpl. rw /node. iIntros "((Hp & _) & _) Ht". iPure (is_tree_ptr_ne with "Ht Hp") as Hne. auto.
  - iIntros "Hk Ht". iEval (simpl) in "Hk". iDestruct "Hk" as "(_ & _ & Hk)".
    simpl top. iApply ("IH" $! d' c' p' p s' with "[Hk] Ht"). simpl. iFrame.
Qed.

Lemma is_tree_ne (par par' : Z) (s t : tree) : s ≠ E →
  is_tree par s -∗ is_tree par' t -∗ ⌈ptr s ≠ ptr t⌉.
Proof.
  iIntros (Hs) "Hs Ht". iDestruct (is_tree_open with "Hs") as (c l p r ->) "[Hp _]"; [done|].
  iPure (is_tree_ptr_ne with "Ht Hp") as ?. auto.
Qed.

(** The node [n] is where the loop ends: blackening it restores the invariant. *)
Definition erase_end (root : Z) (t0 : tree) (n : Z) : hprop :=
  ∃ k t, is_ctx root k n ∗ is_tree (above k) t ∗
    ⌜n = ptr t ∧ red_black (zip k (blacken t)) ∧ inorder (zip k t) = inorder t0⌝.

(** The first part of a step: the sibling is black, rotated there if need be. *)
Definition black_sibling (d : dir) (p root : Z) (k : list frame) (k0 : list frame) (t : tree)
    (q : Z) : hprop :=
  ∃ h' c' k' x y, let k1 := F d c' p (mk d Black x q y) :: k' in
    is_ctx root k1 (ptr t) ∗ is_tree p t ∗
    ⌜erasing h' k1 t ∧ (c' = Red ∨ k' = k) ∧ inorder (zip k1 t) = inorder (zip k0 t)⌝.

Lemma wp_erase_sibling {B} (K : Z → M B) (Φ : B → hprop)
    (h : nat) (d : dir) (c : color) (p root : Z) (s t : tree) (k : list frame) :
  let k0 := F d c p s :: k in
  erasing h k0 t → root_color t = Black →
  is_ctx root k0 (ptr t) -∗ is_tree p t -∗
  (∀ other, black_sibling d p root k k0 t other -∗ wp (K other) Φ) -∗
  wp (other ← ld p (child (opp d)); red ← rb_is_red other;
      other ← (if (red : bool) then
                 rb_set_black other;; rb_set_red p;; rotate d p root;; ld p (child (opp d))
               else mret other);
      K other) Φ.
Proof.
  cbv zeta. iIntros (He Hb) "Hk Ht HK". destruct (erasing_sibling _ _ _ _ _ _ _ He Hb) as (_ & Hs & HE & _).
  destruct s as [|cs l q r]; [done|]. destruct (mk_cases d cs l q r) as (x & y & Em). rw Em in He Hs |- *.
  iEval (simpl; rw is_tree_mk ptr_mk /node) in "Hk".
  iDestruct "Hk" as "((Hp & Hpt & Hpq) & ((Hq & Hqx & Hqy) & Hx & Hy) & Hk)".
  iPure (hdr_valid with "Hp") as [Hvp _]. iPure (hdr_valid with "Hq") as [Hvq _].
  do 2 wp_step. iApply wp_bind. iApply (wp_wand with "[-HK] HK").
  destruct cs; [rw bool_decide_true //=|rw bool_decide_false //=].
  2:{ iApply wp_ret. iExists h, c, k, x, y. simpl. rw is_tree_mk ptr_mk /node. iFrame. iPureIntro.
      split_and!; [done|by right|done]. }
  destruct (erasing_rotate _ _ _ _ _ _ _ _ _ He Hb) as (-> & He' & Hbx & _).
  destruct (erasing_sibling _ _ _ _ _ _ _ He' Hb) as (_ & _ & HEx & _).
  destruct x as [|cx xl m xr]; [done|]. simpl in Hbx. subst cx.
  destruct (mk_cases d Black xl m xr) as (a & b & Ex). rw Ex in He' |- *.
  do 2 wp_step. iApply wp_bind.
  iApply (wp_rotate d root k Red Black t (mk d Black a m b) y p q with "Hk [-]").
  { rw (is_tree_mk d (above k)) ptr_mk (is_tree_mk d p) !ptr_mk /node. iFrame. }
  iIntros "Hk Ht". rw (is_tree_mk d (above k)) ptr_mk (is_tree_mk d q) !ptr_mk /node.
  iDestruct "Ht" as "((Hq & Hqp & Hqy) & ((Hp & Hpt & Hpm) & Ht & Hx) & Hy)".
  wp_op. iExists h, Red, (F d Black q y :: k), a, b. iFrame "Ht". iSplit.
  - simpl. rw ptr_mk /node. iFrame.
  - iPureIntro. split_and!; [done|by left|same_order].
Qed.

(** The outer child of the sibling [q] is red, a red inner child rotated there. *)
Definition outer_red (d : dir) (c : color) (p root : Z) (k k0 : list frame) (t : tree) (q : Z) : hprop :=
  ∃ h x u m v, let k1 := F d c p (mk d Black x q (mk d Red u m v)) :: k in
    is_ctx root k1 (ptr t) ∗ is_tree p t ∗
    ⌜erasing h k1 t ∧ inorder (zip k1 t) = inorder (zip k0 t)⌝.

Lemma wp_erase_inner {B} (K : Z → M B) (Φ : B → hprop)
    (h : nat) (d : dir) (c : color) (p q root : Z) (t x y : tree) (k : list frame) :
  let k0 := F d c p (mk d Black x q y) :: k in
  erasing h k0 t → root_color t = Black → root_color x = Red ∨ root_color y = Red →
  is_ctx root k0 (ptr t) -∗ is_tree p t -∗
  (∀ other, outer_red d c p root k k0 t other -∗ wp (K other) Φ) -∗
  wp (or ← ld q (child (opp d)); br ← is_black_or_null or;
      other ← (if (br : bool) then
                 ol ← ld q (child d); rb_set_black ol;; rb_set_red q;;
                 rotate (opp d) q root;; ld p (child (opp d))
               else mret q);
      K other) Φ.
Proof.
  cbv zeta. iIntros (He Hb Hxy) "Hk Ht HK".
  iEval (simpl; rw is_tree_mk ptr_mk /node) in "Hk".
  iDestruct "Hk" as "((Hp & Hpt & Hpq) & ((Hq & Hqx & Hqy) & Hx & Hy) & Hk)".
  iPure (hdr_valid with "Hp") as [Hvp _]. iPure (hdr_valid with "Hq") as [Hvq _].
  do 2 wp_step. iApply wp_bind. iApply (wp_wand with "[-HK] HK").
  destruct (root_color y) eqn:Hy; [rw bool_decide_false //=|rw bool_decide_true //=].
  - destruct y as [|cy yl m yr]; [done|]. simpl in Hy. subst cy.
    destruct (mk_cases d Red yl m yr) as (u & v & Ey). rw Ey in He |- *.
    wp_op. iExists h, x, u, m, v. simpl. rw (is_tree_mk d p) !ptr_mk /node. by iFrame.
  - destruct Hxy as [Hx|]; [|done]. destruct x as [|cx xl m xr]; [done|]. simpl in Hx. subst cx.
    destruct (mk_cases d Red xl m xr) as (a & b & Ex). rw Ex in He |- *.
    rw (is_tree_mk d q) !ptr_mk /node. iDestruct "Hx" as "((Hm & Hma & Hmb) & Ha & Hb)".
    do 3 wp_step. iApply wp_bind.
    iApply (wp_rotate (opp d) root (F (opp d) c p t :: k) Red Black y b a q m
      with "[Hk Hp Hpt Hpq Ht] [-]").
    { simpl. rw node_opp /node. iFrame. }
    { simpl. rw !mk_opp (is_tree_mk d p) ptr_mk (is_tree_mk d q) ?ptr_mk /node. iFrame. }
    rw !mk_opp. iIntros "Hk Ht". iEval (simpl; rw node_opp /node) in "Hk".
    iDestruct "Hk" as "((Hp & Hpt & Hpm) & Ht' & Hk)".
    wp_step. iExists h, a, b, q, y. simpl. rw !ptr_mk /node. iFrame.
    iPureIntro. split; [by apply erasing_inner|same_order].
Qed.

(** The sibling's outer child is red. *)
Lemma wp_erase_outer (h : nat) (d : dir) (c : color) (p q m root : Z) (t x u v : tree) (k : list frame) :
  let k0 := F d c p (mk d Black x q (mk d Red u m v)) :: k in
  erasing h k0 t → root_color t = Black →
  is_ctx root k0 (ptr t) -∗ is_tree p t -∗
  wp (c ← rb_color p; rb_set_color q c;; rb_set_black p;;
      or ← ld q (child (opp d)); rb_set_black or;;
      rotate d p root;; r ← ld root rb_node; mret (inr r : Z * Z + Z))
     (λ res, ∃ n, ⌜res = inr n⌝ ∗ erase_end root (zip k0 t) n).
Proof.
  cbv zeta. iIntros (He Hb) "Hk Ht".
  iEval (simpl; rw (is_tree_mk d p) ptr_mk (is_tree_mk d q) ptr_mk /node) in "Hk".
  iDestruct "Hk" as "((Hp & Hpt & Hpq) & ((Hq & Hqx & Hqm) & Hx & (Hm & Hmu & Hmv) & Hu & Hv) & Hk)".
  iPure (hdr_valid with "Hq") as [Hvq _].
  do 5 wp_step. iApply wp_bind.
  iApply (wp_rotate d root k Black c t x (mk d Black u m v) p q with "Hk [-]").
  { rw (is_tree_mk d (above k)) ptr_mk (is_tree_mk d p) !ptr_mk (is_tree_mk d q) /node. iFrame. }
  iIntros "Hk Ht". rw -{1}(ptr_mk d c (mk d Black t p x) q (mk d Black u m v)).
  iDestruct (plug with "Hk Ht") as "(%Hr & Hl & Ht)". do 2 wp_step.
  iExists _. iSplit; [done|]. iExists [], _. cbn [is_ctx above]. iFrame "%∗". iPureIntro. split_and!; [done| |].
  - simpl. rw -red_black_root; by eapply erasing_outer.
  - same_order.
Qed.


(** The test for a black sibling without red child. *)
Lemma wp_both_black (d : dir) (q par : Z) (c : color) (x y : tree) (Φ : bool → hprop) :
  node d q c par (ptr x) (ptr y) -∗ is_tree q x -∗ is_tree q y -∗
  (node d q c par (ptr x) (ptr y) -∗ is_tree q x -∗ is_tree q y -∗
   Φ (bool_decide (root_color x = Black ∧ root_color y = Black))) -∗
  wp (both_black q) Φ.
Proof.
  iAssert (∀ x y (Φ : bool → hprop), node L q c par (ptr x) (ptr y) -∗ is_tree q x -∗ is_tree q y -∗
    (node L q c par (ptr x) (ptr y) -∗ is_tree q x -∗ is_tree q y -∗
     Φ (bool_decide (root_color x = Black ∧ root_color y = Black))) -∗ wp (both_black q) Φ)%I as "H".
  { clear x y Φ. iIntros (x y Φ) "Hq Hx Hy HΦ". iPure (node_valid with "Hq") as [Hv _].
    rw /node. iDestruct "Hq" as "(Hq & Hqx & Hqy)". rw /both_black.
    iApply wp_bind. iApply (wp_ld with "Hqx"); [auto|]. iIntros "Hqx".
    iApply wp_bind. iApply (wp_is_black_or_null x with "Hx"). iIntros "Hx". rw bool_decide_and.
    destruct (bool_decide (root_color x = Black)); simpl.
    - iApply wp_bind. iApply (wp_ld with "Hqy"); [auto|]. iIntros "Hqy".
      iApply (wp_is_black_or_null y with "Hy"). iIntros "Hy". iApply ("HΦ" with "[-Hx Hy] Hx Hy"). iFrame.
    - iApply wp_ret. iApply ("HΦ" with "[-Hx Hy] Hx Hy"). iFrame. }
  destruct d; [iApply "H"|]. iIntros "Hq Hx Hy HΦ". change R with (opp L). rw node_opp.
  iApply ("H" with "Hq Hy Hx"). iIntros "Hq Hy Hx". iSpecialize ("HΦ" with "Hq Hx Hy").
  rw (bool_decide_ext (root_color y = Black ∧ root_color x = Black)
        (root_color x = Black ∧ root_color y = Black)); [done|tauto].
Qed.

(** After a step: the subtree the loop goes on with, or the end. *)
Definition erase_next (root : Z) (k : list frame) (t : tree) (res : Z * Z + Z) : hprop :=
  (∃ h k' t', is_ctx root k' (ptr t') ∗ is_tree (above k') t' ∗
    ⌜res = inl (ptr t', above k') ∧ erasing h k' t' ∧
     (root_color t' = Red ∨ (length k' < length k)%nat) ∧
     inorder (zip k' t') = inorder (zip k t)⌝) ∨
  (∃ n, ⌜res = inr n⌝ ∗ erase_end root (zip k t) n).

Lemma erase_end_eq (root : Z) (t u : tree) (n : Z) :
  inorder t = inorder u → erase_end root t n -∗ erase_end root u n.
Proof. by rw /erase_end; intros ->; iIntros. Qed.

Lemma wp_erase_step (h : nat) (d : dir) (c : color) (p root : Z) (t s : tree) (k : list frame) :
  let k0 := F d c p s :: k in
  erasing h k0 t → root_color t = Black →
  is_ctx root k0 (ptr t) -∗ is_tree p t -∗
  wp (erase_step d (ptr t) p root) (erase_next root k0 t).
Proof.
  cbv zeta. iIntros (He0 Hb) "Hk Ht". rw /erase_step.
  iApply (wp_erase_sibling with "Hk Ht"); [done..|]. cbv beta.
  iIntros (q) "(%h' & %c' & %k' & %x & %y & Hk & Ht & %He & %Hc & %Ho)".
  iEval (simpl; rw (is_tree_mk d p) ptr_mk) in "Hk".
  iDestruct "Hk" as "(Hp & (Hq & Hx & Hy) & Hk)".
  iApply wp_bind. iApply (wp_both_black d with "Hq Hx Hy"). iIntros "Hq Hx Hy".
  destruct (decide (root_color x = Black ∧ root_color y = Black)) as [[Hx Hy]|Hxy].
  - rw bool_decide_true; [|done]. rw /node.
    iDestruct "Hp" as "(Hp & Hpt & Hpq)". iDestruct "Hq" as "(Hq & Hqx & Hqy)".
    do 3 wp_step.
    destruct (erasing_up _ _ _ _ _ _ _ _ _ He Hb Hx Hy) as [h1 He1]. iLeft.
    iExists h1, k', (mk d c' t p (mk d Red x q y)).
    rw (is_tree_mk d (above k')) !ptr_mk (is_tree_mk d p) /node. iFrame.
    iPureIntro. split_and!; [done|done| |rw -Ho; same_order].
    destruct Hc as [->|<-]; [left; by destruct d|right; simpl; lia].
  - assert (root_color x = Red ∨ root_color y = Red) as Hr
      by (destruct (root_color x), (root_color y); naive_solver).
    rw bool_decide_false; [|done].
    iApply (wp_erase_inner with "[-Ht] Ht"); [done..|simpl; rw (is_tree_mk d p) ptr_mk; iFrame|].
    iIntros (o) "(%h1 & %x' & %u & %m & %v & Hk & Ht & %He1 & %Ho1)".
    iApply (wp_wand with "[-]"); [iApply (wp_erase_outer with "Hk Ht"); done|].
    iIntros (res) "(%n & -> & H)". iRight. iExists n. iSplit; [done|].
    iApply (erase_end_eq with "H"). by rw Ho1 Ho.
Qed.

Lemma wp_erase_loop (fuel h : nat) (root : Z) (k : list frame) (t : tree) :
  erasing h k t → (match root_color t with Red => 0 | Black => length k end < fuel)%nat →
  is_ctx root k (ptr t) -∗ is_tree (above k) t -∗
  wp (erase_loop fuel (ptr t) (above k) root) (erase_end root (zip k t)).
Proof.
  revert h k t. induction fuel as [|fuel IH]; iIntros (h k t He Hf) "Hk Ht"; [lia|].
  cbn [erase_loop]. iApply wp_bind. iApply (wp_is_black_or_null with "Ht"). iIntros "Ht". destruct (root_color t) eqn:Hc; [rw bool_decide_false //=|rw bool_decide_true //=].
  { iApply wp_ret. iExists k, t. iFrame. iPureIntro. split_and!; [done|by eapply erasing_red|done]. }
  iApply wp_bind. iApply (wp_root with "Hk"). iIntros "Hk". destruct k as [|[d c p s] k]; simpl top.
  { rw Z.eqb_refl. iApply wp_ret. iExists [], t. iFrame. iPureIntro.
    split_and!; [done|by eapply erasing_root|done]. }
  iPure (top_ne with "Hk Ht") as Hne. rw (proj2 (Z.eqb_neq _ _)); [|done].
  destruct (erasing_sibling _ _ _ _ _ _ _ He Hc) as (_ & _ & HE & _).
  iEval (simpl; rw /node) in "Hk". iDestruct "Hk" as "((Hp & Hpt & Hps) & Hs & Hk)".
  iPure (is_tree_ne with "Hs Ht") as Hst; [done|].
  iPure (hdr_valid with "Hp") as [Hvp _].
  iAssert (wp (ld p rb_left) (λ x, ⌜(if x =? ptr t then L else R) = d⌝ ∗
      is_ctx root (F d c p s :: k) (ptr t)))%I with "[-Ht]" as "Hld".
  { simpl. rw /node. destruct d; simpl.
    - wp_op. rw Z.eqb_refl. by iFrame.
    - wp_op. rw (proj2 (Z.eqb_neq _ _)); [|done]. by iFrame. }
  iApply wp_bind. iApply (wp_wand with "Hld"). iIntros (x) "[%Hx Hk]". rw Hx. simpl above.
  iApply wp_bind. iApply (wp_wand with "[Hk Ht]"); [iApply (wp_erase_step with "Hk Ht"); done|].
  iIntros (res) "[(%h1 & %k1 & %t1 & Hk & Ht & -> & %He1 & %Hl & %Ho)|(%n & -> & H)]".
  - iApply (wp_wand with "[Hk Ht]"); [iApply (IH with "Hk Ht"); [done|]|].
    + destruct (root_color t1), Hl as [|Hl]; simpl in *; (done || lia).
    + iIntros (n) "H". by iApply (erase_end_eq with "H").
  - iApply wp_ret. iFrame.
Qed.

Lemma wp_erase_color (fuel h : nat) (root : Z) (k : list frame) (t : tree) :
  erasing h k t → (length k < fuel)%nat →
  is_ctx root k (ptr t) -∗ is_tree (above k) t -∗
  wp (__rb_erase_color fuel (ptr t) (above k) root)
     (λ _, ∃ t', tree_at root t' ∗ ⌜red_black t' ∧ inorder t' = inorder (zip k t)⌝).
Proof.
  iIntros (He Hf) "Hk Ht". rw /__rb_erase_color. iApply wp_bind.
  iApply (wp_wand with "[-]"); [iApply (wp_erase_loop with "Hk Ht"); [done|]|].
  { destruct (root_color t); lia. }
  iIntros (n) "(%k1 & %t1 & Hk & Ht & -> & %Hb & %Ho)".
  assert (ptr (blacken t1) = ptr t1) as Hp by (by destruct t1).
  iAssert (wp (if ptr t1 =? 0 then mret tt else rb_set_black (ptr t1))
    (λ _, is_tree (above k1) (blacken t1))) with "[Ht]" as "H".
  { iPure (is_tree_ptr with "Ht") as [[-> ->]|[Hne _]]; [by iApply wp_ret|].
    rw (proj2 (Z.eqb_neq _ _) Hne).
    iApply (wp_set_black_tree with "Ht"); [by intros ->|]. by iIntros. }
  iApply (wp_wand with "H"). iIntros (_) "Ht". rw -Hp. iDestruct (plug with "Hk Ht") as "H".
  iExists _. iFrame. iPureIntro. split; [done|]. rw -Ho. apply inorder_zip_eq, inorder_blacken.
Qed.

End rebalancing.
