(* ===== verification/RbOps.v ===== *)
(** * The operations of the red-black tree in memory

    [rbtree root xs]: the nodes [xs], in this order, form a red-black tree at
    the root.  [rb_erase] takes a node out, [rb_link_node] with
    [rb_insert_color] puts one in, [rb_replace_node] exchanges one,
    [rb_first], [rb_last], [rb_next] and [rb_prev] go along the sequence. *)

From iris.proofmode Require Import proofmode environments.
From S2P Require Import Prelude WordMem Rbtree RbTrees RbMem RbInsert RbErase.

Section ops.

(** The three words of a node outside the tree. *)
Definition block (p : Z) : hprop :=
  ∃ pc x y, fld p rb_parent_color pc ∗ fld p rb_left x ∗ fld p rb_right y.

Lemma node_block (d : dir) (p : Z) (c : color) (par x y : Z) : node d p c par x y -∗ block p.
Proof.
  rw /node /hdr. iIntros "([_ Hp] & Hx & Hy)". destruct d; iExists _, _, _; iFrame.
Qed.

(** ** The end of the links of one side *)

(** [rb_first]'s and [rb_last]'s loop. *)
Lemma wp_far (d : dir) (fuel : nat) (par : Z) (t : tree) (Φ : Z → hprop) :
  t ≠ E → (height t ≤ fuel)%nat →
  is_tree par t -∗ (is_tree par t -∗ Φ (tip d t)) -∗ wp (far d fuel (ptr t)) Φ.
Proof.
  revert par t Φ. induction fuel as [|fuel IH]; iIntros (par t Φ HE Hf) "Ht HΦ".
  { destruct t; simpl in Hf; [done|lia]. }
  destruct t as [|c l p r]; [done|]. destruct (mk_cases d c l p r) as (x & y & Em).
  rw Em in Hf |- *. rw height_mk in Hf. rw is_tree_mk ptr_mk tip_mk.
  iDestruct "Ht" as "(Hp & Hx & Hy)". iPure (node_valid with "Hp") as [Hvp _]. rw /node.
  iDestruct "Hp" as "(Hp & Hpx & Hpy)". cbn [far].
  iApply wp_bind. iApply (wp_ld with "Hpx"); [auto|]. iIntros "Hpx".
  iPure (is_tree_ptr with "Hx") as [[-> Ex]|[Hne _]].
  - rw Ex. iApply wp_ret. iApply "HΦ". iFrame.
  - rw (proj2 (Z.eqb_neq _ _) Hne).
    iApply (IH with "Hx"); [by intros ->|lia|]. iIntros "Hx".
    destruct x; [done|]. iApply "HΦ". iFrame.
Qed.

(** ** A segment of a context *)

(** The node above the hole. *)
Definition seg_above (o : Z) (k : list frame) : Z := match k with [] => o | f :: _ => fp f end.

(** The frames [k] below the node [o], from the hole [h]. *)
Fixpoint is_seg (o : Z) (k : list frame) (h : Z) : hprop :=
  match k with
  | [] => emp
  | F d c p s :: k =>
    node d p c (seg_above o k) h (ptr s) ∗ is_tree p s ∗ is_seg o k p
  end.

Lemma above_app (k k' : list frame) (d : dir) (c : color) (o : Z) (s : tree) :
  above (k ++ F d c o s :: k') = seg_above o k.
Proof. by destruct k. Qed.

Lemma is_ctx_app (root : Z) (k k' : list frame) (d : dir) (c : color) (o h : Z) (s : tree) :
  is_ctx root (k ++ F d c o s :: k') h ⊣⊢
  is_seg o k h ∗ node d o c (above k') (top k h) (ptr s) ∗ is_tree o s ∗ is_ctx root k' o.
Proof.
  revert h. induction k as [|[d' c' p s'] k IH]; intros h; simpl.
  - iSplit; [iIntros "($ & $ & $)"|iIntros "(_ & $ & $ & $)"].
  - rw IH above_app. iSplit; [iIntros "($ & $ & $ & $)"|iIntros "(($ & $ & $) & $)"].
Qed.

Lemma top_zip (k : list frame) (t : tree) : top k (ptr t) = ptr (zip k t).
Proof. revert t. induction k as [|[d c p s] k IH]; intros t; [done|]. simpl. by rw -IH ptr_mk. Qed.

(** Plugging the segment. *)
Lemma is_seg_zip (o : Z) (k : list frame) (t : tree) :
  is_seg o k (ptr t) ∗ is_tree (seg_above o k) t ⊣⊢ is_tree o (zip k t).
Proof.
  revert t. induction k as [|[d c p s] k IH]; intros t.
  - simpl. iSplit; [iIntros "[_ $]"|iIntros "$"].
  - simpl. rw -IH is_tree_mk ptr_mk. iSplit.
    + iIntros "[($ & $ & $) $]".
    + iIntros "($ & $ & $ & $)".
Qed.

(** The topmost node of the segment gets another parent. *)
Lemma wp_seg_reparent (o q h : Z) (k : list frame) (Φ : unit → hprop) :
  k ≠ [] → aligned q →
  is_seg o k h -∗ (is_seg q k h -∗ Φ tt) -∗ wp (rb_set_parent (top k h) q) Φ.
Proof.
  iIntros (Hk Hq). iInduction k as [|[d c p s] k] "IH" forall (h); [done|].
  iIntros "Hs HΦ". simpl. destruct k as [|f k].
  - iEval (rw /node) in "Hs". iDestruct "Hs" as "((Hp & Hx) & Hs & _)".
    iApply (wp_set_parent with "Hp"); [done|]. iIntros "Hp". iApply "HΦ". rw /node. iFrame.
  - iDestruct "Hs" as "(Hn & Ht & Hs)".
    iApply ("IH" with "[] Hs"); [done|]. iIntros "Hs". iApply "HΦ". iFrame.
Qed.

(** ** [rb_erase] with at most one child *)

Lemma wp_erase_simple (fuel : nat) (d : dir) (root : Z) (k : list frame) (c : color) (x : tree) (n : Z) :
  red_black (zip k (mk d c x n E)) → (length k < fuel)%nat →
  is_ctx root k n -∗ is_tree (above k) (mk d c x n E) -∗
  wp (erase_simple fuel n (ptr x) root)
     (λ _, ∃ t', tree_at root t' ∗ block n ∗
        ⌜red_black t' ∧ inorder t' = before k ++ inorder x ++ after k⌝).
Proof.
  iIntros (Hb Hf) "Hk Ht". rw is_tree_mk /node. iDestruct "Ht" as "((Hn & Hnx & Hny) & Hx & _)".
  iPure (hdr_valid with "Hn") as [Hvn Ha].
  pose proof (erase_child d c k x n E Hb) as Hc.
  rw /erase_simple. do 2 wp_step. iApply wp_bind. iApply (wp_adopt x with "Hx"); [done|].
  iIntros "Hx". iApply wp_bind. iApply (wp_set_link with "Hk [$]"). iIntros "Hk Hn".
  iDestruct (node_block d n with "[Hn Hnx Hny]") as "Hb"; [rw /node; iFrame|].
  destruct c; simpl.
  - iDestruct (plug with "Hk Hx") as "H". iApply wp_ret. iExists _. iFrame.
    iPureIntro. split; [done|]. apply inorder_zip.
  - destruct Hc as [h He]. iApply (wp_wand with "[Hk Hx]"); [iApply (wp_erase_color with "Hk Hx"); done|].
    iIntros (_) "(%t' & H & % & %Ho)". iExists t'. iFrame. iPureIntro. by rw Ho inorder_zip.
Qed.

(** ** [rb_erase] with two children *)

(** The successor is not the right child: its own right child takes its place. *)
Lemma wp_erase_unlink (cy : color) (o y : Z) (l ry : tree) (f : frame) (ks : list frame) (Φ : Z → hprop) :
  spine L (f :: ks) → valid o → valid y →
  is_seg o (f :: ks) y -∗ is_tree y ry -∗ fld y rb_right (ptr ry) -∗ fld o rb_right (top (f :: ks) y) -∗
  (is_seg y (f :: ks) (ptr ry) -∗ is_tree (fp f) ry -∗
   fld y rb_right (top (f :: ks) y) -∗ fld o rb_right (top (f :: ks) y) -∗ Φ (fp f)) -∗
  wp ((if ptr ry =? 0 then mret tt else rb_set_parent (ptr ry) (fp f));;
      st (fp f) rb_left (ptr ry);;
      r ← ld o rb_right; st y rb_right r;;
      r ← ld o rb_right; rb_set_parent r y;; mret (fp f)) Φ.
Proof.
  iIntros (Hs Hvo Hvy) "Hs Hry Hyr Hor HΦ". destruct f as [d c p s]. simpl fp.
  apply Forall_cons_1 in Hs as [E _]; simpl in E; subst d.
  iEval (simpl; rw /node) in "Hs". iDestruct "Hs" as "((Hp & Hpy & Hps) & Hs & Hseg)".
  iPure (hdr_valid with "Hp") as [Hvp Ha].
  iApply wp_bind. iApply (wp_adopt ry with "Hry"); [auto|]. iIntros "Hry".
  iApply wp_bind. iApply (wp_st with "Hpy"); [auto|]. iIntros "Hpy".
  iApply wp_bind. iApply (wp_ld with "Hor"); [auto|]. iIntros "Hor".
  iApply wp_bind. iApply (wp_st with "Hyr"); [auto|]. iIntros "Hyr".
  iApply wp_bind. iApply (wp_ld with "Hor"); [auto|]. iIntros "Hor".
  iApply wp_bind. change (top (F L c p s :: ks) y) with (top (F L c p s :: ks) (ptr ry)).
  iApply (wp_seg_reparent o y (ptr ry) (F L c p s :: ks) with "[Hp Hpy Hps Hs Hseg]");
    [done|auto|simpl; rw /node; iFrame|].
  iIntros "Hseg". iApply wp_ret. iApply ("HΦ" with "Hseg Hry Hyr Hor").
Qed.

(** The tree with the successor in [o]'s place. *)
Lemma erase_order (o y : Z) (c cy : color) (ks k : list frame) (l r ry : tree) :
  red_black (zip k (T c l o r)) → spine L ks → r = zip ks (T cy E y ry) →
  let k' := ks ++ F R c y l :: k in
  match cy with Red => red_black (zip k' ry) | Black => ∃ h, erasing h k' ry end ∧
  inorder (zip k' ry) = before k ++ inorder l ++ inorder r ++ after k.
Proof.
  intros Hb Hs -> k'. split.
  - apply (erase_child R cy k' ry y E). apply (red_black_replace c R o y).
    by rw zip_app.
  - rw /k' !inorder_zip before_app after_app (before_spine _ Hs) /=.
    by rw app_nil_r -!app_assoc.
Qed.

Lemma wp_erase_two (fuel : nat) (root : Z) (k : list frame) (c : color) (l r : tree) (o : Z) :
  red_black (zip k (T c l o r)) → l ≠ E → r ≠ E → (length k + height (T c l o r) < fuel)%nat →
  is_ctx root k o -∗ is_tree (above k) (T c l o r) -∗
  wp (erase_two fuel o root)
     (λ _, ∃ t', tree_at root t' ∗ block o ∗
        ⌜red_black t' ∧ inorder t' = before k ++ inorder l ++ inorder r ++ after k⌝).
Proof.
  iIntros (Hb Hl Hr Hf) "Hk Ht".
  destruct (tip_split L r Hr) as (ks & cy & ry & Hs & Er). remember (tip L r) as y eqn:Ey. simpl mk in Er.
  simpl in Hf. pose proof (height_zip ks (T cy E y ry)) as Hh. rw -Er in Hh.
  simpl. rw /node. iDestruct "Ht" as "((Ho & Hol & Hor) & Hl & Hr)".
  iPure (hdr_valid with "Ho") as [Hvo Ha].
  rw /erase_two. iApply wp_bind. iApply (wp_ld with "Hor"); [auto|]. iIntros "Hor".
  iApply wp_bind. iApply (wp_far L with "Hr"); [done|lia|]. iIntros "Hr". rw -Ey.
  iApply wp_bind. iApply (wp_parent with "Ho"). iIntros "Ho".
  iApply wp_bind. iApply (wp_set_link with "Hk Ho"). iIntros "Hk Ho".
  (* the path from the right child to the successor *)
  iEval (rw Er -is_seg_zip) in "Hr". iEval (rw Er -top_zip; simpl ptr) in "Hor". simpl ptr. iDestruct "Hr" as "(Hseg & Hy)".
  iEval (simpl; rw /node) in "Hy". iDestruct "Hy" as "((Hy & Hyl & Hyr) & _ & Hry)".
  iPure (hdr_valid with "Hy") as [Hvy Ha'].
  iApply wp_bind. iApply (wp_ld with "Hyr"); [auto|]. iIntros "Hyr".
  iApply wp_bind. iApply (wp_parent with "Hy"). iIntros "Hy".
  iApply wp_bind. iApply (wp_color with "Hy"). iIntros "Hy".
  iApply wp_bind.
  iAssert (wp (if seg_above o ks =? o then mret y
     else
       (if ptr ry =? 0 then mret tt else rb_set_parent (ptr ry) (seg_above o ks));;
       st (seg_above o ks) rb_left (ptr ry);;
       r ← ld o rb_right; st y rb_right r;;
       r ← ld o rb_right; rb_set_parent r y;;
       mret (seg_above o ks))
    (λ par, ⌜par = seg_above y ks⌝ ∗ is_seg y ks (ptr ry) ∗ is_tree (seg_above y ks) ry ∗
       fld y rb_right (top ks (ptr ry)) ∗ hdr o c (above k) ∗ ∃ x, fld o rb_right x))%I
    with "[Hseg Hry Hyr Ho Hor]" as "Hmv".
  { destruct ks as [|f ks].
    - simpl. rw Z.eqb_refl. iApply wp_ret. by iFrame.
    - simpl seg_above. iFact (fp f ≠ o) as Hne.
      { destruct f. iEval (simpl; rw /node) in "Hseg". iDestruct "Hseg" as "((Hp & _) & _)".
        iApply (hdr_ne with "Hp Ho"). }
      rw (proj2 (Z.eqb_neq _ _) Hne).
      iApply (wp_erase_unlink with "Hseg Hry Hyr Hor"); [done..|].
      iIntros "? ? ? ?". simpl. destruct f. simpl. by iFrame. }
  iApply (wp_wand with "Hmv"). iIntros (par) "(-> & Hseg & Hry & Hyr & Ho & %x & Hor)".
  rw /hdr. iDestruct "Ho" as "[_ Ho]". iDestruct "Hy" as "[_ Hy]".
  simpl child. iApply wp_bind. iApply (wp_ld with "Ho"); [auto|]. iIntros "Ho".
  iApply wp_bind. iApply (wp_st with "Hy"); [auto|]. iIntros "Hy".
  iApply wp_bind. iApply (wp_ld with "Hol"); [auto|]. iIntros "Hol".
  iApply wp_bind. iApply (wp_st with "Hyl"); [auto|]. iIntros "Hyl".
  iApply wp_bind. iApply (wp_ld with "Hol"); [auto|]. iIntros "Hol".
  iApply wp_bind. iApply (wp_reparent l with "Hl"); [done|auto|]. iIntros "Hl".
  set (k' := ks ++ F R c y l :: k).
  iAssert (is_ctx root k' (ptr ry)) with "[Hseg Hy Hyl Hyr Hl Hk]" as "Hk".
  { rw /k' is_ctx_app /node /hdr. simpl child. by iFrame. }
  iAssert (block o) with "[Ho Hol Hor]" as "Hb"; [iExists _, _, _; iFrame|].
  rw -(above_app ks k R c y l). fold k'.
  destruct (erase_order o y c cy ks k l r ry) as [Hc Ho]; [done..|]. fold k' in Hc, Ho.
  destruct cy; simpl.
  - iDestruct (plug with "Hk Hry") as "H". iApply wp_ret. iExists _. by iFrame.
  - destruct Hc as [h He]. iApply (wp_wand with "[Hk Hry]").
    { iApply (wp_erase_color with "Hk Hry"); [done|]. rw /k' length_app /=. lia. }
    iIntros (_) "(%t' & H & % & %Ho')". iExists t'. iFrame. iPureIntro. by rw Ho' Ho.
Qed.

(** ** The tree as a sequence of nodes *)

Definition rbtree (root : Z) (xs : list Z) : hprop :=
  ∃ t, tree_at root t ∗ ⌜red_black t ∧ inorder t = xs⌝.

(** Fuel for [n] nodes: twice the logarithm. *)
Definition enough (n fuel : nat) : Prop := (2 * Nat.log2 (S n) + 1 < fuel)%nat.

(** A node of the sequence, with its subtree and its context. *)
Lemma rbtree_open (root : Z) (xs ys : list Z) (n : Z) (fuel : nat) :
  enough (length (xs ++ n :: ys)) fuel →
  rbtree root (xs ++ n :: ys) -∗ ∃ k c l r,
    is_ctx root k n ∗ is_tree (above k) (T c l n r) ∗
    ⌜red_black (zip k (T c l n r)) ∧ xs = before k ++ inorder l ∧ ys = inorder r ++ after k ∧
     (length k + height (T c l n r) < fuel)%nat⌝.
Proof.
  iIntros (Hf) "(%t & Ht & %Hb & %Ho)".
  destruct (unzip_at _ _ _ _ Ho) as (k & c & l & r & -> & Hx & Hy).
  rw -is_ctx_tree_at. iDestruct "Ht" as "[Hk Ht]". iExists k, c, l, r. iFrame. iPureIntro.
  split_and!; [done..|]. pose proof (height_zip k (T c l n r)). apply red_black_height in Hb.
  rw Ho in Hb. rw /enough in Hf. lia.
Qed.

Lemma rbtree_close (root : Z) (xs : list Z) (k : list frame) (t : tree) :
  red_black (zip k t) → xs = before k ++ inorder t ++ after k →
  is_ctx root k (ptr t) -∗ is_tree (above k) t -∗ rbtree root xs.
Proof.
  iIntros (Hb ->) "Hk Ht". iDestruct (plug with "Hk Ht") as "H". iExists _. iFrame.
  iPureIntro. split; [done|]. apply inorder_zip.
Qed.

Lemma wp_rb_erase (fuel : nat) (root n : Z) (xs ys : list Z) :
  enough (length (xs ++ n :: ys)) fuel →
  rbtree root (xs ++ n :: ys) -∗ wp (rb_erase fuel n root) (λ _, rbtree root (xs ++ ys) ∗ block n).
Proof.
  iIntros (Hf) "Ht". iDestruct (rbtree_open with "Ht") as (k c l r) "(Hk & Ht & %Hb & -> & -> & %Hf')"; [done|].
  simpl in Hf'. iEval (simpl; rw /node) in "Ht". iDestruct "Ht" as "((Hn & Hnl & Hnr) & Hl & Hr)".
  iPure (hdr_valid with "Hn") as [Hvn _]. simpl child. rw /rb_erase.
  iApply (wp_wand _ (λ _, ∃ t', tree_at root t' ∗ block n ∗
        ⌜red_black t' ∧ inorder t' = before k ++ inorder l ++ inorder r ++ after k⌝)%I with "[-]").
  2:{ iIntros (_) "(%t' & H & $ & % & %Ho)". iExists t'. iFrame. iPureIntro. by rw Ho -!app_assoc. }
  iApply wp_bind. iApply (wp_ld with "Hnl"); [auto|]. iIntros "Hnl".
  iPure (is_tree_ptr with "Hl") as [[-> El]|[Hl _]].
  { rw El. iApply wp_bind. iApply (wp_ld with "Hnr"); [auto|]. iIntros "Hnr". 
    iApply (wp_erase_simple fuel R root k c r n with "Hk [-]"); [done|lia|].
    simpl. rw /node. iFrame. }
  rw (proj2 (Z.eqb_neq _ _) Hl). iApply wp_bind. iApply (wp_ld with "Hnr"); [auto|]. iIntros "Hnr".
  iPure (is_tree_ptr with "Hr") as [[-> Er]|[Hr _]].
  { rw Er. iApply wp_bind. iApply (wp_ld with "Hnl"); [auto|]. iIntros "Hnl". 
    iApply (wp_erase_simple fuel L root k c l n with "Hk [-]"); [done|lia|].
    simpl. rw /node. iFrame. }
  rw (proj2 (Z.eqb_neq _ _) Hr).
  iApply (wp_erase_two fuel root k c l r n with "Hk [-]"); [done|by intros ->|by intros ->|simpl; lia|].
  simpl. rw /node. iFrame.
Qed.

(** ** First, last, next and previous *)

Lemma wp_rb_end (d : dir) (fuel : nat) (root : Z) (xs : list Z) :
  enough (length xs) fuel →
  rbtree root xs -∗ wp (rb_end d fuel root) (λ p, rbtree root xs ∗ ⌜p = first d xs⌝).
Proof.
  iIntros (Hf) "(%t & (%Hr & Hl & Ht) & %Hb & <-)". rw /rb_end. iApply wp_bind.
  iApply (wp_ld with "Hl"); [done|]. iIntros "Hl".
  iPure (is_tree_ptr with "Ht") as [[-> Et]|[Hne _]].
  - rw Et. iApply wp_ret. iSplit; [|by destruct d]. iExists E. rw /tree_at Et. by iFrame.
  - rw (proj2 (Z.eqb_neq _ _) Hne). apply red_black_height in Hb as Hh. rw /enough in Hf.
    iApply (wp_far with "Ht"); [by intros ->|lia|]. iIntros "Ht". rw tip_first.
    iSplit; [|done]. iExists t. by iFrame.
Qed.

Lemma wp_climb (d : dir) (fuel : nat) (root : Z) (k : list frame) (t : tree) :
  t ≠ E → (length k < fuel)%nat →
  is_ctx root k (ptr t) -∗ is_tree (above k) t -∗
  wp (climb d fuel (ptr t)) (λ p, tree_at root (zip k t) ∗ ⌜p = up d k⌝).
Proof.
  revert k t. induction fuel as [|fuel IH]; iIntros (k t HE Hf) "Hk Ht"; [lia|].
  cbn [climb]. iApply wp_bind. iApply (wp_parent_tree with "Ht"); [done|]. iIntros "Ht".
  destruct k as [|[d' c p s] k]; simpl above.
  { iApply wp_ret. iSplit; [|done]. iApply (plug root [] with "Hk Ht"). }
  iEval (simpl; rw /node) in "Hk". iDestruct "Hk" as "((Hp & Hpt & Hps) & Hs & Hk)".
  iPure (hdr_valid with "Hp") as [Hvp _]. rw (proj2 (Z.eqb_neq _ _) (valid_ne _ Hvp)).
  iPure (is_tree_ne with "Ht Hs") as Hne; [done|]. simpl up. iApply wp_bind.
  destruct (decide (d' = d)) as [->|Hd].
  - iApply (wp_ld with "Hpt"); [auto|]. iIntros "Hpt". rw Z.eqb_refl.
    iEval (rw -{1}(ptr_mk d c t p s)). iApply (IH k (mk d c t p s) with "[Hk]");
      [by destruct d|simpl in Hf; lia|by rw ptr_mk|].
    rw is_tree_mk /node. iFrame.
  - assert (d = opp d') as -> by (by destruct d, d').
    iApply (wp_ld with "Hps"); [auto|]. iIntros "Hps". rw (proj2 (Z.eqb_neq _ _) Hne).
    iApply wp_ret. iSplit; [|done]. iApply (plug root (F d' c p s :: k) with "[-Ht] Ht").
    simpl. rw /node. iFrame.
Qed.

Lemma wp_rb_step (d : dir) (fuel : nat) (root n : Z) (xs ys : list Z) :
  enough (length (xs ++ n :: ys)) fuel →
  rbtree root (xs ++ n :: ys) -∗
  wp (rb_step d fuel n) (λ p, rbtree root (xs ++ n :: ys) ∗
    ⌜p = match d with R => first L ys | L => first R xs end⌝).
Proof.
  iIntros (Hf) "Ht". iDestruct (rbtree_open with "Ht") as (k c l r) "(Hk & Ht & %Hb & -> & -> & %Hf')"; [done|].
  destruct (mk_cases d c l n r) as (x & y & Em).
  iAssert (∀ p, tree_at root (zip k (T c l n r)) -∗
    ⌜p = match x with E => up d k | _ => tip (opp d) x end⌝ -∗
    rbtree root ((before k ++ inorder l) ++ n :: inorder r ++ after k) ∗
    ⌜p = match d with R => first L (inorder r ++ after k) | L => first R (before k ++ inorder l) end⌝)%I
    as "Hend".
  { iIntros (p) "Ht ->". iSplit.
    - iExists _. iFrame. iPureIntro. split; [done|]. by rw inorder_zip /= -!app_assoc.
    - iPureIntro. rw up_first tip_first. destruct d; injection Em as <- <-; simpl opp.
      + rw (first_app R). destruct l; simpl; [done|]. rw decide_False; [done|]. by destruct (inorder l1).
      + rw (first_app L). destruct r; simpl; [done|]. rw decide_False; [done|]. by destruct (inorder r1). }
  iEval (rw Em) in "Ht". rw Em height_mk in Hf'.
  iFact (above k ≠ n) as Hne.
  { rw is_tree_mk /node. iDestruct "Ht" as "((Hn & _) & _)". destruct k as [|[d' c' p s] k]; simpl.
    - iPure (hdr_valid with "Hn") as [Hn _]. iPureIntro. apply valid_ne in Hn. auto.
    - rw /node. iDestruct "Hk" as "((Hp & _) & _)". iApply (hdr_ne with "Hp Hn"). }
  rw is_tree_mk /node. iDestruct "Ht" as "((Hn & Hnx & Hny) & Hx & Hy)".
  iPure (hdr_valid with "Hn") as [Hvn _]. rw /rb_step.
  iApply wp_bind. iApply (wp_parent with "Hn"). iIntros "Hn". rw (proj2 (Z.eqb_neq _ _) Hne).
  iApply wp_bind. iApply (wp_ld with "Hnx"); [auto|]. iIntros "Hnx".
  iPure (is_tree_ptr with "Hx") as [[-> Ex]|[Hx _]].
  - rw Ex. iApply (wp_wand with "[-Hend]").
    + iEval (rw -{1}(ptr_mk d c E n y)).
      iApply (wp_climb d fuel root k (mk d c E n y) with "[Hk]"); [by destruct d|lia|by rw ptr_mk|].
      rw is_tree_mk /node Ex. iFrame.
    + iIntros (p) "[Ht %Hp]". rw -Em. iApply ("Hend" with "Ht"). done.
  - rw (proj2 (Z.eqb_neq _ _) Hx). iApply wp_bind. iApply (wp_ld with "Hnx"); [auto|]. iIntros "Hnx".
    iApply (wp_far with "Hx"); [by intros ->|lia|]. iIntros "Hx". iApply ("Hend" with "[-]").
    + rw Em. iApply (plug with "[Hk] [-]"); [by rw ptr_mk|]. rw is_tree_mk /node. iFrame.
    + by destruct x.
Qed.

(** ** A new node, and a replaced one *)

(** The address of the link to the hole. *)
Definition link (root : Z) (k : list frame) : Z :=
  match k with [] => root + rb_node | F d _ p _ :: _ => p + child d end.

Lemma fld_shift (p o v : Z) : fld p o v ⊣⊢ fld (p + o) 0 v.
Proof. by rw /fld Z.add_0_r. Qed.

(** The link as a word of its own. *)
Lemma is_ctx_link (root : Z) (k : list frame) (h : Z) :
  0 < root → is_ctx root k h -∗ ⌜link root k ≠ 0⌝ ∗ fld (link root k) 0 h ∗
    (∀ h', fld (link root k) 0 h' -∗ is_ctx root k h').
Proof.
  iIntros (Hroot). destruct k as [|[d c p s] k]; simpl.
  - rw (fld_shift root). iIntros "[% $]". iSplit; [rw /rb_node; iPureIntro; lia|].
    iIntros (h') "H". rw (fld_shift root). by iFrame.
  - iIntros "(Hn & $ & $)". iPure (node_valid with "Hn") as [[Hv _] _]. rw /node.
    rw (fld_shift p (child d)). iDestruct "Hn" as "($ & $ & $)". iSplit.
    + iPureIntro. destruct d; simpl; unfold rb_left, rb_right; lia.
    + iIntros (h') "H". rw (fld_shift p (child d)). iFrame.
Qed.

Lemma wp_rb_insert (fuel : nat) (root n : Z) (k : list frame) :
  0 < root → valid n → red_black (zip k E) → enough (S (length (inorder (zip k E)))) fuel →
  is_ctx root k 0 -∗ block n -∗
  wp (rb_link_node n (above k) (link root k);; rb_insert_color fuel n root)
     (λ _, rbtree root (before k ++ n :: after k)).
Proof.
  iIntros (Hroot Hn Hb Hf) "Hk (%pc & %x & %y & Hp & Hx & Hy)". rw /rb_link_node.
  iPure (is_ctx_above with "Hk") as Ha.
  iDestruct (is_ctx_link with "Hk") as "(%Hl & Hlk & Hk)"; [done|].
  iApply wp_bind. iApply wp_bind. iApply (wp_st with "Hp"); [auto|]. iIntros "Hp".
  iApply wp_bind. iApply (wp_st with "Hy"); [auto|]. iIntros "Hy".
  iApply wp_bind. iApply (wp_st with "Hx"); [auto|]. iIntros "Hx".
  iApply (wp_st with "Hlk"); [done|]. iIntros "Hlk". iSpecialize ("Hk" with "Hlk").
  pose proof (rb_unzip _ _ Hb) as (c & h & Hc & Hh). inversion Hh; subst.
  iApply (wp_wand with "[-]").
  - iApply (wp_insert_color fuel 0 root k (T Red E n E) with "Hk [-]").
    + exists c, E, n, E. auto with rb.
    + pose proof (height_zip k E). apply red_black_height in Hb. rw /enough in Hf.
      pose proof (Nat.log2_le_mono (S (length (inorder (zip k E)))) (S (S (length (inorder (zip k E)))))).
      simpl in *. lia.
    + simpl. rw /node /hdr /= Z.add_0_r. by iFrame.
  - iIntros (_) "(%t & Ht & % & %Ho)". iExists t. iFrame. iPureIntro. split; [done|].
    by rw Ho inorder_zip.
Qed.

Lemma wp_rb_replace_node (root v n : Z) (xs ys : list Z) :
  valid n →
  rbtree root (xs ++ v :: ys) -∗ block n -∗
  wp (rb_replace_node v n root) (λ _, rbtree root (xs ++ n :: ys) ∗ block v).
Proof.
  iIntros (Hn) "Ht (%pc & %x & %y & Hp & Hx & Hy)".
  assert (∃ fuel, enough (length (xs ++ v :: ys)) fuel) as [fuel Hf] by (eexists; apply Nat.lt_succ_diag_r).
  iDestruct (rbtree_open with "Ht") as (k c l r) "(Hk & Ht & %Hb & -> & -> & _)"; [done|].
  iEval (simpl; rw /node) in "Ht". iDestruct "Ht" as "((Hv & Hvl & Hvr) & Hl & Hr)".
  iPure (hdr_valid with "Hv") as [Hvv Ha]. simpl child. rw /rb_replace_node.
  iApply wp_bind. iApply (wp_parent with "Hv"). iIntros "Hv".
  iApply wp_bind. iApply (wp_set_link with "Hk Hv"). iIntros "Hk Hv".
  iApply wp_bind. iApply (wp_ld with "Hvl"); [auto|]. iIntros "Hvl".
  iApply wp_bind. iApply (wp_adopt_ld l with "Hl Hvl"); [auto..|]. iIntros "Hl Hvl".
  iApply wp_bind. iApply (wp_ld with "Hvr"); [auto|]. iIntros "Hvr".
  iApply wp_bind. iApply (wp_adopt_ld r with "Hr Hvr"); [auto..|]. iIntros "Hr Hvr".
  rw /hdr. iDestruct "Hv" as "[_ Hv]".
  iApply wp_bind. iApply (wp_ld with "Hv"); [auto|]. iIntros "Hv".
  iApply wp_bind. iApply (wp_ld with "Hvr"); [auto|]. iIntros "Hvr".
  iApply wp_bind. iApply (wp_ld with "Hvl"); [auto|]. iIntros "Hvl".
  iApply wp_bind. iApply (wp_st with "Hp"); [auto|]. iIntros "Hp".
  iApply wp_bind. iApply (wp_st with "Hy"); [auto|]. iIntros "Hy".
  iApply (wp_st with "Hx"); [auto|]. iIntros "Hx".
  iSplitR "Hv Hvl Hvr"; [|iExists _, _, _; iFrame].
  iApply (rbtree_close root _ k (T c l n r) with "Hk [-]").
  - destruct (rb_unzip _ _ Hb) as (c' & h & Hk & Ht). eapply rb_zip; [done|].
    inversion Ht; subst; auto with rb.
  - simpl. by rw -!app_assoc.
  - simpl. rw /node /hdr. by iFrame.
Qed.

End ops.
