(* ===== verification/RbSpec.v ===== *)
(** * What the red-black tree operations do, in the plain memory

    The footprints of a node, of a tree with its root link and of a node
    outside the tree, and the operations of rbtree.c as triples on them: each
    has a result in every memory that holds the footprint, with fuel for twice
    the logarithm of the number of nodes. *)

From iris.proofmode Require Import proofmode environments.
From S2P Require Import Prelude WordMem Rbtree RbTrees RbMem RbErase RbOps.

(** ** Footprints *)

Definition node_fp (p : Z) (c : color) (par x y : Z) : footprint :=
  fp_pure (valid p ∧ aligned par) ⊗ fp_cell p rb_parent_color (par + cval c) ⊗
  fp_cell p rb_left x ⊗ fp_cell p rb_right y.

Fixpoint subtree_fp (par : Z) (t : tree) : footprint :=
  match t with
  | E => fp_pure True
  | T c l p r => node_fp p c par (ptr l) (ptr r) ⊗ subtree_fp p l ⊗ subtree_fp p r
  end.

(** A red-black tree of the nodes [xs], in this order. *)
Definition tree_fp (root : Z) (xs : list Z) : footprint :=
  fp_ex (λ t, fp_pure (root ≠ 0) ⊗ fp_cell root rb_node (ptr t) ⊗ subtree_fp 0 t ⊗
    fp_pure (red_black t ∧ inorder t = xs)).

Definition block_fp (p : Z) : footprint :=
  fp_ex (λ pc, fp_ex (λ x, fp_ex (λ y,
    fp_cell p rb_parent_color pc ⊗ fp_cell p rb_left x ⊗ fp_cell p rb_right y))).

Section covers.

#[export] Instance covers_node (p : Z) (c : color) (par x y : Z) :
  Covers (node L p c par x y) (node_fp p c par x y).
Proof.
  rw /node /hdr /node_fp. simpl child.
  assert (∀ A B C D : hprop, (A ∗ B) ∗ C ∗ D ⊣⊢ A ∗ B ∗ C ∗ D) as ->
    by (intros; iSplit; [iIntros "[[$ $] $]"|iIntros "($ & $ & $)"]).
  apply _.
Qed.

#[export] Instance covers_tree (par : Z) (t : tree) : Covers (is_tree par t) (subtree_fp par t).
Proof.
  revert par. induction t as [|c l IHl p r IHr]; intros par; simpl; [|apply _].
  assert ((emp : hprop) ⊣⊢ ⌜True⌝) as Hemp by (iSplit; auto).
  rw /Covers Hemp. apply covers_pure.
Qed.

#[export] Instance covers_rbtree (root : Z) (xs : list Z) : Covers (rbtree root xs) (tree_fp root xs).
Proof.
  rw /rbtree /tree_at /tree_fp. apply covers_ex. intros t.
  assert (∀ A B C D : hprop, (A ∗ B ∗ C) ∗ D ⊣⊢ A ∗ B ∗ C ∗ D) as ->
    by (intros; iSplit; [iIntros "[($ & $ & $) $]"|iIntros "($ & $ & $ & $)"]).
  apply _.
Qed.

#[export] Instance covers_block (p : Z) : Covers (block p) (block_fp p).
Proof. rw /block /block_fp. apply _. Qed.
End covers.

(** The tree with the empty link [lnk] between the nodes [xs] and [ys], below [par]. *)
Definition hole_at (k : list frame) (root : Z) (xs ys : list Z) (par lnk : Z) : Prop :=
  0 < root ∧ red_black (zip k E) ∧ before k = xs ∧ after k = ys ∧ par = above k ∧ lnk = link root k.

Definition hole_fp (root : Z) (xs ys : list Z) (par lnk : Z) : footprint :=
  fp_ex (λ k, fp_pure (hole_at k root xs ys par lnk) ⊗
    fp_cell root rb_node (ptr (zip k E)) ⊗ subtree_fp 0 (zip k E)).

Section hole.

Definition hole (root : Z) (xs ys : list Z) (par lnk : Z) : hprop :=
  ∃ k, ⌜hole_at k root xs ys par lnk⌝ ∗ fld root rb_node (ptr (zip k E)) ∗ is_tree 0 (zip k E).

#[export] Instance covers_hole (root : Z) (xs ys : list Z) (par lnk : Z) :
  Covers (hole root xs ys par lnk) (hole_fp root xs ys par lnk).
Proof. rw /hole /hole_fp. apply _. Qed.

Lemma wp_insert_at_hole (fuel : nat) (root n par lnk : Z) (xs ys : list Z) :
  enough (S (length (xs ++ ys))) fuel →
  hole root xs ys par lnk ∗ ⌜valid n⌝ ∗ block n -∗
  wp (rb_link_node n par lnk;; rb_insert_color fuel n root) (λ _, rbtree root (xs ++ n :: ys)).
Proof.
  iIntros (Hf) "((%k & %H & Hl & Ht) & %Hn & Hb)". destruct H as (Hr & Hb & <- & <- & -> & ->).
  iAssert (tree_at root (zip k E)) with "[Hl Ht]" as "H"; [rw /tree_at; iFrame; iPureIntro; lia|].
  rw -is_ctx_tree_at. iDestruct "H" as "[Hk _]".
  iApply (wp_rb_insert with "Hk Hb"); [done..|]. by rw inorder_zip.
Qed.

End hole.

(** ** The operations *)

(** C8: Erasure: [rb_erase] on a red-black tree of the nodes [xs ++ n :: ys] has a result,
    with fuel logarithmic in the number of nodes; it leaves a red-black tree of
    [xs ++ ys] in the same order, the three words of [n] are outside it, and no
    other word of the memory has changed. *)
Theorem rb_erase_correct (fuel : nat) (root n : Z) (xs ys : list Z) :
  enough (length (xs ++ n :: ys)) fuel →
  triple (tree_fp root (xs ++ n :: ys)) (rb_erase fuel n root)
    (λ _, tree_fp root (xs ++ ys) ⊗ block_fp n).
Proof.
  intros Hf. apply wp_triple. do 2 eexists. split_and!; [apply _|intros; apply _|].
  by apply bi.wand_entails, wp_rb_erase.
Qed.

(** C15: Insertion: [rb_link_node] at the empty link between [xs] and [ys] followed by
    [rb_insert_color] has a result, with fuel logarithmic in the number of nodes, and
    leaves a red-black tree of the nodes [xs ++ n :: ys] in this order; no word
    outside the tree and the new node has changed. *)
Theorem rb_insert_correct (fuel : nat) (root n par lnk : Z) (xs ys : list Z) :
  enough (S (length (xs ++ ys))) fuel →
  triple (hole_fp root xs ys par lnk ⊗ fp_pure (valid n) ⊗ block_fp n)
    (rb_link_node n par lnk;; rb_insert_color fuel n root)
    (λ _, tree_fp root (xs ++ n :: ys)).
Proof.
  intros Hf. apply wp_triple. do 2 eexists. split_and!; [apply _|intros; apply _|].
  by apply bi.wand_entails, wp_insert_at_hole.
Qed.

(** [rb_replace_node] puts a node in the place of another. *)
Theorem rb_replace_node_correct (root v n : Z) (xs ys : list Z) :
  triple (tree_fp root (xs ++ v :: ys) ⊗ fp_pure (valid n) ⊗ block_fp n)
    (rb_replace_node v n root) (λ _, tree_fp root (xs ++ n :: ys) ⊗ block_fp v).
Proof.
  apply wp_triple. do 2 eexists. split_and!; [apply _|intros; apply _|].
  iIntros "(Ht & %Hn & Hb)". by iApply (wp_rb_replace_node with "Ht Hb").
Qed.

(** C34: Traversal: on a red-black tree of the nodes [xs], with fuel logarithmic in
    their number, the loops of [rb_first] and [rb_last] end at the first and the
    last node (NULL in the empty tree), and those of [rb_next] and [rb_prev], from
    any node of the tree, at the node after and the node before it (NULL at the
    ends); the tree and the memory are as before. *)
Theorem rb_walk_terminates (fuel : nat) (root : Z) (xs : list Z) :
  enough (length xs) fuel →
  triple (tree_fp root xs) (rb_first fuel root)
    (λ p, tree_fp root xs ⊗ fp_pure (p = default 0 (head xs))) ∧
  triple (tree_fp root xs) (rb_last fuel root)
    (λ p, tree_fp root xs ⊗ fp_pure (p = default 0 (last xs))) ∧
  ∀ ys n zs, xs = ys ++ n :: zs →
    triple (tree_fp root xs) (rb_next fuel n)
      (λ p, tree_fp root xs ⊗ fp_pure (p = default 0 (head zs))) ∧
    triple (tree_fp root xs) (rb_prev fuel n)
      (λ p, tree_fp root xs ⊗ fp_pure (p = default 0 (last ys))).
Proof.
  intros Hf. split_and!; [| |intros ys n zs ->; split];
    apply wp_triple; (do 2 eexists; split_and!; [apply _|intros; apply _|]);
    apply bi.wand_entails;
    [by apply (wp_rb_end L)|by apply (wp_rb_end R)|by apply (wp_rb_step R)|by apply (wp_rb_step L)].
Qed.

(** ** Concrete trees *)

(** Three nodes at 128, 192 and 256, the second at the root. *)
Definition three : tree := T Black (T Red E 128 E) 192 (T Red E 256 E).
Definition three_cells : list (Z * Z) :=
  [(64, 192); (192, 1); (208, 128); (200, 256); (128, 192); (144, 0); (136, 0);
   (256, 192); (272, 0); (264, 0)].

Lemma three_red_black : red_black three.
Proof. exists 1%nat. repeat constructor. Qed.

Lemma three_fp : tree_fp 64 [128; 192; 256] three_cells.
Proof.
  apply (fp_ex_intro _ three). simpl. unfold node_fp. fp_build; try done.
  split; [apply three_red_black|done].
Qed.

Lemma rb_erase_correct_witness :
  ∃ a m' cs', rb_erase 10 192 64 (list_to_map three_cells) = Some (a, m') ∧
    (tree_fp 64 [128; 256] ⊗ block_fp 192) cs' ∧ holds m' cs' ∧
    outside cs' m' = ∅.
Proof.
  refine (rb_erase_correct 10 64 192 [128] [256] _ (list_to_map three_cells) three_cells _ _).
  - vm_compute. lia.
  - exact three_fp.
  - apply holds_list_to_map. vm_compute. reflexivity.
Defined.

(** A fourth node, at 320, linked at the right of the last one. *)
Definition four_cells : list (Z * Z) := three_cells ++ [(320, 5); (336, 6); (328, 7)].

Lemma rb_insert_correct_witness :
  ∃ a m' cs', (rb_link_node 320 256 264;; rb_insert_color 10 320 64) (list_to_map four_cells) = Some (a, m') ∧
    tree_fp 64 [128; 192; 256; 320] cs' ∧ holds m' cs' ∧
    outside cs' m' = ∅.
Proof.
  refine (rb_insert_correct 10 64 320 256 264 [128; 192; 256] [] _ (list_to_map four_cells) four_cells _ _).
  - vm_compute. lia.
  - eapply fp_sep_intro; [|unfold block_fp; fp_build; done|reflexivity].
    apply (fp_ex_intro _ [F R Red 256 E; F R Black 192 (T Red E 128 E)]). simpl. unfold node_fp.
    fp_build; try done. split_and!; try done. apply three_red_black.
  - apply holds_list_to_map. vm_compute. reflexivity.
Defined.

Lemma rb_walk_terminates_witness :
  ∃ a m' cs', rb_next 10 128 (list_to_map three_cells) = Some (a, m') ∧
    (tree_fp 64 [128; 192; 256] ⊗ fp_pure (a = 192)) cs' ∧ holds m' cs' ∧
    outside cs' m' = ∅.
Proof.
  refine (proj1 (proj2 (proj2 (rb_walk_terminates 10 64 [128; 192; 256] _)) [] 128 [192; 256] eq_refl)
    (list_to_map three_cells) three_cells _ _).
  - vm_compute. lia.
  - exact three_fp.
  - apply holds_list_to_map. vm_compute. reflexivity.
Defined.
