(* ===== verification/RbClient.v ===== *)
(** * A set of integers on the red-black tree (rbtree/myrbtree.c)

    [rbset root xs]: the tree at the root holds the pairs [xs] of a node and its
    number, in increasing order of the numbers.  Search, insertion, deletion
    and printing on it, and any sequence of them against the operations on a
    sorted list. *)

From stdpp Require Import sorting.
From iris.proofmode Require Import proofmode environments.
From S2P Require Import Prelude WordMem Rbtree RbTrees RbMem RbErase RbOps RbSpec.

(** ** Sorted lists of nodes and numbers *)

Definition ordered (xs : list (Z * Z)) : Prop := StronglySorted Z.lt xs.*2.

(** The node with the number [n], or NULL. *)
Fixpoint find_num (n : Z) (xs : list (Z * Z)) : Z :=
  match xs with [] => 0 | (p, v) :: xs => if v =? n then p else find_num n xs end.

Definition less (n : Z) (xs : list (Z * Z)) : list (Z * Z) := filter (λ x, x.2 < n) xs.
Definition more (n : Z) (xs : list (Z * Z)) : list (Z * Z) := filter (λ x, n < x.2) xs.
Definition without (n : Z) (xs : list (Z * Z)) : list (Z * Z) := filter (λ x, x.2 ≠ n) xs.

Lemma Forall_snd (P : Z → Prop) (xs : list (Z * Z)) : Forall P xs.*2 → Forall (λ x, P x.2) xs.
Proof. exact (proj1 (Forall_fmap _ _ _)). Qed.

Lemma ordered_split (xs ys : list (Z * Z)) (p v : Z) :
  ordered (xs ++ (p, v) :: ys) →
  ordered xs ∧ ordered ys ∧ Forall (λ x, x.2 < v) xs ∧ Forall (λ y, v < y.2) ys.
Proof.
  rw /ordered fmap_app fmap_cons StronglySorted_app StronglySorted_cons.
  intros (H & Hx & Hy & Hs). split_and!; [done|done| |by apply Forall_snd in Hy].
  apply Forall_forall. intros x Hin. apply H; [by apply list_elem_of_fmap_2|by left].
Qed.

Lemma ordered_remove (xs ys : list (Z * Z)) (p v : Z) :
  ordered (xs ++ (p, v) :: ys) → ordered (xs ++ ys).
Proof.
  rw /ordered !fmap_app fmap_cons !StronglySorted_app StronglySorted_cons.
  intros (H & Hx & Hy & Hs). split_and!; [|done|done]. intros a b Ha Hb. apply H; [done|by right].
Qed.

(** Filters on one side of a number. *)
Lemma filter_all (P : Z * Z → Prop) `{∀ x, Decision (P x)} (xs : list (Z * Z)) :
  Forall P xs → filter P xs = xs.
Proof. induction 1; [done|]. by rw filter_cons_True // IHForall. Qed.

Lemma filter_nothing (P : Z * Z → Prop) `{∀ x, Decision (P x)} (xs : list (Z * Z)) :
  Forall (λ x, ¬ P x) xs → filter P xs = [].
Proof. induction 1; [done|]. by rw filter_cons_False. Qed.

Lemma find_num_app (n : Z) (xs ys : list (Z * Z)) :
  Forall (λ x, x.2 ≠ n) xs → find_num n (xs ++ ys) = find_num n ys.
Proof.
  induction 1 as [|[p v] xs Hv _ IH]; [done|]. simpl in *. by rw (proj2 (Z.eqb_neq _ _) Hv).
Qed.

Lemma find_num_none (n : Z) (xs : list (Z * Z)) : Forall (λ x, x.2 ≠ n) xs → find_num n xs = 0.
Proof. intros H. rw -(app_nil_r xs). by rw find_num_app. Qed.

(** What is looked for is on one side of the root. *)
Lemma search_left (n v p : Z) (xs ys : list (Z * Z)) :
  n < v → Forall (λ y, v < y.2) ys →
  find_num n (xs ++ (p, v) :: ys) = find_num n xs ∧
  less n (xs ++ (p, v) :: ys) = less n xs ∧ more n (xs ++ (p, v) :: ys) = more n xs ++ (p, v) :: ys.
Proof.
  intros Hn Hy. split_and!.
  - induction xs as [|[q w] xs IH]; simpl; [|by rw IH].
    rw (proj2 (Z.eqb_neq v n)); [|lia]. apply find_num_none. eapply Forall_impl; [done|]. simpl; lia.
  - rw /less filter_app filter_cons_False /=; [|lia]. rw (filter_nothing _ ys) ?app_nil_r //.
    eapply Forall_impl; [done|]. simpl; lia.
  - rw /more filter_app filter_cons_True //. f_equal. f_equal. apply filter_all.
    eapply Forall_impl; [done|]. simpl; lia.
Qed.

Lemma search_right (n v p : Z) (xs ys : list (Z * Z)) :
  v < n → Forall (λ x, x.2 < v) xs →
  find_num n (xs ++ (p, v) :: ys) = find_num n ys ∧
  less n (xs ++ (p, v) :: ys) = xs ++ (p, v) :: less n ys ∧ more n (xs ++ (p, v) :: ys) = more n ys.
Proof.
  intros Hn Hx. split_and!.
  - rw find_num_app; [|eapply Forall_impl; [done|]; simpl; lia]. simpl.
    by rw (proj2 (Z.eqb_neq v n)); [|lia].
  - rw /less filter_app filter_cons_True //. f_equal. apply filter_all.
    eapply Forall_impl; [done|]. simpl; lia.
  - rw /more filter_app filter_cons_False /=; [|lia]. rw (filter_nothing _ xs) //.
    eapply Forall_impl; [done|]. simpl; lia.
Qed.

Lemma search_here (n p : Z) (xs ys : list (Z * Z)) :
  Forall (λ x, x.2 < n) xs → find_num n (xs ++ (p, n) :: ys) = p.
Proof.
  intros Hx. rw find_num_app; [|eapply Forall_impl; [done|]; simpl; lia]. simpl. by rw Z.eqb_refl.
Qed.

Lemma not_in_num (n : Z) (xs : list (Z * Z)) : Forall (λ x, x.2 ≠ n) xs → n ∉ xs.*2.
Proof.
  intros Hx (y & -> & Hin)%list_elem_of_fmap. rw Forall_forall in Hx. by apply (Hx _ Hin).
Qed.

Lemma not_in_mid (n p v : Z) (xs ys : list (Z * Z)) :
  n ∉ xs.*2 → v ≠ n → n ∉ ys.*2 → n ∉ (xs ++ (p, v) :: ys).*2.
Proof.
  intros Hx Hv Hy. rw fmap_app fmap_cons. by intros [|[->|]%elem_of_cons]%elem_of_app.
Qed.

(** The pairs of the nodes of a tree, split at its root. *)
Lemma pairs_split (l r : list Z) (p : Z) (xs : list (Z * Z)) :
  l ++ p :: r = xs.*1 → ∃ xl v xr, xs = xl ++ (p, v) :: xr ∧ l = xl.*1 ∧ r = xr.*1.
Proof.
  intros E. symmetry in E. apply fmap_app_inv in E as (xl & xr & -> & E & ->).
  destruct xr as [|[q v] xr]; simplify_eq/=. by exists xl, v, xr.
Qed.

(** ** Sequences of operations *)

Inductive op :=
  | Insert (p n : Z)  (* a block the program has allocated, and the number *)
  | Delete (n : Z)
  | Search (n : Z)
  | Print.

Inductive outcome := Code (r : Z) | Block (p : Z) | Numbers (ns : list Z).

Definition run_op (fuel : nat) (root : Z) (o : op) : M outcome :=
  match o with
  | Insert p n => st p num n;; r ← my_insert fuel root p; mret (Code r)
  | Delete n => p ← my_delete fuel root n; mret (Block p)
  | Search n => p ← my_search fuel root n; mret (Block p)
  | Print => ns ← print_rbtree fuel root; mret (Numbers ns)
  end.

Fixpoint run_ops (fuel : nat) (root : Z) (os : list op) : M (list outcome) :=
  match os with
  | [] => mret []
  | o :: os => r ← run_op fuel root o; rs ← run_ops fuel root os; mret (r :: rs)
  end.

(** A block taken from a list of them. *)
Fixpoint take_out (p : Z) (free : list Z) : option (list Z) :=
  match free with
  | [] => None
  | q :: free => if q =? p then Some free else free' ← take_out p free; Some (q :: free')
  end.

Lemma take_out_perm (p : Z) (free free' : list Z) : take_out p free = Some free' → free ≡ₚ p :: free'.
Proof.
  revert free'. induction free as [|q free IH]; intros free'; simpl; [done|].
  destruct (Z.eqb_spec q p) as [->|]; [by intros [= ->]|].
  intros (fs & H & [= <-])%bind_Some. rw (IH _ H). constructor.
Qed.

(** The same on a sorted list of pairs and the list of the blocks outside it. *)
Definition spec_op (o : op) (s : list (Z * Z) * list Z) : option (outcome * (list (Z * Z) * list Z)) :=
  let '(xs, free) := s in
  match o with
  | Insert p n =>
    free' ← take_out p free;
    if decide (n ∈ xs.*2) then Some (Code (-1), (xs, free))
    else Some (Code 0, (less n xs ++ (p, n) :: more n xs, free'))
  | Delete n =>
    let p := find_num n xs in
    Some (Block p, (without n xs, if decide (n ∈ xs.*2) then p :: free else free))
  | Search n => Some (Block (find_num n xs), (xs, free))
  | Print => Some (Numbers xs.*2, (xs, free))
  end.

Fixpoint spec_ops (os : list op) (s : list (Z * Z) * list Z) :
    option (list outcome * (list (Z * Z) * list Z)) :=
  match os with
  | [] => Some ([], s)
  | o :: os => '(r, s) ← spec_op o s; '(rs, s) ← spec_ops os s; Some (r :: rs, s)
  end.

Section client.

(** The numbers. *)
Definition nums (xs : list (Z * Z)) : hprop := [∗ list] x ∈ xs, fld x.1 num x.2.

Lemma nums_app (xs ys : list (Z * Z)) : nums (xs ++ ys) ⊣⊢ nums xs ∗ nums ys.
Proof. apply big_sepL_app. Qed.

Lemma nums_mid (xs ys : list (Z * Z)) (p v : Z) :
  nums (xs ++ (p, v) :: ys) ⊣⊢ nums xs ∗ fld p num v ∗ nums ys.
Proof. by rw nums_app /nums big_sepL_cons. Qed.

(** ** Search *)

Lemma wp_search_loop (fuel : nat) (par n : Z) (t : tree) (xs : list (Z * Z)) (Φ : Z → hprop) :
  inorder t = xs.*1 → ordered xs → (height t < fuel)%nat →
  is_tree par t -∗ nums xs -∗ (is_tree par t -∗ nums xs -∗ Φ (find_num n xs)) -∗
  wp (search_loop fuel (ptr t) n) Φ.
Proof.
  revert par t xs Φ. induction fuel as [|fuel IH]; iIntros (par t xs Φ Ho Hs Hf) "Ht Hx HΦ"; [lia|].
  cbn [search_loop]. destruct t as [|c l p r].
  { destruct xs; [|done]. iApply wp_ret. iApply ("HΦ" with "Ht Hx"). }
  destruct (pairs_split _ _ _ _ Ho) as (xl & v & xr & -> & Hl & Hr).
  destruct (ordered_split _ _ _ _ Hs) as (Sl & Sr & Fl & Fr).
  simpl in Hf. iEval (simpl; rw /node) in "Ht". iDestruct "Ht" as "((Hp & Hpl & Hpr) & Hl & Hr)".
  iPure (hdr_valid with "Hp") as [Hv _]. rw (proj2 (Z.eqb_neq _ _) (valid_ne _ Hv)).
  iEval (rw nums_mid) in "Hx". iDestruct "Hx" as "(Hxl & Hn & Hxr)".
  iApply wp_bind. iApply (wp_ld with "Hn"); [auto|]. iIntros "Hn".
  destruct (Z.ltb_spec n v) as [Hlt|Hge]; [|destruct (Z.ltb_spec v n) as [Hgt|Hle]].
  - iApply wp_bind. iApply (wp_ld with "Hpl"); [auto|]. iIntros "Hpl".
    iApply (IH with "Hl Hxl"); [done..|lia|]. iIntros "Hl Hxl".
    rw (proj1 (search_left n v p xl xr Hlt Fr)). iApply ("HΦ" with "[-Hxl Hn Hxr]").
    + simpl. rw /node. iFrame.
    + rw nums_mid. iFrame.
  - iApply wp_bind. iApply (wp_ld with "Hpr"); [auto|]. iIntros "Hpr".
    iApply (IH with "Hr Hxr"); [done..|lia|]. iIntros "Hr Hxr".
    rw (proj1 (search_right n v p xl xr Hgt Fl)). iApply ("HΦ" with "[-Hxl Hn Hxr]").
    + simpl. rw /node. iFrame.
    + rw nums_mid. iFrame.
  - assert (v = n) as -> by lia. iApply wp_ret. rw search_here //.
    iApply ("HΦ" with "[-Hxl Hn Hxr]").
    + simpl. rw /node. iFrame.
    + rw nums_mid. iFrame.
Qed.

(** Where the number is, or belongs. *)
Definition found (root n : Z) (k : list frame) (t : tree) (xs : list (Z * Z)) (r : option (Z * Z)) :
    hprop :=
  match r with
  | None => is_ctx root k (ptr t) ∗ is_tree (above k) t ∗ ⌜find_num n xs ≠ 0⌝
  | Some (l, par) => ∃ k', is_ctx root k' 0 ∗
      ⌜l = link root k' ∧ par = above k' ∧ zip k' E = zip k t ∧ (n ∉ xs.*2) ∧
       before k' = before k ++ (less n xs).*1 ∧ after k' = (more n xs).*1 ++ after k⌝
  end.

Lemma wp_find_link (fuel : nat) (root n : Z) (k : list frame) (t : tree) (xs : list (Z * Z)) :
  0 < root → inorder t = xs.*1 → ordered xs → (height t < fuel)%nat →
  is_ctx root k (ptr t) -∗ is_tree (above k) t -∗ nums xs -∗
  wp (find_link fuel (link root k) (above k) n) (λ r, nums xs ∗ found root n k t xs r).
Proof.
  intros Hroot. revert k t xs. induction fuel as [|fuel IH]; iIntros (k t xs Ho Hs Hf) "Hk Ht Hx"; [lia|].
  cbn [find_link]. iDestruct (is_ctx_link with "Hk") as "(%Hl & Hlk & Hk)"; [done|].
  iApply wp_bind. iApply (wp_ld with "Hlk"); [done|]. iIntros "Hlk". iSpecialize ("Hk" with "Hlk").
  destruct t as [|c l p r].
  { destruct xs; [|done]. iApply wp_ret. iFrame. iPureIntro.
    split_and!; [done..|set_solver|by rw app_nil_r|done]. }
  destruct (pairs_split _ _ _ _ Ho) as (xl & v & xr & -> & Hol & Hor).
  destruct (ordered_split _ _ _ _ Hs) as (Sl & Sr & Fl & Fr).
  simpl in Hf. iEval (simpl) in "Ht". iDestruct "Ht" as "(Hp & Hl & Hr)".
  iPure (node_valid with "Hp") as [Hv _]. simpl ptr. rw (proj2 (Z.eqb_neq _ _) (valid_ne _ Hv)).
  iEval (rw nums_mid) in "Hx". iDestruct "Hx" as "(Hxl & Hn & Hxr)".
  iApply wp_bind. iApply (wp_ld with "Hn"); [auto|]. iIntros "Hn".
  destruct (Z.ltb_spec n v) as [Hlt|Hge]; [|destruct (Z.ltb_spec v n) as [Hgt|Hle]].
  - destruct (search_left n v p xl xr Hlt Fr) as (Ef & El & Em).
    iApply (wp_wand with "[Hk Hp Hr Hl Hxl]").
    { iApply (IH (F L c p r :: k) l xl with "[Hk Hp Hr] Hl Hxl"); [done|done|lia|]. simpl. iFrame. }
    iIntros (res) "[Hxl H]". iSplitL "Hxl Hn Hxr"; [rw nums_mid; iFrame|].
    rw /found Ef El Em. destruct res as [[lnk par]|].
    + iDestruct "H" as "(%k' & $ & -> & -> & %Hz & %Hni & %Hb & %Ha)". iPureIntro.
      split_and!; [done..| |done|rw Ha fmap_app fmap_cons -app_assoc -Hor //].
      apply not_in_mid; [done|lia|]. apply not_in_num. eapply Forall_impl; [done|]. simpl. lia.
    + simpl. iDestruct "H" as "((Hp & Hr & $) & Hl & $)". iFrame.
  - destruct (search_right n v p xl xr Hgt Fl) as (Ef & El & Em).
    iApply (wp_wand with "[Hk Hp Hl Hr Hxr]").
    { iApply (IH (F R c p l :: k) r xr with "[Hk Hp Hl] Hr Hxr"); [done|done|lia|].
      simpl. rw (node_opp L p). iFrame. }
    iIntros (res) "[Hxr H]". iSplitL "Hxl Hn Hxr"; [rw nums_mid; iFrame|].
    rw /found Ef El Em. destruct res as [[lnk par]|].
    + iDestruct "H" as "(%k' & $ & -> & -> & %Hz & %Hni & %Hb & %Ha)". iPureIntro.
      split_and!; [done..| |rw Hb fmap_app fmap_cons -Hol /= -!app_assoc //|done].
      apply not_in_mid; [|lia|done]. apply not_in_num. eapply Forall_impl; [done|]. simpl. lia.
    + simpl. rw (node_opp L p). iDestruct "H" as "((Hp & Hl & $) & Hr & $)". iFrame.
  - assert (v = n) as -> by lia. iApply wp_ret. iSplitL "Hxl Hn Hxr"; [rw nums_mid; iFrame|].
    simpl. iFrame. rw search_here //. auto.
Qed.

(** ** The set *)

Definition rbset (root : Z) (xs : list (Z * Z)) : hprop :=
  ⌜0 < root ∧ ordered xs⌝ ∗ rbtree root xs.*1 ∗ nums xs.

Lemma wp_my_search (fuel : nat) (root n : Z) (xs : list (Z * Z)) :
  enough (length xs) fuel →
  rbset root xs -∗ wp (my_search fuel root n) (λ p, rbset root xs ∗ ⌜p = find_num n xs⌝).
Proof.
  iIntros (Hf) "([%Hr %Hs] & (%t & (% & Hl & Ht) & %Hb & %Ho) & Hx)". rw /my_search.
  iApply wp_bind. iApply (wp_ld with "Hl"); [done|]. iIntros "Hl".
  iApply (wp_search_loop with "Ht Hx"); [done..| |].
  - apply red_black_height in Hb. rw Ho length_fmap in Hb. rw /enough in Hf. lia.
  - iIntros "Ht Hx". iSplit; [|done]. iFrame "Hx". iSplit; [done|]. iExists t. by iFrame.
Qed.

(** A block with a number. *)
Definition nblock (p v : Z) : hprop := ⌜valid p⌝ ∗ block p ∗ fld p num v.

Lemma ordered_insert (n p : Z) (xs : list (Z * Z)) :
  ordered xs → ordered (less n xs ++ (p, n) :: more n xs).
Proof.
  rw /ordered /less /more. intros H. rw fmap_app fmap_cons.
  assert (∀ P `{∀ x, Decision (P x)}, StronglySorted Z.lt (filter P xs).*2) as Hf.
  { intros P ?. induction xs as [|x xs IH]; [done|]. rw fmap_cons in H.
    apply StronglySorted_cons in H as [Hx H]. rw filter_cons. case_decide; [|auto].
    rw fmap_cons. apply StronglySorted_cons. split; [|auto].
    apply Forall_fmap, Forall_forall. intros y [_ Hy]%list_elem_of_filter.
    rw Forall_forall in Hx. by apply Hx, list_elem_of_fmap_2. }
  apply StronglySorted_app_2; [|apply Hf|apply StronglySorted_cons; split; [|apply Hf]].
  - intros a b (x & -> & [Hx _]%list_elem_of_filter)%list_elem_of_fmap [->|Hb]%elem_of_cons; [done|].
    apply list_elem_of_fmap in Hb as (y & -> & [Hy _]%list_elem_of_filter). lia.
  - apply Forall_forall. by intros b (y & -> & [Hy _]%list_elem_of_filter)%list_elem_of_fmap.
Qed.

(** The numbers but [n] are those below and those above. *)
Lemma less_more (n : Z) (xs : list (Z * Z)) :
  ordered xs → n ∉ xs.*2 → xs = less n xs ++ more n xs.
Proof.
  rw /ordered. induction xs as [|[p v] xs IH]; [done|]. rw fmap_cons.
  intros [Hv Hs]%StronglySorted_cons [Hne Hn]%not_elem_of_cons. simpl in *.
  rw /less /more !filter_cons. destruct (decide (v < n)) as [Hlt|].
  - rw decide_True // decide_False; [|simpl; lia]. simpl. f_equal. by apply IH.
  - rw decide_False // decide_True; [|simpl; lia]. apply Forall_snd in Hv.
    rw (filter_nothing _ xs) ?(filter_all _ xs) //; (eapply Forall_impl; [done|]); simpl; lia.
Qed.

Lemma wp_my_insert (fuel : nat) (root p n : Z) (xs : list (Z * Z)) :
  enough (S (length xs)) fuel →
  rbset root xs -∗ nblock p n -∗
  wp (my_insert fuel root p) (λ r,
    if decide (find_num n xs = 0)
    then ⌜r = 0⌝ ∗ rbset root (less n xs ++ (p, n) :: more n xs)
    else ⌜r = -1⌝ ∗ rbset root xs ∗ nblock p n).
Proof.
  iIntros (Hf) "([%Hr %Hs] & (%t & Ht & %Hb & %Ho) & Hx) (%Hv & Hp & Hn)". rw /my_insert.
  iApply wp_bind. iApply (wp_ld with "Hn"); [auto|]. iIntros "Hn".
  iEval (rw -(is_ctx_tree_at root [])) in "Ht". iDestruct "Ht" as "[Hk Ht]".
  apply red_black_height in Hb as Hh. rw Ho length_fmap in Hh.
  pose proof (Nat.log2_le_mono (S (length xs)) (S (S (length xs)))). rw /enough in Hf.
  iApply wp_bind. iApply (wp_wand with "[Hk Ht Hx]").
  { iApply (wp_find_link fuel root n [] t xs with "Hk Ht Hx"); [done..|lia]. }
  iIntros (res) "[Hx H]". destruct res as [[lnk par]|].
  - iDestruct "H" as "(%k & Hk & -> & -> & %Hz & %Hni & %Hbf & %Haf)". simpl in Hz, Hbf, Haf.
    rw app_nil_r in Haf. assert (find_num n xs = 0) as Hfn.
    { apply find_num_none, Forall_forall. intros x Hx Hx'. apply Hni. rw -Hx'. by apply list_elem_of_fmap_2. }
    destruct (decide (find_num n xs = 0)) as [_|]; [|done].
    assert (xs = less n xs ++ more n xs) as Hxs by (by apply less_more).
    iApply (wp_assoc with "[-]"). iApply wp_bind. iApply (wp_wand with "[Hk Hp]").
    { iApply (wp_rb_insert fuel root p k with "Hk Hp"); [done|done|by rw Hz|].
      rw /enough Hz Ho length_fmap. lia. }
    iIntros (_) "Ht". iApply wp_ret. iSplit; [done|]. rw Hbf Haf. iSplit.
    + iPureIntro. split; [done|]. by apply ordered_insert.
    + rw fmap_app. iFrame "Ht". rw nums_mid. iAssert (nums (less n xs ++ more n xs)) with "[Hx]" as "Hx"; [by rw -Hxs|].
      rw nums_app. iDestruct "Hx" as "[$ $]". iFrame.
  - iApply wp_ret. iDestruct "H" as "(Hk & Ht & %Hfn)". rw decide_False //. rw /rbset /nblock. iFrame "Hx Hp Hn".
    iDestruct (plug root [] with "Hk Ht") as "Ht". iFrame. auto.
Qed.

(** Nodes are not NULL. *)
Lemma is_tree_valid (par : Z) (t : tree) : is_tree par t -∗ ⌈Forall valid (inorder t)⌉.
Proof.
  iInduction t as [|c l p r] "IH" forall (par); simpl; [auto|].
  iIntros "(Hp & Hl & Hr)". iPure (node_valid with "Hp") as [Hv _].
  iDestruct ("IH" with "Hl") as %Hl. iDestruct ("IH1" with "Hr") as %Hr.
  iPureIntro. by apply Forall_app_2, Forall_cons_2.
Qed.

Lemma rbset_valid (root : Z) (xs : list (Z * Z)) :
  rbset root xs -∗ ⌈ordered xs ∧ Forall valid xs.*1⌉.
Proof.
  iIntros "([%Hr %Hs] & (%t & (_ & _ & Ht) & _ & %Ho) & _)". rw -Ho.
  iPure (is_tree_valid with "Ht") as Hv. auto.
Qed.

(** ** Deletion *)

Lemma find_num_in (n : Z) (xs : list (Z * Z)) :
  ordered xs → Forall valid xs.*1 →
  (find_num n xs = 0 ∧ (n ∉ xs.*2) ∧ without n xs = xs) ∨
  (find_num n xs ≠ 0 ∧ n ∈ xs.*2 ∧ ∃ ys zs, xs = ys ++ (find_num n xs, n) :: zs ∧ without n xs = ys ++ zs).
Proof.
  intros Hs Hv. destruct (decide (n ∈ xs.*2)) as [Hin|Hni].
  - right. apply list_elem_of_fmap in Hin as ([p v] & -> & Hin). simpl.
    apply list_elem_of_split in Hin as (ys & zs & ->).
    destruct (ordered_split _ _ _ _ Hs) as (_ & _ & Hy & Hz). rw search_here //.
    rw fmap_app fmap_cons in Hv. apply Forall_app in Hv as [_ Hv]. apply Forall_cons in Hv as [Hv _].
    split_and!; [by apply valid_ne|rw fmap_app fmap_cons; set_solver|].
    exists ys, zs. split; [done|]. rw /without filter_app filter_cons_False /=; [|by auto].
    rw !filter_all //; (eapply Forall_impl; [done|]); simpl; lia.
  - left. assert (Forall (λ x, x.2 ≠ n) xs) as Hf.
    { apply Forall_forall. intros x Hx Hx'. apply Hni. rw -Hx'. by apply list_elem_of_fmap_2. }
    split_and!; [by apply find_num_none|done|]. by apply filter_all.
Qed.

Lemma wp_my_delete (fuel : nat) (root n : Z) (xs : list (Z * Z)) :
  enough (length xs) fuel →
  rbset root xs -∗
  wp (my_delete fuel root n) (λ p, ⌜p = find_num n xs⌝ ∗ rbset root (without n xs) ∗
    if decide (n ∈ xs.*2) then nblock p n else emp).
Proof.
  iIntros (Hf) "H". iPure (rbset_valid with "H") as [Hs Hv]. rw /my_delete.
  iApply wp_bind. iApply (wp_wand with "[H]"); [by iApply wp_my_search|]. iIntros (p) "[H ->]".
  destruct (find_num_in n xs Hs Hv) as [(-> & Hni & ->)|(Hne & Hin & ys & zs & Exs & Ew)].
  - iApply wp_ret. rw decide_False //. by iFrame.
  - rw (proj2 (Z.eqb_neq _ _) Hne). set (p := find_num n xs) in *. rw Ew.
    destruct (decide (n ∈ xs.*2)) as [_|]; [|done].
    iDestruct "H" as "([%Hr _] & Ht & Hx)". rw {1}Exs Exs nums_mid fmap_app fmap_cons.
    iDestruct "Hx" as "(Hy & Hn & Hz)".
    iApply wp_bind. iApply (wp_wand with "[Ht]").
    { iApply (wp_rb_erase with "Ht").
      rw -fmap_cons -fmap_app length_fmap. by rw Exs in Hf. }
    iIntros (_) "[Ht Hb]". iApply wp_ret. iSplit; [done|]. rw -fmap_app. iSplitR "Hb Hn".
    + rw /rbset nums_app. iFrame. iPureIntro. split; [done|]. rw Exs in Hs. by apply (ordered_remove ys zs p n).
    + rw /nblock. iFrame. iPureIntro. rw Exs fmap_app fmap_cons in Hv.
      apply Forall_app in Hv as [_ Hv]. by apply Forall_cons in Hv as [Hv _].
Qed.

(** ** Printing *)

Lemma wp_print_loop (fuel fuel' : nat) (root : Z) (xs ys : list (Z * Z)) :
  enough (length (xs ++ ys)) fuel → (length ys < fuel')%nat → Forall valid ys.*1 →
  rbtree root (xs ++ ys).*1 -∗ nums (xs ++ ys) -∗
  wp (print_loop fuel fuel' (first L ys.*1))
     (λ r, rbtree root (xs ++ ys).*1 ∗ nums (xs ++ ys) ∗ ⌜r = ys.*2⌝).
Proof.
  revert xs ys. induction fuel' as [|fuel' IH]; iIntros (xs ys Hf Hf' Hv) "Ht Hx"; [lia|].
  cbn [print_loop]. destruct ys as [|[p v] ys].
  { iApply wp_ret. by iFrame. }
  change (first L ((p, v) :: ys).*1) with p. apply Forall_cons in Hv as [Hp Hv]. simpl in Hp.
  rw (proj2 (Z.eqb_neq _ _) (valid_ne _ Hp)).
  iEval (rw nums_mid) in "Hx". iDestruct "Hx" as "(Hx & Hn & Hy)".
  iApply wp_bind. iApply (wp_ld with "Hn"); [auto|]. iIntros "Hn". 
  iApply wp_bind. iApply (wp_wand with "[Ht]").
  { rw fmap_app fmap_cons. iApply (wp_rb_step R with "Ht").
    rw length_app /= in Hf. by rw length_app /= !length_fmap. }
  iIntros (q) "[Ht ->]". 
  iAssert (nums ((xs ++ [(p, v)]) ++ ys)) with "[Hx Hn Hy]" as "Hx".
  { rw -app_assoc /= nums_mid. iFrame. }
  iApply wp_bind. iApply (wp_wand with "[Ht Hx]").
  { iApply (IH (xs ++ [(p, v)]) ys with "[Ht] Hx"); [|simpl in Hf'; lia|done|].
    - by rw -app_assoc.
    - by rw -app_assoc /= fmap_app. }
  iIntros (r) "(Ht & Hx & ->)". iApply wp_ret. rw -app_assoc. by iFrame.
Qed.

Lemma wp_print_rbtree (fuel : nat) (root : Z) (xs : list (Z * Z)) :
  enough (length xs) fuel → (length xs < fuel)%nat →
  rbset root xs -∗ wp (print_rbtree fuel root) (λ r, rbset root xs ∗ ⌜r = xs.*2⌝).
Proof.
  iIntros (Hf Hf') "H". iPure (rbset_valid with "H") as [Hs Hv].
  iDestruct "H" as "(% & Ht & Hx)". rw /print_rbtree. iApply wp_bind.
  iApply (wp_wand with "[Ht]"); [iApply (wp_rb_end L with "Ht"); by rw length_fmap|].
  iIntros (p) "[Ht ->]". iApply (wp_wand with "[Ht Hx]").
  { by iApply (wp_print_loop fuel fuel root [] xs with "Ht Hx"). }
  iIntros (r) "($ & $ & %)". auto.
Qed.

(** ** Sequences of operations *)

(** The tree and the blocks outside it. *)
Definition state (root : Z) (s : list (Z * Z) * list Z) : hprop :=
  rbset root s.1 ∗ [∗ list] p ∈ s.2, ∃ v, nblock p v.

(** Fuel for every step when at most [n] numbers are stored. *)
Definition plenty (n fuel : nat) : Prop := enough n fuel ∧ (n < fuel)%nat.

Lemma plenty_le (n n' fuel : nat) : (n ≤ n')%nat → plenty n' fuel → plenty n fuel.
Proof.
  intros Hn [He Hl]. split; [|lia]. rw /enough in He |- *.
  pose proof (Nat.log2_le_mono (S n) (S n')). lia.
Qed.

Lemma wp_run_op (fuel : nat) (root : Z) (o : op) (s s' : list (Z * Z) * list Z) (r : outcome) :
  spec_op o s = Some (r, s') → plenty (S (length s.1)) fuel →
  state root s -∗
  wp (run_op fuel root o) (λ r', ⌜r' = r ∧ (length s'.1 ≤ S (length s.1))%nat⌝ ∗ state root s').
Proof.
  destruct s as [xs free]. iIntros (Hs Hf) "[H Hb]". simpl in Hf |- *.
  pose proof (plenty_le (length xs) _ _ (Nat.le_succ_diag_r _) Hf) as Hf1.
  iPure (rbset_valid with "H") as [Ho Hv]. destruct o as [p n|n|n|]; simpl in Hs |- *.
  - apply bind_Some in Hs as (free' & Hr & Hs). apply take_out_perm in Hr.
    iEval (rw Hr /=) in "Hb". iDestruct "Hb" as "[(%v & %Hp & Hb & Hn) Hbs]".
    iApply wp_bind. iApply (wp_st with "Hn"); [auto|]. iIntros "Hn".
    iApply wp_bind. iApply (wp_wand with "[H Hb Hn]").
    { iApply (wp_my_insert fuel root p n with "H [Hb Hn]"); [by destruct Hf|]. by iFrame. }
    iIntros (c) "H". iApply wp_ret.
    destruct (find_num_in n xs Ho Hv) as [(E & Hni & _)|(E & Hin & _)].
    + rw decide_True //. rw decide_False // in Hs. injection Hs as <- <-. iDestruct "H" as "[-> $]".
      iFrame. iPureIntro. split; [done|]. pose proof (f_equal length (less_more n xs Ho Hni)) as Hl.
      rw length_app in Hl. rw /= length_app /=. lia.
    + rw decide_False //. rw decide_True // in Hs. injection Hs as <- <-. iDestruct "H" as "(-> & $ & H)".
      iSplit; [iPureIntro; simpl; auto|]. rw /= Hr /=. iFrame.
  - injection Hs as <- <-. iApply wp_bind.
    iApply (wp_wand with "[H]"); [by iApply wp_my_delete; [destruct Hf1|]|].
    iIntros (p) "(-> & H & Hp)". iApply wp_ret. iFrame "H". iSplit.
    + iPureIntro. split; [done|]. simpl. rw /without. pose proof (length_filter (λ x, x.2 ≠ n) xs). lia.
    + simpl. case_decide; iFrame.
  - injection Hs as <- <-. iApply wp_bind. iApply (wp_wand with "[H]"); [by iApply wp_my_search; [destruct Hf1|]|].
    iIntros (p) "[H ->]". iApply wp_ret. iFrame. auto.
  - injection Hs as <- <-. destruct Hf1. iApply wp_bind. iApply (wp_wand with "[H]"); [by iApply wp_print_rbtree|].
    iIntros (p) "[H ->]". iApply wp_ret. iFrame. auto.
Qed.

Lemma wp_run_ops (fuel : nat) (root : Z) (os : list op) (s s' : list (Z * Z) * list Z) (rs : list outcome) :
  spec_ops os s = Some (rs, s') → plenty (length s.1 + length os) fuel →
  state root s -∗ wp (run_ops fuel root os) (λ rs', ⌜rs' = rs⌝ ∗ state root s').
Proof.
  revert s rs. induction os as [|o os IH]; iIntros (s rs Hs Hf) "H"; simpl in Hs, Hf |- *.
  { injection Hs as <- <-. iApply wp_ret. by iFrame. }
  apply bind_Some in Hs as ([r s1] & H1 & Hs). apply bind_Some in Hs as ([rs1 s2] & H2 & [= <- <-]).
  iApply wp_bind. iApply (wp_wand with "[H]").
  { iApply (wp_run_op with "H"); [done|]. eapply plenty_le; [|done]. lia. }
  iIntros (?) "[[-> %Hl] H]". iApply wp_bind. iApply (wp_wand with "[H]").
  { iApply (IH with "H"); [done|]. eapply plenty_le; [|done]. lia. }
  iIntros (?) "[-> H]". iApply wp_ret. by iFrame.
Qed.

End client.

(** ** In the plain memory *)

Definition nums_fp (xs : list (Z * Z)) : footprint := fp_list (λ x, fp_cell x.1 num x.2) xs.

(** A block outside the tree, with a number. *)
Definition nblock_fp (p : Z) : footprint :=
  fp_ex (λ v, fp_pure (valid p) ⊗ block_fp p ⊗ fp_cell p num v).

(** The set and the blocks outside it. *)
Definition state_fp (root : Z) (s : list (Z * Z) * list Z) : footprint :=
  (fp_pure (0 < root ∧ ordered s.1) ⊗ tree_fp root s.1.*1 ⊗ nums_fp s.1) ⊗ fp_list nblock_fp s.2.

#[export] Instance covers_state (root : Z) (s : list (Z * Z) * list Z) :
  Covers (state root s) (state_fp root s).
Proof.
  rw /state /state_fp /rbset /nums /nums_fp. apply covers_sep; [apply _|].
  apply covers_list. intros p. rw /nblock /nblock_fp. apply _.
Qed.

(** C2: The set of integers of myrbtree.c implements a sorted list: any sequence of
    insertions (of allocated blocks), deletions, searches and printings has a
    result on the tree in memory, with fuel for the largest tree it may reach; the
    values returned, the blocks handed back by the deletions and the numbers
    printed are those of the same operations on the sorted list, the memory
    represents the final list, and no word outside the tree and the blocks changed. *)
Theorem rbset_refines (fuel : nat) (root : Z) (os : list op) (s s' : list (Z * Z) * list Z)
    (rs : list outcome) :
  spec_ops os s = Some (rs, s') → plenty (length s.1 + length os) fuel →
  triple (state_fp root s) (run_ops fuel root os) (λ rs', fp_pure (rs' = rs) ⊗ state_fp root s').
Proof.
  intros Hs Hf. apply wp_triple. do 2 eexists. split_and!; [apply _|intros; apply _|].
  by apply bi.wand_entails, wp_run_ops.
Qed.

(** Two numbers inserted in the empty tree, one twice, printed, one deleted. *)
Lemma rbset_refines_witness :
  let cs := [(64, 0)] ++ [(128, 0); (144, 0); (136, 0); (152, 0)] ++ [(192, 0); (208, 0); (200, 0); (216, 0)] in
  let os := [Insert 128 21; Insert 192 21; Insert 192 7; Print; Delete 21; Search 21; Print] in
  ∃ rs m' cs', run_ops 20 64 os (list_to_map cs) = Some (rs, m') ∧
    (fp_pure (rs = [Code 0; Code (-1); Code 0; Numbers [7; 21]; Block 128; Block 0; Numbers [7]]) ⊗
     state_fp 64 ([(192, 7)], [128])) cs' ∧
    holds m' cs' ∧ outside cs' m' = ∅.
Proof.
  intros cs os.
  refine (rbset_refines 20 64 os ([], [128; 192]) ([(192, 7)], [128]) _ _ _ (list_to_map cs) cs _ _).
  - vm_compute. reflexivity.
  - split; vm_compute; lia.
  - unfold state_fp, tree_fp, nums_fp, nblock_fp, block_fp. simpl.
    eapply fp_sep_intro; [|fp_build|reflexivity]; [|done..].
    eapply fp_sep_intro; [fp_build| |reflexivity]; [by repeat constructor|].
    eapply fp_sep_intro; [apply (fp_ex_intro _ E); simpl; fp_build|fp_build|reflexivity]; try done.
    split; [|done]. exists 0%nat. constructor.
  - apply holds_list_to_map. vm_compute. reflexivity.
Defined.
