(* ===== verification/Sfprime.v ===== *)
(** * The table of primes of the hash tables (sfghash/sfprimetable.c)

    The four tables of the file, and [sf_nearest_prime].  An [int] is its value;
    the negation wraps around; the tables are [unsigned] and what they return
    fits in an [int].  The third and the fourth table are declared with 1024
    entries and have 1023 initialisers: the last entry is 0. *)

From Stdlib Require Import Znumtheory.
From S2P Require Import Prelude.

(** ** The code *)

Definition prime_table0 : list Z :=
  [3; 7; 17; 23; 31; 41; 47; 53; 61; 73; 79; 89;
   97; 103; 113; 113; 127; 137; 139; 151; 157; 167; 173; 181;
   193; 199; 199; 211; 223; 233; 241; 241; 257; 263; 271; 281;
   283; 293; 293; 313; 317; 317; 337; 337; 353; 359; 367; 373;
   383; 389; 401; 409; 409; 421; 433; 439; 449; 457; 463; 467;
   479; 487; 491; 503; 509; 521; 523; 523; 541; 547; 557; 569;
   577; 577; 593; 601; 607; 617; 619; 631; 641; 647; 653; 661;
   673; 677; 683; 691; 701; 709; 719; 727; 733; 743; 751; 761;
   769; 773; 773; 787; 797; 809; 811; 823; 829; 839; 839; 857;
   863; 863; 881; 887; 887; 887; 911; 919; 929; 937; 941; 953;
   953; 967; 977; 983; 991; 997; 1009; 1013; 1021; 1033; 1039; 1049;
   1051; 1063; 1069; 1069; 1087; 1097; 1103; 1109; 1117; 1129; 1129; 1129;
   1153; 1153; 1163; 1171; 1181; 1193; 1201; 1201; 1217; 1223; 1231; 1237;
   1249; 1249; 1259; 1259; 1279; 1289; 1297; 1303; 1307; 1321; 1327; 1327;
   1327; 1327; 1361; 1367; 1373; 1381; 1381; 1399; 1409; 1409; 1423; 1433;
   1439; 1447; 1453; 1459; 1471; 1481; 1489; 1493; 1499; 1511; 1511; 1523;
   1531; 1543; 1553; 1559; 1567; 1571; 1583; 1583; 1601; 1609; 1613; 1621;
   1627; 1637; 1637; 1657; 1663; 1669; 1669; 1669; 1697; 1699; 1709; 1721;
   1723; 1733; 1741; 1753; 1759; 1759; 1777; 1783; 1789; 1801; 1801; 1811;
   1823; 1831; 1831; 1847; 1847; 1861; 1873; 1879; 1889; 1889; 1901; 1913;
   1913; 1913; 1933; 1933; 1951; 1951; 1951; 1973; 1979; 1993; 1999; 2003;
   2017; 2017; 2029; 2039; 2039; 2053; 2063; 2069; 2081; 2089; 2089; 2099;
   2113; 2113; 2129; 2137; 2143; 2153; 2161; 2161; 2161; 2179; 2179; 2179;
   2207; 2213; 2221; 2221; 2239; 2243; 2251; 2251; 2273; 2281; 2287; 2297;
   2297; 2311; 2311; 2311; 2333; 2341; 2351; 2357; 2357; 2377; 2383; 2393;
   2399; 2399; 2417; 2423; 2423; 2441; 2447; 2447; 2459; 2473; 2477; 2477;
   2477; 2503; 2503; 2521; 2521; 2531; 2543; 2551; 2557; 2557; 2557; 2579;
   2593; 2593; 2609; 2617; 2621; 2633; 2633; 2647; 2657; 2663; 2671; 2677;
   2689; 2693; 2699; 2713; 2719; 2729; 2731; 2741; 2753; 2753; 2767; 2777;
   2777; 2791; 2801; 2803; 2803; 2819; 2833; 2837; 2843; 2857; 2861; 2861;
   2879; 2887; 2897; 2903; 2909; 2917; 2927; 2927; 2939; 2953; 2957; 2969;
   2971; 2971; 2971; 3001; 3001; 3011; 3023; 3023; 3041; 3049; 3049; 3061;
   3067; 3079; 3089; 3089; 3089; 3109; 3121; 3121; 3137; 3137; 3137; 3137;
   3169; 3169; 3181; 3191; 3191; 3209; 3217; 3221; 3229; 3229; 3229; 3257;
   3259; 3271; 3271; 3271; 3271; 3301; 3313; 3319; 3329; 3331; 3343; 3347;
   3361; 3361; 3373; 3373; 3391; 3391; 3407; 3413; 3413; 3433; 3433; 3449;
   3457; 3463; 3469; 3469; 3469; 3491; 3499; 3511; 3517; 3529; 3533; 3541;
   3547; 3559; 3559; 3571; 3583; 3593; 3593; 3607; 3617; 3623; 3631; 3637;
   3643; 3643; 3659; 3673; 3677; 3677; 3697; 3701; 3709; 3719; 3727; 3733;
   3739; 3739; 3761; 3769; 3769; 3779; 3793; 3797; 3803; 3803; 3823; 3833;
   3833; 3847; 3853; 3863; 3863; 3881; 3889; 3889; 3889; 3911; 3919; 3929;
   3931; 3943; 3947; 3947; 3967; 3967; 3967; 3989; 4001; 4007; 4013; 4021;
   4027; 4027; 4049; 4057; 4057; 4073; 4079; 4079; 4093; 4099; 4111; 4111;
   4129; 4133; 4139; 4153; 4159; 4159; 4177; 4177; 4177; 4201; 4201; 4217;
   4219; 4231; 4241; 4243; 4253; 4261; 4273; 4273; 4289; 4297; 4297; 4297;
   4297; 4327; 4337; 4339; 4349; 4357; 4363; 4373; 4373; 4391; 4397; 4409;
   4409; 4423; 4423; 4441; 4447; 4457; 4463; 4463; 4481; 4483; 4493; 4493;
   4513; 4519; 4523; 4523; 4523; 4549; 4561; 4567; 4567; 4583; 4591; 4597;
   4603; 4603; 4621; 4621; 4639; 4649; 4657; 4663; 4673; 4679; 4679; 4691;
   4703; 4703; 4721; 4729; 4733; 4733; 4751; 4759; 4759; 4759; 4783; 4793;
   4801; 4801; 4817; 4817; 4831; 4831; 4831; 4831; 4861; 4871; 4877; 4889;
   4889; 4903; 4909; 4919; 4919; 4937; 4943; 4951; 4957; 4969; 4973; 4973;
   4993; 4999; 5009; 5011; 5023; 5023; 5039; 5039; 5051; 5059; 5059; 5081;
   5087; 5087; 5101; 5113; 5119; 5119; 5119; 5119; 5153; 5153; 5167; 5171;
   5179; 5189; 5197; 5209; 5209; 5209; 5233; 5237; 5237; 5237; 5261; 5273;
   5281; 5281; 5297; 5303; 5309; 5309; 5323; 5333; 5333; 5351; 5351; 5351;
   5351; 5381; 5393; 5399; 5407; 5417; 5419; 5431; 5441; 5449; 5449; 5449;
   5471; 5479; 5483; 5483; 5503; 5507; 5521; 5527; 5531; 5531; 5531; 5557;
   5569; 5573; 5581; 5591; 5591; 5591; 5591; 5623; 5623; 5641; 5647; 5657;
   5659; 5669; 5669; 5689; 5693; 5701; 5711; 5717; 5717; 5737; 5743; 5749;
   5749; 5749; 5749; 5783; 5791; 5801; 5807; 5813; 5821; 5827; 5839; 5849;
   5857; 5861; 5869; 5881; 5881; 5897; 5903; 5903; 5903; 5927; 5927; 5939;
   5953; 5953; 5953; 5953; 5981; 5987; 5987; 6007; 6011; 6011; 6029; 6037;
   6047; 6053; 6053; 6073; 6079; 6089; 6091; 6101; 6113; 6121; 6121; 6133;
   6143; 6151; 6151; 6163; 6173; 6173; 6173; 6199; 6203; 6217; 6221; 6229;
   6229; 6247; 6257; 6263; 6271; 6277; 6287; 6287; 6301; 6311; 6317; 6329;
   6337; 6343; 6353; 6361; 6367; 6373; 6379; 6389; 6397; 6397; 6397; 6421;
   6427; 6427; 6449; 6451; 6451; 6473; 6481; 6481; 6491; 6491; 6491; 6521;
   6529; 6529; 6529; 6553; 6553; 6569; 6577; 6581; 6581; 6599; 6607; 6607;
   6619; 6619; 6637; 6637; 6653; 6661; 6673; 6679; 6689; 6691; 6703; 6709;
   6719; 6719; 6737; 6737; 6737; 6761; 6763; 6763; 6781; 6793; 6793; 6803;
   6803; 6823; 6833; 6841; 6841; 6857; 6863; 6871; 6871; 6883; 6883; 6899;
   6911; 6917; 6917; 6917; 6917; 6949; 6961; 6967; 6977; 6983; 6991; 7001;
   7001; 7013; 7019; 7027; 7039; 7043; 7057; 7057; 7069; 7079; 7079; 7079;
   7103; 7109; 7121; 7129; 7129; 7129; 7151; 7159; 7159; 7177; 7177; 7193;
   7193; 7207; 7213; 7219; 7229; 7237; 7247; 7253; 7253; 7253; 7253; 7283;
   7297; 7297; 7309; 7321; 7321; 7333; 7333; 7351; 7351; 7369; 7369; 7369;
   7393; 7393; 7393; 7417; 7417; 7433; 7433; 7433; 7457; 7459; 7459; 7481;
   7489; 7489; 7499; 7507; 7517; 7529; 7537; 7541; 7549; 7561; 7561; 7577;
   7583; 7591; 7591; 7607; 7607; 7621; 7621; 7639; 7649; 7649; 7649; 7673;
   7681; 7687; 7691; 7703; 7703; 7717; 7727; 7727; 7741; 7753; 7759; 7759;
   7759; 7759; 7793; 7793; 7793; 7817; 7823; 7829; 7841; 7841; 7853; 7853;
   7873; 7879; 7883; 7883; 7901; 7907; 7919; 7927; 7937; 7937; 7951; 7951;
   7963; 7963; 7963; 7993; 7993; 8009; 8017; 8017; 8017; 8039; 8039; 8053;
   8059; 8069; 8081; 8089; 8093; 8101; 8111; 8117; 8123; 8123; 8123; 8147;
   8161; 8167; 8171; 8179].

Definition prime_table1 : list Z :=
  [1; 61; 127; 193; 257; 317; 383; 449; 509; 577; 641; 701;
   769; 829; 887; 953; 1021; 1087; 1153; 1217; 1279; 1327; 1409; 1471;
   1531; 1601; 1663; 1723; 1789; 1847; 1913; 1979; 2039; 2113; 2161; 2239;
   2297; 2357; 2423; 2477; 2557; 2621; 2689; 2753; 2803; 2879; 2939; 3001;
   3067; 3137; 3191; 3259; 3329; 3391; 3457; 3517; 3583; 3643; 3709; 3769;
   3833; 3889; 3967; 4027; 4093; 4159; 4219; 4289; 4349; 4409; 4481; 4523;
   4603; 4673; 4733; 4801; 4861; 4919; 4993; 5051; 5119; 5179; 5237; 5309;
   5351; 5441; 5503; 5569; 5623; 5693; 5749; 5821; 5881; 5953; 6011; 6079;
   6143; 6203; 6271; 6337; 6397; 6451; 6529; 6581; 6653; 6719; 6781; 6841;
   6911; 6977; 7039; 7103; 7159; 7229; 7297; 7351; 7417; 7489; 7549; 7607;
   7681; 7741; 7793; 7873; 7937; 7993; 8059; 8123; 8191; 8243; 8317; 8377;
   8447; 8513; 8573; 8641; 8699; 8761; 8831; 8893; 8951; 9013; 9067; 9151;
   9209; 9281; 9343; 9403; 9473; 9533; 9601; 9661; 9721; 9791; 9857; 9907;
   9973; 10039; 10111; 10177; 10223; 10303; 10369; 10433; 10487; 10559; 10613; 10687;
   10753; 10799; 10867; 10939; 11003; 11071; 11131; 11197; 11261; 11329; 11393; 11447;
   11519; 11579; 11633; 11701; 11777; 11839; 11903; 11969; 12011; 12097; 12161; 12211;
   12289; 12347; 12413; 12479; 12541; 12601; 12671; 12721; 12799; 12853; 12923; 12983;
   13049; 13121; 13183; 13249; 13313; 13367; 13441; 13499; 13567; 13633; 13697; 13759;
   13807; 13883; 13933; 14011; 14081; 14143; 14207; 14251; 14327; 14401; 14461; 14519;
   14593; 14657; 14717; 14783; 14843; 14897; 14969; 15031; 15101; 15161; 15233; 15289;
   15361; 15413; 15473; 15551; 15607; 15679; 15739; 15809; 15859; 15937; 16001; 16063;
   16127; 16193; 16253; 16319; 16381; 16447; 16493; 16573; 16633; 16703; 16763; 16831;
   16889; 16943; 17021; 17077; 17137; 17209; 17257; 17341; 17401; 17471; 17519; 17599;
   17659; 17729; 17791; 17851; 17921; 17981; 18049; 18097; 18169; 18233; 18301; 18367;
   18433; 18493; 18553; 18617; 18679; 18749; 18803; 18869; 18919; 19009; 19073; 19121;
   19183; 19259; 19319; 19391; 19457; 19507; 19583; 19609; 19709; 19777; 19841; 19891;
   19963; 20029; 20089; 20161; 20219; 20287; 20353; 20411; 20479; 20543; 20599; 20663;
   20731; 20789; 20857; 20929; 20983; 21031; 21121; 21179; 21247; 21313; 21377; 21433;
   21503; 21569; 21617; 21683; 21757; 21821; 21881; 21943; 22013; 22079; 22133; 22193;
   22273; 22307; 22397; 22453; 22511; 22573; 22651; 22721; 22783; 22817; 22907; 22973;
   23041; 23099; 23167; 23227; 23297; 23357; 23417; 23473; 23549; 23609; 23677; 23743;
   23801; 23873; 23929; 24001; 24061; 24121; 24181; 24251; 24317; 24379; 24443; 24509;
   24571; 24631; 24697; 24767; 24821; 24889; 24953; 25013; 25087; 25153; 25189; 25261;
   25343; 25409; 25471; 25537; 25601; 25657; 25717; 25793; 25849; 25919; 25981; 26041;
   26113; 26177; 26237; 26297; 26357; 26431; 26497; 26561; 26597; 26687; 26737; 26813;
   26881; 26927; 26993; 27073; 27127; 27197; 27259; 27329; 27367; 27457; 27509; 27583;
   27647; 27701; 27773; 27827; 27901; 27967; 28031; 28097; 28151; 28219; 28289; 28351;
   28411; 28477; 28541; 28607; 28669; 28729; 28793; 28859; 28927; 28979; 29033; 29101;
   29179; 29243; 29311; 29363; 29437; 29501; 29569; 29633; 29683; 29761; 29819; 29881;
   29947; 30013; 30071; 30139; 30203; 30271; 30323; 30391; 30449; 30529; 30593; 30649;
   30713; 30781; 30841; 30911; 30977; 31039; 31091; 31159; 31231; 31277; 31357; 31397;
   31489; 31547; 31607; 31667; 31741; 31799; 31873; 31907; 31991; 32063; 32119; 32191;
   32257; 32321; 32381; 32443; 32507; 32573; 32633; 32693; 32749; 32833; 32887; 32957;
   33023; 33083; 33151; 33211; 33247; 33343; 33409; 33469; 33533; 33601; 33647; 33721;
   33791; 33857; 33911; 33967; 34039; 34061; 34171; 34231; 34303; 34369; 34429; 34487;
   34549; 34613; 34687; 34747; 34807; 34877; 34939; 34981; 35069; 35129; 35201; 35257;
   35327; 35393; 35449; 35521; 35573; 35617; 35677; 35771; 35839; 35899; 35969; 36017;
   36097; 36161; 36217; 36277; 36353; 36389; 36479; 36541; 36607; 36671; 36721; 36793;
   36857; 36929; 36979; 37057; 37117; 37181; 37243; 37313; 37369; 37441; 37501; 37567;
   37633; 37693; 37747; 37813; 37889; 37951; 38011; 38069; 38119; 38201; 38273; 38333;
   38393; 38461; 38501; 38593; 38653; 38713; 38783; 38839; 38903; 38977; 39041; 39103;
   39163; 39233; 39293; 39359; 39419; 39461; 39551; 39607; 39679; 39733; 39799; 39869;
   39937; 39989; 40063; 40129; 40193; 40253; 40289; 40361; 40433; 40507; 40577; 40639;
   40699; 40763; 40829; 40897; 40961; 41023; 41081; 41149; 41213; 41281; 41341; 41399;
   41467; 41521; 41597; 41659; 41729; 41777; 41851; 41911; 41983; 42043; 42101; 42169;
   42239; 42299; 42359; 42433; 42491; 42557; 42611; 42689; 42751; 42797; 42863; 42943;
   43003; 43067; 43133; 43201; 43261; 43321; 43391; 43457; 43517; 43579; 43649; 43711;
   43777; 43801; 43891; 43969; 44029; 44089; 44159; 44221; 44281; 44351; 44417; 44453;
   44543; 44587; 44657; 44729; 44797; 44851; 44927; 44987; 45053; 45121; 45181; 45247;
   45307; 45377; 45439; 45503; 45569; 45631; 45697; 45757; 45823; 45887; 45953; 45989;
   46073; 46141; 46199; 46273; 46337; 46399; 46457; 46523; 46591; 46649; 46703; 46771;
   46831; 46901; 46957; 47041; 47093; 47161; 47221; 47297; 47353; 47419; 47459; 47543;
   47609; 47681; 47743; 47809; 47869; 47933; 47981; 48049; 48121; 48193; 48247; 48313;
   48383; 48449; 48497; 48571; 48623; 48679; 48767; 48823; 48889; 48953; 49019; 49081;
   49139; 49211; 49279; 49339; 49409; 49463; 49537; 49597; 49663; 49727; 49789; 49853;
   49921; 49957; 50047; 50111; 50177; 50231; 50291; 50363; 50423; 50497; 50551; 50599;
   50683; 50753; 50789; 50873; 50929; 51001; 51071; 51137; 51199; 51263; 51329; 51383;
   51449; 51521; 51581; 51647; 51713; 51769; 51839; 51899; 51949; 52027; 52081; 52153;
   52223; 52289; 52321; 52391; 52457; 52543; 52609; 52673; 52733; 52783; 52861; 52919;
   52981; 53051; 53117; 53173; 53239; 53309; 53377; 53441; 53503; 53569; 53633; 53693;
   53759; 53819; 53887; 53951; 54013; 54059; 54139; 54193; 54269; 54331; 54401; 54449;
   54521; 54583; 54647; 54721; 54779; 54833; 54907; 54973; 55021; 55103; 55163; 55229;
   55291; 55351; 55411; 55487; 55547; 55609; 55681; 55733; 55807; 55871; 55933; 55997;
   56053; 56123; 56179; 56249; 56311; 56383; 56443; 56509; 56569; 56633; 56701; 56767;
   56827; 56897; 56957; 56999; 57089; 57149; 57203; 57271; 57331; 57397; 57467; 57529;
   57601; 57653; 57727; 57793; 57853; 57917; 57977; 58049; 58111; 58171; 58237; 58271;
   58369; 58427; 58481; 58549; 58613; 58687; 58741; 58789; 58831; 58943; 59009; 59069;
   59123; 59197; 59263; 59281; 59393; 59453; 59513; 59581; 59629; 59707; 59771; 59833;
   59887; 59957; 60029; 60091; 60161; 60223; 60289; 60353; 60413; 60457; 60539; 60607;
   60661; 60737; 60793; 60859; 60923; 60961; 61057; 61121; 61169; 61231; 61297; 61363;
   61441; 61493; 61561; 61631; 61687; 61757; 61819; 61879; 61949; 62017; 62081; 62143;
   62207; 62273; 62327; 62401; 62459; 62507; 62591; 62653; 62701; 62773; 62827; 62903;
   62971; 63031; 63103; 63149; 63211; 63281; 63361; 63421; 63487; 63541; 63617; 63671;
   63743; 63809; 63863; 63929; 63997; 64063; 64123; 64189; 64237; 64319; 64381; 64439;
   64513; 64577; 64633; 64693; 64763; 64817; 64891; 64951; 65011; 65089; 65147; 65213;
   65269; 65327; 65407; 65449].

Definition prime_table2 : list Z :=
  [1021; 2039; 3067; 4093; 5119; 6143; 7159; 8191; 9209; 10223; 11261; 12281;
   13309; 14327; 15359; 16381; 17401; 18427; 19447; 20479; 21503; 22511; 23549; 24571;
   25589; 26597; 27647; 28669; 29683; 30713; 31741; 32749; 33791; 34807; 35839; 36857;
   37879; 38903; 39929; 40949; 41983; 43003; 44029; 45053; 46073; 47093; 48121; 49139;
   50159; 51199; 52223; 53239; 54269; 55291; 56311; 57331; 58367; 59387; 60413; 61417;
   62459; 63487; 64499; 65521; 66553; 67579; 68597; 69623; 70639; 71671; 72701; 73727;
   74747; 75773; 76781; 77813; 78839; 79867; 80863; 81919; 82939; 83939; 84991; 86011;
   87037; 88037; 89087; 90107; 91129; 92153; 93179; 94207; 95231; 96233; 97259; 98299;
   99317; 100343; 101363; 102397; 103423; 104417; 105467; 106487; 107509; 108541; 109567; 110587;
   111611; 112621; 113657; 114679; 115693; 116731; 117757; 118757; 119797; 120829; 121853; 122869;
   123887; 124919; 125941; 126967; 127997; 129023; 130043; 131071; 132071; 133117; 134129; 135151;
   136189; 137209; 138239; 139241; 140281; 141311; 142327; 143357; 144383; 145399; 146423; 147451;
   148471; 149503; 150523; 151549; 152567; 153589; 154621; 155627; 156671; 157679; 158699; 159739;
   160757; 161783; 162791; 163819; 164839; 165887; 166909; 167917; 168943; 169957; 171007; 172031;
   173053; 174079; 175103; 176123; 177131; 178169; 179173; 180221; 181243; 182261; 183289; 184309;
   185327; 186343; 187387; 188407; 189439; 190409; 191473; 192499; 193513; 194543; 195581; 196597;
   197621; 198647; 199679; 200699; 201709; 202751; 203773; 204797; 205823; 206827; 207869; 208891;
   209917; 210943; 211949; 212987; 214009; 214993; 216061; 217081; 218111; 219133; 220151; 221173;
   222199; 223229; 224251; 225263; 226283; 227303; 228341; 229373; 230393; 231419; 232439; 233437;
   234473; 235519; 236527; 237563; 238591; 239611; 240631; 241663; 242681; 243709; 244733; 245759;
   246781; 247799; 248827; 249853; 250871; 251903; 252919; 253951; 254971; 255989; 257017; 258031;
   259033; 260089; 261101; 262139; 263167; 264179; 265207; 266239; 267259; 268283; 269281; 270329;
   271357; 272383; 273367; 274423; 275453; 276467; 277499; 278503; 279551; 280561; 281581; 282617;
   283639; 284659; 285673; 286711; 287731; 288767; 289789; 290803; 291833; 292849; 293863; 294911;
   295909; 296941; 297971; 298999; 300023; 301051; 302053; 303097; 304127; 305147; 306169; 307189;
   308219; 309241; 310243; 311293; 312313; 313343; 314359; 315389; 316403; 317437; 318457; 319483;
   320483; 321509; 322559; 323581; 324593; 325631; 326633; 327673; 328687; 329723; 330749; 331769;
   332791; 333821; 334843; 335857; 336887; 337919; 338927; 339959; 340979; 341993; 343037; 344053;
   345067; 346111; 347131; 348149; 349183; 350191; 351229; 352249; 353263; 354301; 355321; 356351;
   357359; 358373; 359419; 360439; 361469; 362473; 363497; 364543; 365567; 366547; 367613; 368633;
   369661; 370687; 371699; 372733; 373757; 374783; 375799; 376823; 377851; 378869; 379903; 380917;
   381949; 382961; 383987; 385013; 386047; 387071; 388081; 389117; 390119; 391163; 392177; 393209;
   394223; 395261; 396269; 397303; 398323; 399353; 400381; 401407; 402419; 403439; 404461; 405499;
   406517; 407527; 408563; 409597; 410623; 411641; 412667; 413689; 414709; 415729; 416761; 417773;
   418813; 419831; 420859; 421847; 422911; 423931; 424939; 425977; 427001; 428027; 429043; 430061;
   431099; 432121; 433151; 434167; 435191; 436217; 437243; 438271; 439289; 440311; 441319; 442367;
   443389; 444403; 445433; 446461; 447481; 448451; 449473; 450557; 451579; 452597; 453631; 454637;
   455659; 456697; 457711; 458747; 459763; 460793; 461819; 462841; 463867; 464879; 465917; 466919;
   467963; 468983; 469993; 471007; 472063; 473027; 474101; 475109; 476143; 477163; 478207; 479231;
   480209; 481249; 482281; 483323; 484339; 485371; 486397; 487423; 488441; 489457; 490493; 491503;
   492523; 493567; 494591; 495613; 496631; 497663; 498679; 499711; 500729; 501731; 502781; 503803;
   504821; 505823; 506873; 507901; 508919; 509947; 510943; 511997; 513017; 514021; 515041; 516091;
   517091; 518137; 519161; 520151; 521201; 522239; 523261; 524287; 525299; 526307; 527353; 528383;
   529393; 530429; 531383; 532453; 533459; 534511; 535547; 536563; 537599; 538621; 539641; 540629;
   541693; 542719; 543713; 544759; 545791; 546781; 547831; 548861; 549883; 550909; 551933; 552917;
   553981; 554977; 556027; 557041; 558067; 559099; 560123; 561109; 562169; 563197; 564197; 565247;
   566233; 567277; 568303; 569323; 570359; 571381; 572399; 573437; 574439; 575479; 576509; 577531;
   578537; 579583; 580607; 581617; 582649; 583673; 584699; 585727; 586741; 587773; 588779; 589811;
   590839; 591863; 592877; 593903; 594931; 595967; 596987; 598007; 599023; 600053; 601079; 602111;
   603133; 604073; 605177; 606181; 607219; 608213; 609277; 610301; 611323; 612349; 613367; 614387;
   615413; 616439; 617471; 618463; 619511; 620531; 621541; 622577; 623591; 624607; 625663; 626687;
   627709; 628721; 629747; 630737; 631789; 632813; 633833; 634871; 635893; 636919; 637939; 638971;
   639997; 640993; 642013; 643061; 644089; 645097; 646103; 647161; 648191; 649183; 650227; 651257;
   652283; 653311; 654323; 655357; 656377; 657403; 658417; 659453; 660449; 661483; 662527; 663547;
   664571; 665591; 666607; 667643; 668671; 669689; 670711; 671743; 672767; 673787; 674813; 675839;
   676861; 677857; 678907; 679933; 680959; 681983; 683003; 684017; 685051; 686057; 687101; 688111;
   689141; 690163; 691199; 692221; 693223; 694271; 695293; 696317; 697327; 698359; 699383; 700393;
   701419; 702451; 703471; 704507; 705533; 706547; 707573; 708601; 709609; 710641; 711679; 712697;
   713681; 714751; 715753; 716789; 717817; 718847; 719839; 720887; 721909; 722933; 723967; 724991;
   726013; 727021; 728047; 729073; 730111; 731117; 732157; 733177; 734207; 735211; 736249; 737279;
   738301; 739327; 740351; 741373; 742393; 743423; 744431; 745471; 746483; 747499; 748541; 749557;
   750571; 751613; 752639; 753659; 754651; 755707; 756727; 757753; 758783; 759799; 760813; 761833;
   762877; 763901; 764903; 765949; 766967; 767957; 769019; 770047; 771049; 772091; 773117; 774143;
   775163; 776183; 777209; 778237; 779249; 780287; 781309; 782329; 783359; 784379; 785377; 786431;
   787447; 788479; 789493; 790523; 791543; 792563; 793591; 794593; 795647; 796657; 797689; 798713;
   799741; 800759; 801791; 802811; 803819; 804857; 805877; 806903; 807931; 808957; 809983; 810989;
   812011; 813049; 814069; 815063; 816121; 817151; 818173; 819187; 820223; 821209; 822259; 823283;
   824287; 825343; 826363; 827389; 828409; 829399; 830449; 831461; 832499; 833509; 834527; 835559;
   836573; 837631; 838633; 839669; 840703; 841727; 842747; 843763; 844777; 845809; 846841; 847871;
   848893; 849917; 850943; 851957; 852989; 853999; 855031; 856061; 857083; 858103; 859121; 860143;
   861167; 862207; 863231; 864251; 865261; 866293; 867319; 868349; 869371; 870391; 871393; 872441;
   873469; 874487; 875519; 876529; 877567; 878573; 879607; 880603; 881663; 882659; 883703; 884717;
   885737; 886777; 887759; 888827; 889829; 890867; 891899; 892919; 893939; 894973; 895987; 897019;
   898033; 899069; 900091; 901111; 902141; 903163; 904181; 905213; 906233; 907259; 908287; 909301;
   910307; 911359; 912367; 913397; 914429; 915451; 916477; 917503; 918497; 919531; 920561; 921589;
   922619; 923641; 924661; 925679; 926707; 927743; 928703; 929791; 930779; 931837; 932863; 933883;
   934909; 935903; 936953; 937969; 939007; 940031; 941041; 942079; 943097; 944123; 945151; 946163;
   947197; 948187; 949243; 950269; 951283; 952313; 953341; 954367; 955391; 956401; 957433; 958459;
   959479; 960499; 961531; 962543; 963581; 964589; 965623; 966653; 967667; 968699; 969721; 970747;
   971767; 972799; 973823; 974837; 975869; 976883; 977897; 978931; 979949; 980963; 981983; 982981;
   984059; 985079; 986101; 987127; 988157; 989173; 990181; 991229; 992249; 993269; 994303; 995327;
   996329; 997369; 998399; 999389; 1000429; 1001467; 1002493; 1003517; 1004537; 1005553; 1006589; 1007609;
   1008617; 1009651; 1010687; 1011697; 1012733; 1013741; 1014779; 1015769; 1016789; 1017851; 1018879; 1019903;
   1020913; 1021919; 1022963; 1023991; 1025021; 1026043; 1027067; 1028089; 1029113; 1030121; 1031161; 1032191;
   1033189; 1034239; 1035263; 1036271; 1037303; 1038329; 1039351; 1040381; 1041373; 1042427; 1043453; 1044479;
   1045493; 1046527; 1047551;
   0].

Definition prime_table3 : list Z :=
  [131071; 262139; 393209; 524287; 655357; 786431; 917503; 1048573; 1179641; 1310719; 1441771; 1572853;
   1703903; 1835003; 1966079; 2097143; 2228221; 2359267; 2490337; 2621431; 2752499; 2883577; 3014653; 3145721;
   3276799; 3407857; 3538933; 3670013; 3801073; 3932153; 4063217; 4194301; 4325359; 4456433; 4587503; 4718579;
   4849651; 4980727; 5111791; 5242877; 5373931; 5505023; 5636077; 5767129; 5898209; 6029299; 6160381; 6291449;
   6422519; 6553577; 6684659; 6815741; 6946813; 7077883; 7208951; 7340009; 7471099; 7602151; 7733233; 7864301;
   7995391; 8126453; 8257531; 8388593; 8519647; 8650727; 8781797; 8912887; 9043967; 9175037; 9306097; 9437179;
   9568219; 9699323; 9830393; 9961463; 10092539; 10223593; 10354667; 10485751; 10616831; 10747903; 10878961; 11010037;
   11141113; 11272181; 11403247; 11534329; 11665403; 11796469; 11927551; 12058621; 12189677; 12320753; 12451807; 12582893;
   12713959; 12845033; 12976121; 13107197; 13238263; 13369333; 13500373; 13631477; 13762549; 13893613; 14024671; 14155763;
   14286809; 14417881; 14548979; 14680063; 14811133; 14942197; 15073277; 15204349; 15335407; 15466463; 15597559; 15728611;
   15859687; 15990781; 16121849; 16252919; 16383977; 16515067; 16646099; 16777213; 16908263; 17039339; 17170429; 17301463;
   17432561; 17563633; 17694709; 17825791; 17956849; 18087899; 18219001; 18350063; 18481097; 18612211; 18743281; 18874367;
   19005433; 19136503; 19267561; 19398647; 19529717; 19660799; 19791869; 19922923; 20054011; 20185051; 20316151; 20447191;
   20578297; 20709347; 20840429; 20971507; 21102583; 21233651; 21364727; 21495797; 21626819; 21757951; 21889019; 22020091;
   22151167; 22282199; 22413289; 22544351; 22675403; 22806521; 22937591; 23068667; 23199731; 23330773; 23461877; 23592937;
   23724031; 23855101; 23986159; 24117217; 24248299; 24379391; 24510463; 24641479; 24772603; 24903667; 25034731; 25165813;
   25296893; 25427957; 25559033; 25690097; 25821179; 25952243; 26083273; 26214379; 26345471; 26476543; 26607611; 26738687;
   26869753; 27000817; 27131903; 27262931; 27394019; 27525109; 27656149; 27787213; 27918323; 28049407; 28180459; 28311541;
   28442551; 28573673; 28704749; 28835819; 28966909; 29097977; 29229047; 29360087; 29491193; 29622269; 29753341; 29884411;
   30015481; 30146531; 30277627; 30408701; 30539749; 30670847; 30801917; 30932987; 31064063; 31195117; 31326181; 31457269;
   31588351; 31719409; 31850491; 31981567; 32112607; 32243707; 32374781; 32505829; 32636921; 32767997; 32899037; 33030121;
   33161201; 33292283; 33423319; 33554393; 33685493; 33816571; 33947621; 34078699; 34209787; 34340861; 34471933; 34602991;
   34734079; 34865141; 34996223; 35127263; 35258347; 35389423; 35520467; 35651579; 35782613; 35913727; 36044797; 36175871;
   36306937; 36438013; 36569083; 36700159; 36831227; 36962291; 37093373; 37224437; 37355503; 37486591; 37617653; 37748717;
   37879783; 38010871; 38141951; 38273023; 38404081; 38535151; 38666219; 38797303; 38928371; 39059431; 39190519; 39321599;
   39452671; 39583727; 39714799; 39845887; 39976939; 40108027; 40239103; 40370173; 40501231; 40632313; 40763369; 40894457;
   41025499; 41156569; 41287651; 41418739; 41549803; 41680871; 41811949; 41943023; 42074101; 42205183; 42336253; 42467317;
   42598397; 42729437; 42860537; 42991609; 43122683; 43253759; 43384813; 43515881; 43646963; 43778011; 43909111; 44040187;
   44171261; 44302303; 44433391; 44564461; 44695549; 44826611; 44957687; 45088739; 45219827; 45350869; 45481973; 45613039;
   45744121; 45875191; 46006249; 46137319; 46268381; 46399471; 46530557; 46661627; 46792699; 46923761; 47054809; 47185907;
   47316991; 47448061; 47579131; 47710207; 47841257; 47972341; 48103417; 48234451; 48365563; 48496639; 48627697; 48758783;
   48889837; 49020913; 49151987; 49283063; 49414111; 49545193; 49676267; 49807327; 49938431; 50069497; 50200573; 50331599;
   50462683; 50593783; 50724859; 50855899; 50987003; 51118069; 51249131; 51380179; 51511277; 51642341; 51773431; 51904511;
   52035569; 52166641; 52297717; 52428767; 52559867; 52690919; 52821983; 52953077; 53084147; 53215229; 53346301; 53477357;
   53608441; 53739493; 53870573; 54001663; 54132721; 54263789; 54394877; 54525917; 54656983; 54788089; 54919159; 55050217;
   55181311; 55312351; 55443433; 55574507; 55705589; 55836659; 55967701; 56098813; 56229881; 56360911; 56491993; 56623093;
   56754167; 56885219; 57016319; 57147379; 57278461; 57409529; 57540599; 57671671; 57802739; 57933817; 58064861; 58195939;
   58327039; 58458091; 58589161; 58720253; 58851307; 58982389; 59113469; 59244539; 59375587; 59506679; 59637733; 59768831;
   59899901; 60030953; 60162029; 60293119; 60424183; 60555227; 60686321; 60817397; 60948479; 61079531; 61210603; 61341659;
   61472753; 61603811; 61734899; 61865971; 61997053; 62128127; 62259193; 62390261; 62521331; 62652407; 62783477; 62914549;
   63045613; 63176693; 63307763; 63438839; 63569917; 63700991; 63832057; 63963131; 64094207; 64225267; 64356349; 64487417;
   64618493; 64749563; 64880587; 65011703; 65142769; 65273851; 65404909; 65535989; 65667067; 65798137; 65929211; 66060277;
   66191351; 66322427; 66453479; 66584561; 66715643; 66846709; 66977767; 67108859; 67239883; 67370999; 67502063; 67633127;
   67764223; 67895251; 68026363; 68157433; 68288503; 68419567; 68550631; 68681719; 68812769; 68943851; 69074933; 69205987;
   69337087; 69468151; 69599221; 69730303; 69861331; 69992443; 70123513; 70254563; 70385641; 70516729; 70647793; 70778861;
   70909933; 71041021; 71172091; 71303153; 71434229; 71565283; 71696363; 71827423; 71958521; 72089573; 72220663; 72351733;
   72482807; 72613861; 72744937; 72876031; 73007089; 73138171; 73269247; 73400311; 73531379; 73662461; 73793521; 73924583;
   74055637; 74186747; 74317801; 74448877; 74579951; 74711027; 74842099; 74973181; 75104243; 75235327; 75366397; 75497467;
   75628513; 75759613; 75890653; 76021661; 76152821; 76283897; 76414973; 76546039; 76677113; 76808119; 76939253; 77070317;
   77201347; 77332471; 77463541; 77594599; 77725691; 77856767; 77987821; 78118903; 78249973; 78381047; 78512101; 78643199;
   78774259; 78905303; 79036411; 79167479; 79298543; 79429619; 79560673; 79691761; 79822829; 79953901; 80084969; 80216063;
   80347103; 80478199; 80609279; 80740339; 80871419; 81002489; 81133567; 81264587; 81395683; 81526763; 81657841; 81788923;
   81919993; 82051043; 82182137; 82313213; 82444279; 82575331; 82706431; 82837501; 82968563; 83099641; 83230717; 83361781;
   83492863; 83623931; 83754997; 83886053; 84017117; 84148213; 84279277; 84410353; 84541421; 84672487; 84803581; 84934621;
   85065719; 85196789; 85327849; 85458929; 85589989; 85721081; 85852147; 85983217; 86114279; 86245343; 86376443; 86507507;
   86638577; 86769647; 86900731; 87031759; 87162857; 87293939; 87425021; 87556087; 87687167; 87818239; 87949307; 88080359;
   88211449; 88342519; 88473569; 88604653; 88735721; 88866797; 88997827; 89128939; 89260027; 89391103; 89522171; 89653217;
   89784313; 89915383; 90046441; 90177533; 90308599; 90439667; 90570751; 90701797; 90832871; 90963967; 91095013; 91226101;
   91357177; 91488251; 91619321; 91750391; 91881443; 92012537; 92143609; 92274671; 92405723; 92536823; 92667863; 92798969;
   92930039; 93061117; 93192191; 93323249; 93454307; 93585379; 93716471; 93847549; 93978559; 94109681; 94240733; 94371833;
   94502899; 94633963; 94765039; 94896119; 95027197; 95158249; 95289329; 95420401; 95551487; 95682541; 95813621; 95944691;
   96075739; 96206839; 96337919; 96468979; 96600041; 96731101; 96862169; 96993269; 97124347; 97255409; 97386467; 97517543;
   97648637; 97779701; 97910759; 98041831; 98172887; 98303999; 98435063; 98566121; 98697187; 98828281; 98959337; 99090427;
   99221489; 99352567; 99483647; 99614689; 99745787; 99876851; 100007927; 100138979; 100270069; 100401139; 100532207; 100663291;
   100794319; 100925431; 101056507; 101187577; 101318647; 101449717; 101580793; 101711839; 101842931; 101974009; 102105049; 102236149;
   102367189; 102498301; 102629369; 102760387; 102891499; 103022537; 103153649; 103284733; 103415791; 103546879; 103677949; 103809011;
   103940093; 104071157; 104202233; 104333311; 104464369; 104595397; 104726527; 104857589; 104988641; 105119741; 105250811; 105381841;
   105512951; 105644029; 105775079; 105906167; 106037237; 106168319; 106299379; 106430449; 106561523; 106692601; 106823677; 106954747;
   107085799; 107216891; 107347943; 107479033; 107610079; 107741167; 107872249; 108003323; 108134393; 108265459; 108396521; 108527603;
   108658681; 108789727; 108920831; 109051903; 109182947; 109314043; 109445107; 109576189; 109707253; 109838293; 109969403; 110100409;
   110231531; 110362559; 110493661; 110624753; 110755793; 110886883; 111017983; 111148963; 111280121; 111411173; 111542261; 111673343;
   111804389; 111935459; 112066553; 112197629; 112328683; 112459751; 112590839; 112721893; 112852981; 112984061; 113115133; 113246183;
   113377279; 113508319; 113639419; 113770457; 113901553; 114032599; 114163703; 114294721; 114425807; 114556913; 114687977; 114819031;
   114950131; 115081189; 115212287; 115343341; 115474417; 115605467; 115736539; 115867627; 115998719; 116129789; 116260849; 116391917;
   116523007; 116654077; 116785133; 116916223; 117047291; 117178367; 117309421; 117440509; 117571523; 117702649; 117833711; 117964793;
   118095853; 118226893; 118358003; 118489081; 118620143; 118751207; 118882279; 119013347; 119144447; 119275511; 119406587; 119537653;
   119668723; 119799803; 119930873; 120061951; 120193019; 120324077; 120455147; 120586231; 120717307; 120848353; 120979447; 121110523;
   121241597; 121372649; 121503737; 121634801; 121765871; 121896949; 122028019; 122159101; 122290171; 122421241; 122552317; 122683391;
   122814463; 122945527; 123076601; 123207677; 123338737; 123469783; 123600857; 123731963; 123863023; 123994099; 124125161; 124256243;
   124387321; 124518397; 124649449; 124780531; 124911601; 125042663; 125173759; 125304787; 125435897; 125566963; 125698021; 125829103;
   125960189; 126091241; 126222293; 126353407; 126484469; 126615551; 126746623; 126877693; 127008733; 127139833; 127270849; 127401947;
   127533047; 127664113; 127795181; 127926263; 128057327; 128188409; 128319469; 128450533; 128581631; 128712691; 128843761; 128974841;
   129105901; 129236959; 129368051; 129499129; 129630199; 129761273; 129892333; 130023407; 130154483; 130285567; 130416631; 130547621;
   130678781; 130809853; 130940911; 131071987; 131203069; 131334131; 131465177; 131596279; 131727359; 131858413; 131989477; 132120557;
   132251621; 132382717; 132513781; 132644851; 132775931; 132907007; 133038053; 133169137; 133300207; 133431293; 133562329; 133693433;
   133824503; 133955581; 134086639;
   0].

Definition sf_nearest_prime (n : Z) : Z :=
  let n := if n <? 0 then s32 (- n) else n in
  if n <? 8192 then prime_table0 !!! Z.to_nat (Z.land (Z.shiftr n 3) 1023)
  else if n <? 64 * 1024 then prime_table1 !!! Z.to_nat (Z.land (Z.shiftr n 6) 1023)
  else if n <? 1024 * 1024 then prime_table2 !!! Z.to_nat (Z.land (Z.shiftr n 10) 1023)
  else if n <? 128 * 1024 * 1024 then prime_table3 !!! Z.to_nat (Z.land (Z.shiftr n 17) 1023)
  else if n <? 1024 * 1024 * 1024 then prime_table3 !!! Z.to_nat (Z.land (Z.shiftr n 20) 1023)
  else 134086639.

(** ** Primality by trial division *)

(** The primes below 1024. *)
Fixpoint sieve (n : nat) (k : Z) (ps : list Z) : list Z :=
  match n with
  | O => rev ps
  | S n => sieve n (k + 1) (if existsb (λ p, k mod p =? 0) ps then ps else k :: ps)
  end.
Definition divisors : list Z := Eval vm_compute in sieve 1022 2 [].

(** No divisor up to the square root of [n]. *)
Fixpoint no_divisor (ps : list Z) (n : Z) : bool :=
  match ps with
  | [] => true
  | p :: ps => if n <? p * p then true else if n mod p =? 0 then false else no_divisor ps n
  end.
Definition prime_below (n : Z) : bool := (1 <? n) && no_divisor divisors n.

Lemma divisors_complete (d : Z) : 2 ≤ d < 1024 → ∃ p, p ∈ divisors ∧ (p | d).
Proof.
  intros Hd.
  assert (forallb (λ d, existsb (λ p, d mod p =? 0) divisors) (seqZ 2 1022) = true) as H
    by (vm_compute; reflexivity).
  rewrite forallb_forall in H. specialize (H d). lapply H; [clear H; intros H|].
  - apply existsb_exists in H as (p & Hp & E). exists p. split; [by apply list_elem_of_In|].
    assert (2 ≤ p).
    { assert (forallb (λ p, 2 <=? p) divisors = true) as H2 by (vm_compute; reflexivity).
      rewrite forallb_forall in H2. specialize (H2 p Hp). lia. }
    apply Z.mod_divide; lia.
  - apply list_elem_of_In, elem_of_seqZ. lia.
Qed.

Fixpoint increasing (p : Z) (ps : list Z) : bool :=
  match ps with [] => true | q :: ps => (p <? q) && increasing q ps end.

Lemma increasing_all (p q : Z) (ps : list Z) : increasing p ps = true → q ∈ ps → p < q.
Proof.
  revert p. induction ps as [|r ps IH]; intros p H; simpl in H; [by intros ?%not_elem_of_nil|].
  apply andb_true_iff in H as [H1 H2]. intros [->|Hin]%elem_of_cons; [lia|].
  specialize (IH r H2 Hin). lia.
Qed.

Lemma no_divisor_spec (q n p : Z) (ps : list Z) :
  increasing q ps = true → 0 ≤ q → no_divisor ps n = true → p ∈ ps → p * p ≤ n → ¬ (p | n).
Proof.
  revert q. induction ps as [|r ps IH]; intros q Hi Hq H Hin Hp; simpl in *; [by apply not_elem_of_nil in Hin|].
  apply andb_true_iff in Hi as [H1 H2].
  destruct (Z.ltb_spec n (r * r)) as [Hn|Hn].
  - apply elem_of_cons in Hin as [->|Hin]; [lia|]. pose proof (increasing_all _ _ _ H2 Hin). nia.
  - destruct (Z.eqb_spec (n mod r) 0) as [|Hm]; [done|].
    apply elem_of_cons in Hin as [->|Hin].
    + rewrite <-Z.mod_divide by lia. done.
    + apply (IH r); [done|lia|done..].
Qed.

Lemma prime_below_spec (n : Z) : n < 2 ^ 20 → prime_below n = true → prime n.
Proof.
  intros Hn [H1 H2]%andb_true_iff. apply prime_alt. split; [lia|]. intros d Hd Hdiv.
  assert (∃ d, 2 ≤ d ∧ d * d ≤ n ∧ (d | n)) as (e & He & Hee & Hdv).
  { destruct (Z.le_gt_cases (d * d) n); [by exists d; auto with lia|].
    destruct Hdiv as [k ->]. exists k. split_and!; [nia|nia|]. by exists d; lia. }
  destruct (divisors_complete e) as (p & Hp & Hpe); [change (2 ^ 20) with 1048576 in Hn; nia|].
  assert (0 < p) as H0.
  { apply (increasing_all 0 p divisors); [by vm_compute|done]. }
  apply (no_divisor_spec 0 n p divisors); [by vm_compute|done|done|done| |by transitivity e].
  assert (p ≤ e) by (apply Z.divide_pos_le; [lia|done]). nia.
Qed.

(** A number with a smaller divisor among [ps]. *)
Fixpoint has_divisor (ps : list Z) (n : Z) : bool :=
  match ps with
  | [] => false
  | p :: ps => if n <=? p then false else if n mod p =? 0 then true else has_divisor ps n
  end.

Lemma has_divisor_spec (ps : list Z) (n : Z) :
  has_divisor ps n = true → ∃ p, p ∈ ps ∧ p < n ∧ n mod p = 0.
Proof.
  induction ps as [|p ps IH]; simpl; [done|].
  destruct (Z.leb_spec n p); [done|]. destruct (Z.eqb_spec (n mod p) 0).
  - intros _. exists p. split_and!; [by left|done|done].
  - intros (q & Hq & ?)%IH. exists q. split; [by right|done].
Qed.

Definition composite (n : Z) : bool := has_divisor divisors n.

Lemma composite_spec (n : Z) : composite n = true → ¬ prime n.
Proof.
  intros (p & Hp & H1 & H2)%has_divisor_spec Hn.
  assert (1 < p) as H0 by (by apply (increasing_all 1 p divisors); [by vm_compute|]).
  apply prime_alt in Hn as [_ Hn]. apply (Hn p); [lia|]. apply Z.mod_divide; lia.
Qed.

(** ** The entries *)

(** [p] is the greatest prime up to [c]. *)
Definition greatest_prime (p c : Z) : Prop := prime p ∧ p ≤ c ∧ ∀ q, p < q ≤ c → ¬ prime q.

Definition check_entry (c p : Z) : bool :=
  prime_below p && (p <=? c) && forallb composite (seqZ (p + 1) (c - p)).

Lemma check_entry_spec (c p : Z) : c < 2 ^ 20 → check_entry c p = true → greatest_prime p c.
Proof.
  intros Hc [[H1 H2]%andb_true_iff H3]%andb_true_iff. split_and!; [|lia|].
  - apply prime_below_spec; [lia|done].
  - intros q Hq. rewrite forallb_forall in H3. apply composite_spec, H3, list_elem_of_In, elem_of_seqZ. lia.
Qed.

(** Entry [i] of a table is the greatest prime up to [step * i + off]. *)
Fixpoint check_table (step c : Z) (t : list Z) : bool :=
  match t with [] => true | p :: t => check_entry c p && check_table step (c + step) t end.

Lemma check_table_spec (step c : Z) (t : list Z) (i : nat) :
  check_table step c t = true → (i < length t)%nat → check_entry (c + step * Z.of_nat i) (t !!! i) = true.
Proof.
  revert c i. induction t as [|p t IH]; intros c i H Hi; simpl in *; [lia|].
  apply andb_true_iff in H as [H1 H2]. destruct i as [|i].
  - by rewrite Z.mul_0_r, Z.add_0_r.
  - specialize (IH (c + step) i H2 ltac:(lia)). rewrite <-IH. f_equal; simpl; lia.
Qed.

Lemma table0_checked : check_table 8 9 (drop 1 prime_table0) = true.
Proof. vm_compute. reflexivity. Qed.
Lemma table1_checked : check_table 64 65 (drop 1 prime_table1) = true.
Proof. vm_compute. reflexivity. Qed.
Lemma table2_checked : check_table 1024 1024 (take 1023 prime_table2) = true.
Proof. vm_compute. reflexivity. Qed.
Lemma table3_bounded :
  forallb (λ i, prime_table3 !!! Z.to_nat i <=? 131072 * (i + 1)) (seqZ 0 1024) = true.
Proof. vm_compute. reflexivity. Qed.

(** The index of a table. *)
Lemma table_index (a k : Z) : 0 ≤ k → 0 ≤ a < 1024 * 2 ^ k →
  Z.land (Z.shiftr a k) 1023 = a / 2 ^ k ∧ 0 ≤ a / 2 ^ k < 1024.
Proof.
  intros Hk Ha. rewrite Z.shiftr_div_pow2 by done. pose proof (pow2_pos k Hk).
  assert (0 ≤ a / 2 ^ k < 1024).
  { split; [apply Z.div_pos; lia|]. apply Z.div_lt_upper_bound; lia. }
  split; [|done]. change 1023 with (Z.ones 10). rewrite Z.land_ones by done.
  apply Z.mod_small. done.
Qed.

Lemma sf_nearest_prime_abs (n : Z) : - 2 ^ 31 < n < 2 ^ 31 → sf_nearest_prime n = sf_nearest_prime (Z.abs n).
Proof.
  intros Hn. unfold sf_nearest_prime at 1 2. assert (Z.abs n <? 0 = false) as -> by lia.
  destruct (Z.ltb_spec n 0); [|by rewrite Z.abs_eq].
  assert (s32 (- n) = Z.abs n) as ->; [|done]. unfold s32.
  rewrite swrap_small by (change (2 ^ (32 - 1)) with (2 ^ 31); lia). lia.
Qed.

(** An entry of a checked table. *)
Lemma table_entry (step c : Z) (t : list Z) (i : Z) :
  check_table step c t = true → 0 ≤ i < Z.of_nat (length t) → c + step * i < 2 ^ 20 →
  greatest_prime (t !!! Z.to_nat i) (c + step * i).
Proof.
  intros Ht Hi Hc. apply check_entry_spec; [done|].
  pose proof (check_table_spec step c t (Z.to_nat i) Ht ltac:(lia)) as H.
  by rewrite Z2Nat.id in H by lia.
Qed.

(** ** The property *)

(** C35: [sf_nearest_prime] of [n] with [|n|] below 1047552 is a prime: the greatest
    up to the end of the table's step that holds [|n|] (3 below 8), so that no
    prime lies between the two.  From there to 2^20, and from 134086656 to 2^27,
    it answers 0, the entry for which the table has no initialiser; and from 2^27
    to 2^30 its answer is at most a quarter of [|n|]. *)
Theorem sf_nearest_prime_correct (n : Z) :
  - 2 ^ 31 < n < 2 ^ 31 →
  let a := Z.abs n in let p := sf_nearest_prime n in
  (a < 8 → p = 3) ∧
  (8 ≤ a < 8192 → greatest_prime p (8 * (a / 8) + 1)) ∧
  (8192 ≤ a < 65536 → greatest_prime p (64 * (a / 64) + 1)) ∧
  (65536 ≤ a < 1047552 → greatest_prime p (1024 * (a / 1024) + 1024)) ∧
  (1047552 ≤ a < 2 ^ 20 ∨ 134086656 ≤ a < 2 ^ 27 → p = 0) ∧
  (2 ^ 27 ≤ a < 2 ^ 30 → 4 * p ≤ a).
Proof.
  intros Hn a p. unfold p. rewrite sf_nearest_prime_abs by done. fold a. assert (0 ≤ a) as Ha by lia.
  clearbody a. clear p Hn n. unfold sf_nearest_prime. assert (a <? 0 = false) as -> by lia.
  change (2 ^ 20) with (1024 * 1024). change (2 ^ 27) with (128 * 1024 * 1024).
  change (2 ^ 30) with (1024 * 1024 * 1024). 
  split_and!; intros H.
  - assert (a <? 8192 = true) as -> by lia.
    destruct (table_index a 3) as [-> _]; [done|lia|].
    assert (a / 2 ^ 3 = 0) as -> by (apply Z.div_small; lia). by vm_compute.
  - assert (a <? 8192 = true) as -> by lia.
    destruct (table_index a 3) as [-> Hi]; [done|lia|]. change (2 ^ 3) with 8 in *.
    assert (1 ≤ a / 8) by (apply Z.div_le_lower_bound; lia).
    pose proof (table_entry 8 9 _ (a / 8 - 1) table0_checked ltac:(change (length _) with 1023%nat; lia) ltac:(lia)) as E.
    rewrite lookup_total_drop in E. replace (8 * (a / 8) + 1) with (9 + 8 * (a / 8 - 1)) by lia.
    by replace (Z.to_nat (a / 8)) with (1 + Z.to_nat (a / 8 - 1))%nat by lia.
  - assert (a <? 8192 = false) as -> by lia. assert (a <? 64 * 1024 = true) as -> by lia.
    destruct (table_index a 6) as [-> Hi]; [done|lia|]. change (2 ^ 6) with 64 in *.
    assert (1 ≤ a / 64) by (apply Z.div_le_lower_bound; lia).
    pose proof (table_entry 64 65 _ (a / 64 - 1) table1_checked ltac:(change (length _) with 1023%nat; lia) ltac:(lia)) as E.
    rewrite lookup_total_drop in E. replace (64 * (a / 64) + 1) with (65 + 64 * (a / 64 - 1)) by lia.
    by replace (Z.to_nat (a / 64)) with (1 + Z.to_nat (a / 64 - 1))%nat by lia.
  - assert (a <? 8192 = false) as -> by lia. assert (a <? 64 * 1024 = false) as -> by lia.
    assert (a <? 1024 * 1024 = true) as -> by lia.
    destruct (table_index a 10) as [-> Hi]; [done|lia|]. change (2 ^ 10) with 1024 in *.
    assert (a / 1024 < 1023) by (apply Z.div_lt_upper_bound; lia).
    pose proof (table_entry 1024 1024 _ (a / 1024) table2_checked ltac:(change (length _) with 1023%nat; lia) ltac:(lia)) as E.
    rewrite lookup_total_take, decide_True in E by lia.
    replace (1024 * (a / 1024) + 1024) with (1024 + 1024 * (a / 1024)) by lia. exact E.
  - assert (a <? 8192 = false) as -> by lia. assert (a <? 64 * 1024 = false) as -> by lia.
    destruct H as [H|H].
    + assert (a <? 1024 * 1024 = true) as -> by lia.
      destruct (table_index a 10) as [-> Hi]; [done|lia|]. change (2 ^ 10) with 1024 in *.
      assert (a / 1024 = 1023) as -> by (Z.to_euclidean_division_equations; lia). by vm_compute.
    + assert (a <? 1024 * 1024 = false) as -> by lia.
      assert (a <? 128 * 1024 * 1024 = true) as -> by lia.
      destruct (table_index a 17) as [-> Hi]; [done|lia|]. change (2 ^ 17) with 131072 in *.
      assert (a / 131072 = 1023) as -> by (Z.to_euclidean_division_equations; lia). by vm_compute.
  - assert (a <? 8192 = false) as -> by lia. assert (a <? 64 * 1024 = false) as -> by lia.
    assert (a <? 1024 * 1024 = false) as -> by lia. assert (a <? 128 * 1024 * 1024 = false) as -> by lia.
    assert (a <? 1024 * 1024 * 1024 = true) as -> by lia.
    destruct (table_index a 20) as [-> Hi]; [done|lia|]. change (2 ^ 20) with 1048576 in *.
    pose proof table3_bounded as E. rewrite forallb_forall in E.
    specialize (E (a / 1048576)). rewrite Z.leb_le in E.
    lapply E; [clear E; intros E|by apply list_elem_of_In, elem_of_seqZ].
    pose proof (Z.mul_div_le a 1048576). lia.
Qed.

Lemma sf_nearest_prime_correct_witness :
  sf_nearest_prime (-1000) = 997 ∧ greatest_prime (sf_nearest_prime 1000) 1001 ∧
  sf_nearest_prime 1048000 = 0 ∧ 4 * sf_nearest_prime 200000000 ≤ 200000000.
Proof.
  split_and!; [by vm_compute| | |].
  - apply (sf_nearest_prime_correct 1000); lia.
  - apply (sf_nearest_prime_correct 1048000); lia.
  - apply (sf_nearest_prime_correct 200000000); lia.
Defined.
