(* ===== verification/Sfhash.v ===== *)
(** * Generic hash tables (sfghash/sfghash.c, sfhashfcn.c)

    The code, over the word memory of [WordMem].  A structure is a block of
    words, one for each field, and a key a block of bytes; the name of a field
    is its offset.  [malloc], [rand], and the functions that a user may register
    for hashing, comparing and freeing are parameters; a call through a function
    pointer compares it with the functions of the files first.  Loops have
    fuel.  [myfree] of the test driver is here without the line that it prints. *)

From S2P Require Import Prelude WordMem Sfprime.

(** ** Library functions on bytes *)

Fixpoint strlen (fuel : nat) (p : Z) : M Z :=
  match fuel with
  | O => undefined
  | S fuel => c ← ld p 0; if c =? 0 then mret 0 else n ← strlen fuel (p + 1); mret (n + 1)
  end.

Fixpoint strcmp (fuel : nat) (a b : Z) : M Z :=
  match fuel with
  | O => undefined
  | S fuel =>
    x ← ld a 0; y ← ld b 0;
    if x =? y then (if x =? 0 then mret 0 else strcmp fuel (a + 1) (b + 1)) else mret (x - y)
  end.

Fixpoint memcmp (n : nat) (a b : Z) : M Z :=
  match n with
  | O => mret 0
  | S n => x ← ld a 0; y ← ld b 0; if x =? y then memcmp n (a + 1) (b + 1) else mret (x - y)
  end.

Fixpoint memcpy (n : nat) (dst src : Z) : M unit :=
  match n with O => mret tt | S n => x ← ld src 0; st dst 0 x;; memcpy n (dst + 1) (src + 1) end.

(** ** sfhashfcn.c *)

(** [struct _SFHASHFCN] *)
Definition seed : Z := 0.
Definition scale : Z := 8.
Definition hardener : Z := 16.
Definition hash_fcn : Z := 24.
Definition keycmp_fcn : Z := 32.

(** The addresses of [sfhashfcn_hash], of [memcmp] and of [myfree]. *)
Definition SFHASHFCN_HASH : Z := 1.
Definition MEMCMP : Z := 2.
Definition MYFREE : Z := 3.

(** What the program gives: [rand], and the functions a user registers, by address. *)
Class Environment := {
  rand : nat → Z;
  user_hash : Z → Z → Z → Z → M Z;
  user_keycmp : Z → Z → Z → Z → M Z;
  user_free : Z → Z → M unit;
}.

Section code.
Context `{HM : Malloc} `{HE : Environment}.

(** [malloc] failing leaves [p] NULL. *)
Definition sfhashfcn_new (m : Z) : M Z :=
  p ← calloc 8 5;
  if p =? 0 then mret 0
  else if m =? 0 then undefined
  else
    st p seed (u32 (sf_nearest_prime (s32 (Z.rem (rand 0) m + 3191))));;
    st p scale (u32 (sf_nearest_prime (s32 (Z.rem (rand 1) m + 709))));;
    st p hardener (u32 (s32 (rand 2 * rand 3) + 133824503));;
    st p hash_fcn SFHASHFCN_HASH;;
    st p keycmp_fcn MEMCMP;;
    mret p.

Definition sfhashfcn_free (p : Z) : M unit := if p =? 0 then mret tt else free 8 p.

Definition sfhashfcn_static (p : Z) : M unit :=
  st p seed 3193;; st p scale 719;; st p hardener 133824503.

(** [n] is not negative: [while(n)] counts down to 0. *)
Fixpoint hash_loop (n : nat) (p d hash : Z) : M Z :=
  match n with
  | O => mret hash
  | S n => s ← ld p scale; c ← ld d 0; hash_loop n p (d + 1) (u32 (u32 (hash * s) + c))
  end.

Definition sfhashfcn_hash (p d n : Z) : M Z :=
  if n <? 0 then undefined
  else
    s ← ld p seed; hash ← hash_loop (Z.to_nat n) p d s; h ← ld p hardener; mret (Z.lxor hash h).

Definition sfhashfcn_set_keyops (h hash keycmp : Z) : M Z :=
  if (h =? 0) || (hash =? 0) || (keycmp =? 0) then mret (-1)
  else st h hash_fcn hash;; st h keycmp_fcn keycmp;; mret 0.

Definition call_hash (f p d n : Z) : M Z :=
  if f =? SFHASHFCN_HASH then sfhashfcn_hash p d n else user_hash f p d n.
(** The size is a [size_t]. *)
Definition call_keycmp (f a b n : Z) : M Z :=
  if f =? MEMCMP then memcmp (Z.to_nat (u64 n)) a b else user_keycmp f a b (u64 n).

(** ** sfghash.c *)

Definition SFGHASH_NOMEM : Z := -2.
Definition SFGHASH_ERR : Z := -1.
Definition SFGHASH_OK : Z := 0.
Definition SFGHASH_INTABLE : Z := 1.

(** [SFGHASH_NODE] *)
Definition next : Z := 0.
Definition prev : Z := 8.
Definition key : Z := 16.
Definition data : Z := 24.

(** [SFGHASH] *)
Definition sfhashfcn : Z := 0.
Definition keysize : Z := 8.
Definition userkey : Z := 16.
Definition table : Z := 24.
Definition nrows : Z := 32.
Definition count : Z := 40.
Definition userfree : Z := 48.
Definition crow : Z := 56.
Definition cnode : Z := 64.
Definition splay : Z := 72.

(** [table[i]] *)
Definition row (tbl i : Z) : Z := tbl + 8 * i.

(** [s_free], on words and on bytes. *)
Definition s_free (stride p : Z) : M unit := if p =? 0 then mret tt else free stride p.

Definition myfree (p : Z) : M unit := free 1 p.
Definition call_userfree (f d : Z) : M unit := if f =? MYFREE then myfree d else user_free f d.

(** The pointers in the block that [s_alloc] returns: its argument is an [int]. *)
Definition table_words (n : Z) : nat := Z.to_nat (u64 (s32 (8 * n)) / 8).

Fixpoint clear_rows (n : nat) (p : Z) : M unit :=
  match n with O => mret tt | S n => st p 0 0;; clear_rows n (p + 8) end.

Definition sfghash_new (n ksize userkeys ufree : Z) : M Z :=
  let n := if 0 <? n then sf_nearest_prime n else s32 (- n) in
  h ← calloc 8 10;
  if h =? 0 then mret 0
  else
    f ← sfhashfcn_new n;
    st h sfhashfcn f;;
    if f =? 0 then free 8 h;; mret 0
    else
      tbl ← calloc 8 (table_words n);
      st h table tbl;;
      if tbl =? 0 then f ← ld h sfhashfcn; free 8 f;; free 8 h;; mret 0
      else
        clear_rows (Z.to_nat n) tbl;;
        st h userkey userkeys;; st h keysize ksize;; st h nrows n;; st h count 0;;
        st h userfree ufree;; st h crow 0;; st h cnode 0;; mret h.

Definition sfghash_splaymode (t n : Z) : M unit := st t splay n.

Definition sfghash_count (t : Z) : M Z := ld t count.

(** [strlen(key) + 1] for strings, [keysize] otherwise. *)
Definition key_length (fuel : nat) (strings : bool) (ksize k : Z) : M Z :=
  if strings then n ← strlen fuel k; mret (n + 1) else mret ksize.

(** The hash of the key, modulo the rows. *)
Definition key_index (t k klen : Z) : M Z :=
  f ← ld t sfhashfcn; hf ← ld f hash_fcn; hashkey ← call_hash hf f k klen;
  n ← ld t nrows; if n =? 0 then undefined else mret (hashkey mod u32 n).

Definition same_key (fuel : nat) (strings : bool) (t hnode k klen : Z) : M bool :=
  hk ← ld hnode key;
  if strings then r ← strcmp fuel hk k; mret (r =? 0)
  else f ← ld t sfhashfcn; cf ← ld f keycmp_fcn; r ← call_keycmp cf hk k klen; mret (r =? 0).

(** The first node of the chain with the key, or NULL. *)
Fixpoint find_loop (fuel fuel' : nat) (strings : bool) (t hnode k klen : Z) : M Z :=
  match fuel' with
  | O => undefined
  | S fuel' =>
    if hnode =? 0 then mret 0 else
    b ← same_key fuel strings t hnode k klen;
    if (b : bool) then mret hnode
    else n ← ld hnode next; find_loop fuel fuel' strings t n k klen
  end.

(** The key of a new node; [false] when there is no memory for the copy. *)
Definition add_key (t hnode k klen : Z) : M bool :=
  uk ← ld t userkey;
  if negb (uk =? 0) then st hnode key k;; mret true
  else
    kp ← calloc 1 (Z.to_nat klen);
    st hnode key kp;;
    if kp =? 0 then free 8 hnode;; mret false
    else memcpy (Z.to_nat klen) kp k;; mret true.

Definition add_node (t index hnode d : Z) : M unit :=
  tbl ← ld t table; h ← ld (row tbl index) 0;
  if negb (h =? 0) then
    st hnode prev 0;; h ← ld (row tbl index) 0; st hnode next h;; st hnode data d;;
    h ← ld (row tbl index) 0; st h prev hnode;; st (row tbl index) 0 hnode
  else
    st hnode prev 0;; st hnode next 0;; st hnode data d;; st (row tbl index) 0 hnode.

Definition sfghash_add (fuel : nat) (t k d : Z) : M Z :=
  if t =? 0 then mret SFGHASH_ERR
  else
    ks ← ld t keysize;
    let strings := negb (0 <? ks) in
    klen ← key_length fuel strings ks k;
    index ← key_index t k klen;
    tbl ← ld t table; h ← ld (row tbl index) 0;
    hnode ← find_loop fuel fuel strings t h k klen;
    if negb (hnode =? 0) then st t cnode hnode;; mret SFGHASH_INTABLE
    else
      hnode ← calloc 8 4;
      if hnode =? 0 then mret SFGHASH_NOMEM
      else
        ok ← add_key t hnode k klen;
        if negb ok then mret SFGHASH_NOMEM
        else
          add_node t index hnode d;;
          c ← ld t count; st t count (u32 (c + 1));; mret SFGHASH_OK.

Definition movetofront (t index n : Z) : M unit :=
  tbl ← ld t table; h ← ld (row tbl index) 0;
  if h =? n then mret tt
  else
    p ← ld n prev; (if p =? 0 then mret tt else x ← ld n next; st p next x);;
    x ← ld n next; (if x =? 0 then mret tt else p ← ld n prev; st x prev p);;
    st n prev 0;;
    h ← ld (row tbl index) 0; st n next h;;
    h ← ld (row tbl index) 0; st h prev n.

Definition sfghash_find_node (fuel : nat) (t k : Z) : M Z :=
  ks ← ld t keysize;
  let strings := ks =? 0 in
  klen ← key_length fuel strings ks k;
  index ← key_index t k klen;
  tbl ← ld t table; h ← ld (row tbl index) 0;
  hnode ← find_loop fuel fuel strings t h k ks;
  if hnode =? 0 then mret 0
  else
    s ← ld t splay;
    (if 0 <? s then movetofront t index hnode else mret tt);; mret hnode.

Definition sfghash_find (fuel : nat) (t k : Z) : M Z :=
  hnode ← sfghash_find_node fuel t k;
  if hnode =? 0 then mret 0 else ld hnode data.

(** The value returned, and what is stored in [*data]. *)
Definition sfghash_find2 (fuel : nat) (t k : Z) : M (Z * option Z) :=
  if t =? 0 then mret (0, None)
  else
    hnode ← sfghash_find_node fuel t k;
    if hnode =? 0 then mret (0, None) else d ← ld hnode data; mret (1, Some d).

Definition sfghash_free_node (t index hnode : Z) : M Z :=
  uk ← ld t userkey;
  (if uk =? 0 then kp ← ld hnode key; s_free 1 kp else mret tt);;
  st hnode key 0;;
  f ← ld t userfree;
  (if f =? 0 then mret tt else d ← ld hnode data; call_userfree f d);;
  p ← ld hnode prev;
  (if negb (p =? 0) then
     x ← ld hnode next; st p next x;;
     (if x =? 0 then mret tt else st x prev p)
   else
     tbl ← ld t table; h ← ld (row tbl index) 0;
     if h =? 0 then mret tt
     else
       x ← ld h next; st (row tbl index) 0 x;;
       (if x =? 0 then mret tt else st x prev 0));;
  s_free 8 hnode;;
  c ← ld t count; st t count (u32 (c - 1));; mret SFGHASH_OK.

Definition sfghash_remove (fuel : nat) (t k : Z) : M Z :=
  ks ← ld t keysize;
  let strings := negb (0 <? ks) in
  klen ← key_length fuel strings ks k;
  index ← key_index t k klen;
  tbl ← ld t table; h ← ld (row tbl index) 0;
  hnode ← find_loop fuel fuel strings t h k klen;
  if hnode =? 0 then mret SFGHASH_ERR else sfghash_free_node t index hnode.

(** *** Enumeration *)

(** From row [i] on: the first node of the first row that has one goes to
    [cnode], its row to [crow]; [false] when there is none. *)
Fixpoint row_loop (fuel : nat) (t i : Z) : M bool :=
  match fuel with
  | O => undefined
  | S fuel =>
    st t crow i;;
    n ← ld t nrows;
    if n <=? i then mret false
    else
      tbl ← ld t table; h ← ld (row tbl i) 0; st t cnode h;;
      if h =? 0 then row_loop fuel t (i + 1) else mret true
  end.

Definition sfghash_findfirst1 (fuel : nat) (t : Z) : M Z :=
  b ← row_loop fuel t 0; if (b : bool) then ld t cnode else mret 0.

Definition sfghash_findnext1 (fuel : nat) (t : Z) : M Z :=
  c ← ld t cnode;
  n ← (if c =? 0 then mret 0 else x ← ld c next; st t cnode x;; mret x);
  if negb (n =? 0) then mret n
  else
    i ← ld t crow; b ← row_loop fuel t (i + 1); if (b : bool) then ld t cnode else mret 0.

Definition sfghash_next (fuel : nat) (t : Z) : M unit :=
  c ← ld t cnode;
  if c =? 0 then mret tt
  else
    x ← ld c next; st t cnode x;;
    if negb (x =? 0) then mret tt
    else i ← ld t crow; row_loop fuel t (i + 1);; mret tt.

Definition sfghash_findfirst (fuel : nat) (t : Z) : M Z :=
  b ← row_loop fuel t 0;
  if (b : bool) then n ← ld t cnode; sfghash_next fuel t;; mret n else mret 0.

Definition sfghash_findnext (fuel : nat) (t : Z) : M Z :=
  n ← ld t cnode;
  if n =? 0 then mret 0 else sfghash_next fuel t;; mret n.

Definition sfghash_set_keyops (h hash keycmp : Z) : M Z :=
  if (h =? 0) || (hash =? 0) || (keycmp =? 0) then mret (-1)
  else f ← ld h sfhashfcn; sfhashfcn_set_keyops f hash keycmp.

(** *** The whole table *)

Fixpoint delete_chain (fuel : nat) (h node : Z) : M unit :=
  match fuel with
  | O => undefined
  | S fuel =>
    if node =? 0 then mret tt
    else
      x ← ld node next;
      uk ← ld h userkey; kp ← ld node key;
      (if (uk =? 0) && negb (kp =? 0) then s_free 1 kp else mret tt);;
      f ← ld h userfree; d ← ld node data;
      (if negb (f =? 0) && negb (d =? 0) then call_userfree f d else mret tt);;
      s_free 8 node;;
      delete_chain fuel h x
  end.

Fixpoint delete_rows (fuel n : nat) (h i : Z) : M unit :=
  match n with
  | O => mret tt
  | S n =>
    tbl ← ld h table; node ← ld (row tbl i) 0;
    delete_chain fuel h node;; delete_rows fuel n h (i + 1)
  end.

Definition sfghash_delete (fuel : nat) (h : Z) : M unit :=
  if h =? 0 then mret tt
  else
    f ← ld h sfhashfcn; sfhashfcn_free f;;
    tbl ← ld h table;
    (if tbl =? 0 then mret tt
     else
       n ← ld h nrows; delete_rows fuel (Z.to_nat n) h 0;;
       tbl ← ld h table; s_free 8 tbl;; st h table 0);;
    s_free 8 h.

End code.
