(* ===== verification/SfhashKeys.v ===== *)
(** * Generic hash tables: keys and hashing

    The library functions on byte strings and the hash function, on keys in
    memory: a key is an array of bytes, of the size of the table's keys or a
    string with its NUL. *)

From iris.proofmode Require Import proofmode environments.
From S2P Require Import Prelude WordMem Sfprime Sfhash.

(** The bytes of a string with the NUL at the end. *)
Definition cstring (k : list Z) : Prop := ∃ s, k = s ++ [0] ∧ Forall (λ c, c ≠ 0) s.

(** The keys of a table of key size [ks], 0 for strings. *)
Definition key_ok (ks : Z) (k : list Z) : Prop :=
  Z.of_nat (length k) < 2 ^ 31 ∧ if 0 <? ks then Z.of_nat (length k) = ks else cstring k.

(** What [sfhashfcn_hash] computes. *)
Definition hash_bytes (sd sc hd : Z) (k : list Z) : Z :=
  Z.lxor (foldl (λ h c, u32 (u32 (h * sc) + c)) sd k) hd.

Lemma cstring_inv (k : list Z) (c : Z) :
  cstring (c :: k) → (c = 0 ∧ k = []) ∨ (c ≠ 0 ∧ cstring k).
Proof.
  intros ([|b s] & E & Hs); injection E as -> ->; [by left|right].
  apply Forall_cons in Hs as [Hb Hs]. split; [done|]. by exists s.
Qed.

Lemma not_cstring_nil : ¬ cstring [].
Proof. intros ([|] & ? & _); done. Qed.

Section keys.

(** ** Strings *)

Lemma wp_strlen (fuel : nat) (p : Z) (k : list Z) (Φ : Z → hprop) :
  0 < p → cstring k → (length k ≤ fuel)%nat →
  array p 1 k -∗ (array p 1 k -∗ Φ (Z.of_nat (length k) - 1)) -∗ wp (strlen fuel p) Φ.
Proof.
  revert p k Φ. induction fuel as [|fuel IH]; iIntros (p k Φ Hp Hk Hf) "Hk HΦ".
  { destruct k; [by apply not_cstring_nil in Hk|simpl in Hf; lia]. }
  destruct k as [|c k]; [by apply not_cstring_nil in Hk|]. cbn [strlen].
  iDestruct (array_open with "Hk") as "[Hc Hk]". iApply wp_bind. iApply (wp_ld with "Hc"); [lia|]. iIntros "Hc".
  destruct (cstring_inv k c Hk) as [[-> ->]|[Hc Hk']].
  - rw Z.eqb_refl. iApply wp_ret. iApply "HΦ". by iApply (array_close with "Hc").
  - rw (proj2 (Z.eqb_neq _ _) Hc). iApply wp_bind.
    iApply (IH with "Hk"); [lia|done|simpl in Hf; lia|]. iIntros "Hk". iApply wp_ret.
    replace (Z.of_nat (length k) - 1 + 1) with (Z.of_nat (length (c :: k)) - 1) by (simpl; lia).
    iApply "HΦ". by iApply (array_close with "Hc").
Qed.

Lemma wp_strcmp (fuel : nat) (a b : Z) (k k' : list Z) (Φ : Z → hprop) :
  0 < a → 0 < b → cstring k → cstring k' → (length k' ≤ fuel)%nat →
  array a 1 k -∗ array b 1 k' -∗
  (∀ r, ⌜r = 0 ↔ k = k'⌝ -∗ array a 1 k -∗ array b 1 k' -∗ Φ r) -∗ wp (strcmp fuel a b) Φ.
Proof.
  revert a b k k' Φ. induction fuel as [|fuel IH]; iIntros (a b k k' Φ Ha Hb Hk Hk' Hf) "Hk Hk' HΦ".
  { destruct k'; [by apply not_cstring_nil in Hk'|simpl in Hf; lia]. }
  destruct k as [|c k]; [by apply not_cstring_nil in Hk|].
  destruct k' as [|c' k']; [by apply not_cstring_nil in Hk'|]. cbn [strcmp].
  iDestruct (array_open with "Hk") as "[Hc Hk]". iDestruct (array_open with "Hk'") as "[Hc' Hk']".
  iApply wp_bind. iApply (wp_ld with "Hc"); [lia|]. iIntros "Hc".
  iApply wp_bind. iApply (wp_ld with "Hc'"); [lia|]. iIntros "Hc'".
  destruct (Z.eqb_spec c c') as [->|Hne].
  - destruct (cstring_inv k c' Hk) as [[-> ->]|[Hc Hk1]].
    + rw Z.eqb_refl. iApply wp_ret. iApply ("HΦ" with "[] [Hc Hk] [Hc' Hk']"); [|by iApply (array_close with "[$]")..].
      iPureIntro. destruct (cstring_inv k' 0 Hk') as [[_ ->]|[? _]]; done.
    + rw (proj2 (Z.eqb_neq _ _) Hc). destruct (cstring_inv k' c' Hk') as [[? _]|[_ Hk1']]; [done|].
      iApply (IH with "Hk Hk'"); [lia|lia|done|done|simpl in Hf; lia|].
      iIntros (r Hr) "Hk Hk'". iApply ("HΦ" with "[] [Hc Hk] [Hc' Hk']"); [|by iApply (array_close with "[$]")..].
      iPureIntro. rw Hr. split; congruence.
  - iApply wp_ret. iApply ("HΦ" with "[] [Hc Hk] [Hc' Hk']"); [|by iApply (array_close with "[$]")..].
    iPureIntro. split; [lia|congruence].
Qed.

Lemma wp_memcmp (a b : Z) (k k' : list Z) (Φ : Z → hprop) :
  0 < a → 0 < b → length k = length k' →
  array a 1 k -∗ array b 1 k' -∗
  (∀ r, ⌜r = 0 ↔ k = k'⌝ -∗ array a 1 k -∗ array b 1 k' -∗ Φ r) -∗ wp (memcmp (length k) a b) Φ.
Proof.
  revert a b k' Φ. induction k as [|c k IH]; iIntros (a b k' Φ Ha Hb Hl) "Hk Hk' HΦ"; cbn [memcmp length].
  { destruct k'; [|done]. iApply wp_ret. by iApply ("HΦ" with "[] Hk Hk'"). }
  destruct k' as [|c' k']; [done|].
  iDestruct (array_open with "Hk") as "[Hc Hk]". iDestruct (array_open with "Hk'") as "[Hc' Hk']".
  iApply wp_bind. iApply (wp_ld with "Hc"); [lia|]. iIntros "Hc".
  iApply wp_bind. iApply (wp_ld with "Hc'"); [lia|]. iIntros "Hc'".
  destruct (Z.eqb_spec c c') as [->|Hne].
  - iApply (IH with "Hk Hk'"); [lia|lia|by injection Hl|].
    iIntros (r Hr) "Hk Hk'". iApply ("HΦ" with "[] [Hc Hk] [Hc' Hk']"); [|by iApply (array_close with "[$]")..].
    iPureIntro. rw Hr. split; congruence.
  - iApply wp_ret. iApply ("HΦ" with "[] [Hc Hk] [Hc' Hk']"); [|by iApply (array_close with "[$]")..].
    iPureIntro. split; [lia|congruence].
Qed.

Lemma wp_memcpy (dst src : Z) (vs ws : list Z) (Φ : unit → hprop) :
  0 < dst → 0 < src → length ws = length vs →
  array dst 1 ws -∗ array src 1 vs -∗ (array dst 1 vs -∗ array src 1 vs -∗ Φ tt) -∗
  wp (memcpy (length vs) dst src) Φ.
Proof.
  revert dst src ws Φ. induction vs as [|v vs IH]; iIntros (dst src ws Φ Hd Hs Hl) "Hw Hv HΦ"; cbn [memcpy length].
  { iApply wp_ret. destruct ws; [|done]. iApply ("HΦ" with "Hw Hv"). }
  destruct ws as [|w ws]; [done|]. 
  iDestruct (array_open with "Hw") as "[Hw Hws]". iDestruct (array_open with "Hv") as "[Hv Hvs]".
  iApply wp_bind. iApply (wp_ld with "Hv"); [lia|]. iIntros "Hv".
  iApply wp_bind. iApply (wp_st with "Hw"); [lia|]. iIntros "Hw".
  iApply (IH with "Hws Hvs"); [lia|lia|by injection Hl|]. iIntros "Hws Hvs".
  iApply ("HΦ" with "[Hw Hws] [Hv Hvs]"); by iApply (array_close with "[$]").
Qed.

(** ** Hashing *)

Lemma wp_hash_loop (p d h sc : Z) (k : list Z) (Φ : Z → hprop) :
  0 < p → 0 < d → fld p scale sc -∗ array d 1 k -∗
  (fld p scale sc -∗ array d 1 k -∗ Φ (foldl (λ h c, u32 (u32 (h * sc) + c)) h k)) -∗
  wp (hash_loop (length k) p d h) Φ.
Proof.
  revert d h Φ. induction k as [|c k IH]; iIntros (d h Φ Hp Hd) "Hs Hk HΦ"; cbn [hash_loop length foldl].
  { iApply wp_ret. iApply ("HΦ" with "Hs Hk"). }
  iDestruct (array_open with "Hk") as "[Hc Hk]".
  iApply wp_bind. iApply (wp_ld with "Hs"); [lia|]. iIntros "Hs".
  iApply wp_bind. iApply (wp_ld with "Hc"); [lia|]. iIntros "Hc".
  iApply (IH with "Hs Hk"); [lia|lia|]. iIntros "Hs Hk". iApply ("HΦ" with "Hs [Hc Hk]"). by iApply (array_close with "Hc").
Qed.

End keys.
