(* ===== verification/SfhashTable.v ===== *)
(** * Generic hash tables in memory

    The nodes of a chain, the rows and the header of a table as assertions, for a
    table that copies its keys, with the hash function and the comparison of the
    files, and either no function to free the data or [myfree]; and the
    specifications of the functions of sfghash.c that search and add. *)

From iris.proofmode Require Import proofmode environments.
From S2P Require Import Prelude WordMem Sfprime Sfhash SfhashKeys.

(** A node: its address, its key, its data. *)
Definition hnode : Type := Z * (list Z * Z).
Definition node_key (x : hnode) : list Z := x.2.1.
Definition node_data (x : hnode) : Z := x.2.2.

(** The parameters of a table that do not change. *)
Record params := Params {
  p_keysize : Z;
  p_seed : Z;
  p_scale : Z;
  p_hardener : Z;
  p_userfree : Z;
  p_nrows : Z;
}.

Definition params_ok (P : params) : Prop :=
  0 ≤ p_keysize P < 2 ^ 31 ∧ 0 < p_nrows P < 2 ^ 31 ∧ (p_userfree P = 0 ∨ p_userfree P = MYFREE).

(** The row of a key. *)
Definition index (P : params) (k : list Z) : Z :=
  hash_bytes (p_seed P) (p_scale P) (p_hardener P) k mod p_nrows P.

(** The node with the key, 0 if there is none. *)
Fixpoint node_of (k : list Z) (ns : list hnode) : Z :=
  match ns with [] => 0 | x :: ns => if decide (node_key x = k) then x.1 else node_of k ns end.

(** Keys are in the row of their hash value, once. *)
Definition rows_ok (P : params) (rows : list (list hnode)) : Prop :=
  Z.of_nat (length rows) = p_nrows P ∧
  ∀ i ns, rows !! i = Some ns →
    NoDup (node_key <$> ns) ∧ Forall (λ x, index P (node_key x) = Z.of_nat i) ns.

Lemma node_of_app (k : list Z) (xs ys : list hnode) :
  k ∉ node_key <$> xs → node_of k (xs ++ ys) = node_of k ys.
Proof.
  induction xs as [|x xs IH]; [done|]. rw fmap_cons. intros [Hx Hxs]%not_elem_of_cons. simpl.
  rw decide_False; [by apply IH|auto].
Qed.

Lemma node_of_none (k : list Z) (ns : list hnode) : k ∉ node_key <$> ns → node_of k ns = 0.
Proof. intros H. rw -(app_nil_r ns). by rw node_of_app. Qed.

(** A key of the row is at one place. *)
Lemma node_of_split (k : list Z) (ns : list hnode) :
  k ∈ node_key <$> ns → ∃ a n d b, ns = a ++ (n, (k, d)) :: b ∧ (k ∉ node_key <$> a) ∧ node_of k ns = n.
Proof.
  induction ns as [|[n [k' d]] ns IH]; [by intros ?%not_elem_of_nil|]. simpl.
  destruct (decide (k' = k)) as [->|Hne].
  - intros _. exists [], n, d, ns. split_and!; [done|apply not_elem_of_nil|]. simpl. by rw decide_True.
  - intros [?|H]%elem_of_cons; [done|]. destruct (IH H) as (a & n' & d' & b & -> & Ha & Hn).
    exists ((n, (k', d)) :: a), n', d', b. split_and!; [done| |simpl; by rw decide_False].
    rw fmap_cons. apply not_elem_of_cons. auto.
Qed.

Lemma eqb_bool_decide (r : Z) (Q : Prop) `{Decision Q} : (r = 0 ↔ Q) → (r =? 0) = bool_decide Q.
Proof. intros HQ. destruct (Z.eqb_spec r 0); case_bool_decide; tauto. Qed.

Section table.
Context `{HM : Malloc} `{HE : Environment}.
Context (P : params) (HP : params_ok P).

(** What belongs to the data of a node: the block that [myfree] will free. *)
Definition data_of (d : Z) : hprop :=
  if p_userfree P =? 0 then emp%I
  else (⌜d = 0⌝ ∨ ⌜0 < d⌝ ∗ ∃ vs, token d (length vs) ∗ array d 1 vs)%I.

Definition key_at (n : Z) (k : list Z) : hprop :=
  ∃ kp, ⌜0 < kp⌝ ∗ fld n key kp ∗ array kp 1 k ∗ token kp (length k).

Definition node (x : hnode) (nxt prv : Z) : hprop :=
  ⌜0 < x.1 ∧ key_ok (p_keysize P) (node_key x)⌝ ∗
  fld x.1 next nxt ∗ fld x.1 prev prv ∗ key_at x.1 (node_key x) ∗ fld x.1 data (node_data x) ∗
  token x.1 4 ∗ data_of (node_data x).

(** The nodes [ns] from [h] on: [p] is before the first, [e] after the last, [l]. *)
Fixpoint dseg (p h : Z) (ns : list hnode) (e l : Z) : hprop :=
  match ns with
  | [] => ⌜h = e ∧ l = p⌝
  | x :: ns => ⌜h = x.1⌝ ∗ ∃ nxt, node x nxt p ∗ dseg x.1 nxt ns e l
  end.

Lemma dseg_app (p h : Z) (xs ys : list hnode) (e l : Z) :
  dseg p h (xs ++ ys) e l ⊣⊢ ∃ m q, dseg p h xs m q ∗ dseg q m ys e l.
Proof.
  revert p h. induction xs as [|x xs IH]; intros p h; simpl.
  - iSplit.
    + iIntros "H". iExists h, p. by iFrame.
    + by iIntros "(%m & %q & [-> ->] & $)".
  - iSplit.
    + iIntros "(-> & %nxt & Hx & H)". rw IH. iDestruct "H" as "(%m & %q & H1 & H2)". iExists m, q. by iFrame.
    + iIntros "(%m & %q & (-> & %nxt & Hx & H1) & H2)". iSplit; [done|]. iExists nxt. iFrame "Hx".
      rw IH. iExists m, q. iFrame.
Qed.

Lemma node_pos (x : hnode) (nxt prv : Z) : node x nxt prv -∗ ⌈0 < x.1⌉.
Proof. iIntros "([$ _] & _)". Qed.

(** The ends of a segment are not NULL. *)
Lemma dseg_first (p h : Z) (ns : list hnode) (e l : Z) :
  dseg p h ns e l -∗ ⌜h = match ns with [] => e | x :: _ => x.1 end⌝ ∗
    ⌜match ns with [] => True | x :: _ => 0 < x.1 end⌝ ∗ dseg p h ns e l.
Proof.
  iIntros "H". destruct ns as [|x ns]; simpl.
  - iDestruct "H" as "[-> ->]". auto.
  - iDestruct "H" as "(-> & %nxt & Hx & H)". iPure (node_pos with "Hx") as Hx.
    iSplit; [done|]. iSplit; [done|]. iSplit; [done|]. iExists nxt. iFrame.
Qed.

(** The words of the table that the operations only read. *)
Definition hash_at (f : Z) : hprop :=
  ⌜0 < f⌝ ∗ fld f seed (p_seed P) ∗ fld f scale (p_scale P) ∗ fld f hardener (p_hardener P) ∗
  fld f hash_fcn SFHASHFCN_HASH ∗ fld f keycmp_fcn MEMCMP.

Definition fixed (t f tbl : Z) : hprop :=
  ⌜0 < t ∧ 0 < tbl⌝ ∗ fld t sfhashfcn f ∗ fld t keysize (p_keysize P) ∗ fld t userkey 0 ∗
  fld t table tbl ∗ fld t nrows (p_nrows P) ∗ fld t userfree (p_userfree P) ∗ fld t splay 0 ∗ hash_at f.

Definition row_at (tbl : Z) (i : nat) (ns : list hnode) : hprop :=
  ∃ h l, fld (row tbl (Z.of_nat i)) 0 h ∗ dseg 0 h ns 0 l.

(** The table, with its cursor. *)
Definition table_at (t : Z) (rows : list (list hnode)) (cr cn : Z) : hprop :=
  ∃ f tbl, ⌜rows_ok P rows⌝ ∗ fixed t f tbl ∗ ([∗ list] i ↦ ns ∈ rows, row_at tbl i ns) ∗
    fld t count (u32 (Z.of_nat (length (concat rows)))) ∗ fld t crow cr ∗ fld t cnode cn ∗
    token t 10 ∗ token f 5 ∗ token tbl (length rows).

(** A key of the caller. *)
Definition key_buf (kp : Z) (k : list Z) : hprop :=
  ⌜0 < kp ∧ key_ok (p_keysize P) k⌝ ∗ array kp 1 k.

Definition strings : bool := p_keysize P =? 0.

Lemma wp_key_length (fuel : nat) (kp : Z) (k : list Z) (Φ : Z → hprop) :
  (length k ≤ fuel)%nat →
  key_buf kp k -∗ (key_buf kp k -∗ Φ (Z.of_nat (length k))) -∗
  wp (key_length fuel strings (p_keysize P) kp) Φ.
Proof using HP.
  iIntros (Hf) "[%Hk Ha] HΦ". destruct Hk as [Hkp [Hl Hk]]. rw /key_length /strings.
  destruct HP as [Hks _]. destruct (Z.eqb_spec (p_keysize P) 0) as [E|E].
  - rw E /= in Hk. iApply wp_bind. iApply (wp_strlen with "Ha"); [done..|]. iIntros "Ha". iApply wp_ret.
    rw Z.sub_add. iApply "HΦ". iFrame. iPureIntro. rw /key_ok E. auto.
  - assert ((0 <? p_keysize P) = true) as E' by lia. rw E' in Hk. iApply wp_ret. rw -Hk. iApply "HΦ". iFrame.
    iPureIntro. rw /key_ok E'. auto.
Qed.

Lemma wp_key_index (t f tbl kp : Z) (k : list Z) (Φ : Z → hprop) :
  fixed t f tbl -∗ key_buf kp k -∗ (fixed t f tbl -∗ key_buf kp k -∗ Φ (index P k)) -∗
  wp (key_index t kp (Z.of_nat (length k))) Φ.
Proof using HP.
  iIntros "(%Ht & Hf & Hks & Huk & Ht & Hn & Huf & Hsp & %Hfp & Hsd & Hsc & Hhd & Hhf & Hcf) [%Hk Ha] HΦ".
  destruct HP as (_ & Hnr & _). rw /key_index.
  iApply wp_bind. iApply (wp_ld with "Hf"); [lia|]. iIntros "Hf".
  iApply wp_bind. iApply (wp_ld with "Hhf"); [lia|]. iIntros "Hhf".
  iApply wp_bind. rw /call_hash /= /sfhashfcn_hash. rw (proj2 (Z.ltb_ge (Z.of_nat (length k)) 0)); [|lia].
  iApply wp_bind. iApply (wp_ld with "Hsd"); [lia|]. iIntros "Hsd". rw Nat2Z.id.
  iApply wp_bind. iApply (wp_hash_loop with "Hsc Ha"); [lia|lia|]. iIntros "Hsc Ha".
  iApply wp_bind. iApply (wp_ld with "Hhd"); [lia|]. iIntros "Hhd". iApply wp_ret.
  iApply wp_bind. iApply (wp_ld with "Hn"); [lia|]. iIntros "Hn".
  rw (proj2 (Z.eqb_neq _ _)); [|lia]. iApply wp_ret. rw /u32 wrap_small; [|lia].
  iApply ("HΦ" with "[-Ha] [Ha]"); by iFrame.
Qed.

Lemma wp_same_key (fuel : nat) (t f tbl n kp klen : Z) (k k' : list Z) (Φ : bool → hprop) :
  (length k ≤ fuel)%nat → (strings = false → klen = Z.of_nat (length k)) → 0 < n →
  key_ok (p_keysize P) k' →
  fixed t f tbl -∗ key_at n k' -∗ key_buf kp k -∗
  (fixed t f tbl -∗ key_at n k' -∗ key_buf kp k -∗ Φ (bool_decide (k' = k))) -∗
  wp (same_key fuel strings t n kp klen) Φ.
Proof using HP.
  iIntros (Hf Hlen Hn Hk') "Hfix (%kp' & %Hkp' & Hk & Ha' & Htok) [%Hk Ha] HΦ". destruct Hk as [Hkp Hk].
  rw /same_key. iApply wp_bind. iApply (wp_ld with "Hk"); [lia|]. iIntros "Hk".
  pose proof Hk as [Hl Hk0]. pose proof Hk' as [_ Hk0']. destruct HP as [Hks _].
  destruct strings eqn:Hst; rw /strings in Hst.
  - assert ((0 <? p_keysize P) = false) as E by lia. rw E in Hk0 Hk0'.
    iApply wp_bind. iApply (wp_strcmp with "Ha' Ha"); [done..|]. iIntros (r Hr) "Ha' Ha". iApply wp_ret.
    rw (eqb_bool_decide _ _ Hr).
    iApply ("HΦ" with "Hfix [Hk Ha' Htok] [Ha]"); [iExists kp'|]; by iFrame.
  - assert ((0 <? p_keysize P) = true) as E by lia. rw E in Hk0 Hk0'. rw Hlen //.
    iDestruct "Hfix" as "(%Ht & Hf & Hfix)". iApply wp_bind. iApply (wp_ld with "Hf"); [lia|]. iIntros "Hf".
    iDestruct "Hfix" as "(Hks & Huk & Htb & Hn & Huf & Hsp & %Hfp & Hsd & Hsc & Hhd & Hhf & Hcf)".
    iApply wp_bind. iApply (wp_ld with "Hcf"); [lia|]. iIntros "Hcf". rw /call_keycmp /=.
    rw /u64 wrap_small; [|change (2 ^ 64) with 18446744073709551616; change (2 ^ 31) with 2147483648 in Hl; lia].
    rw Nat2Z.id. assert (length k' = length k) as El by lia. rw -El.
    iApply wp_bind. iApply (wp_memcmp with "Ha' Ha"); [done..|]. iIntros (r Hr) "Ha' Ha". iApply wp_ret.
    rw (eqb_bool_decide _ _ Hr).
    iApply ("HΦ" with "[-Hk Ha' Htok Ha] [Hk Ha' Htok] [Ha]"); [|iExists kp'|]; by iFrame.
Qed.

Lemma wp_find_loop (fuel fuel' : nat) (t f tbl kp klen p h l : Z) (k : list Z) (ns : list hnode)
    (Φ : Z → hprop) :
  (length k ≤ fuel)%nat → (strings = false → klen = Z.of_nat (length k)) → (length ns < fuel')%nat →
  fixed t f tbl -∗ dseg p h ns 0 l -∗ key_buf kp k -∗
  (fixed t f tbl -∗ dseg p h ns 0 l -∗ key_buf kp k -∗ Φ (node_of k ns)) -∗
  wp (find_loop fuel fuel' strings t h kp klen) Φ.
Proof using HP.
  intros Hf Hlen. revert p h ns Φ. induction fuel' as [|fuel' IH]; iIntros (p h ns Φ Hf') "Hfix Hns Hk HΦ"; [lia|].
  cbn [find_loop]. destruct ns as [|x ns].
  { iDestruct "Hns" as %[-> ->]. rw Z.eqb_refl. iApply wp_ret. by iApply ("HΦ" with "Hfix [] Hk"). }
  iDestruct "Hns" as "(-> & %nxt & (%Hx & Hn & Hp & Hkx & Hd) & Hns)". destruct Hx as [Hx Hkx].
  rw (proj2 (Z.eqb_neq _ _)); [|lia]. iApply wp_bind.
  iApply (wp_same_key with "Hfix Hkx Hk"); [done..|]. iIntros "Hfix Hkx Hk". simpl node_of.
  destruct (decide (node_key x = k)) as [Heq|Hne].
  - rw bool_decide_true //. iApply wp_ret. iApply ("HΦ" with "Hfix [-Hk] Hk").
    iSplit; [done|]. iExists nxt. by iFrame.
  - rw bool_decide_false //. iApply wp_bind. iApply (wp_ld with "Hn"); [lia|]. iIntros "Hn".
    iApply (IH with "Hfix Hns Hk"); [simpl in Hf'; lia|]. iIntros "Hfix Hns Hk".
    iApply ("HΦ" with "Hfix [-Hk] Hk"). iSplit; [done|]. iExists nxt. by iFrame.
Qed.

(** ** The row of a key *)

Definition the_row (rows : list (list hnode)) (k : list Z) : list hnode :=
  rows !!! Z.to_nat (index P k).

Lemma index_range (k : list Z) : 0 ≤ index P k < p_nrows P.
Proof using HP. destruct HP as (_ & ? & _). apply Z.mod_pos_bound. lia. Qed.

Lemma the_row_lookup (rows : list (list hnode)) (k : list Z) :
  rows_ok P rows → rows !! Z.to_nat (index P k) = Some (the_row rows k).
Proof using HP.
  intros [Hl _]. apply list_lookup_lookup_total_lt. pose proof (index_range k). lia.
Qed.

Lemma row_acc (rows : list (list hnode)) (k : list Z) (tbl : Z) :
  rows_ok P rows →
  ([∗ list] i ↦ ns ∈ rows, row_at tbl i ns) -∗
  ∃ h l, fld (row tbl (index P k)) 0 h ∗ dseg 0 h (the_row rows k) 0 l ∗
    (∀ h' ns' l', fld (row tbl (index P k)) 0 h' -∗ dseg 0 h' ns' 0 l' -∗
       [∗ list] i ↦ ns ∈ <[Z.to_nat (index P k) := ns']> rows, row_at tbl i ns).
Proof using HP.
  iIntros (Hr) "H". iDestruct (big_sepL_insert_acc with "H") as "[Hrow H]"; [by apply (the_row_lookup _ k)|].
  pose proof (index_range k). iDestruct "Hrow" as "(%h & %l & Hh & Hns)". iExists h, l.
  rw Z2Nat.id; [|lia]. iFrame. iIntros (h' ns' l') "Hh Hns". iApply "H". iExists h', l'.
  rw Z2Nat.id; [|lia]. iFrame.
Qed.

Lemma the_row_same (rows : list (list hnode)) (k : list Z) :
  rows_ok P rows → <[Z.to_nat (index P k) := the_row rows k]> rows = rows.
Proof using HP. intros Hr. by apply list_insert_id, the_row_lookup. Qed.

(** Fuel for a key and a row. *)
Definition fuel_ok (fuel : nat) (rows : list (list hnode)) (k : list Z) : Prop :=
  (length k ≤ fuel)%nat ∧ (length (concat rows) < fuel)%nat.

Lemma the_row_length (fuel : nat) (rows : list (list hnode)) (k : list Z) :
  rows_ok P rows → fuel_ok fuel rows k → (length (the_row rows k) < fuel)%nat.
Proof using HP.
  intros Hr [_ Hf]. eapply Nat.le_lt_trans; [|done].
  apply (the_row_lookup _ k), list_elem_of_split_length in Hr as (a & b & E & _). rw {2}E.
  rw concat_app length_app /= length_app. lia.
Qed.

(** ** Searching *)

(** From the key to the node: the common first part of the operations. *)
Lemma wp_lookup {B} (fuel : nat) (t kp cr cn : Z) (st : Z → bool) (kl : Z → Z → Z) (k : list Z)
    (rows : list (list hnode)) (K : Z → Z → Z → Z → M B) (Φ : B → hprop) :
  fuel_ok fuel rows k → (∀ ks, 0 ≤ ks → st ks = (ks =? 0)) →
  (∀ ks, kl ks (Z.of_nat (length k)) = ks ∨ kl ks (Z.of_nat (length k)) = Z.of_nat (length k)) →
  table_at t rows cr cn -∗ key_buf kp k -∗
  (∀ f tbl h l, ⌜rows_ok P rows⌝ -∗ key_buf kp k -∗ fixed t f tbl -∗
     fld (row tbl (index P k)) 0 h -∗ dseg 0 h (the_row rows k) 0 l -∗
     (∀ h' ns' l', fld (row tbl (index P k)) 0 h' -∗ dseg 0 h' ns' 0 l' -∗
       [∗ list] i ↦ ns ∈ <[Z.to_nat (index P k) := ns']> rows, row_at tbl i ns) -∗
     fld t count (u32 (Z.of_nat (length (concat rows)))) -∗ fld t crow cr -∗ fld t cnode cn -∗
     token t 10 -∗ token f 5 -∗ token tbl (length rows) -∗
     wp (K (p_keysize P) (Z.of_nat (length k)) (index P k) (node_of k (the_row rows k))) Φ) -∗
  wp (ks ← ld t keysize; klen ← key_length fuel (st ks) ks kp; index ← key_index t kp klen;
      tbl ← ld t table; h ← ld (row tbl index) 0;
      hn ← find_loop fuel fuel (st ks) t h kp (kl ks klen); K ks klen index hn) Φ.
Proof using HP.
  iIntros (Hf Hst Hkl) "(%f & %tbl & %Hr & Hfix & Hrows & Hc & Hcr & Hcn & T1 & T2 & T3) Hk HΦ".
  pose proof (the_row_length _ _ _ Hr Hf) as Hl. destruct Hf as [Hf _].
  iFact (key_ok (p_keysize P) k) as [_ Hkk]; [by iDestruct "Hk" as "[[_ %] _]"|].
  pose proof HP as (Hks & _). iDestruct "Hfix" as "(%Ht & Hsf & Hks & Hfix)".
  iApply wp_bind. iApply (wp_ld with "Hks"); [lia|]. iIntros "Hks". rw Hst; [|lia].
  iApply wp_bind. iApply (wp_key_length with "Hk"); [done|]. iIntros "Hk".
  iApply wp_bind. iApply (wp_key_index t f tbl with "[Hsf Hks Hfix] Hk"); [by iFrame|].
  iIntros "(_ & Hsf & Hks & Huk & Htb & Hfix) Hk".
  iApply wp_bind. iApply (wp_ld with "Htb"); [lia|]. iIntros "Htb".
  iDestruct (row_acc _ k with "Hrows") as (h l) "(Hh & Hns & Hrows)"; [done|].
  pose proof (index_range k).
  iApply wp_bind. iApply (wp_ld with "Hh"); [rw /row; lia|]. iIntros "Hh".
  iApply wp_bind. iApply (wp_find_loop fuel fuel t f tbl with "[Hsf Hks Huk Htb Hfix] Hns Hk"); [done| |done|by iFrame|].
  { intros Hs. destruct (Hkl (p_keysize P)) as [->| ->]; [|done].
    rw /strings in Hs. by destruct (Z.ltb_spec 0 (p_keysize P)); [|lia]. }
  iIntros "Hfix Hns Hk". iApply ("HΦ" with "[] Hk Hfix Hh Hns Hrows Hc Hcr Hcn T1 T2 T3"). done.
Qed.

Lemma wp_find_node (fuel : nat) (t kp cr cn : Z) (k : list Z) (rows : list (list hnode)) :
  fuel_ok fuel rows k →
  table_at t rows cr cn -∗ key_buf kp k -∗
  wp (sfghash_find_node fuel t kp)
     (λ n, ⌜n = node_of k (the_row rows k)⌝ ∗ table_at t rows cr cn ∗ key_buf kp k).
Proof using HP.
  iIntros (Hf) "Ht Hk". rw /sfghash_find_node.
  iApply (wp_lookup fuel t kp cr cn (λ ks, ks =? 0) (λ ks klen, ks) with "Ht Hk"); [done|done|by left|].
  iIntros (f tbl h l Hr) "Hk Hfix Hh Hns Hrows Hc Hcr Hcn T1 T2 T3".
  iAssert (table_at t rows cr cn) with "[-Hk]" as "Ht".
  { iExists f, tbl. iSplit; [done|]. iFrame. iDestruct ("Hrows" with "Hh Hns") as "H".
    by rw the_row_same. }
  case (Z.eqb_spec (node_of k (the_row rows k)) 0) as [E|E].
  - iApply wp_ret. rw E. by iFrame.
  - iDestruct "Ht" as (f' tbl') "(_ & (%Ht & Hsf & Hks & Huk & Htb & Hn & Huf & Hsp & Hh) & H)".
    iApply wp_bind. iApply (wp_ld with "Hsp"); [lia|]. iIntros "Hsp". rw /=.
    iApply wp_bind. iApply wp_ret. iApply wp_ret. iSplit; [done|]. iFrame "Hk". iExists f', tbl'.
    by iFrame.
Qed.

(** The data word of a node of the row. *)
Lemma dseg_data (k : list Z) (p h e l : Z) (ns : list hnode) (Φ : Z → hprop) :
  node_of k ns ≠ 0 →
  dseg p h ns e l -∗ (∀ d, ⌜∃ n, (n, (k, d)) ∈ ns⌝ -∗ dseg p h ns e l -∗ Φ d) -∗
  wp (ld (node_of k ns) data) Φ.
Proof.
  iIntros (Hne) "Hns HΦ". iInduction ns as [|x ns] "IH" forall (p h); [done|]. simpl in Hne |- *.
  iDestruct "Hns" as "(-> & %nxt & Hx & Hns)". destruct (decide (node_key x = k)) as [<-|].
  - iDestruct "Hx" as "(%Hx & H1 & H2 & H3 & Hd & H4)".
    iApply (wp_ld with "Hd"); [lia|]. iIntros "Hd". iApply "HΦ".
    + iPureIntro. exists x.1. destruct x as [? []]. by left.
    + iSplit; [done|]. iExists nxt. by iFrame.
  - iApply ("IH" with "[] Hns"); [done|]. iIntros (d [m Hm]) "Hns". iApply "HΦ".
    + iPureIntro. exists m. by right.
    + iSplit; [done|]. iExists nxt. iFrame.
Qed.

(** The key's data, when the key is there. *)
Definition found_data (rows : list (list hnode)) (k : list Z) (d : Z) : Prop :=
  ∃ n, (n, (k, d)) ∈ the_row rows k.

Lemma node_of_0 (rows : list (list hnode)) (k : list Z) (t cr cn : Z) :
  table_at t rows cr cn -∗ ⌈node_of k (the_row rows k) = 0 ↔ k ∉ node_key <$> the_row rows k⌉.
Proof using HP.
  iIntros "(%f & %tbl & %Hr & _ & Hrows & _)".
  iDestruct (row_acc _ k with "Hrows") as (h l) "(_ & Hns & _)"; [done|].
  destruct (decide (k ∈ node_key <$> the_row rows k)) as [Hin|Hni].
  - destruct (node_of_split _ _ Hin) as (a & n & d & b & E & _ & Hn). rw Hn E.
    rw dseg_app. iDestruct "Hns" as "(%m & %q & _ & _ & %nxt & Hx & _)".
    iPure (node_pos with "Hx") as Hx. simpl in Hx. iPureIntro.
    split; [lia|]. intros H1. rw E in Hin. done.
  - iPureIntro. by rw node_of_none.
Qed.

(** An access to the data of the key's node. *)
Lemma wp_node_data (t cr cn : Z) (k : list Z) (rows : list (list hnode)) (Φ : Z → hprop) :
  node_of k (the_row rows k) ≠ 0 →
  table_at t rows cr cn -∗
  (∀ d, ⌜found_data rows k d⌝ -∗ table_at t rows cr cn -∗ Φ d) -∗
  wp (ld (node_of k (the_row rows k)) data) Φ.
Proof using HP.
  iIntros (Hne) "(%f & %tbl & %Hr & Hfix & Hrows & H) HΦ".
  iDestruct (row_acc _ k with "Hrows") as (h l) "(Hh & Hns & Hrows)"; [done|].
  iApply (dseg_data with "Hns"); [done|]. iIntros (d Hd) "Hns". iApply ("HΦ" $! d with "[//]").
  iExists f, tbl. iSplit; [done|]. iFrame. iDestruct ("Hrows" with "Hh Hns") as "Hrows".
  by rw the_row_same.
Qed.

Lemma wp_find (fuel : nat) (t kp cr cn : Z) (k : list Z) (rows : list (list hnode)) :
  fuel_ok fuel rows k →
  table_at t rows cr cn -∗ key_buf kp k -∗
  wp (sfghash_find fuel t kp) (λ d, table_at t rows cr cn ∗ key_buf kp k ∗
    ⌜found_data rows k d ∨ d = 0 ∧ k ∉ node_key <$> the_row rows k⌝).
Proof using HP.
  iIntros (Hf) "Ht Hk". rw /sfghash_find. iApply wp_bind.
  iApply (wp_wand with "[Ht Hk]"); [by iApply (wp_find_node with "Ht Hk")|].
  iIntros (n) "(-> & Ht & Hk)". iPure (node_of_0 _ k with "Ht") as Hz.
  case (Z.eqb_spec (node_of k (the_row rows k)) 0) as [E|E].
  - iApply wp_ret. iFrame. iPureIntro. right. by split; [|apply Hz].
  - iApply (wp_node_data with "Ht"); [done|]. iIntros (d Hd) "$". iFrame. auto.
Qed.

Lemma wp_find2 (fuel : nat) (t kp cr cn : Z) (k : list Z) (rows : list (list hnode)) :
  fuel_ok fuel rows k →
  table_at t rows cr cn -∗ key_buf kp k -∗
  wp (sfghash_find2 fuel t kp) (λ r, table_at t rows cr cn ∗ key_buf kp k ∗
    ⌜(∃ d, r = (1, Some d) ∧ found_data rows k d) ∨
     r = (0, None) ∧ k ∉ node_key <$> the_row rows k⌝).
Proof using HP.
  iIntros (Hf) "Ht Hk". rw /sfghash_find2.
  iFact (0 < t) as Ht.
  { iDestruct "Ht" as "(%f & %tbl & _ & (%Ht & _) & _)". iPureIntro. lia. }
  rw (proj2 (Z.eqb_neq t 0)); [|lia]. iApply wp_bind.
  iApply (wp_wand with "[Ht Hk]"); [by iApply (wp_find_node with "Ht Hk")|].
  iIntros (n) "(-> & Ht & Hk)". iPure (node_of_0 _ k with "Ht") as Hz.
  case (Z.eqb_spec (node_of k (the_row rows k)) 0) as [E|E].
  - iApply wp_ret. iFrame. iPureIntro. right. by split; [|apply Hz].
  - iApply wp_bind. iApply (wp_node_data with "Ht"); [done|]. iIntros (d Hd) "Ht". iApply wp_ret.
    iFrame. eauto.
Qed.

(** ** Adding *)

Lemma rows_ok_insert (rows : list (list hnode)) (k : list Z) (ns : list hnode) :
  rows_ok P rows → NoDup (node_key <$> ns) →
  Forall (λ x, index P (node_key x) = index P k) ns →
  rows_ok P (<[Z.to_nat (index P k) := ns]> rows).
Proof using HP.
  intros [Hl Hr] Hnd Hi. pose proof (index_range k). split; [by rw length_insert|].
  intros i ms [(<- & -> & _)|(Hne & Hms)]%list_lookup_insert_Some; [|by apply Hr].
  split; [done|]. rw Z2Nat.id; [done|lia].
Qed.

Lemma rows_ok_row (rows : list (list hnode)) (k : list Z) :
  rows_ok P rows → NoDup (node_key <$> the_row rows k) ∧
    Forall (λ x, index P (node_key x) = index P k) (the_row rows k).
Proof using HP.
  intros Hr. pose proof (the_row_lookup rows k Hr) as E. destruct Hr as [_ Hr].
  destruct (Hr _ _ E) as [Hnd Hi]. pose proof (index_range k). by rw Z2Nat.id in Hi; [|lia].
Qed.

(** A row changed, the others as before. *)
Lemma concat_row (rows : list (list hnode)) (k : list Z) :
  rows_ok P rows → ∃ a b, concat rows = a ++ the_row rows k ++ b ∧
    ∀ ns, concat (<[Z.to_nat (index P k) := ns]> rows) = a ++ ns ++ b.
Proof using HP.
  intros Hr. pose proof (the_row_lookup rows k Hr) as E.
  apply list_elem_of_split_length in E as (a & b & E & Hi).
  exists (concat a), (concat b). split; [by rw {1}E concat_app|].
  intros ns. rw E insert_app_r_alt; [|lia]. rw Hi Nat.sub_diag /= concat_app //.
Qed.

Lemma array4 (n : Z) (a b c d : Z) :
  array n 8 [a; b; c; d] ⊣⊢ fld n next a ∗ fld n prev b ∗ fld n key c ∗ fld n data d.
Proof.
  rw /= /fld /next /prev /key /data Z.add_0_r.
  assert (n + 8 + 8 = n + 16 ∧ n + 8 + 8 + 8 = n + 24) as [-> ->] by lia.
  iSplit; [iIntros "($ & $ & $ & $ & _)"|iIntros "($ & $ & $ & $)"].
Qed.

Lemma wp_add_key (t f tbl n kp a b d : Z) (k : list Z) (Φ : bool → hprop) :
  0 < n →
  fixed t f tbl -∗ key_buf kp k -∗ array n 8 [a; b; 0; d] -∗ token n 4 -∗
  (fixed t f tbl -∗ key_buf kp k -∗
     ((⌜¬ memory_left⌝ -∗ Φ false) ∧ (fld n next a -∗ fld n prev b -∗ key_at n k -∗ fld n data d -∗ token n 4 -∗ Φ true))) -∗
  wp (add_key t n kp (Z.of_nat (length k))) Φ.
Proof using HP.
  iIntros (Hn) "(%Ht & Hsf & Hks & Huk & Hfix) [%Hkk Ha] Hnode Htok HΦ". rw /add_key.
  iApply wp_bind. iApply (wp_ld with "Huk"); [lia|]. iIntros "Huk". rw Nat2Z.id.
  iDestruct ("HΦ" with "[Hsf Hks Huk Hfix]") as "HΦ"; [by iFrame|].
  rw array4. iDestruct "Hnode" as "(Hx & Hp & Hk & Hd)".
  iApply wp_bind. iApply wp_calloc; [done|]. iSplit.
  - iIntros (Hn'). iApply wp_bind. iApply (wp_st with "Hk"); [lia|]. iIntros "Hk".
    iApply wp_bind. iApply (wp_free 8 n [a; b; 0; d] with "Htok [Hx Hp Hk Hd]"); [lia|rw array4; iFrame|].
    iApply wp_ret. iDestruct ("HΦ" with "[Ha]") as "[H _]"; [by iFrame|by iApply "H"].
  - iIntros (kp' Hkp') "Htok' Ha'". iApply wp_bind. iApply (wp_st with "Hk"); [lia|]. iIntros "Hk".
    rw (proj2 (Z.eqb_neq kp' 0)); [|lia]. iApply wp_bind.
    iApply (wp_memcpy with "Ha' Ha"); [done|by destruct Hkk|by rw length_replicate|]. iIntros "Ha' Ha".
    iApply wp_ret. iDestruct ("HΦ" with "[Ha]") as "[_ HΦ]"; [by iFrame|].
    iApply ("HΦ" with "Hx Hp [Hk Ha' Htok'] Hd Htok"). iExists kp'. by iFrame.
Qed.

Lemma wp_add_node (t f tbl n h d l : Z) (k : list Z) (ns : list hnode) (i : Z) (Φ : unit → hprop) :
  0 < n → 0 ≤ i → key_ok (p_keysize P) k →
  fixed t f tbl -∗ fld (row tbl i) 0 h -∗ dseg 0 h ns 0 l -∗
  fld n next 0 -∗ fld n prev 0 -∗ key_at n k -∗ fld n data 0 -∗ token n 4 -∗ data_of d -∗
  (∀ l', fixed t f tbl -∗ fld (row tbl i) 0 n -∗ dseg 0 n ((n, (k, d)) :: ns) 0 l' -∗ Φ tt) -∗
  wp (add_node t i n d) Φ.
Proof using HP.
  iIntros (Hn Hi Hkk) "(%Ht & Hsf & Hks & Huk & Htb & Hfix) Hh Hns Hx Hp Hk Hd Htok Hdo HΦ". rw /add_node.
  assert (row tbl i ≠ 0) as Hr by (rw /row; lia).
  iApply wp_bind. iApply (wp_ld with "Htb"); [lia|]. iIntros "Htb".
  iApply wp_bind. iApply (wp_ld with "Hh"); [done|]. iIntros "Hh".
  iDestruct (dseg_first with "Hns") as "(%Eh & %Hpos & Hns)". destruct ns as [|x ns]; simpl.
  - rw Eh. iApply wp_bind. iApply (wp_st with "Hp"); [lia|]. iIntros "Hp".
    iApply wp_bind. iApply (wp_st with "Hx"); [lia|]. iIntros "Hx".
    iApply wp_bind. iApply (wp_st with "Hd"); [lia|]. iIntros "Hd".
    iApply (wp_st with "Hh"); [done|]. iIntros "Hh".
    iApply ("HΦ" with "[Hsf Hks Huk Htb Hfix] Hh"); [by iFrame|]. iSplit; [done|]. iExists 0.
    iFrame. iSplit; [done|]. auto.
  - rw Eh (proj2 (Z.eqb_neq x.1 0)); [|lia]. simpl negb. cbv iota.
    iApply wp_bind. iApply (wp_st with "Hp"); [lia|]. iIntros "Hp".
    iApply wp_bind. iApply (wp_ld with "Hh"); [done|]. iIntros "Hh".
    iApply wp_bind. iApply (wp_st with "Hx"); [lia|]. iIntros "Hx".
    iApply wp_bind. iApply (wp_st with "Hd"); [lia|]. iIntros "Hd".
    iApply wp_bind. iApply (wp_ld with "Hh"); [done|]. iIntros "Hh".
    iDestruct "Hns" as "(_ & %nxt & (%Hx & Hxn & Hxp & Hxr) & Hns)".
    iApply wp_bind. iApply (wp_st with "Hxp"); [lia|]. iIntros "Hxp".
    iApply (wp_st with "Hh"); [done|]. iIntros "Hh".
    iApply ("HΦ" with "[Hsf Hks Huk Htb Hfix] Hh"); [by iFrame|]. iSplit; [done|]. iExists x.1.
    iSplitL "Hx Hp Hk Hd Htok Hdo"; [by iFrame|]. iSplit; [done|]. iExists nxt. by iFrame.
Qed.

Lemma wp_add (fuel : nat) (t kp d cr cn : Z) (k : list Z) (rows : list (list hnode)) :
  fuel_ok fuel rows k →
  table_at t rows cr cn -∗ key_buf kp k -∗ data_of d -∗
  wp (sfghash_add fuel t kp d) (λ r, key_buf kp k ∗
    ((⌜r = SFGHASH_INTABLE ∧ k ∈ node_key <$> the_row rows k⌝ ∗ data_of d ∗ ∃ cn', table_at t rows cr cn') ∨
     (⌜r = SFGHASH_NOMEM ∧ ¬ memory_left ∧ k ∉ node_key <$> the_row rows k⌝ ∗ data_of d ∗ table_at t rows cr cn) ∨
     (⌜r = SFGHASH_OK ∧ k ∉ node_key <$> the_row rows k⌝ ∗ ∃ n,
        table_at t (<[Z.to_nat (index P k) := (n, (k, d)) :: the_row rows k]> rows) cr cn))).
Proof using HP.
  iIntros (Hf) "Ht Hk Hd". rw /sfghash_add.
  iFact (0 < t) as Ht.
  { iDestruct "Ht" as "(%f & %tbl & _ & (%Ht & _) & _)". iPureIntro. lia. }
  iPure (node_of_0 _ k with "Ht") as Hz.
  rw (proj2 (Z.eqb_neq t 0)); [|lia].
  iApply (wp_lookup fuel t kp cr cn (λ ks, negb (0 <? ks)) (λ ks klen, klen) with "Ht Hk"); [done| |by right|].
  { intros ks Hks. destruct (Z.ltb_spec 0 ks), (Z.eqb_spec ks 0); simpl; (done || lia). }
  iIntros (f tbl h l Hr) "Hk Hfix Hh Hns Hrows Hc Hcr Hcn T1 T2 T3".
  case (Z.eqb_spec (node_of k (the_row rows k)) 0) as [E|E]; simpl negb; cbv iota.
  - assert (k ∉ node_key <$> the_row rows k) as Hni by (by apply Hz).
    iApply wp_bind. iApply wp_calloc; [done|]. iSplit.
    { iIntros (Hnm). iApply wp_ret. iFrame "Hk". iRight. iLeft. iSplit; [done|]. iFrame "Hd". iExists f, tbl.
      iSplit; [done|]. iFrame. iDestruct ("Hrows" with "Hh Hns") as "H". by rw the_row_same. }
    iIntros (n Hn) "Htok Ha". simpl replicate. rw (proj2 (Z.eqb_neq n 0)); [|lia].
    iFact (key_ok (p_keysize P) k) as Hkk; [by iDestruct "Hk" as "[[_ %] _]"|].
    iApply wp_bind. iApply (wp_add_key with "Hfix Hk Ha Htok"); [done|]. iIntros "Hfix Hk". iSplit.
    { iIntros (Hnm). iApply wp_ret. iFrame "Hk". iRight. iLeft. iSplit; [done|]. iFrame "Hd". iExists f, tbl.
      iSplit; [done|]. iFrame. iDestruct ("Hrows" with "Hh Hns") as "H". by rw the_row_same. }
    iIntros "Hx Hp Hka Hdt Htok". simpl negb. cbv iota. pose proof (index_range k).
    iApply wp_bind. iApply (wp_add_node with "Hfix Hh Hns Hx Hp Hka Hdt Htok Hd"); [done|lia|done|].
    iIntros (l') "Hfix Hh Hns".
    iApply wp_bind. iApply (wp_ld with "Hc"); [lia|]. iIntros "Hc".
    iApply wp_bind. iApply (wp_st with "Hc"); [lia|]. iIntros "Hc". iApply wp_ret.
    iFrame "Hk". iRight. iRight. iSplit; [done|]. iExists n, f, tbl.
    destruct (concat_row rows k Hr) as (a & b & Ec & Ei). destruct (rows_ok_row rows k Hr) as [Hnd Hix].
    rw length_insert Ei. iFrame. iDestruct ("Hrows" with "Hh Hns") as "$". iSplit.
    + iPureIntro. apply rows_ok_insert; [done| |by apply Forall_cons].
      rw fmap_cons. by apply NoDup_cons.
    + rw (_ : u32 (u32 (Z.of_nat (length (concat rows))) + 1) =
        u32 (Z.of_nat (length (a ++ ((n, (k, d)) :: the_row rows k) ++ b)))); [done|].
      rw /u32 /wrap Zplus_mod_idemp_l Ec !length_app /= ?length_app. f_equal. lia.
  - iApply wp_bind. iApply (wp_st with "Hcn"); [lia|]. iIntros "Hcn". iApply wp_ret. iFrame "Hk". iLeft.
    iSplit. { iPureIntro. split; [done|]. destruct (decide (k ∈ node_key <$> the_row rows k)); [done|].
      exfalso. by apply E, Hz. }
    iFrame "Hd". iExists _, f, tbl. iSplit; [done|]. iFrame.
    iDestruct ("Hrows" with "Hh Hns") as "H". by rw the_row_same.
Qed.

End table.
