(* ===== verification/SfhashOps.v ===== *)
(** * Generic hash tables in memory: removal, enumeration, creation, deletion

    The specifications of the operations of sfghash.c that unlink and free a
    node, walk over the table with its cursor, make a table and free it. *)

From iris.proofmode Require Import proofmode environments.
From S2P Require Import Prelude WordMem Sfprime Sfhash SfhashKeys SfhashTable.

Section table.
Context `{HM : Malloc} `{HE : Environment}.
Context (P : params) (HP : params_ok P).

(** ** Removing *)

(** The node after the removed one is linked to the node before it. *)
Lemma wp_link_prev (p q h l : Z) (ns : list hnode) (Φ : unit → hprop) :
  dseg P p h ns 0 l -∗ (∀ l', dseg P q h ns 0 l' -∗ Φ tt) -∗
  wp (if h =? 0 then mret tt else st h prev q) Φ.
Proof.
  iIntros "Hns HΦ". iDestruct (dseg_first with "Hns") as "(%Eh & %Hpos & Hns)". destruct ns as [|x ns].
  - rw Eh Z.eqb_refl. iApply wp_ret. iApply ("HΦ" $! q). auto.
  - rw Eh (proj2 (Z.eqb_neq _ _)); [|lia].
    iDestruct "Hns" as "(_ & %nxt & (%Hx & Hn & Hp & Hr) & Hns)".
    iApply (wp_st with "Hp"); [lia|]. iIntros "Hp". iApply ("HΦ" $! l). iSplit; [done|].
    iExists nxt. by iFrame.
Qed.

Lemma wp_userfree (d : Z) (Φ : unit → hprop) :
  p_userfree P ≠ 0 → data_of P d -∗ Φ tt -∗ wp (call_userfree (p_userfree P) d) Φ.
Proof using HP.
  iIntros (E) "Hd HΦ". rw /data_of (proj2 (Z.eqb_neq _ _) E).
  destruct HP as (_ & _ & [?| ->]); [done|]. rw /call_userfree /= /myfree.
  iDestruct "Hd" as "[->|(%Hd & %vs & Ht & Ha)]".
  - by iApply wp_free_null.
  - iApply (wp_free with "Ht Ha"); [lia|done].
Qed.

(** The head of the chain loses the node: the nodes before it are linked to [nxt], or the row is. *)
Lemma wp_unlink (t tbl h n i q nxt l : Z) (a b : list hnode) (Φ : unit → hprop) :
  0 < t → 0 < tbl → 0 ≤ i → 0 < n →
  fld t table tbl -∗ fld (row tbl i) 0 h -∗ dseg P 0 h a n q -∗
  fld n prev q -∗ fld n next nxt -∗ dseg P n nxt b 0 l -∗
  (∀ h' l', fld t table tbl -∗ fld (row tbl i) 0 h' -∗ dseg P 0 h' (a ++ b) 0 l' -∗
     fld n prev q -∗ fld n next nxt -∗ Φ tt) -∗
  wp (p ← ld n prev;
      if negb (p =? 0) then x ← ld n next; st p next x;; (if x =? 0 then mret tt else st x prev p)
      else tbl ← ld t table; h ← ld (row tbl i) 0;
        if h =? 0 then mret tt
        else x ← ld h next; st (row tbl i) 0 x;; (if x =? 0 then mret tt else st x prev 0)) Φ.
Proof.
  iIntros (Ht Htbl Hi Hn) "Htb Hh Ha Hp Hx Hb HΦ". assert (row tbl i ≠ 0) as Hr by (unfold row; lia).
  iApply wp_bind. iApply (wp_ld with "Hp"); [lia|]. iIntros "Hp".
  destruct a as [|y a _] using rev_ind.
  - iDestruct "Ha" as %[-> ->]. simpl negb. cbv iota.
    iApply wp_bind. iApply (wp_ld with "Htb"); [lia|]. iIntros "Htb".
    iApply wp_bind. iApply (wp_ld with "Hh"); [lia|]. iIntros "Hh".
    rw (proj2 (Z.eqb_neq n 0)); [|lia].
    iApply wp_bind. iApply (wp_ld with "Hx"); [lia|]. iIntros "Hx".
    iApply wp_bind. iApply (wp_st with "Hh"); [lia|]. iIntros "Hh".
    iApply (wp_link_prev with "Hb"). iIntros (l') "Hb".
    iApply ("HΦ" $! nxt l' with "Htb Hh Hb Hp Hx").
  - rw dseg_app. iDestruct "Ha" as "(%m' & %q' & Ha & -> & %nxt' & (%Hy & Hyn & Hyr) & -> & ->)".
    rw (proj2 (Z.eqb_neq y.1 0)); [|lia]. simpl negb. cbv iota.
    iApply wp_bind. iApply (wp_ld with "Hx"); [lia|]. iIntros "Hx".
    iApply wp_bind. iApply (wp_st with "Hyn"); [lia|]. iIntros "Hyn".
    iApply (wp_link_prev with "Hb"). iIntros (l') "Hb".
    iApply ("HΦ" $! h l' with "Htb Hh [Ha Hyn Hyr Hb] Hp Hx").
    rw -(app_assoc a [y] b) dseg_app. iExists y.1, q'. iFrame "Ha". iSplit; [done|]. iExists nxt.
    iFrame "Hb". by iFrame.
Qed.

Lemma wp_free_node (t f tbl h n d i c l : Z) (k : list Z) (a b : list hnode) (Φ : Z → hprop) :
  0 ≤ i →
  fixed P t f tbl -∗ fld (row tbl i) 0 h -∗ dseg P 0 h (a ++ (n, (k, d)) :: b) 0 l -∗ fld t count c -∗
  (∀ h' l', fixed P t f tbl -∗ fld (row tbl i) 0 h' -∗ dseg P 0 h' (a ++ b) 0 l' -∗
     fld t count (u32 (c - 1)) -∗ Φ SFGHASH_OK) -∗
  wp (sfghash_free_node t i n) Φ.
Proof using HP.
  iIntros (Hi) "Hfix Hh Hns Hc HΦ". rw /sfghash_free_node dseg_app.
  iDestruct "Hns" as "(%m & %q & Ha & -> & %nxt & (%Hn & Hx & Hp & (%kp & %Hkp & Hk & Hka & Hkt) & Hd & Htok & Hdo) & Hb)".
  simpl in Hn |- *.
  iDestruct "Hfix" as "(%Ht & Hsf & Hks & Huk & Htb & Hnr & Huf & Hsp & Hfix)".
  iApply wp_bind. iApply (wp_ld with "Huk"); [lia|]. iIntros "Huk". simpl.
  iApply wp_bind. iApply wp_bind. iApply (wp_ld with "Hk"); [lia|]. iIntros "Hk".
  rw /s_free (proj2 (Z.eqb_neq kp 0)); [|lia].
  iApply (wp_free with "Hkt Hka"); [lia|].
  iApply wp_bind. iApply (wp_st with "Hk"); [lia|]. iIntros "Hk".
  iApply wp_bind. iApply (wp_ld with "Huf"); [lia|]. iIntros "Huf".
  iApply wp_bind. iApply (wp_wand _ (λ _, fld n data d) with "[Hd Hdo]").
  { case (Z.eqb_spec (p_userfree P) 0) as [E|E]; [iEval (rw /data_of E /=) in "Hdo"; by iApply wp_ret|].
    iApply wp_bind. iApply (wp_ld with "Hd"); [lia|]. iIntros "Hd". by iApply (wp_userfree with "Hdo"). }
  iIntros (_) "Hd". iApply wp_assoc. iApply wp_bind.
  iApply (wp_unlink with "Htb Hh Ha Hp Hx Hb"); [lia..|]. iIntros (h' l') "Htb Hh Hns Hp Hx".
  rw (proj2 (Z.eqb_neq n 0)); [|lia].
  iApply wp_bind. iApply (wp_free 8 n [nxt; q; 0; d] with "Htok [Hx Hp Hk Hd]"); [lia|rw array4; iFrame|].
  iApply wp_bind. iApply (wp_ld with "Hc"); [lia|]. iIntros "Hc".
  iApply wp_bind. iApply (wp_st with "Hc"); [lia|]. iIntros "Hc". iApply wp_ret.
  iApply ("HΦ" with "[-Hh Hns Hc] Hh Hns Hc"). by iFrame.
Qed.

(** The rows without the key. *)
Definition del_key (k : list Z) (ns : list hnode) : list hnode := filter (λ x, node_key x ≠ k) ns.

Lemma del_key_id (k : list Z) (ns : list hnode) : k ∉ node_key <$> ns → del_key k ns = ns.
Proof.
  induction ns as [|x ns IH]; [done|]. rw fmap_cons. intros [? Hns]%not_elem_of_cons.
  rw /del_key filter_cons_True; [|congruence]. f_equal. by apply IH.
Qed.

Lemma del_key_split (k : list Z) (a b : list hnode) (n d : Z) :
  NoDup (node_key <$> a ++ (n, (k, d)) :: b) → del_key k (a ++ (n, (k, d)) :: b) = a ++ b.
Proof.
  rw fmap_app fmap_cons. intros (_ & Ha & [Hb _]%NoDup_cons)%NoDup_app. unfold del_key.
  rw filter_app filter_cons_False; [|by intros H; apply H]. 
  change (del_key k a ++ del_key k b = a ++ b).
  rw !del_key_id //. intros Hk. by apply (Ha _ Hk); left.
Qed.

Lemma wp_remove (fuel : nat) (t kp cr cn : Z) (k : list Z) (rows : list (list hnode)) :
  fuel_ok fuel rows k →
  table_at P t rows cr cn -∗ key_buf P kp k -∗
  wp (sfghash_remove fuel t kp) (λ r, key_buf P kp k ∗
    ⌜r = if decide (k ∈ node_key <$> the_row P rows k) then SFGHASH_OK else SFGHASH_ERR⌝ ∗
    table_at P t (<[Z.to_nat (index P k) := del_key k (the_row P rows k)]> rows) cr cn).
Proof using HP.
  iIntros (Hf) "Ht Hk". rw /sfghash_remove. iPure (node_of_0 P HP _ k with "Ht") as Hz.
  iApply (wp_lookup P HP fuel t kp cr cn (λ ks, negb (0 <? ks)) (λ ks klen, klen) with "Ht Hk"); [done| |by right|].
  { intros ks Hks. destruct (Z.ltb_spec 0 ks), (Z.eqb_spec ks 0); simpl; (done || lia). }
  iIntros (f tbl h l Hr) "Hk Hfix Hh Hns Hrows Hc Hcr Hcn T1 T2 T3".
  case (Z.eqb_spec (node_of k (the_row P rows k)) 0) as [E|E].
  - assert (k ∉ node_key <$> the_row P rows k) as Hni by (by apply Hz).
    iApply wp_ret. iFrame "Hk". iSplit; [by rw decide_False|].
    rw del_key_id //.
    iExists f, tbl. rw length_insert. iFrame. iDestruct ("Hrows" with "Hh Hns") as "H".
    rw the_row_same //. by iFrame.
  - destruct (decide (k ∈ node_key <$> the_row P rows k)) as [Hin|Hni]; [|by destruct E; apply Hz].
    destruct (rows_ok_row P HP rows k Hr) as [Hnd Hix]. destruct (concat_row P HP rows k Hr) as (a' & b' & Ec & Ei).
    destruct (node_of_split _ _ Hin) as (a & n & d & b & Er & _ & ->).
    rw Er in Hnd Hix Ec |- *. pose proof (index_range P HP k). pose proof (del_key_split k a b n d Hnd) as Ed.
    iApply (wp_free_node with "Hfix Hh Hns Hc"); [lia|]. iIntros (h' l') "Hfix Hh Hns Hc".
    iFrame "Hk". iSplit; [done|]. rw Ed. iExists f, tbl. rw length_insert Ei. iFrame.
    iDestruct ("Hrows" with "Hh Hns") as "$". iSplit.
    + iPureIntro. apply rows_ok_insert; [done|done| |].
      * rw -Permutation_middle in Hnd. by apply NoDup_cons in Hnd as [_ Hnd].
      * rw Forall_app Forall_cons in Hix. apply Forall_app. tauto.
    + rw Ec. rw (_ : u32 (u32 (Z.of_nat (length (a' ++ (a ++ (n, (k, d)) :: b) ++ b'))) - 1) =
        u32 (Z.of_nat (length (a' ++ (a ++ b) ++ b')))); [done|].
      rw /u32 /wrap Zminus_mod_idemp_l !length_app /= ?length_app. f_equal. lia.
Qed.

Lemma wp_count (t cr cn : Z) (rows : list (list hnode)) :
  table_at P t rows cr cn -∗
  wp (sfghash_count t) (λ c, ⌜c = u32 (Z.of_nat (length (concat rows)))⌝ ∗ table_at P t rows cr cn).
Proof.
  iIntros "(%f & %tbl & %Hr & (%Ht & Hfix) & Hrows & Hc & H)". rw /sfghash_count.
  iApply (wp_ld with "Hc"); [lia|]. iIntros "Hc". iSplit; [done|]. iExists f, tbl. by iFrame.
Qed.

(** ** Enumeration *)

(** The cursor: [rest] are the nodes from [cnode] on. *)
Definition cursor (rows : list (list hnode)) (cr cn : Z) (rest : list hnode) : Prop :=
  match rest with
  | [] => cn = 0
  | x :: rest => cn = x.1 ∧ ∃ A a b B,
      rows = A ++ (a ++ x :: b) :: B ∧ cr = Z.of_nat (length A) ∧ rest = b ++ concat B
  end.

(** The address of the first node. *)
Definition first_of (ns : list hnode) : Z := match ns with [] => 0 | x :: _ => x.1 end.

Lemma cursor_first (rows : list (list hnode)) (cr cn : Z) (rest : list hnode) :
  cursor rows cr cn rest → cn = first_of rest.
Proof. destruct rest; [done|]. by intros [-> _]. Qed.

(** The head of a row. *)
Lemma table_row (tbl i : Z) (rows : list (list hnode)) (ns : list hnode) (Φ : Z → hprop) :
  0 < tbl → 0 ≤ i → rows !! Z.to_nat i = Some ns →
  ([∗ list] i ↦ ns ∈ rows, row_at P tbl i ns) -∗
  (⌜match ns with [] => True | x :: _ => 0 < x.1 end⌝ -∗
   ([∗ list] i ↦ ns ∈ rows, row_at P tbl i ns) -∗ Φ (first_of ns)) -∗
  wp (ld (row tbl i) 0) Φ.
Proof.
  iIntros (Htbl Hi Hns) "Hrows HΦ". iDestruct (big_sepL_lookup_acc with "Hrows") as "[Hrow Hrows]"; [done|].
  iDestruct "Hrow" as "(%h & %l & Hh & Hns)". rw Z2Nat.id; [|lia].
  iDestruct (dseg_first with "Hns") as "(%Eh & %Hpos & Hns)".
  iApply (wp_ld with "Hh"); [unfold row; lia|]. iIntros "Hh". rw Eh. iApply ("HΦ" with "[//]").
  iApply "Hrows". iExists h, l. rw Z2Nat.id; [|lia]. rw Eh. iFrame.
Qed.

Lemma wp_row_loop (fuel : nat) (t i cr cn : Z) (rows : list (list hnode)) (Φ : bool → hprop) :
  0 ≤ i → (i < p_nrows P ∨ cn = 0) → (Z.of_nat (length rows) - i < Z.of_nat fuel) → (0 < fuel)%nat →
  table_at P t rows cr cn -∗
  (∀ cr' cn', ⌜cursor rows cr' cn' (concat (drop (Z.to_nat i) rows))⌝ -∗ table_at P t rows cr' cn' -∗
     Φ (negb (first_of (concat (drop (Z.to_nat i) rows)) =? 0))) -∗
  wp (row_loop fuel t i) Φ.
Proof using HP.
  revert i cr cn. induction fuel as [|fuel IH]; iIntros (i cr cn Hi Hc Hf Hf0) "Ht HΦ"; [lia|]. cbn [row_loop].
  iDestruct "Ht" as "(%f & %tbl & %Hr & (%Ht & Hsf & Hks & Huk & Htb & Hn & Hfix) & Hrows & Hct & Hcr & Hcn & HT)".
  iApply wp_bind. iApply (wp_st with "Hcr"); [lia|]. iIntros "Hcr".
  iApply wp_bind. iApply (wp_ld with "Hn"); [lia|]. iIntros "Hn".
  destruct (Z.leb_spec (p_nrows P) i) as [Hge|Hlt].
  - destruct Hc as [?| ->]; [lia|]. iApply wp_ret. rw drop_ge; [|destruct Hr; lia]. simpl.
    iApply ("HΦ" $! i 0 with "[//]"). iExists f, tbl. by iFrame.
  - destruct (lookup_lt_is_Some_2 rows (Z.to_nat i)) as [ns Hns]; [destruct Hr; lia|].
    iApply wp_bind. iApply (wp_ld with "Htb"); [lia|]. iIntros "Htb".
    iApply wp_bind. iApply (table_row with "Hrows"); [lia|done|done|]. iIntros (Hpos) "Hrows".
    iApply wp_bind. iApply (wp_st with "Hcn"); [lia|]. iIntros "Hcn".
    iAssert (table_at P t rows i (first_of ns)) with "[-HΦ]" as "Ht"; [iExists f, tbl; by iFrame|].
    rw (drop_S _ _ _ Hns). destruct ns as [|x ns]; simpl.
    + iApply (IH with "Ht"); [lia|by right|lia|destruct Hr; lia|]. iIntros (cr' cn'). rw Z2Nat.inj_add; [|lia|lia].
      rw Nat.add_1_r. iApply "HΦ".
    + rw (proj2 (Z.eqb_neq x.1 0)); [|lia]. iApply wp_ret. iApply ("HΦ" with "[] Ht"). iPureIntro. split; [done|].
      exists (take (Z.to_nat i) rows), [], ns, (drop (S (Z.to_nat i)) rows). split_and!; [| |done].
      * simpl. rw take_drop_middle //.
      * rw length_take. destruct Hr. lia.
Qed.

(** A node of the table. *)
Lemma node_acc (tbl : Z) (A B : list (list hnode)) (a b : list hnode) (x : hnode) :
  ([∗ list] i ↦ ns ∈ (A ++ (a ++ x :: b) :: B), row_at P tbl i ns) -∗
  ∃ prv, node P x (first_of b) prv ∗ ⌜match b with [] => True | y :: _ => 0 < y.1 end⌝ ∗
    (node P x (first_of b) prv -∗ [∗ list] i ↦ ns ∈ (A ++ (a ++ x :: b) :: B), row_at P tbl i ns).
Proof.
  iIntros "Hrows". iDestruct (big_sepL_lookup_acc _ _ (length A) with "Hrows") as "[Hrow Hrows]".
  { by apply list_lookup_middle. }
  iDestruct "Hrow" as "(%h & %l & Hh & Hns)". rw dseg_app. iDestruct "Hns" as "(%m & %q & Ha & -> & %nxt & Hx & Hb)".
  iDestruct (dseg_first with "Hb") as "(-> & %Hpos & Hb)". iExists q. iFrame "Hx". iSplit; [done|]. iIntros "Hx".
  iApply "Hrows". iExists h, l. iFrame "Hh". rw dseg_app. iExists x.1, q. iFrame "Ha". iSplit; [done|].
  iExists _. iFrame.
Qed.

(** The words of the cursor. *)
Lemma wp_cnode (t cr cn : Z) (rows : list (list hnode)) (Φ : Z → hprop) :
  table_at P t rows cr cn -∗ (table_at P t rows cr cn -∗ Φ cn) -∗ wp (ld t cnode) Φ.
Proof.
  iIntros "(%f & %tbl & %Hr & (%Ht & Hfix) & Hrows & Hct & Hcr & Hcn & HT) HΦ".
  iApply (wp_ld with "Hcn"); [lia|]. iIntros "Hcn". iApply "HΦ". iExists f, tbl. by iFrame.
Qed.

Lemma wp_crow (t cr cn : Z) (rows : list (list hnode)) (Φ : Z → hprop) :
  table_at P t rows cr cn -∗ (table_at P t rows cr cn -∗ Φ cr) -∗ wp (ld t crow) Φ.
Proof.
  iIntros "(%f & %tbl & %Hr & (%Ht & Hfix) & Hrows & Hct & Hcr & Hcn & HT) HΦ".
  iApply (wp_ld with "Hcr"); [lia|]. iIntros "Hcr". iApply "HΦ". iExists f, tbl. by iFrame.
Qed.

Lemma cursor_pos (t cr cn : Z) (rows : list (list hnode)) (rest : list hnode) :
  cursor rows cr cn rest → table_at P t rows cr cn -∗
  ⌈match rest with [] => cn = 0 | x :: _ => cn = x.1 ∧ 0 < cn end⌉.
Proof.
  iIntros (Hcur) "Ht". destruct rest as [|x rest]; [by iPureIntro|].
  destruct Hcur as (-> & A & a & b & B & -> & _). iDestruct "Ht" as "(%f & %tbl & _ & _ & Hrows & _)".
  iDestruct (node_acc with "Hrows") as "(%prv & (%Hx & _) & _)". iPureIntro. split; [done|lia].
Qed.

(** The cursor moves along the row. *)
Lemma wp_advance {C} (t cr cn : Z) (rows : list (list hnode)) (x : hnode) (rest : list hnode)
    (K : Z → M C) (Φ : C → hprop) :
  cursor rows cr cn (x :: rest) →
  table_at P t rows cr cn -∗
  (∀ n, ⌜n = 0 ∧ 0 ≤ cr ∧ concat (drop (Z.to_nat (cr + 1)) rows) = rest ∨
         0 < n ∧ n = first_of rest ∧ cursor rows cr n rest⌝ -∗
     table_at P t rows cr n -∗ wp (K n) Φ) -∗
  wp (n ← ld cn next; st t cnode n;; K n) Φ.
Proof.
  iIntros ((-> & A & a & b & B & -> & -> & ->))
    "(%f & %tbl & %Hr & (%Ht & Hfix) & Hrows & Hct & Hcr & Hcn & HT) HΦ".
  iDestruct (node_acc with "Hrows") as "(%prv & (%Hx & Hn & Hnode) & %Hpos & Hrows)".
  iApply wp_bind. iApply (wp_ld with "Hn"); [lia|]. iIntros "Hn".
  iDestruct ("Hrows" with "[Hn Hnode]") as "Hrows"; [by iFrame|].
  iApply wp_bind. iApply (wp_st with "Hcn"); [lia|]. iIntros "Hcn".
  iApply ("HΦ" with "[] [-]"); [iPureIntro|iExists f, tbl; by iFrame]. destruct b as [|y b]; simpl.
  - left. split_and!; [done|lia|]. f_equal. rw cons_middle app_assoc drop_app_length' //. rw length_app /=. lia.
  - right. split_and!; [done|done|done|]. exists A, (a ++ [x]), b, B. split_and!; [|done|done]. by rw -(app_assoc a [x]).
Qed.

Lemma wp_next (fuel : nat) (t cr cn : Z) (rows : list (list hnode)) (x : hnode) (rest : list hnode) (Φ : unit → hprop) :
  (length rows < fuel)%nat → cursor rows cr cn (x :: rest) →
  table_at P t rows cr cn -∗
  (∀ cr' cn', ⌜cursor rows cr' cn' rest⌝ -∗ table_at P t rows cr' cn' -∗ Φ tt) -∗
  wp (sfghash_next fuel t) Φ.
Proof using HP.
  iIntros (Hf Hcur) "Ht HΦ". rw /sfghash_next. iPure (cursor_pos _ _ _ _ _ Hcur with "Ht") as [_ Hpos].
  iApply wp_bind. iApply (wp_cnode with "Ht"). iIntros "Ht". rw (proj2 (Z.eqb_neq cn 0)); [|lia].
  iApply (wp_advance with "Ht"); [done|]. iIntros (n Hn) "Ht".
  destruct Hn as [(-> & Hcr & <-)|(Hn & _ & Hcur')]; simpl negb; cbv iota.
  - iApply wp_bind. iApply (wp_crow with "Ht"). iIntros "Ht". iApply wp_bind.
    iApply (wp_row_loop with "Ht"); [lia|by right|lia|lia|]. iIntros (cr' cn' Hcur') "Ht". iApply wp_ret.
    by iApply ("HΦ" with "[] Ht").
  - rw (proj2 (Z.eqb_neq n 0)); [|lia]. iApply wp_ret. by iApply ("HΦ" with "[] Ht").
Qed.

(** The first node, the cursor after it. *)
Lemma wp_findfirst (fuel : nat) (t cr cn : Z) (rows : list (list hnode)) (Φ : Z → hprop) :
  (length rows < fuel)%nat →
  table_at P t rows cr cn -∗
  (∀ cr' cn', ⌜cursor rows cr' cn' (tail (concat rows))⌝ -∗ table_at P t rows cr' cn' -∗
     Φ (first_of (concat rows))) -∗
  wp (sfghash_findfirst fuel t) Φ.
Proof using HP.
  iIntros (Hf) "Ht HΦ". rw /sfghash_findfirst. iApply wp_bind.
  iApply (wp_row_loop with "Ht"); [lia|destruct HP; lia|lia|lia|]. rw drop_0.
  iIntros (cr' cn' Hcur) "Ht". iPure (cursor_pos _ _ _ _ _ Hcur with "Ht") as Hpos.
  destruct (concat rows) as [|x rest]; simpl.
  - rw Hpos. iApply wp_ret. by iApply ("HΦ" with "[] Ht").
  - destruct Hpos as [-> Hpos]. rw (proj2 (Z.eqb_neq x.1 0)); [|lia]. simpl negb. cbv iota.
    iApply wp_bind. iApply (wp_cnode with "Ht"). iIntros "Ht". iApply wp_bind.
    iApply (wp_next with "Ht"); [done|done|].
    iIntros (cr2 cn2 Hcur2) "Ht". iApply wp_ret. by iApply ("HΦ" with "[] Ht").
Qed.

(** The node at the cursor, the cursor after it. *)
Lemma wp_findnext (fuel : nat) (t cr cn : Z) (rows : list (list hnode)) (rest : list hnode) (Φ : Z → hprop) :
  (length rows < fuel)%nat → cursor rows cr cn rest →
  table_at P t rows cr cn -∗
  (∀ cr' cn', ⌜cursor rows cr' cn' (tail rest)⌝ -∗ table_at P t rows cr' cn' -∗ Φ (first_of rest)) -∗
  wp (sfghash_findnext fuel t) Φ.
Proof using HP.
  iIntros (Hf Hcur) "Ht HΦ". rw /sfghash_findnext. iPure (cursor_pos _ _ _ _ _ Hcur with "Ht") as Hpos.
  iApply wp_bind. iApply (wp_cnode with "Ht"). iIntros "Ht". destruct rest as [|x rest].
  - rw Hpos Z.eqb_refl. iApply wp_ret. by iApply ("HΦ" with "[] Ht").
  - destruct Hpos as [-> Hpos]. rw (proj2 (Z.eqb_neq x.1 0)); [|lia]. iApply wp_bind.
    iApply (wp_next with "Ht"); [done|done|]. iIntros (cr2 cn2 Hcur2) "Ht". iApply wp_ret.
    by iApply ("HΦ" with "[] Ht").
Qed.

(** The other pair of functions leaves the cursor at the node that it returns. *)
Lemma wp_findfirst1 (fuel : nat) (t cr cn : Z) (rows : list (list hnode)) (Φ : Z → hprop) :
  (length rows < fuel)%nat →
  table_at P t rows cr cn -∗
  (∀ cr' cn', ⌜cursor rows cr' cn' (concat rows)⌝ -∗ table_at P t rows cr' cn' -∗
     Φ (first_of (concat rows))) -∗
  wp (sfghash_findfirst1 fuel t) Φ.
Proof using HP.
  iIntros (Hf) "Ht HΦ". rw /sfghash_findfirst1. iApply wp_bind.
  iApply (wp_row_loop with "Ht"); [lia|destruct HP; lia|lia|lia|]. rw drop_0.
  iIntros (cr' cn' Hcur) "Ht". rw -(cursor_first _ _ _ _ Hcur). case (Z.eqb_spec cn' 0) as [->|E]; simpl.
  - iApply wp_ret. by iApply ("HΦ" with "[] Ht").
  - iApply (wp_cnode with "Ht"). by iApply "HΦ".
Qed.

Lemma wp_findnext1 (fuel : nat) (t cr cn : Z) (rows : list (list hnode)) (x : hnode) (rest : list hnode) (Φ : Z → hprop) :
  (length rows < fuel)%nat → cursor rows cr cn (x :: rest) →
  table_at P t rows cr cn -∗
  (∀ cr' cn', ⌜cursor rows cr' cn' rest⌝ -∗ table_at P t rows cr' cn' -∗ Φ (first_of rest)) -∗
  wp (sfghash_findnext1 fuel t) Φ.
Proof using HP.
  iIntros (Hf Hcur) "Ht HΦ". rw /sfghash_findnext1. iPure (cursor_pos _ _ _ _ _ Hcur with "Ht") as [_ Hpos].
  iApply wp_bind. iApply (wp_cnode with "Ht"). iIntros "Ht". rw (proj2 (Z.eqb_neq cn 0)); [|lia].
  iApply wp_bind. iApply (wp_advance with "Ht"); [done|].
  iIntros (n Hn) "Ht". iApply wp_ret.
  destruct Hn as [(-> & Hcr & <-)|(Hn & -> & Hcur')]; simpl negb; cbv iota.
  - iApply wp_bind. iApply (wp_crow with "Ht"). iIntros "Ht". iApply wp_bind.
    iApply (wp_row_loop with "Ht"); [lia|by right|lia|lia|]. iIntros (cr' cn' Hcur') "Ht".
    rw -(cursor_first _ _ _ _ Hcur'). case (Z.eqb_spec cn' 0) as [->|E]; simpl.
    + iApply wp_ret. by iApply ("HΦ" with "[] Ht").
    + iApply (wp_cnode with "Ht"). by iApply "HΦ".
  - rw (proj2 (Z.eqb_neq (first_of rest) 0)); [|lia]. iApply wp_ret. by iApply ("HΦ" with "[] Ht").
Qed.

(** A removal keeps the cursor, when the key is not ahead. *)
Lemma cursor_remove (rows : list (list hnode)) (cr cn : Z) (rest : list hnode) (k : list Z) (i : nat) (ns : list hnode) :
  rows !! i = Some ns → (k ∉ node_key <$> rest) → cursor rows cr cn rest →
  cursor (<[i := del_key k ns]> rows) cr cn rest.
Proof.
  intros Hns Hk Hc. destruct rest as [|x rest]; [done|].
  destruct Hc as (-> & A & a & b & B & -> & -> & ->). split; [done|].
  rw fmap_cons fmap_app in Hk. apply not_elem_of_cons in Hk as [Hx Hk].
  apply not_elem_of_app in Hk as [Hb HB]. destruct (decide (i < length A)%nat) as [Hi|Hi].
  - exists (<[i := del_key k ns]> A), a, b, B. rw length_insert. split_and!; [|done|done].
    by rw insert_app_l.
  - rw lookup_app_r in Hns; [|lia]. rw insert_app_r_alt; [|lia].
    destruct (i - length A)%nat as [|j]; simpl in Hns |- *.
    + injection Hns as <-. exists A, (del_key k a), b, B. split_and!; [|done|done]. do 2 f_equal.
      rw /del_key filter_app filter_cons_True; [|congruence]. do 2 f_equal. by apply del_key_id.
    + exists A, a, b, B. split_and!; [|done|done]. do 3 f_equal. rw del_key_id; [by apply list_insert_id|].
      intros Hin. apply HB. apply list_elem_of_fmap in Hin as (y & -> & Hy). apply list_elem_of_fmap_2.
      apply list_elem_of_In, in_concat. exists ns.
      split; apply list_elem_of_In; [by eapply list_elem_of_lookup_2|done].
Qed.

(** ** The whole table *)

Lemma wp_delete_chain (fuel : nat) (t p h l : Z) (ns : list hnode) (Φ : unit → hprop) :
  0 < t → (length ns < fuel)%nat →
  fld t userkey 0 -∗ fld t userfree (p_userfree P) -∗ dseg P p h ns 0 l -∗
  (fld t userkey 0 -∗ fld t userfree (p_userfree P) -∗ Φ tt) -∗
  wp (delete_chain fuel t h) Φ.
Proof using HP.
  intros Ht. revert p h ns. induction fuel as [|fuel IH]; iIntros (p h ns Hf) "Huk Huf Hns HΦ"; [lia|].
  cbn [delete_chain]. destruct ns as [|[n [k d]] ns].
  { iDestruct "Hns" as "[-> ->]". rw Z.eqb_refl. iApply wp_ret. by iApply ("HΦ" with "Huk Huf"). }
  iDestruct "Hns" as "(-> & %nxt & (%Hn & Hx & Hp & (%kp & %Hkp & Hk & Hka & Hkt) & Hd & Htok & Hdo) & Hns)".
  change (node_data (n, (k, d))) with d. simpl in Hn |- *. rw (proj2 (Z.eqb_neq n 0)); [|lia].
  iApply wp_bind. iApply (wp_ld with "Hx"); [lia|]. iIntros "Hx".
  iApply wp_bind. iApply (wp_ld with "Huk"); [lia|]. iIntros "Huk".
  iApply wp_bind. iApply (wp_ld with "Hk"); [lia|]. iIntros "Hk".
  rw (proj2 (Z.eqb_neq kp 0)); [|lia]. simpl.
  iApply wp_bind. rw /s_free (proj2 (Z.eqb_neq kp 0)); [|lia]. iApply (wp_free with "Hkt Hka"); [lia|].
  iApply wp_bind. iApply (wp_ld with "Huf"); [lia|]. iIntros "Huf".
  iApply wp_bind. iApply (wp_ld with "Hd"); [lia|]. iIntros "Hd".
  iApply wp_bind. iApply (wp_wand _ (λ _, emp)%I with "[Hdo]").
  { case (Z.eqb_spec (p_userfree P) 0) as [E|E]; cbn [negb andb];
      [iEval (rw /data_of E /=) in "Hdo"; by iApply wp_ret|].
    case (Z.eqb_spec d 0) as [->|E']; cbn [negb]; [|by iApply (wp_userfree with "Hdo")].
    iApply wp_ret. rw /data_of (proj2 (Z.eqb_neq _ _) E). iDestruct "Hdo" as "[_|(%Hd & ?)]"; [done|lia]. }
  iIntros (_) "_". rw (proj2 (Z.eqb_neq n 0)); [|lia].
  iApply wp_bind. iApply (wp_free 8 n [nxt; p; kp; d] with "Htok [Hx Hp Hk Hd]"); [lia|rw array4; iFrame|].
  iApply (IH with "Huk Huf Hns HΦ"). simpl in Hf. lia.
Qed.

Lemma wp_delete_rows (fuel : nat) (t tbl : Z) (i : nat) (rows : list (list hnode)) (Φ : unit → hprop) :
  0 < t → 0 < tbl → (length (concat rows) < fuel)%nat →
  fld t table tbl -∗ fld t userkey 0 -∗ fld t userfree (p_userfree P) -∗
  ([∗ list] j ↦ ns ∈ rows, row_at P tbl (i + j) ns) -∗
  (fld t table tbl -∗ fld t userkey 0 -∗ fld t userfree (p_userfree P) -∗
     (∃ vs, ⌜length vs = length rows⌝ ∗ array (row tbl (Z.of_nat i)) 8 vs) -∗ Φ tt) -∗
  wp (delete_rows fuel (length rows) t (Z.of_nat i)) Φ.
Proof using HP.
  intros Ht Htbl. revert i Φ. induction rows as [|ns rows IH]; iIntros (i Φ Hf) "Htb Huk Huf Hrows HΦ"; cbn [delete_rows length].
  { iApply wp_ret. iApply ("HΦ" with "Htb Huk Huf"). iExists []. auto. }
  rw big_sepL_cons Nat.add_0_r. iDestruct "Hrows" as "[(%h & %l & Hh & Hns) Hrows]".
  rw /= length_app in Hf.
  iApply wp_bind. iApply (wp_ld with "Htb"); [lia|]. iIntros "Htb".
  iApply wp_bind. iApply (wp_ld with "Hh"); [unfold row; lia|]. iIntros "Hh".
  iApply wp_bind. iApply (wp_delete_chain with "Huk Huf Hns"); [lia|lia|]. iIntros "Huk Huf".
  rw (_ : Z.of_nat i + 1 = Z.of_nat (S i)); [|lia].
  iApply (IH (S i) with "Htb Huk Huf [Hrows]"); [lia| |].
  { iApply (big_sepL_mono with "Hrows"). intros j ms _. by rw Nat.add_succ_r. }
  iIntros "Htb Huk Huf (%vs & %Hl & Ha)". iApply ("HΦ" with "Htb Huk Huf"). iExists (h :: vs).
  iSplit; [iPureIntro; simpl; lia|]. iApply (array_close with "Hh").
  rw (_ : row tbl (Z.of_nat i) + 8 = row tbl (Z.of_nat (S i))); [done|unfold row; lia].
Qed.

(** The words of the header and of the hash function. *)
Lemma array_header (t a b c d e f g h i j : Z) :
  array t 8 [a; b; c; d; e; f; g; h; i; j] ⊣⊢
  fld t sfhashfcn a ∗ fld t keysize b ∗ fld t userkey c ∗ fld t table d ∗ fld t nrows e ∗
  fld t count f ∗ fld t userfree g ∗ fld t crow h ∗ fld t cnode i ∗ fld t splay j.
Proof.
  rw /= /fld /sfhashfcn /keysize /userkey /table /nrows /count /userfree /crow /cnode /splay Z.add_0_r -!Z.add_assoc /=.
  iSplit; [iIntros "($ & $ & $ & $ & $ & $ & $ & $ & $ & $ & _)"|iIntros "($ & $ & $ & $ & $ & $ & $ & $ & $ & $)"].
Qed.

Lemma array_fcn (p a b c d e : Z) :
  array p 8 [a; b; c; d; e] ⊣⊢
  fld p seed a ∗ fld p scale b ∗ fld p hardener c ∗ fld p hash_fcn d ∗ fld p keycmp_fcn e.
Proof.
  rw /= /fld /seed /scale /hardener /hash_fcn /keycmp_fcn Z.add_0_r -!Z.add_assoc /=.
  iSplit; [iIntros "($ & $ & $ & $ & $ & _)"|iIntros "($ & $ & $ & $ & $)"].
Qed.

(** Everything is freed. *)
Lemma wp_delete (fuel : nat) (t cr cn : Z) (rows : list (list hnode)) (Φ : unit → hprop) :
  (length (concat rows) < fuel)%nat →
  table_at P t rows cr cn -∗ Φ tt -∗ wp (sfghash_delete fuel t) Φ.
Proof using HP.
  iIntros (Hf) "(%f & %tbl & %Hr & (%Ht & Hsf & Hks & Huk & Htb & Hn & Huf & Hsp & Hh) & Hrows & Hct & Hcr & Hcn & T1 & T2 & T3) HΦ".
  iDestruct "Hh" as "(%Hfp & Hsd & Hsc & Hhd & Hhf & Hcf)".
  rw /sfghash_delete (proj2 (Z.eqb_neq t 0)); [|lia].
  iApply wp_bind. iApply (wp_ld with "Hsf"); [lia|]. iIntros "Hsf".
  iApply wp_bind. rw /sfhashfcn_free (proj2 (Z.eqb_neq f 0)); [|lia].
  iApply (wp_free 8 f [p_seed P; p_scale P; p_hardener P; SFHASHFCN_HASH; MEMCMP] with "T2 [Hsd Hsc Hhd Hhf Hcf]"); [lia|rw array_fcn; iFrame|].
  iApply wp_bind. iApply (wp_ld with "Htb"); [lia|]. iIntros "Htb".
  rw (proj2 (Z.eqb_neq tbl 0)); [|lia].
  iApply wp_bind. iApply wp_bind. iApply (wp_ld with "Hn"); [lia|]. iIntros "Hn".
  pose proof Hr as [Hl _]. rw -{2}Hl Nat2Z.id. iApply wp_bind.
  iApply (wp_delete_rows fuel t tbl 0 with "Htb Huk Huf Hrows"); [lia|lia|done|].
  iIntros "Htb Huk Huf (%vs & %Hvs & Ha)". rw /row Z.mul_0_r Z.add_0_r -Hvs.
  iApply wp_bind. iApply (wp_ld with "Htb"); [lia|]. iIntros "Htb".
  iApply wp_bind. rw /s_free (proj2 (Z.eqb_neq tbl 0)); [|lia]. iApply (wp_free with "T3 Ha"); [lia|].
  iApply (wp_st with "Htb"); [lia|]. iIntros "Htb". rw (proj2 (Z.eqb_neq t 0)); [|lia].
  iApply (wp_free 8 t [f; p_keysize P; 0; 0; p_nrows P; u32 (Z.of_nat (length (concat rows))); p_userfree P; cr; cn; 0]
    with "T1 [Hsf Hks Huk Htb Hn Hct Huf Hcr Hcn Hsp]"); [lia|rw array_header; iFrame|done].
Qed.
End table.

Section new.
Context `{HM : Malloc} `{HE : Environment}.

(** The rows that [sfghash_new] makes. *)
Definition table_rows (n : Z) : Z := if 0 <? n then sf_nearest_prime n else s32 (- n).

Lemma wp_clear_rows (n : nat) (p : Z) (vs : list Z) (Φ : unit → hprop) :
  0 < p → length vs = n → array p 8 vs -∗ (array p 8 (replicate n 0) -∗ Φ tt) -∗ wp (clear_rows n p) Φ.
Proof.
  revert p vs Φ. induction n as [|n IH]; iIntros (p vs Φ Hp Hl) "Ha HΦ"; cbn [clear_rows].
  { destruct vs; [|done]. iApply wp_ret. by iApply "HΦ". }
  destruct vs as [|v vs]; [done|]. iDestruct (array_open with "Ha") as "[Hv Ha]".
  iApply wp_bind. iApply (wp_st with "Hv"); [lia|]. iIntros "Hv".
  iApply (IH with "Ha"); [lia|by injection Hl|]. iIntros "Ha". iApply "HΦ". by iApply (array_close with "Hv").
Qed.

Lemma array_rows (P : params) (tbl : Z) (i n : nat) :
  array (row tbl (Z.of_nat i)) 8 (replicate n 0) -∗
  [∗ list] j ↦ ns ∈ replicate n [], row_at P tbl (i + j) ns.
Proof.
  revert i. induction n as [|n IH]; iIntros (i) "Ha"; [done|].
  iDestruct (array_open with "Ha") as "[Hv Ha]". simpl. iSplitL "Hv".
  - rw Nat.add_0_r. iExists 0, 0. iFrame. auto.
  - iDestruct (IH (S i) with "[Ha]") as "H".
    { rw (_ : row tbl (Z.of_nat (S i)) = row tbl (Z.of_nat i) + 8); [done|unfold row; lia]. }
    iApply (big_sepL_mono with "H"). intros j ms _. by rw Nat.add_succ_r.
Qed.

Lemma wp_sfhashfcn_new (m ks uf : Z) :
  m ≠ 0 →
  ⊢ wp (sfhashfcn_new m) (λ f, ⌜f = 0 ∧ ¬ memory_left⌝ ∨
    ∃ sd sc hd, hash_at (Params ks sd sc hd uf m) f ∗ token f 5).
Proof.
  iIntros (Hm). rw /sfhashfcn_new. iApply wp_bind. iApply wp_calloc; [done|]. iSplit.
  { iIntros (Hn). iApply wp_ret. by iLeft. }
  iIntros (f Hf) "Htok Ha". simpl replicate. rw array_fcn. iDestruct "Ha" as "(Hsd & Hsc & Hhd & Hhf & Hcf)".
  rw (proj2 (Z.eqb_neq f 0)); [|lia]. rw (proj2 (Z.eqb_neq m 0)); [|lia].
  iApply wp_bind. iApply (wp_st with "Hsd"); [lia|]. iIntros "Hsd".
  iApply wp_bind. iApply (wp_st with "Hsc"); [lia|]. iIntros "Hsc".
  iApply wp_bind. iApply (wp_st with "Hhd"); [lia|]. iIntros "Hhd".
  iApply wp_bind. iApply (wp_st with "Hhf"); [lia|]. iIntros "Hhf".
  iApply wp_bind. iApply (wp_st with "Hcf"); [lia|]. iIntros "Hcf". iApply wp_ret. iRight.
  iExists _, _, _. by iFrame.
Qed.

Lemma table_words_small (n : Z) : 0 < n < 2 ^ 28 → table_words n = Z.to_nat n.
Proof.
  intros Hn. rw /table_words /s32 /swrap /u64 /wrap. change (2 ^ 28) with 268435456 in Hn.
  change (2 ^ (32 - 1)) with 2147483648. change (2 ^ 32) with 4294967296. change (2 ^ 64) with 18446744073709551616.
  rw (Z.mod_small (8 * n + _)); [|lia]. rw Z.add_simpl_r Z.mod_small; [|lia].
  by rw Z.mul_comm Z.div_mul.
Qed.

Lemma concat_replicate_nil {C} (n : nat) : concat (replicate n ([] : list C)) = [].
Proof. by induction n. Qed.

Lemma wp_new (n ks uf : Z) :
  0 < table_rows n < 2 ^ 28 → 0 ≤ ks < 2 ^ 31 → uf = 0 ∨ uf = MYFREE →
  ⊢ wp (sfghash_new n ks 0 uf) (λ t, ⌜t = 0 ∧ ¬ memory_left⌝ ∨ ∃ P,
    ⌜params_ok P ∧ p_keysize P = ks ∧ p_userfree P = uf ∧ p_nrows P = table_rows n⌝ ∗
    table_at P t (replicate (Z.to_nat (table_rows n)) []) 0 0).
Proof.
  iIntros (Hn Hks Huf). rw /sfghash_new -/(table_rows n). set (m := table_rows n) in *.
  iApply wp_bind. iApply wp_calloc; [done|]. iSplit; [iIntros (?); iApply wp_ret; by iLeft|].
  iIntros (t Ht) "T1 Ha". simpl replicate. rw array_header.
  iDestruct "Ha" as "(H1 & H2 & H3 & H4 & H5 & H6 & H7 & H8 & H9 & H10)".
  rw (proj2 (Z.eqb_neq t 0)); [|lia]. iApply wp_bind.
  iApply wp_wand; [iApply (wp_sfhashfcn_new m ks uf); lia|]. iIntros (f) "Hf".
  iApply wp_bind. iApply (wp_st with "H1"); [lia|]. iIntros "H1".
  iDestruct "Hf" as "[[-> %Hnm]|(%sd & %sc & %hd & Hh & T2)]".
  { iApply wp_bind. iApply (wp_free 8 t [0; 0; 0; 0; 0; 0; 0; 0; 0; 0] with "T1 [-]"); [lia|rw array_header; iFrame|].
    iApply wp_ret. by iLeft. }
  iFact (0 < f) as Hf; [by iDestruct "Hh" as "[% _]"|]. rw (proj2 (Z.eqb_neq f 0)); [|lia].
  rw table_words_small; [|done]. iApply wp_bind. iApply wp_calloc; [done|]. iSplit.
  - iIntros (Hnm). iApply wp_bind. iApply (wp_st with "H4"); [lia|]. iIntros "H4".
    iApply wp_bind. iApply (wp_ld with "H1"); [lia|]. iIntros "H1".
    iDestruct "Hh" as "(_ & Hsd & Hsc & Hhd & Hhf & Hcf)".
    iApply wp_bind. iApply (wp_free 8 f [sd; sc; hd; SFHASHFCN_HASH; MEMCMP] with "T2 [Hsd Hsc Hhd Hhf Hcf]"); [lia|rw array_fcn; iFrame|].
    iApply wp_bind. iApply (wp_free 8 t [f; 0; 0; 0; 0; 0; 0; 0; 0; 0] with "T1 [-]"); [lia|rw array_header; iFrame|].
    iApply wp_ret. by iLeft.
  - iIntros (tbl Htbl) "T3 Ha". rw (proj2 (Z.eqb_neq tbl 0)); [|lia].
    iApply wp_bind. iApply (wp_st with "H4"); [lia|]. iIntros "H4".
    iApply wp_bind. iApply (wp_clear_rows with "Ha"); [lia|by rw length_replicate|]. iIntros "Ha".
    iApply wp_bind. iApply (wp_st with "H3"); [lia|]. iIntros "H3".
    iApply wp_bind. iApply (wp_st with "H2"); [lia|]. iIntros "H2".
    iApply wp_bind. iApply (wp_st with "H5"); [lia|]. iIntros "H5".
    iApply wp_bind. iApply (wp_st with "H6"); [lia|]. iIntros "H6".
    iApply wp_bind. iApply (wp_st with "H7"); [lia|]. iIntros "H7".
    iApply wp_bind. iApply (wp_st with "H8"); [lia|]. iIntros "H8".
    iApply wp_bind. iApply (wp_st with "H9"); [lia|]. iIntros "H9". iApply wp_ret. iRight.
    iExists (Params ks sd sc hd uf m). iSplit.
    { iPureIntro. split_and!; [|done..]. rw /params_ok /=. split_and!; [lia|lia|lia|change (2 ^ 28) with 268435456 in Hn; change (2 ^ 31) with 2147483648; lia|done]. }
    iExists f, tbl. rw length_replicate concat_replicate_nil. iFrame. simpl. iSplit; [|iSplit; [done|]].
    + iPureIntro. split; [rw length_replicate /=; lia|]. intros i ns [-> _]%lookup_replicate. split; constructor.
    + iApply (array_rows _ tbl 0). by rw /row Z.mul_0_r Z.add_0_r.
Qed.
End new.
