(* ===== verification/SfhashSpec.v ===== *)
(** * Generic hash tables as finite maps

    The abstract table, a finite map with what an enumeration has yet to return;
    each call of the functions of sfghash.c as a step of it; the refinement of a
    whole run, from [sfghash_new] to [sfghash_delete]; a run. *)

From stdpp Require Import gmap.
From iris.proofmode Require Import proofmode environments.
From S2P Require Import Prelude WordMem Sfprime Sfhash SfhashKeys SfhashTable SfhashOps.

(** ** The abstract table *)

(** The data of each key, and what an enumeration has yet to return, when it is known. *)
Abbreviation contents := (gmap (list Z) Z).
Definition ahead : Type := option (list (list Z * Z)).
Definition tstate : Type := contents * ahead.

(** Calls of a program, with the address and the bytes of the key. *)
Inductive call :=
  | Add (kp : Z) (k : list Z) (d : Z)
  | Find (kp : Z) (k : list Z)
  | Find2 (kp : Z) (k : list Z)
  | Remove (kp : Z) (k : list Z)
  | Count
  | First
  | Next
  | First1
  | Next1.

Inductive answer :=
  | Int (r : Z)
  | Found (r : Z * option Z)
  | Item (x : option (list Z * Z)).

(** A removal keeps the enumeration, unless the key is ahead. *)
Definition keep (k : list Z) (it : ahead) : ahead :=
  l ← it; if decide (k ∈ l.*1) then None else Some l.

Inductive step `{Malloc} : tstate → call → answer → tstate → Prop :=
  | step_add m it kp k d :
      m !! k = None → step (m, it) (Add kp k d) (Int SFGHASH_OK) (<[k := d]> m, None)
  | step_nomem m it kp k d :
      ¬ memory_left → m !! k = None → step (m, it) (Add kp k d) (Int SFGHASH_NOMEM) (m, it)
  | step_intable m it kp k d :
      is_Some (m !! k) → step (m, it) (Add kp k d) (Int SFGHASH_INTABLE) (m, None)
  | step_find m it kp k : step (m, it) (Find kp k) (Int (default 0 (m !! k))) (m, it)
  | step_find2 m it kp k :
      step (m, it) (Find2 kp k)
        (Found (match m !! k with Some d => (1, Some d) | None => (0, None) end)) (m, it)
  | step_remove m it kp k :
      is_Some (m !! k) → step (m, it) (Remove kp k) (Int SFGHASH_OK) (delete k m, keep k it)
  | step_absent m it kp k :
      m !! k = None → step (m, it) (Remove kp k) (Int SFGHASH_ERR) (m, keep k it)
  | step_count m it : step (m, it) Count (Int (u32 (Z.of_nat (size m)))) (m, it)
  | step_first m it l : l ≡ₚ map_to_list m → step (m, it) First (Item (head l)) (m, Some (tail l))
  | step_next m l : step (m, Some l) Next (Item (head l)) (m, Some (tail l))
  | step_first1 m it l : l ≡ₚ map_to_list m → step (m, it) First1 (Item (head l)) (m, Some l)
  | step_next1 m x l : step (m, Some (x :: l)) Next1 (Item (head l)) (m, Some l).

Inductive steps `{Malloc} : tstate → list call → list answer → tstate → Prop :=
  | steps_nil s : steps s [] [] s
  | steps_cons s c r s1 cs rs s2 : step s c r s1 → steps s1 cs rs s2 → steps s (c :: cs) (r :: rs) s2.

(** An enumeration goes on only from where it is. *)
Definition enabled (s : tstate) (c : call) : Prop :=
  match c with
  | Next => is_Some s.2
  | Next1 => match s.2 with Some (_ :: _) => True | _ => False end
  | _ => True
  end.

Fixpoint allowed `{Malloc} (s : tstate) (cs : list call) : Prop :=
  match cs with
  | [] => True
  | c :: cs => enabled s c ∧ ∀ r s', step s c r s' → allowed s' cs
  end.

(** ** The program *)

Fixpoint read_bytes (n : nat) (p : Z) : M (list Z) :=
  match n with O => mret [] | S n => c ← ld p 0; k ← read_bytes n (p + 1); mret (c :: k) end.

(** The key and the data of the node that an enumeration returns. *)
Definition visit (fuel : nat) (t n : Z) : M (option (list Z * Z)) :=
  if n =? 0 then mret None
  else
    ks ← ld t keysize; kp ← ld n key; len ← key_length fuel (ks =? 0) ks kp;
    k ← read_bytes (Z.to_nat len) kp; d ← ld n data; mret (Some (k, d)).

Section program.
Context `{HM : Malloc} `{HE : Environment}.

Definition perform (fuel : nat) (t : Z) (c : call) : M answer :=
  match c with
  | Add kp k d => r ← sfghash_add fuel t kp d; mret (Int r)
  | Find kp k => r ← sfghash_find fuel t kp; mret (Int r)
  | Find2 kp k => r ← sfghash_find2 fuel t kp; mret (Found r)
  | Remove kp k => r ← sfghash_remove fuel t kp; mret (Int r)
  | Count => r ← sfghash_count t; mret (Int r)
  | First => n ← sfghash_findfirst fuel t; x ← visit fuel t n; mret (Item x)
  | Next => n ← sfghash_findnext fuel t; x ← visit fuel t n; mret (Item x)
  | First1 => n ← sfghash_findfirst1 fuel t; x ← visit fuel t n; mret (Item x)
  | Next1 => n ← sfghash_findnext1 fuel t; x ← visit fuel t n; mret (Item x)
  end.

Fixpoint performs (fuel : nat) (t : Z) (cs : list call) : M (list answer) :=
  match cs with
  | [] => mret []
  | c :: cs => r ← perform fuel t c; rs ← performs fuel t cs; mret (r :: rs)
  end.

(** A table from [sfghash_new] to [sfghash_delete]. *)
Definition table_session (fuel : nat) (n ks uf : Z) (cs : list call) : M (option (list answer)) :=
  t ← sfghash_new n ks 0 uf;
  if t =? 0 then mret None
  else rs ← performs fuel t cs; sfghash_delete fuel t;; mret (Some rs).

End program.

(** ** Rows and maps *)

Definition table_map (rows : list (list hnode)) : contents := list_to_map (concat rows).*2.

Section rows.
Context (P : params) (HP : params_ok P).

Lemma rows_keys (i : nat) (rows : list (list hnode)) :
  (∀ j ns, rows !! j = Some ns →
     NoDup (node_key <$> ns) ∧ Forall (λ x, index P (node_key x) = Z.of_nat (i + j)) ns) →
  NoDup (node_key <$> concat rows) ∧ Forall (λ x, Z.of_nat i ≤ index P (node_key x)) (concat rows).
Proof.
  revert i. induction rows as [|ns rows IH]; intros i H; [by split; constructor|]. simpl.
  destruct (H 0%nat ns eq_refl) as [Hnd Hi]. rw Nat.add_0_r in Hi.
  destruct (IH (S i)) as [Hnd' Hi'].
  { intros j ms Hj. rw Nat.add_succ_l -Nat.add_succ_r. by apply (H (S j)). }
  rw Forall_forall in Hi. rw Forall_forall in Hi'. split.
  - rw fmap_app. apply NoDup_app. split_and!; [done| |done].
    intros k (x & -> & Hx)%list_elem_of_fmap (y & Hy & Hyr)%list_elem_of_fmap.
    pose proof (Hi x Hx) as E. rw Hy in E. pose proof (Hi' y Hyr). simpl in *. lia.
  - apply Forall_app; split; apply Forall_forall; intros x Hx.
    + rw (Hi x Hx). lia.
    + pose proof (Hi' x Hx). lia.
Qed.

Lemma rows_nodup (rows : list (list hnode)) : rows_ok P rows → NoDup ((concat rows).*2).*1.
Proof.
  intros [_ H]. rw -list_fmap_compose. by apply (rows_keys 0 rows).
Qed.

Lemma map_items (rows : list (list hnode)) : rows_ok P rows → (concat rows).*2 ≡ₚ map_to_list (table_map rows).
Proof. intros Hr. symmetry. by apply map_to_list_to_map, rows_nodup. Qed.

Lemma map_size (rows : list (list hnode)) : rows_ok P rows → size (table_map rows) = length (concat rows).
Proof.
  intros Hr. rw -length_map_to_list -(map_items rows Hr) length_fmap //.
Qed.

(** A key of the table is in its row. *)
Lemma key_in_row (rows : list (list hnode)) (k : list Z) :
  rows_ok P rows → k ∈ node_key <$> concat rows ↔ k ∈ node_key <$> the_row P rows k.
Proof using HP.
  intros Hr. pose proof (the_row_lookup P HP rows k Hr) as Hk. rw !list_elem_of_fmap. split.
  - intros (x & -> & Hx). exists x. split; [done|]. apply list_elem_of_In, in_concat in Hx as (ns & Hns & Hx).
    apply list_elem_of_In in Hns, Hx. apply list_elem_of_lookup_1 in Hns as [i Hi].
    destruct Hr as [_ Hr]. destruct (Hr i ns Hi) as [_ Hix]. rw Forall_forall in Hix.
    pose proof (Hix x Hx) as E. rw E Nat2Z.id Hi in Hk. by injection Hk as <-.
  - intros (x & -> & Hx). exists x. split; [done|]. apply list_elem_of_In, in_concat. eexists.
    split; apply list_elem_of_In; [by eapply list_elem_of_lookup_2|done].
Qed.

Lemma map_none (rows : list (list hnode)) (k : list Z) :
  rows_ok P rows → table_map rows !! k = None ↔ (k ∉ node_key <$> the_row P rows k).
Proof using HP.
  intros Hr. rw -(key_in_row rows k Hr) /table_map -not_elem_of_list_to_map -list_fmap_compose //.
Qed.

Lemma map_some (rows : list (list hnode)) (k : list Z) :
  rows_ok P rows → k ∈ node_key <$> the_row P rows k → is_Some (table_map rows !! k).
Proof using HP.
  intros Hr Hk. destruct (table_map rows !! k) eqn:E; [done|]. by apply map_none in E.
Qed.

Lemma map_found (rows : list (list hnode)) (k : list Z) (d : Z) :
  rows_ok P rows → found_data P rows k d → table_map rows !! k = Some d.
Proof using HP.
  intros Hr [n Hn]. apply elem_of_list_to_map_1; [by apply rows_nodup|].
  change (k, d) with (n, (k, d)).2. apply list_elem_of_fmap_2, list_elem_of_In, in_concat. eexists.
  split; apply list_elem_of_In; [|done]. eapply list_elem_of_lookup_2. by apply the_row_lookup.
Qed.

Lemma map_insert (rows : list (list hnode)) (n d : Z) (k : list Z) :
  rows_ok P rows → rows_ok P (<[Z.to_nat (index P k) := (n, (k, d)) :: the_row P rows k]> rows) →
  table_map (<[Z.to_nat (index P k) := (n, (k, d)) :: the_row P rows k]> rows) = <[k := d]> (table_map rows).
Proof using HP.
  intros Hr Hr'. destruct (concat_row P HP rows k Hr) as (a & b & Ec & Ei).
  rw /table_map -list_to_map_cons. apply list_to_map_proper; [by apply rows_nodup|].
  rw Ei Ec -Permutation_middle //.
Qed.

Lemma map_delete (rows : list (list hnode)) (k : list Z) :
  rows_ok P rows →
  table_map (<[Z.to_nat (index P k) := del_key k (the_row P rows k)]> rows) = delete k (table_map rows).
Proof using HP.
  intros Hr. destruct (decide (k ∈ node_key <$> the_row P rows k)) as [Hk|Hk].
  - destruct (concat_row P HP rows k Hr) as (a' & b' & Ec & Ei). destruct (rows_ok_row P HP rows k Hr) as [Hnd _].
    destruct (node_of_split _ _ Hk) as (a & n & d & b & Er & _ & _). rw Er in Hnd Ec |- *.
    rw del_key_split // in Ei |- *. rw /table_map Ei Ec.
    assert (((a' ++ (a ++ (n, (k, d)) :: b) ++ b').*2) ≡ₚ (k, d) :: (a' ++ (a ++ b) ++ b').*2) as Hp.
    { rw -(app_assoc a) -(app_assoc a) /= app_assoc -Permutation_middle -app_assoc //. }
    pose proof (rows_nodup rows Hr) as Hnd'. rw Ec in Hnd'.
    rw (list_to_map_proper _ _ Hnd' Hp) /=. rw delete_insert_id //. apply not_elem_of_list_to_map_1.
    rw Hp in Hnd'. by apply NoDup_cons in Hnd' as [? _].
  - rw del_key_id // the_row_same // delete_id //. by apply map_none.
Qed.
End rows.

(** ** Refinement *)

(** What a call takes, and what it gives back. *)
Definition call_key (c : call) : list Z :=
  match c with Add _ k _ | Find _ k | Find2 _ k | Remove _ k => k | _ => [] end.

(** Enough fuel for the keys, the nodes and the rows. *)
Definition fits (fuel : nat) (cs : list call) (s : tstate) : Prop :=
  (size s.1 + length cs < fuel)%nat ∧
  map_Forall (λ k _, length k ≤ fuel)%nat s.1 ∧ Forall (λ c, length (call_key c) ≤ fuel)%nat cs.

Lemma step_fits `{Malloc} (fuel : nat) (s : tstate) (c : call) (r : answer) (s' : tstate) (cs : list call) :
  step s c r s' → fits fuel (c :: cs) s → fits fuel cs s'.
Proof.
  intros Hs (H1 & H2 & [Hc H3]%Forall_cons). cbn [length] in H1.
  unfold fits. destruct Hs; (split_and!; [|..|done]); cbn [fst] in *; try done; try lia.
  - rw map_size_insert_None //. lia.
  - by apply map_Forall_insert_2.
  - rw map_size_delete_Some //. lia.
  - by apply map_Forall_delete.
Qed.

(** What is ahead is in the table. *)
Lemma cursor_in (rows : list (list hnode)) (cr cn : Z) (rest : list hnode) (x : hnode) :
  cursor rows cr cn rest → head rest = Some x → x ∈ concat rows.
Proof.
  intros Hc Hx. destruct rest as [|y rest]; [done|]. injection Hx as ->.
  destruct Hc as (_ & A & a & b & B & -> & _ & _). rw concat_app /=. set_solver.
Qed.

Lemma fmap_tail (l : list hnode) : (tail l).*2 = tail l.*2.
Proof. by destruct l. Qed.

Section refinement.
Context `{HM : Malloc} `{HE : Environment}.
Context (P : params) (HP : params_ok P).

Definition call_in (c : call) : hprop :=
  match c with
  | Add kp k d => key_buf P kp k ∗ data_of P d
  | Find kp k | Find2 kp k | Remove kp k => key_buf P kp k
  | _ => ⌜True⌝
  end.

Definition call_out (cr : call * answer) : hprop :=
  match cr with
  | (Add kp k d, r) => key_buf P kp k ∗ match r with Int 0 => ⌜True⌝ | _ => data_of P d end
  | (c, _) => call_in c
  end.

Definition table_rel (t : Z) (s : tstate) : hprop :=
  ∃ rows cr cn, table_at P t rows cr cn ∗
    ⌜s.1 = table_map rows ∧
     match s.2 with None => True | Some l => ∃ rest, cursor rows cr cn rest ∧ l = rest.*2 end⌝.

Lemma table_rows_ok (t cr cn : Z) (rows : list (list hnode)) :
  table_at P t rows cr cn -∗ ⌈rows_ok P rows⌉.
Proof. by iIntros "(% & % & $ & _)". Qed.

Lemma fits_rows (fuel : nat) (cs : list call) (rows : list (list hnode)) (c : call) (it : ahead) :
  rows_ok P rows → fits fuel (c :: cs) (table_map rows, it) → fuel_ok fuel rows (call_key c).
Proof using HP.
  intros Hr (H1 & H2 & [Hc H3]%Forall_cons). rw /= (map_size P rows Hr) in H1. split; [done|lia].
Qed.

(** ** The client's view of a node *)

Lemma wp_read_bytes (p : Z) (k : list Z) (Φ : list Z → hprop) :
  0 < p → array p 1 k -∗ (array p 1 k -∗ Φ k) -∗ wp (read_bytes (length k) p) Φ.
Proof.
  revert p Φ. induction k as [|c k IH]; iIntros (p Φ Hp) "Hk HΦ"; cbn [read_bytes length].
  { iApply wp_ret. by iApply "HΦ". }
  iDestruct (array_open with "Hk") as "[Hc Hk]". iApply wp_bind. iApply (wp_ld with "Hc"); [lia|]. iIntros "Hc".
  iApply wp_bind. iApply (IH with "Hk"); [lia|]. iIntros "Hk". iApply wp_ret. iApply "HΦ".
  by iApply (array_close with "Hc").
Qed.

Lemma wp_visit (fuel : nat) (t cr cn : Z) (rows : list (list hnode)) (l : list hnode)
    (Φ : option (list Z * Z) → hprop) :
  (∀ x, head l = Some x → x ∈ concat rows) → map_Forall (λ k _, length k ≤ fuel)%nat (table_map rows) →
  table_at P t rows cr cn -∗ (table_at P t rows cr cn -∗ Φ (head l.*2)) -∗
  wp (visit fuel t (first_of l)) Φ.
Proof using HP.
  iIntros (Hl Hfit) "Ht HΦ". iPure (table_rows_ok with "Ht") as Hr. rw /visit.
  destruct l as [|[n [k d]] l]; simpl.
  { iApply wp_ret. by iApply "HΦ". }
  assert ((n, (k, d)) ∈ concat rows) as Hin by (by apply Hl).
  assert (length k ≤ fuel)%nat as Hk.
  { apply (Hfit k d), elem_of_list_to_map_1; [by apply (rows_nodup P)|]. by apply (list_elem_of_fmap_2 snd) in Hin. }
  apply list_elem_of_In, in_concat in Hin as (ns & Hns & Hx).
  apply list_elem_of_In in Hns, Hx. apply list_elem_of_split in Hns as (A & B & ->).
  apply list_elem_of_split in Hx as (a & b & ->).
  iDestruct "Ht" as "(%f & %tbl & _ & (%Ht & Hsf & Hks & Hfix) & Hrows & HT)".
  iDestruct (node_acc with "Hrows") as "(%prv & (%Hx & Hn & Hp & (%kp & %Hkp & Hk & Hka & Hkt) & Hd & Hnode) & _ & Hrows)".
  simpl in Hx. rw /= (proj2 (Z.eqb_neq n 0)); [|lia].
  iApply wp_bind. iApply (wp_ld with "Hks"); [lia|]. iIntros "Hks".
  iApply wp_bind. iApply (wp_ld with "Hk"); [lia|]. iIntros "Hk".
  iApply wp_bind. iApply (wp_key_length P HP fuel kp k with "[Hka]"); [done|iFrame; by destruct Hx|].
  iIntros "[_ Hka]". rw Nat2Z.id.
  iApply wp_bind. iApply (wp_read_bytes with "Hka"); [lia|]. iIntros "Hka".
  iApply wp_bind. iApply (wp_ld with "Hd"); [lia|]. iIntros "Hd". iApply wp_ret. iApply "HΦ".
  iExists f, tbl. iSplit; [done|]. iFrame "HT". iSplitL "Hsf Hks Hfix"; [by iFrame|].
  iApply "Hrows". iSplit; [done|]. by iFrame.
Qed.

(** ** Each call is a step *)

(** The relation of the concrete and the abstract table after a call that leaves them as they are. *)
Lemma table_rel_same (t cr cn : Z) (rows : list (list hnode)) (it : ahead) :
  match it with None => True | Some l => ∃ rest, cursor rows cr cn rest ∧ l = rest.*2 end →
  table_at P t rows cr cn -∗ table_rel t (table_map rows, it).
Proof. iIntros (Hit) "Ht". iExists rows, cr, cn. by iFrame. Qed.

Lemma wp_perform_add (fuel : nat) (t kp d : Z) (k : list Z) (m : contents) (it : ahead) (cs : list call) :
  fits fuel (Add kp k d :: cs) (m, it) →
  table_rel t (m, it) -∗ call_in (Add kp k d) -∗
  wp (perform fuel t (Add kp k d)) (λ r, ∃ s', ⌜step (m, it) (Add kp k d) r s'⌝ ∗ table_rel t s' ∗ call_out (Add kp k d, r)).
Proof using HP.
  iIntros (Hfit) "(%rows & %cr & %cn & Ht & [%Hm %Hit]) [Hk Hd]". simpl in Hm, Hit. subst m.
  iPure (table_rows_ok with "Ht") as Hr. iApply wp_bind.
  iApply (wp_wand with "[Ht Hk Hd]"); [iApply (wp_add P HP with "Ht Hk Hd"); by apply (fits_rows _ cs rows (Add kp k d) it)|].
  iIntros (r) "[Hk [H|[H|H]]]"; iApply wp_ret.
  - iDestruct "H" as "([-> %Hk] & Hd & %cn' & Ht)". iExists (table_map rows, None). iFrame.
    iSplit; [iPureIntro; constructor; by apply (map_some P HP)|auto].
  - iDestruct "H" as "((-> & %Hn & %Hk) & Hd & Ht)". iExists (table_map rows, it). iFrame.
    iSplit; [iPureIntro; constructor; [done|by apply (map_none P HP)]|auto].
  - iDestruct "H" as "([-> %Hk] & %n & Ht)". iPure (table_rows_ok with "Ht") as Hr'.
    iExists (<[k := d]> (table_map rows), None). iFrame.
    iSplit; [iPureIntro; constructor; by apply (map_none P HP)|]. iSplit; [|done]. by rw (map_insert P).
Qed.

Lemma wp_perform_find (fuel : nat) (t kp : Z) (k : list Z) (m : contents) (it : ahead) (cs : list call) :
  fits fuel (Find kp k :: cs) (m, it) →
  table_rel t (m, it) -∗ call_in (Find kp k) -∗
  wp (perform fuel t (Find kp k)) (λ r, ∃ s', ⌜step (m, it) (Find kp k) r s'⌝ ∗ table_rel t s' ∗ call_out (Find kp k, r)).
Proof using HP.
  iIntros (Hfit) "(%rows & %cr & %cn & Ht & [%Hm %Hit]) Hk". simpl in Hm, Hit. subst m.
  iPure (table_rows_ok with "Ht") as Hr. iApply wp_bind.
  iApply (wp_wand with "[Ht Hk]"); [iApply (wp_find P HP with "Ht Hk"); by apply (fits_rows _ cs rows (Find kp k) it)|].
  iIntros (r) "(Ht & Hk & %Hd)". iApply wp_ret. iExists (table_map rows, it).
  iDestruct (table_rel_same with "Ht") as "$"; [done|]. iFrame. iPureIntro.
  pose proof (step_find (table_map rows) it kp k) as Hstep. destruct Hd as [Hd|[-> Hk]].
  - by rw (map_found P HP _ _ _ Hr Hd) in Hstep.
  - by rw (proj2 (map_none P HP _ _ Hr) Hk) in Hstep.
Qed.

Lemma wp_perform_find2 (fuel : nat) (t kp : Z) (k : list Z) (m : contents) (it : ahead) (cs : list call) :
  fits fuel (Find2 kp k :: cs) (m, it) →
  table_rel t (m, it) -∗ call_in (Find2 kp k) -∗
  wp (perform fuel t (Find2 kp k)) (λ r, ∃ s', ⌜step (m, it) (Find2 kp k) r s'⌝ ∗ table_rel t s' ∗ call_out (Find2 kp k, r)).
Proof using HP.
  iIntros (Hfit) "(%rows & %cr & %cn & Ht & [%Hm %Hit]) Hk". simpl in Hm, Hit. subst m.
  iPure (table_rows_ok with "Ht") as Hr. iApply wp_bind.
  iApply (wp_wand with "[Ht Hk]"); [iApply (wp_find2 P HP with "Ht Hk"); by apply (fits_rows _ cs rows (Find2 kp k) it)|].
  iIntros (r) "(Ht & Hk & %Hd)". iApply wp_ret. iExists (table_map rows, it).
  iDestruct (table_rel_same with "Ht") as "$"; [done|]. iFrame. iPureIntro.
  pose proof (step_find2 (table_map rows) it kp k) as Hstep. destruct Hd as [(d & -> & Hd)|[-> Hk]].
  - by rw (map_found P HP _ _ _ Hr Hd) in Hstep.
  - by rw (proj2 (map_none P HP _ _ Hr) Hk) in Hstep.
Qed.

Lemma wp_perform_remove (fuel : nat) (t kp : Z) (k : list Z) (m : contents) (it : ahead) (cs : list call) :
  fits fuel (Remove kp k :: cs) (m, it) →
  table_rel t (m, it) -∗ call_in (Remove kp k) -∗
  wp (perform fuel t (Remove kp k)) (λ r, ∃ s', ⌜step (m, it) (Remove kp k) r s'⌝ ∗ table_rel t s' ∗ call_out (Remove kp k, r)).
Proof using HP.
  iIntros (Hfit) "(%rows & %cr & %cn & Ht & [%Hm %Hit]) Hk". simpl in Hm, Hit. subst m.
  iPure (table_rows_ok with "Ht") as Hr. iApply wp_bind.
  iApply (wp_wand with "[Ht Hk]"); [iApply (wp_remove P HP with "Ht Hk"); by apply (fits_rows _ cs rows (Remove kp k) it)|].
  iIntros (r) "(Hk & -> & Ht)". iApply wp_ret. iExists (delete k (table_map rows), keep k it). iFrame.
  iSplit; [iPureIntro; destruct (decide _) as [Hk|Hk]|iPureIntro; split].
  - constructor. by apply (map_some P HP).
  - pose proof (proj2 (map_none P HP _ _ Hr) Hk) as E. rw delete_id //. by constructor.
  - simpl. by rw (map_delete P).
  - destruct it as [l|]; [|done]. destruct Hit as (rest & Hcur & ->). simpl.
    case_decide as Hin; [done|]. exists rest. split; [|done].
    apply cursor_remove; [by apply the_row_lookup| |done]. by rw list_fmap_compose.
Qed.

(** An enumeration that returns the first of [l], the cursor at [l']. *)
Lemma wp_item (fuel : nat) (t cr cn : Z) (rows : list (list hnode)) (xs ys : list hnode) (Q : answer → tstate → Prop) :
  map_Forall (λ k _, length k ≤ fuel)%nat (table_map rows) →
  (∀ x, head xs = Some x → x ∈ concat rows) → cursor rows cr cn ys →
  Q (Item (head xs.*2)) (table_map rows, Some ys.*2) →
  table_at P t rows cr cn -∗
  wp (x ← visit fuel t (first_of xs); mret (Item x)) (λ r, ∃ s', ⌜Q r s'⌝ ∗ table_rel t s').
Proof using HP.
  iIntros (Hkeys Hxs Hcur HQ) "Ht". iApply wp_bind. iApply (wp_visit with "Ht"); [done|done|].
  iIntros "Ht". iApply wp_ret. iExists (table_map rows, Some ys.*2).
  iDestruct (table_rel_same _ _ _ _ (Some ys.*2) with "Ht") as "$"; [by exists ys|done].
Qed.

Lemma head_in (rows : list (list hnode)) (x : hnode) : head (concat rows) = Some x → x ∈ concat rows.
Proof. intros Hx. destruct (concat rows); [done|]. injection Hx as ->. by left. Qed.

Lemma wp_perform_enum (fuel : nat) (t : Z) (m : contents) (it : ahead) (c : call) :
  enabled (m, it) c → map_Forall (λ k _, length k ≤ fuel)%nat m → (Z.to_nat (p_nrows P) < fuel)%nat →
  match c with First | Next | First1 | Next1 => True | _ => False end →
  table_rel t (m, it) -∗
  wp (perform fuel t c) (λ r, ∃ s', ⌜step (m, it) c r s'⌝ ∗ table_rel t s').
Proof using HP.
  iIntros (Hen Hkeys Hfuel Hc) "(%rows & %cr & %cn & Ht & [%Hm %Hit])". simpl in Hm, Hit. subst m.
  iPure (table_rows_ok with "Ht") as Hr. assert (length rows < fuel)%nat as Hl by (destruct Hr; lia).
  pose proof (map_items P rows Hr) as Hitems. destruct c as [| | | | | | | |]; try done; simpl; iApply wp_bind.
  - iApply (wp_findfirst P HP with "Ht"); [done|]. iIntros (cr' cn' Hcur) "Ht".
    iApply (wp_item with "Ht"); [done|apply head_in|done|]. rw fmap_tail. by apply step_first.
  - destruct Hen as [l Hl']. simpl in Hl'. subst it. destruct Hit as (rest & Hcur & ->).
    iApply (wp_findnext P HP with "Ht"); [done|done|]. iIntros (cr' cn' Hcur') "Ht".
    iApply (wp_item with "Ht"); [done|by intros x; apply (cursor_in rows cr cn)|done|]. rw fmap_tail. apply step_next.
  - iApply (wp_findfirst1 P HP with "Ht"); [done|]. iIntros (cr' cn' Hcur) "Ht".
    iApply (wp_item with "Ht"); [done|apply head_in|done|]. by apply step_first1.
  - destruct it as [[|y l]|]; try done. destruct Hit as ([|x rest] & Hcur & [= -> ->]).
    iApply (wp_findnext1 P HP with "Ht"); [done|done|]. iIntros (cr' cn' Hcur') "Ht".
    iApply (wp_item with "Ht"); [done|by intros z; apply (cursor_in rows cr' cn')|done|]. apply step_next1.
Qed.

Lemma wp_perform (fuel : nat) (t : Z) (s : tstate) (c : call) (cs : list call) :
  enabled s c → fits fuel (c :: cs) s → (Z.to_nat (p_nrows P) < fuel)%nat →
  table_rel t s -∗ call_in c -∗
  wp (perform fuel t c) (λ r, ∃ s', ⌜step s c r s'⌝ ∗ table_rel t s' ∗ call_out (c, r)).
Proof using HP.
  iIntros (Hen Hfit Hfuel) "Ht Hc". destruct s as [m it]. pose proof Hfit as (_ & Hkeys & _).
  destruct c as [kp k d|kp k|kp k|kp k| | | | |].
  6-9: iApply (wp_wand with "[Ht]"); [by iApply (wp_perform_enum with "Ht")|]; iIntros (r) "(%s' & %Hs & Ht)"; iExists s'; iFrame "Ht"; by iSplit.
  - by iApply (wp_perform_add with "Ht Hc").
  - by iApply (wp_perform_find with "Ht Hc").
  - by iApply (wp_perform_find2 with "Ht Hc").
  - by iApply (wp_perform_remove with "Ht Hc").
  - iDestruct "Ht" as "(%rows & %cr & %cn & Ht & [%Hm %Hit])". simpl in Hm, Hit. subst m.
    iPure (table_rows_ok with "Ht") as Hr. iApply wp_bind.
    iApply (wp_wand with "[Ht]"); [by iApply (wp_count with "Ht")|].
    iIntros (r) "(-> & Ht)". iApply wp_ret. iExists (table_map rows, it).
    iDestruct (table_rel_same with "Ht") as "$"; [done|].
    iSplit; [|done]. iPureIntro. rw -(map_size P rows Hr). constructor.
Qed.

Lemma wp_performs (fuel : nat) (t : Z) (s : tstate) (cs : list call) :
  allowed s cs → fits fuel cs s → (Z.to_nat (p_nrows P) < fuel)%nat →
  table_rel t s -∗ ([∗ list] c ∈ cs, call_in c) -∗
  wp (performs fuel t cs) (λ rs, ∃ s', ⌜steps s cs rs s' ∧ fits fuel [] s'⌝ ∗ table_rel t s' ∗
    [∗ list] cr ∈ zip cs rs, call_out cr).
Proof using HP.
  revert s. induction cs as [|c cs IH]; iIntros (s Hall Hfit Hfuel) "Ht Hcs"; simpl.
  { iApply wp_ret. iExists s. iFrame. iPureIntro. split; [constructor|done]. }
  destruct Hall as [Hen Hall]. iDestruct "Hcs" as "[Hc Hcs]". iApply wp_bind.
  iApply (wp_wand with "[Ht Hc]"); [by iApply (wp_perform with "Ht Hc")|].
  iIntros (r) "(%s1 & %Hs & Ht & Hc)". iApply wp_bind.
  iApply (wp_wand with "[Ht Hcs]").
  { iApply (IH s1 with "Ht Hcs"); [by eapply Hall|by eapply step_fits|done]. }
  iIntros (rs) "(%s2 & [%Hss %Hfit'] & Ht & Hcs)". iApply wp_ret. iExists s2. simpl. iFrame.
  iPureIntro. split; [by econstructor|done].
Qed.

Lemma wp_delete_rel (fuel : nat) (t : Z) (s : tstate) (Φ : unit → hprop) :
  fits fuel [] s → table_rel t s -∗ Φ tt -∗ wp (sfghash_delete fuel t) Φ.
Proof using HP.
  iIntros ((Hf & _)) "(%rows & %cr & %cn & Ht & [%Hs _]) HΦ". iPure (table_rows_ok with "Ht") as Hr.
  iApply (wp_delete P HP with "Ht HΦ"). rw Hs (map_size P _ Hr) /= in Hf. lia.
Qed.

End refinement.

Section session.
Context `{HM : Malloc} `{HE : Environment}.
Context (ks uf : Z).

(** The parameters that a caller knows. *)
Definition known : params := Params ks 0 0 0 uf 1.

Lemma wp_session (fuel : nat) (n : Z) (cs : list call) :
  0 < table_rows n < 2 ^ 28 → 0 ≤ ks < 2 ^ 31 → uf = 0 ∨ uf = MYFREE →
  (Z.to_nat (table_rows n) < fuel)%nat → fits fuel cs (∅, None) → allowed (∅, None) cs →
  ([∗ list] c ∈ cs, call_in known c) -∗
  wp (table_session fuel n ks uf cs) (λ r,
    match r with
    | None => ⌜¬ memory_left⌝ ∗ [∗ list] c ∈ cs, call_in known c
    | Some rs => ⌜∃ s, steps (∅, None) cs rs s⌝ ∗ [∗ list] cr ∈ zip cs rs, call_out known cr
    end).
Proof.
  iIntros (Hn Hks Huf Hfuel Hfit Hall) "Hcs". rw /table_session. iApply wp_bind.
  iApply wp_wand; [by iApply (wp_new n ks uf)|].
  iIntros (t) "[[-> %Hnm]|(%P & (%HP & %Eks & %Euf & %En) & Ht)]"; [iApply wp_ret; by iFrame|].
  iFact (0 < t) as Ht.
  { iDestruct "Ht" as "(%f & %tbl & _ & (%Ht & _) & _)". iPureIntro. lia. }
  rw (proj2 (Z.eqb_neq t 0)); [|lia]. iApply wp_bind.
  rw /known -Eks -Euf. clear Hks Huf Eks Euf. 
  iApply (wp_wand with "[Ht Hcs]").
  { iApply (wp_performs P HP fuel t (∅, None) with "[Ht] Hcs"); [done|done|lia|].
    iExists _, 0, 0. iFrame. iPureIntro. split; [|done]. by rw /table_map /= concat_replicate_nil. }
  iIntros (rs) "(%s & [%Hs %Hf] & Ht & Hcs)". iApply wp_bind.
  iApply (wp_delete_rel P HP with "Ht"); [done|]. iApply wp_ret. iSplit; [by iExists s|]. done.
Qed.

End session.

(** ** Without the logic *)

(** A key of the caller, and the block of the data when the table frees it. *)
Definition fp_key (ks kp : Z) (k : list Z) : footprint := fp_pure (0 < kp ∧ key_ok ks k) ⊗ fp_array kp k.
Definition fp_data (uf d : Z) : footprint :=
  if uf =? 0 then fp_pure True
  else fp_ex (λ b, match b with
    | None => fp_pure (d = 0)
    | Some vs => fp_pure (0 < d) ⊗ fp_token d (length vs) ⊗ fp_array d vs
    end).

Definition fp_in (ks uf : Z) (c : call) : footprint :=
  match c with
  | Add kp k d => fp_key ks kp k ⊗ fp_data uf d
  | Find kp k | Find2 kp k | Remove kp k => fp_key ks kp k
  | _ => fp_pure True
  end.
Definition fp_out (ks uf : Z) (cr : call * answer) : footprint :=
  match cr with
  | (Add kp k d, r) => fp_key ks kp k ⊗ match r with Int 0 => fp_pure True | _ => fp_data uf d end
  | (c, _) => fp_in ks uf c
  end.

Section footprints.

#[export] Instance covers_key (P : params) (kp : Z) (k : list Z) : Covers (key_buf P kp k) (fp_key (p_keysize P) kp k).
Proof. apply _. Qed.

#[export] Instance covers_data (P : params) (d : Z) : Covers (data_of P d) (fp_data (p_userfree P) d).
Proof.
  rw /data_of /fp_data. destruct (p_userfree P =? 0); [apply _|].
  eapply covers_proper; [|reflexivity|apply (covers_ex (λ b, match b with
    | None => ⌜d = 0⌝ | Some vs => ⌜0 < d⌝ ∗ token d (length vs) ∗ array d 1 vs end)%I)].
  - iSplit.
    + iIntros "[->|(%Hd & %vs & H)]"; [by iExists None|]. iExists (Some vs). by iFrame.
    + iIntros "[%b H]". destruct b as [vs|]; [|by iLeft]. iRight. iDestruct "H" as "[$ H]". by iExists vs.
  - intros [vs|]; apply _.
Qed.

Lemma covers_in (ks uf : Z) (c : call) : Covers (call_in (known ks uf) c) (fp_in ks uf c).
Proof. destruct c; apply _. Qed.

Lemma covers_out (ks uf : Z) (cr : call * answer) : Covers (call_out (known ks uf) cr) (fp_out ks uf cr).
Proof. destruct cr as [[] r]; try apply _. destruct r as [[]| |]; apply _. Qed.

End footprints.

(** C3: a table is a finite map from its creation to its deletion: in every memory
    that holds the keys and the data of the calls, the program
    [sfghash_new], the calls, [sfghash_delete] has a result; the answers are
    those of the abstract table, with SFGHASH_NOMEM, or no table at all, only
    after a failed allocation; and at the end the memory is what it was without
    the data that the table took: each block of the table, and each of these
    data, has been freed exactly once. *)
Theorem sfghash_refines `{HM : Malloc} `{HE : Environment} (fuel : nat) (n ks uf : Z) (cs : list call) :
  0 < table_rows n < 2 ^ 28 → 0 ≤ ks < 2 ^ 31 → uf = 0 ∨ uf = MYFREE →
  (Z.to_nat (table_rows n) < fuel)%nat → fits fuel cs (∅, None) → allowed (∅, None) cs →
  triple (fp_list (fp_in ks uf) cs) (table_session fuel n ks uf cs) (λ r,
    match r with
    | None => fp_pure (¬ memory_left) ⊗ fp_list (fp_in ks uf) cs
    | Some rs => fp_pure (∃ s, steps (∅, None) cs rs s) ⊗ fp_list (fp_out ks uf) (zip cs rs)
    end).
Proof.
  intros Hn Hks Huf Hfuel Hfit Hall. apply wp_triple.
  exists ([∗ list] c ∈ cs, call_in (known ks uf) c)%I, (λ r,
    match r with
    | None => ⌜¬ memory_left⌝ ∗ [∗ list] c ∈ cs, call_in (known ks uf) c
    | Some rs => ⌜∃ s, steps (∅, None) cs rs s⌝ ∗ [∗ list] cr ∈ zip cs rs, call_out (known ks uf) cr
    end)%I. split_and!.
  - apply covers_list, covers_in.
  - intros [rs|]; [apply covers_sep; [apply _|apply covers_list, covers_out]|apply covers_sep; [apply _|apply covers_list, covers_in]].
  - iIntros "H". by iApply (wp_session with "H").
Qed.

(** ** A run *)

(** [rand] is constant, and no function is registered. *)
Definition plain : Environment := {|
  rand _ := 5;
  user_hash _ _ _ _ := undefined;
  user_keycmp _ _ _ _ := undefined;
  user_free _ _ := undefined;
|}.

Definition sample_calls : list call :=
  [Add 16 [97; 0] 64; Add 20 [98; 0] 0; First; Next; Find 24 [97; 0]; Remove 28 [97; 0]; Count].
Definition sample_cells : list (Z * Z) :=
  [(16, 97); (17, 0); (-64, 1); (64, 42)] ++ [(20, 98); (21, 0)] ++ [(24, 97); (25, 0)] ++ [(28, 97); (29, 0)].

Lemma sfghash_refines_witness :
  let m := list_to_map sample_cells in
  (fst <$> table_session (HM := bump) (HE := plain) 20 (-2) 0 MYFREE sample_calls m =
     Some (Some [Int 0; Int 0; Item (Some ([97; 0], 64)); Item (Some ([98; 0], 0)); Int 64; Int 0; Int 1])) ∧
  ∃ a m' cs', table_session (HM := bump) (HE := plain) 20 (-2) 0 MYFREE sample_calls m = Some (a, m') ∧
    (match a with
     | None => fp_pure (¬ memory_left (H := bump)) ⊗ fp_list (fp_in 0 MYFREE) sample_calls
     | Some rs => fp_pure (∃ s, steps (H := bump) (∅, None) sample_calls rs s) ⊗ fp_list (fp_out 0 MYFREE) (zip sample_calls rs)
     end) cs' ∧ holds m' cs' ∧ outside cs' m' = outside sample_cells m.
Proof.
  intros m. split; [vm_compute; reflexivity|].
  refine (sfghash_refines (HM := bump) (HE := plain) 20 (-2) 0 MYFREE sample_calls _ _ _ _ _ _ m sample_cells _ _).
  - vm_compute. done.
  - done.
  - by right.
  - vm_compute. lia.
  - split_and!; [vm_compute; lia|apply map_Forall_empty|]. repeat constructor; vm_compute; lia.
  - simpl. repeat (split; [try done|intros ? ? Hs; inversion Hs; subst; clear Hs]); try done.
  - assert (∀ c, c ≠ 0 → key_ok 0 [c; 0]) as Hkey.
    { intros c Hc. split; [done|]. exists [c]. by repeat constructor. }
    simpl. unfold fp_key, fp_data. simpl.
    eapply fp_sep_intro;
      [eapply fp_sep_intro;
         [fp_build
         |apply (fp_ex_intro _ (Some [42])); eapply fp_sep_intro;
            [fp_build|eapply fp_sep_intro; [reflexivity|simpl; fp_build|reflexivity]|reflexivity]
         |reflexivity]
      |eapply fp_sep_intro;
         [eapply fp_sep_intro; [fp_build|apply (fp_ex_intro _ None); fp_build|reflexivity]|fp_build|reflexivity]
      |reflexivity].
    all: try done. all: split; [lia|by apply Hkey].
  - apply holds_list_to_map. vm_compute. reflexivity.
Defined.

(** ** The splay mode

    [movetofront] unlinks the node and links the head of the row behind it, but
    the row keeps its old head: in a table of one row, a key that is found a
    second time is not found. *)

Definition splay_run : M (Z * Z * Z) :=
  t ← sfghash_new (HM := bump) (HE := plain) (-1) 0 0 0;
  sfghash_add (HM := bump) (HE := plain) 20 t 16 64;; sfghash_add (HM := bump) (HE := plain) 20 t 20 65;;
  sfghash_splaymode t 1;;
  x ← sfghash_find (HE := plain) 20 t 16; y ← sfghash_find (HE := plain) 20 t 16; n ← sfghash_count t;
  mret (x, y, n).

Example splay_loses_node :
  fst <$> splay_run (list_to_map [(16, 97); (17, 0); (20, 98); (21, 0)]) = Some (64, 0, 2).
Proof. vm_compute. reflexivity. Qed.
