(* ===== verification/WordExit.v ===== *)
(** * Programs that may end the process

    A layer over [WordMem] for code that calls [exit] or [abort] when there is no
    memory: a result is a value, or the end of the process, and after that
    nothing runs.  [xwp] asks for the postcondition of a value, and for a failed
    allocation where the process ends. *)

From iris.proofmode Require Import proofmode.
From S2P Require Import Prelude WordMem.

Inductive outcome (A : Type) := Done (a : A) | Exited.
#[global] Arguments Done {A} a.
#[global] Arguments Exited {A}.

Definition X (A : Type) : Type := M (outcome A).

Definition xret {A} (a : A) : X A := mret (M := M) (Done a).
Definition exit_process {A} : X A := mret (M := M) Exited.
Definition xbind {A B} (c : X A) (f : A → X B) : X B :=
  mbind (M := M) (λ o, match o with Done a => f a | Exited => exit_process end) c.
(** A program that does not end the process. *)
Definition call {A} (c : M A) : X A := mbind (M := M) xret c.

Notation "x <~ c ; f" := (xbind c (λ x, f)) (at level 20, c at level 100, f at level 200, right associativity).
Notation "c ;~ f" := (xbind c (λ _, f)) (at level 100, f at level 200, right associativity).

(** [malloc] and [calloc], or the end of the process. *)
Definition xmalloc `{Malloc} (stride : Z) (n : nat) : X Z :=
  p <~ call (malloc stride n); if p =? 0 then exit_process else xret p.
Definition xcalloc `{Malloc} (stride : Z) (n : nat) : X Z :=
  p <~ call (calloc stride n); if p =? 0 then exit_process else xret p.

(** ** Weakest preconditions *)

Section xwp.
Context `{HM : Malloc}.

(** The process ends only where some allocation fails; what its memory holds
    then is of no interest. *)
Definition xwp {A} (c : X A) (Φ : A → hprop) : hprop :=
  wp c (λ o, match o with Done a => Φ a | Exited => ⌜¬ memory_left⌝ ∗ True end)%I.

Lemma xwp_ret {A} (a : A) (Φ : A → hprop) : Φ a -∗ xwp (xret a) Φ.
Proof. iIntros "H". by iApply wp_ret. Qed.

Lemma xwp_exit {A} (Φ : A → hprop) : ⌜¬ memory_left⌝ ∗ True ⊢ xwp exit_process Φ.
Proof. iIntros "H". by iApply wp_ret. Qed.

Lemma xwp_bind {A B} (c : X A) (f : A → X B) (Φ : B → hprop) :
  xwp c (λ a, xwp (f a) Φ) -∗ xwp (xbind c f) Φ.
Proof.
  iIntros "H". iApply wp_bind. iApply (wp_wand with "H"). iIntros ([a|]) "H"; [done|by iApply wp_ret].
Qed.

Lemma xwp_call {A} (c : M A) (Φ : A → hprop) : wp c Φ -∗ xwp (call c) Φ.
Proof. iIntros "H". iApply wp_bind. iApply (wp_wand with "H"). iIntros (a) "H". by iApply wp_ret. Qed.

Lemma xwp_wand {A} (c : X A) (Φ Ψ : A → hprop) : xwp c Φ -∗ (∀ a, Φ a -∗ Ψ a) -∗ xwp c Ψ.
Proof. iIntros "H HΨ". iApply (wp_wand with "H"). iIntros ([a|]) "H"; [by iApply "HΨ"|done]. Qed.

Lemma xwp_ld (p off v : Z) (Φ : Z → hprop) :
  p ≠ 0 → fld p off v -∗ (fld p off v -∗ Φ v) -∗ xwp (call (ld p off)) Φ.
Proof. iIntros (Hp) "Hv HΦ". iApply xwp_call. by iApply (wp_ld with "Hv"). Qed.

Lemma xwp_st (p off v w : Z) (Φ : unit → hprop) :
  p ≠ 0 → fld p off v -∗ (fld p off w -∗ Φ tt) -∗ xwp (call (st p off w)) Φ.
Proof. iIntros (Hp) "Hv HΦ". iApply xwp_call. by iApply (wp_st with "Hv"). Qed.

Lemma xwp_xmalloc (stride : Z) (n : nat) (Φ : Z → hprop) :
  0 < stride →
  (∀ p vs, ⌜0 < p ∧ length vs = n⌝ -∗ token p n -∗ array p stride vs -∗ Φ p) -∗ xwp (xmalloc stride n) Φ.
Proof.
  iIntros (Hs) "HΦ". iApply xwp_bind. iApply xwp_call. iApply wp_malloc; [done|]. iSplit.
  - iIntros (Hn). iApply xwp_exit. by iSplit.
  - iIntros (p vs Hp) "Ht Ha". rw (proj2 (Z.eqb_neq p 0)); [|lia]. iApply xwp_ret. by iApply ("HΦ" with "[] Ht Ha").
Qed.

Lemma xwp_xcalloc (stride : Z) (n : nat) (Φ : Z → hprop) :
  0 < stride →
  (∀ p, ⌜0 < p⌝ -∗ token p n -∗ array p stride (replicate n 0) -∗ Φ p) -∗ xwp (xcalloc stride n) Φ.
Proof.
  iIntros (Hs) "HΦ". iApply xwp_bind. iApply xwp_call. iApply wp_calloc; [done|]. iSplit.
  - iIntros (Hn). iApply xwp_exit. by iSplit.
  - iIntros (p Hp) "Ht Ha". rw (proj2 (Z.eqb_neq p 0)); [|lia]. iApply xwp_ret. by iApply ("HΦ" with "[//] Ht Ha").
Qed.

Lemma wp_malloc_left (stride : Z) (n : nat) (Φ : Z → hprop) :
  memory_left → 0 < stride →
  (∀ p vs, ⌜0 < p ∧ length vs = n⌝ -∗ token p n -∗ array p stride vs -∗ Φ p) -∗ wp (malloc stride n) Φ.
Proof.
  iIntros (Hleft Hs) "HΦ". iApply wp_malloc; [done|]. iSplit; [by iIntros (Hn)|].
  iIntros (p vs Hp) "Ht Ha". by iApply ("HΦ" with "[] Ht Ha").
Qed.

(** After [exit] there is no memory to speak of; it has a reason. *)
Definition fp_exit : footprint := λ _, ¬ memory_left.

#[export] Instance covers_exit : Covers (⌜¬ memory_left⌝ ∗ True) fp_exit.
Proof.
  split. intros h. split.
  - intros (h1 & h2 & -> & _ & [-> Hl]%at_pure & _)%at_sep_inv. rw (left_id_L ∅ (∪)).
    exists (map_to_list h2). rw -(right_id_L ∅ (∪) h2).
    apply at_sep; [apply map_disjoint_empty_r| |by apply at_pure]. apply at_cells.
    rw right_id_L list_to_map_to_list. split; [apply NoDup_fst_map_to_list|done].
  - intros (cs & h1 & h2 & -> & _ & _ & [-> Hl]%at_pure).
    rw -(left_id_L ∅ (∪) (h1 ∪ ∅)). by apply at_sep; [apply map_disjoint_empty_l|apply at_pure|].
Qed.

(** The post-footprint of a program that may end. *)
Definition or_exited {A} (Q : A → footprint) (o : outcome A) : footprint :=
  match o with Done a => Q a | Exited => fp_exit end.

End xwp.

#[global] Typeclasses Opaque xwp.
