(* ===== verification/FdIo.v ===== *)
(** * Transfers on file descriptors (utils/utils.c)

    [readn_block], [writen_block], [readn_nonblock] and [writen_nonblock] over a
    descriptor whose [read] and [write] may move fewer bytes than asked for, or
    fail with an [errno].  The texts for reading and writing differ in the
    system call only, so that each loop is here once with the call as an
    argument.  Loops have fuel; a pointer is an offset into the memory. *)

From S2P Require Import Prelude.

(** ** The system *)

Definition EINTR : Z := 4.
Definition EAGAIN : Z := 11.
Definition EWOULDBLOCK : Z := 11.

(** What comes in: bytes, or an error of one call; the end of the file is the
    end of the list or an empty segment.  What goes out: how many bytes the next
    call takes, or an error; after the list, all of them. *)
Record io := Io {
  incoming : list (list Z + Z);
  outgoing : list (nat + Z);
  sent : list Z;
  errno : Z;
  messages : list string;
  memory : list Z;
}.

Definition set_incoming (l : list (list Z + Z)) (s : io) : io :=
  Io l (outgoing s) (sent s) (errno s) (messages s) (memory s).
Definition set_outgoing (l : list (nat + Z)) (s : io) : io :=
  Io (incoming s) l (sent s) (errno s) (messages s) (memory s).
Definition send (bs : list Z) (s : io) : io :=
  Io (incoming s) (outgoing s) (sent s ++ bs) (errno s) (messages s) (memory s).
Definition set_errno (e : Z) (s : io) : io :=
  Io (incoming s) (outgoing s) (sent s) e (messages s) (memory s).
Definition message (m : string) (s : io) : io :=
  Io (incoming s) (outgoing s) (sent s) (errno s) (messages s ++ [m]) (memory s).
Definition set_memory (m : list Z) (s : io) : io :=
  Io (incoming s) (outgoing s) (sent s) (errno s) (messages s) m.

Definition put (ptr : nat) (bs m : list Z) : list Z := take ptr m ++ bs ++ drop (ptr + length bs) m.
Definition get (ptr n : nat) (m : list Z) : list Z := take n (drop ptr m).

(** [read] and [write] of [n > 0] bytes; [errno] is set by a failure only. *)
Definition sys_read (ptr n : Z) (s : io) : Z * io :=
  match incoming s with
  | [] | inl [] :: _ => (0, s)
  | inr e :: l => (-1, set_errno e (set_incoming l s))
  | inl bs :: l =>
    let k := Nat.min (length bs) (Z.to_nat n) in
    let l := match drop k bs with [] => l | bs => inl bs :: l end in
    (Z.of_nat k, set_memory (put (Z.to_nat ptr) (take k bs) (memory s)) (set_incoming l s))
  end.

Definition sys_write (ptr n : Z) (s : io) : Z * io :=
  match outgoing s with
  | [] => (n, send (get (Z.to_nat ptr) (Z.to_nat n) (memory s)) s)
  | inr e :: l => (-1, set_errno e (set_outgoing l s))
  | inl k :: l =>
    let k := Nat.min k (Z.to_nat n) in
    (Z.of_nat k, send (get (Z.to_nat ptr) k (memory s)) (set_outgoing l s))
  end.

(** ** The code *)

(** The bytes left, when the loop ends. *)
Fixpoint block_loop (fuel : nat) (sys : Z → Z → io → Z * io) (name : string) (nleft ptr : Z) (s : io) : option (Z * io) :=
  match fuel with
  | O => None
  | S fuel =>
    if 0 <? nleft then
      let '(n, s) := sys ptr nleft s in
      if n <=? 0 then Some (nleft, if n <? 0 then message name s else s)
      else block_loop fuel sys name (nleft - n) (ptr + n) s
    else Some (nleft, s)
  end.

Definition again (e : Z) : bool := (e =? EINTR) || (e =? EWOULDBLOCK) || (e =? EAGAIN).

Fixpoint nonblock_loop (fuel : nat) (sys : Z → Z → io → Z * io) (name : string) (nleft ptr : Z) (s : io) : option (Z * io) :=
  match fuel with
  | O => None
  | S fuel =>
    if 0 <? nleft then
      let '(n, s) := sys ptr nleft s in
      if n <=? 0 then
        if again (errno s) then nonblock_loop fuel sys name nleft ptr s
        else Some (nleft, message (if n <? 0 then name else "the peer socket is closed") s)
      else nonblock_loop fuel sys name (nleft - n) (ptr + n) s
    else Some (nleft, s)
  end.

Definition readn_block (fuel : nat) (vptr n : Z) (s : io) : option (Z * io) :=
  '(nleft, s) ← block_loop fuel sys_read "read" n vptr s; Some (n - nleft, s).
Definition writen_block (fuel : nat) (vptr n : Z) (s : io) : option (Z * io) :=
  '(nleft, s) ← block_loop fuel sys_write "write" n vptr s; Some (n - nleft, s).
Definition readn_nonblock (fuel : nat) (vptr n : Z) (s : io) : option (Z * io) :=
  '(nleft, s) ← nonblock_loop fuel sys_read "read" n vptr s; Some (n - nleft, s).
Definition writen_nonblock (fuel : nat) (vptr n : Z) (s : io) : option (Z * io) :=
  '(nleft, s) ← nonblock_loop fuel sys_write "write" n vptr s; Some (n - nleft, s).

(** ** What there is to read *)

(** How a stream ends: with an error that is not retried, or at the end of the
    file, and then [errno] is what the last failure left. *)
Inductive ending := Failed (e : Z) | End (e : Z).

(** The bytes up to the end of the stream, where failures with an [errno] in
    [retry] are passed over. *)
Fixpoint stream (retry : Z → bool) (e : Z) (l : list (list Z + Z)) : list Z * ending :=
  match l with
  | [] | inl [] :: _ => ([], End e)
  | inr e :: l => if retry e then stream retry e l else ([], Failed e)
  | inl bs :: l => let '(bs', st) := stream retry e l in (bs ++ bs', st)
  end.

(** What is left to read, the memory and the messages when the loop ends; [None]
    when it does not end.  [ended e] are the messages at the end of the file. *)
Definition read_outcome (ended : Z → option (list string)) (n ptr : Z) (bs : list Z) (st : ending)
    (mem : list Z) (ms : list string) : option (Z * list Z * list string) :=
  let k := Z.min n (Z.of_nat (length bs)) in
  let mem := put (Z.to_nat ptr) (take (Z.to_nat k) bs) mem in
  if n <=? Z.of_nat (length bs) then Some (n - k, mem, ms)
  else match st with
    | Failed _ => Some (n - k, mem, ms ++ ["read"])
    | End e => m ← ended e; Some (n - k, mem, ms ++ m)
    end.

Definition observe (r : Z * io) : Z * list Z * list string := (r.1, memory r.2, messages r.2).

(** ** Proofs *)

Lemma put_nil (p : nat) (m : list Z) : put p [] m = m.
Proof. unfold put. rewrite Nat.add_0_r. apply take_drop. Qed.

Lemma put_put (p : nat) (bs cs m : list Z) :
  (p + length bs ≤ length m)%nat → put (p + length bs) cs (put p bs m) = put p (bs ++ cs) m.
Proof.
  intros Hl. unfold put. assert (length (take p m) = p) as Hp by (rewrite length_take; lia).
  rewrite (app_assoc (take p m)), take_app_length' by (rewrite length_app; lia).
  rewrite <- !app_assoc. do 3 f_equal. rewrite length_app.
  rewrite (app_assoc (take p m)), drop_app_ge by (rewrite length_app; lia).
  rewrite length_app, Hp, drop_drop. f_equal. lia.
Qed.

Lemma length_put (p : nat) (bs m : list Z) : (p + length bs ≤ length m)%nat → length (put p bs m) = length m.
Proof. intros Hl. unfold put. rewrite !length_app, length_take, length_drop. lia. Qed.

Lemma read_outcome_0 (ended : Z → option (list string)) (ptr : Z) (bs : list Z) (st : ending) (mem : list Z) (ms : list string) :
  read_outcome ended 0 ptr bs st mem ms = Some (0, mem, ms).
Proof.
  unfold read_outcome. rewrite (proj2 (Z.leb_le _ _)) by lia. rewrite Z.min_l by lia. simpl. by rewrite put_nil.
Qed.

(** A chunk goes to its place, the rest after it. *)
Lemma read_outcome_chunk (ended : Z → option (list string)) (n r ptr : Z) (bs : list Z) (st : ending)
    (mem : list Z) (ms : list string) :
  0 ≤ ptr → 0 ≤ r ≤ n → r ≤ Z.of_nat (length bs) → ptr + n ≤ Z.of_nat (length mem) →
  read_outcome ended (n - r) (ptr + r) (drop (Z.to_nat r) bs) st
    (put (Z.to_nat ptr) (take (Z.to_nat r) bs) mem) ms = read_outcome ended n ptr bs st mem ms.
Proof.
  intros Hp Hr Hb Hm. unfold read_outcome. rewrite length_drop.
  replace (Z.of_nat (length bs - Z.to_nat r)) with (Z.of_nat (length bs) - r) by lia.
  replace (Z.min (n - r) (Z.of_nat (length bs) - r)) with (Z.min n (Z.of_nat (length bs)) - r) by lia.
  set (k := Z.min n (Z.of_nat (length bs))).
  assert (put (Z.to_nat (ptr + r)) (take (Z.to_nat (k - r)) (drop (Z.to_nat r) bs))
      (put (Z.to_nat ptr) (take (Z.to_nat r) bs) mem) = put (Z.to_nat ptr) (take (Z.to_nat k) bs) mem) as ->.
  { assert (length (take (Z.to_nat r) bs) = Z.to_nat r) as El by (rewrite length_take; lia).
    replace (Z.to_nat (ptr + r)) with (Z.to_nat ptr + length (take (Z.to_nat r) bs))%nat by lia.
    rewrite put_put by lia. f_equal. replace (Z.to_nat k) with (Z.to_nat r + Z.to_nat (k - r))%nat by lia.
    by rewrite take_take_drop. }
  replace (n - r - (k - r)) with (n - k) by lia.
  assert ((n - r <=? Z.of_nat (length bs) - r) = (n <=? Z.of_nat (length bs))) as ->; [|done].
  apply eq_true_iff_eq. rewrite !Z.leb_le. lia.
Qed.

(** One call of [read]. *)
Inductive read_result (retry : Z → bool) (ptr n : Z) (s : io) (bs : list Z) (st : ending) : Z → io → Prop :=
  | read_end : bs = [] → st = End (errno s) → read_result retry ptr n s bs st 0 s
  | read_failure s' :
      memory s' = memory s → messages s' = messages s →
      (length (incoming s') < length (incoming s))%nat →
      (if retry (errno s') then stream retry (errno s') (incoming s') = (bs, st) else bs = [] ∧ st = Failed (errno s')) →
      read_result retry ptr n s bs st (-1) s'
  | read_chunk r s' :
      0 < r ≤ n → r ≤ Z.of_nat (length bs) →
      memory s' = put (Z.to_nat ptr) (take (Z.to_nat r) bs) (memory s) → messages s' = messages s →
      errno s' = errno s → stream retry (errno s') (incoming s') = (drop (Z.to_nat r) bs, st) →
      ((length (incoming s') < length (incoming s))%nat ∨ r = n ∧ (length (incoming s') ≤ length (incoming s))%nat) →
      read_result retry ptr n s bs st r s'.

Lemma sys_read_result (retry : Z → bool) (ptr n : Z) (s : io) (bs : list Z) (st : ending) :
  0 < n → stream retry (errno s) (incoming s) = (bs, st) →
  read_result retry ptr n s bs st (sys_read ptr n s).1 (sys_read ptr n s).2.
Proof.
  intros Hn Hs. unfold sys_read. destruct (incoming s) as [|[[|b seg]|e] l] eqn:El; simpl in Hs.
  - injection Hs as <- <-. by apply read_end.
  - injection Hs as <- <-. by apply read_end.
  - destruct (stream retry (errno s) l) as [bs' st'] eqn:Hs'. injection Hs as <- <-.
    change (b :: seg ++ bs') with ((b :: seg) ++ bs'). assert (0 < length (b :: seg))%nat as Hb by (simpl; lia).
    remember (b :: seg) as bb eqn:Ebb. set (k := Nat.min (length bb) (Z.to_nat n)).
    apply read_chunk; simpl; try done.
    + lia.
    + rewrite length_app. lia.
    + rewrite Nat2Z.id, take_app_le by lia. done.
    + rewrite Nat2Z.id, drop_app_le by lia. destruct (drop k bb); simpl; by rewrite Hs'.
    + destruct (drop k bb) eqn:Ed; simpl; [left; rewrite El; simpl; lia|right]. rewrite El. simpl.
      assert (length (drop k bb) ≠ 0%nat) as Hd by (by rewrite Ed). rewrite length_drop in Hd. lia.
  - apply read_failure; simpl; try done; [rewrite El; simpl; lia|].
    destruct (retry e); [done|]. by injection Hs as <- <-.
Qed.

Definition closed (e : Z) : option (list string) := if again e then None else Some ["the peer socket is closed"].

Lemma nonblock_reads (fuel : nat) (n ptr : Z) (s : io) (bs : list Z) (st : ending) :
  0 ≤ n → 0 ≤ ptr → ptr + n ≤ Z.of_nat (length (memory s)) → (length (incoming s) + 1 < fuel)%nat ∨ n = 0 ∧ (0 < fuel)%nat →
  stream again (errno s) (incoming s) = (bs, st) →
  observe <$> nonblock_loop fuel sys_read "read" n ptr s = read_outcome closed n ptr bs st (memory s) (messages s).
Proof.
  revert n ptr s bs. induction fuel as [|fuel IH]; intros n ptr s bs Hn Hp Hm Hf Hs; [lia|]. cbn [nonblock_loop].
  destruct (Z.ltb_spec 0 n) as [Hn'|Hn'].
  2: { replace n with 0 by lia. by rewrite read_outcome_0. }
  pose proof (sys_read_result again ptr n s bs st Hn' Hs) as H. destruct (sys_read ptr n s) as [r s'] eqn:Hread.
  simpl in H. destruct H as [-> ->|s' E1 E2 Hl Hr|r s' Hr Hb E1 E2 E3 Hs' Hl].
  - simpl. unfold read_outcome, closed. rewrite (proj2 (Z.leb_gt _ _)) by (simpl; lia). simpl length.
    destruct (again (errno s)) eqn:Ea; [|simpl; rewrite Z.min_r by lia; simpl; by rewrite put_nil, Z.sub_0_r].
    assert (∀ fuel, nonblock_loop fuel sys_read "read" n ptr s = None) as ->; [|done].
    induction fuel0 as [|fuel0 IH0]; [done|]. cbn [nonblock_loop]. rewrite (proj2 (Z.ltb_lt _ _) Hn'), Hread. simpl. by rewrite Ea.
  - simpl. destruct (again (errno s')) eqn:Ea.
    + rewrite (IH n ptr s' bs); [by rewrite E1, E2|done|done|by rewrite E1|lia|done].
    + destruct Hr as [-> ->]. unfold read_outcome, observe. rewrite (proj2 (Z.leb_gt _ _)) by (simpl; lia).
      simpl. rewrite Z.min_r by lia. simpl. by rewrite put_nil, E1, E2, Z.sub_0_r.
  - rewrite (proj2 (Z.leb_gt _ _)) by lia.
    rewrite (IH (n - r) (ptr + r) s' (drop (Z.to_nat r) bs)); [|lia|lia| |lia|done].
    + rewrite E1, E2. apply read_outcome_chunk; lia.
    + rewrite E1, length_put; [lia|]. rewrite length_take. lia.
Qed.

Lemma block_reads (fuel : nat) (n ptr : Z) (s : io) (bs : list Z) (st : ending) :
  0 ≤ n → 0 ≤ ptr → ptr + n ≤ Z.of_nat (length (memory s)) → (length (incoming s) + 1 < fuel)%nat ∨ n = 0 ∧ (0 < fuel)%nat →
  stream (λ _, false) (errno s) (incoming s) = (bs, st) →
  observe <$> block_loop fuel sys_read "read" n ptr s =
    read_outcome (λ _, Some []) n ptr bs st (memory s) (messages s).
Proof.
  revert n ptr s bs. induction fuel as [|fuel IH]; intros n ptr s bs Hn Hp Hm Hf Hs; [lia|]. cbn [block_loop].
  destruct (Z.ltb_spec 0 n) as [Hn'|Hn'].
  2: { replace n with 0 by lia. by rewrite read_outcome_0. }
  pose proof (sys_read_result (λ _, false) ptr n s bs st Hn' Hs) as H. destruct (sys_read ptr n s) as [r s'].
  simpl in H. destruct H as [-> ->|s' E1 E2 Hl [-> ->]|r s' Hr Hb E1 E2 E3 Hs' Hl].
  - simpl. unfold read_outcome, observe. rewrite (proj2 (Z.leb_gt _ _)) by (simpl; lia).
    simpl. by rewrite Z.min_r, put_nil, Z.sub_0_r, app_nil_r by lia.
  - simpl. unfold read_outcome, observe. rewrite (proj2 (Z.leb_gt _ _)) by (simpl; lia).
    simpl. rewrite Z.min_r by lia. simpl. by rewrite put_nil, E1, E2, Z.sub_0_r.
  - rewrite (proj2 (Z.leb_gt _ _)) by lia.
    rewrite (IH (n - r) (ptr + r) s' (drop (Z.to_nat r) bs)); [|lia|lia| |lia|done].
    + rewrite E1, E2. apply read_outcome_chunk; lia.
    + rewrite E1, length_put; [lia|]. rewrite length_take. lia.
Qed.

(** The count, the memory and the messages of a call that reads [n] bytes of the stream. *)
Definition reading (ended : Z → option (list string)) (vptr n : Z) (s : io) (stm : list Z * ending) :
    option (Z * list Z * list string) :=
  let '(bs, st) := stm in
  let k := Z.min n (Z.of_nat (length bs)) in
  let mem := put (Z.to_nat vptr) (take (Z.to_nat k) bs) (memory s) in
  if n <=? Z.of_nat (length bs) then Some (k, mem, messages s)
  else match st with
    | Failed _ => Some (k, mem, messages s ++ ["read"])
    | End e => m ← ended e; Some (k, mem, messages s ++ m)
    end.

Lemma reading_outcome (ended : Z → option (list string)) (vptr n : Z) (s : io) (bs : list Z) (st : ending) (r : option (Z * io)) :
  observe <$> r = read_outcome ended n vptr bs st (memory s) (messages s) →
  observe <$> ('(nleft, s) ← r; Some (n - nleft, s)) = reading ended vptr n s (bs, st).
Proof.
  intros H. transitivity ((λ x, (n - x.1.1, x.1.2, x.2)) <$> (observe <$> r)); [by destruct r as [[]|]|].
  rewrite H. unfold read_outcome, reading. destruct (n <=? _); [simpl; do 3 f_equal; lia|].
  destruct st as [e|e]; [|destruct (ended e); [|done]]; simpl; do 3 f_equal; lia.
Qed.

Lemma nonblock_mono (fuel fuel' : nat) (sys : Z → Z → io → Z * io) (name : string) (n ptr : Z) (s : io) (r : Z * io) :
  (fuel ≤ fuel')%nat → nonblock_loop fuel sys name n ptr s = Some r → nonblock_loop fuel' sys name n ptr s = Some r.
Proof.
  revert fuel' n ptr s. induction fuel as [|fuel IH]; intros fuel' n ptr s Hf Hr; [done|].
  destruct fuel' as [|fuel']; [lia|]. cbn [nonblock_loop] in *. destruct (0 <? n); [|done].
  destruct (sys ptr n s) as [k s']. destruct (k <=? 0); [destruct (again (errno s')); [|done]|];
    (apply IH; [lia|done]).
Qed.

(** ** Writing *)

(** A call that does not fail for good. *)
Definition positive (o : nat + Z) : Prop := match o with inl k => (0 < k)%nat | inr _ => False end.
Definition patient (o : nat + Z) : Prop := match o with inl k => (0 < k)%nat | inr e => again e = true end.

Lemma get_get (p i j : nat) (m : list Z) : get p i m ++ get (p + i) j m = get p (i + j) m.
Proof. unfold get. by rewrite <- drop_drop, take_take_drop. Qed.

Definition delivered (vptr r : Z) (s s' : io) : Prop :=
  sent s' = sent s ++ get (Z.to_nat vptr) (Z.to_nat r) (memory s) ∧ memory s' = memory s.

Lemma delivered_0 (vptr : Z) (s s' : io) : sent s' = sent s → memory s' = memory s → delivered vptr 0 s s'.
Proof. intros H1 H2. split; [|done]. rewrite H1. unfold get. by rewrite app_nil_r. Qed.

Lemma delivered_trans (vptr r k : Z) (s s1 s2 : io) :
  0 ≤ vptr → 0 ≤ r → 0 ≤ k → delivered vptr r s s1 → delivered (vptr + r) k s1 s2 → delivered vptr (r + k) s s2.
Proof.
  intros Hp Hr Hk [H1 H2] [H3 H4]. split; [|congruence]. rewrite H3, H1, H2, <- app_assoc. f_equal.
  replace (Z.to_nat (vptr + r)) with (Z.to_nat vptr + Z.to_nat r)%nat by lia.
  rewrite get_get. f_equal. lia.
Qed.

(** One call of [write]: the script gets shorter, or everything is taken. *)
Lemma sys_write_result (ptr n : Z) (s : io) :
  0 < n →
  let '(r, s') := sys_write ptr n s in
  -1 ≤ r ≤ n ∧ delivered ptr (Z.max 0 r) s s' ∧
  (outgoing s = [] ∧ r = n ∨ ∃ o, outgoing s = o :: outgoing s' ∧
     (positive o → 0 < r) ∧ (patient o → 0 < r ∨ again (errno s') = true)).
Proof.
  intros Hn. unfold sys_write. destruct (outgoing s) as [|[k|e] l] eqn:E.
  - split_and!; [lia|lia| |by left]. rewrite Z.max_r by lia. by split.
  - split_and!; [lia|lia| |right; exists (inl k); simpl; split_and!; [done|lia|lia]].
    rewrite Z.max_r by lia. split; [simpl; by rewrite Nat2Z.id|done].
  - split_and!; [lia|lia| |right; exists (inr e); simpl; split_and!; [done|done|auto]].
    by apply delivered_0.
Qed.

Lemma nonblock_writes (fuel : nat) (n ptr : Z) (s : io) :
  0 ≤ n → 0 ≤ ptr → (length (outgoing s) + 1 < fuel)%nat ∨ n = 0 ∧ (0 < fuel)%nat →
  ∃ nleft s', nonblock_loop fuel sys_write "write" n ptr s = Some (nleft, s') ∧ 0 ≤ nleft ≤ n ∧
    delivered ptr (n - nleft) s s' ∧ (Forall patient (outgoing s) → nleft = 0).
Proof.
  revert n ptr s. induction fuel as [|fuel IH]; intros n ptr s Hn Hp Hf; [lia|]. cbn [nonblock_loop].
  destruct (Z.ltb_spec 0 n) as [Hn'|Hn'].
  2: { exists n, s. replace n with 0 by lia. split_and!; [done|lia|lia|by apply delivered_0|done]. }
  pose proof (sys_write_result ptr n s Hn') as H. destruct (sys_write ptr n s) as [r s1].
  destruct H as (Hr & Hd & Ho). destruct (Z.leb_spec r 0) as [Hr0|Hr0].
  - rewrite Z.max_l in Hd by lia. destruct Ho as [[_ ?]|(o & Eo & _ & Hpat)]; [lia|].
    destruct (again (errno s1)) eqn:Ea.
    + destruct (IH n ptr s1) as (nl & s2 & Hl & Hnl & Hd2 & Hall); [done|done|rewrite Eo in Hf; simpl in Hf; lia|].
      exists nl, s2. split_and!; [done|lia|lia| |].
      * replace (n - nl) with (0 + (n - nl)) by lia. eapply delivered_trans; [done|lia|lia|done|by rewrite Z.add_0_r].
      * rewrite Eo. intros [_ Hfa]%Forall_cons. auto.
    + eexists n, _. split; [done|]. split_and!; [lia|lia| |].
      * rewrite Z.sub_diag. exact Hd.
      * rewrite Eo. intros [[?|?]%Hpat _]%Forall_cons; [lia|congruence].
  - rewrite Z.max_r in Hd by lia.
    destruct (IH (n - r) (ptr + r) s1) as (nl & s2 & Hl & Hnl & Hd2 & Hall); [lia|lia| |].
    { destruct Ho as [[? ->]|(o & Eo & _)]; [lia|]. rewrite Eo in Hf. simpl in Hf. lia. }
    exists nl, s2. split_and!; [done|lia|lia| |].
    + replace (n - nl) with (r + (n - r - nl)) by lia. eapply delivered_trans; [done|lia|lia|done|done].
    + intros Hfa. destruct Ho as [[Eo ->]|(o & Eo & _)]; [lia|]. rewrite Eo in Hfa. apply Forall_cons in Hfa as [_ Hfa]. auto.
Qed.

Lemma block_writes (fuel : nat) (n ptr : Z) (s : io) :
  0 ≤ n → 0 ≤ ptr → (length (outgoing s) + 1 < fuel)%nat ∨ n = 0 ∧ (0 < fuel)%nat →
  ∃ nleft s', block_loop fuel sys_write "write" n ptr s = Some (nleft, s') ∧ 0 ≤ nleft ≤ n ∧
    delivered ptr (n - nleft) s s' ∧ (Forall positive (outgoing s) → nleft = 0).
Proof.
  revert n ptr s. induction fuel as [|fuel IH]; intros n ptr s Hn Hp Hf; [lia|]. cbn [block_loop].
  destruct (Z.ltb_spec 0 n) as [Hn'|Hn'].
  2: { exists n, s. replace n with 0 by lia. split_and!; [done|lia|lia|by apply delivered_0|done]. }
  pose proof (sys_write_result ptr n s Hn') as H. destruct (sys_write ptr n s) as [r s1].
  destruct H as (Hr & Hd & Ho). destruct (Z.leb_spec r 0) as [Hr0|Hr0].
  - rewrite Z.max_l in Hd by lia. destruct Ho as [[_ ?]|(o & Eo & Hpos & _)]; [lia|].
    eexists n, _. split; [done|]. split_and!; [lia|lia| |].
    + rewrite Z.sub_diag. by destruct (r <? 0).
    + rewrite Eo. intros [?%Hpos _]%Forall_cons. lia.
  - rewrite Z.max_r in Hd by lia.
    destruct (IH (n - r) (ptr + r) s1) as (nl & s2 & Hl & Hnl & Hd2 & Hall); [lia|lia| |].
    { destruct Ho as [[? ->]|(o & Eo & _)]; [lia|]. rewrite Eo in Hf. simpl in Hf. lia. }
    exists nl, s2. split_and!; [done|lia|lia| |].
    + replace (n - nl) with (r + (n - r - nl)) by lia. eapply delivered_trans; [done|lia|lia|done|done].
    + intros Hfa. destruct Ho as [[Eo ->]|(o & Eo & _)]; [lia|]. rewrite Eo in Hfa. apply Forall_cons in Hfa as [_ Hfa]. auto.
Qed.

(** ** The functions *)

(** C25: [readn_block] and [readn_nonblock] put the next [n] bytes of the stream at
    [vptr] and return [n], or, when the stream ends before, all that there is and
    their number, whatever the segments the bytes come in; the second passes over
    the errors EINTR, EAGAIN and EWOULDBLOCK. *)
Theorem readn_correct (fuel : nat) (vptr n : Z) (s : io) :
  0 ≤ n → 0 ≤ vptr → vptr + n ≤ Z.of_nat (length (memory s)) → (length (incoming s) + 1 < fuel)%nat →
  observe <$> readn_block fuel vptr n s =
    reading (λ _, Some []) vptr n s (stream (λ _, false) (errno s) (incoming s)) ∧
  observe <$> readn_nonblock fuel vptr n s = reading closed vptr n s (stream again (errno s) (incoming s)).
Proof.
  intros Hn Hp Hm Hf. split.
  - destruct (stream (λ _, false) _ _) as [bs st] eqn:E. apply reading_outcome. by apply block_reads; auto.
  - destruct (stream again _ _) as [bs st] eqn:E. apply reading_outcome. by apply nonblock_reads; auto.
Qed.

(** C26: [readn_nonblock] returns when the bytes are there, when there is an error
    that it does not pass over, and at the end of the file only if [errno] is not
    by chance one of the errors that it passes over: [read] returning 0 leaves
    [errno] as the last failure left it, and the loop tests it. *)
Theorem readn_nonblock_returns (vptr n : Z) (s : io) :
  0 ≤ n → 0 ≤ vptr → vptr + n ≤ Z.of_nat (length (memory s)) →
  (∃ fuel r, readn_nonblock fuel vptr n s = Some r) ↔
  let '(bs, st) := stream again (errno s) (incoming s) in
  n ≤ Z.of_nat (length bs) ∨ match st with Failed _ => True | End e => again e = false end.
Proof.
  intros Hn Hp Hm. destruct (stream again _ _) as [bs st] eqn:E. set (big := (length (incoming s) + 2)%nat).
  assert (∀ fuel, (big ≤ fuel)%nat → observe <$> nonblock_loop fuel sys_read "read" n vptr s =
    read_outcome closed n vptr bs st (memory s) (messages s)) as Hbig.
  { intros fuel Hf. apply nonblock_reads; try done. left. unfold big in Hf. lia. }
  assert ((∃ fuel r, readn_nonblock fuel vptr n s = Some r) ↔
    is_Some (read_outcome closed n vptr bs st (memory s) (messages s))) as ->.
  { rewrite <- (Hbig big) by done. rewrite fmap_is_Some. split.
    - intros (fuel & r & Hr). unfold readn_nonblock in Hr.
      destruct (nonblock_loop fuel sys_read "read" n vptr s) as [x|] eqn:Hx; [|done].
      apply (nonblock_mono fuel (big + fuel)) in Hx; [|lia].
      pose proof (Hbig (big + fuel)%nat ltac:(lia)) as H1. rewrite Hx, <- (Hbig big) in H1 by done.
      by destruct (nonblock_loop big sys_read "read" n vptr s).
    - intros [[nl s'] Hx]. exists big, (n - nl, s'). unfold readn_nonblock. by rewrite Hx. }
  unfold read_outcome, closed. destruct (Z.leb_spec n (Z.of_nat (length bs))) as [Hle|Hlt]; [by split; auto|].
  destruct st as [e|e]; [by split; auto|]. destruct (again e); simpl.
  - split; [by intros [? ?]|]. intros [?|?]; [lia|done].
  - by split; auto.
Qed.

(** C27: [writen_block] and [writen_nonblock] return, and the descriptor has got
    exactly the first bytes of the buffer, as many as they say; all [n] when no
    call fails (for the second: fails for good) or takes nothing. *)
Theorem writen_correct (fuel : nat) (vptr n : Z) (s : io) :
  0 ≤ n → 0 ≤ vptr → vptr + n ≤ Z.of_nat (length (memory s)) → (length (outgoing s) + 1 < fuel)%nat →
  (∃ r s', writen_block fuel vptr n s = Some (r, s') ∧ 0 ≤ r ≤ n ∧ delivered vptr r s s' ∧
     (Forall positive (outgoing s) → r = n)) ∧
  (∃ r s', writen_nonblock fuel vptr n s = Some (r, s') ∧ 0 ≤ r ≤ n ∧ delivered vptr r s s' ∧
     (Forall patient (outgoing s) → r = n)).
Proof.
  intros Hn Hp _ Hf. unfold writen_block, writen_nonblock. split.
  - destruct (block_writes fuel n vptr s) as (nl & s' & -> & Hnl & Hd & Hall); [done|done|auto|].
    exists (n - nl), s'. split_and!; [done|lia|lia|done|]. intros H%Hall. lia.
  - destruct (nonblock_writes fuel n vptr s) as (nl & s' & -> & Hnl & Hd & Hall); [done|done|auto|].
    exists (n - nl), s'. split_and!; [done|lia|lia|done|]. intros H%Hall. lia.
Qed.

(** ** Witnesses *)

(** Two segments with an interruption between them, then the end of the file. *)
Definition sample : io :=
  Io [inl [1; 2; 3]; inr EAGAIN; inl [4; 5]] [inl 2%nat; inr EINTR] [] 0 [] [0; 0; 0; 0; 0; 0].

Lemma readn_correct_witness :
  observe <$> readn_block 6 1 4 sample = Some (3, [0; 1; 2; 3; 0; 0], ["read"]) ∧
  observe <$> readn_nonblock 6 1 4 sample = Some (4, [0; 1; 2; 3; 4; 0], []).
Proof.
  assert (0 ≤ 4 ∧ 0 ≤ 1 ∧ 1 + 4 ≤ Z.of_nat (length (memory sample)) ∧ (length (incoming sample) + 1 < 6)%nat) as (H1 & H2 & H3 & H4)
    by (vm_compute; repeat split; lia || done).
  exact (readn_correct 6 1 4 sample H1 H2 H3 H4).
Defined.

(** The end of the file after EAGAIN: with one byte more to read, the call does not return. *)
Lemma readn_nonblock_returns_witness :
  (∃ fuel r, readn_nonblock fuel 0 5 sample = Some r) ∧ ¬ (∃ fuel r, readn_nonblock fuel 0 6 sample = Some r).
Proof.
  split.
  - apply (readn_nonblock_returns 0 5 sample); [lia|lia|vm_compute; done|]. left. vm_compute. done.
  - intros H. apply (readn_nonblock_returns 0 6 sample) in H; [|lia|lia|vm_compute; done].
    destruct H as [H|H]; vm_compute in H; done.
Defined.

Lemma writen_correct_witness :
  (∃ r s', writen_block 5 1 4 sample = Some (r, s') ∧ 0 ≤ r ≤ 4 ∧ delivered 1 r sample s' ∧
     (Forall positive (outgoing sample) → r = 4)) ∧
  (∃ r s', writen_nonblock 5 1 4 sample = Some (r, s') ∧ 0 ≤ r ≤ 4 ∧ delivered 1 r sample s' ∧
     (Forall patient (outgoing sample) → r = 4)).
Proof. apply (writen_correct 5 1 4 sample); [lia|lia|vm_compute; done|vm_compute; lia]. Defined.
