(* ===== verification/EventQueue.v ===== *)
(** * The event queue of the directory watcher (inotify/event_queue.c)

    A singly linked list with its last entry at hand.  Over the memory of
    [WordMem] with one cell for a byte; a pointer is in the first of its cells.
    An entry is a pointer and the bytes of an event, which [Inotify] reads and
    writes. *)

From iris.proofmode Require Import proofmode.
From S2P Require Import Prelude WordMem WordExit.

(** ** The code *)

(** [struct queue_struct], [struct queue_entry] *)
Definition head : Z := 0.
Definition tail : Z := 8.
Definition next_ptr : Z := 0.
Definition inot_ev : Z := 8.

Section code.
Context `{HM : Malloc}.

Definition queue_empty (q : Z) : M Z := h ← ld q head; mret (if h =? 0 then 1 else 0).

Definition queue_create : X Z :=
  q <~ xmalloc 8 2; call (st q tail 0) ;~ call (st q head 0) ;~ xret q.

Fixpoint destroy_loop (fuel : nat) (q : Z) : M unit :=
  match fuel with
  | O => undefined
  | S fuel =>
    next ← ld q head;
    if next =? 0 then mret tt
    else x ← ld next next_ptr; st q head x;; st next next_ptr 0;; free 1 next;; destroy_loop fuel q
  end.

Definition queue_destroy (fuel : nat) (q : Z) : M unit :=
  if q =? 0 then mret tt else destroy_loop fuel q;; st q tail 0;; st q head 0;; free 8 q.

Definition queue_enqueue (d q : Z) : M unit :=
  st d next_ptr 0;;
  t ← ld q tail;
  if negb (t =? 0) then t ← ld q tail; st t next_ptr d;; st q tail d
  else st q tail d;; st q head d.

Definition queue_dequeue (q : Z) : M Z :=
  first ← ld q head;
  if negb (first =? 0) then
    x ← ld first next_ptr; st q head x;;
    h ← ld q head; (if h =? 0 then st q tail 0 else mret tt);;
    st first next_ptr 0;; mret first
  else mret first.

End code.

(** ** In memory *)

Section memory.
Context `{HM : Malloc}.

(** The cells from offset [off] on. *)
Definition bytes (p off : Z) (bs : list Z) : hprop := array (p + off) 1 bs.

Lemma bytes_cons (p off b : Z) (bs : list Z) : bytes p off (b :: bs) ⊣⊢ fld p off b ∗ bytes p (off + 1) bs.
Proof. rw /bytes array_cons /fld Z.add_0_r Z.add_assoc //. Qed.

Lemma bytes_app (p off : Z) (bs cs : list Z) :
  bytes p off (bs ++ cs) ⊣⊢ bytes p off bs ∗ bytes p (off + Z.of_nat (length bs)) cs.
Proof. rw /bytes array_app Z.mul_1_l Z.add_assoc //. Qed.

Lemma bytes_take (p off : Z) (n : nat) (bs : list Z) :
  (n ≤ length bs)%nat → bytes p off bs -∗ bytes p off (take n bs) ∗ bytes p (off + Z.of_nat n) (drop n bs).
Proof. iIntros (Hn) "H". rw -{1}(take_drop n bs) bytes_app length_take Nat.min_l //. Qed.

(** An entry of the queue, and a segment of the list. *)
Definition body (d : Z) (ev : list Z) : hprop :=
  ⌜0 < d⌝ ∗ (∃ pad, ⌜length pad = 7%nat⌝ ∗ bytes d 1 pad) ∗
  bytes d inot_ev ev ∗ token d (8 + length ev).
Definition entry (x : Z * list Z) (nxt : Z) : hprop := fld x.1 next_ptr nxt ∗ body x.1 x.2.

Lemma body_pos (d : Z) (ev : list Z) : body d ev -∗ ⌈0 < d⌉.
Proof. by iIntros "[$ _]". Qed.

Fixpoint qseg (h : Z) (es : list (Z * list Z)) (e : Z) : hprop :=
  match es with [] => ⌜h = e⌝ | x :: es => ⌜h = x.1⌝ ∗ ∃ n, entry x n ∗ qseg n es e end.

Lemma qseg_app (h : Z) (xs ys : list (Z * list Z)) (e : Z) :
  qseg h (xs ++ ys) e ⊣⊢ ∃ m, qseg h xs m ∗ qseg m ys e.
Proof.
  revert h. induction xs as [|x xs IH]; intros h; simpl.
  - iSplit; [iIntros "H"; iExists h; by iFrame|by iIntros "(%m & -> & $)"].
  - iSplit.
    + iIntros "(-> & %n & Hx & H)". rw IH. iDestruct "H" as "(%m & H1 & H2)". iExists m. by iFrame.
    + iIntros "(%m & (-> & %n & Hx & H1) & H2)". iSplit; [done|]. iExists n. iFrame "Hx". rw IH. iExists m. iFrame.
Qed.

Definition last_of (es : list (Z * list Z)) : Z := match last es with Some x => x.1 | None => 0 end.

Lemma last_of_snoc (es : list (Z * list Z)) (x : Z * list Z) : last_of (es ++ [x]) = x.1.
Proof. by rw /last_of last_snoc. Qed.

Definition queue_at (q : Z) (evs : list (list Z)) : hprop :=
  ∃ h es, ⌜0 < q ∧ evs = es.*2⌝ ∗ fld q head h ∗ fld q tail (last_of es) ∗ qseg h es 0 ∗ token q 2.

Lemma qseg_first (h : Z) (es : list (Z * list Z)) :
  qseg h es 0 -∗ ⌜match es with [] => h = 0 | x :: _ => h = x.1 ∧ 0 < h end⌝ ∗ qseg h es 0.
Proof.
  iIntros "H". destruct es as [|x es]; simpl; [iDestruct "H" as "->"; auto|].
  iDestruct "H" as "(-> & %n & [H1 Hb] & H2)". iPure (body_pos with "Hb") as Hx.
  iSplit; [done|].
  iSplit; [done|]. iExists n. by iFrame.
Qed.

(** ** The queue *)

Lemma wp_queue_empty (q : Z) (evs : list (list Z)) (Φ : Z → hprop) :
  queue_at q evs -∗ (queue_at q evs -∗ Φ (if decide (evs = []) then 1 else 0)) -∗ wp (queue_empty q) Φ.
Proof.
  iIntros "(%h & %es & [%Hq ->] & Hh & Ht & Hes & Htok) HΦ". iDestruct (qseg_first with "Hes") as "[%Hh Hes]".
  iApply wp_bind. iApply (wp_ld with "Hh"); [lia|]. iIntros "Hh". iApply wp_ret.
  rw (_ : (if h =? 0 then 1 else 0) = if decide (es.*2 = []) then 1 else 0).
  { iApply "HΦ". iExists h, es. by iFrame. }
  destruct es as [|x es]; simpl in *; [by rw Hh|]. rw (proj2 (Z.eqb_neq h 0)) //. lia.
Qed.

Lemma wp_queue_create (Φ : outcome Z → hprop) :
  memory_left → (∀ q, queue_at q [] -∗ Φ (Done q)) -∗ wp queue_create Φ.
Proof.
  iIntros (Hleft) "HΦ". rw /queue_create /xbind. iApply wp_bind. rw /xmalloc /xbind /call. iApply wp_bind. iApply wp_bind.
  iApply wp_malloc_left; [done|done|]. iIntros (q vs [Hq Hl]) "Htok Ha".
  destruct vs as [|a [|b []]]; try done. iDestruct (array_open with "Ha") as "[Ha Hb]".
  iDestruct (array_open with "Hb") as "[Hb _]". iApply wp_ret. rw (proj2 (Z.eqb_neq q 0)); [|lia]. iApply wp_ret.
  iApply wp_bind. iApply wp_bind. iApply (wp_st _ _ b with "[Hb]"); [lia|by rw /fld /tail Z.add_0_r|]. iIntros "Ht".
  iApply wp_ret. iApply wp_bind. iApply wp_bind. iApply (wp_st with "Ha"); [lia|]. iIntros "Hh".
  iApply wp_ret. iApply wp_ret. iApply "HΦ". iExists 0, []. by iFrame.
Qed.

Lemma wp_queue_enqueue (q d nxt : Z) (ev : list Z) (evs : list (list Z)) (Φ : unit → hprop) :
  queue_at q evs -∗ entry (d, ev) nxt -∗ (queue_at q (evs ++ [ev]) -∗ Φ tt) -∗ wp (queue_enqueue d q) Φ.
Proof.
  iIntros "(%h & %es & [%Hq ->] & Hh & Ht & Hes & Htok) [Hn Hr] HΦ". iPure (body_pos with "Hr") as Hd. simpl in Hd |- *.
  iApply wp_bind. iApply (wp_st with "Hn"); [lia|]. iIntros "Hn".
  iApply wp_bind. iApply (wp_ld with "Ht"); [lia|]. iIntros "Ht".
  destruct es as [|[y yv] es _] using rev_ind; simpl.
  - iDestruct "Hes" as "->". iApply wp_bind. iApply (wp_st with "Ht"); [lia|]. iIntros "Ht".
    iApply (wp_st with "Hh"); [lia|]. iIntros "Hh". iApply "HΦ". iExists d, [(d, ev)]. iFrame.
    by repeat iSplit.
  - rw qseg_app. iDestruct "Hes" as "(%m & Hes & -> & %n & [Hyn Hyr] & ->)".
    iPure (body_pos with "Hyr") as Hy.
    rw last_of_snoc /=. simpl in Hy. rw (proj2 (Z.eqb_neq y 0)); [|lia]. simpl negb. cbv iota.
    iApply wp_bind. iApply (wp_ld with "Ht"); [lia|]. iIntros "Ht".
    iApply wp_bind. iApply (wp_st with "Hyn"); [lia|]. iIntros "Hyn".
    iApply (wp_st with "Ht"); [lia|]. iIntros "Ht". iApply "HΦ".
    iExists h, ((es ++ [(y, yv)]) ++ [(d, ev)]). rw !fmap_app last_of_snoc. iFrame. iSplit; [done|].
    rw qseg_app. iExists d. iSplitR "Hn Hr".
    + rw qseg_app. iExists y. iFrame "Hes". iSplit; [done|]. iExists d. by iFrame.
    + iSplit; [done|]. iExists 0. by iFrame.
Qed.

Lemma wp_queue_dequeue (q : Z) (ev : list Z) (evs : list (list Z)) (Φ : Z → hprop) :
  queue_at q (ev :: evs) -∗ (∀ d, queue_at q evs -∗ entry (d, ev) 0 -∗ Φ d) -∗ wp (queue_dequeue q) Φ.
Proof.
  iIntros "(%h & %es & [%Hq %Hes] & Hh & Ht & Hes & Htok) HΦ". destruct es as [|[d ev'] es]; [done|].
  injection Hes as <- ->. iDestruct "Hes" as "(-> & %n & [Hn Hr] & Hes)".
  iPure (body_pos with "Hr") as Hd. simpl in Hd |- *.
  iDestruct (qseg_first with "Hes") as "[%Hn Hes]".
  iApply wp_bind. iApply (wp_ld with "Hh"); [lia|]. iIntros "Hh". rw (proj2 (Z.eqb_neq d 0)); [|lia].
  iApply wp_bind. iApply (wp_ld with "Hn"); [lia|]. iIntros "Hn".
  iApply wp_bind. iApply (wp_st with "Hh"); [lia|]. iIntros "Hh".
  iApply wp_bind. iApply (wp_ld with "Hh"); [lia|]. iIntros "Hh".
  iApply wp_bind. iApply (wp_wand _ (λ _, fld q tail (last_of es)) with "[Ht]").
  { destruct es as [|x es].
    - rw Hn. iApply (wp_st with "Ht"); [lia|]. iIntros "$".
    - rw (proj2 (Z.eqb_neq n 0)); [|lia]. iApply wp_ret. by rw {1}/last_of last_cons_cons. }
  iIntros (_) "Ht". iApply wp_bind. iApply (wp_st with "Hn"); [lia|]. iIntros "Hn". iApply wp_ret.
  iApply ("HΦ" with "[-Hn Hr]"); [iExists n, es; by iFrame|by iFrame].
Qed.

(** The cells of an entry as one block. *)
Lemma entry_block (d nxt : Z) (pad ev : list Z) :
  length pad = 7%nat → array d 1 (nxt :: pad ++ ev) ⊣⊢ fld d next_ptr nxt ∗ bytes d 1 pad ∗ bytes d inot_ev ev.
Proof.
  intros Hp. rw array_cons. apply bi.sep_proper; [done|]. rw array_app Hp /bytes. apply bi.sep_proper; [done|].
  rw (_ : d + 1 + 1 * Z.of_nat 7 = d + inot_ev); [done|rw /inot_ev; lia].
Qed.

Lemma wp_free_entry (d nxt : Z) (ev : list Z) (Φ : unit → hprop) :
  entry (d, ev) nxt -∗ Φ tt -∗ wp (free 1 d) Φ.
Proof.
  iIntros "[Hn (%Hd & (%pad & %Hpad & Hp) & Hev & Htok)] HΦ". simpl in Hd |- *.
  iApply (wp_free 1 d (nxt :: pad ++ ev) with "[Htok] [Hn Hp Hev]"); [lia| | |done].
  - by rw /= length_app Hpad.
  - rw entry_block //. iFrame.
Qed.

Lemma wp_destroy_loop (fuel : nat) (q h : Z) (es : list (Z * list Z)) (Φ : unit → hprop) :
  0 < q → (length es < fuel)%nat →
  fld q head h -∗ qseg h es 0 -∗ (fld q head 0 -∗ Φ tt) -∗ wp (destroy_loop fuel q) Φ.
Proof.
  intros Hq. revert h es. induction fuel as [|fuel IH]; iIntros (h es Hf) "Hh Hes HΦ"; [lia|]. cbn [destroy_loop].
  iApply wp_bind. iApply (wp_ld with "Hh"); [lia|]. iIntros "Hh".
  destruct es as [|[d ev] es]; simpl.
  { iDestruct "Hes" as "->". iApply wp_ret. by iApply "HΦ". }
  iDestruct "Hes" as "(-> & %n & [Hn Hb] & Hes)". iPure (body_pos with "Hb") as Hd. simpl in Hd |- *.
  rw (proj2 (Z.eqb_neq d 0)); [|lia].
  iApply wp_bind. iApply (wp_ld with "Hn"); [lia|]. iIntros "Hn".
  iApply wp_bind. iApply (wp_st with "Hh"); [lia|]. iIntros "Hh".
  iApply wp_bind. iApply (wp_st with "Hn"); [lia|]. iIntros "Hn".
  iApply wp_bind. iApply (wp_free_entry d 0 ev with "[Hn Hb]"); [by iFrame|].
  iApply (IH with "Hh Hes HΦ"). simpl in Hf. lia.
Qed.

Lemma wp_queue_destroy (fuel : nat) (q : Z) (evs : list (list Z)) (Φ : unit → hprop) :
  (length evs < fuel)%nat → queue_at q evs -∗ Φ tt -∗ wp (queue_destroy fuel q) Φ.
Proof.
  iIntros (Hf) "(%h & %es & [%Hq ->] & Hh & Ht & Hes & Htok) HΦ". rw length_fmap in Hf.
  rw /queue_destroy (proj2 (Z.eqb_neq q 0)); [|lia].
  iApply wp_bind. iApply (wp_destroy_loop with "Hh Hes"); [done|done|]. iIntros "Hh".
  iApply wp_bind. iApply (wp_st with "Ht"); [lia|]. iIntros "Ht".
  iApply wp_bind. iApply (wp_st with "Hh"); [lia|]. iIntros "Hh".
  iApply (wp_free 8 q [0; 0] with "Htok [Hh Ht]"); [lia| |done].
  rw /= /fld /head /tail Z.add_0_r. iFrame.
Qed.

End memory.
