(* ===== verification/Inotify.v ===== *)
(** * The directory watcher (inotify/inotify_utils.c, inotify_test.c)

    [read_events] cuts the bytes that the kernel delivers into events and queues
    them ([EventQueue]), [handle_events] takes them out, reports them and frees
    them, [process_inotify_events] does so as long as something is watched, and
    [main] is the whole program.  What the system calls return is an argument:
    the descriptor, a watch descriptor for each name, and for each round what
    [select] and [read] give; after the last round the signal has come.  What is
    printed is a list of lines. *)

From iris.proofmode Require Import proofmode.
From S2P Require Import Prelude WordMem WordExit EventQueue.

(** ** The code *)

(** [struct inotify_event] *)
Definition ev_wd : Z := 0.
Definition ev_mask : Z := 4.
Definition ev_cookie : Z := 8.
Definition ev_len : Z := 12.
Definition ev_name : Z := 16.

Definition IN_ACCESS : Z := 0x1.
Definition IN_MODIFY : Z := 0x2.
Definition IN_ATTRIB : Z := 0x4.
Definition IN_CLOSE_WRITE : Z := 0x8.
Definition IN_CLOSE_NOWRITE : Z := 0x10.
Definition IN_OPEN : Z := 0x20.
Definition IN_MOVED_FROM : Z := 0x40.
Definition IN_MOVED_TO : Z := 0x80.
Definition IN_CREATE : Z := 0x100.
Definition IN_DELETE : Z := 0x200.
Definition IN_DELETE_SELF : Z := 0x400.
Definition IN_MOVE_SELF : Z := 0x800.
Definition IN_ALL_EVENTS : Z := 0xFFF.
Definition IN_UNMOUNT : Z := 0x2000.
Definition IN_Q_OVERFLOW : Z := 0x4000.
Definition IN_IGNORED : Z := 0x8000.
Definition IN_ISDIR : Z := 0x40000000.

Definition known : Z := Z.lor (Z.lor (Z.lor IN_ALL_EVENTS IN_UNMOUNT) IN_Q_OVERFLOW) IN_IGNORED.

(** What a call of [printf] or [perror] prints; a file name is [None] for a null pointer. *)
Inductive line :=
  | Happened (what dir : string) (file : option (list Z)) (wd : Z) (cookie : option Z)
  | Overflow | Ignored (wd : Z) | Watched (items : Z)
  | Unknown (mask : Z) (file : option (list Z)) (wd : Z)
  | Flags (mask : Z) | EventsQueued (count : Z)
  | Watching (name : string) (wd : Z) | CannotWatch (name : string) (mask : Z)
  | Perror (what : string) | Newline | Terminating.

Section code.
(** The static variable's address. *)
Context `{HM : Malloc} (watched_items : Z).

(** An [uint32_t], the low byte first. *)
Definition ld32 (p off : Z) : M Z :=
  a ← ld p off; b ← ld p (off + 1); c ← ld p (off + 2); d ← ld p (off + 3);
  mret (a + 2 ^ 8 * b + 2 ^ 16 * c + 2 ^ 24 * d).

Fixpoint c_string (fuel : nat) (p off : Z) : M (list Z) :=
  match fuel with
  | O => undefined
  | S fuel => b ← ld p off; if b =? 0 then mret [] else bs ← c_string fuel p (off + 1); mret (b :: bs)
  end.

Definition string_arg (fuel : nat) (p : Z) : M (option (list Z)) :=
  if p =? 0 then mret None else bs ← c_string fuel p 0; mret (Some bs).

(** The [switch] of [handle_event]. *)
Definition event_lines (fuel : nat) (filename wd cookie mask : Z) (file_or_dir : string) : M (list line) :=
  let happened what := file ← string_arg fuel filename; mret [Happened what file_or_dir file wd None] in
  let moved what := file ← string_arg fuel filename; mret [Happened what file_or_dir file wd (Some cookie)] in
  let kind := Z.land mask known in
  if kind =? IN_ACCESS then happened "ACCESS"
  else if kind =? IN_MODIFY then happened "MODIFY"
  else if kind =? IN_ATTRIB then happened "ATTRIB"
  else if kind =? IN_CLOSE_WRITE then happened "CLOSE_WRITE"
  else if kind =? IN_CLOSE_NOWRITE then happened "CLOSE_NOWRITE"
  else if kind =? IN_OPEN then happened "OPEN"
  else if kind =? IN_MOVED_FROM then moved "MOVED_FROM"
  else if kind =? IN_MOVED_TO then moved "MOVED_TO"
  else if kind =? IN_DELETE then happened "DELETE"
  else if kind =? IN_CREATE then happened "CREATE"
  else if kind =? IN_DELETE_SELF then happened "DELETE_SELF"
  else if kind =? IN_MOVE_SELF then happened "MOVE_SELF"
  else if kind =? IN_UNMOUNT then happened "UNMOUNT"
  else if kind =? IN_Q_OVERFLOW then mret [Overflow]
  else if kind =? IN_IGNORED then
    n ← ld watched_items 0; st watched_items 0 (s32 (n - 1));;
    n ← ld watched_items 0; mret [Ignored wd; Watched n]
  else file ← string_arg fuel filename; mret [Unknown mask file wd].

Definition handle_event (fuel : nat) (event : Z) : M (list line) :=
  wd ← ld32 event (inot_ev + ev_wd); cookie ← ld32 event (inot_ev + ev_cookie);
  let wd := s32 wd in let cookie := s32 cookie in
  len ← ld32 event (inot_ev + ev_len);
  let filename := if negb (len =? 0) then event + inot_ev + ev_name else 0 in
  mask ← ld32 event (inot_ev + ev_mask);
  let file_or_dir := if negb (Z.land mask IN_ISDIR =? 0) then "Dir" else "File" in
  let flags := Z.land mask (Z.lnot known) in
  lines ← event_lines fuel filename wd cookie mask file_or_dir;
  mret (lines ++ if negb (Z.land flags (Z.lnot IN_ISDIR) =? 0) then [Flags mask] else []).

(** [names] is the fuel for the strings. *)
Fixpoint handle_events (names fuel : nat) (q : Z) : M (list line) :=
  match fuel with
  | O => undefined
  | S fuel =>
    e ← queue_empty q;
    if e =? 0 then
      event ← queue_dequeue q; ls ← handle_event names event; free 1 event;;
      ls' ← handle_events names fuel q; mret (ls ++ ls')
    else mret []
  end.

Fixpoint load (n : nat) (p off : Z) : M (list Z) :=
  match n with O => mret [] | S n => b ← ld p off; bs ← load n p (off + 1); mret (b :: bs) end.
Fixpoint store (bs : list Z) (p off : Z) : M unit :=
  match bs with [] => mret tt | b :: bs => st p off b;; store bs p (off + 1) end.

Definition memmove (n : nat) (dst doff src soff : Z) : M unit :=
  bs ← load n src soff; store bs dst doff.

(** The result of [malloc] is not tested. *)
Fixpoint read_loop (fuel : nat) (q buffer r buffer_i count : Z) : M Z :=
  match fuel with
  | O => undefined
  | S fuel =>
    if buffer_i <? r then
      len ← ld32 (buffer + buffer_i) ev_len;
      event ← malloc 1 (Z.to_nat (inot_ev + ev_name + len));
      memmove (Z.to_nat (ev_name + len)) event inot_ev (buffer + buffer_i) 0;;
      queue_enqueue event q;;
      read_loop fuel q buffer r (buffer_i + (ev_name + len)) (s32 (count + 1))
    else mret count
  end.

(** [input] is what [read] delivers into the buffer, [None] when it fails. *)
Definition read_events (fuel : nat) (q buffer : Z) (input : option (list Z)) : M (list line * Z) :=
  match input with
  | None => mret ([], -1)
  | Some bytes =>
    store bytes buffer 0;;
    let r := Z.of_nat (length bytes) in
    if r <=? 0 then mret ([], r)
    else count ← read_loop fuel q buffer r 0 0; mret ([EventsQueued count], count)
  end.

(** A round is what [select] returns and [read] delivers; at the end of the
    list [keep_running] has been cleared. *)
Fixpoint process_inotify_events (fuel : nat) (q buffer : Z) (rounds : list (Z * option (list Z))) : M (list line) :=
  match rounds with
  | [] => mret []
  | (ready, input) :: rounds =>
    w ← ld watched_items 0;
    if 0 <? w then
      if 0 <? ready then
        '(ls, r) ← read_events fuel q buffer input;
        if r <? 0 then mret ls
        else ls1 ← handle_events fuel fuel q; ls2 ← process_inotify_events fuel q buffer rounds; mret (ls ++ ls1 ++ ls2)
      else process_inotify_events fuel q buffer rounds
    else mret []
  end.

(** The system's answer is the last argument. *)
Definition open_inotify_fd (fd : Z) : M (list line) :=
  st watched_items 0 0;; mret (if fd <? 0 then [Perror "inotify_init () = "] else []).

Definition close_inotify_fd (r : Z) : M (list line) :=
  st watched_items 0 0;; mret (if r <? 0 then [Perror "close (fd) = "] else []).

Definition watch_dir (dirname : string) (mask wd : Z) : M (list line) :=
  if wd <? 0 then mret [CannotWatch dirname mask; Perror " "]
  else n ← ld watched_items 0; st watched_items 0 (s32 (n + 1));;
    n ← ld watched_items 0; mret [Watching dirname wd; Watched n].

Definition ignore_wd (r : Z) : M (list line) :=
  if r <? 0 then mret [Perror "inotify_rm_watch(fd, wd) = "]
  else n ← ld watched_items 0; st watched_items 0 (s32 (n - 1));; mret [].

Fixpoint watch_loop (args : list (string * Z)) (wd : Z) : M (list line * Z) :=
  match args with
  | [] => mret ([], wd)
  | (name, answer) :: args =>
    if 0 <=? wd then
      ls ← watch_dir name IN_ALL_EVENTS answer;
      '(ls', wd) ← watch_loop args answer; mret (ls ++ ls', wd)
    else mret ([], wd)
  end.

Definition main (fuel : nat) (buffer fd : Z) (args : list (string * Z)) (rounds : list (Z * option (list Z)))
    (closed : Z) : X (list line) :=
  ls1 <~ call (open_inotify_fd fd);
  if 0 <? fd then
    q <~ queue_create;
    watched <~ call (watch_loop args 0);
    ls3 <~ call (if 0 <? watched.2 then process_inotify_events fuel q buffer rounds else mret []);
    ls4 <~ call (close_inotify_fd closed);
    call (queue_destroy fuel q) ;~
    xret (ls1 ++ [Newline] ++ watched.1 ++ ls3 ++ [Terminating] ++ ls4)
  else xret ls1.

End code.

(** ** Specification *)

(** An event; [pad] zeros follow the name. *)
Record event := Ev { e_wd : Z; e_mask : Z; e_cookie : Z; e_name : list Z; e_pad : nat }.

Definition le4 (v : Z) : list Z := [v mod 2 ^ 8; v / 2 ^ 8 mod 2 ^ 8; v / 2 ^ 16 mod 2 ^ 8; v / 2 ^ 24 mod 2 ^ 8].
Definition event_bytes (e : event) : list Z :=
  le4 (e_wd e mod 2 ^ 32) ++ le4 (e_mask e) ++ le4 (e_cookie e mod 2 ^ 32) ++
  le4 (Z.of_nat (length (e_name e) + e_pad e)) ++ e_name e ++ replicate (e_pad e) 0.

Definition event_ok (e : event) : Prop :=
  - 2 ^ 31 ≤ e_wd e < 2 ^ 31 ∧ 0 ≤ e_mask e < 2 ^ 32 ∧ - 2 ^ 31 ≤ e_cookie e < 2 ^ 31 ∧
  Forall (λ b, b ≠ 0) (e_name e) ∧ (e_pad e = 0%nat → e_name e = []).

Definition labels : list (Z * (string * bool)) :=
  [(IN_ACCESS, ("ACCESS", false)); (IN_MODIFY, ("MODIFY", false)); (IN_ATTRIB, ("ATTRIB", false));
   (IN_CLOSE_WRITE, ("CLOSE_WRITE", false)); (IN_CLOSE_NOWRITE, ("CLOSE_NOWRITE", false)); (IN_OPEN, ("OPEN", false));
   (IN_MOVED_FROM, ("MOVED_FROM", true)); (IN_MOVED_TO, ("MOVED_TO", true)); (IN_DELETE, ("DELETE", false));
   (IN_CREATE, ("CREATE", false)); (IN_DELETE_SELF, ("DELETE_SELF", false)); (IN_MOVE_SELF, ("MOVE_SELF", false));
   (IN_UNMOUNT, ("UNMOUNT", false))].

Definition kind (e : event) : Z := Z.land (e_mask e) known.
Definition file (e : event) : option (list Z) := if decide (e_pad e = 0%nat) then None else Some (e_name e).

(** What is printed for an event with [n] items watched, and the number after it. *)
Definition what_happened (n : Z) (e : event) : list line :=
  match find (λ x, kind e =? x.1) labels with
  | Some (_, (what, moved)) =>
    [Happened what (if Z.land (e_mask e) IN_ISDIR =? 0 then "File" else "Dir") (file e) (e_wd e)
       (if moved then Some (e_cookie e) else None)]
  | None =>
    if kind e =? IN_Q_OVERFLOW then [Overflow]
    else if kind e =? IN_IGNORED then [Ignored (e_wd e); Watched (n - 1)]
    else [Unknown (e_mask e) (file e) (e_wd e)]
  end.
Definition report (n : Z) (e : event) : list line :=
  what_happened n e ++ if Z.land (Z.land (e_mask e) (Z.lnot known)) (Z.lnot IN_ISDIR) =? 0 then [] else [Flags (e_mask e)].
Definition after (n : Z) (e : event) : Z := if kind e =? IN_IGNORED then n - 1 else n.

Fixpoint reports (n : Z) (es : list event) : list line :=
  match es with [] => [] | e :: es => report n e ++ reports (after n e) es end.
Definition left_after (n : Z) (es : list event) : Z := foldl after n es.

(** The bytes that the kernel delivers for some events. *)
Definition data (es : list event) : list Z := concat (event_bytes <$> es).

Inductive round := Quiet | ReadFails | Delivers (es : list event).
Definition input (r : round) : Z * option (list Z) :=
  match r with
  | Quiet => (0, None)
  | ReadFails => (1, None)
  | Delivers es => (1, Some (data es))
  end.
Definition round_ok (size : nat) (r : round) : Prop :=
  match r with Delivers es => Forall event_ok es ∧ (length (data es) ≤ size)%nat | _ => True end.

(** What the rounds print: until nothing is watched, or a [read] fails. *)
Fixpoint watching (n : Z) (rs : list round) : list line :=
  match rs with
  | [] => []
  | r :: rs =>
    if 0 <? n then
      match r with
      | Quiet => watching n rs
      | ReadFails => []
      | Delivers es =>
        (match es with [] => [] | _ => [EventsQueued (Z.of_nat (length es))] end) ++ reports n es ++ watching (left_after n es) rs
      end
    else []
  end.

(** The items that are watched in the end, and the last answer: up to the first that is refused. *)
Fixpoint watched (n wd : Z) (args : list (string * Z)) : list line * Z * Z :=
  match args with
  | [] => ([], n, wd)
  | (name, wd) :: args =>
    if wd <? 0 then ([CannotWatch name IN_ALL_EVENTS; Perror " "], n, wd)
    else let '(ls, n', wd') := watched (n + 1) wd args in ([Watching name wd; Watched (n + 1)] ++ ls, n', wd')
  end.

Definition transcript (fd : Z) (args : list (string * Z)) (rs : list round) (closed : Z) : list line :=
  if 0 <? fd then
    let '(ls, n, wd) := watched 0 0 args in
    [Newline] ++ ls ++ (if 0 <? wd then watching n rs else []) ++ [Terminating] ++
    (if closed <? 0 then [Perror "close (fd) = "] else [])
  else if fd <? 0 then [Perror "inotify_init () = "] else [].

Lemma le4_value (v : Z) :
  0 ≤ v < 2 ^ 32 → v mod 2 ^ 8 + 2 ^ 8 * (v / 2 ^ 8 mod 2 ^ 8) + 2 ^ 16 * (v / 2 ^ 16 mod 2 ^ 8) + 2 ^ 24 * (v / 2 ^ 24 mod 2 ^ 8) = v.
Proof. intros Hv. change (2 ^ 32) with 4294967296 in Hv. Z.to_euclidean_division_equations. lia. Qed.

Lemma s32_mod (v : Z) : - 2 ^ 31 ≤ v < 2 ^ 31 → s32 (v mod 2 ^ 32) = v.
Proof. intros Hv. unfold s32, swrap. rw Zplus_mod_idemp_l. by apply swrap_small. Qed.

Lemma event_length (e : event) : length (event_bytes e) = (16 + (length (e_name e) + e_pad e))%nat.
Proof. rw /event_bytes !length_app length_replicate /=. lia. Qed.

Lemma data_cons (e : event) (es : list event) : data (e :: es) = event_bytes e ++ data es.
Proof. done. Qed.

Lemma data_nil : data [] = [].
Proof. done. Qed.

Lemma events_length (es : list event) : (length es ≤ length (data es))%nat.
Proof. induction es as [|e es IH]; [done|]. rw data_cons length_app event_length /=. lia. Qed.

Lemma left_after_bound (n : Z) (es : list event) : n - Z.of_nat (length es) ≤ left_after n es ≤ n.
Proof.
  revert n. induction es as [|e es IH]; intros n; simpl; [lia|].
  specialize (IH (after n e)). unfold left_after, after in *. destruct (kind e =? IN_IGNORED); lia.
Qed.

(** ** In memory *)

Section memory.
Context `{HM : Malloc}.

Lemma wp_load (n : nat) (p off : Z) (bs : list Z) (Φ : list Z → hprop) :
  p ≠ 0 → length bs = n → bytes p off bs -∗ (bytes p off bs -∗ Φ bs) -∗ wp (load n p off) Φ.
Proof.
  revert off bs Φ. induction n as [|n IH]; iIntros (off bs Φ Hp Hl) "Hb HΦ"; cbn [load].
  { destruct bs; [|done]. iApply wp_ret. by iApply "HΦ". }
  destruct bs as [|b bs]; [done|]. rw bytes_cons. iDestruct "Hb" as "[Hb Hbs]".
  iApply wp_bind. iApply (wp_ld with "Hb"); [done|]. iIntros "Hb".
  iApply wp_bind. iApply (IH with "Hbs"); [done|by injection Hl|]. iIntros "Hbs". iApply wp_ret.
  iApply "HΦ". iFrame.
Qed.

Lemma wp_store (p off : Z) (bs cs : list Z) (Φ : unit → hprop) :
  p ≠ 0 → length cs = length bs → bytes p off cs -∗ (bytes p off bs -∗ Φ tt) -∗ wp (store bs p off) Φ.
Proof.
  revert off cs. induction bs as [|b bs IH]; iIntros (off cs Hp Hl) "Hb HΦ"; cbn [store].
  { destruct cs; [|done]. iApply wp_ret. by iApply "HΦ". }
  destruct cs as [|c cs]; [done|]. rw !bytes_cons. iDestruct "Hb" as "[Hb Hbs]".
  iApply wp_bind. iApply (wp_st with "Hb"); [done|]. iIntros "Hb".
  iApply (IH with "Hbs"); [done|by injection Hl|]. iIntros "Hbs". iApply "HΦ". iFrame.
Qed.

Lemma wp_ld32 (p off v : Z) (Φ : Z → hprop) :
  p ≠ 0 → 0 ≤ v < 2 ^ 32 → bytes p off (le4 v) -∗ (bytes p off (le4 v) -∗ Φ v) -∗ wp (ld32 p off) Φ.
Proof.
  iIntros (Hp Hv) "Hw HΦ". rw /ld32 /le4 !bytes_cons.
  iDestruct "Hw" as "(Ha & Hb & Hc & Hd & He)". rw -!Z.add_assoc /=.
  iApply wp_bind. iApply (wp_ld with "Ha"); [done|]. iIntros "Ha".
  iApply wp_bind. iApply (wp_ld with "Hb"); [done|]. iIntros "Hb".
  iApply wp_bind. iApply (wp_ld with "Hc"); [done|]. iIntros "Hc".
  iApply wp_bind. iApply (wp_ld with "Hd"); [done|]. iIntros "Hd". iApply wp_ret.
  rw le4_value //. iApply "HΦ". iFrame.
Qed.

Lemma wp_c_string (fuel : nat) (p off : Z) (name rest : list Z) (Φ : list Z → hprop) :
  p ≠ 0 → Forall (λ b, b ≠ 0) name → (length name < fuel)%nat →
  bytes p off (name ++ 0 :: rest) -∗ (bytes p off (name ++ 0 :: rest) -∗ Φ name) -∗ wp (c_string fuel p off) Φ.
Proof.
  intros Hp. revert off name Φ. induction fuel as [|fuel IH]; iIntros (off name Φ Hn Hf) "Hb HΦ"; [lia|]. cbn [c_string].
  destruct name as [|b name]; simpl app; rw bytes_cons; iDestruct "Hb" as "[Hb Hbs]".
  - iApply wp_bind. iApply (wp_ld with "Hb"); [done|]. iIntros "Hb". iApply wp_ret. iApply "HΦ". iFrame.
  - apply Forall_cons in Hn as [Hb Hn]. iApply wp_bind. iApply (wp_ld with "Hb"); [done|]. iIntros "Hb".
    rw (proj2 (Z.eqb_neq b 0)) //. iApply wp_bind. iApply (IH with "Hbs"); [done|simpl in Hf; lia|]. iIntros "Hbs".
    iApply wp_ret. iApply "HΦ". iFrame.
Qed.

(** The fields of an event. *)
Lemma bytes_event (p off : Z) (e : event) :
  bytes p off (event_bytes e) ⊣⊢
  bytes p (off + ev_wd) (le4 (e_wd e mod 2 ^ 32)) ∗ bytes p (off + ev_mask) (le4 (e_mask e)) ∗
  bytes p (off + ev_cookie) (le4 (e_cookie e mod 2 ^ 32)) ∗
  bytes p (off + ev_len) (le4 (Z.of_nat (length (e_name e) + e_pad e))) ∗
  bytes p (off + ev_name) (e_name e ++ replicate (e_pad e) 0).
Proof. rw /event_bytes 4!bytes_app -!Z.add_assoc /ev_wd Z.add_0_r //=. Qed.

Definition size_ok (e : event) : Prop := Z.of_nat (length (e_name e) + e_pad e) < 2 ^ 32.

Lemma wp_event_len (p off : Z) (e : event) (Φ : Z → hprop) :
  p ≠ 0 → size_ok e → bytes p off (event_bytes e) -∗
  (bytes p off (event_bytes e) -∗ Φ (Z.of_nat (length (event_bytes e)) - 16)) -∗ wp (ld32 p (off + ev_len)) Φ.
Proof.
  iIntros (Hp Hs) "He HΦ". rw bytes_event. iDestruct "He" as "(H1 & H2 & H3 & H4 & H5)".
  iApply (wp_ld32 with "H4"); [done|unfold size_ok in Hs; lia|]. iIntros "H4".
  rw (_ : Z.of_nat (length (event_bytes e)) - 16 = Z.of_nat (length (e_name e) + e_pad e)).
  - iApply "HΦ". iFrame.
  - rw event_length. lia.
Qed.

Lemma wp_string_arg (fuel : nat) (p : Z) (e : event) (Φ : option (list Z) → hprop) :
  0 < p → event_ok e → (length (e_name e) < fuel)%nat →
  bytes p 0 (e_name e ++ replicate (e_pad e) 0) -∗
  (bytes p 0 (e_name e ++ replicate (e_pad e) 0) -∗ Φ (file e)) -∗
  wp (string_arg fuel (if negb (Z.of_nat (length (e_name e) + e_pad e) =? 0) then p else 0)) Φ.
Proof.
  iIntros (Hp (_ & _ & _ & Hn & Hpad) Hf) "Hb HΦ". rw /string_arg /file. destruct (e_pad e) as [|pad].
  - rw Hpad //. iApply wp_ret. by iApply "HΦ".
  - rw (_ : (Z.of_nat (length (e_name e) + S pad) =? 0) = false); [|apply Z.eqb_neq; lia]. simpl negb. cbv iota.
    rw (proj2 (Z.eqb_neq p 0)); [|lia]. simpl replicate.
    iApply wp_bind. iApply (wp_c_string with "Hb"); [lia|done|done|]. iIntros "Hb". iApply wp_ret. by iApply "HΦ".
Qed.

Definition items (wi n : Z) : hprop := ⌜0 < wi⌝ ∗ fld wi 0 n.

(** The [switch], once the name can be read. *)
Lemma wp_event_lines (fuel : nat) (wi n filename : Z) (e : event) (R : hprop) (Φ : list line → hprop) :
  - 2 ^ 31 < n < 2 ^ 31 → (∀ Ψ, R -∗ (R -∗ Ψ (file e)) -∗ wp (string_arg fuel filename) Ψ) →
  items wi n -∗ R -∗
  (items wi (after n e) -∗ R -∗ Φ (what_happened n e)) -∗
  wp (event_lines wi fuel filename (e_wd e) (e_cookie e) (e_mask e)
    (if negb (Z.land (e_mask e) IN_ISDIR =? 0) then "Dir" else "File")) Φ.
Proof.
  iIntros (Hn Hfile) "[%Hwi Hw] HR HΦ". rw /event_lines -/(kind e) /what_happened if_negb /=.
  repeat (lazymatch goal with |- context [if kind e =? ?k then Some _ else _] => destruct (Z.eqb_spec (kind e) k) as [E|_] end;
    [iApply wp_bind; iApply (Hfile with "HR"); iIntros "HR"; iApply wp_ret; rw /after E;
     iApply ("HΦ" with "[$Hw //] HR")|]).
  destruct (Z.eqb_spec (kind e) IN_Q_OVERFLOW) as [E|_].
  { iApply wp_ret. rw /after E. iApply ("HΦ" with "[$Hw //] HR"). }
  rw /after. destruct (kind e =? IN_IGNORED).
  - iApply wp_bind. iApply (wp_ld with "Hw"); [lia|]. iIntros "Hw".
    iApply wp_bind. iApply (wp_st with "Hw"); [lia|]. iIntros "Hw".
    iApply wp_bind. iApply (wp_ld with "Hw"); [lia|]. iIntros "Hw". iApply wp_ret.
    rw (_ : s32 (n - 1) = n - 1); [|apply swrap_small; [done|lia]]. iApply ("HΦ" with "[$Hw //] HR").
  - iApply wp_bind. iApply (Hfile with "HR"). iIntros "HR". iApply wp_ret. iApply ("HΦ" with "[$Hw //] HR").
Qed.

Lemma wp_handle_event (fuel : nat) (wi d n : Z) (e : event) (Φ : list line → hprop) :
  0 < d → event_ok e → size_ok e → (length (e_name e) < fuel)%nat → - 2 ^ 31 < n < 2 ^ 31 →
  items wi n -∗ bytes d inot_ev (event_bytes e) -∗
  (items wi (after n e) -∗ bytes d inot_ev (event_bytes e) -∗ Φ (report n e)) -∗
  wp (handle_event wi fuel d) Φ.
Proof.
  iIntros (Hd Hok Hs Hf Hn) "[%Hwi Hw] He HΦ". rw bytes_event. iDestruct "He" as "(H1 & H2 & H3 & H4 & H5)".
  pose proof Hok as (Hwd & Hm & Hck & _). unfold size_ok in Hs. rw /handle_event.
  iApply wp_bind. iApply (wp_ld32 with "H1"); [lia|apply Z.mod_pos_bound; lia|]. iIntros "H1".
  iApply wp_bind. iApply (wp_ld32 with "H3"); [lia|apply Z.mod_pos_bound; lia|]. iIntros "H3".
  rw !s32_mod //. cbv zeta.
  iApply wp_bind. iApply (wp_ld32 with "H4"); [lia|lia|]. iIntros "H4".
  iApply wp_bind. iApply (wp_ld32 with "H2"); [lia|done|]. iIntros "H2".
  rw (_ : bytes d (inot_ev + ev_name) (e_name e ++ replicate (e_pad e) 0) ⊣⊢
    bytes (d + inot_ev + ev_name) 0 (e_name e ++ replicate (e_pad e) 0)); [|by rw /bytes Z.add_0_r Z.add_assoc].
  set (filename := if negb (Z.of_nat (length (e_name e) + e_pad e) =? 0) then d + inot_ev + ev_name else 0).
  iApply wp_bind. iApply (wp_event_lines with "[$Hw //] H5"); [done| |].
  { iIntros (Ψ) "H HΨ". iApply (wp_string_arg with "H HΨ"); [rw /inot_ev /ev_name; lia|done|done]. }
  iIntros "Hw H5". iApply wp_ret. rw if_negb. iApply ("HΦ" with "Hw"). iFrame.
Qed.

(** ** Reading *)


Lemma bytes_shift (p o1 o2 : Z) (bs : list Z) : bytes p (o1 + o2) bs ⊣⊢ bytes (p + o1) o2 bs.
Proof. by rw /bytes Z.add_assoc. Qed.

(** The bytes of some event. *)
Definition whole (ev : list Z) : Prop := ∃ e, size_ok e ∧ ev = event_bytes e.

Lemma whole_length (ev : list Z) : whole ev → (16 ≤ length ev)%nat.
Proof. intros (e & _ & ->). rw event_length. lia. Qed.

Lemma wp_whole_len (p off : Z) (ev : list Z) (Φ : Z → hprop) :
  p ≠ 0 → whole ev → bytes p off ev -∗ (bytes p off ev -∗ Φ (Z.of_nat (length ev) - 16)) -∗ wp (ld32 p (off + ev_len)) Φ.
Proof. iIntros (Hp (e & Hs & ->)) "He HΦ". by iApply (wp_event_len with "He HΦ"). Qed.

Lemma whole_events (es : list event) : Forall size_ok es → Forall whole (event_bytes <$> es).
Proof. intros H. rw Forall_fmap. apply (Forall_impl _ _ _ H). intros e He. by exists e. Qed.

(** From the bytes of an event in the buffer to an entry with them. *)
Lemma wp_read_loop (fuel : nat) (q buffer count : Z) (pre : list Z) (evs queue : list (list Z)) (Φ : Z → hprop) :
  memory_left → 0 < buffer → (length evs < fuel)%nat → Forall whole evs →
  0 ≤ count → count + Z.of_nat (length evs) < 2 ^ 31 →
  queue_at q queue -∗ bytes buffer 0 (pre ++ concat evs) -∗
  (queue_at q (queue ++ evs) -∗ bytes buffer 0 (pre ++ concat evs) -∗ Φ (count + Z.of_nat (length evs))) -∗
  wp (read_loop fuel q buffer (Z.of_nat (length (pre ++ concat evs))) (Z.of_nat (length pre)) count) Φ.
Proof.
  intros Hleft Hbuf. revert count pre evs queue.
  induction fuel as [|fuel IH]; iIntros (count pre evs queue Hf Hok Hc Hc2) "Hq Hb HΦ"; [lia|]. cbn [read_loop].
  destruct evs as [|ev evs]; simpl.
  { rw !app_nil_r Z.ltb_irrefl. iApply wp_ret. rw Z.add_0_r. iApply ("HΦ" with "Hq Hb"). }
  apply Forall_cons in Hok as [Hev Hok]. pose proof (whole_length ev Hev) as Hlen.
  rw (proj2 (Z.ltb_lt _ _)); [|rw !length_app; lia].
  iEval (rw !bytes_app Z.add_0_l) in "Hb". iDestruct "Hb" as "(Hpre & Hev & Hrest)".
  iEval (rw -(Z.add_0_r (Z.of_nat (length pre))) bytes_shift) in "Hev".
  iApply wp_bind. iApply (wp_whole_len _ 0 with "Hev"); [lia|done|]. iIntros "Hev".
  iApply wp_bind. iApply wp_malloc_left; [done|done|]. iIntros (d vs [Hd Hvs]) "Htok Ha".
  rw (_ : Z.to_nat (inot_ev + ev_name + (Z.of_nat (length ev) - 16)) = (8 + length ev)%nat) in Hvs |- *;
    [|rw /inot_ev /ev_name; lia].
  destruct vs as [|nxt vs]; [done|]. rw -(take_drop 7 vs). simpl in Hvs.
  rw entry_block; [|rw length_take; lia]. iDestruct "Ha" as "(Hn & Hpad & Hold)".
  iApply wp_bind. rw /memmove. iApply wp_bind.
  iApply (wp_load with "Hev"); [lia|rw /ev_name; lia|]. iIntros "Hev".
  iApply (wp_store with "Hold"); [lia|rw length_drop; lia|]. iIntros "Hnew".
  iApply wp_bind. iApply (wp_queue_enqueue _ _ nxt ev with "Hq [Hn Hpad Hnew Htok]").
  { iFrame "Hn". iSplit; [done|]. iFrame. iPureIntro. rw length_take. lia. }
  iIntros "Hq".
  rw (_ : Z.of_nat (length pre) + (ev_name + (Z.of_nat (length ev) - 16)) = Z.of_nat (length (pre ++ ev)));
    [|rw length_app /ev_name; lia].
  rw (_ : s32 (count + 1) = count + 1); [|apply swrap_small; [done|rw /=; simpl length in Hc2; lia]].
  rw app_assoc. iApply (IH with "Hq [Hpre Hev Hrest]"); [simpl in Hf; lia|done|lia|simpl length in Hc2; lia| |].
  - rw -app_assoc !bytes_app Z.add_0_l. iFrame "Hpre Hrest".
    by rw -{2}(Z.add_0_r (Z.of_nat (length pre))) bytes_shift.
  - iIntros "Hq Hb". rw -(app_assoc queue) -(app_assoc pre) /=.
    rw (_ : count + 1 + Z.of_nat (length evs) = count + Z.of_nat (S (length evs))); [|lia].
    iApply ("HΦ" with "Hq Hb").
Qed.

(** A line for the events, if there are any. *)
Definition queued (es : list event) : list line :=
  match es with [] => [] | _ => [EventsQueued (Z.of_nat (length es))] end.

Lemma wp_read_events (fuel : nat) (q buffer : Z) (es : list event) (old : list Z) (Φ : list line * Z → hprop) :
  memory_left → 0 < buffer → (length es < fuel)%nat → Forall size_ok es →
  (length (data es) ≤ length old)%nat → Z.of_nat (length old) < 2 ^ 31 →
  queue_at q [] -∗ bytes buffer 0 old -∗
  (∀ new, ⌜length new = length old⌝ -∗ queue_at q (event_bytes <$> es) -∗ bytes buffer 0 new -∗
    Φ (queued es, Z.of_nat (length es))) -∗
  wp (read_events fuel q buffer (Some (data es))) Φ.
Proof.
  iIntros (Hleft Hbuf Hf Hok Hl Hmax) "Hq Hb HΦ". rw /read_events. pose proof (events_length es) as Hlen.
  iDestruct (bytes_take _ _ (length (data es)) with "Hb") as "[Hb Hrest]"; [done|].
  iApply wp_bind. iApply (wp_store with "Hb"); [lia|rw length_take; lia|]. iIntros "Hb".
  iAssert (∃ new, ⌜length new = length old ∧ new = data es ++ drop (length (data es)) old⌝)%I as "(%new & %Hnew & %E)".
  { iPureIntro. eexists. split; [|done]. rw length_app length_drop. lia. }
  destruct es as [|e es].
  - iApply wp_ret. iApply ("HΦ" $! old with "[//] Hq"). simpl. by rw drop_0.
  - change (length (e :: es)) with (S (length es)) in Hlen. rw (proj2 (Z.leb_gt _ _)); [|lia]. iApply wp_bind.
    iApply (wp_read_loop fuel q buffer 0 [] (event_bytes <$> e :: es) with "Hq Hb");
      [done|done|by rw length_fmap|by apply whole_events|lia|rw length_fmap; simpl length; lia|].
    iIntros "Hq Hb". iApply wp_ret. rw length_fmap. iApply ("HΦ" $! new with "[//] Hq"). rw E.
    iApply bytes_app. iFrame "Hb Hrest".
Qed.

(** ** Handling *)

Lemma wp_handle_events (names fuel : nat) (wi q n : Z) (es : list event) (Φ : list line → hprop) :
  (length es < fuel)%nat → Forall (λ e, event_ok e ∧ size_ok e ∧ (length (e_name e) < names)%nat) es →
  - 2 ^ 31 + Z.of_nat (length es) < n < 2 ^ 31 →
  queue_at q (event_bytes <$> es) -∗ items wi n -∗
  (queue_at q [] -∗ items wi (left_after n es) -∗ Φ (reports n es)) -∗ wp (handle_events wi names fuel q) Φ.
Proof.
  revert n es Φ. induction fuel as [|fuel IH]; iIntros (n es Φ Hf Hok Hn) "Hq Hw HΦ"; [lia|]. cbn [handle_events].
  iApply wp_bind. iApply (wp_queue_empty with "Hq"). iIntros "Hq". destruct es as [|e es]; cbn [fmap list_fmap].
  { iApply wp_ret. iApply ("HΦ" with "Hq Hw"). }
  apply Forall_cons in Hok as [(Hev & Hs & Hnm) Hok]. simpl length in Hf, Hn.
  iApply wp_bind. iApply (wp_queue_dequeue with "Hq"). iIntros (d) "Hq [Hn (%Hd & Hp & Hev & Htok)]". simpl in Hd |- *.
  iApply wp_bind. iApply (wp_handle_event with "Hw Hev"); [done|done|done|done|lia|]. iIntros "Hw Hev".
  iApply wp_bind. iApply (wp_free_entry d 0 (event_bytes e) with "[Hn Hp Hev Htok]"); [by iFrame|].
  iApply wp_bind. iApply (IH with "Hq Hw"); [lia|done|rw /after; destruct (kind e =? IN_IGNORED); lia|].
  iIntros "Hq Hw". iApply wp_ret. iApply ("HΦ" with "Hq Hw").
Qed.

(** ** The program *)

Lemma round_events (size : nat) (es : list event) :
  Z.of_nat size ≤ 16384 → round_ok size (Delivers es) →
  Forall size_ok es ∧ Forall (λ e, event_ok e ∧ size_ok e ∧ (length (e_name e) < S size)%nat) es.
Proof.
  intros Hmax [Hok Hl]. assert (Forall (λ e, (length (event_bytes e) ≤ size)%nat) es) as Hs.
  { clear Hok. revert Hl. induction es as [|e es IH]; intros Hl; [done|]. rw data_cons length_app in Hl.
    apply Forall_cons. split; [lia|]. apply IH. lia. }
  split; [|apply Forall_and; split; [done|]]; apply (Forall_impl _ _ _ Hs); intros e He; rw event_length in He;
    unfold size_ok; lia.
Qed.

Lemma wp_process_inotify_events (fuel : nat) (wi q buffer n : Z) (rs : list round) (old : list Z) (Φ : list line → hprop) :
  memory_left → 0 < buffer → Z.of_nat (length old) ≤ 16384 → (length old < fuel)%nat →
  Forall (round_ok (length old)) rs → n < 2 ^ 31 →
  queue_at q [] -∗ items wi n -∗ bytes buffer 0 old -∗
  (∀ n' new, ⌜length new = length old⌝ -∗ queue_at q [] -∗ items wi n' -∗ bytes buffer 0 new -∗ Φ (watching n rs)) -∗
  wp (process_inotify_events wi fuel q buffer (input <$> rs)) Φ.
Proof.
  intros Hleft Hbuf Hmax Hf. remember (length old) as size eqn:Es.
  revert n old Es Φ. induction rs as [|r rs IH]; iIntros (n old Es Φ Hok Hn) "Hq [%Hwi Hw] Hb HΦ";
    cbn [process_inotify_events fmap list_fmap].
  { iApply wp_ret. by iApply ("HΦ" $! n old with "[] Hq [$Hw] Hb"). }
  apply Forall_cons in Hok as [Hr Hok]. destruct (input r) as [ready bytes] eqn:Er.
  iApply wp_bind. iApply (wp_ld with "Hw"); [lia|]. iIntros "Hw". cbn [watching].
  destruct (Z.ltb_spec 0 n) as [Hpos|_].
  2: { iApply wp_ret. by iApply ("HΦ" $! n old with "[] Hq [$Hw] Hb"). }
  destruct r as [| |es]; injection Er as <- <-; cbn [Z.ltb Z.compare].
  - by iApply (IH n old with "Hq [$Hw] Hb").
  - iApply wp_bind. iApply wp_ret. iApply wp_ret. by iApply ("HΦ" $! n old with "[] Hq [$Hw] Hb").
  - destruct (round_events _ _ Hmax Hr) as [Hs Hes]. destruct Hr as [Hev Hl]. pose proof (events_length es) as Hlen.
    pose proof (left_after_bound n es).
    iApply wp_bind. iApply (wp_read_events fuel q buffer es old with "Hq Hb"); [done|done|lia|done|lia|lia|].
    iIntros (new Hnew) "Hq Hb". rw (proj2 (Z.ltb_ge _ _)); [|lia].
    iApply wp_bind. iApply (wp_handle_events fuel fuel wi q n with "Hq [$Hw //]"); [lia| |lia|].
    { apply (Forall_impl _ _ _ Hes). intros e (? & ? & ?). split_and!; [done|done|lia]. }
    iIntros "Hq Hw". iApply wp_bind. iApply (IH with "Hq Hw Hb"); [congruence|done|lia|].
    iIntros (n' new' Hnew') "Hq Hw Hb". iApply wp_ret. iApply ("HΦ" $! n' new' with "[//] Hq Hw Hb").
Qed.

Lemma wp_watch_loop (wi n wd : Z) (args : list (string * Z)) (Φ : list line * Z → hprop) :
  0 ≤ wd → 0 ≤ n → n + Z.of_nat (length args) < 2 ^ 31 →
  items wi n -∗
  (∀ n', ⌜n' < 2 ^ 31⌝ -∗ ⌜n' = (watched n wd args).1.2⌝ -∗ items wi n' -∗ Φ ((watched n wd args).1.1, (watched n wd args).2)) -∗
  wp (watch_loop wi args wd) Φ.
Proof.
  revert n wd Φ. induction args as [|[name a] args IH]; iIntros (n wd Φ Hwd Hn Hl) "[%Hwi Hw] HΦ"; cbn [watch_loop watched].
  { iApply wp_ret. iApply ("HΦ" $! n with "[] [//] [$Hw //]"). simpl in Hl. iPureIntro. lia. }
  simpl length in Hl. rw (proj2 (Z.leb_le 0 wd)) //. iApply wp_bind. rw /watch_dir.
  destruct (Z.ltb_spec a 0) as [Ha|Ha].
  - iApply wp_ret. iApply wp_bind. destruct args as [|[name' a'] args]; cbn [watch_loop].
    2: rw (proj2 (Z.leb_gt 0 a)) //.
    all: iApply wp_ret; iApply wp_ret; iApply ("HΦ" $! n with "[] [//] [$Hw //]"); iPureIntro; lia.
  - iApply wp_bind. iApply (wp_ld with "Hw"); [lia|]. iIntros "Hw".
    iApply wp_bind. iApply (wp_st with "Hw"); [lia|]. iIntros "Hw".
    iApply wp_bind. iApply (wp_ld with "Hw"); [lia|]. iIntros "Hw". iApply wp_ret.
    rw (_ : s32 (n + 1) = n + 1); [|apply swrap_small; [done|lia]].
    iApply wp_bind. iApply (IH (n + 1) a with "[$Hw //]"); [done|lia|lia|]. iIntros (n' Hn' E) "Hw". iApply wp_ret.
    destruct (watched (n + 1) a args) as [[ls n1] wd1]. iApply ("HΦ" with "[//] [//] Hw").
Qed.

Lemma wp_close (wi n r : Z) (Φ : list line → hprop) :
  items wi n -∗ (items wi 0 -∗ Φ (if r <? 0 then [Perror "close (fd) = "] else [])) -∗ wp (close_inotify_fd wi r) Φ.
Proof.
  iIntros "[%Hwi Hw] HΦ". iApply wp_bind. iApply (wp_st with "Hw"); [lia|]. iIntros "Hw". iApply wp_ret.
  iApply "HΦ". by iFrame.
Qed.

Lemma wp_main (fuel : nat) (wi buffer fd n0 closed : Z) (args : list (string * Z)) (rs : list round) (old : list Z) :
  memory_left → 0 < wi → 0 < buffer → Z.of_nat (length old) ≤ 16384 → (length old < fuel)%nat →
  Z.of_nat (length args) < 2 ^ 31 → Forall (round_ok (length old)) rs →
  fld wi 0 n0 -∗ array buffer 1 old -∗
  wp (main wi fuel buffer fd args (input <$> rs) closed) (λ o, ⌜o = Done (transcript fd args rs closed)⌝ ∗
    fld wi 0 0 ∗ ∃ new, ⌜length new = length old⌝ ∗ array buffer 1 new).
Proof.
  iIntros (Hleft Hwi Hbuf Hmax Hf Hargs Hok) "Hw Hb". rw /main /transcript /xbind /call.
  iApply wp_bind. iApply wp_bind. iApply wp_bind. iApply (wp_st with "Hw"); [lia|]. iIntros "Hw".
  iApply wp_ret. iApply wp_ret. destruct (Z.ltb_spec 0 fd) as [Hfd|Hfd].
  2: { iApply wp_ret. iSplit; [done|]. iFrame. done. }
  iAssert (items wi 0) with "[$Hw //]" as "Hw". rw (proj2 (Z.ltb_ge fd 0)); [|lia].
  iApply wp_bind. iApply wp_queue_create; [done|]. iIntros (q) "Hq".
  iApply wp_bind. iApply wp_bind. iApply (wp_watch_loop with "Hw"); [done|done|lia|]. iIntros (n Hn En) "Hw". iApply wp_ret.
  destruct (watched 0 0 args) as [[ls n1] wd]. simpl in En. subst n1. simpl.
  iApply wp_bind. iApply wp_bind.
  iApply (wp_wand _ (λ ls3, ⌜ls3 = if 0 <? wd then watching n rs else []⌝ ∗ queue_at q [] ∗
    (∃ n', items wi n') ∗ ∃ new, ⌜length new = length old⌝ ∗ bytes buffer 0 new)%I with "[Hq Hw Hb]").
  { destruct (0 <? wd).
    - iApply (wp_process_inotify_events with "Hq Hw [Hb]"); [done..|by rw /bytes Z.add_0_r|].
      iIntros (n' new Hnew) "Hq Hw Hb". iFrame. done.
    - iApply wp_ret. iFrame. rw /bytes Z.add_0_r. by iFrame. }
  iIntros (ls3) "(-> & Hq & (%n' & Hw) & %new & %Hnew & Hb)". iApply wp_ret.
  iApply wp_bind. iApply wp_bind. iApply (wp_close with "Hw"). iIntros "[_ Hw]". iApply wp_ret.
  iApply wp_bind. iApply wp_bind. iApply (wp_queue_destroy with "Hq"); [simpl; lia|]. iApply wp_ret. iApply wp_ret.
  iSplit; [done|]. iFrame "Hw". iExists new. rw /bytes Z.add_0_r. by iFrame.
Qed.
End memory.

(** C13: while there is memory, the program prints exactly the transcript: the
    names that could be watched, then for every round of events their number and
    each of them once, in the order of the kernel, with its label, name, watch
    descriptor, cookie and unknown flags, until a [read] fails, the signal comes, or
    the last watched item has been reported as ignored.  It returns, and the queue
    and its entries have been freed exactly once: the memory is as before but
    for the static variable and the buffer of [read_events]. *)
Theorem main_transcript `{HM : Malloc} (fuel : nat) (wi buffer fd n0 closed : Z) (args : list (string * Z))
    (rs : list round) (old : list Z) :
  memory_left → 0 < wi → 0 < buffer → Z.of_nat (length old) ≤ 16384 → (length old < fuel)%nat →
  Z.of_nat (length args) < 2 ^ 31 → Forall (round_ok (length old)) rs →
  triple (fp_cell wi 0 n0 ⊗ fp_array buffer old) (main wi fuel buffer fd args (input <$> rs) closed) (λ o,
    fp_pure (o = Done (transcript fd args rs closed)) ⊗ fp_cell wi 0 0 ⊗
    fp_ex (λ new, fp_pure (length new = length old) ⊗ fp_array buffer new)).
Proof.
  intros Hleft Hwi Hbuf Hmax Hf Hargs Hok. apply (wp_triple (A := outcome (list line))).
  exists (fld wi 0 n0 ∗ array buffer 1 old)%I, (λ o, ⌜o = Done (transcript fd args rs closed)⌝ ∗ fld wi 0 0 ∗
    ∃ new, ⌜length new = length old⌝ ∗ array buffer 1 new)%I.
  split_and!; [apply _|intros o; apply _|]. iIntros "[H1 H2]". by iApply (wp_main with "H1 H2").
Qed.

(** ** A run *)

(** A file is created in the first directory, which is then removed. *)
Definition created : event := Ev 1 0x100 0 [97; 46; 99] 1.
Definition moved : event := Ev 1 0x40000040 77 [98] 3.
Definition gone : event := Ev 1 0x8000 0 [] 0.
Definition sample_args : list (string * Z) := [("one", 1)].
Definition sample_rounds : list round := [Delivers [created; moved]; Quiet; Delivers [gone]; Delivers [created]].
Definition sample_cells : list (Z * Z) := (80, 5) :: imap (λ i v, (100 + Z.of_nat i, v)) (replicate 40 0).

Lemma sample_cells_fp : (fp_cell 80 0 5 ⊗ fp_array 100 (replicate 40 0)) sample_cells.
Proof. unfold sample_cells. simpl. fp_build. done. Qed.

Lemma main_transcript_witness :
  let result := [Newline; Watching "one" 1; Watched 1; EventsQueued 2;
    Happened "CREATE" "File" (Some [97; 46; 99]) 1 None; Happened "MOVED_FROM" "Dir" (Some [98]) 1 (Some 77);
    EventsQueued 1; Ignored 1; Watched 0; Terminating] in
  (fst <$> main (HM := bump) 80 41 100 3 sample_args (input <$> sample_rounds) 0 (list_to_map sample_cells) = Some (Done result)) ∧
  ∃ o m' cs', main (HM := bump) 80 41 100 3 sample_args (input <$> sample_rounds) 0 (list_to_map sample_cells) = Some (o, m') ∧
    (fp_pure (o = Done result) ⊗ fp_cell 80 0 0 ⊗ fp_ex (λ new, fp_pure (length new = 40%nat) ⊗ fp_array 100 new)) cs' ∧
    holds m' cs' ∧ outside cs' m' = ∅.
Proof.
  intros result. split; [vm_compute; reflexivity|].
  refine (main_transcript (HM := bump) 41 80 100 3 5 0 sample_args sample_rounds (replicate 40 0)
    _ _ _ _ _ _ _ (list_to_map sample_cells) sample_cells sample_cells_fp _).
  - done.
  - done.
  - done.
  - done.
  - vm_compute. lia.
  - done.
  - assert (event_ok created ∧ event_ok moved ∧ event_ok gone) as (H1 & H2 & H3).
    { unfold event_ok. simpl. split_and!; try lia; repeat constructor; try lia; done. }
    repeat constructor; try done; vm_compute; lia.
  - apply holds_list_to_map. vm_compute. reflexivity.
Defined.
