(* ===== verification/HashTable.v ===== *)
(** * The chained hash table (hash/hash.c)

    The functions of hash.c, which reach the keys through the function pointers
    of their table only, and their specifications against the interface [Keys]:
    what the four functions promise about a key in memory.  A table holds a list
    of pairs of a key and a record, the last inserted first; a row of it is the
    part of the list with its bucket. *)

From iris.proofmode Require Import proofmode.
From S2P Require Import Prelude WordMem WordExit.

(** ** The code *)

(** [struct node_tag], [hash_type] *)
Definition next : Z := 0.
Definition key : Z := 8.
Definition rec : Z := 16.
Definition compare : Z := 0.
Definition hash : Z := 8.
Definition copy_key : Z := 16.
Definition delete_key : Z := 24.
Definition table : Z := 32.
Definition size : Z := 40.

Definition HASH_STATUS_OK : Z := 0.
Definition HASH_STATUS_KEY_NOT_FOUND : Z := 2.

(** The functions at the addresses of the program. *)
Class Functions := {
  compare_fn : Z → Z → Z → M Z;
  hash_fn : Z → Z → M Z;
  copy_fn : Z → Z → X Z;
  delete_fn : Z → Z → M unit;
}.

Definition row (tbl i : Z) : Z := tbl + 8 * i.

Section code.
Context `{HM : Malloc} `{HF : Functions}.

Definition bucket_of (h k : Z) : M Z := f ← ld h hash; hash_fn f k.

Definition hash_insert (h k r : Z) : X Z :=
  bucket <~ call (bucket_of h k);
  p <~ xmalloc 8 3;
  p0 <~ call (tbl ← ld h table; ld (row tbl bucket) 0);
  call (tbl ← ld h table; st (row tbl bucket) 0 p) ;~
  call (st p next p0) ;~
  f <~ call (ld h copy_key); c <~ copy_fn f k;
  call (st p key c) ;~ call (st p rec r) ;~ xret HASH_STATUS_OK.

(** The node before the first node with the key, and this node. *)
Fixpoint delete_loop (fuel : nat) (h k p0 p : Z) : M (Z * Z) :=
  match fuel with
  | O => undefined
  | S fuel =>
    if p =? 0 then mret (p0, p)
    else
      f ← ld h compare; pk ← ld p key; r ← compare_fn f pk k;
      if r =? 0 then n ← ld p next; delete_loop fuel h k p n else mret (p0, p)
  end.

Definition hash_delete (fuel : nat) (h k : Z) : M Z :=
  bucket ← bucket_of h k;
  tbl ← ld h table; p ← ld (row tbl bucket) 0;
  '(p0, p) ← delete_loop fuel h k 0 p;
  if p =? 0 then mret HASH_STATUS_KEY_NOT_FOUND
  else
    (if negb (p0 =? 0) then n ← ld p next; st p0 next n
     else tbl ← ld h table; n ← ld p next; st (row tbl bucket) 0 n);;
    f ← ld h delete_key; pk ← ld p key; delete_fn f pk;; free 8 p;; mret HASH_STATUS_OK.

Fixpoint find_loop (fuel : nat) (h k p : Z) : M Z :=
  match fuel with
  | O => undefined
  | S fuel =>
    if p =? 0 then mret p
    else
      f ← ld h compare; pk ← ld p key; r ← compare_fn f pk k;
      if r =? 0 then n ← ld p next; find_loop fuel h k n else mret p
  end.

(** The status, and what is stored in [*rec]. *)
Definition hash_find (fuel : nat) (h k : Z) : M (Z * option Z) :=
  tbl ← ld h table; bucket ← bucket_of h k; p ← ld (row tbl bucket) 0;
  p ← find_loop fuel h k p;
  if p =? 0 then mret (HASH_STATUS_KEY_NOT_FOUND, None) else r ← ld p rec; mret (HASH_STATUS_OK, Some r).

Fixpoint row_loop (fuel : nat) (h i : Z) : M Z :=
  match fuel with
  | O => undefined
  | S fuel =>
    n ← ld h size;
    if i <? n then tbl ← ld h table; x ← ld (row tbl i) 0; if x =? 0 then row_loop fuel h (i + 1) else mret i
    else mret i
  end.

(** The status, and the new [*ppnode]. *)
Definition hash_next_item (fuel : nat) (h pnode : Z) : M (Z * Z) :=
  x ← (if negb (pnode =? 0) then ld pnode next else mret 0);
  if negb (x =? 0) then mret (HASH_STATUS_OK, x)
  else
    i ← (if negb (pnode =? 0) then pk ← ld pnode key; b ← bucket_of h pk; mret (b + 1) else mret 0);
    i ← row_loop fuel h i;
    n ← ld h size;
    if i =? n then mret (HASH_STATUS_KEY_NOT_FOUND, 0)
    else tbl ← ld h table; x ← ld (row tbl i) 0; mret (HASH_STATUS_OK, x).

Fixpoint delete_chain (fuel : nat) (h n : Z) : M unit :=
  match fuel with
  | O => undefined
  | S fuel =>
    if n =? 0 then mret tt
    else
      nn ← ld n next; f ← ld h delete_key; k ← ld n key; delete_fn f k;; free 8 n;; delete_chain fuel h nn
  end.

Fixpoint delete_rows (fuel : nat) (n : nat) (h i : Z) : M unit :=
  match n with
  | O => mret tt
  | S n =>
    tbl ← ld h table; x ← ld (row tbl i) 0; delete_chain fuel h x;;
    tbl ← ld h table; st (row tbl i) 0 0;; delete_rows fuel n h (i + 1)
  end.

Definition hash_delete_all (fuel : nat) (h : Z) : M unit :=
  n ← ld h size; delete_rows fuel (Z.to_nat n) h 0.

Definition hash_initialise (h : Z) : X Z :=
  n <~ call (ld h size); t <~ xcalloc 8 (Z.to_nat n); call (st h table t) ;~ xret HASH_STATUS_OK.

Definition hash_destroy (h : Z) : M Z := t ← ld h table; free 8 t;; mret HASH_STATUS_OK.

End code.

(** ** The interface of the keys *)

(** [key_at p k]: the key [k] is at [p]; [own_key]: and it is a block of its own.
    The four functions are at the addresses of the interface. *)
Class Keys `{HM : Malloc} `{HF : Functions} (K : Type) `{!EqDecision K} := {
  key_at : Z → K → hprop;
  own_key : Z → K → hprop;
  rows_of_keys : Z;
  bucket : K → Z;
  compare_addr : Z;
  hash_addr : Z;
  copy_addr : Z;
  delete_addr : Z;
  own_key_at p k : own_key p k -∗ key_at p k ∗ (key_at p k -∗ own_key p k);
  bucket_range p k : key_at p k -∗ ⌈0 ≤ bucket k < rows_of_keys⌉;
  wp_compare p q k l (Φ : Z → hprop) :
    key_at p k -∗ key_at q l -∗ (∀ r, ⌜r = 0 ↔ k ≠ l⌝ -∗ key_at p k -∗ key_at q l -∗ Φ r) -∗
    wp (compare_fn compare_addr p q) Φ;
  wp_hash p k (Φ : Z → hprop) :
    key_at p k -∗ (key_at p k -∗ Φ (bucket k)) -∗ wp (hash_fn hash_addr p) Φ;
  xwp_copy p k (Φ : Z → hprop) :
    key_at p k -∗ (∀ q, key_at p k -∗ own_key q k -∗ Φ q) -∗ xwp (copy_fn copy_addr p) Φ;
  wp_delete p k (Φ : unit → hprop) : own_key p k -∗ Φ tt -∗ wp (delete_fn delete_addr p) Φ;
}.

(** ** The abstract table *)

Section abstract.
Context {K : Type} `{!EqDecision K}.

Fixpoint lookup_first (k : K) (l : list (K * Z)) : option Z :=
  match l with [] => None | (k', r) :: l => if decide (k' = k) then Some r else lookup_first k l end.
Fixpoint remove_first (k : K) (l : list (K * Z)) : list (K * Z) :=
  match l with [] => [] | (k', r) :: l => if decide (k' = k) then l else (k', r) :: remove_first k l end.

(** The part of the list in a bucket. *)
Definition in_bucket (b : K → Z) (i : Z) (l : list (K * Z)) : list (K * Z) := filter (λ x, b x.1 = i) l.

Lemma lookup_first_bucket (b : K → Z) (k : K) (l : list (K * Z)) :
  lookup_first k (in_bucket b (b k) l) = lookup_first k l.
Proof.
  unfold in_bucket. induction l as [|[k' r] l IH]; [done|]. rw filter_cons /=. destruct (decide (k' = k)) as [->|Hne].
  - by rw decide_True //= ?decide_True.
  - destruct (decide (b k' = b k)); [simpl; by rw decide_False|done].
Qed.

Lemma remove_first_bucket (b : K → Z) (k : K) (l : list (K * Z)) :
  in_bucket b (b k) (remove_first k l) = remove_first k (in_bucket b (b k) l).
Proof.
  unfold in_bucket. induction l as [|[k' r] l IH]; [done|]. rw /= filter_cons /=. destruct (decide (k' = k)) as [->|Hne].
  - by rw decide_True //= ?decide_True.
  - rw filter_cons /=. destruct (decide (b k' = b k)); [simpl; by rw decide_False // IH|done].
Qed.

Lemma remove_first_other (b : K → Z) (k : K) (i : Z) (l : list (K * Z)) :
  i ≠ b k → in_bucket b i (remove_first k l) = in_bucket b i l.
Proof.
  intros Hi. unfold in_bucket. induction l as [|[k' r] l IH]; [done|]. rw /= filter_cons /=.
  destruct (decide (k' = k)) as [->|Hne].
  - rw decide_False //.
  - rw filter_cons /=. destruct (decide (b k' = i)); [by rw IH|done].
Qed.

(** The first pair with the key, and those before it. *)
Lemma remove_first_split (k : K) (xs ys : list (K * Z)) (r : Z) :
  (k ∉ xs.*1) → remove_first k (xs ++ (k, r) :: ys) = xs ++ ys ∧ lookup_first k (xs ++ (k, r) :: ys) = Some r.
Proof.
  induction xs as [|[k' r'] xs IH]; intros Hk; simpl.
  - by rw !decide_True.
  - apply not_elem_of_cons in Hk as [Hne Hk]. simpl in Hne. rw !decide_False; [|congruence..].
    destruct (IH Hk) as [-> ->]. done.
Qed.

Lemma first_none (k : K) (xs : list (K * Z)) : (k ∉ xs.*1) → remove_first k xs = xs ∧ lookup_first k xs = None.
Proof.
  induction xs as [|[k' r'] xs IH]; intros Hk; simpl; [done|].
  apply not_elem_of_cons in Hk as [Hne Hk]. simpl in Hne. rw !decide_False; [|congruence..].
  destruct (IH Hk) as [-> ->]. done.
Qed.

End abstract.

(** ** In memory *)

Section memory.
Context `{HM : Malloc} `{HF : Functions} {K : Type} `{!EqDecision K} `{HK : !Keys K}.

Definition hnode : Type := Z * (K * Z).

Definition node (x : hnode) (nxt : Z) : hprop :=
  ⌜0 < x.1⌝ ∗ fld x.1 next nxt ∗ (∃ kp, fld x.1 key kp ∗ own_key kp x.2.1) ∗ fld x.1 rec x.2.2 ∗ token x.1 3.

Fixpoint seg (h : Z) (ns : list hnode) (e : Z) : hprop :=
  match ns with [] => ⌜h = e⌝ | x :: ns => ⌜h = x.1⌝ ∗ ∃ n, node x n ∗ seg n ns e end.

Lemma hseg_app (h : Z) (xs ys : list hnode) (e : Z) : seg h (xs ++ ys) e ⊣⊢ ∃ m, seg h xs m ∗ seg m ys e.
Proof.
  revert h. induction xs as [|x xs IH]; intros h; simpl.
  - iSplit; [iIntros "H"; iExists h; by iFrame|by iIntros "(%m & -> & $)"].
  - iSplit.
    + iIntros "(-> & %n & Hx & H)". rw IH. iDestruct "H" as "(%m & H1 & H2)". iExists m. by iFrame.
    + iIntros "(%m & (-> & %n & Hx & H1) & H2)". iSplit; [done|]. iExists n. iFrame "Hx". rw IH. iExists m. iFrame.
Qed.

Lemma seg_first (h : Z) (ns : list hnode) :
  seg h ns 0 -∗ ⌜match ns with [] => h = 0 | x :: _ => h = x.1 ∧ 0 < h end⌝ ∗ seg h ns 0.
Proof.
  iIntros "H". destruct ns as [|x ns]; simpl; [iDestruct "H" as "->"; auto|].
  iDestruct "H" as "(-> & %n & (%Hx & H1) & H2)". iSplit; [done|]. iSplit; [done|]. iExists n. by iFrame.
Qed.

Definition first_of (ns : list hnode) : Z := match ns with [] => 0 | x :: _ => x.1 end.
Definition last_or (p : Z) (ns : list hnode) : Z := match last ns with Some x => x.1 | None => p end.

Definition fixed (h tbl : Z) : hprop :=
  ⌜0 < h ∧ 0 < tbl⌝ ∗ fld h compare compare_addr ∗ fld h hash hash_addr ∗ fld h copy_key copy_addr ∗
  fld h delete_key delete_addr ∗ fld h table tbl ∗ fld h size rows_of_keys.

Definition row_at (tbl : Z) (i : nat) (ns : list hnode) : hprop :=
  ∃ h, fld (row tbl (Z.of_nat i)) 0 h ∗ seg h ns 0.

Definition rows_ok (l : list (K * Z)) (rows : list (list hnode)) : Prop :=
  Z.of_nat (length rows) = rows_of_keys ∧ Forall (λ x, 0 ≤ bucket x.1 < rows_of_keys) l ∧
  ∀ i ns, rows !! i = Some ns → ns.*2 = in_bucket bucket (Z.of_nat i) l.

Definition table_at (h : Z) (l : list (K * Z)) : hprop :=
  ∃ tbl rows, ⌜rows_ok l rows⌝ ∗ fixed h tbl ∗ ([∗ list] i ↦ ns ∈ rows, row_at tbl i ns) ∗ token tbl (length rows).

Lemma wp_bucket_of (h tbl kp : Z) (k : K) (Φ : Z → hprop) :
  fixed h tbl -∗ key_at kp k -∗ (fixed h tbl -∗ key_at kp k -∗ Φ (bucket k)) -∗ wp (bucket_of h kp) Φ.
Proof.
  iIntros "(%Hh & Hcmp & Hhash & Hfix) Hk HΦ". iApply wp_bind. iApply (wp_ld with "Hhash"); [lia|]. iIntros "Hhash".
  iApply (wp_hash with "Hk"). iApply "HΦ". by iFrame.
Qed.

(** The row of a key, and what goes back in its place. *)
Lemma hash_row_acc (tbl : Z) (l : list (K * Z)) (rows : list (list hnode)) (k : K) :
  rows_ok l rows → 0 ≤ bucket k < rows_of_keys →
  ([∗ list] i ↦ ns ∈ rows, row_at tbl i ns) -∗
  ∃ h ns, ⌜rows !! Z.to_nat (bucket k) = Some ns ∧ ns.*2 = in_bucket bucket (bucket k) l⌝ ∗
    fld (row tbl (bucket k)) 0 h ∗ seg h ns 0 ∗
    (∀ h' ns', fld (row tbl (bucket k)) 0 h' -∗ seg h' ns' 0 -∗
      [∗ list] i ↦ ns ∈ <[Z.to_nat (bucket k) := ns']> rows, row_at tbl i ns).
Proof.
  iIntros ((Hlen & _ & Hr) Hb) "H".
  destruct (lookup_lt_is_Some_2 rows (Z.to_nat (bucket k))) as [ns Hns]; [lia|].
  iDestruct (big_sepL_insert_acc with "H") as "[Hrow H]"; [done|].
  iDestruct "Hrow" as "(%h & Hh & Hns)". iExists h, ns. pose proof (Hr _ _ Hns) as E.
  rw Z2Nat.id in E |- *; [|lia..]. iFrame. iSplit; [done|]. iIntros (h' ns') "Hh Hns". iApply "H". iExists h'.
  rw Z2Nat.id; [|lia]. iFrame.
Qed.

Lemma rows_ok_update (l l' : list (K * Z)) (rows : list (list hnode)) (k : K) (ns : list hnode) :
  rows_ok l rows → 0 ≤ bucket k < rows_of_keys → Forall (λ x, 0 ≤ bucket x.1 < rows_of_keys) l' →
  ns.*2 = in_bucket bucket (bucket k) l' → (∀ i, i ≠ bucket k → in_bucket bucket i l' = in_bucket bucket i l) →
  rows_ok l' (<[Z.to_nat (bucket k) := ns]> rows).
Proof.
  intros (Hlen & _ & Hr) Hb Hf Hns Ho. split_and!; [by rw length_insert|done|].
  intros i ms [(<- & -> & _)|(Hne & Hms)]%list_lookup_insert_Some.
  - rw Z2Nat.id; [done|lia].
  - rw Ho; [by apply Hr|]. lia.
Qed.

Lemma rows_same (rows : list (list hnode)) (i : nat) (ns : list hnode) : rows !! i = Some ns → <[i := ns]> rows = rows.
Proof. apply list_insert_id. Qed.

Lemma row_length (l : list (K * Z)) (ns : list hnode) (k : K) :
  ns.*2 = in_bucket bucket (bucket k) l → (length ns ≤ length l)%nat.
Proof. intros E. rw -(length_fmap snd ns) E. apply length_filter. Qed.

(** ** Searching *)

Lemma wp_key_test {A} (h tbl kp : Z) (x : hnode) (k : K) (nxt : Z) (C : Z → M A) (Φ : A → hprop) :
  fixed h tbl -∗ node x nxt -∗ key_at kp k -∗
  (∀ r, ⌜r = 0 ↔ x.2.1 ≠ k⌝ -∗ fixed h tbl -∗ node x nxt -∗ key_at kp k -∗ wp (C r) Φ) -∗
  wp (f ← ld h compare; pk ← ld x.1 key; r ← compare_fn f pk kp; C r) Φ.
Proof.
  iIntros "(%Hh & Hcmp & Hfix) (%Hx & Hn & (%pk & Hkp & Hk) & Hr) Hkey HΦ".
  iApply wp_bind. iApply (wp_ld with "Hcmp"); [lia|]. iIntros "Hcmp".
  iApply wp_bind. iApply (wp_ld with "Hkp"); [lia|]. iIntros "Hkp".
  iDestruct (own_key_at with "Hk") as "[Hk Hown]".
  iApply wp_bind. iApply (wp_compare with "Hk Hkey"). iIntros (r Hr) "Hk Hkey".
  iApply ("HΦ" with "[//] [Hcmp Hfix] [-Hkey] Hkey"); [by iFrame|]. iSplit; [done|]. iFrame. iApply ("Hown" with "Hk").
Qed.

(** Where a chain is cut: the first node with the key is the first of the rest. *)
Definition cut (k : K) (ns a b : list hnode) : Prop :=
  ns = a ++ b ∧ (k ∉ a.*2.*1) ∧ match b with [] => True | x :: _ => x.2.1 = k end.

Lemma cut_cons (k : K) (x : hnode) (ns a b : list hnode) : x.2.1 ≠ k → cut k ns a b → cut k (x :: ns) (x :: a) b.
Proof. intros Hx (-> & Ha & Hb). split_and!; [done| |done]. simpl. apply not_elem_of_cons. auto. Qed.

Lemma wp_delete_loop (fuel : nat) (h tbl kp p0 p : Z) (k : K) (ns : list hnode) (Φ : Z * Z → hprop) :
  (length ns < fuel)%nat →
  fixed h tbl -∗ seg p ns 0 -∗ key_at kp k -∗
  (∀ a b p', ⌜cut k ns a b⌝ -∗ fixed h tbl -∗ seg p a p' -∗ seg p' b 0 -∗ key_at kp k -∗ Φ (last_or p0 a, p')) -∗
  wp (delete_loop fuel h kp p0 p) Φ.
Proof.
  revert p0 p ns Φ. induction fuel as [|fuel IH]; iIntros (p0 p ns Φ Hf) "Hfix Hns Hk HΦ"; [lia|]. cbn [delete_loop].
  destruct ns as [|x ns].
  { iDestruct "Hns" as "->". iApply wp_ret. iApply ("HΦ" $! [] [] 0 with "[] Hfix [] [] Hk"); [|done|done].
    iPureIntro. split_and!; [done|apply not_elem_of_nil|done]. }
  iDestruct "Hns" as "(-> & %n & Hx & Hns)". iFact (0 < x.1) as Hx; [by iDestruct "Hx" as "[% _]"|].
  rw (proj2 (Z.eqb_neq x.1 0)); [|lia]. iApply (wp_key_test with "Hfix Hx Hk"). iIntros (r Hr) "Hfix Hx Hk".
  case (Z.eqb_spec r 0) as [E|E].
  - iDestruct "Hx" as "(_ & Hn & Hx)". iApply wp_bind. iApply (wp_ld with "Hn"); [lia|]. iIntros "Hn".
    iApply (IH with "Hfix Hns Hk"); [simpl in Hf; lia|]. iIntros (a b p' Hcut) "Hfix Ha Hb Hk".
    rw (_ : last_or x.1 a = last_or p0 (x :: a)); [|rw /last_or last_cons; by destruct (last a)].
    iApply ("HΦ" $! (x :: a) b p' with "[] Hfix [Hn Hx Ha] Hb Hk").
    + iPureIntro. apply cut_cons; [by apply Hr|done].
    + iSplit; [done|]. iExists n. by iFrame.
  - iApply wp_ret. iApply ("HΦ" $! [] (x :: ns) x.1 with "[] Hfix [] [Hx Hns] Hk"); [|done|].
    + iPureIntro. split_and!; [done|apply not_elem_of_nil|]. destruct (decide (x.2.1 = k)); [done|]. by destruct E; apply Hr.
    + iSplit; [done|]. iExists n. iFrame.
Qed.

Lemma wp_hash_find_loop (fuel : nat) (h tbl kp p : Z) (k : K) (ns : list hnode) (Φ : Z → hprop) :
  (length ns < fuel)%nat →
  fixed h tbl -∗ seg p ns 0 -∗ key_at kp k -∗
  (∀ a b p', ⌜cut k ns a b⌝ -∗ fixed h tbl -∗ seg p a p' -∗ seg p' b 0 -∗ key_at kp k -∗ Φ p') -∗
  wp (find_loop fuel h kp p) Φ.
Proof.
  revert p ns Φ. induction fuel as [|fuel IH]; iIntros (p ns Φ Hf) "Hfix Hns Hk HΦ"; [lia|]. cbn [find_loop].
  destruct ns as [|x ns].
  { iDestruct "Hns" as "->". iApply wp_ret. iApply ("HΦ" $! [] [] 0 with "[] Hfix [] [] Hk"); [|done|done].
    iPureIntro. split_and!; [done|apply not_elem_of_nil|done]. }
  iDestruct "Hns" as "(-> & %n & Hx & Hns)". iFact (0 < x.1) as Hx; [by iDestruct "Hx" as "[% _]"|].
  rw (proj2 (Z.eqb_neq x.1 0)); [|lia]. iApply (wp_key_test with "Hfix Hx Hk"). iIntros (r Hr) "Hfix Hx Hk".
  case (Z.eqb_spec r 0) as [E|E].
  - iDestruct "Hx" as "(_ & Hn & Hx)". iApply wp_bind. iApply (wp_ld with "Hn"); [lia|]. iIntros "Hn".
    iApply (IH with "Hfix Hns Hk"); [simpl in Hf; lia|]. iIntros (a b p' Hcut) "Hfix Ha Hb Hk".
    iApply ("HΦ" $! (x :: a) b p' with "[] Hfix [Hn Hx Ha] Hb Hk").
    + iPureIntro. apply cut_cons; [by apply Hr|done].
    + iSplit; [done|]. iExists n. by iFrame.
  - iApply wp_ret. iApply ("HΦ" $! [] (x :: ns) x.1 with "[] Hfix [] [Hx Hns] Hk"); [|done|].
    + iPureIntro. split_and!; [done|apply not_elem_of_nil|]. destruct (decide (x.2.1 = k)); [done|]. by destruct E; apply Hr.
    + iSplit; [done|]. iExists n. iFrame.
Qed.

(** What a cut says of the first pair with the key. *)
Lemma cut_first (l : list (K * Z)) (k : K) (ns a b : list hnode) :
  cut k ns a b → ns.*2 = in_bucket bucket (bucket k) l →
  lookup_first k l = (match b with [] => None | x :: _ => Some x.2.2 end) ∧
  in_bucket bucket (bucket k) (remove_first k l) = (a ++ tail b).*2.
Proof.
  intros (-> & Ha & Hb) E. rw -(lookup_first_bucket bucket) remove_first_bucket -E.
  destruct b as [|[n [k' r]] b]; simpl in Hb |- *.
  - rw app_nil_r. destruct (first_none k a.*2 Ha) as [-> ->]. done.
  - subst k'. rw !fmap_app /=. destruct (remove_first_split k a.*2 b.*2 r Ha) as [E1 E2]. by split.
Qed.

Lemma wp_hash_find (fuel : nat) (h kp : Z) (k : K) (l : list (K * Z)) :
  (length l < fuel)%nat →
  table_at h l -∗ key_at kp k -∗
  wp (hash_find fuel h kp) (λ r,
    ⌜r = match lookup_first k l with Some v => (HASH_STATUS_OK, Some v) | None => (HASH_STATUS_KEY_NOT_FOUND, None) end⌝ ∗
    table_at h l ∗ key_at kp k).
Proof.
  iIntros (Hf) "(%tbl & %rows & %Hr & Hfix & Hrows & Htok) Hk". iPure (bucket_range with "Hk") as Hb.
  iDestruct "Hfix" as "(%Hh & H1 & H2 & H3 & H4 & Ht & H5)". rw /hash_find.
  iApply wp_bind. iApply (wp_ld with "Ht"); [lia|]. iIntros "Ht". iApply wp_bind.
  iApply (wp_bucket_of _ tbl with "[H1 H2 H3 H4 Ht H5] Hk"); [by iFrame|]. iIntros "Hfix Hk".
  iDestruct (hash_row_acc _ _ _ k with "Hrows") as (p ns [Hns E]) "(Hp & Hseg & Hrows)"; [done|done|].
  iApply wp_bind. iApply (wp_ld with "Hp"); [rw /row; lia|]. iIntros "Hp".
  iApply wp_bind. iApply (wp_hash_find_loop with "Hfix Hseg Hk"); [pose proof (row_length _ _ _ E); lia|].
  iIntros (a b p' Hcut) "Hfix Ha Hb Hk". destruct (cut_first l k ns a b Hcut E) as [El _]. rw El.
  destruct Hcut as (-> & _ & _). iDestruct (seg_first with "Hb") as "[%Hp' Hb]".
  iAssert (seg p' b 0 -∗ table_at h l)%I with "[Hfix Hrows Htok Hp Ha]" as "Hback".
  { iIntros "Hb". iExists tbl, rows. iSplit; [done|]. iFrame "Hfix Htok". rw -{2}(rows_same rows _ _ Hns).
    iApply ("Hrows" with "Hp"). rw hseg_app. iExists p'. iFrame. }
  destruct b as [|x b].
  - rw Hp'. iApply wp_ret. iSplit; [done|]. iFrame. by iApply "Hback".
  - destruct Hp' as [-> Hx]. rw (proj2 (Z.eqb_neq x.1 0)); [|lia].
    iDestruct "Hb" as "(_ & %n & (_ & Hn & Hkey & Hrec & Hxt) & Hb)".
    iApply wp_bind. iApply (wp_ld with "Hrec"); [lia|]. iIntros "Hrec". iApply wp_ret. iSplit; [done|]. iFrame "Hk".
    iApply "Hback". iSplit; [done|]. iExists n. by iFrame.
Qed.

(** ** Changing the table *)

Lemma array3 (p a b c : Z) : array p 8 [a; b; c] ⊣⊢ fld p next a ∗ fld p key b ∗ fld p rec c.
Proof.
  rw /= /fld /next /key /rec Z.add_0_r -!Z.add_assoc /=. iSplit; [iIntros "($ & $ & $ & _)"|iIntros "($ & $ & $)"].
Qed.

Lemma in_bucket_cons (k : K) (v i : Z) (l : list (K * Z)) :
  in_bucket bucket i ((k, v) :: l) = if decide (bucket k = i) then (k, v) :: in_bucket bucket i l else in_bucket bucket i l.
Proof. rw /in_bucket filter_cons //. Qed.

Lemma xwp_hash_insert (h kp v : Z) (k : K) (l : list (K * Z)) :
  table_at h l -∗ key_at kp k -∗
  xwp (hash_insert h kp v) (λ r, ⌜r = HASH_STATUS_OK⌝ ∗ table_at h ((k, v) :: l) ∗ key_at kp k).
Proof.
  iIntros "(%tbl & %rows & %Hr & Hfix & Hrows & Htok) Hk". iPure (bucket_range with "Hk") as Hb. rw /hash_insert.
  iApply xwp_bind. iApply xwp_call. iApply (wp_bucket_of with "Hfix Hk"). iIntros "Hfix Hk".
  iDestruct (hash_row_acc _ _ _ k with "Hrows") as (p0 ns [Hns E]) "(Hp & Hseg & Hrows)"; [done|done|].
  iDestruct "Hfix" as "(%Hh & H1 & H2 & H3 & H4 & Ht & H5)". assert (row tbl (bucket k) ≠ 0) as Hrow by (rw /row; lia).
  iApply xwp_bind. iApply xwp_xmalloc; [done|]. iIntros (p vs [Hp0 Hvs]) "Hx Ha".
  destruct vs as [|a [|b [|c []]]]; try done. rw array3. iDestruct "Ha" as "(Hn & Hkey & Hrec)".
  iApply xwp_bind. iApply xwp_call. iApply wp_bind. iApply (wp_ld with "Ht"); [lia|]. iIntros "Ht".
  iApply (wp_ld with "Hp"); [done|]. iIntros "Hp".
  iApply xwp_bind. iApply xwp_call. iApply wp_bind. iApply (wp_ld with "Ht"); [lia|]. iIntros "Ht".
  iApply (wp_st with "Hp"); [done|]. iIntros "Hp".
  iApply xwp_bind. iApply (xwp_st with "Hn"); [lia|]. iIntros "Hn".
  iApply xwp_bind. iApply (xwp_ld with "H3"); [lia|]. iIntros "H3".
  iApply xwp_bind. iApply (xwp_copy with "Hk"). iIntros (q) "Hk Hq".
  iApply xwp_bind. iApply (xwp_st with "Hkey"); [lia|]. iIntros "Hkey".
  iApply xwp_bind. iApply (xwp_st with "Hrec"); [lia|]. iIntros "Hrec". iApply xwp_ret.
  iSplit; [done|]. iFrame "Hk". iExists tbl, (<[Z.to_nat (bucket k) := (p, (k, v)) :: ns]> rows).
  rw length_insert. iFrame. iSplit; [|iSplit; [done|]].
  - iPureIntro. apply (rows_ok_update l); [done|done|apply Forall_cons; split; [done|by apply Hr]| |].
    + by rw in_bucket_cons decide_True // -E.
    + intros i Hi. rw in_bucket_cons decide_False //.
  - iApply ("Hrows" with "Hp"). iSplit; [done|]. iExists p0. by iFrame.
Qed.

Lemma forall_remove (Q : K * Z → Prop) (k : K) (l : list (K * Z)) : Forall Q l → Forall Q (remove_first k l).
Proof.
  induction 1 as [|[k' v] l Hx Hl IH]; simpl; [constructor|]. destruct (decide (k' = k)); [done|by constructor].
Qed.

(** A node is freed, with its key. *)
Lemma wp_free_hnode {A} (h tbl n : Z) (x : hnode) (C : M A) (Φ : A → hprop) :
  fixed h tbl -∗ node x n -∗ (fixed h tbl -∗ wp C Φ) -∗
  wp (f ← ld h delete_key; pk ← ld x.1 key; delete_fn f pk;; free 8 x.1;; C) Φ.
Proof.
  iIntros "(%Hh & H1 & H2 & H3 & H4 & H5) (%Hx & Hn & (%pk & Hkey & Hk) & Hrec & Htok) HΦ".
  iApply wp_bind. iApply (wp_ld with "H4"); [lia|]. iIntros "H4".
  iApply wp_bind. iApply (wp_ld with "Hkey"); [lia|]. iIntros "Hkey".
  iApply wp_bind. iApply (wp_delete with "Hk").
  iApply wp_bind. iApply (wp_free 8 x.1 [n; pk; x.2.2] with "Htok [Hn Hkey Hrec]"); [lia|rw array3; iFrame|].
  iApply "HΦ". by iFrame.
Qed.

Lemma wp_hash_delete (fuel : nat) (h kp : Z) (k : K) (l : list (K * Z)) :
  (length l < fuel)%nat →
  table_at h l -∗ key_at kp k -∗
  wp (hash_delete fuel h kp) (λ r,
    ⌜r = match lookup_first k l with Some _ => HASH_STATUS_OK | None => HASH_STATUS_KEY_NOT_FOUND end⌝ ∗
    table_at h (remove_first k l) ∗ key_at kp k).
Proof.
  iIntros (Hf) "(%tbl & %rows & %Hr & Hfix & Hrows & Htok) Hk". iPure (bucket_range with "Hk") as Hb. rw /hash_delete.
  iApply wp_bind. iApply (wp_bucket_of with "Hfix Hk"). iIntros "Hfix Hk".
  iDestruct (hash_row_acc _ _ _ k with "Hrows") as (p ns [Hns E]) "(Hp & Hseg & Hrows)"; [done|done|].
  iDestruct "Hfix" as "(%Hh & H1 & H2 & H3 & H4 & Ht & H5)". assert (row tbl (bucket k) ≠ 0) as Hrow by (rw /row; lia).
  iApply wp_bind. iApply (wp_ld with "Ht"); [lia|]. iIntros "Ht".
  iApply wp_bind. iApply (wp_ld with "Hp"); [done|]. iIntros "Hp".
  iApply wp_bind. iApply (wp_delete_loop _ _ tbl with "[H1 H2 H3 H4 Ht H5] Hseg Hk");
    [pose proof (row_length _ _ _ E); lia|by iFrame|].
  iIntros (a b p' Hcut) "Hfix Ha Hb Hk". destruct (cut_first l k ns a b Hcut E) as [-> Erm].
  destruct Hcut as (-> & _ & _). iDestruct (seg_first with "Hb") as "[%Hp' Hb]".
  assert (rows_ok (remove_first k l) (<[Z.to_nat (bucket k) := a ++ tail b]> rows)) as Hr'.
  { apply (rows_ok_update l); [done|done|apply forall_remove, Hr|done|]. intros i Hi. by apply remove_first_other. }
  destruct b as [|x b].
  - rw Hp'. iApply wp_ret. iSplit; [done|]. iFrame "Hk". iExists tbl, _. iSplit; [done|]. rw length_insert.
    iFrame "Hfix Htok". iApply ("Hrows" with "Hp"). simpl. by rw app_nil_r.
  - destruct Hp' as [-> Hx]. rw (proj2 (Z.eqb_neq x.1 0)); [|lia].
    iDestruct "Hb" as "(_ & %n & (_ & Hn & Hx) & Hb)".
    iApply wp_bind. iApply (wp_wand _ (λ _, fixed h tbl ∗ node x n ∗
      ∃ p'', fld (row tbl (bucket k)) 0 p'' ∗ seg p'' (a ++ b) 0)%I with "[Hfix Hn Hx Ha Hb Hp]").
    { destruct a as [|y a _] using rev_ind.
      - iDestruct "Ha" as "->". iDestruct "Hfix" as "(_ & H1 & H2 & H3 & H4 & Ht & H5)". simpl negb. cbv iota.
        iApply wp_bind. iApply (wp_ld with "Ht"); [lia|]. iIntros "Ht".
        iApply wp_bind. iApply (wp_ld with "Hn"); [lia|]. iIntros "Hn".
        iApply (wp_st with "Hp"); [done|]. iIntros "Hp". iFrame. done.
      - rw hseg_app. iDestruct "Ha" as "(%m & Ha & -> & %n' & (%Hy & Hyn & Hy') & ->)".
        rw /last_or last_snoc (proj2 (Z.eqb_neq y.1 0)); [|lia]. simpl negb. cbv iota.
        iApply wp_bind. iApply (wp_ld with "Hn"); [lia|]. iIntros "Hn".
        iApply (wp_st with "Hyn"); [lia|]. iIntros "Hyn". iFrame "Hfix Hn Hx". iSplit; [done|]. iExists p. iFrame "Hp".
        rw -(app_assoc a [y] b) hseg_app. iExists y.1. iFrame "Ha". iSplit; [done|]. iExists n. by iFrame. }
    iIntros (_) "(Hfix & Hx & %p'' & Hp & Hseg)". iApply (wp_free_hnode with "Hfix Hx"). iIntros "Hfix". iApply wp_ret.
    iSplit; [done|]. iFrame "Hk". iExists tbl, _. iSplit; [done|]. rw length_insert. iFrame "Hfix Htok".
    iApply ("Hrows" with "Hp Hseg").
Qed.

(** ** Enumeration *)

Definition rows_at (tbl : Z) (rows : list (list hnode)) : hprop := [∗ list] i ↦ ns ∈ rows, row_at tbl i ns.

Lemma wp_row_head (tbl : Z) (i : nat) (rows : list (list hnode)) (ns : list hnode) (Φ : Z → hprop) :
  0 < tbl → rows !! i = Some ns →
  rows_at tbl rows -∗
  (⌜match ns with [] => True | x :: _ => 0 < x.1 end⌝ -∗ rows_at tbl rows -∗ Φ (first_of ns)) -∗
  wp (ld (row tbl (Z.of_nat i)) 0) Φ.
Proof.
  iIntros (Htbl Hns) "Hrows HΦ". iDestruct (big_sepL_lookup_acc with "Hrows") as "[(%p & Hp & Hseg) Hrows]"; [done|].
  iDestruct (seg_first with "Hseg") as "[%Hp Hseg]". iApply (wp_ld with "Hp"); [rw /row; lia|]. iIntros "Hp".
  rw (_ : p = first_of ns); [|by destruct ns; [|destruct Hp]].
  iApply ("HΦ" with "[]"); [iPureIntro; destruct ns; [done|by destruct Hp as [-> ?]]|].
  iApply "Hrows". iExists (first_of ns). iFrame.
Qed.

(** The nodes after the one that the enumeration is at, 0 at the start. *)
Definition position (rows : list (list hnode)) (p : Z) (rest : list hnode) : Prop :=
  p = 0 ∧ rest = concat rows ∨
  ∃ A a x b B, rows = A ++ (a ++ x :: b) :: B ∧ p = x.1 ∧ rest = b ++ concat B.

Lemma hnode_acc (tbl : Z) (A B : list (list hnode)) (a b : list hnode) (x : hnode) :
  rows_at tbl (A ++ (a ++ x :: b) :: B) -∗
  node x (first_of b) ∗ ⌜match b with [] => True | y :: _ => 0 < y.1 end⌝ ∗
    (node x (first_of b) -∗ rows_at tbl (A ++ (a ++ x :: b) :: B)).
Proof.
  iIntros "Hrows". iDestruct (big_sepL_lookup_acc _ _ (length A) with "Hrows") as "[(%p & Hp & Hseg) Hrows]".
  { by apply list_lookup_middle. }
  rw hseg_app. iDestruct "Hseg" as "(%m & Ha & -> & %n & Hx & Hb)". iDestruct (seg_first with "Hb") as "[%Hn Hb]".
  rw (_ : n = first_of b); [|by destruct b; [|destruct Hn]].
  iFrame "Hx". iSplit; [iPureIntro; destruct b; [done|by destruct Hn as [-> ?]]|]. iIntros "Hx".
  iApply "Hrows". iExists p. iFrame "Hp". rw hseg_app. iExists x.1. iFrame "Ha". iSplit; [done|]. iExists _. iFrame.
Qed.

Lemma wp_hash_row_loop (fuel : nat) (h tbl : Z) (i : nat) (rows : list (list hnode)) (Φ : Z → hprop) :
  Z.of_nat (length rows) = rows_of_keys → (i ≤ length rows)%nat → (length rows < i + fuel)%nat →
  fixed h tbl -∗ rows_at tbl rows -∗
  (∀ j : nat, ⌜(j ≤ length rows)%nat ∧ concat (drop i rows) = concat (drop j rows) ∧
      ((j < length rows)%nat → ∃ x ns, rows !! j = Some (x :: ns))⌝ -∗
    fixed h tbl -∗ rows_at tbl rows -∗ Φ (Z.of_nat j)) -∗
  wp (row_loop fuel h (Z.of_nat i)) Φ.
Proof.
  intros Hlen. revert i. induction fuel as [|fuel IH]; iIntros (i Hi Hf) "(%Hh & H1 & H2 & H3 & H4 & Ht & Hn) Hrows HΦ"; [lia|].
  cbn [row_loop]. iApply wp_bind. iApply (wp_ld with "Hn"); [lia|]. iIntros "Hn". rw -Hlen.
  destruct (Z.ltb_spec (Z.of_nat i) (Z.of_nat (length rows))) as [Hlt|Hge].
  - destruct (lookup_lt_is_Some_2 rows i) as [ns Hns]; [lia|].
    iApply wp_bind. iApply (wp_ld with "Ht"); [lia|]. iIntros "Ht".
    iApply wp_bind. iApply (wp_row_head with "Hrows"); [lia|done|]. iIntros (Hpos) "Hrows". destruct ns as [|x ns]; simpl.
    + rw (_ : Z.of_nat i + 1 = Z.of_nat (S i)); [|lia].
      iApply (IH with "[-Hrows HΦ] Hrows"); [lia|lia|rw Hlen; by iFrame|].
      iIntros (j Hj). rw (drop_S _ _ _ Hns) /=. by iApply "HΦ".
    + rw (proj2 (Z.eqb_neq x.1 0)); [|lia]. iApply wp_ret.
      iApply ("HΦ" with "[] [-Hrows] Hrows"); [|rw Hlen; by iFrame]. iPureIntro. split_and!; [lia|done|]. intros _. by eauto.
  - iApply wp_ret. iApply ("HΦ" with "[] [-Hrows] Hrows"); [|rw Hlen; by iFrame]. iPureIntro. split_and!; [lia|done|lia].
Qed.

(** The end of [hash_next_item]: the first node from row [i] on. *)
Lemma wp_next_row (fuel : nat) (h tbl : Z) (i : nat) (rows : list (list hnode)) (Φ : Z * Z → hprop) :
  Z.of_nat (length rows) = rows_of_keys → (i ≤ length rows)%nat → (length rows < i + fuel)%nat →
  fixed h tbl -∗ rows_at tbl rows -∗
  (∀ p, ⌜match concat (drop i rows) with [] => p = 0 | y :: rest => p = y.1 ∧ position rows p rest end⌝ -∗
    fixed h tbl -∗ rows_at tbl rows -∗
    Φ (match concat (drop i rows) with [] => HASH_STATUS_KEY_NOT_FOUND | _ => HASH_STATUS_OK end, p)) -∗
  wp (i ← row_loop fuel h (Z.of_nat i); n ← ld h size;
      if i =? n then mret (HASH_STATUS_KEY_NOT_FOUND, 0)
      else tbl ← ld h table; x ← ld (row tbl i) 0; mret (HASH_STATUS_OK, x)) Φ.
Proof.
  iIntros (Hlen Hi Hf) "Hfix Hrows HΦ". iApply wp_bind. iApply (wp_hash_row_loop with "Hfix Hrows"); [done..|].
  iIntros (j (Hj & Ej & Hns)) "(%Hh & H1 & H2 & H3 & H4 & Ht & Hn) Hrows".
  iApply wp_bind. iApply (wp_ld with "Hn"); [lia|]. iIntros "Hn". rw Ej -Hlen.
  case (Z.eqb_spec (Z.of_nat j) (Z.of_nat (length rows))) as [E|E].
  - iApply wp_ret. rw drop_ge; [|lia]. iApply ("HΦ" with "[//] [-Hrows] Hrows"). rw Hlen. by iFrame.
  - destruct Hns as (x & ns & Hns); [lia|]. iApply wp_bind. iApply (wp_ld with "Ht"); [lia|]. iIntros "Ht".
    iApply wp_bind. iApply (wp_row_head with "Hrows"); [lia|done|]. iIntros (_) "Hrows". iApply wp_ret.
    rw (drop_S _ _ _ Hns). simpl. iApply ("HΦ" with "[] [-Hrows] Hrows"); [|rw Hlen; by iFrame].
    iPureIntro. split; [done|]. right. exists (take j rows), [], x, ns, (drop (S j) rows). split_and!; [|done|done].
    simpl. by rw take_drop_middle.
Qed.

Lemma wp_hash_next_item (fuel : nat) (h tbl p : Z) (l : list (K * Z)) (rows : list (list hnode)) (rest : list hnode) (Φ : Z * Z → hprop) :
  rows_ok l rows → (length rows < fuel)%nat → position rows p rest →
  fixed h tbl -∗ rows_at tbl rows -∗
  (∀ p', ⌜match rest with [] => p' = 0 | y :: rest => p' = y.1 ∧ position rows p' rest end⌝ -∗
    fixed h tbl -∗ rows_at tbl rows -∗
    Φ (match rest with [] => HASH_STATUS_KEY_NOT_FOUND | _ => HASH_STATUS_OK end, p')) -∗
  wp (hash_next_item fuel h p) Φ.
Proof.
  iIntros (Hr Hf Hpos) "Hfix Hrows HΦ". rw /hash_next_item. pose proof Hr as (Hlen & _ & Hin).
  destruct Hpos as [[-> ->]|(A & a & x & b & B & -> & -> & ->)].
  - simpl negb. cbv iota. iApply wp_bind. iApply wp_ret. simpl negb. cbv iota. iApply wp_bind. iApply wp_ret.
    iApply (wp_next_row _ _ tbl 0 with "Hfix Hrows"); [done|lia|lia|]. by rw drop_0.
  - iDestruct (hnode_acc with "Hrows") as "((%Hx & Hn & (%pk & Hkey & Hk) & Hxr) & %Hb & Hrows)".
    rw (proj2 (Z.eqb_neq x.1 0)); [|lia]. simpl negb. cbv iota.
    iApply wp_bind. iApply (wp_ld with "Hn"); [lia|]. iIntros "Hn". destruct b as [|y b]; simpl first_of.
    + simpl negb. cbv iota. iApply wp_bind. iApply wp_bind. iApply (wp_ld with "Hkey"); [lia|]. iIntros "Hkey".
      iDestruct (own_key_at with "Hk") as "[Hk Hown]". iApply wp_bind. iApply (wp_bucket_of with "Hfix Hk"). iIntros "Hfix Hk".
      iApply wp_ret. iDestruct ("Hown" with "Hk") as "Hk".
      iDestruct ("Hrows" with "[Hn Hkey Hk Hxr]") as "Hrows"; [by iFrame|].
      assert (bucket x.2.1 = Z.of_nat (length A)) as ->.
      { pose proof (Hin (length A) (a ++ [x]) (list_lookup_middle _ _ _ _ eq_refl)) as E.
        assert (x.2 ∈ in_bucket bucket (Z.of_nat (length A)) l) as Hxin by (rw -E fmap_app; set_solver).
        by apply list_elem_of_filter in Hxin as [? _]. }
      rw (_ : Z.of_nat (length A) + 1 = Z.of_nat (S (length A))); [|lia].
      iApply (wp_next_row with "Hfix Hrows"); [done|rw length_app /=; lia|lia|].
      rw (_ : drop (S (length A)) (A ++ (a ++ [x]) :: B) = B) //.
      rw cons_middle app_assoc drop_app_length' //. rw length_app /=. lia.
    + rw (proj2 (Z.eqb_neq y.1 0)); [|lia]. simpl negb. cbv iota. iApply wp_ret.
      iDestruct ("Hrows" with "[Hn Hkey Hk Hxr]") as "Hrows"; [by iFrame|]. iApply ("HΦ" with "[] Hfix Hrows").
      iPureIntro. split; [done|]. right. exists A, (a ++ [x]), y, b, B. split_and!; [|done|done]. by rw -(app_assoc a [x]).
Qed.

(** The records that an enumeration returns, to its end. *)
Fixpoint items (fuel fuel' : nat) (h p : Z) : M (list Z) :=
  match fuel' with
  | O => undefined
  | S fuel' =>
    '(status, p) ← hash_next_item fuel h p;
    if status =? HASH_STATUS_OK then r ← ld p rec; rs ← items fuel fuel' h p; mret (r :: rs) else mret []
  end.

Lemma wp_items (fuel fuel' : nat) (h tbl p : Z) (l : list (K * Z)) (rows : list (list hnode)) (rest : list hnode) (Φ : list Z → hprop) :
  rows_ok l rows → (length rows < fuel)%nat → (length rest < fuel')%nat → position rows p rest →
  (∀ x, x ∈ rest → x ∈ concat rows) →
  fixed h tbl -∗ rows_at tbl rows -∗ (fixed h tbl -∗ rows_at tbl rows -∗ Φ rest.*2.*2) -∗
  wp (items fuel fuel' h p) Φ.
Proof.
  intros Hr Hf. revert p rest Φ. induction fuel' as [|fuel' IH]; iIntros (p rest Φ Hf' Hpos Hin) "Hfix Hrows HΦ"; [lia|].
  cbn [items]. iApply wp_bind. iApply (wp_hash_next_item with "Hfix Hrows"); [done..|]. iIntros (p' Hp') "Hfix Hrows".
  destruct rest as [|y rest]; simpl.
  { iApply wp_ret. iApply ("HΦ" with "Hfix Hrows"). }
  destruct Hp' as [-> Hpos']. assert (y ∈ concat rows) as Hy by (apply Hin; by left).
  apply list_elem_of_In, in_concat in Hy as (ns & Hns & Hy). apply list_elem_of_In in Hns, Hy.
  apply list_elem_of_split in Hns as (A & B & ->). apply list_elem_of_split in Hy as (a & b & ->).
  iDestruct (hnode_acc with "Hrows") as "((%Hx & Hn & Hkey & Hrec & Ht) & _ & Hrows)".
  iApply wp_bind. iApply (wp_ld with "Hrec"); [lia|]. iIntros "Hrec".
  iDestruct ("Hrows" with "[Hn Hkey Hrec Ht]") as "Hrows"; [by iFrame|].
  iApply wp_bind. iApply (IH _ rest with "Hfix Hrows"); [simpl in Hf'; lia|done|intros x Hx'; apply Hin; by right|].
  iIntros "Hfix Hrows". iApply wp_ret. iApply ("HΦ" with "Hfix Hrows").
Qed.

(** The rows together are the list. *)
Lemma rows_perm (rows : list (list hnode)) (i : Z) (l : list (K * Z)) :
  Forall (λ x, i ≤ bucket x.1 < i + Z.of_nat (length rows)) l →
  (∀ j ns, rows !! j = Some ns → ns.*2 = in_bucket bucket (i + Z.of_nat j) l) → (concat rows).*2 ≡ₚ l.
Proof.
  revert i l. induction rows as [|ns rows IH]; intros i l Hf Hr; simpl.
  - destruct l as [|x l]; [done|]. apply Forall_cons in Hf as [? _]. simpl in *. lia.
  - rw fmap_app. pose proof (Hr 0%nat ns eq_refl) as E. rw Z.add_0_r in E. rw E.
    rw (IH (i + 1) (filter (λ x, ¬ bucket x.1 = i) l)).
    + apply filter_app_complement.
    + apply Forall_forall. intros x [Hx Hin]%list_elem_of_filter. rw Forall_forall in Hf.
      pose proof (Hf x Hin). simpl in *. lia.
    + intros j ms Hj. pose proof (Hr (S j) ms Hj) as E'. rw E' /in_bucket list_filter_filter_l.
      * by rw (_ : i + 1 + Z.of_nat j = i + Z.of_nat (S j)); [|lia].
      * intros x. lia.
Qed.

Lemma concat_rows (l : list (K * Z)) (rows : list (list hnode)) : rows_ok l rows → (concat rows).*2 ≡ₚ l.
Proof. intros (Hlen & Hf & Hr). apply (rows_perm rows 0); [by rw Hlen|done]. Qed.

Lemma wp_all_items (fuel fuel' : nat) (h : Z) (l : list (K * Z)) :
  rows_of_keys < Z.of_nat fuel → (length l < fuel')%nat →
  table_at h l -∗ wp (items fuel fuel' h 0) (λ rs, ⌜rs ≡ₚ l.*2⌝ ∗ table_at h l).
Proof.
  iIntros (Hf Hf') "(%tbl & %rows & %Hr & Hfix & Hrows & Htok)". pose proof (concat_rows l rows Hr) as Hp.
  iApply (wp_items fuel fuel' h tbl 0 l rows (concat rows) with "Hfix Hrows");
    [done|destruct Hr; lia|by rw -(length_fmap snd) Hp|by left|done|].
  iIntros "Hfix Hrows". iSplit; [by rw Hp|]. iExists tbl, rows. by iFrame.
Qed.

(** ** Creation and deletion *)

(** The header before [hash_initialise]. *)
Definition header (h tbl : Z) : hprop :=
  ⌜0 < h⌝ ∗ fld h compare compare_addr ∗ fld h hash hash_addr ∗ fld h copy_key copy_addr ∗
  fld h delete_key delete_addr ∗ fld h table tbl ∗ fld h size rows_of_keys.

Lemma array_hash_rows (tbl : Z) (i n : nat) :
  array (row tbl (Z.of_nat i)) 8 (replicate n 0) -∗ [∗ list] j ↦ ns ∈ replicate n [], row_at tbl (i + j) ns.
Proof.
  revert i. induction n as [|n IH]; iIntros (i) "Ha"; [done|].
  iDestruct (array_open with "Ha") as "[Hv Ha]". simpl. iSplitL "Hv".
  - rw Nat.add_0_r. iExists 0. by iFrame.
  - iDestruct (IH (S i) with "[Ha]") as "H".
    { rw (_ : row tbl (Z.of_nat (S i)) = row tbl (Z.of_nat i) + 8); [done|unfold row; lia]. }
    iApply (big_sepL_mono with "H"). intros j ms _. by rw Nat.add_succ_r.
Qed.

Lemma xwp_hash_initialise (h t : Z) :
  0 ≤ rows_of_keys → header h t -∗ xwp (hash_initialise h) (λ r, ⌜r = HASH_STATUS_OK⌝ ∗ table_at h []).
Proof.
  iIntros (Hs) "(%Hh & H1 & H2 & H3 & H4 & Ht & Hn)". rw /hash_initialise.
  iApply xwp_bind. iApply (xwp_ld with "Hn"); [lia|]. iIntros "Hn".
  iApply xwp_bind. iApply xwp_xcalloc; [done|]. iIntros (tbl Htbl) "Htok Ha".
  iApply xwp_bind. iApply (xwp_st with "Ht"); [lia|]. iIntros "Ht". iApply xwp_ret. iSplit; [done|].
  iExists tbl, (replicate (Z.to_nat rows_of_keys) []). rw length_replicate. iFrame. iSplit; [|iSplit; [done|]].
  - iPureIntro. split_and!; [rw length_replicate; lia|constructor|]. by intros i ns [-> _]%lookup_replicate.
  - iApply (array_hash_rows tbl 0). by rw /row Z.mul_0_r Z.add_0_r.
Qed.

Lemma wp_hash_delete_chain (fuel : nat) (h tbl p : Z) (ns : list hnode) (Φ : unit → hprop) :
  (length ns < fuel)%nat → fixed h tbl -∗ seg p ns 0 -∗ (fixed h tbl -∗ Φ tt) -∗ wp (delete_chain fuel h p) Φ.
Proof.
  revert p ns. induction fuel as [|fuel IH]; iIntros (p ns Hf) "Hfix Hns HΦ"; [lia|]. cbn [delete_chain].
  destruct ns as [|x ns].
  { iDestruct "Hns" as "->". iApply wp_ret. by iApply "HΦ". }
  iDestruct "Hns" as "(-> & %n & (%Hx & Hn & Hx) & Hns)". rw (proj2 (Z.eqb_neq x.1 0)); [|lia].
  iApply wp_bind. iApply (wp_ld with "Hn"); [lia|]. iIntros "Hn".
  iApply (wp_free_hnode with "Hfix [Hn Hx]"); [by iFrame|]. iIntros "Hfix".
  iApply (IH with "Hfix Hns HΦ"). simpl in Hf. lia.
Qed.

Lemma wp_hash_delete_rows (fuel : nat) (h tbl : Z) (i : nat) (rows : list (list hnode)) (Φ : unit → hprop) :
  (length (concat rows) < fuel)%nat →
  fixed h tbl -∗ ([∗ list] j ↦ ns ∈ rows, row_at tbl (i + j) ns) -∗
  (fixed h tbl -∗ array (row tbl (Z.of_nat i)) 8 (replicate (length rows) 0) -∗ Φ tt) -∗
  wp (delete_rows fuel (length rows) h (Z.of_nat i)) Φ.
Proof.
  revert i Φ. induction rows as [|ns rows IH]; iIntros (i Φ Hf) "Hfix Hrows HΦ"; cbn [delete_rows length].
  { iApply wp_ret. by iApply ("HΦ" with "Hfix"). }
  rw big_sepL_cons Nat.add_0_r. iDestruct "Hrows" as "[(%p & Hp & Hseg) Hrows]". rw /= length_app in Hf.
  iDestruct "Hfix" as "(%Hh & H1 & H2 & H3 & H4 & Ht & Hn)". assert (row tbl (Z.of_nat i) ≠ 0) as Hrow by (rw /row; lia).
  iApply wp_bind. iApply (wp_ld with "Ht"); [lia|]. iIntros "Ht".
  iApply wp_bind. iApply (wp_ld with "Hp"); [done|]. iIntros "Hp".
  iApply wp_bind. iApply (wp_hash_delete_chain _ _ tbl with "[H1 H2 H3 H4 Ht Hn] Hseg"); [lia|by iFrame|].
  iIntros "(_ & H1 & H2 & H3 & H4 & Ht & Hn)".
  iApply wp_bind. iApply (wp_ld with "Ht"); [lia|]. iIntros "Ht".
  iApply wp_bind. iApply (wp_st with "Hp"); [done|]. iIntros "Hp".
  rw (_ : Z.of_nat i + 1 = Z.of_nat (S i)); [|lia].
  iApply (IH (S i) with "[H1 H2 H3 H4 Ht Hn] [Hrows]"); [lia|by iFrame| |].
  { iApply (big_sepL_mono with "Hrows"). intros j ms _. by rw Nat.add_succ_r. }
  iIntros "Hfix Ha". iApply ("HΦ" with "Hfix"). simpl. iApply (array_close with "Hp").
  rw (_ : row tbl (Z.of_nat i) + 8 = row tbl (Z.of_nat (S i))); [done|unfold row; lia].
Qed.

Lemma wp_hash_delete_all (fuel : nat) (h : Z) (l : list (K * Z)) :
  (length l < fuel)%nat → table_at h l -∗ wp (hash_delete_all fuel h) (λ _, table_at h []).
Proof.
  iIntros (Hf) "(%tbl & %rows & %Hr & (%Hh & H1 & H2 & H3 & H4 & Ht & Hn) & Hrows & Htok)".
  pose proof (concat_rows l rows Hr) as Hp. destruct Hr as (Hlen & _ & _).
  iApply wp_bind. iApply (wp_ld with "Hn"); [lia|]. iIntros "Hn". rw -{2}Hlen Nat2Z.id.
  iApply (wp_hash_delete_rows _ _ tbl 0 with "[H1 H2 H3 H4 Ht Hn] Hrows"); [by rw -(length_fmap snd) Hp|by iFrame|].
  iIntros "Hfix Ha". iExists tbl, (replicate (length rows) []). rw length_replicate. iFrame. iSplit.
  - iPureIntro. split_and!; [by rw length_replicate|constructor|]. by intros i ns [-> _]%lookup_replicate.
  - iApply (array_hash_rows tbl 0 with "Ha").
Qed.

Lemma rows_array (tbl : Z) (i : nat) (rows : list (list hnode)) :
  concat rows = [] → ([∗ list] j ↦ ns ∈ rows, row_at tbl (i + j) ns) -∗
  ∃ vs, ⌜length vs = length rows⌝ ∗ array (row tbl (Z.of_nat i)) 8 vs.
Proof.
  revert i. induction rows as [|ns rows IH]; iIntros (i) "%E H"; [iExists []; auto|].
  apply app_nil in E as [-> E]. rw big_sepL_cons Nat.add_0_r. iDestruct "H" as "[(%p & Hp & ->) H]".
  iDestruct (IH (S i) E with "[H]") as (vs) "[%Hvs Ha]".
  { iApply (big_sepL_mono with "H"). intros j ms _. by rw Nat.add_succ_r. }
  iExists (0 :: vs). iSplit; [iPureIntro; simpl; lia|]. iApply (array_close with "Hp").
  rw (_ : row tbl (Z.of_nat i) + 8 = row tbl (Z.of_nat (S i))); [done|unfold row; lia].
Qed.

(** An empty table is given back; the header stays. *)
Lemma wp_hash_destroy (h : Z) :
  table_at h [] -∗ wp (hash_destroy h) (λ r, ⌜r = HASH_STATUS_OK⌝ ∗ ∃ tbl, header h tbl).
Proof.
  iIntros "(%tbl & %rows & %Hr & (%Hh & H1 & H2 & H3 & H4 & Ht & Hn) & Hrows & Htok)". rw /hash_destroy.
  iApply wp_bind. iApply (wp_ld with "Ht"); [lia|]. iIntros "Ht".
  pose proof (concat_rows [] rows Hr) as E%Permutation_nil_r%fmap_nil_inv.
  iDestruct (rows_array tbl 0 with "Hrows") as (vs) "[%Hvs Ha]"; [done|].
  rw (_ : row tbl (Z.of_nat 0) = tbl); [|rw /row; lia].
  iApply wp_bind. iApply (wp_free with "[Htok] Ha"); [lia|by rw Hvs|]. iApply wp_ret. iSplit; [done|]. iExists tbl. iFrame.
  iPureIntro. lia.
Qed.

(** ** Sequences of calls *)

End memory.

(** A call of a program, with the address of the key and its value. *)
Inductive hop (K : Type) :=
  | Insert (kp : Z) (k : K) (v : Z)
  | Delete (kp : Z) (k : K)
  | Find (kp : Z) (k : K)
  | Items
  | DeleteAll.
#[global] Arguments Insert {K}.
#[global] Arguments Delete {K}.
#[global] Arguments Find {K}.
#[global] Arguments Items {K}.
#[global] Arguments DeleteAll {K}.

Inductive hresult := Status (s : Z) | Value (r : Z * option Z) | Records (rs : list Z).

Inductive hstep {K} `{!EqDecision K} : list (K * Z) → hop K → hresult → list (K * Z) → Prop :=
  | step_insert l kp k v : hstep l (Insert kp k v) (Status HASH_STATUS_OK) ((k, v) :: l)
  | step_delete l kp k :
      hstep l (Delete kp k)
        (Status (match lookup_first k l with Some _ => HASH_STATUS_OK | None => HASH_STATUS_KEY_NOT_FOUND end))
        (remove_first k l)
  | step_find l kp k :
      hstep l (Find kp k)
        (Value (match lookup_first k l with Some v => (HASH_STATUS_OK, Some v) | None => (HASH_STATUS_KEY_NOT_FOUND, None) end)) l
  | step_items l rs : rs ≡ₚ l.*2 → hstep l Items (Records rs) l
  | step_delete_all l : hstep l DeleteAll (Status HASH_STATUS_OK) [].

Inductive hsteps {K} `{!EqDecision K} : list (K * Z) → list (hop K) → list hresult → Prop :=
  | hsteps_nil l : hsteps l [] []
  | hsteps_cons l o r l' os rs : hstep l o r l' → hsteps l' os rs → hsteps l (o :: os) (r :: rs).

Section program.
Context `{HM : Malloc} `{HF : Functions} {K : Type}.

Definition perform (fuel : nat) (h : Z) (o : hop K) : X hresult :=
  match o with
  | Insert kp _ v => s <~ hash_insert h kp v; xret (Status s)
  | Delete kp _ => s <~ call (hash_delete fuel h kp); xret (Status s)
  | Find kp _ => r <~ call (hash_find fuel h kp); xret (Value r)
  | Items => rs <~ call (items fuel fuel h 0); xret (Records rs)
  | DeleteAll => call (hash_delete_all fuel h) ;~ xret (Status HASH_STATUS_OK)
  end.

Fixpoint performs (fuel : nat) (h : Z) (os : list (hop K)) : X (list hresult) :=
  match os with
  | [] => xret []
  | o :: os => r <~ perform fuel h o; rs <~ performs fuel h os; xret (r :: rs)
  end.
End program.

Section sequences.
Context `{HM : Malloc} `{HF : Functions} {K : Type} `{!EqDecision K} `{HK : !Keys K}.

Definition op_key (o : hop K) : hprop :=
  match o with Insert kp k _ | Delete kp k | Find kp k => key_at kp k | _ => ⌜True⌝ end.

Lemma hstep_length (l l' : list (K * Z)) (o : hop K) (r : hresult) :
  hstep l o r l' → (length l' ≤ S (length l))%nat.
Proof.
  destruct 1; simpl; try lia. assert (length (remove_first k l) ≤ length l)%nat; [|lia].
  induction l as [|[k' v] l IH]; simpl; [lia|]. destruct (decide (k' = k)); simpl; lia.
Qed.

Lemma xwp_perform (fuel : nat) (h : Z) (o : hop K) (l : list (K * Z)) :
  (length l < fuel)%nat → rows_of_keys < Z.of_nat fuel →
  table_at h l -∗ op_key o -∗
  xwp (perform fuel h o) (λ r, ∃ l', ⌜hstep l o r l'⌝ ∗ table_at h l' ∗ op_key o).
Proof.
  iIntros (Hf Hf') "Ht Hk". destruct o as [kp k v|kp k|kp k| |]; simpl; iApply xwp_bind.
  - iApply (xwp_wand with "[Ht Hk]"); [iApply (xwp_hash_insert with "Ht Hk")|]. iIntros (r) "(-> & Ht & Hk)".
    iApply xwp_ret. iExists _. iFrame. iPureIntro. constructor.
  - iApply xwp_call. iApply (wp_wand with "[Ht Hk]"); [by iApply (wp_hash_delete with "Ht Hk")|].
    iIntros (r) "(-> & Ht & Hk)". iApply xwp_ret. iExists _. iFrame. iPureIntro. constructor.
  - iApply xwp_call. iApply (wp_wand with "[Ht Hk]"); [by iApply (wp_hash_find with "Ht Hk")|].
    iIntros (r) "(-> & Ht & Hk)". iApply xwp_ret. iExists _. iFrame. iPureIntro. constructor.
  - iApply xwp_call. iApply (wp_wand with "[Ht]"); [by iApply (wp_all_items with "Ht")|].
    iIntros (r) "(%Hp & Ht)". iApply xwp_ret. iExists _. iFrame. iPureIntro. by constructor.
  - iApply xwp_call. iApply (wp_wand with "[Ht]"); [by iApply (wp_hash_delete_all with "Ht")|].
    iIntros (r) "Ht". iApply xwp_ret. iExists _. iFrame. iPureIntro. constructor.
Qed.

Lemma xwp_performs (fuel : nat) (h : Z) (os : list (hop K)) (l : list (K * Z)) :
  (length l + length os < fuel)%nat → rows_of_keys < Z.of_nat fuel →
  table_at h l -∗ ([∗ list] o ∈ os, op_key o) -∗
  xwp (performs fuel h os) (λ rs, ∃ l', ⌜hsteps l os rs ∧ (length l' < fuel)%nat⌝ ∗ table_at h l' ∗ [∗ list] o ∈ os, op_key o).
Proof.
  revert l. induction os as [|o os IH]; iIntros (l Hf Hf') "Ht Hos"; cbn [performs].
  { iApply xwp_ret. iExists l. iFrame. iPureIntro. split; [constructor|simpl in Hf; lia]. }
  iDestruct "Hos" as "[Ho Hos]". simpl in Hf. iApply xwp_bind.
  iApply (xwp_wand with "[Ht Ho]"); [iApply (xwp_perform with "Ht Ho"); [lia|done]|].
  iIntros (r) "(%l1 & %Hs & Ht & Ho)". pose proof (hstep_length _ _ _ _ Hs). iApply xwp_bind.
  iApply (xwp_wand with "[Ht Hos]"); [iApply (IH with "Ht Hos"); [lia|done]|].
  iIntros (rs) "(%l2 & [%Hss %Hl] & Ht & Hos)". iApply xwp_ret. iExists l2. iFrame.
  iPureIntro. split; [by econstructor|done].
Qed.
End sequences.
