(* ===== verification/AddrHash.v ===== *)
(** * The hash table of address pairs (hash/addr_hash.c)

    The four functions that addr_hash.c gives to the table of hash.c, as an
    instance of the interface [Keys], and what a program sees from
    [addr_hash_create] on.  A structure is a block of words, one for each field. *)

From iris.proofmode Require Import proofmode.
From S2P Require Import Prelude WordMem WordExit HashTable.

(** ** The code *)

(** [addr_pair] *)
Definition protocol : Z := 0.
Definition src_port : Z := 8.
Definition src : Z := 16.
Definition dst_port : Z := 24.
Definition dst : Z := 32.

Definition hash_table_size : Z := 256.

(** The functions' addresses. *)
Definition COMPARE : Z := 1.
Definition HASH : Z := 2.
Definition COPY_KEY : Z := 3.
Definition DELETE_KEY : Z := 4.

Definition same_field (a b off : Z) (rest : M Z) : M Z :=
  x ← ld a off; y ← ld b off; if x =? y then rest else mret 0.

Definition compare (a b : Z) : M Z :=
  same_field a b src (same_field a b src_port (same_field a b dst (same_field a b dst_port
    (same_field a b protocol (mret 1))))).

(** [>>] binds tighter than [&]. *)
Definition addr_bytes (addr : Z) : Z :=
  Z.land addr 0x000000FF + Z.land addr (Z.shiftr 0x0000FF00 8) + Z.land addr (Z.shiftr 0x00FF0000 16) +
  Z.land addr (Z.shiftr 0xFF000000 24).

Definition hash (key : Z) : M Z :=
  addr ← ld key src; port ← ld key src_port;
  let hash := s32 (Z.rem (addr_bytes addr + port) 0xFF) in
  addr ← ld key dst; port ← ld key dst_port;
  mret (s32 (Z.rem (hash + addr_bytes addr + port) 0xFF)).

Section code.
Context `{HM : Malloc}.

Definition copy_field (copy orig off : Z) : X unit := x <~ call (ld orig off); call (st copy off x).

Definition copy_key (orig : Z) : X Z :=
  copy <~ xmalloc 8 5;
  copy_field copy orig protocol ;~ copy_field copy orig src_port ;~ copy_field copy orig src ;~
  copy_field copy orig dst_port ;~ copy_field copy orig dst ;~ xret copy.

Definition delete_key (key : Z) : M unit := free 8 key.

#[export] Instance functions : Functions := {
  compare_fn f a b := if f =? COMPARE then compare a b else undefined;
  hash_fn f k := if f =? HASH then hash k else undefined;
  copy_fn f k := if f =? COPY_KEY then copy_key k else call undefined;
  delete_fn f k := if f =? DELETE_KEY then delete_key k else undefined;
}.

(** [xcalloc] of 256 structures, of which the first is used. *)
Definition addr_hash_create : X Z :=
  h <~ xcalloc 8 (Z.to_nat hash_table_size * 6);
  call (st h size hash_table_size) ;~ call (st h HashTable.compare COMPARE) ;~ call (st h HashTable.hash HASH) ;~
  call (st h HashTable.delete_key DELETE_KEY) ;~ call (st h HashTable.copy_key COPY_KEY) ;~
  hash_initialise h ;~ xret h.

End code.

(** ** The keys *)

Record addr_pair := AddrPair {
  a_protocol : Z;
  a_src_port : Z;
  a_src : Z;
  a_dst_port : Z;
  a_dst : Z;
}.

#[export] Instance addr_pair_eq_dec : EqDecision addr_pair.
Proof. solve_decision. Defined.

Definition pair_ok (k : addr_pair) : Prop :=
  0 ≤ a_src_port k < 2 ^ 16 ∧ 0 ≤ a_dst_port k < 2 ^ 16 ∧ 0 ≤ a_src k < 2 ^ 32 ∧ 0 ≤ a_dst k < 2 ^ 32.

(** What [hash] computes: only the low bytes of the addresses count, four times. *)
Definition addr_bucket (k : addr_pair) : Z :=
  (4 * (a_src k mod 256) + a_src_port k + 4 * (a_dst k mod 256) + a_dst_port k) mod 255.

Lemma addr_bytes_low (a : Z) : addr_bytes a = 4 * (a mod 256).
Proof.
  unfold addr_bytes. change (Z.shiftr 0x0000FF00 8) with (Z.ones 8). change (Z.shiftr 0x00FF0000 16) with (Z.ones 8).
  change (Z.shiftr 0xFF000000 24) with (Z.ones 8). change 0x000000FF with (Z.ones 8).
  rw Z.land_ones; [|lia]. change (2 ^ 8) with 256. lia.
Qed.

Lemma hash_value (k : addr_pair) :
  pair_ok k →
  s32 (Z.rem (s32 (Z.rem (addr_bytes (a_src k) + a_src_port k) 255) + addr_bytes (a_dst k) + a_dst_port k) 255) = addr_bucket k.
Proof.
  intros (H1 & H2 & H3 & H4). rw !addr_bytes_low. change (2 ^ 16) with 65536 in *.
  pose proof (Z.mod_pos_bound (a_src k) 256 ltac:(lia)). pose proof (Z.mod_pos_bound (a_dst k) 256 ltac:(lia)).
  set (x := a_src k mod 256) in *. set (y := a_dst k mod 256) in *. unfold addr_bucket. fold x y.
  assert (∀ z, 0 ≤ z → s32 (Z.rem z 255) = z mod 255) as E.
  { intros z Hz. rw Z.rem_mod_nonneg; [|lia|lia]. pose proof (Z.mod_pos_bound z 255 ltac:(lia)).
    apply swrap_small; [lia|]. change (2 ^ (32 - 1)) with 2147483648. lia. }
  rw (E (4 * x + a_src_port k)); [|lia]. pose proof (Z.mod_pos_bound (4 * x + a_src_port k) 255 ltac:(lia)).
  rw E; [|lia]. rw -!Z.add_assoc Zplus_mod_idemp_l. f_equal. lia.
Qed.

Lemma addr_bucket_range (k : addr_pair) : 0 ≤ addr_bucket k < hash_table_size.
Proof. unfold addr_bucket, hash_table_size. pose proof (Z.mod_pos_bound (4 * (a_src k mod 256) + a_src_port k + 4 * (a_dst k mod 256) + a_dst_port k) 255). lia. Qed.

Section keys.
Context `{HM : Malloc}.

Definition pair_at (p : Z) (k : addr_pair) : hprop :=
  ⌜0 < p ∧ pair_ok k⌝ ∗ fld p protocol (a_protocol k) ∗ fld p src_port (a_src_port k) ∗ fld p src (a_src k) ∗
  fld p dst_port (a_dst_port k) ∗ fld p dst (a_dst k).

Lemma array5 (p a b c d e : Z) :
  array p 8 [a; b; c; d; e] ⊣⊢ fld p protocol a ∗ fld p src_port b ∗ fld p src c ∗ fld p dst_port d ∗ fld p dst e.
Proof.
  rw /= /fld /protocol /src_port /src /dst_port /dst Z.add_0_r -!Z.add_assoc /=.
  iSplit; [iIntros "($ & $ & $ & $ & $ & _)"|iIntros "($ & $ & $ & $ & $)"].
Qed.

Lemma wp_same_field (a b off x y : Z) (rest : M Z) (Φ : Z → hprop) :
  a ≠ 0 → b ≠ 0 → fld a off x -∗ fld b off y -∗
  (fld a off x -∗ fld b off y -∗ if decide (x = y) then wp rest Φ else Φ 0) -∗
  wp (same_field a b off rest) Φ.
Proof.
  iIntros (Ha Hb) "Hx Hy HΦ". iApply wp_bind. iApply (wp_ld with "Hx"); [done|]. iIntros "Hx".
  iApply wp_bind. iApply (wp_ld with "Hy"); [done|]. iIntros "Hy". iSpecialize ("HΦ" with "Hx Hy").
  destruct (Z.eqb_spec x y); [rw decide_True //|rw decide_False //; by iApply wp_ret].
Qed.

Lemma wp_pair_compare (p q : Z) (k l : addr_pair) (Φ : Z → hprop) :
  pair_at p k -∗ pair_at q l -∗ (∀ r, ⌜r = 0 ↔ k ≠ l⌝ -∗ pair_at p k -∗ pair_at q l -∗ Φ r) -∗ wp (compare p q) Φ.
Proof.
  iIntros "(%Hp & P1 & P2 & P3 & P4 & P5) (%Hq & Q1 & Q2 & Q3 & Q4 & Q5) HΦ".
  iApply (wp_same_field with "P3 Q3"); [lia|lia|]. iIntros "P3 Q3". case_decide as E3.
  2: { iApply ("HΦ" with "[] [P1 P2 P3 P4 P5] [-]"); [iPureIntro; split; congruence|by iFrame..]. }
  iApply (wp_same_field with "P2 Q2"); [lia|lia|]. iIntros "P2 Q2". case_decide as E2.
  2: { iApply ("HΦ" with "[] [P1 P2 P3 P4 P5] [-]"); [iPureIntro; split; congruence|by iFrame..]. }
  iApply (wp_same_field with "P5 Q5"); [lia|lia|]. iIntros "P5 Q5". case_decide as E5.
  2: { iApply ("HΦ" with "[] [P1 P2 P3 P4 P5] [-]"); [iPureIntro; split; congruence|by iFrame..]. }
  iApply (wp_same_field with "P4 Q4"); [lia|lia|]. iIntros "P4 Q4". case_decide as E4.
  2: { iApply ("HΦ" with "[] [P1 P2 P3 P4 P5] [-]"); [iPureIntro; split; congruence|by iFrame..]. }
  iApply (wp_same_field with "P1 Q1"); [lia|lia|]. iIntros "P1 Q1". case_decide as E1.
  2: { iApply ("HΦ" with "[] [P1 P2 P3 P4 P5] [-]"); [iPureIntro; split; congruence|by iFrame..]. }
  iApply wp_ret. iApply ("HΦ" with "[] [P1 P2 P3 P4 P5] [-]"); [|by iFrame..].
  iPureIntro. split; [done|]. intros []. destruct k, l; simpl in *; congruence.
Qed.

Lemma wp_pair_hash (p : Z) (k : addr_pair) (Φ : Z → hprop) :
  pair_at p k -∗ (pair_at p k -∗ Φ (addr_bucket k)) -∗ wp (hash p) Φ.
Proof.
  iIntros "(%Hp & P1 & P2 & P3 & P4 & P5) HΦ". destruct Hp as [Hp Hk]. rw /hash.
  iApply wp_bind. iApply (wp_ld with "P3"); [lia|]. iIntros "P3".
  iApply wp_bind. iApply (wp_ld with "P2"); [lia|]. iIntros "P2".
  iApply wp_bind. iApply (wp_ld with "P5"); [lia|]. iIntros "P5".
  iApply wp_bind. iApply (wp_ld with "P4"); [lia|]. iIntros "P4". iApply wp_ret. rw hash_value //.
  iApply "HΦ". by iFrame.
Qed.

Lemma xwp_copy_field (p q off x y : Z) (Φ : unit → hprop) :
  p ≠ 0 → q ≠ 0 → fld q off x -∗ fld p off y -∗ (fld q off x -∗ fld p off x -∗ Φ tt) -∗ xwp (copy_field p q off) Φ.
Proof.
  iIntros (Hp Hq) "Hx Hy HΦ". iApply xwp_bind. iApply (xwp_ld with "Hx"); [done|]. iIntros "Hx".
  iApply (xwp_st with "Hy"); [done|]. iIntros "Hy". iApply ("HΦ" with "Hx Hy").
Qed.

Definition own_pair (p : Z) (k : addr_pair) : hprop := pair_at p k ∗ token p 5.

Lemma xwp_pair_copy (p : Z) (k : addr_pair) (Φ : Z → hprop) :
  pair_at p k -∗ (∀ q, pair_at p k -∗ own_pair q k -∗ Φ q) -∗ xwp (copy_key p) Φ.
Proof.
  iIntros "(%Hp & P1 & P2 & P3 & P4 & P5) HΦ". destruct Hp as [Hp Hk]. rw /copy_key.
  iApply xwp_bind. iApply xwp_xmalloc; [done|]. iIntros (q vs [Hq Hvs]) "Htok Ha".
  destruct vs as [|a [|b [|c [|d [|e []]]]]]; try done. rw array5. iDestruct "Ha" as "(Q1 & Q2 & Q3 & Q4 & Q5)".
  iApply xwp_bind. iApply (xwp_copy_field with "P1 Q1"); [lia|lia|]. iIntros "P1 Q1".
  iApply xwp_bind. iApply (xwp_copy_field with "P2 Q2"); [lia|lia|]. iIntros "P2 Q2".
  iApply xwp_bind. iApply (xwp_copy_field with "P3 Q3"); [lia|lia|]. iIntros "P3 Q3".
  iApply xwp_bind. iApply (xwp_copy_field with "P4 Q4"); [lia|lia|]. iIntros "P4 Q4".
  iApply xwp_bind. iApply (xwp_copy_field with "P5 Q5"); [lia|lia|]. iIntros "P5 Q5". iApply xwp_ret.
  iApply ("HΦ" with "[P1 P2 P3 P4 P5]"); [by iFrame|]. iFrame "Htok". by iFrame.
Qed.

Lemma wp_pair_delete (p : Z) (k : addr_pair) (Φ : unit → hprop) : own_pair p k -∗ Φ tt -∗ wp (delete_key p) Φ.
Proof.
  iIntros "[(%Hp & P1 & P2 & P3 & P4 & P5) Htok] HΦ".
  iApply (wp_free 8 p [a_protocol k; a_src_port k; a_src k; a_dst_port k; a_dst k] with "Htok [P1 P2 P3 P4 P5]");
    [lia|rw array5; iFrame|done].
Qed.

(** The four functions keep what the table relies on. *)
#[export] Program Instance addr_keys : Keys addr_pair := {
  key_at := pair_at;
  own_key := own_pair;
  rows_of_keys := hash_table_size;
  bucket := addr_bucket;
  compare_addr := COMPARE;
  hash_addr := HASH;
  copy_addr := COPY_KEY;
  delete_addr := DELETE_KEY;
}.
Next Obligation. iIntros (p k) "[$ $]". iIntros "$". Qed.
Next Obligation. iIntros (p k) "_". iPureIntro. apply addr_bucket_range. Qed.
Next Obligation. iIntros (p q k l Φ) "Hk Hl HΦ". by iApply (wp_pair_compare with "Hk Hl"). Qed.
Next Obligation. iIntros (p k Φ) "Hk HΦ". by iApply (wp_pair_hash with "Hk"). Qed.
Next Obligation. iIntros (p k Φ) "Hk HΦ". by iApply (xwp_pair_copy with "Hk"). Qed.
Next Obligation. iIntros (p k Φ) "Hk HΦ". by iApply (wp_pair_delete with "Hk"). Qed.

(** ** The table *)

(** What stays of the structures that [addr_hash_create] allocates. *)
Definition structures (h : Z) : hprop := token h 1536 ∗ array (h + 48) 8 (replicate 1530 0).

Lemma array6 (h a b c d e f : Z) (vs : list Z) :
  array h 8 (a :: b :: c :: d :: e :: f :: vs) ⊣⊢
  fld h HashTable.compare a ∗ fld h HashTable.hash b ∗ fld h HashTable.copy_key c ∗ fld h HashTable.delete_key d ∗
  fld h table e ∗ fld h size f ∗ array (h + 48) 8 vs.
Proof.
  rw !array_cons /fld /HashTable.compare /HashTable.hash /HashTable.copy_key /HashTable.delete_key /table /size !Z.add_0_r -!Z.add_assoc //.
Qed.

Lemma xwp_addr_hash_create (Φ : Z → hprop) :
  (∀ h, table_at h [] -∗ structures h -∗ Φ h) -∗ xwp addr_hash_create Φ.
Proof.
  iIntros "HΦ". iApply xwp_bind. iApply xwp_xcalloc; [done|]. iIntros (h Hh) "Htok Ha".
  change (Z.to_nat hash_table_size * 6)%nat with (6 + 1530)%nat. rw replicate_add.
  change (replicate 6 0) with [0; 0; 0; 0; 0; 0]. rw /app array6.
  iDestruct "Ha" as "(H1 & H2 & H3 & H4 & H5 & H6 & Ha)".
  iApply xwp_bind. iApply (xwp_st with "H6"); [lia|]. iIntros "H6".
  iApply xwp_bind. iApply (xwp_st with "H1"); [lia|]. iIntros "H1".
  iApply xwp_bind. iApply (xwp_st with "H2"); [lia|]. iIntros "H2".
  iApply xwp_bind. iApply (xwp_st with "H4"); [lia|]. iIntros "H4".
  iApply xwp_bind. iApply (xwp_st with "H3"); [lia|]. iIntros "H3".
  iApply xwp_bind. iApply (xwp_wand with "[H1 H2 H3 H4 H5 H6]").
  { iApply (xwp_hash_initialise h 0); [done|]. by iFrame. }
  iIntros (r) "[_ Ht]". iApply xwp_ret. iApply ("HΦ" with "Ht").
  iSplitL "Htok"; [iExact "Htok"|iExact "Ha"].
Qed.
End keys.

(** ** Without the logic *)

(** A table from its creation to [hash_destroy]. *)
Definition table_run `{HM : Malloc} (fuel : nat) (os : list (hop addr_pair)) : X (list hresult) :=
  h <~ addr_hash_create; rs <~ performs fuel h os;
  call (hash_delete_all fuel h) ;~ call (hash_destroy h) ;~ xret rs.

Definition fp_pair (p : Z) (k : addr_pair) : footprint :=
  fp_pure (0 < p ∧ pair_ok k) ⊗ fp_cell p protocol (a_protocol k) ⊗ fp_cell p src_port (a_src_port k) ⊗
  fp_cell p src (a_src k) ⊗ fp_cell p dst_port (a_dst_port k) ⊗ fp_cell p dst (a_dst k).
Definition fp_op (o : hop addr_pair) : footprint :=
  match o with Insert kp k _ | Delete kp k | Find kp k => fp_pair kp k | _ => fp_pure True end.

(** The block of the structures, which no function frees. *)
Fixpoint fp_words (p : Z) (vs : list Z) : footprint :=
  match vs with [] => fp_pure True | v :: vs => fp_cell p 0 v ⊗ fp_words (p + 8) vs end.
Definition fp_structures : footprint :=
  fp_ex (λ h, fp_ex (λ vs, fp_pure (length vs = 1536%nat) ⊗ fp_token h 1536 ⊗ fp_words h vs)).

Section refinement.
Context `{HM : Malloc}.

#[export] Instance covers_words (p : Z) (vs : list Z) : Covers (array p 8 vs) (fp_words p vs).
Proof.
  revert p. induction vs as [|v vs IH]; intros p; [apply covers_emp|].
  eapply covers_proper; [apply array_cons|reflexivity|]. apply covers_sep; [apply covers_cell|apply IH].
Qed.

Lemma covers_op (o : hop addr_pair) : Covers (op_key o) (fp_op o).
Proof. destruct o; apply _. Qed.

Definition left_over : hprop :=
  ∃ h, ∃ vs, ⌜length vs = 1536%nat⌝ ∗ token h 1536 ∗ array h 8 vs.

Lemma xwp_table_run (fuel : nat) (os : list (hop addr_pair)) :
  (length os < fuel)%nat → hash_table_size < Z.of_nat fuel →
  ([∗ list] o ∈ os, op_key o) -∗
  xwp (table_run fuel os) (λ rs, ⌜hsteps [] os rs⌝ ∗ ([∗ list] o ∈ os, op_key o) ∗ left_over).
Proof.
  iIntros (Hf Hf') "Hos". iApply xwp_bind. iApply xwp_addr_hash_create. iIntros (h) "Ht Hst".
  iApply xwp_bind. iApply (xwp_wand with "[Ht Hos]"); [iApply (xwp_performs with "Ht Hos"); [simpl; lia|done]|].
  iIntros (rs) "(%l & [%Hs %Hl] & Ht & Hos)". iApply xwp_bind. iApply xwp_call.
  iApply (wp_wand with "[Ht]"); [by iApply (wp_hash_delete_all with "Ht")|]. iIntros (_) "Ht".
  iApply xwp_bind. iApply xwp_call. iApply (wp_wand with "[Ht]"); [by iApply (wp_hash_destroy with "Ht")|].
  iIntros (s) "(_ & %tbl & %Hh & H1 & H2 & H3 & H4 & H5 & H6)". iApply xwp_ret. iSplit; [done|]. iFrame "Hos".
  iDestruct "Hst" as "[Htok Ha]". iExists h, (COMPARE :: HASH :: COPY_KEY :: DELETE_KEY :: tbl :: hash_table_size :: replicate 1530 0).
  iFrame "Htok". iSplit; [iPureIntro; reflexivity|]. rw array6. iFrame.
Qed.

End refinement.

(** C4: a table of address pairs, from [addr_hash_create] to [hash_destroy],
    answers as a list of pairs does, in which the last inserted come first: an
    insertion hides what was there with the same key, a deletion uncovers it, and
    an enumeration returns every record once.  In the end the memory is exactly
    the caller's keys, unchanged, the block that [addr_hash_create] allocates for
    256 structures, and what was there beside: the nodes, the copies of the keys
    and the rows have been freed exactly once.  The process ends only after a
    failed allocation. *)
Theorem addr_hash_refines `{HM : Malloc} (fuel : nat) (os : list (hop addr_pair)) :
  (length os < fuel)%nat → hash_table_size < Z.of_nat fuel →
  triple (fp_list fp_op os) (table_run fuel os)
    (or_exited (λ rs, fp_pure (hsteps [] os rs) ⊗ fp_list fp_op os ⊗ fp_structures)).
Proof.
  intros Hf Hf'. apply (wp_triple (A := outcome (list hresult))).
  exists ([∗ list] o ∈ os, op_key o)%I, (λ o, match o with
    | Done rs => ⌜hsteps [] os rs⌝ ∗ ([∗ list] o ∈ os, op_key o) ∗ left_over | Exited => ⌜¬ memory_left⌝ ∗ True end)%I.
  split_and!.
  - apply covers_list, covers_op.
  - intros [rs|]; [|apply _]. apply covers_sep; [apply _|]. apply covers_sep; [apply covers_list, covers_op|apply _].
  - iIntros "H". iApply (wp_wand with "[H]"); [by iApply (xwp_table_run with "H")|]. by iIntros ([rs|]) "H".
Qed.

(** ** A run *)

Definition flow1 : addr_pair := AddrPair 17 22 90 22 91.
Definition flow2 : addr_pair := AddrPair 6 22 (90 + 256) 22 91.

(** The keys of the calls; the two pairs are in one bucket. *)
Definition pair_cells (p : Z) (k : addr_pair) : list (Z * Z) :=
  [(p + protocol, a_protocol k); (p + src_port, a_src_port k); (p + src, a_src k); (p + dst_port, a_dst_port k);
   (p + dst, a_dst k)].
Definition sample_ops : list (hop addr_pair) :=
  [Insert 1000 flow1 7; Insert 1040 flow2 8; Insert 1080 flow1 9; Find 1120 flow1; Items; Delete 1160 flow1; Find 1200 flow1].
Definition sample_cells : list (Z * Z) :=
  pair_cells 1000 flow1 ++ pair_cells 1040 flow2 ++ pair_cells 1080 flow1 ++ pair_cells 1120 flow1 ++
  pair_cells 1160 flow1 ++ pair_cells 1200 flow1.

Lemma pair_cells_fp (p : Z) (k : addr_pair) : 0 < p → pair_ok k → fp_pair p k (pair_cells p k).
Proof.
  intros Hp Hk. unfold fp_pair, pair_cells. eapply fp_sep_intro; [by apply fp_pure_intro| |apply app_nil_l].
  fp_build.
Qed.

Lemma addr_hash_refines_witness :
  (fst <$> table_run (HM := bump) 300 sample_ops (list_to_map sample_cells) =
    Some (Done [Status 0; Status 0; Status 0; Value (0, Some 9); Records [9; 8; 7]; Status 0; Value (0, Some 7)])) ∧
  ∃ o m' cs', table_run (HM := bump) 300 sample_ops (list_to_map sample_cells) = Some (o, m') ∧
    or_exited (HM := bump) (λ rs, fp_pure (hsteps [] sample_ops rs) ⊗ fp_list fp_op sample_ops ⊗ fp_structures) o cs' ∧
    holds m' cs' ∧ outside cs' m' = ∅.
Proof.
  split; [vm_compute; reflexivity|].
  refine (addr_hash_refines (HM := bump) 300 sample_ops _ _ (list_to_map sample_cells) sample_cells _ _).
  - simpl. lia.
  - done.
  - assert (pair_ok flow1 ∧ pair_ok flow2) as [H1 H2] by (unfold pair_ok; simpl; lia).
    unfold sample_ops, fp_list.
    repeat (eapply fp_sep_intro; [first [by apply pair_cells_fp|by apply fp_pure_intro]| |reflexivity]).
    by apply fp_pure_intro.
  - apply holds_list_to_map. vm_compute. reflexivity.
Defined.
