(* ===== verification/AcBm.v ===== *)
(** * The AC-BM multi-pattern matcher (acbm/ac_bm_success/ac_bm.c)

    The patterns are put into a trie; a search goes through the text from right
    to left, follows the trie at each place, and moves on by the larger of two
    shifts, one for the mismatching character and one for the branch of the trie.
    Nodes and trees are records in blocks of the memory and a pointer is the
    address of its block; [malloc] is a parameter of the definitions.  A read
    outside an array or through a pointer to nothing has no result.  Code and
    data; the proofs are in [AcTrie], [AcShift] and [AcSearch]. *)

From S2P Require Import Prelude.

(** ** Data *)

Definition PATTERN_LEN : Z := 1024.

(** [pattern_tree_node]; a child that is not in the map is a null pointer. *)
Record tree_node := Node {
  label : Z;
  depth : Z;
  ch : Z;
  case_sen : Z;
  GSshift : Z;
  one_child : Z;
  childs : gmap Z Z;
  nchild : Z;
  parent : Z;
}.

Record pattern_data := Pattern {
  len : Z;
  pat_case_sen : Z;
  data : list Z;
}.

Record pattern_tree := Tree {
  root : Z;
  max_depth : Z;
  min_pattern_size : Z;
  BCshift : list Z;
  pattern_list : list pattern_data;
  pattern_count : Z;
}.

Abbreviation heap := (gmap Z tree_node).

(** The memory: the blocks with a node and those with a tree. *)
Record memory := Mem { nodes : heap; trees : gmap Z pattern_tree }.

Definition set_label (l : Z) (n : tree_node) : tree_node :=
  Node l (depth n) (ch n) (case_sen n) (GSshift n) (one_child n) (childs n) (nchild n) (parent n).
Definition set_GS (s : Z) (n : tree_node) : tree_node :=
  Node (label n) (depth n) (ch n) (case_sen n) s (one_child n) (childs n) (nchild n) (parent n).
Definition set_childs (m : gmap Z Z) (n : tree_node) : tree_node :=
  Node (label n) (depth n) (ch n) (case_sen n) (GSshift n) (one_child n) m (nchild n) (parent n).
Definition set_branch (c k : Z) (n : tree_node) : tree_node :=
  Node (label n) (depth n) (ch n) (case_sen n) (GSshift n) c (childs n) k (parent n).

(** [tolower] of the C locale. *)
Definition is_upper (c : Z) : bool := (65 <=? c) && (c <=? 90).
Definition is_lower (c : Z) : bool := (97 <=? c) && (c <=? 122).
Definition tolower (c : Z) : Z := if is_upper c then c + 32 else c.

Definition modify (a : Z) (f : tree_node → tree_node) (h : heap) : option heap := n ← h !! a; Some (<[a := f n]> h).

(** ** Building the trie *)

Section code.
(** [malloc] of a node. *)
Context (alloc : heap → option Z).

Definition char_at (p : pattern_data) (i : Z) : option Z :=
  c ← get (data p) i; Some (if pat_case_sen p =? 0 then tolower c else c).

(** The indices that are left when a branch has to be added, and where. *)
Fixpoint find_branch (p : pattern_data) (ixs : list Z) (par : Z) (h : heap) : option (list Z * Z) :=
  match ixs with
  | [] => Some ([], par)
  | i :: ixs' =>
    c ← char_at p i; n ← h !! par;
    match childs n !! c with None => Some (ixs, par) | Some k => find_branch p ixs' k h end
  end.

(** A new node below [par]; an entry for the capital letter too. *)
Definition link (p : pattern_data) (c par node : Z) (h : heap) : option heap :=
  modify par (λ n,
    let n := set_childs (<[c := node]> (childs n)) n in
    let n := if (pat_case_sen p =? 0) && is_lower c then set_childs (<[c - 32 := node]> (childs n)) n else n in
    set_branch c (nchild n + 1) n) h.

(** The last node, or none when there is no memory.  [acbmback_init] does not
    set [case_sen]. *)
Fixpoint add_branch (back : bool) (p : pattern_data) (ixs : list Z) (par : Z) (h : heap) : option (heap * option Z) :=
  match ixs with
  | [] => Some (h, Some par)
  | i :: ixs =>
    c ← char_at p i;
    match alloc h with
    | None => Some (h, None)
    | Some node =>
      let h := <[node := Node (-1) (i + 1) c (if back then 0 else pat_case_sen p) 0 0 ∅ 0 par]> h in
      h ← link p c par node h; add_branch back p ixs node h
    end
  end.

(** The order in which the characters of a pattern go into the trie. *)
Definition order (back : bool) (n : Z) : list Z := if back then reverse (seqZ 0 n) else seqZ 0 n.

(** The greatest and the least length, or none when there is no memory. *)
Fixpoint build_loop (back : bool) (ps : list pattern_data) (i root mx mn : Z) (h : heap) : option (heap * option (Z * Z)) :=
  match ps with
  | [] => Some (h, Some (mx, mn))
  | p :: ps =>
    if len p =? 0 then build_loop back ps (i + 1) root mx mn h
    else
      let pat_len := if PATTERN_LEN <? len p then PATTERN_LEN else len p in
      let mx := if mx <? pat_len then pat_len else mx in
      let mn := if pat_len <? mn then pat_len else mn in
      '(ixs, par) ← find_branch p (order back pat_len) root h;
      '(h, last) ← add_branch back p ixs par h;
      match last with
      | None => Some (h, None)
      | Some last => h ← modify last (set_label i) h; build_loop back ps (i + 1) root mx mn h
      end
  end.

(** [_clean_tree]; the children are freed. *)
Fixpoint clean_tree (fuel : nat) (a : Z) (h : heap) : option heap :=
  match fuel with
  | O => None
  | S fuel =>
    foldl (λ r i, h ← r; n ← h !! a;
      if (case_sen n =? 0) && is_upper i then Some h
      else match childs n !! i with
        | None => Some h
        | Some k => h ← clean_tree fuel k h; _ ← h !! k; modify a (λ n, set_childs (delete i (childs n)) n) (delete k h)
        end) (Some h) (seqZ 0 256)
  end.

Definition set_root (r : Z) (t : pattern_tree) : pattern_tree :=
  Tree r (max_depth t) (min_pattern_size t) (BCshift t) (pattern_list t) (pattern_count t).

(** The end of [ACtree_build] when something failed. *)
Definition build_error (fuel : nat) (t : pattern_tree) (h : heap) : option (Z * pattern_tree * heap) :=
  if root t =? 0 then Some (-1, t, h)
  else h ← clean_tree fuel (root t) h; _ ← h !! root t; Some (-1, set_root 0 t, delete (root t) h).

(** [ACtree_build], and [ACtreeback_build] with [back]; a list of patterns is
    [None] for a null pointer. *)
Definition build (back : bool) (fuel : nat) (t : pattern_tree) (patterns : option (list pattern_data)) (h : heap) :
    option (Z * pattern_tree * heap) :=
  match patterns with
  | None => build_error fuel t h
  | Some ps =>
    match alloc h with
    | None => build_error fuel t h
    | Some r =>
      '(h, sizes) ← build_loop back ps 0 r 0 PATTERN_LEN (<[r := Node (-2) 0 0 0 0 0 ∅ 0 0]> h);
      match sizes with
      | None => build_error fuel t h
      | Some (mx, mn) => Some (0, Tree r mx mn (BCshift t) ps (Z.of_nat (length ps)), h)
      end
    end
  end.

(** ** The shifts *)

(** A character, when the first pattern decides on the case. *)
Definition folded (t : pattern_tree) (c : Z) : option Z :=
  p ← head (pattern_list t); Some (if pat_case_sen p =? 0 then tolower c else c).

Fixpoint BC_patterns (t : pattern_tree) (ps : list pattern_data) (i : Z) (bc : list Z) : option (list Z) :=
  match ps with
  | [] => Some bc
  | p :: ps =>
    c ← get (data p) i; c ← folded t c; p0 ← head (pattern_list t);
    bc ← set bc c i;
    bc ← (if (pat_case_sen p0 =? 0) && is_lower c then set bc (c - 32) i else Some bc);
    BC_patterns t ps i bc
  end.

(** From the last place to the second. *)
Definition ACtree_compute_BCshifts (t : pattern_tree) : option pattern_tree :=
  bc ← foldl (λ r i, bc ← r; BC_patterns t (pattern_list t) i bc) (Some (replicate 256 (min_pattern_size t)))
    (reverse (seqZ 1 (min_pattern_size t - 1)));
  Some (Tree (root t) (max_depth t) (min_pattern_size t) bc (pattern_list t) (pattern_count t)).

Fixpoint walk_down (pat : list Z) (ixs : list Z) (a : Z) (h : heap) : option (option Z) :=
  match ixs with
  | [] => Some (Some a)
  | i :: ixs =>
    n ← h !! a; c ← get pat i;
    match childs n !! c with None => Some None | Some k => walk_down pat ixs k h end
  end.

Definition set_GSshift (t : pattern_tree) (pat : list Z) (depth shift : Z) (h : heap) : option heap :=
  if root t =? 0 then Some h
  else
    r ← walk_down pat (seqZ 0 depth) (root t) h;
    match r with
    | None => Some h
    | Some a => modify a (λ n, set_GS (if GSshift n <? shift then GSshift n else shift) n) h
    end.

(** The first index from [i] on whose character is, or is not, [c]. *)
Fixpoint skip_chars (fuel : nat) (same : bool) (t : pattern_tree) (pat : list Z) (n c i : Z) : option Z :=
  match fuel with
  | O => None
  | S fuel =>
    if i <? n then
      x ← get pat i; x ← folded t x;
      if eqb (x =? c) same then skip_chars fuel same t pat n c (i + 1) else Some i
    else Some i
  end.

(** How far the patterns agree from [i] and [j] on. *)
Fixpoint agree (fuel : nat) (t : pattern_tree) (pat1 : list Z) (len1 : Z) (pat2 : list Z) (len2 i j : Z) : option (Z * Z) :=
  match fuel with
  | O => None
  | S fuel =>
    if (j <? len2) && (i <? len1) then
      x ← get pat1 i; x ← folded t x; y ← get pat2 j; y ← folded t y;
      if x =? y then agree fuel t pat1 len1 pat2 len2 (i + 1) (j + 1) else Some (i, j)
    else Some (i, j)
  end.

Fixpoint GS_loop (fuel : nat) (t : pattern_tree) (pat1 : list Z) (len1 : Z) (pat2 : list Z) (len2 c i : Z) (h : heap) :
    option heap :=
  match fuel with
  | O => None
  | S fuel' =>
    i ← skip_chars fuel false t pat2 len2 c i;
    if i =? len2 then Some h
    else
      let offset := i in
      if min_pattern_size t <? offset then Some h
      else
        '(i1, i2) ← agree fuel t pat1 len1 pat2 len2 0 i;
        h ← (if i1 =? len1 then Some h
             else if i2 =? len2 then
               foldl (λ r j, h ← r; set_GSshift t pat1 (j + 1) offset h) (Some h) (seqZ i1 (len1 - i1))
             else set_GSshift t pat1 (i1 + 1) offset h);
        GS_loop fuel' t pat1 len1 pat2 len2 c (i + 1) h
  end.

Definition compute_GSshift (fuel : nat) (t : pattern_tree) (pat1 : list Z) (len1 : Z) (pat2 : list Z) (len2 : Z) (h : heap) :
    option heap :=
  if (len1 <? 0) || (len2 <? 0) then Some h
  else if (len1 =? 0) || (len2 =? 0) then Some h
  else
    c ← get pat1 0; c ← folded t c;
    i ← skip_chars fuel true t pat2 len2 c 1;
    h ← set_GSshift t pat1 1 i h;
    GS_loop fuel t pat1 len1 pat2 len2 c 1 h.

Definition ACtree_compute_GSshifts (fuel : nat) (t : pattern_tree) (h : heap) : option heap :=
  foldl (λ r p, foldl (λ r q, h ← r; compute_GSshift fuel t (data p) (len p) (data q) (len q) h) r (pattern_list t))
    (Some h) (pattern_list t).

Fixpoint init_GSshifts (fuel : nat) (a shift : Z) (h : heap) : option heap :=
  match fuel with
  | O => None
  | S fuel =>
    n ← h !! a; let h := if label n =? -2 then h else <[a := set_GS shift n]> h in
    foldl (λ r i, h ← r; n ← h !! a;
      if (case_sen n =? 0) && is_upper i then Some h
      else match childs n !! i with None => Some h | Some k => init_GSshifts fuel k shift h end) (Some h) (seqZ 0 256)
  end.

Definition ACtree_compute_shifts (fuel : nat) (t : pattern_tree) (h : heap) : option (pattern_tree * heap) :=
  t ← ACtree_compute_BCshifts t;
  h ← init_GSshifts fuel (root t) (min_pattern_size t) h;
  h ← ACtree_compute_GSshifts fuel t h; Some (t, h).

Definition zero_tree : pattern_tree := Tree 0 0 0 (replicate 256 0) [] 0.

End code.

Section tree.
(** [malloc]; what a block will hold makes no difference to it. *)
Context (malloc : memory → option Z).

(** The tree is put into its block; NULL is returned when there is none.  What
    [ACtree_build] returns is not tested. *)
Definition acbm_init (fuel : nat) (patterns : option (list pattern_data)) (m : memory) : option (Z * memory) :=
  match malloc m with
  | None => Some (0, m)
  | Some ptree =>
    let put t := <[ptree := t]> (trees m) in
    '(_, t, h) ← build (λ h, malloc (Mem h (put zero_tree))) false fuel zero_tree patterns (nodes m);
    '(t, h) ← ACtree_compute_shifts fuel t h; Some (ptree, Mem h (put t))
  end.

Definition acbmback_init (fuel : nat) (patterns : option (list pattern_data)) (m : memory) : option (Z * memory) :=
  match malloc m with
  | None => Some (0, m)
  | Some ptree =>
    let put t := <[ptree := t]> (trees m) in
    '(_, t, h) ← build (λ h, malloc (Mem h (put zero_tree))) true fuel zero_tree patterns (nodes m);
    Some (ptree, Mem h (put t))
  end.
End tree.

(** The nodes, the root and the block of the tree are freed. *)
Definition acbm_clean (fuel : nat) (ptree : Z) (m : memory) : option memory :=
  if ptree =? 0 then Some m
  else
    t ← trees m !! ptree;
    h ← (if root t =? 0 then Some (nodes m)
         else h ← clean_tree fuel (root t) (nodes m); _ ← h !! root t; Some (delete (root t) h));
    Some (Mem h (delete ptree (trees m))).

(** ** Searching *)

(** The two searches differ in what they record of a match, its label and its place. *)
Section search.
Context {A : Type} (item : Z → Z → A).

(** The node and the index where the walk ends, what has been recorded, and
    whether that is all that was asked for. *)
Fixpoint walk (fuel : nat) (h : heap) (text : list Z) (nmax base node cur : Z) (out : list A) : option (Z * Z * list A * bool) :=
  match fuel with
  | O => None
  | S fuel =>
    n ← h !! node; c ← get text cur;
    match childs n !! c with
    | None => Some (node, cur, out, false)
    | Some node =>
      n ← h !! node;
      let out := if 0 <=? label n then out ++ [item (label n) base] else out in
      if (0 <=? label n) && (Z.of_nat (length out) =? nmax) then Some (node, cur, out, true)
      else
        let cur := cur + 1 in
        if Z.of_nat (length text) <=? cur then Some (node, cur, out, false)
        else walk fuel h text nmax base node cur out
    end
  end.

Definition next_base (t : pattern_tree) (h : heap) (text : list Z) (base node cur : Z) : option Z :=
  n ← h !! node;
  if 0 <? nchild n then
    k ← childs n !! one_child n; m ← h !! k;
    let gs_shift := GSshift m in
    bc_shift ← (if cur <? Z.of_nat (length text) then c ← get text cur; b ← get (BCshift t) c; Some (b + base - cur)
                else Some 1);
    Some (base - (if bc_shift <? gs_shift then gs_shift else bc_shift))
  else Some (base - 1).

Fixpoint search_loop (fuel : nat) (t : pattern_tree) (h : heap) (text : list Z) (nmax base : Z) (out : list A) : option (list A) :=
  match fuel with
  | O => None
  | S fuel' =>
    if 0 <=? base then
      '(node, cur, out, stop) ← walk fuel h text nmax base (root t) base out;
      if (stop : bool) then Some out
      else base ← next_base t h text base node cur; search_loop fuel' t h text nmax base out
    else Some out
  end.

Definition search (fuel : nat) (t : pattern_tree) (h : heap) (text : list Z) (nmax : Z) : option (list A) :=
  if Z.of_nat (length text) <? min_pattern_size t then Some []
  else search_loop fuel t h text nmax (Z.of_nat (length text) - min_pattern_size t) [].
End search.

(** What is stored in the array of the caller; its length is returned. *)
Definition acbm_search (fuel : nat) (ptree : Z) (m : memory) (text : list Z) (nmax : Z) : option (list Z) :=
  t ← trees m !! ptree; search (λ l _, l) fuel t (nodes m) text nmax.
Definition acbm_search_ex (fuel : nat) (ptree : Z) (m : memory) (text : list Z) (nmax : Z) : option (list (Z * Z)) :=
  t ← trees m !! ptree; search (λ l base, (l, base)) fuel t (nodes m) text nmax.
