(* ===== verification/AcTrie.v ===== *)
(** * The trie of the AC-BM matcher

    A trie on the heap is described by the map from words to the addresses of
    their nodes; [rep] relates the two.  The file shows that building keeps
    [rep] and adds the prefixes of the patterns, and that cleaning takes all
    nodes away again. *)

From S2P Require Import Prelude AcBm.

(** ** Words *)

(** [cs]: capital letters are letters of their own. *)
Definition fold (cs : bool) (c : Z) : Z := if cs then c else tolower c.

Lemma fold_idemp (cs : bool) (c : Z) : fold cs (fold cs c) = fold cs c.
Proof.
  unfold fold, tolower, is_upper. destruct cs; [done|].
  destruct (Z.leb_spec 65 c), (Z.leb_spec c 90); simpl; repeat case_match; lia.
Qed.

Lemma fold_byte (cs : bool) (c : Z) : is_byte c → is_byte (fold cs c).
Proof.
  unfold fold, tolower, is_upper, is_byte. destruct cs; [done|].
  destruct (Z.leb_spec 65 c), (Z.leb_spec c 90); simpl; lia.
Qed.

(** A folded letter has one other form at most. *)
Lemma fold_eq (cs : bool) (x c : Z) :
  fold cs c = c → fold cs x = c ↔ x = c ∨ (negb cs && is_lower c = true ∧ x = c - 32).
Proof.
  unfold fold, tolower, is_upper, is_lower. destruct cs; simpl; [naive_solver|].
  destruct (Z.leb_spec 65 c), (Z.leb_spec c 90), (Z.leb_spec 65 x), (Z.leb_spec x 90),
    (Z.leb_spec 97 c), (Z.leb_spec c 122); simpl; intros; split; intros; destruct_or?; destruct_and?; try lia; try done;
    try (right; split; [done|lia]); try (left; lia).
Qed.

Lemma fold_lower (cs : bool) (i : Z) : negb cs && is_upper i = false → fold cs i = i.
Proof. unfold fold, tolower. destruct cs; simpl; [done|]. by intros ->. Qed.

(** A pattern whose characters are all in its array. *)
Definition pattern_ok (cs : bool) (p : pattern_data) : Prop :=
  0 ≤ len p ≤ PATTERN_LEN ∧ length (data p) = Z.to_nat PATTERN_LEN ∧ Forall is_byte (data p) ∧
  (pat_case_sen p =? 0) = negb cs.

Definition key (cs : bool) (p : pattern_data) : list Z := fold cs <$> take (Z.to_nat (len p)) (data p).

(** The indices and the characters that they stand for. *)
Definition letter (cs : bool) (c : Z) : Prop := is_byte c ∧ fold cs c = c.
Definition spell (cs : bool) (p : pattern_data) (ixs ws : list Z) : Prop :=
  Forall2 (λ i c, char_at p i = Some c ∧ letter cs c) ixs ws.

Lemma length_key (cs : bool) (p : pattern_data) : pattern_ok cs p → length (key cs p) = Z.to_nat (len p).
Proof. intros (Hl & Hd & _). unfold key. rewrite length_fmap, length_take. lia. Qed.

Lemma char_at_key (cs : bool) (p : pattern_data) (i : nat) (c : Z) :
  pattern_ok cs p → key cs p !! i = Some c → char_at p (Z.of_nat i) = Some c ∧ letter cs c.
Proof.
  intros (Hl & Hd & Hb & Hcs) Hc. unfold key in Hc. apply list_lookup_fmap_Some in Hc as (x & -> & Hx).
  apply lookup_take_Some in Hx as [Hx _]. pose proof (Forall_lookup_1 _ _ _ _ Hb Hx) as Hbx. split.
  - unfold char_at, get. rewrite (proj2 (Z.ltb_ge _ _)), Nat2Z.id, Hx, Hcs by lia. simpl. unfold fold. by destruct cs.
  - split; [by apply fold_byte|apply fold_idemp].
Qed.

Lemma spell_key (cs : bool) (p : pattern_data) : pattern_ok cs p → spell cs p (seqZ 0 (len p)) (key cs p).
Proof.
  intros Hp. unfold spell. apply Forall2_same_length_lookup. split.
  - rewrite length_seqZ, length_key by done. done.
  - intros i x c Hx Hc. apply lookup_seqZ in Hx as [-> Hi]. simpl. by apply char_at_key.
Qed.

Lemma spell_order (cs back : bool) (p : pattern_data) :
  pattern_ok cs p → spell cs p (order back (len p)) (if back then reverse (key cs p) else key cs p).
Proof. intros Hp. pose proof (spell_key cs p Hp) as H. destruct back; [by apply Forall2_reverse|done]. Qed.

(** ** The representation *)

Abbreviation words := (gmap (list Z) Z).

Definition inner (A : words) (w : list Z) : Prop := ∃ c, is_Some (A !! (w ++ [c])).

Record node_ok (cs back : bool) (A : words) (lab : list Z → Z) (w : list Z) (n : tree_node) : Prop := NodeOk {
  ok_childs c : childs n !! c = A !! (w ++ [fold cs c]);
  ok_nchild : 0 ≤ nchild n;
  ok_inner : 0 < nchild n ↔ inner A w;
  ok_one : 0 < nchild n → is_Some (A !! (w ++ [one_child n])) ;
  ok_case : (case_sen n =? 0) = negb cs || back || bool_decide (w = []);
  ok_label : label n = if decide (w = []) then -2 else lab w;
}.

(** [old]: the heap around the trie. *)
Record rep (cs back : bool) (old h : heap) (A : words) (lab : list Z → Z) : Prop := Rep {
  rep_root : is_Some (A !! []);
  rep_inj v w a : A !! v = Some a → A !! w = Some a → v = w;
  rep_prefix w c : is_Some (A !! (w ++ [c])) → is_Some (A !! w) ∧ letter cs c;
  rep_fresh w a : A !! w = Some a → 0 < a ∧ old !! a = None;
  rep_node w a : A !! w = Some a → ∃ n, h !! a = Some n ∧ node_ok cs back A lab w n;
  rep_old x : (∀ w, A !! w ≠ Some x) → h !! x = old !! x;
}.

(** Labels are indices of patterns, or -1. *)
Definition labels_ok (lab : list Z → Z) : Prop := ∀ w, -1 ≤ lab w.

Section rep.
Context (cs back : bool) (old : heap).

Lemma rep_prefix_app (h : heap) (A : words) (lab : list Z → Z) (w v : list Z) :
  rep cs back old h A lab → is_Some (A !! (w ++ v)) → is_Some (A !! w) ∧ Forall (letter cs) v.
Proof.
  intros R. induction v as [|c v IH] using rev_ind; intros H; [by rewrite app_nil_r in H|].
  rewrite app_assoc in H. apply (rep_prefix _ _ _ _ _ _ R) in H as [H Hc]. apply IH in H as [H Hv].
  split; [done|]. apply Forall_app. auto.
Qed.

(** A node for one more word. *)
Lemma rep_link (h : heap) (A : words) (lab : list Z → Z) (p : pattern_data) (w : list Z) (par c node d : Z) :
  rep cs back old h A lab → (pat_case_sen p =? 0) = negb cs → letter cs c →
  A !! w = Some par → A !! (w ++ [c]) = None → h !! node = None → 0 < node → lab (w ++ [c]) = -1 →
  ∃ h', link p c par node (<[node := Node (-1) d c (if back then 0 else pat_case_sen p) 0 0 ∅ 0 par]> h) = Some h' ∧
    rep cs back old h' (<[w ++ [c] := node]> A) lab.
Proof.
  intros R Hp [Hc Hfold] Hw Hnew Hfresh Hpos Hlab.
  destruct (rep_node _ _ _ _ _ _ R w par Hw) as (n & Hn & Hok).
  assert (Hne : ∀ u a, A !! u = Some a → a ≠ node).
  { intros u a Hu ->. destruct (rep_node _ _ _ _ _ _ R u node Hu) as (? & ? & _). congruence. }
  assert (Hold : old !! node = None).
  { rewrite <- (rep_old _ _ _ _ _ _ R node); [done|]. intros u Hu. by apply (Hne u node Hu). }
  unfold link, modify. rewrite lookup_insert_ne, Hn by (intros ->; by apply (Hne w par Hw)). simpl.
  eexists. split; [done|]. split.
  - rewrite lookup_insert_ne by (by destruct w). apply R.
  - intros u v a [[<- <-]|[Hu Hu']]%lookup_insert_Some [[<- E]|[Hv Hv']]%lookup_insert_Some; try done.
    + by apply Hne in Hv'.
    + subst a. by apply Hne in Hu'.
    + by apply (rep_inj _ _ _ _ _ _ R u v a).
  - intros u x [a [[E <-]|[Hu Hu']]%lookup_insert_Some].
    + apply app_inj_tail in E as [-> ->]. split; [|done]. rewrite lookup_insert_is_Some. right. split; [|by exists par].
      intros E. apply (f_equal length) in E. rewrite length_app in E. simpl in E. lia.
    + destruct (rep_prefix _ _ _ _ _ _ R u x) as [H ?]; [by exists a|]. split; [|done].
      rewrite lookup_insert_is_Some. destruct (decide (w ++ [c] = u)); auto.
  - intros u a [[<- <-]|[Hu Hu']]%lookup_insert_Some; [done|]. by apply (rep_fresh _ _ _ _ _ _ R u).
  - intros u a [[<- <-]|[Hu Hu']]%lookup_insert_Some.
    + rewrite lookup_insert_ne, lookup_insert_eq by (by apply (Hne w par)). eexists. split; [done|]. split; simpl.
      * intros x. rewrite lookup_empty, lookup_insert_ne.
        -- destruct (A !! ((w ++ [c]) ++ [fold cs x])) eqn:E; [|done].
           destruct (rep_prefix _ _ _ _ _ _ R (w ++ [c]) (fold cs x)) as [[? H] _]; [by eexists|congruence].
        -- intros E. apply (f_equal length) in E. rewrite !length_app in E. simpl in E. lia.
      * lia.
      * split; [lia|]. intros [x [b [[E _]|[_ E]]%lookup_insert_Some]].
        -- apply (f_equal length) in E. rewrite !length_app in E. simpl in E. lia.
        -- destruct (rep_prefix _ _ _ _ _ _ R (w ++ [c]) x) as [[? H] _]; [by eexists|congruence].
      * lia.
      * rewrite bool_decide_eq_false_2 by (by destruct w). destruct back; simpl; [by rewrite orb_true_r|].
        by rewrite Hp, !orb_false_r.
      * rewrite decide_False by (by destruct w). done.
    + destruct (decide (u = w)) as [->|Huw].
      * assert (a = par) as -> by congruence. rewrite lookup_insert_eq. eexists. split; [done|]. destruct Hok as [H1 H2 H3 H4 H5 H6].
        assert (Hch : ∀ m x, (if (pat_case_sen p =? 0) && is_lower c then set_childs (<[c - 32:=node]> (<[c:=node]> (childs n))) m
            else set_childs (<[c:=node]> (childs n)) m).(childs) !! x = <[w ++ [c] := node]> A !! (w ++ [fold cs x])).
        { intros m x. rewrite Hp. pose proof (fold_eq cs x c Hfold) as Hx. destruct (decide (fold cs x = c)) as [E|E].
          - rewrite E, lookup_insert_eq. destruct Hx as [Hx _]. specialize (Hx E).
            destruct (negb cs && is_lower c) eqn:El; simpl.
            + destruct (decide (x = c - 32)) as [->|?]; [by rewrite lookup_insert_eq|].
              destruct Hx as [->|[_ ?]]; [|done]. rewrite lookup_insert_ne by lia. by rewrite lookup_insert_eq.
            + destruct Hx as [->|[? _]]; [|done]. by rewrite lookup_insert_eq.
          - rewrite (lookup_insert_ne A) by (intros [_ ?]%app_inj_tail; congruence). rewrite <- H1.
            destruct (negb cs && is_lower c) eqn:El; simpl.
            + rewrite !lookup_insert_ne; [done|..]; intros <-; apply E, Hx; auto.
            + rewrite lookup_insert_ne; [done|]. intros <-. apply E, Hx. auto. }
        split; simpl.
        -- intros x. rewrite <- (Hch n x). by destruct (_ && _).
        -- destruct (_ && _); simpl; lia.
        -- split; [|destruct (_ && _); simpl; lia]. intros _. exists c. by rewrite lookup_insert_eq.
        -- intros _. by rewrite lookup_insert_eq.
        -- rewrite <- H5. by destruct (_ && _).
        -- rewrite <- H6. by destruct (_ && _).
      * assert (a ≠ par) by (intros ->; by apply Huw, (rep_inj _ _ _ _ _ _ R u w par)).
        assert (a ≠ node) by (by apply (Hne u)). rewrite !lookup_insert_ne by done.
        destruct (rep_node _ _ _ _ _ _ R u a Hu') as (m & Hm & [H1 H2 H3 H4 H5 H6]). exists m. split; [done|].
        assert (Hch : ∀ x, <[w ++ [c] := node]> A !! (u ++ [x]) = A !! (u ++ [x])).
        { intros x. rewrite lookup_insert_ne; [done|]. intros [-> _]%app_inj_tail. done. }
        split; try done.
        -- intros x. by rewrite Hch.
        -- rewrite H3. unfold inner. by setoid_rewrite Hch.
        -- by rewrite Hch.
  - intros x Hx. rewrite !lookup_insert_ne.
    + apply (rep_old _ _ _ _ _ _ R). intros u Hu. destruct (decide (u = w ++ [c])) as [->|?]; [congruence|].
      apply (Hx u). by rewrite lookup_insert_ne.
    + intros ->. apply (Hx (w ++ [c])). by rewrite lookup_insert_eq.
    + intros ->. apply (Hx w). rewrite lookup_insert_ne; [done|]. intros E. apply (f_equal length) in E. rewrite length_app in E. simpl in E. lia.
Qed.

Lemma rep_label (h : heap) (A : words) (lab : list Z → Z) (w : list Z) (a i : Z) :
  rep cs back old h A lab → A !! w = Some a → w ≠ [] →
  ∃ h', modify a (set_label i) h = Some h' ∧ rep cs back old h' A (λ u, if decide (u = w) then i else lab u).
Proof.
  intros R Hw Hne. destruct (rep_node _ _ _ _ _ _ R w a Hw) as (n & Hn & [H1 H2 H3 H4 H5 H6]).
  unfold modify. rewrite Hn. simpl. eexists. split; [done|]. split; [apply R..| |].
  - intros u b Hu. destruct (decide (u = w)) as [->|Huw].
    + assert (b = a) as -> by congruence. rewrite lookup_insert_eq. eexists. split; [done|]. split; simpl; try done.
      rewrite decide_False, decide_True by done. done.
    + rewrite lookup_insert_ne by (intros ->; by apply Huw, (rep_inj _ _ _ _ _ _ R u w b)).
      destruct (rep_node _ _ _ _ _ _ R u b Hu) as (m & Hm & [G1 G2 G3 G4 G5 G6]). exists m. split; [done|].
      split; try done. rewrite G6. destruct (decide (u = [])); [done|]. by rewrite decide_False.
  - intros x Hx. rewrite lookup_insert_ne by (intros ->; by apply (Hx w)). by apply (rep_old _ _ _ _ _ _ R).
Qed.

Lemma find_branch_spec (h : heap) (A : words) (lab : list Z → Z) (p : pattern_data) (ixs ws w : list Z) (par : Z) :
  rep cs back old h A lab → spell cs p ixs ws → A !! w = Some par →
  ∃ ixs' ws1 ws2 par', find_branch p ixs par h = Some (ixs', par') ∧ ws = ws1 ++ ws2 ∧ spell cs p ixs' ws2 ∧
    A !! (w ++ ws1) = Some par' ∧ (∀ c v, ws2 = c :: v → A !! ((w ++ ws1) ++ [c]) = None).
Proof.
  intros R Hs. revert w par. induction Hs as [|i c ixs ws [Hc [Hb Hf]] Hs IH]; intros w par Hw.
  { exists [], [], [], par. rewrite (app_nil_r w). split_and!; [done|done|by apply Forall2_nil|done|by intros]. }
  cbn [find_branch]. rewrite Hc. simpl. destruct (rep_node _ _ _ _ _ _ R w par Hw) as (n & Hn & Hok). rewrite Hn. simpl.
  rewrite (ok_childs _ _ _ _ _ _ Hok), Hf. destruct (A !! (w ++ [c])) as [k|] eqn:Hk.
  - destruct (IH (w ++ [c]) k Hk) as (ixs' & ws1 & ws2 & par' & E & -> & Hs' & Hp & Hlast).
    exists ixs', (c :: ws1), ws2, par'. rewrite <- app_assoc in Hp, Hlast. split_and!; done.
  - exists (i :: ixs), [], (c :: ws), par. rewrite (app_nil_r w). split_and!; [done|done|by constructor|done|].
    by intros ? ? [= <- <-].
Qed.

(** A block that is given is not NULL and not in use. *)
Definition alloc_ok (alloc : heap → option Z) : Prop := ∀ h a, alloc h = Some a → 0 < a ∧ h !! a = None.

Context (alloc : heap → option Z) (Halloc : alloc_ok alloc).

Lemma add_branch_spec (p : pattern_data) (ixs ws : list Z) :
  (pat_case_sen p =? 0) = negb cs → spell cs p ixs ws → ∀ h A lab w par,
  rep cs back old h A lab → A !! w = Some par → (∀ c v, ws = c :: v → A !! (w ++ [c]) = None) →
  (∀ u, A !! u = None → lab u = -1) →
  (∃ h' A', add_branch alloc back p ixs par h = Some (h', None) ∧ rep cs back old h' A' lab ∧ alloc h' = None) ∨
  ∃ h' A' a, add_branch alloc back p ixs par h = Some (h', Some a) ∧ rep cs back old h' A' lab ∧
    A' !! (w ++ ws) = Some a ∧ A ⊆ A' ∧ (∀ u, is_Some (A' !! u) ↔ is_Some (A !! u) ∨ u `prefix_of` w ++ ws).
Proof using Halloc.
  intros Hp Hs. induction Hs as [|i c ixs ws [Hc Hlet] Hs IH]; intros h A lab w par R Hw Hnew Hlab.
  { right. exists h, A, par. rewrite app_nil_r. split_and!; try done. intros u. split; [auto|]. intros [?|[v ->]]; [done|].
    apply (rep_prefix_app h A lab u v R). eauto. }
  cbn [add_branch]. rewrite Hc. simpl. destruct (alloc h) as [node|] eqn:Ea; [|left; by exists h, A].
  destruct (Halloc h node Ea) as [Hpos Hfresh].
  specialize (Hnew c ws eq_refl).
  destruct (rep_link h A lab p w par c node (i + 1) R Hp Hlet Hw Hnew Hfresh Hpos (Hlab _ Hnew)) as (h1 & -> & R1). simpl.
  destruct (IH h1 _ lab (w ++ [c]) node R1) as [?|(h' & A' & a & E & R' & Ha & Hsub & Hdom)].
  - by rewrite lookup_insert_eq.
  - intros d v _. rewrite lookup_insert_ne.
    + destruct (A !! ((w ++ [c]) ++ [d])) eqn:E; [|done].
      destruct (rep_prefix _ _ _ _ _ _ R (w ++ [c]) d) as [[? ?] _]; [by eexists|congruence].
    + intros E. apply (f_equal length) in E. rewrite !length_app in E. simpl in E. lia.
  - intros u [? _]%lookup_insert_None. auto.
  - by left.
  - right. exists h', A', a. rewrite <- app_assoc in Ha, Hdom. split_and!; [done|done|done|by etrans; [apply insert_subseteq|]|]. intros u. rewrite Hdom, lookup_insert_is_Some'.
    split; [|naive_solver]. intros [[<-|?]|?]; [|auto|auto]. right. exists ws. by rewrite <- app_assoc.
Qed.

(** The word of a pattern, and the last pattern with a word. *)
Definition word (p : pattern_data) : list Z := if back then reverse (key cs p) else key cs p.

Fixpoint last_index (ps : list pattern_data) (i : Z) (w : list Z) : Z :=
  match ps with
  | [] => -1
  | p :: ps =>
    let r := last_index ps (i + 1) w in if r =? -1 then if decide (word p = w) then i else -1 else r
  end.

Definition shortest (mn : Z) (ps : list pattern_data) : Z :=
  foldl (λ m p, if len p =? 0 then m else Z.min m (len p)) mn ps.
Definition longest (mx : Z) (ps : list pattern_data) : Z :=
  foldl (λ m p, if len p =? 0 then m else Z.max m (len p)) mx ps.

Lemma word_nil (p : pattern_data) : pattern_ok cs p → word p = [] ↔ len p = 0.
Proof.
  intros Hp. pose proof (length_key cs p Hp) as Hl. destruct Hp as [? _]. unfold word. split.
  - intros E. apply (f_equal length) in E. destruct back; rewrite ?length_reverse in E; simpl in E; lia.
  - intros E. assert (key cs p = []) as -> by (apply nil_length_inv; lia). by destruct back.
Qed.

Lemma build_loop_spec (ps : list pattern_data) (r : Z) :
  Forall (pattern_ok cs) ps → ∀ i h A lab mx mn,
  0 ≤ i → rep cs back old h A lab → A !! [] = Some r → (∀ u, A !! u = None → lab u = -1) →
  (∃ h' A' lab', build_loop alloc back ps i r mx mn h = Some (h', None) ∧ rep cs back old h' A' lab' ∧ alloc h' = None) ∨
  ∃ h' A' lab', build_loop alloc back ps i r mx mn h = Some (h', Some (longest mx ps, shortest mn ps)) ∧
    rep cs back old h' A' lab' ∧ A' !! [] = Some r ∧ (∀ u, A' !! u = None → lab' u = -1) ∧
    (∀ u, is_Some (A' !! u) ↔ is_Some (A !! u) ∨ ∃ p, p ∈ ps ∧ u `prefix_of` word p) ∧
    (∀ u, u ≠ [] → lab' u = let j := last_index ps i u in if j =? -1 then lab u else j).
Proof using Halloc.
  induction 1 as [|p ps Hp Hps IH]; intros i h A lab mx mn Hi R Hr Hlab; cbn [build_loop].
  { right. exists h, A, lab. split_and!; try done. intros u. split; [auto|]. intros [?|(p & []%elem_of_nil & _)]. done. }
  destruct (Z.eqb_spec (len p) 0) as [H0|H0].
  - destruct (IH (i + 1) h A lab mx mn) as [?|(h' & A' & lab' & -> & R' & Hr' & Hl' & Hdom & Hlast)]; [lia|done..|by left|].
    right. exists h', A', lab'. pose proof (proj2 (word_nil p Hp) H0) as Hw. unfold longest, shortest. simpl. rewrite H0. simpl.
    split_and!; [done|done|done|done| |].
    + intros u. rewrite Hdom. setoid_rewrite elem_of_cons. split; [naive_solver|]. intros [?|(q & [->|Hq] & Hu)]; [auto| |eauto].
      rewrite Hw in Hu. apply prefix_nil_inv in Hu as ->. left. by exists r.
    + intros u Hu. rewrite Hlast by done. simpl. rewrite decide_False by congruence.
      destruct (last_index ps (i + 1) u =? -1) eqn:E; [|by rewrite E]. done.
  - pose proof Hp as (Hlen & _ & _ & Hcase). rewrite (proj2 (Z.ltb_ge PATTERN_LEN (len p))) by lia.
    destruct (find_branch_spec h A lab p _ _ [] r R (spell_order cs back p Hp) Hr)
      as (ixs & ws1 & ws2 & par & -> & Hws & Hs & Hpar & Hnew). simpl. fold (word p) in Hws. simpl in Hpar, Hnew.
    destruct (add_branch_spec p ixs ws2 Hcase Hs h A lab ws1 par R Hpar Hnew Hlab)
      as [(h1 & A1 & -> & R1 & Hfail)|(h1 & A1 & a & -> & R1 & Ha & Hsub & Hdom1)]; simpl.
    { left. by exists h1, A1, lab. }
    rewrite <- Hws in Ha, Hdom1. assert (word p ≠ []) as Hne by (by rewrite word_nil).
    destruct (rep_label h1 A1 lab (word p) a i R1 Ha Hne) as (h2 & -> & R2). simpl.
    assert ((if mx <? len p then len p else mx) = Z.max mx (len p)) as -> by (destruct (Z.ltb_spec mx (len p)); lia).
    assert ((if len p <? mn then len p else mn) = Z.min mn (len p)) as -> by (destruct (Z.ltb_spec (len p) mn); lia).
    destruct (IH (i + 1) h2 A1 _ (Z.max mx (len p)) (Z.min mn (len p)) ltac:(lia) R2)
      as [?|(h' & A' & lab' & -> & R' & Hr' & Hl' & Hdom & Hlast)].
    + by apply (lookup_weaken A).
    + intros u Hu. rewrite decide_False by congruence. apply Hlab. apply eq_None_not_Some. intros H.
      apply eq_None_not_Some in Hu. apply Hu, Hdom1. auto.
    + by left.
    + right. exists h', A', lab'. split_and!; [|done|done|done| |].
      * unfold longest, shortest. simpl. by rewrite (proj2 (Z.eqb_neq (len p) 0)).
      * intros u. rewrite Hdom, Hdom1. setoid_rewrite elem_of_cons. naive_solver.
      * intros u Hu. rewrite Hlast by done. simpl. destruct (last_index ps (i + 1) u =? -1) eqn:E; [|by rewrite E].
        destruct (decide (u = word p)) as [->|?]; [rewrite decide_True by done|rewrite decide_False by done; done].
        by rewrite (proj2 (Z.eqb_neq i (-1))) by lia.
Qed.

(** NULL stays a pointer to nothing. *)
Lemma rep_null (h : heap) (A : words) (lab : list Z → Z) : rep cs back old h A lab → h !! 0 = old !! 0.
Proof.
  intros R. apply (rep_old _ _ _ _ _ _ R). intros w Hw. destruct (rep_fresh _ _ _ _ _ _ R w 0 Hw). lia.
Qed.

(** [ACtree_build] on an empty tree. *)
Lemma build_spec (fuel : nat) (t : pattern_tree) (ps : list pattern_data) :
  Forall (pattern_ok cs) ps → root t = 0 →
  (∃ h, build alloc back fuel t (Some ps) old = Some (-1, t, h) ∧ h !! 0 = old !! 0 ∧ alloc h = None) ∨
  ∃ r h A lab, build alloc back fuel t (Some ps) old =
      Some (0, Tree r (longest 0 ps) (shortest PATTERN_LEN ps) (BCshift t) ps (Z.of_nat (length ps)), h) ∧
    rep cs back old h A lab ∧ A !! [] = Some r ∧
    (∀ u, u ≠ [] → is_Some (A !! u) ↔ ∃ p, p ∈ ps ∧ u `prefix_of` word p) ∧
    (∀ u, u ≠ [] → lab u = last_index ps 0 u).
Proof using Halloc.
  intros Hps Ht. unfold build, build_error. rewrite Ht. cbn [Z.eqb].
  destruct (alloc old) as [r|] eqn:Er; [|left; by exists old]. destruct (Halloc old r Er) as [Hr Hfresh].
  assert (rep cs back old (<[r := Node (-2) 0 0 0 0 0 ∅ 0 0]> old) {[ [] := r ]} (λ _, -1)) as R.
  { assert (∀ (w : list Z) (c : Z), ({[ [] := r ]} : words) !! (w ++ [c]) = None) as Hno.
    { intros w c. apply lookup_singleton_ne. by destruct w. }
    pose proof (Hno []) as Hno1. simpl in Hno1.
    split.
    - by rewrite lookup_singleton_eq.
    - intros v w a [<- _]%lookup_singleton_Some [<- _]%lookup_singleton_Some. done.
    - intros w c [a Ha]. by rewrite Hno in Ha.
    - intros w a [_ <-]%lookup_singleton_Some. done.
    - intros w a [<- <-]%lookup_singleton_Some. rewrite lookup_insert_eq. eexists. split; [done|]. split; simpl.
      + intros c. by rewrite lookup_empty, Hno1.
      + lia.
      + split; [lia|]. intros [c [a Ha]]. simpl in Ha. by rewrite Hno1 in Ha.
      + lia.
      + by rewrite !orb_true_r.
      + done.
    - intros x Hx. rewrite lookup_insert_ne; [done|]. intros ->. apply (Hx []). by rewrite lookup_singleton_eq. }
  destruct (build_loop_spec ps r Hps 0 _ _ _ 0 PATTERN_LEN ltac:(lia) R)
    as [(h & A & lab & E & R' & Hfail)|(h & A & lab & E & R' & HA & _ & Hdom & Hlab)];
    [by rewrite lookup_singleton_eq|done| |].
  { left. exists h. rewrite E. split; [done|]. split; [by eapply rep_null|done]. }
  right. exists r, h, A, lab. rewrite E. simpl. split_and!; [done|done|done| |].
  - intros u Hu. rewrite Hdom. split; [|auto]. intros [[a Ha]|?]; [|done]. apply lookup_singleton_Some in Ha as [<- _]. done.
  - intros u Hu. rewrite Hlab by done. simpl. destruct (Z.eqb_spec (last_index ps 0 u) (-1)); congruence.
Qed.

(** ** Walks over the trie *)

(** A loop with a state that may fail, by an invariant over what has been done. *)
Lemma foldl_ind {S : Type} (f : option S → Z → option S) (P : list Z → S → Prop) (xs : list Z) (s : S) :
  P [] s → (∀ dn x rest s, xs = dn ++ x :: rest → P dn s → ∃ s', f (Some s) x = Some s' ∧ P (dn ++ [x]) s') →
  ∃ s', foldl f (Some s) xs = Some s' ∧ P xs s'.
Proof.
  intros H0 Hstep. assert (∀ todo dn s, xs = dn ++ todo → P dn s → ∃ s', foldl f (Some s) todo = Some s' ∧ P xs s') as H.
  { induction todo as [|x todo IH]; intros dn s0 E Hs; simpl; [exists s0; rewrite E, app_nil_r; done|].
    destruct (Hstep dn x todo s0 E Hs) as (s1 & -> & Hs1). apply (IH (dn ++ [x])); [by rewrite <- app_assoc|done]. }
  by apply (H xs []).
Qed.

(** The nodes without [case_sen] have no child under a capital letter, so that
    the walks, which leave these out there, see all children. *)
Definition no_caps (A : words) : Prop :=
  ∀ u c, cs = true → back || bool_decide (u = []) = true → is_upper c = true → A !! (u ++ [c]) = None.

(** What a walk does with a character. *)
Lemma visit (A : words) (lab : list Z → Z) (w : list Z) (n : tree_node) (i : Z) :
  no_caps A → node_ok cs back A lab w n → (∀ c, is_Some (A !! (w ++ [c])) → letter cs c) →
  (if (case_sen n =? 0) && is_upper i then None else childs n !! i) = A !! (w ++ [i]).
Proof.
  intros Hcaps [H1 _ _ _ H5 _] Hlet. rewrite H5. destruct cs eqn:E; simpl.
  - destruct (back || bool_decide (w = [])) eqn:Eb; simpl; [|apply H1].
    destruct (is_upper i) eqn:Eu; [|apply H1]. symmetry. by apply Hcaps.
  - destruct (is_upper i) eqn:Eu; [|rewrite H1; unfold fold, tolower; by rewrite Eu].
    symmetry. apply eq_None_not_Some. intros [_ Hf]%Hlet. unfold fold, tolower in Hf. rewrite Eu in Hf. lia.
Qed.

Lemma letters (h : heap) (A : words) (lab : list Z → Z) (w : list Z) (c : Z) :
  rep cs back old h A lab → is_Some (A !! (w ++ [c])) → letter cs c ∧ c ∈ seqZ 0 256.
Proof. intros R H. destruct (rep_prefix _ _ _ _ _ _ R w c H) as [_ [Hb Hf]]. split; [done|]. apply elem_of_seqZ. unfold is_byte in Hb. lia. Qed.

(** A word below [w] goes on with some character. *)
Lemma below (w u : list Z) : w `prefix_of` u → u = w ∨ ∃ c, w ++ [c] `prefix_of` u.
Proof.
  intros [[|c v] ->]; [left; apply app_nil_r|]. right. exists c, v. by rewrite <- app_assoc.
Qed.

Lemma below_child (w u : list Z) (c d : Z) : w ++ [c] `prefix_of` u → w ++ [d] `prefix_of` u → c = d.
Proof. intros [v ->] [v' E]. rewrite <- !app_assoc in E. simpl in E. apply app_inv_head in E. congruence. Qed.

Lemma below_trans (w u : list Z) (c : Z) : w ++ [c] `prefix_of` u → w `prefix_of` u ∧ u ≠ w.
Proof.
  intros [v ->]. split; [exists (c :: v); by rewrite <- app_assoc|]. intros E. apply (f_equal length) in E.
  rewrite !length_app in E. simpl in E. lia.
Qed.

(** [clean_tree] frees the nodes below [w]; [h0] is the heap with the whole trie. *)
Lemma clean_spec (h0 : heap) (A : words) (lab : list Z → Z) (fuel : nat) :
  rep cs back old h0 A lab → no_caps A → ∀ w a h,
  A !! w = Some a → (∀ u, is_Some (A !! u) → w `prefix_of` u → (length u < length w + fuel)%nat) →
  (∀ u b, A !! u = Some b → w `prefix_of` u → h !! b = h0 !! b) →
  ∃ h', clean_tree fuel a h = Some h' ∧ is_Some (h' !! a) ∧
    (∀ u b, A !! u = Some b → w `prefix_of` u → u ≠ w → h' !! b = None) ∧
    (∀ x, (∀ u, A !! u = Some x → ¬ w `prefix_of` u) → h' !! x = h !! x).
Proof.
  intros R Hcaps. pose proof (rep_inj _ _ _ _ _ _ R) as Hinj.
  induction fuel as [|fuel IH]; intros w a h Hw Hlen Hh.
  { specialize (Hlen w ltac:(by exists a) ltac:(done)). lia. }
  destruct (rep_node _ _ _ _ _ _ R w a Hw) as (n & Hn & Hok). cbn [clean_tree].
  set (P := λ (dn : list Z) (h' : heap), (∃ n', h' !! a = Some n' ∧ case_sen n' = case_sen n ∧
      ∀ i, i ∉ dn → childs n' !! i = childs n !! i) ∧
    (∀ u b c, A !! u = Some b → w ++ [c] `prefix_of` u → h' !! b = if decide (c ∈ dn) then None else h0 !! b) ∧
    (∀ x, (∀ u, A !! u = Some x → ¬ w `prefix_of` u) → h' !! x = h !! x)).
  match goal with |- ∃ h', foldl ?f _ _ = _ ∧ _ => destruct (foldl_ind f P (seqZ 0 256) h) as (h' & -> & (n' & Hn' & _) & Hsub & Hout) end.
  - split_and!; [exists n; split_and!; [rewrite (Hh w a Hw ltac:(done)); done|done|done]| |done].
    intros u b c Hu Hp. rewrite decide_False by apply not_elem_of_nil. apply (Hh u b Hu). by eapply below_trans.
  - intros dn i rest h1 Hsplit ((n1 & Hn1 & Hc1 & Hk1) & Hsub & Hout). simpl. rewrite Hn1. simpl.
    assert (i ∉ dn) as Hi.
    { pose proof (NoDup_seqZ 0 256) as Hnd. rewrite Hsplit in Hnd. apply NoDup_app in Hnd as (_ & Hd & _). intros Hin.
      apply (Hd i Hin). left. }
    pose proof (visit A lab w n i Hcaps Hok (λ c H, proj1 (letters h0 A lab w c R H))) as Hv. rewrite Hc1, (Hk1 i Hi).
    destruct (A !! (w ++ [i])) as [k|] eqn:Hk.
    + destruct ((case_sen n =? 0) && is_upper i); [done|]. rewrite Hv.
      assert (∀ u, A !! u = Some a → ¬ w ++ [i] `prefix_of` u) as Hna.
      { intros u Hu [? Hne]%below_trans. by apply Hne, (Hinj u w a). }
      destruct (IH (w ++ [i]) k h1 Hk) as (h2 & -> & [m Hm] & Hsub2 & Hout2). 
      * intros u Hu Hp. specialize (Hlen u Hu). rewrite length_app. simpl. destruct (below_trans _ _ _ Hp) as [Hp' _].
        specialize (Hlen Hp'). lia.
      * intros u b Hu Hp. rewrite (Hsub u b i Hu Hp). by rewrite decide_False.
      * simpl. rewrite Hm. simpl. unfold modify. assert (k ≠ a) by (intros ->; by apply (Hna (w ++ [i]))).
        rewrite lookup_delete_ne, (Hout2 a Hna), Hn1 by done. simpl. eexists. split; [done|]. split_and!.
        -- rewrite lookup_insert_eq. eexists. split_and!; [done|done|]. intros j Hj. simpl.
           rewrite not_elem_of_app, list_elem_of_singleton in Hj. rewrite lookup_delete_ne by naive_solver. apply Hk1. naive_solver.
        -- intros u b c Hu Hp. assert (b ≠ a). { intros ->. destruct (below_trans _ _ _ Hp) as [_ Hne]. by apply Hne, (Hinj u w a). }
           rewrite lookup_insert_ne by done. destruct (decide (u = w ++ [i])) as [->|Hui].
           ++ assert (b = k) as -> by congruence. rewrite lookup_delete_eq. rewrite decide_True; [done|].
              rewrite (below_child _ _ _ i Hp) by done. apply elem_of_app. right. by apply list_elem_of_singleton.
           ++ rewrite lookup_delete_ne by (intros ->; by apply Hui, (Hinj u _ b)). destruct (decide (c = i)) as [->|Hci].
              ** rewrite (Hsub2 u b Hu Hp Hui), decide_True; [done|]. apply elem_of_app. right. by apply list_elem_of_singleton.
              ** rewrite Hout2, (Hsub u b c Hu Hp).
                 --- apply decide_ext. rewrite elem_of_app, list_elem_of_singleton. naive_solver.
                 --- intros v Hv' Hp'. assert (v = u) as -> by (by apply (Hinj v u b)). apply Hci. by eapply below_child.
        -- intros x Hx. assert (∀ u, A !! u = Some x → ¬ w ++ [i] `prefix_of` u) as Hx'.
           { intros u Hu [? _]%below_trans. by apply (Hx u). }
           rewrite lookup_insert_ne by (intros ->; by apply (Hx w)).
           rewrite lookup_delete_ne by (intros ->; by apply (Hx' (w ++ [i]))). rewrite Hout2 by done. by apply Hout.
    + exists h1. split; [destruct ((case_sen n =? 0) && is_upper i); [done|by rewrite Hv]|]. split_and!.
      * exists n1. split_and!; [done|done|]. intros j Hj. rewrite not_elem_of_app in Hj. apply Hk1. naive_solver.
      * intros u b c Hu Hp. rewrite (Hsub u b c Hu Hp). apply decide_ext. rewrite elem_of_app, list_elem_of_singleton.
        split; [auto|]. intros [?| ->]; [done|]. destruct Hp as [v ->].
        destruct (rep_prefix_app h0 A lab (w ++ [i]) v R) as [[? ?] _]; [by exists b|congruence].
      * done.
  - exists h'. split_and!; [done|by exists n'| |done]. intros u b Hu Hp Hne. destruct (below w u Hp) as [?|[c Hc]]; [done|].
    rewrite (Hsub u b c Hu Hc), decide_True; [done|]. destruct Hc as [v ->].
    destruct (rep_prefix_app h0 A lab (w ++ [c]) v R) as [Hs _]; [by exists b|]. by apply (letters h0 A lab w c R).
Qed.

(** [acbm_clean] gives back all memory. *)
Lemma clean_all (fuel : nat) (ptree : Z) (t : pattern_tree) (ts : gmap Z pattern_tree) (h : heap) (A : words)
    (lab : list Z → Z) :
  rep cs back old h A lab → no_caps A → A !! [] = Some (root t) → (∀ u, is_Some (A !! u) → (length u < fuel)%nat) →
  0 < ptree → ts !! ptree = None →
  acbm_clean fuel ptree (Mem h (<[ptree := t]> ts)) = Some (Mem old ts).
Proof.
  intros R Hcaps Hr Hlen H0 Hts. unfold acbm_clean. destruct (rep_fresh _ _ _ _ _ _ R [] _ Hr) as [Hpos Hfresh].
  rewrite (proj2 (Z.eqb_neq ptree 0)) by lia. cbn [trees nodes]. rewrite lookup_insert_eq. cbn [mbind option_bind].
  rewrite (proj2 (Z.eqb_neq _ _)) by lia.
  destruct (clean_spec h A lab fuel R Hcaps [] (root t) h Hr) as (h' & -> & [n Hn] & Hsub & Hout); [|done|].
  { intros u Hu _. apply (Hlen u Hu). }
  simpl. rewrite Hn. simpl. rewrite delete_insert_id by done. f_equal. f_equal.
  apply map_eq. intros x. destruct (decide (x = root t)) as [->|Hx].
  { by rewrite lookup_delete_eq. }
  rewrite lookup_delete_ne by done. destruct (decide (Exists (λ ux, ux.2 = x) (map_to_list A))) as [H|H].
  - apply Exists_exists in H as ([u b] & Hu%elem_of_map_to_list & Hb). simpl in Hb. subst b.
    rewrite (Hsub u x Hu); [|apply prefix_nil|intros ->; congruence]. symmetry. by apply (rep_fresh _ _ _ _ _ _ R u).
  - assert (∀ u, A !! u ≠ Some x) as Hno.
    { intros u Hu. apply H, Exists_exists. exists (u, x). split; [by apply elem_of_map_to_list|done]. }
    rewrite Hout by (intros u Hu; by destruct (Hno u)). by apply (rep_old _ _ _ _ _ _ R).
Qed.

(** [init_GSshifts] gives every node below [w] its first shift. *)
Definition first_shift (shift : Z) (u : list Z) : tree_node → tree_node := if decide (u = []) then id else set_GS shift.

Lemma init_spec (h0 : heap) (A : words) (lab : list Z → Z) (shift : Z) (fuel : nat) :
  rep cs back old h0 A lab → no_caps A → (∀ u, u ≠ [] → -1 ≤ lab u) → ∀ w a h,
  A !! w = Some a → (∀ u, is_Some (A !! u) → w `prefix_of` u → (length u < length w + fuel)%nat) →
  (∀ u b, A !! u = Some b → w `prefix_of` u → h !! b = h0 !! b) →
  ∃ h', init_GSshifts fuel a shift h = Some h' ∧
    (∀ u b, A !! u = Some b → w `prefix_of` u → h' !! b = first_shift shift u <$> h0 !! b) ∧
    (∀ x, (∀ u, A !! u = Some x → ¬ w `prefix_of` u) → h' !! x = h !! x).
Proof.
  intros R Hcaps Hlab. pose proof (rep_inj _ _ _ _ _ _ R) as Hinj.
  induction fuel as [|fuel IH]; intros w a h Hw Hlen Hh.
  { specialize (Hlen w ltac:(by exists a) ltac:(done)). lia. }
  destruct (rep_node _ _ _ _ _ _ R w a Hw) as (n & Hn & Hok). cbn [init_GSshifts].
  rewrite (Hh w a Hw ltac:(done)), Hn. cbn [mbind option_bind].
  set (h1 := if label n =? -2 then h else <[a := set_GS shift n]> h).
  assert (h1 !! a = Some (first_shift shift w n)) as H1.
  { unfold h1, first_shift. rewrite (ok_label _ _ _ _ _ _ Hok). destruct (decide (w = [])); simpl.
    - by rewrite (Hh w a Hw).
    - specialize (Hlab w ltac:(done)). rewrite (proj2 (Z.eqb_neq _ _)) by lia. by rewrite lookup_insert_eq. }
  assert (∀ x, x ≠ a → h1 !! x = h !! x) as H1'.
  { intros x Hx. unfold h1. destruct (label n =? -2); [done|]. by rewrite lookup_insert_ne. }
  assert (case_sen (first_shift shift w n) = case_sen n ∧ childs (first_shift shift w n) = childs n) as [Hc Hk]
    by (unfold first_shift; by destruct (decide (w = []))).
  set (P := λ (dn : list Z) (h' : heap), h' !! a = h1 !! a ∧
    (∀ u b c, A !! u = Some b → w ++ [c] `prefix_of` u →
      h' !! b = if decide (c ∈ dn) then first_shift shift u <$> h0 !! b else h0 !! b) ∧
    (∀ x, (∀ u, A !! u = Some x → ¬ w `prefix_of` u) → h' !! x = h !! x)).
  match goal with |- ∃ h', foldl ?f _ _ = _ ∧ _ => destruct (foldl_ind f P (seqZ 0 256) h1) as (h' & -> & Ha & Hsub & Hout) end.
  - split_and!; [done| |].
    + intros u b c Hu Hp. rewrite decide_False by apply not_elem_of_nil. destruct (below_trans _ _ _ Hp) as [Hp' Hne].
      rewrite H1' by (intros ->; by apply Hne, (Hinj u w a)). by apply (Hh u b Hu).
    + intros x Hx. apply H1'. intros ->. by apply (Hx w).
  - intros dn i rest h2 Hsplit (Ha & Hsub & Hout). simpl. rewrite Ha, H1. simpl. rewrite Hc, Hk.
    assert (i ∉ dn) as Hi.
    { pose proof (NoDup_seqZ 0 256) as Hnd. rewrite Hsplit in Hnd. apply NoDup_app in Hnd as (_ & Hd & _). intros Hin.
      apply (Hd i Hin). left. }
    pose proof (visit A lab w n i Hcaps Hok (λ c H, proj1 (letters h0 A lab w c R H))) as Hv.
    destruct (A !! (w ++ [i])) as [k|] eqn:Hki.
    + destruct ((case_sen n =? 0) && is_upper i); [done|]. rewrite Hv.
      destruct (IH (w ++ [i]) k h2 Hki) as (h3 & E & Hsub2 & Hout2).
      * intros u Hu Hp. specialize (Hlen u Hu). rewrite length_app. simpl. destruct (below_trans _ _ _ Hp) as [Hp' _].
        specialize (Hlen Hp'). lia.
      * intros u b Hu Hp. rewrite (Hsub u b i Hu Hp). by rewrite decide_False.
      * exists h3. split; [done|]. split_and!.
        -- rewrite Hout2; [by rewrite Ha|]. intros u Hu [? Hne]%below_trans. by apply Hne, (Hinj u w a).
        -- intros u b c Hu Hp. destruct (decide (c = i)) as [->|Hci].
           ++ rewrite (Hsub2 u b Hu Hp), decide_True; [done|]. apply elem_of_app. right. by apply list_elem_of_singleton.
           ++ rewrite Hout2, (Hsub u b c Hu Hp).
              ** apply decide_ext. rewrite elem_of_app, list_elem_of_singleton. naive_solver.
              ** intros v Hv' Hp'. assert (v = u) as -> by (by apply (Hinj v u b)). apply Hci. by eapply below_child.
        -- intros x Hx. rewrite Hout2; [by apply Hout|]. intros u Hu [? _]%below_trans. by apply (Hx u).
    + exists h2. split; [destruct ((case_sen n =? 0) && is_upper i); [done|by rewrite Hv]|]. split_and!; [done| |done].
      intros u b c Hu Hp. rewrite (Hsub u b c Hu Hp). apply decide_ext. rewrite elem_of_app, list_elem_of_singleton.
      split; [auto|]. intros [?| ->]; [done|]. destruct Hp as [v ->].
      destruct (rep_prefix_app h0 A lab (w ++ [i]) v R) as [[? ?] _]; [by exists b|congruence].
  - exists h'. split_and!; [done| |done]. intros u b Hu Hp. destruct (below w u Hp) as [->|[c Hcp]].
    + assert (b = a) as -> by congruence. by rewrite Ha, H1, Hn.
    + rewrite (Hsub u b c Hu Hcp), decide_True; [done|]. destruct Hcp as [v ->].
      destruct (rep_prefix_app h0 A lab (w ++ [c]) v R) as [Hs _]; [by exists b|]. by apply (letters h0 A lab w c R).
Qed.

(** Other shifts in the nodes leave the trie as it is. *)
Lemma rep_shifts (h h' : heap) (A : words) (lab : list Z → Z) :
  rep cs back old h A lab → (∀ w a, A !! w = Some a → ∃ s, h' !! a = (λ n, if decide (w = []) then n else set_GS s n) <$> h !! a) →
  (∀ x, (∀ w, A !! w ≠ Some x) → h' !! x = h !! x) → rep cs back old h' A lab.
Proof.
  intros R Hs Ho. split; [apply R..| |].
  - intros w a Hw. destruct (rep_node _ _ _ _ _ _ R w a Hw) as (n & Hn & [H1 H2 H3 H4 H5 H6]).
    destruct (Hs w a Hw) as [s ->]. rewrite Hn. simpl. eexists. split; [done|]. destruct (decide (w = [])) as [->|Hne].
    + by split.
    + split; simpl; try done. by rewrite decide_False.
  - intros x Hx. rewrite Ho by done. by apply (rep_old _ _ _ _ _ _ R).
Qed.

End rep.
