(* ===== verification/AcShift.v ===== *)
(** * The shifts of the AC-BM matcher

    What the two tables promise a search.  The bad character shift of a letter is
    not more than any place, but the first, where it is in a pattern.  The shift
    in the node of a word that ends with [c] is not more than any distance at
    which a pattern agrees with the rest of the word and has not [c] after it. *)

From S2P Require Import Prelude AcBm AcTrie.

Definition at_ (l : list Z) (i : Z) : Z := l !!! Z.to_nat i.

Section shift.
Context (cs : bool) (old : heap) (A : words) (lab : list Z → Z) (t : pattern_tree).

Abbreviation key := (key cs).

(** The tree has patterns of this kind and their trie. *)
Record tree_ok : Prop := TreeOk {
  tr_patterns : Forall (pattern_ok cs) (pattern_list t);
  tr_root : A !! [] = Some (root t);
  tr_positive : 0 < root t;
  tr_words p u : p ∈ pattern_list t → u `prefix_of` key p → is_Some (A !! u);
  tr_size : 1 ≤ min_pattern_size t ≤ PATTERN_LEN;
  tr_short p : p ∈ pattern_list t → len p = 0 ∨ min_pattern_size t ≤ len p;
}.

Context (Htree : tree_ok).

(** The shifts that the nodes have. *)
Definition state (h : heap) (g : list Z → Z) : Prop :=
  rep cs false old h A lab ∧ ∀ w a, w ≠ [] → A !! w = Some a → ∃ n, h !! a = Some n ∧ GSshift n = g w.

Lemma pattern_in (p : pattern_data) : p ∈ pattern_list t → pattern_ok cs p.
Proof using Htree. intros Hp. exact (proj1 (Forall_forall _ _) (tr_patterns Htree) p Hp). Qed.

(** The first pattern decides on the case, as every pattern does. *)
Lemma folded_eq (p : pattern_data) (c : Z) : p ∈ pattern_list t → folded t c = Some (fold cs c).
Proof using Htree.
  intros Hp. unfold folded. destruct (pattern_list t) as [|p0 ps] eqn:E; [by apply elem_of_nil in Hp|].
  simpl. destruct (pattern_in p0) as (_ & _ & _ & ->); [rewrite E; left|]. unfold fold. by destruct cs.
Qed.

Lemma get_key (p : pattern_data) (i : Z) :
  p ∈ pattern_list t → 0 ≤ i < len p → ∃ x, get (data p) i = Some x ∧ fold cs x = at_ (key p) i ∧ is_byte x.
Proof using Htree.
  intros Hp Hi. destruct (pattern_in p Hp) as (Hl & Hd & Hb & _).
  destruct (lookup_lt_is_Some_2 (data p) (Z.to_nat i)) as [x Hx]; [lia|]. exists x. split_and!.
  - unfold get. by rewrite (proj2 (Z.ltb_ge _ _)) by lia.
  - unfold at_, AcTrie.key. symmetry. apply list_lookup_total_correct. rewrite list_lookup_fmap, lookup_take_lt, Hx by lia. done.
  - exact (Forall_lookup_1 _ _ _ _ Hb Hx).
Qed.

Lemma length_key_in (p : pattern_data) : p ∈ pattern_list t → Z.of_nat (length (key p)) = len p.
Proof using Htree. intros Hp. pose proof (pattern_in p Hp) as Hok. rewrite length_key by done. destruct Hok. lia. Qed.

Lemma take_key_S (p : pattern_data) (i : Z) :
  p ∈ pattern_list t → 0 ≤ i < len p → take (Z.to_nat (i + 1)) (key p) = take (Z.to_nat i) (key p) ++ [at_ (key p) i].
Proof using Htree.
  intros Hp Hi. pose proof (length_key_in p Hp). replace (Z.to_nat (i + 1)) with (S (Z.to_nat i)) by lia.
  apply take_S_r. unfold at_. apply list_lookup_lookup_total_lt. lia.
Qed.

(** ** One shift *)

Lemma walk_down_spec (p : pattern_data) (h : heap) (n : nat) :
  p ∈ pattern_list t → rep cs false old h A lab → ∀ i a,
  0 ≤ i → i + Z.of_nat n ≤ len p → A !! take (Z.to_nat i) (key p) = Some a →
  walk_down (data p) (seqZ i (Z.of_nat n)) a h = Some (A !! take (Z.to_nat (i + Z.of_nat n)) (key p)).
Proof using Htree.
  intros Hp R. induction n as [|n IH]; intros i a Hi Hn Ha.
  { change (Z.of_nat 0) with 0. rewrite seqZ_nil, Z.add_0_r by lia. simpl. by rewrite Ha. }
  rewrite seqZ_cons by lia. cbn [walk_down]. destruct (rep_node _ _ _ _ _ _ R _ a Ha) as (m & -> & Hok).
  destruct (get_key p i Hp ltac:(lia)) as (x & -> & Hx & _). cbn [mbind option_bind].
  rewrite (ok_childs _ _ _ _ _ _ Hok), Hx, <- take_key_S by (done || lia).
  destruct (tr_words Htree p (take (Z.to_nat (i + 1)) (key p)) Hp) as [k Hk]; [apply prefix_take|]. rewrite Hk.
  replace (Z.pred (Z.of_nat (S n))) with (Z.of_nat n) by lia. change (Z.succ i) with (i + 1).
  rewrite (IH (i + 1) k) by (done || lia). do 4 f_equal. lia.
Qed.

Definition lowered (g : list Z → Z) (w : list Z) (s : Z) : list Z → Z := λ u, if decide (u = w) then Z.min (g w) s else g u.

Lemma set_GSshift_spec (p : pattern_data) (h : heap) (g : list Z → Z) (d s : Z) :
  p ∈ pattern_list t → 1 ≤ d ≤ len p → state h g →
  ∃ h', set_GSshift t (data p) d s h = Some h' ∧ state h' (lowered g (take (Z.to_nat d) (key p)) s).
Proof using Htree.
  intros Hp Hd [R Hg]. unfold set_GSshift. pose proof (tr_positive Htree). rewrite (proj2 (Z.eqb_neq _ _)) by lia.
  pose proof (walk_down_spec p h (Z.to_nat d) Hp R 0 (root t)) as Hwalk. rewrite Z2Nat.id, Z.add_0_l in Hwalk by lia.
  rewrite Hwalk by (lia || apply (tr_root Htree)). cbn [mbind option_bind]. clear Hwalk.
  set (w := take (Z.to_nat d) (key p)).
  assert (w ≠ []) as Hw.
  { intros E. apply (f_equal length) in E. unfold w in E. rewrite length_take in E. pose proof (length_key_in p Hp). simpl in E. lia. }
  destruct (tr_words Htree p w Hp) as [a Ha]; [apply prefix_take|]. rewrite Ha.
  destruct (Hg w a Hw Ha) as (n & Hn & Egs). unfold modify. rewrite Hn. cbn [mbind option_bind]. eexists. split; [done|].
  assert (∀ u b, A !! u = Some b → u ≠ w → b ≠ a) as Hne by (intros u b Hu Hne ->; by apply Hne, (rep_inj _ _ _ _ _ _ R u w a)).
  split.
  - apply (rep_shifts cs false old h); [done| |].
    + intros u b Hu. destruct (decide (u = w)) as [->|Huw].
      * assert (b = a) as -> by congruence. rewrite lookup_insert_eq, Hn. eexists. simpl. by rewrite decide_False.
      * rewrite lookup_insert_ne by (apply not_eq_sym; by apply (Hne u)). destruct (rep_node _ _ _ _ _ _ R u b Hu) as (m & Hm & _).
        rewrite Hm. exists (GSshift m). simpl. destruct (decide (u = [])); [done|]. by destruct m.
    + intros x Hx. rewrite lookup_insert_ne; [done|]. intros ->. by apply (Hx w).
  - intros u b Hu Hub. unfold lowered. destruct (decide (u = w)) as [->|Huw].
    + assert (b = a) as -> by congruence. rewrite lookup_insert_eq. eexists. split; [done|]. simpl. rewrite Egs.
      destruct (Z.ltb_spec (g w) s); lia.
    + rewrite lookup_insert_ne by (apply not_eq_sym; by apply (Hne u)). by apply Hg.
Qed.

Lemma lowered_le (g : list Z → Z) (w u : list Z) (s : Z) : lowered g w s u ≤ g u.
Proof. unfold lowered. destruct (decide (u = w)) as [->|?]; lia. Qed.

Lemma lowered_at (g : list Z → Z) (w : list Z) (s : Z) : lowered g w s w ≤ s.
Proof. unfold lowered. rewrite decide_True by done. lia. Qed.

Lemma lowered_pos (g : list Z → Z) (w : list Z) (s : Z) : 1 ≤ s → (∀ u, 1 ≤ g u) → ∀ u, 1 ≤ lowered g w s u.
Proof. intros Hs Hg u. unfold lowered. pose proof (Hg u). pose proof (Hg w). destruct (decide (u = w)); lia. Qed.


(** ** The loops over two patterns *)

Lemma skip_chars_spec (fuel : nat) (same : bool) (q : pattern_data) (c i : Z) :
  q ∈ pattern_list t → 0 ≤ i ≤ len q → (Z.to_nat (len q - i) < fuel)%nat →
  ∃ i', skip_chars fuel same t (data q) (len q) c i = Some i' ∧ i ≤ i' ≤ len q ∧
    (∀ j, i ≤ j < i' → (at_ (key q) j =? c) = same) ∧ (i' < len q → (at_ (key q) i' =? c) = negb same).
Proof using Htree.
  intros Hq. revert i. induction fuel as [|fuel IH]; intros i Hi Hf; [lia|]. cbn [skip_chars].
  destruct (Z.ltb_spec i (len q)) as [Hlt|Hge].
  2: { exists i. split_and!; [done|lia|lia|lia|lia]. }
  destruct (get_key q i Hq ltac:(lia)) as (x & -> & Hx & _). cbn [mbind option_bind].
  rewrite (folded_eq q) by done. cbn [mbind option_bind]. rewrite Hx.
  destruct (eqb (at_ (key q) i =? c) same) eqn:E.
  - apply eqb_prop in E. destruct (IH (i + 1)) as (i' & -> & Hi' & Hb & Ha); [lia|lia|]. exists i'. split_and!; [done|lia|lia| |done].
    intros j Hj. destruct (decide (j = i)) as [->|?]; [done|]. apply Hb. lia.
  - apply eqb_false_iff in E. exists i. split_and!; [done|lia|lia|lia|]. intros _. by destruct (_ =? _), same.
Qed.

Lemma agree_spec (fuel : nat) (p q : pattern_data) (i j : Z) :
  p ∈ pattern_list t → q ∈ pattern_list t → 0 ≤ i ≤ len p → 0 ≤ j ≤ len q → (Z.to_nat (len q - j) < fuel)%nat →
  ∃ m, agree fuel t (data p) (len p) (data q) (len q) i j = Some (i + m, j + m) ∧
    0 ≤ m ∧ i + m ≤ len p ∧ j + m ≤ len q ∧ (∀ k, 0 ≤ k < m → at_ (key q) (j + k) = at_ (key p) (i + k)) ∧
    (i + m < len p → j + m < len q → at_ (key q) (j + m) ≠ at_ (key p) (i + m)).
Proof using Htree.
  intros Hp Hq. revert i j. induction fuel as [|fuel IH]; intros i j Hi Hj Hf; [lia|]. cbn [agree].
  destruct (Z.ltb_spec j (len q)) as [Hjl|Hjl]; simpl.
  2: { exists 0. rewrite !Z.add_0_r. split_and!; try lia. done. }
  destruct (Z.ltb_spec i (len p)) as [Hil|Hil].
  2: { exists 0. rewrite !Z.add_0_r. split_and!; try lia. done. }
  destruct (get_key p i Hp ltac:(lia)) as (x & -> & Hx & _). cbn [mbind option_bind].
  rewrite (folded_eq p) by done. cbn [mbind option_bind].
  destruct (get_key q j Hq ltac:(lia)) as (y & -> & Hy & _). cbn [mbind option_bind].
  rewrite (folded_eq p) by done. cbn [mbind option_bind]. rewrite Hx, Hy.
  destruct (Z.eqb_spec (at_ (key p) i) (at_ (key q) j)) as [E|E].
  - destruct (IH (i + 1) (j + 1)) as (m & -> & Hm & H1 & H2 & Hb & Ha); [lia..|]. exists (m + 1).
    split_and!; [do 2 f_equal; lia|lia|lia|lia| |].
    + intros k Hk. destruct (decide (k = 0)) as [->|?]; [by rewrite !Z.add_0_r|].
      specialize (Hb (k - 1) ltac:(lia)). by replace (j + 1 + (k - 1)) with (j + k) in Hb by lia;
        replace (i + 1 + (k - 1)) with (i + k) in Hb by lia.
    + replace (i + 1 + m) with (i + (m + 1)) in Ha by lia. replace (j + 1 + m) with (j + (m + 1)) in Ha by lia. done.
  - exists 0. rewrite !Z.add_0_r. split_and!; [done|lia|lia|lia|lia|]. intros _ _ E'. by apply E.
Qed.

(** At the distance [s] the pattern [q] agrees with the first [k] characters of
    [p] and does not go on with the next. *)
Definition conflict (p q : pattern_data) (k s : Z) : Prop :=
  (∀ j, 0 ≤ j < k → s + j < len q → at_ (key q) (s + j) = at_ (key p) j) ∧
  (s + k < len q → at_ (key q) (s + k) ≠ at_ (key p) k).

Definition prefix_of_key (p : pattern_data) (n : Z) : list Z := take (Z.to_nat n) (key p).

(** The shifts respect the conflicts of two patterns at the distances below [n],
    from the places [from] on. *)
Definition respects (g : list Z → Z) (p q : pattern_data) (from n : Z) : Prop :=
  ∀ k s, from ≤ k < len p → 1 ≤ s < n → s < len q → s ≤ min_pattern_size t → conflict p q k s → g (prefix_of_key p (k + 1)) ≤ s.

(** Later states have smaller shifts. *)
Definition step (g g' : list Z → Z) : Prop := (∀ w, g' w ≤ g w) ∧ ∀ w, 1 ≤ g' w.

Lemma respects_step (g g' : list Z → Z) (p q : pattern_data) (from n : Z) :
  step g g' → respects g p q from n → respects g' p q from n.
Proof. intros [Hle _] H k s Hk Hs Hq Hmin Hc. etrans; [apply Hle|]. by apply (H k s). Qed.

Lemma step_trans (g1 g2 g3 : list Z → Z) : step g1 g2 → step g2 g3 → step g1 g3.
Proof. intros [H1 _] [H2 H3]. split; [intros w; etrans; [apply H2|apply H1]|done]. Qed.

Lemma step_lowered (g : list Z → Z) (w : list Z) (s : Z) : 1 ≤ s → (∀ u, 1 ≤ g u) → step g (lowered g w s).
Proof. intros Hs Hg. split; [intros u; apply lowered_le|by apply lowered_pos]. Qed.

(** The case of a pattern that ends in the other. *)
Lemma set_range_spec (p : pattern_data) (h : heap) (g : list Z → Z) (m s : Z) :
  p ∈ pattern_list t → 0 ≤ m ≤ len p → 1 ≤ s → (∀ u, 1 ≤ g u) → state h g →
  ∃ h' g', foldl (λ r j, h ← r; set_GSshift t (data p) (j + 1) s h) (Some h) (seqZ m (len p - m)) = Some h' ∧
    state h' g' ∧ step g g' ∧ ∀ k, m ≤ k < len p → g' (prefix_of_key p (k + 1)) ≤ s.
Proof using Htree.
  intros Hp Hm Hs Hg Hst.
  destruct (foldl_ind (λ r j, h ← r; set_GSshift t (data p) (j + 1) s h)
    (λ dn h', ∃ g', state h' g' ∧ step g g' ∧ ∀ k, k ∈ dn → g' (prefix_of_key p (k + 1)) ≤ s) (seqZ m (len p - m)) h)
    as (h' & E & g' & Hst' & Hstep & Hall).
  - exists g. split_and!; [done|split; [done|done]|]. by intros k Hk%elem_of_nil.
  - intros dn j rest h1 E (g1 & Hst1 & Hstep1 & Hall1). assert (m ≤ j < len p) as Hj.
    { assert (j ∈ seqZ m (len p - m)) as Hj%elem_of_seqZ; [rewrite E; apply elem_of_app; right; left|lia]. }
    destruct (set_GSshift_spec p h1 g1 (j + 1) s Hp ltac:(lia) Hst1) as (h2 & E2 & Hst2).
    exists h2. split; [done|]. eexists. split_and!; [done| |].
    + eapply step_trans; [done|]. apply step_lowered; [done|apply Hstep1].
    + intros k [Hk|Hk]%elem_of_app.
      * etrans; [apply lowered_le|]. by apply Hall1.
      * apply list_elem_of_singleton in Hk as ->. apply lowered_at.
  - exists h', g'. split_and!; [done|done|done|]. intros k Hk. apply Hall, elem_of_seqZ. lia.
Qed.

(** One place where the first character of [p] is in [q]. *)
Lemma GS_place_spec (p q : pattern_data) (h : heap) (g : list Z → Z) (m s : Z) :
  p ∈ pattern_list t → 1 ≤ s < len q → 0 ≤ m ≤ len p → s + m ≤ len q → (∀ u, 1 ≤ g u) → state h g →
  (∀ k, 0 ≤ k < m → at_ (key q) (s + k) = at_ (key p) k) →
  (m < len p → s + m < len q → at_ (key q) (s + m) ≠ at_ (key p) m) →
  ∃ h' g', (if m =? len p then Some h
      else if s + m =? len q then foldl (λ r j, h ← r; set_GSshift t (data p) (j + 1) s h) (Some h) (seqZ m (len p - m))
      else set_GSshift t (data p) (m + 1) s h) = Some h' ∧
    state h' g' ∧ step g g' ∧ ∀ k, 0 ≤ k < len p → conflict p q k s → g' (prefix_of_key p (k + 1)) ≤ s.
Proof using Htree.
  intros Hp Hs Hm Hsm Hg Hst Heq Hdiff. destruct (Z.eqb_spec m (len p)) as [->|Hmp].
  { exists h, g. split_and!; [done|done|by split|]. intros k Hk [_ Hc]. exfalso. apply Hc; [lia|]. apply Heq. lia. }
  destruct (Z.eqb_spec (s + m) (len q)) as [E|E].
  - destruct (set_range_spec p h g m s Hp Hm ltac:(lia) Hg Hst) as (h' & g' & -> & Hst' & Hstep & Hall).
    exists h', g'. split_and!; [done|done|done|]. intros k Hk [_ Hc]. apply Hall. split; [|lia].
    destruct (decide (k < m)); [|lia]. exfalso. apply Hc; [lia|]. apply Heq. lia.
  - destruct (set_GSshift_spec p h g (m + 1) s Hp ltac:(lia) Hst) as (h' & -> & Hst').
    eexists h', _. split_and!; [done|done|by apply step_lowered; [lia|]|]. intros k Hk [Hb Hc].
    assert (k = m) as ->; [|apply lowered_at]. destruct (Z.lt_trichotomy k m) as [?|[?|?]]; [|done|]; exfalso.
    + apply Hc; [lia|]. apply Heq. lia.
    + apply Hdiff; [lia|lia|]. apply Hb; lia.
Qed.

Lemma GS_loop_spec (p q : pattern_data) (fuel : nat) :
  p ∈ pattern_list t → q ∈ pattern_list t → 0 < len p → ∀ i h g,
  1 ≤ i ≤ len q → (Z.to_nat (len q - i) < fuel)%nat → (∀ u, 1 ≤ g u) → state h g → respects g p q 1 i →
  ∃ h' g', GS_loop fuel t (data p) (len p) (data q) (len q) (at_ (key p) 0) i h = Some h' ∧
    state h' g' ∧ step g g' ∧ respects g' p q 1 (len q).
Proof using Htree.
  intros Hp Hq Hlen. induction fuel as [|fuel IH]; intros i h g Hi Hf Hg Hst Hdone; [lia|]. cbn [GS_loop].
  destruct (skip_chars_spec (S fuel) false q (at_ (key p) 0) i Hq ltac:(lia) ltac:(lia)) as (i' & E & Hi' & Hskip & Hfound).
  assert (skip_chars (S fuel) false t (data q) (len q) (at_ (key p) 0) i = Some i') as E' by done.
  rewrite E. cbn [mbind option_bind].
  assert (respects g p q 1 i') as Hdone'.
  { intros k s Hk Hs Hsq Hmin Hc. destruct (decide (s < i)); [by apply Hdone; [|lia|..]|].
    specialize (Hskip s ltac:(lia)). apply Z.eqb_neq in Hskip. destruct Hc as [Hc _]. specialize (Hc 0 ltac:(lia)).
    rewrite Z.add_0_r in Hc. by destruct Hskip; apply Hc. }
  destruct (Z.eqb_spec i' (len q)) as [->|Hne].
  { exists h, g. split_and!; [done|done|by split|done]. }
  destruct (Z.ltb_spec (min_pattern_size t) i') as [Hlt|Hge].
  { exists h, g. split_and!; [done|done|by split|]. intros k s Hk Hs Hsq Hmin. apply Hdone'; [done|lia..]. }
  specialize (Hfound ltac:(lia)). apply Z.eqb_eq in Hfound.
  destruct (agree_spec (S fuel) p q 0 i' Hp Hq ltac:(lia) ltac:(lia) ltac:(lia)) as (m & -> & Hm & Hmp & Hmq & Heq & Hdiff).
  cbn [mbind option_bind]. rewrite Z.add_0_l in *.
  destruct (GS_place_spec p q h g m i' Hp ltac:(lia) ltac:(lia) Hmq Hg Hst Heq Hdiff) as (h1 & g1 & -> & Hst1 & Hstep1 & Hplace).
  cbn [mbind option_bind].
  destruct (IH (i' + 1) h1 g1) as (h2 & g2 & -> & Hst2 & Hstep2 & Hall); [lia|lia|apply Hstep1|done| |].
  - intros k s Hk Hs Hsq Hmin Hc. destruct (decide (s = i')) as [->|?]; [apply Hplace; [lia|done]|].
    apply (respects_step g g1 p q 1 i' Hstep1 Hdone' k s); [done|lia|done..].
  - exists h2, g2. split_and!; [done|done|by eapply step_trans|done].
Qed.

Lemma compute_GSshift_spec (p q : pattern_data) (fuel : nat) (h : heap) (g : list Z → Z) :
  p ∈ pattern_list t → q ∈ pattern_list t → (Z.to_nat PATTERN_LEN < fuel)%nat → (∀ u, 1 ≤ g u) → state h g →
  ∃ h' g', compute_GSshift fuel t (data p) (len p) (data q) (len q) h = Some h' ∧
    state h' g' ∧ step g g' ∧ respects g' p q 0 (len q).
Proof using Htree.
  intros Hp Hq Hf Hg Hst. unfold compute_GSshift. destruct (pattern_in p Hp) as (Hlp & _). destruct (pattern_in q Hq) as (Hlq & _).
  rewrite !(proj2 (Z.ltb_ge _ _)) by lia. simpl.
  destruct (Z.eqb_spec (len p) 0) as [Ep|Ep]; simpl.
  { exists h, g. split_and!; [done|done|by split|]. intros k s Hk. lia. }
  destruct (Z.eqb_spec (len q) 0) as [Eq|Eq]; simpl.
  { exists h, g. split_and!; [done|done|by split|]. intros k s Hk Hs. lia. }
  destruct (get_key p 0 Hp ltac:(lia)) as (x & -> & Hx & _). cbn [mbind option_bind].
  rewrite (folded_eq p) by done. cbn [mbind option_bind]. rewrite Hx.
  destruct (skip_chars_spec fuel true q (at_ (key p) 0) 1 Hq ltac:(lia) ltac:(lia)) as (i & -> & Hi & Hskip & _).
  cbn [mbind option_bind].
  destruct (set_GSshift_spec p h g 1 i Hp ltac:(lia) Hst) as (h1 & -> & Hst1). cbn [mbind option_bind].
  assert (step g (lowered g (prefix_of_key p 1) i)) as Hstep1 by (apply step_lowered; [lia|done]).
  destruct (GS_loop_spec p q fuel Hp Hq ltac:(lia) 1 h1 _ ltac:(lia) ltac:(lia) (proj2 Hstep1) Hst1) as (h2 & g2 & -> & Hst2 & Hstep2 & Hall).
  { intros k s Hk Hs. lia. }
  exists h2, g2. split_and!; [done|done|by eapply step_trans|]. intros k s Hk Hs Hsq Hmin Hc.
  destruct (decide (k = 0)) as [->|?]; [|apply Hall; [lia|done..]].
  etrans; [apply Hstep2|]. etrans; [apply lowered_at|]. destruct (decide (i ≤ s)); [done|]. exfalso.
  specialize (Hskip s ltac:(lia)). apply Z.eqb_eq in Hskip. destruct Hc as [_ Hc]. rewrite Z.add_0_r in Hc. by apply Hc.
Qed.

(** All pairs. *)
Lemma compute_GSshifts_spec (fuel : nat) (h : heap) (g : list Z → Z) :
  (Z.to_nat PATTERN_LEN < fuel)%nat → (∀ u, 1 ≤ g u) → state h g →
  ∃ h' g', ACtree_compute_GSshifts fuel t h = Some h' ∧ state h' g' ∧ step g g' ∧
    ∀ p q, p ∈ pattern_list t → q ∈ pattern_list t → respects g' p q 0 (len q).
Proof using Htree.
  intros Hf Hg Hst. unfold ACtree_compute_GSshifts.
  assert (∀ p, p ∈ pattern_list t → ∀ qs, (∀ q, q ∈ qs → q ∈ pattern_list t) → ∀ h g, (∀ u, 1 ≤ g u) → state h g →
    ∃ h' g', foldl (λ r q, h ← r; compute_GSshift fuel t (data p) (len p) (data q) (len q) h) (Some h) qs = Some h' ∧
      state h' g' ∧ step g g' ∧ ∀ q, q ∈ qs → respects g' p q 0 (len q)) as Hinner.
  { intros p Hp qs. induction qs as [|q qs IH]; intros Hqs h0 g0 Hg0 Hst0; simpl.
    { exists h0, g0. split_and!; [done|done|by split|]. by intros q Hq%elem_of_nil. }
    destruct (compute_GSshift_spec p q fuel h0 g0 Hp) as (h1 & g1 & -> & Hst1 & Hstep1 & Hr); [apply Hqs; left|done..|].
    destruct (IH (λ x Hx, Hqs x (list_elem_of_further _ _ _ Hx)) h1 g1 (proj2 Hstep1) Hst1) as (h2 & g2 & -> & Hst2 & Hstep2 & Hall).
    exists h2, g2. split_and!; [done|done|by eapply step_trans|]. intros q' [->|Hq']%elem_of_cons; [|by apply Hall].
    by apply (respects_step g1). }
  assert (∀ ps, (∀ p, p ∈ ps → p ∈ pattern_list t) → ∀ h g, (∀ u, 1 ≤ g u) → state h g →
    ∃ h' g', foldl (λ r p, foldl (λ r q, h ← r; compute_GSshift fuel t (data p) (len p) (data q) (len q) h) r (pattern_list t))
        (Some h) ps = Some h' ∧ state h' g' ∧ step g g' ∧
      ∀ p q, p ∈ ps → q ∈ pattern_list t → respects g' p q 0 (len q)) as Houter; [|by apply Houter].
  intros ps. induction ps as [|p ps IH]; intros Hps h0 g0 Hg0 Hst0; cbn [foldl].
  { exists h0, g0. split_and!; [done|done|by split|]. by intros p q Hp%elem_of_nil. }
  destruct (Hinner p (Hps p (list_elem_of_here _ _)) (pattern_list t) (λ _ H, H) h0 g0 Hg0 Hst0) as (h1 & g1 & -> & Hst1 & Hstep1 & Hr).
  destruct (IH (λ x Hx, Hps x (list_elem_of_further _ _ _ Hx)) h1 g1 (proj2 Hstep1) Hst1) as (h2 & g2 & -> & Hst2 & Hstep2 & Hall).
  exists h2, g2. split_and!; [done|done|by eapply step_trans|]. intros p' q [->|Hp']%elem_of_cons Hq; [|by apply Hall].
  apply (respects_step g1); [done|by apply Hr].
Qed.

(** ** The bad character shifts *)

Lemma set_at (bc : list Z) (c i : Z) :
  length bc = 256%nat → is_byte c →
  ∃ bc', set bc c i = Some bc' ∧ length bc' = 256%nat ∧ ∀ x, is_byte x → at_ bc' x = if decide (x = c) then i else at_ bc x.
Proof.
  intros Hl Hc. unfold is_byte in *. unfold set, store. rewrite (proj2 (Z.ltb_ge _ _)) by lia. rewrite decide_True by lia.
  eexists. split; [done|]. rewrite length_insert. split; [done|]. intros x Hx. unfold at_. destruct (decide (x = c)) as [->|Hne].
  - apply list_lookup_total_insert_eq. lia.
  - apply list_lookup_total_insert_ne. lia.
Qed.

Definition same_letter (x y : Z) : Prop := fold cs x = fold cs y.

Lemma BC_patterns_spec (ps : list pattern_data) (i : Z) :
  (∀ p, p ∈ ps → p ∈ pattern_list t) → 1 ≤ i < min_pattern_size t → ∀ bc, length bc = 256%nat →
  ∃ bc', BC_patterns t ps i bc = Some bc' ∧ length bc' = 256%nat ∧
    (∀ x, is_byte x → at_ bc' x = at_ bc x ∨ at_ bc' x = i) ∧
    (∀ p x, p ∈ ps → i < len p → is_byte x → fold cs x = at_ (key p) i → at_ bc' x = i).
Proof using Htree.
  clear lab. intros Hps Hi. induction ps as [|p ps IH]; intros bc Hbc; cbn [BC_patterns].
  { exists bc. split_and!; [done|done|auto|]. by intros p x Hp%elem_of_nil. }
  assert (p ∈ pattern_list t) as Hp by (apply Hps; left). destruct (pattern_in p Hp) as (_ & Hd & Hb & _).
  pose proof (tr_size Htree). destruct (lookup_lt_is_Some_2 (data p) (Z.to_nat i)) as [y Hy]; [lia|].
  pose proof (Forall_lookup_1 _ _ _ _ Hb Hy) as Hyb. unfold get. rewrite (proj2 (Z.ltb_ge _ _)), Hy by lia. cbn [mbind option_bind].
  rewrite (folded_eq p) by done. cbn [mbind option_bind].
  assert (∃ p0, head (pattern_list t) = Some p0 ∧ (pat_case_sen p0 =? 0) = negb cs) as (p0 & -> & Hcase).
  { destruct (pattern_list t) as [|p0 ps0] eqn:E; [by apply elem_of_nil in Hp|]. exists p0. split; [done|].
    destruct (pattern_in p0) as (_ & _ & _ & ?); [rewrite E; left|done]. }
  cbn [mbind option_bind]. rewrite Hcase. pose proof (fold_byte cs y Hyb) as Hcb.
  destruct (set_at bc (fold cs y) i Hbc Hcb) as (bc1 & -> & Hl1 & Hat1). cbn [mbind option_bind].
  assert (∃ bc2, (if negb cs && is_lower (fold cs y) then set bc1 (fold cs y - 32) i else Some bc1) = Some bc2 ∧
    length bc2 = 256%nat ∧ ∀ x, is_byte x → at_ bc2 x = if decide (fold cs x = fold cs y) then i else at_ bc x) as (bc2 & -> & Hl2 & Hat2).
  { pose proof (fold_eq cs) as Hfe. destruct (negb cs && is_lower (fold cs y)) eqn:El.
    - destruct (set_at bc1 (fold cs y - 32) i Hl1) as (bc2 & -> & Hl2 & Hat2).
      { unfold is_byte in *. apply andb_true_iff in El as [_ El]. unfold is_lower in El. lia. }
      exists bc2. split_and!; [done|done|]. intros x Hx. rewrite Hat2, Hat1 by done.
      specialize (Hfe x (fold cs y) (fold_idemp cs y)). rewrite El in Hfe.
      destruct (decide (x = fold cs y - 32)), (decide (x = fold cs y)), (decide (fold cs x = fold cs y)); naive_solver.
    - exists bc1. split_and!; [done|done|]. intros x Hx. rewrite Hat1 by done.
      specialize (Hfe x (fold cs y) (fold_idemp cs y)). rewrite El in Hfe.
      destruct (decide (x = fold cs y)), (decide (fold cs x = fold cs y)); naive_solver. }
  cbn [mbind option_bind].
  destruct (IH (λ q Hq, Hps q (list_elem_of_further _ _ _ Hq)) bc2 Hl2) as (bc' & -> & Hl' & Hor & Hall).
  exists bc'. split_and!; [done|done| |].
  - intros x Hx. destruct (Hor x Hx) as [-> | ->]; [|auto]. rewrite Hat2 by done. destruct (decide _); auto.
  - intros q x [->|Hq]%elem_of_cons Hlen Hx Hxy; [|by apply (Hall q)].
    destruct (get_key p i Hp ltac:(lia)) as (y' & Hy' & Hky & _). unfold get in Hy'. rewrite (proj2 (Z.ltb_ge _ _)), Hy in Hy' by lia.
    injection Hy' as <-. destruct (Hor x Hx) as [-> | ->]; [|done]. rewrite Hat2, decide_True by congruence. done.
Qed.

(** [bc] is a table of positive shifts that respect all places. *)
Definition bad_chars (bc : list Z) : Prop :=
  length bc = 256%nat ∧ ∀ x, is_byte x → 1 ≤ at_ bc x ≤ min_pattern_size t ∧
    ∀ p i, p ∈ pattern_list t → 1 ≤ i < min_pattern_size t → i < len p → fold cs x = at_ (key p) i → at_ bc x ≤ i.

Lemma compute_BCshifts_spec :
  ∃ bc, ACtree_compute_BCshifts t =
      Some (Tree (root t) (max_depth t) (min_pattern_size t) bc (pattern_list t) (pattern_count t)) ∧ bad_chars bc.
Proof using Htree.
  clear lab. unfold ACtree_compute_BCshifts. pose proof (tr_size Htree) as Hsize. set (mn := min_pattern_size t) in *.
  destruct (foldl_ind (λ r i, bc ← r; BC_patterns t (pattern_list t) i bc)
    (λ dn bc, length bc = 256%nat ∧ ∀ x, is_byte x → 1 ≤ at_ bc x ≤ mn ∧
      ∀ p i, p ∈ pattern_list t → i ∈ dn → i < len p → fold cs x = at_ (key p) i → at_ bc x ≤ i)
    (reverse (seqZ 1 (mn - 1))) (replicate 256 mn)) as (bc & -> & Hl & Hbc).
  - split; [apply length_replicate|]. intros x Hx. unfold at_. unfold is_byte in Hx.
    rewrite (list_lookup_total_correct _ _ mn) by (apply lookup_replicate_2; lia). split; [lia|]. by intros p i _ Hi%elem_of_nil.
  - intros dn i rest bc E [Hl Hbc]. assert (i ∈ reverse (seqZ 1 (mn - 1))) as Hi by (rewrite E; apply elem_of_app; right; left).
    rewrite elem_of_reverse, elem_of_seqZ in Hi.
    assert (∀ j, j ∈ dn → i < j) as Hlater.
    { intros j Hj. apply (f_equal reverse) in E. rewrite reverse_involutive, reverse_app, reverse_cons, <- app_assoc in E.
      apply elem_of_reverse in Hj. apply list_elem_of_lookup in Hj as [b Hj].
      assert (seqZ 1 (mn - 1) !! length (reverse rest) = Some i) as H1.
      { rewrite E, lookup_app_r, Nat.sub_diag by lia. done. }
      assert (seqZ 1 (mn - 1) !! (length (reverse rest) + S b)%nat = Some j) as H2.
      { rewrite E, lookup_app_r by lia. replace (_ + S b - _)%nat with (S b) by lia. done. }
      apply lookup_seqZ in H1, H2. lia. }
    destruct (BC_patterns_spec (pattern_list t) i (λ p H, H) ltac:(unfold mn in *; lia) bc Hl) as (bc' & E' & Hl' & Hor & Hall).
    exists bc'. split; [done|]. split; [done|]. intros x Hx. destruct (Hbc x Hx) as [Hr Hp]. split.
    + destruct (Hor x Hx) as [-> | ->]; lia.
    + intros p j Hpin [Hj|Hj]%elem_of_app Hjl Hfx.
      * destruct (Hor x Hx) as [-> | ->]; [by apply (Hp p)|]. specialize (Hlater j Hj). lia.
      * apply list_elem_of_singleton in Hj as ->. rewrite (Hall p x) by done. lia.
  - exists bc. split; [done|]. split; [done|]. intros x Hx. destruct (Hbc x Hx) as [Hr Hp]. split; [done|].
    intros p i Hpin Hi Hil Hfx. apply (Hp p i); [done| |done|done]. rewrite elem_of_reverse, elem_of_seqZ. unfold mn. lia.
Qed.
End shift.
