(* ===== verification/AcSearch.v ===== *)
(** * The search of the AC-BM matcher

    What a search reports: for each place of the text, from the last to the
    first, the patterns that are there, the shorter ones first; of equal patterns
    the last.  The shifts skip no place with a pattern, and are positive. *)

From S2P Require Import Prelude AcBm AcTrie AcShift.

(** ** Specification *)

Section spec.
Context (cs : bool) (ps : list pattern_data) (text : list Z).

Definition folded_text : list Z := fold cs <$> text.

(** The text from [b] on, [n] characters. *)
Definition slice (b n : Z) : list Z := take (Z.to_nat n) (drop (Z.to_nat b) folded_text).

Definition match_at (b n : Z) : option Z :=
  let i := last_index cs false ps 0 (slice b n) in if 0 <=? i then Some i else None.

(** The patterns at [b] with more than [k] characters. *)
Definition matches_from (b k : Z) : list Z := omap (match_at b) (seqZ (k + 1) (Z.of_nat (length text) - b - k)).

(** All matches at the places up to [b]. *)
Definition matches {A} (item : Z → Z → A) (b : Z) : list A :=
  reverse (seqZ 0 (b + 1)) ≫= λ b, (λ i, item i b) <$> matches_from b 0.

End spec.

Lemma matches_step {A} (cs : bool) (ps : list pattern_data) (text : list Z) (item : Z → Z → A) (b : Z) :
  0 ≤ b → matches cs ps text item b = ((λ i, item i b) <$> matches_from cs ps text b 0) ++ matches cs ps text item (b - 1).
Proof.
  intros Hb. unfold matches. replace (b + 1) with (Z.succ b) by lia.
  assert (seqZ 0 (Z.succ b) = seqZ 0 b ++ [b]) as ->.
  { replace (Z.succ b) with (b + 1) by lia. by rewrite seqZ_app by lia. }
  rewrite reverse_app. simpl. f_equal. by replace (b - 1 + 1) with b by lia.
Qed.

Lemma matches_none {A} (cs : bool) (ps : list pattern_data) (text : list Z) (item : Z → Z → A) (b : Z) :
  b < 0 → matches cs ps text item b = [].
Proof. intros Hb. unfold matches. by rewrite seqZ_nil by lia. Qed.

(** Places without matches. *)
Lemma matches_skip {A} (cs : bool) (ps : list pattern_data) (text : list Z) (item : Z → Z → A) (b b' : Z) :
  b' ≤ b → (∀ x, b' < x ≤ b → 0 ≤ x → matches_from cs ps text x 0 = []) → matches cs ps text item b = matches cs ps text item b'.
Proof.
  intros Hle Hno. replace b with (b' + Z.of_nat (Z.to_nat (b - b'))) in * by lia.
  set (d := Z.to_nat (b - b')) in *. clearbody d. induction d as [|d IH]; [by rewrite Z.add_0_r|].
  destruct (decide (b' + Z.of_nat (S d) < 0)); [by rewrite !matches_none by lia|].
  rewrite matches_step, Hno by lia. simpl. replace (b' + Z.of_nat (S d) - 1) with (b' + Z.of_nat d) by lia.
  apply IH; [lia|]. intros x Hx. apply Hno. lia.
Qed.

Lemma last_index_range (cs back : bool) (ps : list pattern_data) (i : Z) (w : list Z) :
  0 ≤ i → last_index cs back ps i w = -1 ∨
    i ≤ last_index cs back ps i w ∧ ∃ p, p ∈ ps ∧ word cs back p = w.
Proof.
  revert i. induction ps as [|p ps IH]; intros i Hi; simpl; [auto|].
  destruct (IH (i + 1) ltac:(lia)) as [->|(Hle & q & Hq & Hw)]; simpl.
  - destruct (decide (word cs back p = w)) as [E|E]; [|auto]. right. split; [lia|]. exists p. split; [left|done].
  - rewrite (proj2 (Z.eqb_neq _ _)) by lia. right. split; [lia|]. exists q. split; [by right|done].
Qed.

Section search.
Context (cs : bool) (old h : heap) (Aw : words) (lab : list Z → Z) (t : pattern_tree) (g : list Z → Z) (text : list Z).

Abbreviation ps := (pattern_list t).
Abbreviation slice := (slice cs text).
Abbreviation matches_from := (matches_from cs ps text).
Abbreviation len_text := (Z.of_nat (length text)).

Context (Htree : tree_ok cs Aw t) (Hstate : state cs old Aw lab h g).
Context (Hwords : ∀ u, u ≠ [] → is_Some (Aw !! u) ↔ ∃ p, p ∈ ps ∧ u `prefix_of` key cs p).
Context (Hlab : ∀ u, u ≠ [] → lab u = last_index cs false ps 0 u).
Context (Hpos : ∀ w, 1 ≤ g w) (Hmin : ∀ w, w ≠ [] → g w ≤ min_pattern_size t).
Context (Hgs : ∀ p q, p ∈ ps → q ∈ ps → respects cs t g p q 0 (len q)).
Context (Hbc : bad_chars cs t (BCshift t)).
Context (Htext : Forall is_byte text).

Lemma length_folded : length (folded_text cs text) = length text.
Proof. apply length_fmap. Qed.

Lemma slice_0 (b : Z) : slice b 0 = [].
Proof. done. Qed.

Lemma length_slice (b n : Z) : 0 ≤ b → 0 ≤ n → b + n ≤ len_text → Z.of_nat (length (slice b n)) = n.
Proof. intros. unfold AcSearch.slice. rewrite length_take, length_drop, length_folded. lia. Qed.

Lemma slice_S (b n : Z) :
  0 ≤ b → 0 ≤ n → b + n < len_text → slice b (n + 1) = slice b n ++ [at_ (folded_text cs text) (b + n)].
Proof.
  intros Hb Hn Hl. unfold AcSearch.slice. replace (Z.to_nat (n + 1)) with (S (Z.to_nat n)) by lia. apply take_S_r.
  rewrite lookup_drop. replace (Z.to_nat b + Z.to_nat n)%nat with (Z.to_nat (b + n)) by lia.
  apply list_lookup_lookup_total_lt. rewrite length_folded. lia.
Qed.

Lemma at_slice (b n j : Z) : 0 ≤ b → 0 ≤ j < n → at_ (slice b n) j = at_ (folded_text cs text) (b + j).
Proof.
  intros Hb Hj. unfold at_, AcSearch.slice. rewrite !list_lookup_total_alt. rewrite lookup_take_lt by lia.
  rewrite lookup_drop. do 2 f_equal. lia.
Qed.

Lemma get_text (i : Z) :
  0 ≤ i < len_text → ∃ x, get text i = Some x ∧ is_byte x ∧ fold cs x = at_ (folded_text cs text) i.
Proof using Htext.
  intros Hi. destruct (lookup_lt_is_Some_2 text (Z.to_nat i)) as [x Hx]; [lia|]. exists x. split_and!.
  - unfold get. by rewrite (proj2 (Z.ltb_ge _ _)) by lia.
  - exact (Forall_lookup_1 _ _ _ _ Htext Hx).
  - unfold at_, folded_text. symmetry. apply list_lookup_total_correct. rewrite list_lookup_fmap, Hx. done.
Qed.

(** A pattern is in the text at [x]. *)
Definition occurs (q : pattern_data) (x : Z) : Prop :=
  1 ≤ len q ∧ 0 ≤ x ∧ x + len q ≤ len_text ∧ ∀ j, 0 ≤ j < len q → at_ (folded_text cs text) (x + j) = at_ (key cs q) j.

Lemma match_at_pattern (b n i : Z) : match_at cs ps text b n = Some i → ∃ p, p ∈ ps ∧ key cs p = slice b n.
Proof.
  unfold match_at. destruct (last_index_range cs false ps 0 (slice b n) ltac:(lia)) as [->|(Hle & p & Hp & Hw)]; [done|].
  intros _. by exists p.
Qed.

Lemma match_at_occurs (b n i : Z) :
  0 ≤ b → 1 ≤ n → b + n ≤ len_text → match_at cs ps text b n = Some i → ∃ q, q ∈ ps ∧ len q = n ∧ occurs q b.
Proof using Htree.
  intros Hb Hn Hl (q & Hq & Hk)%match_at_pattern. exists q. pose proof (length_key_in cs Aw t Htree q Hq) as Hlen.
  rewrite Hk, length_slice in Hlen by lia. split_and!; [done|done|]. split_and!; [lia|lia|lia|].
  intros j Hj. rewrite Hk, at_slice by lia. done.
Qed.

Lemma matches_from_nil (b k : Z) :
  0 ≤ b → 0 ≤ k → (∀ q, q ∈ ps → k < len q → ¬ occurs q b) → matches_from b k = [].
Proof using Htree.
  intros Hb Hk Hno. unfold AcSearch.matches_from.
  assert (∀ ns, (∀ n, n ∈ ns → k < n ∧ b + n ≤ len_text) → omap (match_at cs ps text b) ns = []) as H.
  { intros ns. induction ns as [|n ns IH]; intros Hns; [done|]. simpl. destruct (Hns n) as [H1 H2]; [left|].
    destruct (match_at cs ps text b n) as [i|] eqn:E.
    - apply match_at_occurs in E as (q & Hq & Hlen & Hocc); [|lia..]. destruct (Hno q Hq); [lia|done].
    - apply IH. intros m Hm. apply Hns. by right. }
  apply H. intros n Hn%elem_of_seqZ. lia.
Qed.

(** Nothing starts where the shortest pattern does not fit. *)
Lemma matches_late (x : Z) : len_text - min_pattern_size t < x → 0 ≤ x → matches_from x 0 = [].
Proof using Htree.
  intros Hx H0. apply matches_from_nil; [lia|lia|]. intros q Hq Hlen (H1 & _ & H2 & _).
  destruct (tr_short _ _ _ Htree q Hq); lia.
Qed.

(** ** The walk *)

(** The word of a node, and what the walk reports from there on. *)
Lemma beyond_words (b k : Z) :
  0 ≤ b → 0 ≤ k → b + k < len_text → Aw !! slice b (k + 1) = None → matches_from b k = [].
Proof using Htree Hwords.
  intros Hb Hk Hl Hnone. apply matches_from_nil; [lia|lia|]. intros q Hq Hlen (H1 & _ & H2 & H3).
  assert (slice b (k + 1) ≠ []) as Hne.
  { intros E. apply (f_equal length) in E. pose proof (length_slice b (k + 1) Hb ltac:(lia) ltac:(lia)) as Hls.
    rewrite E in Hls. simpl in Hls. lia. }
  destruct (proj2 (Hwords _ Hne)) as [a Ha]; [|congruence]. exists q. split; [done|].
  assert (slice b (k + 1) = take (Z.to_nat (k + 1)) (key cs q)) as ->; [|apply prefix_take].
  pose proof (length_key_in cs Aw t Htree q Hq) as Hkl. pose proof (length_slice b (k + 1) Hb ltac:(lia) ltac:(lia)) as Hls.
  apply list_eq_same_length with (n := Z.to_nat (k + 1)); [rewrite ?length_take; lia..|]. intros i x y Hi Hx Hy.
  pose proof (at_slice b (k + 1) (Z.of_nat i) Hb ltac:(lia)) as E1. unfold at_ in E1 at 1. rewrite Nat2Z.id in E1.
  rewrite (list_lookup_total_correct _ _ x Hx) in E1. rewrite lookup_take_lt in Hy by lia.
  specialize (H3 (Z.of_nat i) ltac:(lia)). unfold at_ in H3 at 2. rewrite Nat2Z.id, (list_lookup_total_correct _ _ y Hy) in H3.
  congruence.
Qed.

Section items.
Context {A : Type} (item : Z → Z → A).

Definition report (b k : Z) : list A := (λ i, item i b) <$> matches_from b k.

Lemma report_step (b k : Z) :
  0 ≤ b → 0 ≤ k → b + k < len_text →
  report b k = (match match_at cs ps text b (k + 1) with Some i => [item i b] | None => [] end) ++ report b (k + 1).
Proof.
  intros Hb Hk Hl. unfold report, AcSearch.matches_from. rewrite seqZ_cons by lia. simpl.
  replace (Z.succ (k + 1)) with (k + 1 + 1) by lia. replace (Z.pred (len_text - b - k)) with (len_text - b - (k + 1)) by lia.
  by destruct (match_at cs ps text b (k + 1)).
Qed.

Lemma walk_spec (fuel : nat) (nmax b : Z) : 0 ≤ b → ∀ k node (out : list A),
  0 ≤ k → b + k < len_text → Aw !! slice b k = Some node → (Z.to_nat (len_text - b - k) < fuel)%nat →
  Z.of_nat (length out) < nmax →
  ∃ node' k' out' stop, walk item fuel h text nmax b node (b + k) out = Some (node', b + k', out', stop) ∧
    (if stop : bool then out' = take (Z.to_nat nmax) (out ++ report b k) ∧ nmax ≤ Z.of_nat (length (out ++ report b k))
     else out' = out ++ report b k ∧ Z.of_nat (length out') < nmax ∧ k ≤ k' ∧ b + k' ≤ len_text ∧
       Aw !! slice b k' = Some node' ∧ (b + k' < len_text → Aw !! slice b (k' + 1) = None)).
Proof using Htree Hstate Hwords Hlab Htext.
  intros Hb. induction fuel as [|fuel IH]; intros k node out Hk Hl Hnode Hf Hmax; [lia|]. cbn [walk].
  destruct Hstate as [R _]. destruct (rep_node _ _ _ _ _ _ R _ node Hnode) as (n & -> & Hok). cbn [mbind option_bind].
  destruct (get_text (b + k) ltac:(lia)) as (x & -> & _ & Hx). cbn [mbind option_bind].
  rewrite (ok_childs _ _ _ _ _ _ Hok), Hx, <- slice_S by lia.
  destruct (Aw !! slice b (k + 1)) as [node'|] eqn:Hnode'.
  2: { exists node, k, out, false. unfold report. rewrite beyond_words by done. rewrite app_nil_r.
    split_and!; [done|done|done|lia|lia|done|done]. }
  destruct (rep_node _ _ _ _ _ _ R _ node' Hnode') as (n' & -> & Hok'). cbn [mbind option_bind].
  assert (slice b (k + 1) ≠ []) as Hne.
  { intros E. apply (f_equal length) in E. pose proof (length_slice b (k + 1) Hb ltac:(lia) ltac:(lia)) as Hls.
    rewrite E in Hls. simpl in Hls. lia. }
  rewrite (ok_label _ _ _ _ _ _ Hok'), decide_False, Hlab by done. rewrite report_step by lia. unfold match_at.
  set (i := last_index cs false ps 0 (slice b (k + 1))).
  set (out1 := if 0 <=? i then out ++ [item i b] else out).
  assert (out ++ (match (if 0 <=? i then Some i else None) with Some i => [item i b] | None => [] end) ++ report b (k + 1) =
    out1 ++ report b (k + 1)) as Eout.
  { unfold out1. destruct (0 <=? i); [by rewrite <- app_assoc|done]. }
  fold out1. destruct ((0 <=? i) && (Z.of_nat (length out1) =? nmax)) eqn:Estop.
  { apply andb_true_iff in Estop as [_ Estop]. apply Z.eqb_eq in Estop. eexists _, k, _, true. split; [done|].
    rewrite Eout, length_app, take_app_length' by lia. split; [done|lia]. }
  assert (Z.of_nat (length out1) < nmax) as Hmax1.
  { unfold out1 in *. destruct (0 <=? i); [|done]. simpl in Estop. apply Z.eqb_neq in Estop. rewrite length_app in *. simpl in *. lia. }
  destruct (Z.leb_spec (Z.of_nat (length text)) (b + k + 1)) as [Hend|Hend].
  - exists node', (k + 1), out1, false. split; [do 4 f_equal; lia|]. rewrite Eout. unfold report, AcSearch.matches_from.
    rewrite seqZ_nil by lia. simpl. rewrite app_nil_r. split_and!; [done|done|lia|lia|done|lia].
  - destruct (IH (k + 1) node' out1) as (node2 & k2 & out2 & stop & E & Hres); [lia|lia|done|lia|done|].
    rewrite Z.add_assoc in E. exists node2, k2, out2, stop. split; [done|]. rewrite Eout. destruct stop; [done|].
    destruct Hres as (? & ? & ? & ? & ? & ?). split_and!; done || lia.
Qed.

(** ** The shifts *)

(** No pattern starts between the next place and this one. *)
Lemma next_base_spec (b k node : Z) :
  0 ≤ b → 0 ≤ k → b + k ≤ len_text → Aw !! slice b k = Some node → (b + k < len_text → Aw !! slice b (k + 1) = None) →
  ∃ b', next_base t h text b node (b + k) = Some b' ∧ b' < b ∧ ∀ x, b' < x < b → 0 ≤ x → matches_from x 0 = [].
Proof using Htree Hstate Hwords Hpos Hmin Hgs Hbc Htext.
  intros Hb Hk Hl Hnode Hend. destruct Hstate as [R Hg]. destruct (rep_node _ _ _ _ _ _ R _ node Hnode) as (n & Hn & Hok).
  unfold next_base. rewrite Hn. cbn [mbind option_bind]. destruct (Z.ltb_spec 0 (nchild n)) as [Hin|Hleaf].
  2: { exists (b - 1). split_and!; [done|lia|]. intros x Hx. lia. }
  destruct (ok_one _ _ _ _ _ _ Hok Hin) as [kid Hkid]. set (c := one_child n) in *. set (v := slice b k) in *.
  assert (letter cs c) as [_ Hfold] by (apply (rep_prefix _ _ _ _ _ _ R v c); by exists kid).
  rewrite (ok_childs _ _ _ _ _ _ Hok), Hfold, Hkid. cbn [mbind option_bind].
  assert (v ++ [c] ≠ []) as Hne by (by destruct v).
  destruct (Hg _ kid Hne Hkid) as (m & Hm & Egs). rewrite Hm. cbn [mbind option_bind]. rewrite Egs. clear m Hm Egs.
  assert (Z.of_nat (length v) = k) as Hlv by (by apply length_slice).
  destruct (proj1 (Hwords _ Hne)) as (p & Hp & Hpre); [by exists kid|].
  pose proof (length_key_in cs Aw t Htree p Hp) as Hkl.
  assert (k < len p) as Hkp. { apply prefix_length in Hpre. rewrite length_app in Hpre. simpl in Hpre. lia. }
  assert (prefix_of_key cs p (k + 1) = v ++ [c]) as Epre.
  { unfold prefix_of_key. destruct Hpre as [rest E]. rewrite E. apply take_app_length'. rewrite length_app. simpl. lia. }
  assert (at_ (key cs p) k = c) as Hpk.
  { destruct Hpre as [rest E]. unfold at_. rewrite E, <- app_assoc. apply list_lookup_total_middle. lia. }
  assert (∀ j, 0 ≤ j < k → at_ (key cs p) j = at_ (folded_text cs text) (b + j)) as Hpj.
  { intros j Hj. rewrite <- (at_slice b k j) by done. fold v. destruct Hpre as [rest E]. unfold at_. rewrite E, <- app_assoc.
    apply lookup_total_app_l. lia. }
  (* the shift of the branch *)
  assert (∀ x q, 0 ≤ x < b → b - x < g (v ++ [c]) → q ∈ ps → ¬ occurs q x) as Hsafe_gs.
  { intros x q Hx Hlt Hq (H1 & _ & H2 & H3). pose proof (Hmin _ Hne) as Hgm.
    destruct (tr_short _ _ _ Htree q Hq) as [?|Hshort]; [lia|].
    assert (g (prefix_of_key cs p (k + 1)) ≤ b - x) as Hle; [|rewrite Epre in Hle; lia].
    apply (Hgs p q Hp Hq k (b - x)); [lia|lia|lia|lia|]. split.
    - intros j Hj Hjl. rewrite Hpj, <- H3 by lia. f_equal. lia.
    - intros Hkl2 E. rewrite <- H3, Hpk in E by lia. replace (x + (b - x + k)) with (b + k) in E by lia.
      specialize (Hend ltac:(lia)). rewrite slice_S, E in Hend by lia. unfold v in Hkid. congruence. }
  destruct (Z.ltb_spec (b + k) len_text) as [Hin_text|Hend_text].
  - destruct (get_text (b + k) ltac:(lia)) as (y & -> & Hy & Hfy). cbn [mbind option_bind].
    destruct Hbc as [Hlbc Hb2]. destruct (Hb2 y Hy) as [[Hb1 Hbm] Hbad].
    assert (get (BCshift t) y = Some (at_ (BCshift t) y)) as ->.
    { unfold is_byte in Hy. unfold get. rewrite (proj2 (Z.ltb_ge _ _)) by lia. apply list_lookup_lookup_total_lt. lia. }
    cbn [mbind option_bind]. eexists. split; [done|]. pose proof (Hpos (v ++ [c])).
    split; [destruct (Z.ltb_spec (at_ (BCshift t) y + b - (b + k)) (g (v ++ [c]))); lia|].
    intros x Hx Hx0. apply matches_from_nil; [done|lia|]. intros q Hq _ Hocc.
    destruct (decide (b - x < g (v ++ [c]))) as [?|Hge]; [by apply (Hsafe_gs x q); [lia|done..]|].
    destruct (Z.ltb_spec (at_ (BCshift t) y + b - (b + k)) (g (v ++ [c]))); [lia|].
    destruct Hocc as (H1 & _ & H2 & H3). destruct (tr_short _ _ _ Htree q Hq) as [?|Hshort]; [lia|].
    assert (at_ (BCshift t) y ≤ b - x + k); [|lia].
    apply (Hbad q (b - x + k) Hq); [lia|lia|]. rewrite Hfy, <- H3 by lia. f_equal. lia.
  - cbn [mbind option_bind]. eexists. split; [done|]. pose proof (Hpos (v ++ [c])).
    split; [destruct (Z.ltb_spec 1 (g (v ++ [c]))); lia|].
    intros x Hx Hx0. apply matches_from_nil; [done|lia|]. intros q Hq _. apply Hsafe_gs; [lia| |done].
    destruct (Z.ltb_spec 1 (g (v ++ [c]))); lia.
Qed.

(** ** The search *)

Lemma search_loop_spec (fuel : nat) (nmax : Z) : ∀ b (out : list A),
  b + min_pattern_size t ≤ len_text → (Z.to_nat (len_text + b + 1) < fuel)%nat → Z.of_nat (length out) < nmax →
  search_loop item fuel t h text nmax b out = Some (take (Z.to_nat nmax) (out ++ matches cs ps text item b)).
Proof using Htree Hstate Hwords Hlab Hpos Hmin Hgs Hbc Htext.
  induction fuel as [|fuel IH]; intros b out Hl Hf Hmax; [lia|]. cbn [search_loop].
  destruct (Z.leb_spec 0 b) as [Hb|Hb].
  2: { rewrite matches_none, app_nil_r by done. f_equal. symmetry. apply take_ge. lia. }
  pose proof (tr_size _ _ _ Htree).
  destruct (walk_spec (S fuel) nmax b Hb 0 (root t) out) as (node & k & out' & stop & E & Hres); [lia|lia|apply Htree|lia|done|].
  rewrite Z.add_0_r in E. rewrite E. cbn [mbind option_bind]. rewrite matches_step by done. rewrite app_assoc.
  change ((λ i, item i b) <$> matches_from b 0) with (report b 0). destruct stop.
  - destruct Hres as [-> Hlen]. by rewrite (take_app_le (out ++ report b 0)) by lia.
  - destruct Hres as (-> & Hlen & Hk & Hkl & Hnode & Hend).
    destruct (next_base_spec b k node Hb Hk Hkl Hnode Hend) as (b' & -> & Hlt & Hno). cbn [mbind option_bind].
    rewrite IH by lia. do 3 f_equal. symmetry. apply matches_skip; [lia|]. intros x Hx. apply Hno. lia.
Qed.

Lemma search_spec (fuel : nat) (nmax : Z) :
  (2 * length text + 1 < fuel)%nat → 0 < nmax →
  search item fuel t h text nmax = Some (take (Z.to_nat nmax) (matches cs ps text item (len_text - 1))).
Proof using Htree Hstate Hwords Hlab Hpos Hmin Hgs Hbc Htext.
  intros Hf Hmax. unfold search. pose proof (tr_size _ _ _ Htree).
  rewrite (matches_skip cs ps text item (len_text - 1) (len_text - min_pattern_size t)).
  - destruct (Z.ltb_spec len_text (min_pattern_size t)); [|apply search_loop_spec; [lia|lia|done]].
    rewrite matches_none by lia. by rewrite take_nil.
  - lia.
  - intros x Hx Hx0. apply matches_late; lia.
Qed.
End items.
End search.

(** ** The whole matcher *)

Lemma shortest_bounds (mn : Z) (ps : list pattern_data) :
  1 ≤ mn → Forall (λ p, 0 ≤ len p) ps →
  1 ≤ shortest mn ps ≤ mn ∧ ∀ p, p ∈ ps → len p = 0 ∨ shortest mn ps ≤ len p.
Proof.
  unfold shortest. intros Hmn H. revert mn Hmn. induction H as [|p ps Hp Hps IH]; intros mn Hmn; simpl.
  { split; [lia|]. by intros p Hp%elem_of_nil. }
  destruct (IH (if len p =? 0 then mn else Z.min mn (len p))) as [H1 H2]; [destruct (Z.eqb_spec (len p) 0); lia|]. split.
  - destruct (Z.eqb_spec (len p) 0); lia.
  - intros q [->|Hq]%elem_of_cons; [|by apply H2]. destruct (Z.eqb_spec (len p) 0); lia.
Qed.

(** No pattern begins with a capital letter that is a letter of its own. *)
Definition small_first (cs : bool) (ps : list pattern_data) : Prop :=
  cs = false ∨ Forall (λ p, ∀ c, head (key cs p) = Some c → is_upper c = false) ps.

Lemma key_caps (cs : bool) (ps : list pattern_data) (Aw : words) :
  small_first cs ps → (∀ u, u ≠ [] → is_Some (Aw !! u) ↔ ∃ p, p ∈ ps ∧ u `prefix_of` word cs false p) → no_caps cs false Aw.
Proof.
  intros [->|Hps] Hwords u c Hcs Hu Hc; [done|]. apply bool_decide_eq_true in Hu as ->. apply eq_None_not_Some.
  intros (p & Hp & [rest E])%Hwords; [|done]. rewrite Forall_forall in Hps.
  specialize (Hps p Hp c). unfold word in E. simpl in E. rewrite E in Hps. rewrite (Hps eq_refl) in Hc. done.
Qed.

(** The shifts after [ACtree_compute_shifts]. *)
Lemma compute_shifts_spec (cs : bool) (old h : heap) (Aw : words) (lab : list Z → Z) (t : pattern_tree) (fuel : nat) :
  tree_ok cs Aw t → rep cs false old h Aw lab → no_caps cs false Aw → (∀ u, u ≠ [] → -1 ≤ lab u) →
  (∀ u, is_Some (Aw !! u) → (length u ≤ Z.to_nat PATTERN_LEN)%nat) → (Z.to_nat PATTERN_LEN < fuel)%nat →
  ∃ bc h' g, ACtree_compute_shifts fuel t h =
      Some (Tree (root t) (max_depth t) (min_pattern_size t) bc (pattern_list t) (pattern_count t), h') ∧
    bad_chars cs t bc ∧ state cs old Aw lab h' g ∧ (∀ w, 1 ≤ g w) ∧ (∀ w, g w ≤ min_pattern_size t) ∧
    ∀ p q, p ∈ pattern_list t → q ∈ pattern_list t → respects cs t g p q 0 (len q).
Proof.
  intros Htree R Hcaps Hlab Hlen Hfuel. unfold ACtree_compute_shifts.
  destruct (compute_BCshifts_spec cs Aw t Htree) as (bc & -> & Hbc). cbn [mbind option_bind root min_pattern_size].
  set (t' := Tree (root t) (max_depth t) (min_pattern_size t) bc (pattern_list t) (pattern_count t)).
  assert (tree_ok cs Aw t') as Htree' by (by destruct Htree).
  destruct (init_spec cs false old h Aw lab (min_pattern_size t) fuel R Hcaps Hlab [] (root t) h (tr_root _ _ _ Htree))
    as (h1 & -> & Hin & Hout); [|done|].
  { intros u Hu _. specialize (Hlen u Hu). simpl. lia. }
  cbn [mbind option_bind].
  assert (state cs old Aw lab h1 (λ _, min_pattern_size t)) as Hst.
  { split.
    - apply (rep_shifts cs false old h); [done| |].
      + intros w a Hw. exists (min_pattern_size t). rewrite (Hin w a Hw (prefix_nil _)). unfold first_shift.
        by destruct (decide (w = [])).
      + intros x Hx. apply Hout. intros u Hu. by destruct (Hx u).
    - intros w a Hne Hw. destruct (rep_node _ _ _ _ _ _ R w a Hw) as (n & Hn & _). rewrite (Hin w a Hw (prefix_nil _)), Hn.
      eexists. split; [done|]. unfold first_shift. by rewrite decide_False. }
  pose proof (tr_size _ _ _ Htree) as Hsize.
  destruct (compute_GSshifts_spec cs old Aw lab t' Htree' fuel h1 _ Hfuel (λ _, proj1 Hsize) Hst) as (h2 & g & -> & Hst2 & [Hle Hpos] & Hgs).
  cbn [mbind option_bind]. exists bc, h2, g. split_and!; done.
Qed.

(** Without a root the shifts cannot be computed. *)
Lemma compute_shifts_null (fuel : nat) (h : heap) : h !! 0 = None → ACtree_compute_shifts fuel zero_tree h = None.
Proof.
  intros H0. unfold ACtree_compute_shifts. destruct (ACtree_compute_BCshifts zero_tree) as [t|] eqn:E; [|done].
  assert (root t = 0) as Hr.
  { unfold ACtree_compute_BCshifts in E. destruct (foldl _ _ _); [|done]. by injection E as <-. }
  cbn [mbind option_bind]. rewrite Hr. destruct fuel as [|fuel]; [done|]. cbn [init_GSshifts]. by rewrite H0.
Qed.

(** What [malloc] promises: a block that is given is not NULL and not in use. *)
Definition malloc_ok (malloc : memory → option Z) : Prop :=
  ∀ m a, malloc m = Some a → 0 < a ∧ nodes m !! a = None ∧ trees m !! a = None.

(** C5: [acbm_init], [acbm_search], [acbm_search_ex] and [acbm_clean] together,
    whatever [malloc] does.  Take any patterns, of one kind of case and none with
    a capital letter of its own at the start.  Without memory for the tree
    [acbm_init] returns NULL and leaves the memory as it was.  Without memory for
    a node it has no result: it goes on and reads through the null pointer to the
    root.  Otherwise, for every text, the search returns, and reports the places
    from right to left where a pattern is in the text, and which, until the
    caller's array is full; it misses none although it leaves places out by two
    kinds of shifts.  Of equal patterns the last is reported.  Afterwards
    [acbm_clean] gives back all memory, the nodes and the block of the tree. *)
Theorem acbm_correct (malloc : memory → option Z) (cs : bool) (ps : list pattern_data) (m : memory) (fuel : nat) :
  malloc_ok malloc → nodes m !! 0 = None →
  Forall (pattern_ok cs) ps → small_first cs ps → (Z.to_nat PATTERN_LEN + 1 < fuel)%nat →
  (malloc m = None ∧ acbm_init malloc fuel (Some ps) m = Some (0, m)) ∨
  (∃ ptree, malloc m = Some ptree ∧ acbm_init malloc fuel (Some ps) m = None ∧
     ∃ h, malloc (Mem h (<[ptree := zero_tree]> (trees m))) = None) ∨
  (∃ ptree m', malloc m = Some ptree ∧ acbm_init malloc fuel (Some ps) m = Some (ptree, m') ∧
     (∀ text nmax, Forall is_byte text → (2 * length text + 1 < fuel)%nat → 0 < nmax →
        acbm_search_ex fuel ptree m' text nmax =
          Some (take (Z.to_nat nmax) (matches cs ps text (λ i b, (i, b)) (Z.of_nat (length text) - 1))) ∧
        acbm_search fuel ptree m' text nmax =
          Some (take (Z.to_nat nmax) (matches cs ps text (λ i _, i) (Z.of_nat (length text) - 1)))) ∧
     acbm_clean fuel ptree m' = Some m).
Proof.
  intros Hmalloc Hnull Hps Hcaps Hfuel. unfold acbm_init.
  destruct (malloc m) as [ptree|] eqn:Em; [right|by left].
  destruct (Hmalloc m ptree Em) as (Hpos & _ & Hfresh).
  set (alloc := λ h, malloc (Mem h (<[ptree := zero_tree]> (trees m)))).
  assert (alloc_ok alloc) as Halloc by (intros h a Ha; destruct (Hmalloc _ _ Ha) as (? & ? & _); done).
  set (old := nodes m) in *.
  destruct (build_spec cs false old alloc Halloc fuel zero_tree ps Hps eq_refl)
    as [(h & E & H0 & Hfail)|(r & h0 & Aw & lab & E & R & Hr & Hwords & Hlab)].
  { left. exists ptree. split; [done|]. split; [|by exists h]. rewrite E. cbn [mbind option_bind].
    rewrite compute_shifts_null; [done|by rewrite H0]. }
  right. assert (no_caps cs false Aw) as Hno by (by apply (key_caps cs ps)).
  set (t0 := Tree r (longest 0 ps) (shortest PATTERN_LEN ps) (BCshift zero_tree) ps (Z.of_nat (length ps))).
  destruct (shortest_bounds PATTERN_LEN ps) as [Hsize Hshort]; [done|by eapply Forall_impl; [done|]; intros p [[? _] _]|].
  assert (tree_ok cs Aw t0) as Htree.
  { split; simpl; [done|done|by apply (rep_fresh _ _ _ _ _ _ R [])| |done|done].
    intros p u Hp Hu. destruct (decide (u = [])) as [->|?]; [by exists r|]. apply Hwords; [done|]. by exists p. }
  assert (∀ u, is_Some (Aw !! u) → (length u ≤ Z.to_nat PATTERN_LEN)%nat) as Hlen.
  { intros u Hu. destruct (decide (u = [])) as [->|Hne]; [simpl; lia|]. apply Hwords in Hu as (p & Hp & Hpre); [|done].
    apply prefix_length in Hpre. rewrite Forall_forall in Hps. specialize (Hps p Hp). unfold word in Hpre.
    rewrite (length_key cs p Hps) in Hpre. destruct Hps as [? _]. lia. }
  destruct (compute_shifts_spec cs old h0 Aw lab t0 fuel Htree R Hno) as (bc & h & g & E' & Hbc & Hst & Hpos' & Hmin & Hgs);
    [|done|lia|].
  { intros u Hu. rewrite Hlab by done. destruct (last_index_range cs false ps 0 u ltac:(lia)) as [?|[? _]]; lia. }
  set (t := Tree r (longest 0 ps) (shortest PATTERN_LEN ps) bc ps (Z.of_nat (length ps))).
  assert (tree_ok cs Aw t) as Htree' by (by destruct Htree).
  exists ptree, (Mem h (<[ptree := t]> (trees m))). split; [done|]. split; [|split].
  - rewrite E. cbn [mbind option_bind]. fold t0. by rewrite E'.
  - intros text nmax Htext Hf Hmax. unfold acbm_search_ex, acbm_search. cbn [trees nodes].
    rewrite lookup_insert_eq. cbn [mbind option_bind]. split; by apply (search_spec cs old h Aw lab t g text).
  - rewrite (clean_all cs false old fuel ptree t (trees m) h Aw lab (proj1 Hst) Hno Hr); [by destruct m| |done|done].
    intros u Hu. specialize (Hlen u Hu). lia.
Qed.

(** ** Runs *)

(** An address behind all others. *)
Definition bump (m : memory) : option Z :=
  Some (1 + foldr Z.max 0 ((map_to_list (nodes m)).*1 ++ (map_to_list (trees m)).*1)).

Lemma bump_ok : malloc_ok bump.
Proof.
  intros m a [= <-]. set (l := _ ++ _).
  assert (∀ x, (x ∈ l → x ≤ foldr Z.max 0 l) ∧ 0 ≤ foldr Z.max 0 l) as Hmax.
  { generalize l. clear. intros l. induction l as [|y l IH]; intros x; simpl; [split; [by intros ?%elem_of_nil|lia]|].
    destruct (IH x) as [H1 H2]. split; [|lia]. intros [->|Hx%H1]%elem_of_cons; lia. }
  split; [destruct (Hmax 0); lia|].
  split; (destruct (_ !! _) as [n|] eqn:E; [|done]); apply elem_of_map_to_list, (list_elem_of_fmap_2 fst) in E; simpl in E.
  - assert (1 + foldr Z.max 0 l ∈ l) as Hin by (apply elem_of_app; by left). apply Hmax in Hin. lia.
  - assert (1 + foldr Z.max 0 l ∈ l) as Hin by (apply elem_of_app; by right). apply Hmax in Hin. lia.
Qed.

Definition no_memory : memory := Mem ∅ ∅.

Definition pattern (case : Z) (s : string) : pattern_data :=
  Pattern (Z.of_nat (length (bytes s))) case (bytes s ++ replicate (1024 - length (bytes s)) 0).

(** The patterns of main.c and one that is part of another. *)
Definition sample : list pattern_data := pattern 0 <$> ["lipeiting"; "test"; "www"; "Pei"].

Definition pattern_okb (cs : bool) (p : pattern_data) : bool :=
  (0 <=? len p) && (len p <=? PATTERN_LEN) && (length (data p) =? Z.to_nat PATTERN_LEN)%nat &&
  forallb (λ b, (0 <=? b) && (b <? 256)) (data p) && eqb (pat_case_sen p =? 0) (negb cs).

Lemma patterns_check (cs : bool) (ps : list pattern_data) : forallb (pattern_okb cs) ps = true → Forall (pattern_ok cs) ps.
Proof.
  intros H. apply Forall_forall. intros p Hp. rewrite forallb_forall in H. apply list_elem_of_In, H in Hp.
  unfold pattern_okb in Hp. rewrite !andb_true_iff in Hp. destruct Hp as ((((H1 & H2) & H3) & H4) & H5).
  split_and!; [lia|lia|by apply Nat.eqb_eq| |by apply eqb_prop].
  apply Forall_forall. intros x Hx. rewrite forallb_forall in H4. apply list_elem_of_In, H4 in Hx. unfold is_byte. lia.
Qed.

Lemma sample_ok : Forall (pattern_ok false) sample.
Proof. apply patterns_check. vm_compute. reflexivity. Qed.

Lemma acbm_correct_witness :
  ('(p, m) ← acbm_init bump 1030 (Some sample) no_memory; acbm_search_ex 1030 p m (bytes "TESTLipeitingwwww") 32) =
    Some [(2, 14); (2, 13); (3, 6); (0, 4); (1, 0)] ∧
  ∃ p m, acbm_init bump 1030 (Some sample) no_memory = Some (p, m) ∧
    (∀ text nmax, Forall is_byte text → (2 * length text + 1 < 1030)%nat → 0 < nmax →
      acbm_search_ex 1030 p m text nmax =
        Some (take (Z.to_nat nmax) (matches false sample text (λ i b, (i, b)) (Z.of_nat (length text) - 1))) ∧
      acbm_search 1030 p m text nmax =
        Some (take (Z.to_nat nmax) (matches false sample text (λ i _, i) (Z.of_nat (length text) - 1)))) ∧
    acbm_clean 1030 p m = Some no_memory.
Proof.
  split; [vm_compute; reflexivity|].
  assert (Z.to_nat PATTERN_LEN + 1 < 1030)%nat as Hfuel by (apply Nat.ltb_lt; vm_compute; reflexivity).
  destruct (acbm_correct bump false sample no_memory 1030 bump_ok eq_refl sample_ok (or_introl eq_refl) Hfuel)
    as [[H _]|[(p & _ & _ & h & H)|(p & m & _ & H)]].
  - discriminate H.
  - discriminate H.
  - exists p, m. exact H.
Defined.

(** With a capital letter at the start the children of the root keep the shift 0,
    and a search may stay where it is. *)
Definition capital : option (Z * memory) := acbm_init bump 1030 (Some [pattern 1 "ABBC"]) no_memory.

Lemma capital_never_returns :
  ∃ p m, capital = Some (p, m) ∧ ∀ fuel, acbm_search_ex fuel p m (bytes "ABBB") 32 = None.
Proof.
  destruct capital as [[p [h ts]]|] eqn:E; [|by vm_compute in E]. exists p, (Mem h ts). split; [done|].
  assert (∃ t, ts !! p = Some t ∧ min_pattern_size t = 4 ∧
    (∃ x, ∀ n, walk (λ l base, (l, base)) (4 + n) h (bytes "ABBB") 32 0 (root t) 0 [] = Some (x, 3, [], false) ∧
       next_base t h (bytes "ABBB") 0 x 3 = Some 0) ∧
    ∀ n, (n < 4)%nat → walk (λ l base, (l, base)) n h (bytes "ABBB") 32 0 (root t) 0 [] = None)
    as (t & Ht & Hmin & (x & Hx) & Hshort).
  { vm_compute in E. injection E as <- <- <-. eexists. split; [vm_compute; reflexivity|].
    split; [vm_compute; reflexivity|]. split.
    - eexists. intros n. split; vm_compute; reflexivity.
    - intros n Hn. do 4 (destruct n as [|n]; [vm_compute; reflexivity|]). lia. }
  clear E. assert (∀ fuel, search_loop (λ l base, (l, base)) fuel t h (bytes "ABBB") 32 0 [] = None) as Hloop.
  { intros fuel. induction fuel as [|fuel IH]; [done|]. cbn [search_loop]. rewrite (proj2 (Z.leb_le 0 0)) by done.
    destruct (decide (S fuel < 4)%nat) as [Hf|Hf]; [by rewrite Hshort|].
    destruct (Hx (S fuel - 4)%nat) as [Hwalk Hnext]. replace (4 + (S fuel - 4))%nat with (S fuel) in Hwalk by lia.
    rewrite Hwalk. cbn [mbind option_bind]. by rewrite Hnext. }
  intros fuel. unfold acbm_search_ex. cbn [trees nodes]. rewrite Ht. cbn [mbind option_bind].
  unfold search. rewrite Hmin. apply Hloop.
Qed.
